(* ===== verification/_CoqProject ===== *)
-Q . S2P
Prelude.v
RustStr.v
BTree.v
Errors.v
External.v
Reference.v
Http.v
Pdp.v
Config.v
SocketAddr.v
Decode.v
Document.v
Routing.v
RateLimit.v
Identity.v
Tls.v
PolicyHash.v
Purpose.v
Conformance.v
Redaction.v
ConfigValidate.v
Proxy.v
AuditTrail.v
Connection.v
Concurrent.v
RouterRate.v
Timing.v
EndToEnd.v
Main.v
System.v
