(* ===== verification/Prelude.v ===== *)
(** * Registry Trust Connector: a verified model

    The Registry Trust Connector is a small mTLS policy proxy.  A client connector
    listens locally, picks a route by path prefix, attaches a data purpose and
    forwards to a server connector over mTLS; the server connector authenticates the
    peer, routes by path and identity, authorises purpose and trust assertions
    through a policy decision point, applies a rate limit, replaces the caller's
    credentials by its own and forwards to a private upstream.  This library is a
    shallow embedding of the Rust sources under [src/src] and the theorems that make
    them correct.

    ** Files, in dependency order

    - [Prelude] (this file): [result], option helpers, automation, shared lemmas.
    - [RustStr]: what the sources use of [str]: [trim], [split], [strip_prefix],
      [to_ascii_lowercase], [parse::<u64>], hexadecimal; strings are byte strings.
    - [BTree]: [BTreeSet] and [BTreeMap] with string keys, [gset] and [gmap] with
      iteration in key order.
    - [Errors] ([errors.rs]): the closed set of problems and of start-up errors.
    - [External], [Http], [Pdp]: the libraries the connector calls, as classes of
      operations with classes of laws: percent decoding, URLs (with the path
      normalisation of the URL standard), SHA-256, certificates and TLS; header maps,
      header filters and bodies; the policy decision point, with the gates a permit
      has passed.  [Reference] and the ends of [Http], [Pdp] and [Redaction] have
      concrete instances that satisfy the laws; the witnesses run on them.
    - [Config] ([config.rs], types and accessors): the configuration records.
    - [SocketAddr] (the standard library's [SocketAddr::from_str], which decides what
      [listen] means): the parser, what it yields, and that printed addresses are read.
    - [Decode] ([config.rs], the [Deserialize] impls): the decoders that the attributes
      of the structs describe, over the nodes of a YAML document.
    - [Document] ([config.rs], seen from the document): the schema every accepted
      document follows, a document for every well-typed configuration, and an instance
      of the YAML interface.
    - [Routing] ([routing.rs]): path canonicalisation, prefix matching and rewriting,
      route selection in both modes.
    - [RateLimit] ([proxy.rs], [RequestRateLimiter]): the fixed-window limiter, and
      the abstract limiter it refines.
    - [Identity] ([identity.rs]): the identity a certificate yields, and the checks
      of certificate files.
    - [Tls] ([tls.rs]): the trust policy built from the configuration, and
      [verify_peer].
    - [PolicyHash] ([proxy.rs] and [config.rs]): the canonical text of a route's
      policy, its hash, and the cache cells, which form a store because they are
      mutated through shared references.
    - [Purpose] ([proxy.rs], from [resolve_client_purpose] to [pdp_problem_code]):
      purposes, entitlements and the policy decision.
    - [Conformance] ([proxy.rs], [mod tests]): the unit tests that come with the proxy,
      as functions to their verdicts, run on the reference instances.
    - [Redaction] ([redaction.rs], [logging.rs]): keyed hashes for the log, the log
      format and the subscriber that is installed.
    - [ConfigValidate] ([config.rs], validators): each validator is the list of the
      messages it pushes.
    - [Proxy] ([proxy.rs], state and handlers): [handle_client], [handle_server] and
      [proxy_handler] as programs of a monad with the shared mutable state, a trace of
      effects and an error that is a problem or a panic.  The trace has the requests
      sent upstream, the lines of policy decisions and those of authorised requests.
    - [AuditTrail] ([proxy.rs], the lines of the handlers): what the logs say and what they
      can depend on.
    - [Connection] ([main.rs], the task per connection): the outcome of the handshake,
      the peer's certificates, the requests the protocol lets a connection carry, and
      the service that hands them to the router.
    - [Concurrent] ([proxy.rs], [router] and the handlers): requests in flight at the
      same time.  A handler is a program that names its accesses to the shared limiter
      and caches and the points at which it waits; [Router] interleaves them access by
      access under the limit on requests in flight, and callers may drop a request at
      any access.  The programs are proved equal to the handlers of [Proxy].
    - [RouterRate] ([proxy.rs], the limiter under the router): the consultations of the
      shared limiter along an execution of any length, and the bound they put on what
      is sent.
    - [Timing] ([proxy.rs], the timeout of [proxy_handler]): a handler on a clock, kept
      at each waiting point for as long as the awaited thing takes, possibly for ever,
      and cut off at its deadline.
    - [EndToEnd]: a client connector and a server connector in a row; the network may
      add the headers of its stack and nothing else.
    - [Main] ([main.rs]): the process from its arguments to its exit code (commands,
      reports, start-up, binding), and the accept loop as a transition system over its
      connection permits.
    - [System] ([main.rs] and [proxy.rs]): the accept loop, the connection tasks and the
      router as one transition system.

    ** What the theorems show

    The properties are the theorems of the [Claims] modules.  Routing: which paths
    are accepted and what they become, that matching is by whole segments, that
    rewriting stays under the upstream prefix, and that the most specific route wins.  Peers: which identity a certificate
    yields, and that an accepted peer is anchored for its identity and not denied.
    Rate limit: an invariant, the refinement, at most twice the limit in any minute,
    and recovery.  Policy: the hashed text commits to exactly the policy, the cache
    is invisible, an authorised request satisfies every gate, the minimum assurance
    and the age of its own evidence included, with assertions the peer is entitled to, assertions without entitlement have no influence, and every
    denial has one of the stable codes.  Validation: the accepted configurations
    are characterised exactly for both modes.  Handlers: nothing is sent upstream
    unless every gate is passed, a refusal sends nothing, the headers handed to the
    HTTP client are determined exactly (the client adds its own [User-Agent], which is
    part of how it is built), the response is the upstream's, the completion line agrees with
    the response, only authorised callers are charged, no request makes the server
    panic, and with a validated configuration an authorised request gets the
    upstream's answer when what it needs can be sent and the upstream answers.  Logs:
    with the [info] level on, a request leaves exactly one decision line when the
    decision point was asked, whatever becomes of it, and the line agrees with the
    answer; and bodies, queries, other headers, credentials and shared state have no
    influence on the decision lines, nor, for callers who are answered alike, on the
    completion line.  Concurrency: every interleaving of requests, some of
    them dropped by their callers, has the outcome of a sequential order of requests,
    and never more than the limit are in flight.  Time: whatever a handler waits for and
    however long, its answer is there by the request timeout, and is that of a handler
    in which the timeout struck at one point or at none; without the timeout it need not
    be ([silent_upstream]).  Two connectors in a row: what the registry receives
    is determined by what the server connector verified and by what the client
    connector resolved, the registry's answer reaches the caller, and a path that
    the URL leaves alone is routed by the server as the client meant it.  Documents:
    unknown, repeated and missing fields are
    refused at every depth, and every well-typed configuration has a document that is
    read back as it.  Connections: whatever is sent for a connection is sent for the
    identity its own handshake proved, and every request is answered.  Program: a
    server that listens has been validated, [validate] exits successfully exactly when
    the file is read, decoded and valid, in both formats, and in every state the whole
    server reaches, however long it has run, the limits on connections, requests and rate
    hold, whatever was sent was sent for the identity of the connection it arrived on,
    and no such state is stuck: a started server can always answer the requests in
    flight and take back every permit.  The unit tests of the proxy
    pass on the model ([Conformance.unit_tests_pass]).

    Six theorems state behaviour that looks unintended: a request that goes to another
    path upstream than the one its route was selected for, by doubly encoded dot
    segments or a decoded question mark ([canonical_path_reinterpreted] of [EndToEnd]), repeated header values that are
    dropped ([repeated_header_values_dropped]), an expiry threshold that wraps
    around ([expiry_warning_exact], second part), limits that pass validation and crash
    the start-up ([server_starts_validated], second case), a denial code other than
    the documented one ([unlisted_purpose_is_policy_denial]), and a connector id that
    passes validation and refuses every request ([connector_id_unchecked]).

    ** Conventions and bounds

    [u64], [u32] and [usize] are [N], [i64] is [Z]; wrap-around is written out where
    the source can reach it (the limiter's counter, the expiry threshold).  A
    [SystemTime] is nanoseconds since the epoch in [Z], an [Instant] nanoseconds of a
    monotonic clock in [N].  Clock readings, environment variables, the file system,
    the upstream's answer and the point at which a timeout strikes are arguments, so
    theorems hold for all of them.  A verification of a peer reads the clock twice
    ([VerifyClock]); a run of the configuration validators, which reads it once per
    certificate, has one reading.  The lines at level [info] inside the handlers depend
    on whether that level is enabled; the completion line is produced in any case and
    left to the subscriber.  A warning about an expiring certificate is recorded by the
    path of the certificate.  All loops are structural recursions except the
    index loop of the escape check, which has fuel; the length of the input is
    enough ([percent_index_loop_terminates]).  The limiter and the caches are behind
    mutexes that the source holds for one call, so a call is one step of [Concurrent].
    There, a wait is a step too, and the environment of the request says whether the
    timeout strikes in it; [Timing] derives that from arrival times.  The limiter reads
    the clock before it takes its mutex, so readings of concurrent requests need not be
    in the order of their consultations; the bound on the rate is stated for stretches
    of consultations and, where the readings are in order, for every minute.  The cell
    of a route's policy hash, which the source does not read from the document, is
    numbered by the place of the route.

    ** Not modelled

    The parsing of YAML text into nodes and of primitive values (a library; which of
    several errors of a document is reported first is its choice), the rendering of
    JSON, the parser [clap] derives for the command line, the filter language of the
    tracing library, sockets, TLS handshakes, HTTP parsing and the asynchronous runtime
    are libraries the sources only call.  They are parameters, and where the sources
    rely on their documented behaviour the laws are hypotheses with an instance.  The
    pause after a failed [accept] ([ACCEPT_ERROR_BACKOFF]) has no effect but time, and
    the process-wide cryptography provider ([ensure_crypto_provider]) has no observable
    result; both are left out. [path_for_json] is the identity, because paths are
    strings here, and the time stamp of the report ([now_rfc3339]) is an argument.
    The demo relay is not part of the program. [required_context] of the policy
    input, which is always its default, is left out of the record. *)
From stdpp Require Export base gmap sets list strings option numbers.

(** ** Rust's [Result]

    [result E A] is [Result<A, E>]; the error type comes first so that
    [result E] is a monad for stdpp's [x ← e; k] notation, which plays the
    role of Rust's [?] operator. *)
Inductive result (E A : Type) : Type :=
| Ok (a : A)
| Err (e : E).
Arguments Ok {E A} a.
Arguments Err {E A} e.

Global Instance result_ret E : MRet (result E) := λ A a, Ok a.
Global Instance result_bind E : MBind (result E) := λ A B f r,
  match r with Ok a => f a | Err e => Err e end.
Global Instance result_fmap E : FMap (result E) := λ A B f r,
  match r with Ok a => Ok (f a) | Err e => Err e end.

(** [Option::ok_or]. *)
Definition ok_or {E A} (e : E) (o : option A) : result E A :=
  match o with Some a => Ok a | None => Err e end.

(** [Result::map_err]. *)
Definition map_err {E F A} (f : E → F) (r : result E A) : result F A :=
  match r with Ok a => Ok a | Err e => Err (f e) end.

(** [Result::is_ok] / [Result::is_err]. *)
Definition is_ok {E A} (r : result E A) : bool :=
  match r with Ok _ => true | Err _ => false end.

(** [Result::err]. *)
Definition result_err {E A} (r : result E A) : option E :=
  match r with Ok _ => None | Err e => Some e end.

(** [Option::is_some], [Option::is_some_and] and [Option::unwrap_or]. *)
Definition is_some {A} (o : option A) : bool :=
  match o with Some _ => true | None => false end.
Definition is_some_and {A} (p : A → bool) (o : option A) : bool :=
  match o with Some a => p a | None => false end.
Definition unwrap_or {A} (d : A) (o : option A) : A :=
  match o with Some a => a | None => d end.

(** [Option::filter]. *)
Definition opt_filter {A} (p : A → bool) (o : option A) : option A :=
  match o with Some a => if p a then Some a else None | None => None end.

(** [slice::is_empty]. *)
Definition is_empty {A} (l : list A) : bool :=
  match l with [] => true | _ :: _ => false end.

(** ** Notation scope of the development *)
Declare Scope connector_scope.
Delimit Scope connector_scope with connector.
Notation "'when' b 'push' e" := (if b then [e] else [])
  (at level 70, b at level 69, e at level 69) : connector_scope.

(** ** Automation

    [connector] collects the lemmas that close the routine side conditions of
    the components: option and result inversions, list membership. *)
Create HintDb connector.
Create Rewrite HintDb connector_nil.

(** Splits every conjunction, existential and [Ok]/[Some] equation in the
    context. *)
Ltac inv_all :=
  repeat match goal with
  | H : _ ∧ _ |- _ => destruct H
  | H : ∃ _, _ |- _ => destruct H
  | H : Ok _ = Ok _ |- _ => injection H as H; subst
  | H : Err _ = Err _ |- _ => injection H as H; subst
  | H : Ok _ = Err _ |- _ => discriminate H
  | H : Err _ = Ok _ |- _ => discriminate H
  | H : Some _ = Some _ |- _ => injection H as H; subst
  | H : Some _ = None |- _ => discriminate H
  | H : None = Some _ |- _ => discriminate H
  end.

(** Closes an equivalence both sides of which are contradictory. *)
Ltac refute_iff := split; intros; inv_all; congruence.

(** One monadic step of a hypothesis [x ← e; k = Ok b]. *)
Ltac bind_step H x E :=
  match type of H with
  | mbind _ ?e = _ => destruct e as [x|] eqn:E; simpl in H; [|try discriminate H]
  end.

(** Turns a boolean hypothesis into the proposition it decides. *)
Ltac bool_to_prop :=
  repeat match goal with
  | H : _ && _ = true |- _ => apply andb_true_iff in H; destruct H
  | H : _ || _ = false |- _ => apply orb_false_iff in H; destruct H
  | H : negb _ = true |- _ => apply negb_true_iff in H
  | H : negb _ = false |- _ => apply negb_false_iff in H
  | H : bool_decide _ = true |- _ => apply bool_decide_eq_true in H
  | H : bool_decide _ = false |- _ => apply bool_decide_eq_false in H
  end.

(** ** Shared lemmas *)
Section result_lemmas.
Context {E A B : Type}.
Implicit Types (r : result E A) (f : A → result E B).

Lemma bind_Ok_inv r f b :
  r ≫= f = Ok b → ∃ a, r = Ok a ∧ f a = Ok b.
Proof. destruct r; simpl; [eauto|discriminate]. Qed.

Lemma bind_Err_inv r f e :
  r ≫= f = Err e → r = Err e ∨ ∃ a, r = Ok a ∧ f a = Err e.
Proof. destruct r; simpl; [eauto|]. intros [= ->]. by left. Qed.

Lemma ok_or_Ok (e : E) (o : option A) a : ok_or e o = Ok a ↔ o = Some a.
Proof. destruct o; simpl; split; congruence. Qed.

Lemma ok_or_Err (e e' : E) (o : option A) : ok_or e o = Err e' ↔ o = None ∧ e' = e.
Proof. destruct o; simpl; naive_solver. Qed.

Lemma map_err_Ok {F} (g : E → F) r a : map_err g r = Ok a ↔ r = Ok a.
Proof. destruct r; simpl; split; congruence. Qed.

Lemma map_err_Err {F} (g : E → F) r e' :
  map_err g r = Err e' ↔ ∃ e, r = Err e ∧ e' = g e.
Proof. destruct r; simpl; naive_solver. Qed.
End result_lemmas.

Lemma opt_filter_Some {A} (p : A → bool) o a :
  opt_filter p o = Some a ↔ o = Some a ∧ p a = true.
Proof.
  destruct o as [x|]; simpl; [|split; [discriminate|by intros [? _]]].
  destruct (p x) eqn:Hp; split; intros H; inv_all; try split; congruence.
Qed.

Lemma is_some_and_true {A} (p : A → bool) o :
  is_some_and p o = true ↔ ∃ a, o = Some a ∧ p a = true.
Proof. destruct o; simpl; naive_solver. Qed.

Lemma is_empty_true {A} (l : list A) : is_empty l = true ↔ l = [].
Proof. by destruct l. Qed.

Lemma is_empty_false {A} (l : list A) : is_empty l = false ↔ l ≠ [].
Proof. by destruct l. Qed.

Lemma existsb_elem_of {A} (p : A → bool) (l : list A) :
  existsb p l = true ↔ ∃ x, x ∈ l ∧ p x = true.
Proof. rewrite existsb_exists. setoid_rewrite list_elem_of_In. done. Qed.

Lemma forallb_elem_of {A} (p : A → bool) (l : list A) :
  forallb p l = true ↔ ∀ x, x ∈ l → p x = true.
Proof. rewrite forallb_forall. setoid_rewrite list_elem_of_In. done. Qed.

Lemma Forall_elem {A} (P : A → Prop) (l : list A) x : Forall P l → x ∈ l → P x.
Proof. intros HF Hx. rewrite List.Forall_forall in HF. apply HF. by apply list_elem_of_In. Qed.

Lemma when_push_nil {A} (b : bool) (e : A) : (if b then [e] else []) = [] ↔ b = false.
Proof. by destruct b. Qed.

#[export] Hint Resolve list_elem_of_here list_elem_of_further : connector.
#[export] Hint Rewrite @when_push_nil @app_nil : connector_nil.
