(* ===== verification/RustStr.v ===== *)
(** * Rust strings

    A Rust [String] or [&str] is a sequence of UTF-8 bytes; it is modelled by
    the Standard Library's [string], whose characters are 8-bit [ascii] values,
    so that [String.length] is Rust's byte length [str::len].  The file holds
    the operations of [core::str] the connector calls, each executable, with the
    lemmas the components share.  Nothing of the connector itself is here. *)
From S2P Require Import Prelude.
From stdpp Require Import pretty.
From Stdlib Require Import Ascii.
Local Open Scope N_scope.

Notation "s1 =?s s2" := (String.eqb s1 s2) (at level 70) : connector_scope.
Open Scope connector_scope.

#[global] Arguments Ascii.eqb : simpl never.

(** ** Bytes *)
Definition byte_val (c : ascii) : N := N_of_ascii c.
Definition byte_in (lo hi : N) (c : ascii) : bool :=
  (lo <=? byte_val c) && (byte_val c <=? hi).

Definition is_ascii_digit (c : ascii) : bool := byte_in 48 57 c.
Definition is_ascii_lower (c : ascii) : bool := byte_in 97 122 c.
Definition is_ascii_upper (c : ascii) : bool := byte_in 65 90 c.
Definition is_ascii_alphanumeric (c : ascii) : bool :=
  is_ascii_digit c || is_ascii_lower c || is_ascii_upper c.
Definition is_ascii_hexdigit (c : ascii) : bool :=
  is_ascii_digit c || byte_in 97 102 c || byte_in 65 70 c.

(** [u8::to_ascii_lowercase] and [str::to_ascii_lowercase]. *)
Definition byte_lower (c : ascii) : ascii :=
  if is_ascii_upper c then ascii_of_N (byte_val c + 32) else c.
Fixpoint to_ascii_lowercase (s : string) : string :=
  match s with
  | EmptyString => EmptyString
  | String c s => String (byte_lower c) (to_ascii_lowercase s)
  end.

(** ** Searching *)
Definition str_is_empty (s : string) : bool :=
  match s with EmptyString => true | String _ _ => false end.

(** [s.bytes().all(p)]. *)
Fixpoint bytes_all (p : ascii → bool) (s : string) : bool :=
  match s with EmptyString => true | String c s => p c && bytes_all p s end.

(** [s.as_bytes().contains(&c)] and [s.contains(c)] for an ASCII [c]. *)
Fixpoint str_contains (c : ascii) (s : string) : bool :=
  match s with EmptyString => false | String d s => Ascii.eqb c d || str_contains c s end.

(** [s.as_bytes().iter().filter(|b| **b == c).count()]. *)
Fixpoint count_byte (c : ascii) (s : string) : nat :=
  match s with
  | EmptyString => 0
  | String d s => (if Ascii.eqb c d then 1 else 0) + count_byte c s
  end%nat.

(** [str::strip_prefix]. *)
Fixpoint strip_prefix (p s : string) : option string :=
  match p, s with
  | EmptyString, _ => Some s
  | String c p, String d s => if Ascii.eqb c d then strip_prefix p s else None
  | String _ _, EmptyString => None
  end.

(** [str::starts_with] for a string, and for an ASCII character. *)
Definition starts_with (p s : string) : bool := is_some (strip_prefix p s).
Definition starts_with_char (c : ascii) (s : string) : bool :=
  match s with EmptyString => false | String d _ => Ascii.eqb c d end.

(** [str::ends_with] for an ASCII character. *)
Fixpoint ends_with_char (c : ascii) (s : string) : bool :=
  match s with
  | EmptyString => false
  | String d EmptyString => Ascii.eqb c d
  | String _ s => ends_with_char c s
  end.

(** [s.split(c)] for an ASCII character: the pieces, always at least one. *)
Fixpoint split_char (c : ascii) (s : string) : list string :=
  match s with
  | EmptyString => [EmptyString]
  | String d s =>
      if Ascii.eqb c d then EmptyString :: split_char c s
      else match split_char c s with
           | [] => [String d EmptyString]
           | w :: ws => String d w :: ws
           end
  end.

(** The inverse of [split_char]: [pieces.join(c)]. *)
Fixpoint join_char (c : ascii) (l : list string) : string :=
  match l with
  | [] => EmptyString
  | [w] => w
  | w :: l => w +:+ String c (join_char c l)
  end.

(** ** [str::trim]

    Rust trims the Unicode [White_Space] characters.  In UTF-8 they are the
    bytes 09-0D and 20, the two-byte sequences C2 85 and C2 A0, and the
    three-byte sequences E1 9A 80, E2 80 80-8A, E2 80 A8, E2 80 A9, E2 80 AF,
    E2 81 9F and E3 80 80. *)
Definition ws1 (a : ascii) : bool := byte_in 9 13 a || byte_in 32 32 a.
Definition ws2 (a b : ascii) : bool :=
  byte_in 194 194 a && (byte_in 133 133 b || byte_in 160 160 b).
Definition ws3 (a b c : ascii) : bool :=
  (byte_in 225 225 a && byte_in 154 154 b && byte_in 128 128 c)
  || (byte_in 226 226 a && byte_in 128 128 b
      && (byte_in 128 138 c || byte_in 168 169 c || byte_in 175 175 c))
  || (byte_in 226 226 a && byte_in 129 129 b && byte_in 159 159 c)
  || (byte_in 227 227 a && byte_in 128 128 b && byte_in 128 128 c).

(** Drops the longest run of white-space sequences at the front, for white
    space given by its one-, two- and three-byte forms. *)
Section strip.
Variable w2 : ascii → ascii → bool.
Variable w3 : ascii → ascii → ascii → bool.

Fixpoint strip_ws (s : string) : string :=
  match s with
  | EmptyString => EmptyString
  | String a s1 =>
      if ws1 a then strip_ws s1 else
      match s1 with
      | EmptyString => s
      | String b s2 =>
          if w2 a b then strip_ws s2 else
          match s2 with
          | EmptyString => s
          | String c s3 => if w3 a b c then strip_ws s3 else s
          end
      end
  end.
End strip.

Definition trim_start (s : string) : string := strip_ws ws2 ws3 s.
Definition trim_end (s : string) : string :=
  String.rev (strip_ws (λ a b, ws2 b a) (λ a b c, ws3 c b a) (String.rev s)).
Definition trim (s : string) : string := trim_end (trim_start s).

(** ** Decimal numbers: [u64::to_string] and [str::parse::<u64>] *)
Definition u64_bound : N := 2 ^ 64.
Definition u64_to_string (n : N) : string := pretty n.

Definition digit_val (c : ascii) : option N :=
  if is_ascii_digit c then Some (byte_val c - 48) else None.

(** Rust's [from_str_radix] loop: multiply by ten, add the digit, fail on
    overflow. *)
Fixpoint parse_digits (acc : N) (s : string) : option N :=
  match s with
  | EmptyString => Some acc
  | String c s =>
      match digit_val c with
      | None => None
      | Some d =>
          if acc * 10 + d <? u64_bound then parse_digits (acc * 10 + d) s else None
      end
  end.

(** An empty string is an error, one leading [+] is accepted when a digit
    follows. *)
Definition parse_u64 (s : string) : option N :=
  match s with
  | EmptyString => None
  | String c rest =>
      if Ascii.eqb c "+" then
        match rest with EmptyString => None | _ => parse_digits 0 rest end
      else parse_digits 0 s
  end.

(** ** Two-digit lower-case hexadecimal: [format!("{b:02x}")] *)
Definition hex_digit (n : N) : ascii :=
  if n <? 10 then ascii_of_N (48 + n) else ascii_of_N (87 + n).
Definition hex_byte (c : ascii) : string :=
  String (hex_digit (byte_val c / 16)) (String (hex_digit (byte_val c mod 16)) EmptyString).
Fixpoint hex_bytes (s : string) : string :=
  match s with
  | EmptyString => EmptyString
  | String c s => hex_byte c +:+ hex_bytes s
  end.

(** ** Lemmas: append and length *)
Lemma str_app_nil_r (s : string) : s +:+ EmptyString = s.
Proof. induction s as [|c s IH]; [done|]. change (String c (s +:+ EmptyString) = String c s). by rewrite IH. Qed.

Lemma str_app_assoc (s t u : string) : s +:+ (t +:+ u) = (s +:+ t) +:+ u.
Proof.
  induction s as [|c s IH]; [done|].
  change (String c (s +:+ (t +:+ u)) = String c ((s +:+ t) +:+ u)). by rewrite IH.
Qed.

Lemma str_app_cons (c : ascii) (s t : string) : String c s +:+ t = String c (s +:+ t).
Proof. done. Qed.

Lemma str_length_app (s t : string) :
  String.length (s +:+ t) = (String.length s + String.length t)%nat.
Proof. induction s as [|c s IH]; [done|]. rewrite str_app_cons. simpl. by rewrite IH. Qed.

Lemma str_app_eq_nil (s t : string) : s +:+ t = EmptyString → s = EmptyString ∧ t = EmptyString.
Proof. destruct s; [done|]. rewrite str_app_cons. discriminate. Qed.

Lemma str_is_empty_true s : str_is_empty s = true ↔ s = EmptyString.
Proof. by destruct s. Qed.

Lemma str_app_length_inj (s1 s2 t1 t2 : string) :
  String.length s1 = String.length s2 → s1 +:+ t1 = s2 +:+ t2 → s1 = s2 ∧ t1 = t2.
Proof.
  revert s2. induction s1 as [|c s1 IH]; intros [|d s2] Hlen; try discriminate; [done|].
  rewrite !str_app_cons. intros [= -> H]. injection Hlen as Hlen.
  by destruct (IH _ Hlen H) as [-> ->].
Qed.

(** ** Lemmas: [strip_prefix] *)
Lemma strip_prefix_Some p s r : strip_prefix p s = Some r ↔ s = p +:+ r.
Proof.
  revert s. induction p as [|c p IH]; intros s; simpl.
  { split; [by intros [= ->]|by intros ->]. }
  destruct s as [|d s].
  { split; [discriminate|]. rewrite str_app_cons. discriminate. }
  rewrite str_app_cons. destruct (Ascii.eqb_spec c d) as [->|Hne].
  - rewrite IH. split; [by intros ->|by intros [= ->]].
  - split; [discriminate|]. intros [= ? ?]. congruence.
Qed.

Lemma starts_with_true p s : starts_with p s = true ↔ ∃ r, s = p +:+ r.
Proof.
  unfold starts_with. destruct (strip_prefix p s) as [r|] eqn:H; simpl.
  - apply strip_prefix_Some in H. naive_solver.
  - split; [discriminate|]. intros [r Hr]. apply strip_prefix_Some in Hr. congruence.
Qed.

Lemma starts_with_char_true c s : starts_with_char c s = true ↔ ∃ r, s = String c r.
Proof.
  destruct s as [|d s]; simpl; [split; [done|by intros [? ?]]|].
  rewrite Ascii.eqb_eq. naive_solver.
Qed.

Lemma ends_with_char_true c s :
  ends_with_char c s = true ↔ ∃ r, s = r +:+ String c EmptyString.
Proof.
  induction s as [|d s IH].
  { split; [done|]. intros [r Hr]. symmetry in Hr. by apply str_app_eq_nil in Hr as [_ ?]. }
  destruct s as [|e s].
  - simpl. rewrite Ascii.eqb_eq. split.
    + intros ->. by exists EmptyString.
    + intros [[|x r] Hr]; rewrite ?str_app_cons in Hr; [by injection Hr|].
      injection Hr as -> Hr. symmetry in Hr. by apply str_app_eq_nil in Hr as [_ ?].
  - change (ends_with_char c (String d (String e s))) with (ends_with_char c (String e s)).
    rewrite IH. split; intros [r Hr].
    + exists (String d r). rewrite str_app_cons. by rewrite Hr.
    + destruct r as [|x r]; [discriminate|]. rewrite str_app_cons in Hr.
      injection Hr as _ Hr. by exists r.
Qed.

Lemma str_contains_app c s t : str_contains c (s +:+ t) = str_contains c s || str_contains c t.
Proof. induction s as [|d s IH]; [done|]. rewrite str_app_cons. simpl. by rewrite IH, orb_assoc. Qed.

Lemma count_byte_app c s t : count_byte c (s +:+ t) = (count_byte c s + count_byte c t)%nat.
Proof. induction s as [|d s IH]; [done|]. rewrite str_app_cons. simpl. rewrite IH. lia. Qed.

Lemma count_byte_0 c s : count_byte c s = 0%nat ↔ str_contains c s = false.
Proof.
  induction s as [|d s IH]; simpl; [done|]. destruct (Ascii.eqb c d); simpl; [done|].
  rewrite <- IH. done.
Qed.

(** A separator that occurs in neither of two heads splits the strings uniquely. *)
Lemma str_app_sep_inj (c : ascii) (s1 s2 t1 t2 : string) :
  str_contains c s1 = false → str_contains c s2 = false →
  s1 +:+ String c t1 = s2 +:+ String c t2 → s1 = s2 ∧ t1 = t2.
Proof.
  revert s2. induction s1 as [|a s1 IH]; intros [|b s2] H1 H2;
    rewrite ?str_app_cons; change (EmptyString +:+ ?x) with x; intros Heq.
  - by injection Heq.
  - injection Heq as <- _. simpl in H2. by rewrite Ascii.eqb_refl in H2.
  - injection Heq as -> _. simpl in H1. by rewrite Ascii.eqb_refl in H1.
  - injection Heq as -> Hr. simpl in H1, H2.
    apply orb_false_iff in H1 as [_ H1]. apply orb_false_iff in H2 as [_ H2].
    destruct (IH _ H1 H2 Hr) as [-> ->]. done.
Qed.

(** ** Lemmas: [split_char] and [join_char] *)
Lemma split_char_ne c s : split_char c s ≠ [].
Proof. destruct s as [|d s]; simpl; [done|]. destruct (Ascii.eqb c d); [done|]. by destruct (split_char c s). Qed.

Lemma split_char_cons_ne c d s w ws :
  Ascii.eqb c d = false → split_char c s = w :: ws →
  split_char c (String d s) = String d w :: ws.
Proof. simpl. by intros -> ->. Qed.

Lemma join_split_char c s : join_char c (split_char c s) = s.
Proof.
  induction s as [|d s IH]; [done|]. simpl. destruct (Ascii.eqb_spec c d) as [->|Hne].
  - destruct (split_char d s) as [|w ws] eqn:E; [by apply split_char_ne in E|].
    simpl. rewrite <- IH. done.
  - destruct (split_char c s) as [|w ws] eqn:E; [by apply split_char_ne in E|].
    rewrite <- IH. by destruct ws.
Qed.

Lemma split_char_no_sep c s w : w ∈ split_char c s → str_contains c w = false.
Proof.
  revert w. induction s as [|d s IH]; simpl; intros w.
  { rewrite list_elem_of_singleton. by intros ->. }
  destruct (Ascii.eqb_spec c d) as [->|Hne].
  - rewrite elem_of_cons. intros [->|?]; [done|by apply IH].
  - destruct (split_char c s) as [|v vs] eqn:E; [by apply split_char_ne in E|].
    rewrite elem_of_cons. intros [->|?]; [|by apply IH, elem_of_cons; right].
    simpl. apply orb_false_iff. split; [by apply Ascii.eqb_neq|].
    apply IH. apply elem_of_cons. by left.
Qed.

Lemma split_char_no_sep_id c s : str_contains c s = false → split_char c s = [s].
Proof.
  induction s as [|d s IH]; simpl; [done|]. intros [-> ?]%orb_false_iff. by rewrite IH.
Qed.

Lemma split_char_app_sep c s t :
  split_char c (s +:+ String c t) = split_char c s ++ split_char c t.
Proof.
  induction s as [|d s IH].
  { change (EmptyString +:+ String c t) with (String c t). simpl. by rewrite Ascii.eqb_refl. }
  rewrite str_app_cons. simpl. rewrite IH. destruct (Ascii.eqb c d); [done|].
  destruct (split_char c s) as [|w ws] eqn:E; [by apply split_char_ne in E|]. done.
Qed.

Lemma split_char_inj c s t : split_char c s = split_char c t → s = t.
Proof. intros H. by rewrite <- (join_split_char c s), H, join_split_char. Qed.

Lemma length_split_char c s : length (split_char c s) = S (count_byte c s).
Proof.
  induction s as [|d s IH]; simpl; [done|]. destruct (Ascii.eqb c d); simpl; [by rewrite IH|].
  destruct (split_char c s) as [|w ws] eqn:E; [by apply split_char_ne in E|]. done.
Qed.

(** ** Lemmas: [String.rev] *)
Lemma rev_app_spec s t : String.rev_app s t = String.rev s +:+ t.
Proof.
  unfold String.rev. revert t. induction s as [|c s IH]; intros t; simpl; [done|].
  rewrite IH, (IH (String c EmptyString)), <- str_app_assoc. done.
Qed.

Lemma rev_cons c s : String.rev (String c s) = String.rev s +:+ String c EmptyString.
Proof. unfold String.rev at 1. simpl. apply rev_app_spec. Qed.

Lemma rev_app_distr s t : String.rev (s +:+ t) = String.rev t +:+ String.rev s.
Proof.
  induction s as [|c s IH].
  - change (EmptyString +:+ t) with t. by rewrite str_app_nil_r.
  - rewrite str_app_cons, !rev_cons, IH. by rewrite str_app_assoc.
Qed.

Lemma rev_involutive s : String.rev (String.rev s) = s.
Proof. induction s as [|c s IH]; [done|]. rewrite rev_cons, rev_app_distr, IH. done. Qed.

(** ** Lemmas: [trim]

    [ws_headed w2 w3 s]: a white-space sequence starts [s]. *)
Section strip_lemmas.
Variable w2 : ascii → ascii → bool.
Variable w3 : ascii → ascii → ascii → bool.
Abbreviation strip := (strip_ws w2 w3).

Definition ws_headed (s : string) : bool :=
  match s with
  | EmptyString => false
  | String a s1 =>
      ws1 a ||
      match s1 with
      | EmptyString => false
      | String b s2 =>
          w2 a b || match s2 with EmptyString => false | String c _ => w3 a b c end
      end
  end.

Lemma strip_headed_lt n s : (String.length s < n)%nat → ws_headed (strip s) = false.
Proof.
  revert s. induction n as [|n IH]; intros s Hn; [lia|].
  destruct s as [|a s1]; [done|]. simpl in Hn. simpl.
  destruct (ws1 a) eqn:H1; [apply IH; lia|].
  destruct s1 as [|b s2]; [simpl; by rewrite H1|]. simpl in Hn.
  destruct (w2 a b) eqn:H2; [apply IH; lia|].
  destruct s2 as [|c s3]; [simpl; by rewrite H1, H2|]. simpl in Hn.
  destruct (w3 a b c) eqn:H3; [apply IH; lia|]. simpl. by rewrite H1, H2, H3.
Qed.

Lemma strip_headed s : ws_headed (strip s) = false.
Proof. apply (strip_headed_lt (S (String.length s))). lia. Qed.

Lemma strip_id s : ws_headed s = false → strip s = s.
Proof.
  destruct s as [|a s1]; [done|]. simpl. intros [-> H]%orb_false_iff.
  destruct s1 as [|b s2]; [done|]. apply orb_false_iff in H as [-> H].
  destruct s2 as [|c s3]; [done|]. by rewrite H.
Qed.

Lemma strip_suffix_lt n s : (String.length s < n)%nat → ∃ r, s = r +:+ strip s.
Proof.
  revert s. induction n as [|n IH]; intros s Hn; [lia|].
  destruct s as [|a s1]; [by exists EmptyString|]. simpl in Hn. simpl.
  destruct (ws1 a).
  { destruct (IH s1) as [r Hr]; [lia|]. exists (String a r). rewrite str_app_cons. by rewrite <- Hr. }
  destruct s1 as [|b s2]; [by exists EmptyString|]. simpl in Hn.
  destruct (w2 a b).
  { destruct (IH s2) as [r Hr]; [lia|]. exists (String a (String b r)).
    rewrite !str_app_cons. by rewrite <- Hr. }
  destruct s2 as [|c s3]; [by exists EmptyString|]. simpl in Hn.
  destruct (w3 a b c); [|by exists EmptyString].
  destruct (IH s3) as [r Hr]; [lia|]. exists (String a (String b (String c r))).
  rewrite !str_app_cons. by rewrite <- Hr.
Qed.

Lemma strip_suffix s : ∃ r, s = r +:+ strip s.
Proof. apply (strip_suffix_lt (S (String.length s))). lia. Qed.

Lemma ws_headed_prefix s t : ws_headed (s +:+ t) = false → ws_headed s = false.
Proof.
  destruct s as [|a [|b [|c s]]]; rewrite ?str_app_cons; simpl; [done|..];
    rewrite ?orb_false_iff; naive_solver.
Qed.
End strip_lemmas.

Lemma trim_idemp s : trim (trim s) = trim s.
Proof.
  unfold trim at 1. set (t := trim s).
  assert (Hstart : ws_headed ws2 ws3 t = false).
  { unfold t, trim, trim_end. set (u := trim_start s).
    destruct (strip_suffix (λ a b, ws2 b a) (λ a b c, ws3 c b a) (String.rev u)) as [r Hr].
    apply (f_equal String.rev) in Hr. rewrite rev_involutive, rev_app_distr in Hr.
    eapply ws_headed_prefix. rewrite <- Hr. apply strip_headed. }
  unfold trim_start. rewrite strip_id by done.
  unfold trim_end at 1.
  assert (Hrev : String.rev t = strip_ws (λ a b, ws2 b a) (λ a b c, ws3 c b a)
                                  (String.rev (trim_start s))) by apply rev_involutive.
  rewrite strip_id; [apply rev_involutive|]. rewrite Hrev. apply strip_headed.
Qed.

Lemma trim_empty : trim EmptyString = EmptyString.
Proof. done. Qed.

(** ** Lemmas: decimal round trip *)
Lemma digit_val_pretty n : n < 10 → digit_val (pretty_N_char n) = Some n.
Proof.
  intros Hn. destruct n as [|p]; [done|].
  do 4 (destruct p as [p|p|]; try done; try lia).
Qed.

Lemma parse_digits_go x s :
  parse_digits 0 (pretty_N_go x s) = if x <? u64_bound then parse_digits x s else None.
Proof.
  revert s. induction (N.lt_wf_0 x) as [x _ IH]. intros s.
  destruct (decide (x = 0)) as [->|Hne]; [by rewrite pretty_N_go_0|].
  assert (Hdiv : x `div` 10 < x) by (apply N.div_lt; lia).
  rewrite pretty_N_go_step by lia. rewrite IH by lia. simpl.
  pose proof (N.mod_lt x 10 ltac:(lia)) as Hmod.
  rewrite digit_val_pretty by done.
  replace (x `div` 10 * 10 + x `mod` 10) with x by (pose proof (N.div_mod' x 10); lia).
  destruct (N.ltb_spec (x `div` 10) u64_bound); [done|].
  destruct (N.ltb_spec x u64_bound); [lia|done].
Qed.

Lemma pretty_N_char_digit n : n < 10 → is_ascii_digit (pretty_N_char n) = true.
Proof. intros H. pose proof (digit_val_pretty n H) as E. unfold digit_val in E. by destruct (is_ascii_digit _). Qed.

Lemma pretty_N_go_digits x s :
  bytes_all is_ascii_digit (pretty_N_go x s) = bytes_all is_ascii_digit s.
Proof.
  revert s. induction (N.lt_wf_0 x) as [x _ IH]. intros s.
  destruct (decide (x = 0)) as [->|Hne]; [by rewrite pretty_N_go_0|].
  rewrite pretty_N_go_step by lia. rewrite IH by (apply N.div_lt; lia). simpl.
  by rewrite pretty_N_char_digit by (apply N.mod_lt; lia).
Qed.

Lemma pretty_N_go_ne x s : 0 < x → pretty_N_go x s ≠ EmptyString.
Proof.
  revert s. induction (N.lt_wf_0 x) as [x _ IH]. intros s Hx.
  rewrite pretty_N_go_step by lia. destruct (decide (x `div` 10 = 0)) as [->|].
  - by rewrite pretty_N_go_0.
  - apply IH; [apply N.div_lt; lia|]. by apply N.neq_0_lt_0.
Qed.

Lemma u64_to_string_ne n : u64_to_string n ≠ EmptyString.
Proof. unfold u64_to_string, pretty, pretty_N. case_decide; [done|]. apply pretty_N_go_ne. lia. Qed.

Lemma u64_to_string_digits n : bytes_all is_ascii_digit (u64_to_string n) = true.
Proof.
  unfold u64_to_string, pretty, pretty_N. case_decide; [done|]. by rewrite pretty_N_go_digits.
Qed.

(** Parsing what [u64::to_string] prints gives the number back; the text of a
    number that does not fit is refused. *)
Lemma parse_u64_of_string n :
  parse_u64 (u64_to_string n) = if n <? u64_bound then Some n else None.
Proof.
  pose proof (u64_to_string_ne n) as Hne. pose proof (u64_to_string_digits n) as Hd.
  assert (E : parse_digits 0 (u64_to_string n) = if n <? u64_bound then Some n else None).
  { unfold u64_to_string, pretty, pretty_N. case_decide as H0; [by subst|].
    by rewrite parse_digits_go. }
  destruct (u64_to_string n) as [|c s]; [done|]. simpl in Hd. apply andb_true_iff in Hd as [Hc _].
  unfold parse_u64. destruct (Ascii.eqb_spec c "+") as [->|_]; done.
Qed.

Lemma parse_u64_to_string n : n < u64_bound → parse_u64 (u64_to_string n) = Some n.
Proof. intros Hn%N.ltb_lt. by rewrite parse_u64_of_string, Hn. Qed.

Lemma parse_u64_to_string_inv n m : parse_u64 (u64_to_string n) = Some m → m = n.
Proof. rewrite parse_u64_of_string. case_match; congruence. Qed.

Lemma parse_digits_bound acc s n : acc < u64_bound → parse_digits acc s = Some n → n < u64_bound.
Proof.
  revert acc. induction s as [|c s IH]; intros acc Hacc; simpl; [congruence|].
  destruct (digit_val c) as [d|]; [|done].
  destruct (N.ltb_spec (acc * 10 + d) u64_bound); [|done]. by apply IH.
Qed.

Lemma parse_u64_bound s n : parse_u64 s = Some n → n < u64_bound.
Proof.
  destruct s as [|c s]; [done|]. unfold parse_u64. destruct (Ascii.eqb c "+").
  - destruct s; [done|]. by apply parse_digits_bound.
  - by apply parse_digits_bound.
Qed.

(** ** Lemmas: hexadecimal *)
Lemma bytes_all_app p s t : bytes_all p (s +:+ t) = bytes_all p s && bytes_all p t.
Proof. induction s as [|c s IH]; [done|]. rewrite str_app_cons. simpl. by rewrite IH, andb_assoc. Qed.

Lemma bytes_all_impl (p q : ascii → bool) s :
  (∀ c, p c = true → q c = true) → bytes_all p s = true → bytes_all q s = true.
Proof.
  intros Hpq. induction s as [|c s IH]; [done|]. simpl. intros [? ?]%andb_true_iff.
  apply andb_true_iff. auto.
Qed.

Lemma bytes_all_contains p c s : bytes_all p s = true → p c = false → str_contains c s = false.
Proof.
  induction s as [|d s IH]; simpl; [done|]. intros [Hd Hs]%andb_true_iff Hc.
  rewrite IH by done. destruct (Ascii.eqb_spec c d) as [->|]; [congruence|done].
Qed.

Lemma hex_digit_ok n : n < 16 → is_ascii_hexdigit (hex_digit n) = true ∧ byte_lower (hex_digit n) = hex_digit n.
Proof. intros Hn. destruct n as [|p]; [done|]. do 4 (destruct p as [p|p|]; try done; try lia). Qed.

Lemma byte_val_lt c : byte_val c < 256.
Proof. apply N_ascii_bounded. Qed.

Lemma hex_bytes_spec s :
  String.length (hex_bytes s) = (2 * String.length s)%nat ∧
  bytes_all is_ascii_hexdigit (hex_bytes s) = true ∧
  to_ascii_lowercase (hex_bytes s) = hex_bytes s.
Proof.
  induction s as [|c s (IH1 & IH2 & IH3)]; [done|].
  simpl hex_bytes. unfold hex_byte. rewrite !str_app_cons. change (EmptyString +:+ ?x) with x.
  pose proof (byte_val_lt c) as Hc.
  destruct (hex_digit_ok (byte_val c / 16)) as [Ha Hb]; [apply N.Div0.div_lt_upper_bound; lia|].
  destruct (hex_digit_ok (byte_val c mod 16)) as [Hd He]; [apply N.mod_lt; lia|].
  simpl. rewrite IH1, IH2, IH3, Ha, Hb, Hd, He. split_and!; [lia|done|done].
Qed.

#[export] Hint Resolve trim_idemp trim_empty split_char_ne : connector.
