(* ===== verification/BTree.v ===== *)
(** * [BTreeSet] and [BTreeMap] with string keys

    A [BTreeSet<String>] is a [gset string] and a [BTreeMap<String, V>] a
    [gmap string V], so that membership, insertion and lookup are stdpp's.  What
    distinguishes a B-tree from a hash table is that iteration visits the keys in
    increasing byte order: [btree_iter] and [btree_map_iter] are that order. *)
From S2P Require Import Prelude RustStr.
From stdpp Require Import sorting.

(** Insertion into a list in increasing order, without repetition. *)
Fixpoint sorted_insert (x : string) (l : list string) : list string :=
  match l with
  | [] => [x]
  | y :: l' =>
      match String.compare x y with
      | Lt => x :: l
      | Eq => l
      | Gt => y :: sorted_insert x l'
      end
  end.

Definition sort_strings (l : list string) : list string := foldr sorted_insert [] l.

(** [set.iter()] / [for x in set]. *)
Definition btree_iter (X : gset string) : list string := sort_strings (elements X).

(** [iter.collect::<BTreeSet<_>>()]. *)
Definition btree_collect (l : list string) : gset string := list_to_set l.

(** [map.iter()]: key and value in increasing key order. *)
Definition btree_map_iter {V} (m : gmap string V) : list (string * V) :=
  omap (λ k, pair k <$> m !! k) (btree_iter (dom m)).

(** ** Lemmas *)
Lemma elem_of_sorted_insert x y l : y ∈ sorted_insert x l ↔ y = x ∨ y ∈ l.
Proof.
  induction l as [|z l IH]; simpl; [set_solver|].
  destruct (String.compare x z) eqn:E; [|set_solver|set_solver].
  apply String.compare_eq_iff in E as ->. set_solver.
Qed.

Lemma elem_of_sort_strings y l : y ∈ sort_strings l ↔ y ∈ l.
Proof.
  induction l as [|x l IH]; simpl; [done|].
  change (foldr sorted_insert [] l) with (sort_strings l).
  rewrite elem_of_sorted_insert, IH. set_solver.
Qed.

Lemma elem_of_btree_iter y X : y ∈ btree_iter X ↔ y ∈ X.
Proof. unfold btree_iter. by rewrite elem_of_sort_strings, elem_of_elements. Qed.

Lemma compare_refl x : String.compare x x = Eq.
Proof. pose proof (String.compare_antisym x x) as H. by destruct (String.compare x x). Qed.

Lemma compare_lt_le x y : String.compare x y = Lt → String.le x y.
Proof. unfold String.le, String.leb. by intros ->. Qed.

Lemma compare_gt_le x y : String.compare x y = Gt → String.le y x.
Proof. intros H. unfold String.le, String.leb. rewrite String.compare_antisym, H. done. Qed.

Lemma sorted_insert_sorted x l :
  StronglySorted String.le l → StronglySorted String.le (sorted_insert x l).
Proof.
  induction 1 as [|y l Hl IH Hy]; simpl.
  { by repeat constructor. }
  destruct (String.compare x y) eqn:E.
  - by constructor.
  - apply compare_lt_le in E. constructor; [by constructor|].
    constructor; [done|]. eapply Forall_impl; [exact Hy|]. intros z Hz. by etrans.
  - apply compare_gt_le in E. constructor; [done|].
    apply Forall_forall. intros z [->|Hz]%elem_of_sorted_insert; [done|].
    by eapply Forall_forall in Hy.
Qed.

Lemma sorted_insert_NoDup x l :
  StronglySorted String.le l → NoDup l → NoDup (sorted_insert x l).
Proof.
  induction 1 as [|y l Hl IH Hy]; simpl; intros Hnd.
  { apply NoDup_singleton. }
  apply NoDup_cons in Hnd as [Hni Hnd].
  destruct (String.compare x y) eqn:E.
  - by constructor.
  - apply NoDup_cons. split; [|by constructor].
    rewrite elem_of_cons. intros [->|Hin].
    + by rewrite compare_refl in E.
    + eapply Forall_forall in Hy; [|exact Hin]. pose proof (compare_lt_le _ _ E) as Hxy.
      assert (x = y) as -> by (by apply (anti_symm String.le)).
      by rewrite compare_refl in E.
  - apply NoDup_cons. split; [|by apply IH].
    rewrite elem_of_sorted_insert. intros [->|?]; [|done].
    by rewrite compare_refl in E.
Qed.

Lemma sort_strings_sorted l : StronglySorted String.le (sort_strings l).
Proof. induction l as [|x l IH]; simpl; [constructor|]. by apply sorted_insert_sorted. Qed.

Lemma sort_strings_NoDup l : NoDup (sort_strings l).
Proof.
  induction l as [|x l IH]; simpl; [constructor|].
  apply sorted_insert_NoDup; [apply sort_strings_sorted|done].
Qed.

(** Two duplicate-free increasing lists with the same members are equal: the
    iteration order of a set is determined by its members. *)
Lemma sorted_unique (l1 l2 : list string) :
  StronglySorted String.le l1 → StronglySorted String.le l2 → NoDup l1 → NoDup l2 →
  (∀ x, x ∈ l1 ↔ x ∈ l2) → l1 = l2.
Proof.
  intros H1 H2 N1 N2 Heq. eapply (StronglySorted_unique String.le); [done..|].
  by apply NoDup_Permutation.
Qed.

Lemma sort_strings_ext l1 l2 :
  (∀ x, x ∈ l1 ↔ x ∈ l2) → sort_strings l1 = sort_strings l2.
Proof.
  intros Heq. apply sorted_unique; try apply sort_strings_sorted; try apply sort_strings_NoDup.
  intros x. by rewrite !elem_of_sort_strings.
Qed.

Lemma btree_iter_collect l : btree_iter (btree_collect l) = sort_strings l.
Proof.
  unfold btree_iter, btree_collect. apply sort_strings_ext. intros x.
  by rewrite elem_of_elements, elem_of_list_to_set.
Qed.

Lemma btree_iter_inj X Y : btree_iter X = btree_iter Y → X = Y.
Proof. intros H. apply set_eq. intros x. by rewrite <- !elem_of_btree_iter, H. Qed.

Lemma elem_of_btree_map_iter {V} (m : gmap string V) k v :
  (k, v) ∈ btree_map_iter m ↔ m !! k = Some v.
Proof.
  unfold btree_map_iter. rewrite list_elem_of_omap. split.
  - intros (k' & _ & H). destruct (m !! k') eqn:E; simpl in H; naive_solver.
  - intros Hk. exists k. rewrite Hk. split; [|done].
    apply elem_of_btree_iter, elem_of_dom. by eexists.
Qed.

#[export] Hint Resolve sort_strings_sorted sort_strings_NoDup : connector.
