(* ===== verification/Errors.v ===== *)
(** * Problem responses and start-up errors ([src/src/errors.rs])

    [ConnectorProblem] is the closed set of reasons a request is not forwarded;
    its methods give the stable code, the HTTP status, the title and the audit
    dimensions of the completion log.  [ConnectorError] is the error of the
    start-up path. *)
From S2P Require Import Prelude RustStr.

Inductive ConnectorProblem : Type :=
| ConfigInvalid
| ClientIdentityMissing
| ClientIdentityDenied
| RouteDenied
| PurposeRequired
| PurposeDenied
| UpstreamAuthMissing
| UpstreamUnavailable
| BodyTooLarge
| RequestTimeout
| RateLimited
| PdpDenied (code : string).

Global Instance ConnectorProblem_eq_dec : EqDecision ConnectorProblem.
Proof. solve_decision. Defined.

(** [http::StatusCode] is its number. *)
Definition StatusCode : Type := N.

Definition code (p : ConnectorProblem) : string :=
  match p with
  | ConfigInvalid => "connector.config_invalid"
  | ClientIdentityMissing => "connector.client_identity_missing"
  | ClientIdentityDenied => "connector.client_identity_denied"
  | RouteDenied => "connector.route_denied"
  | PurposeRequired => "connector.purpose_required"
  | PurposeDenied => "connector.purpose_denied"
  | UpstreamAuthMissing => "connector.upstream_auth_missing"
  | UpstreamUnavailable => "connector.upstream_unavailable"
  | BodyTooLarge => "connector.body_too_large"
  | RequestTimeout => "connector.request_timeout"
  | RateLimited => "connector.rate_limited"
  | PdpDenied code => code
  end.

Definition status (p : ConnectorProblem) : StatusCode :=
  match p with
  | ConfigInvalid => 500
  | ClientIdentityMissing => 401
  | ClientIdentityDenied => 403
  | RouteDenied => 403
  | PurposeRequired => 400
  | PurposeDenied => 403
  | UpstreamAuthMissing => 500
  | UpstreamUnavailable => 502
  | BodyTooLarge => 413
  | RequestTimeout => 408
  | RateLimited => 429
  | PdpDenied _ => 403
  end%N.

Definition title (p : ConnectorProblem) : string :=
  match p with
  | ConfigInvalid => "Connector configuration is invalid"
  | ClientIdentityMissing => "Client identity is missing"
  | ClientIdentityDenied => "Client identity is denied"
  | RouteDenied => "Route is denied"
  | PurposeRequired => "Data purpose is required"
  | PurposeDenied => "Data purpose is denied"
  | UpstreamAuthMissing => "Upstream authentication is unavailable"
  | UpstreamUnavailable => "Upstream is unavailable"
  | BodyTooLarge => "Request body is too large"
  | RequestTimeout => "Request timed out"
  | RateLimited => "Request rate limit exceeded"
  | PdpDenied _ => "Policy decision denied request"
  end.

(** [StatusCode::is_server_error]: 500..=599. *)
Definition is_server_error (s : StatusCode) : bool := (500 <=? s)%N && (s <? 600)%N.

Definition audit_outcome (p : ConnectorProblem) : string :=
  if is_server_error (status p) then "failed" else "denied".

Definition denial_stage (p : ConnectorProblem) : option string :=
  match p with
  | ConfigInvalid => None
  | ClientIdentityMissing | ClientIdentityDenied => Some "identity"
  | RouteDenied => Some "route"
  | PurposeRequired | PurposeDenied => Some "purpose"
  | PdpDenied _ => Some "pdp"
  | UpstreamAuthMissing => None
  | UpstreamUnavailable => None
  | BodyTooLarge => Some "request_body"
  | RequestTimeout => Some "request_timeout"
  | RateLimited => Some "rate_limit"
  end.

Definition denial_reason (p : ConnectorProblem) : option string :=
  match p with
  | ConfigInvalid => None
  | ClientIdentityMissing => Some "client_identity_missing"
  | ClientIdentityDenied => Some "client_identity_denied"
  | RouteDenied => Some "route_denied"
  | PurposeRequired => Some "purpose_required"
  | PurposeDenied => Some "purpose_denied"
  | PdpDenied code => Some code
  | UpstreamAuthMissing => None
  | UpstreamUnavailable => None
  | BodyTooLarge => Some "body_too_large"
  | RequestTimeout => Some "request_timeout"
  | RateLimited => Some "rate_limited"
  end.

(** The arguments the connector passes to the problem-document builder: its
    type URI, title, status, detail and extra members. *)
Record ProblemDoc : Type := {
  problem_type : string;
  problem_title : string;
  problem_status : StatusCode;
  problem_detail : string;
  problem_extra : list (string * string);
}.

Definition problem_response (p : ConnectorProblem) : ProblemDoc := {|
  problem_type := "urn:registry:problem:" +:+ code p;
  problem_title := title p;
  problem_status := status p;
  problem_detail := "request denied by registry trust connector";
  problem_extra := [("code", code p)];
|}.

(** Start-up errors; the wrapped library errors are carried by their
    [Display] text. *)
Inductive ConnectorError : Type :=
| InvalidConfig (msg : string)
| Io (msg : string)
| Yaml (msg : string)
| UrlError (msg : string)
| Tls (msg : string)
| Http (msg : string)
| Upstream (msg : string).

Definition ConnectorError_display (e : ConnectorError) : string :=
  match e with
  | InvalidConfig m => m
  | Io m => "io error: " +:+ m
  | Yaml m => "yaml error: " +:+ m
  | UrlError m => "url error: " +:+ m
  | Tls m => "tls error: " +:+ m
  | Http m => "http error: " +:+ m
  | Upstream m => "upstream error: " +:+ m
  end.
