(* ===== verification/External.v ===== *)
(** * The libraries the connector is built on

    Code that is not part of the repository is a parameter: one operational
    class per library, with the operations the connector calls, and beside it a
    class of laws that states the documented behaviour the connector relies on.
    Theorems that need a law take the law class as a hypothesis; the file
    [Reference] gives concrete instances that satisfy every one of them. *)
From S2P Require Import Prelude RustStr.
From Stdlib Require Import Ascii.
Local Open Scope N_scope.

(** ** Percent decoding (crate [percent-encoding])

    [percent_decode_utf8 s] is [percent_decode_str(s).decode_utf8()], [None]
    for the UTF-8 error. *)
Class PercentLib := { percent_decode_utf8 : string → option string }.

(** The crate documents [percent_decode_str] as the WHATWG URL standard's
    percent-decode: a [%] followed by two hexadecimal digits becomes the byte
    they write, every other byte stays. *)
Definition hex_val (c : ascii) : N :=
  if is_ascii_digit c then byte_val c - 48
  else if byte_in 97 102 c then byte_val c - 87
  else byte_val c - 55.

Fixpoint whatwg_percent_decode (s : string) : string :=
  match s with
  | EmptyString => EmptyString
  | String c s1 =>
      if Ascii.eqb c "%" then
        match s1 with
        | String h (String l s3) =>
            if is_ascii_hexdigit h && is_ascii_hexdigit l
            then String (ascii_of_N (hex_val h * 16 + hex_val l)) (whatwg_percent_decode s3)
            else String c (whatwg_percent_decode s1)
        | _ => String c (whatwg_percent_decode s1)
        end
      else String c (whatwg_percent_decode s1)
  end.

(** Well-formed UTF-8, as [core::str::from_utf8] checks it. *)
Definition cont (c : ascii) : bool := byte_in 128 191 c.
Fixpoint utf8_valid (s : string) : bool :=
  match s with
  | EmptyString => true
  | String a s1 =>
      if byte_in 0 127 a then utf8_valid s1 else
      match s1 with
      | EmptyString => false
      | String b s2 =>
          if byte_in 194 223 a then cont b && utf8_valid s2 else
          match s2 with
          | EmptyString => false
          | String c s3 =>
              if byte_in 224 224 a then byte_in 160 191 b && cont c && utf8_valid s3 else
              if byte_in 237 237 a then byte_in 128 159 b && cont c && utf8_valid s3 else
              if byte_in 225 239 a then cont b && cont c && utf8_valid s3 else
              match s3 with
              | EmptyString => false
              | String d s4 =>
                  if byte_in 240 240 a then byte_in 144 191 b && cont c && cont d && utf8_valid s4 else
                  if byte_in 241 243 a then cont b && cont c && cont d && utf8_valid s4 else
                  if byte_in 244 244 a then byte_in 128 143 b && cont c && cont d && utf8_valid s4
                  else false
              end
          end
      end
  end.

Class PercentSpec `{!PercentLib} : Prop := {
  percent_decode_utf8_spec s :
    percent_decode_utf8 s =
      (if utf8_valid (whatwg_percent_decode s) then Some (whatwg_percent_decode s) else None);
}.

(** ** URLs (crate [url])

    [url_before_path u] is [&u[..Position::BeforePath]]: scheme and authority. *)
Class UrlLib := {
  Url : Type;
  url_parse : string → option Url;
  url_before_path : Url → string;
  url_scheme : Url → string;
  url_path : Url → string;
}.

(** The crate implements the URL standard of the WHATWG.  Of its parser the theorems use
    how the path of an [http] or [https] URL is read when it has only bytes that are
    copied as they are: it ends at the first question mark, a segment [..] removes the
    one before it and a segment [.] disappears, and both may be written with the escape
    [%2e]. *)
Definition url_path_byte (c : ascii) : bool :=
  is_ascii_alphanumeric c || str_contains c "-._~!$&'()*+,;=:@/%".
Definition single_dot (segment : string) : bool :=
  bool_decide (segment ∈ ["."; "%2e"; "%2E"]).
Definition double_dot (segment : string) : bool :=
  bool_decide (segment ∈ [".."; ".%2e"; ".%2E"; "%2e."; "%2E."; "%2e%2e"; "%2e%2E"; "%2E%2e"; "%2E%2E"]).

(** The segments read so far, in reverse, and those to come. *)
Fixpoint whatwg_segments (read segments : list string) : list string :=
  match segments with
  | [] => rev read
  | segment :: rest =>
      let last := is_empty rest in
      if double_dot segment then whatwg_segments (if last then EmptyString :: tail read else tail read) rest
      else if single_dot segment then whatwg_segments (if last then EmptyString :: read else read) rest
      else whatwg_segments (segment :: read) rest
  end.
Definition whatwg_path (path : string) : string :=
  String "/" (join_char "/" (whatwg_segments [] (tail (split_char "/" path)))).

Class UrlSpec `{!UrlLib} : Prop := {
  url_parse_path text base path (query : option string) u :
    url_parse text = Some base → url_scheme base ∈ ["http"; "https"] →
    starts_with_char "/" path = true → bytes_all url_path_byte path = true →
    url_parse (url_before_path base +:+ path +:+
      match query with Some query => "?" +:+ query | None => EmptyString end) = Some u →
    url_path u = whatwg_path path;
}.

(** ** SHA-256 (crate [sha2]): [Sha256::digest], as the byte string it returns *)
Class Sha256Lib := { sha256_digest : string → string }.
Class Sha256Spec `{!Sha256Lib} : Prop := {
  sha256_digest_length s : String.length (sha256_digest s) = 32%nat;
}.

(** ** Certificates (crates [x509-parser], [rustls], [rustls-pemfile], [reqwest])

    A DER certificate is its bytes.  [X509] is what the accessors of
    [X509Certificate] the connector calls return: the validity bounds in Unix
    seconds, and the extensions, each an error, absent, or present. *)
Definition Der : Type := string.
Record ExtendedKeyUsage : Type := { eku_client_auth : bool; eku_server_auth : bool }.
Inductive GeneralName : Type :=
| URI (uri : string)
| DNSName (dns : string)
| OtherName.
Record X509 : Type := {
  x_not_before : Z;
  x_not_after : Z;
  x_extended_key_usage : result string (option ExtendedKeyUsage);
  x_subject_alternative_name : result string (option (list GeneralName));
  x_basic_constraints_ca : result string (option bool);
  x_key_cert_sign : result string (option bool);
}.

(** [SystemTime] is nanoseconds since the Unix epoch. *)
Definition SystemTime : Type := Z.

Class PkiLib := {
  PrivateKey : Type;
  RootCertStore : Type;
  ClientVerifier : Type;
  (** [File::open] and reading it all; the error is its [Display] text. *)
  fs_read : string → result string string;
  (** [rustls_pemfile::certs] and [rustls_pemfile::private_key]. *)
  pem_certs : string → result string (list Der);
  pem_private_key : string → result string (option PrivateKey);
  (** [X509Certificate::from_der]. *)
  x509_from_der : Der → result string X509;
  (** [ServerConfig::builder().with_no_client_auth().with_single_cert(..)]. *)
  with_single_cert : list Der → PrivateKey → result string unit;
  (** [RootCertStore::empty] and [RootCertStore::add]. *)
  roots_empty : RootCertStore;
  roots_add : RootCertStore → Der → result string RootCertStore;
  (** [WebPkiClientVerifier::builder(roots).build()] and [verify_client_cert]. *)
  verifier_build : RootCertStore → result string ClientVerifier;
  verify_client_cert : ClientVerifier → Der → list Der → SystemTime → result string unit;
  (** [reqwest::Certificate::from_pem_bundle]; the certificates are their DER. *)
  from_pem_bundle : string → result string (list Der);
  (** [ServerConfig::builder().with_client_cert_verifier(..).with_single_cert(..)]. *)
  ServerConfig : Type;
  server_config_build : ClientVerifier → list Der → PrivateKey → result string ServerConfig;
  (** [reqwest::Identity::from_pem], and [ClientBuilder::build] of a rustls client
      without proxy, redirects and built-in roots, given its timeout, identity and
      added root certificates. *)
  ReqwestIdentity : Type;
  identity_from_pem : string → result string ReqwestIdentity;
  HttpClient : Type;
  client_build : (N * ReqwestIdentity * list Der) → result string HttpClient;
  (** [OffsetDateTime::format(&Rfc3339)]. *)
  format_rfc3339 : SystemTime → option string;
}.
