(* ===== verification/Reference.v ===== *)
(** * Reference instances of the library interfaces

    One concrete, executable instance per class of [External], with the proof
    that it satisfies the laws: the hypotheses of the development are
    satisfiable, and the witnesses evaluate on these instances. *)
From S2P Require Import Prelude RustStr External.
From Stdlib Require Import Ascii.

Definition ref_percent : PercentLib := {|
  percent_decode_utf8 s :=
    let d := whatwg_percent_decode s in if utf8_valid d then Some d else None;
|}.

Lemma ref_percent_spec : @PercentSpec ref_percent.
Proof. by split. Qed.

(** A URL is its text up to the third slash, and the path read from there to the
    query. *)
Fixpoint before_query (s : string) : string :=
  match s with
  | EmptyString => EmptyString
  | String c s => if Ascii.eqb "?" c then EmptyString else String c (before_query s)
  end.

Definition ref_url : UrlLib := {|
  Url := string * string;
  url_parse s :=
    match split_char "/" (before_query s) with
    | scheme :: empty :: authority :: rest =>
        Some (join_char "/" [scheme; empty; authority], whatwg_path (String "/" (join_char "/" rest)))
    | _ => None
    end;
  url_before_path := fst;
  url_scheme u := unwrap_or EmptyString (head (split_char ":" (fst u)));
  url_path := snd;
|}.

Lemma before_query_app s t :
  str_contains "?" s = false → before_query (s +:+ t) = s +:+ before_query t.
Proof.
  induction s as [|c s IH]; [done|]. intros [Hc Hs]%orb_false_iff. rewrite str_app_cons. simpl.
  by rewrite Hc, IH.
Qed.

Lemma before_query_contains s : str_contains "?" (before_query s) = false.
Proof. induction s as [|c s IH]; [done|]. simpl. destruct (Ascii.eqb "?" c) eqn:E; [done|]. simpl. by rewrite E. Qed.

Lemma join3 a b c : join_char "/" [a; b; c] = a +:+ String "/" (b +:+ String "/" c).
Proof. done. Qed.

Lemma ref_url_spec : @UrlSpec ref_url.
Proof.
  split. intros text base path query u Hb _ Hs Hp.
  cbn [url_parse url_before_path url_path ref_url] in *.
  pose proof (before_query_contains text) as Hq.
  destruct (split_char "/" (before_query text)) as [|a [|b [|c rest]]] eqn:E; try discriminate.
  injection Hb as <-. cbn [fst].
  assert (Hno : ∀ w, w ∈ [a; b; c] → str_contains "/" w = false).
  { intros w Hw. apply (split_char_no_sep "/" (before_query text)). rewrite E. set_solver. }
  rewrite <- (join_split_char "/" (before_query text)), E in Hq.
  assert (Hpre : str_contains "?" (join_char "/" [a; b; c]) = false).
  { rewrite join3. destruct rest as [|w rest]; [by rewrite join3 in Hq|].
    change (join_char "/" (a :: b :: c :: w :: rest))
      with (a +:+ String "/" (b +:+ String "/" (c +:+ String "/" (join_char "/" (w :: rest))))) in Hq.
    rewrite !str_contains_app in *. simpl in *. rewrite !str_contains_app in *. simpl in *.
    rewrite !str_contains_app in *.
    by destruct (str_contains "?" a), (str_contains "?" b), (str_contains "?" c). }
  assert (Hpath : str_contains "?" path = false) by (by eapply bytes_all_contains).
  assert (Hqt : before_query match query with Some query => "?" +:+ query | None => EmptyString end = EmptyString)
    by (by destruct query).
  rewrite !before_query_app, Hqt, str_app_nil_r by done.
  apply starts_with_char_true in Hs as [p ->]. rewrite !split_char_app_sep.
  rewrite !split_char_no_sep_id by (apply Hno; set_solver). simpl. rewrite join_split_char.
  by intros [= <-].
Qed.

(** A digest of 32 bytes: the input cut or padded with NUL bytes. *)
Fixpoint take_pad (n : nat) (s : string) : string :=
  match n, s with
  | O, _ => EmptyString
  | S n, EmptyString => String zero (take_pad n EmptyString)
  | S n, String c s => String c (take_pad n s)
  end.

Definition ref_sha256 : Sha256Lib := {| sha256_digest := take_pad 32 |}.

Lemma ref_sha256_spec : @Sha256Spec ref_sha256.
Proof.
  cut (∀ n t, String.length (take_pad n t) = n); [intros H; split; intros s; exact (H 32%nat s)|].
  induction n as [|n IH]; intros [|c t]; simpl; auto.
Qed.

(** Certificates: the file [leaf] holds one client certificate with a SPIFFE
    name, the file [ca] one CA; a root store is the list of its certificates and a
    chain verifies when its last certificate is one of them. *)
Definition ref_leaf : X509 := {|
  x_not_before := 0; x_not_after := 1000;
  x_extended_key_usage := Ok (Some {| eku_client_auth := true; eku_server_auth := true |});
  x_subject_alternative_name :=
    Ok (Some [DNSName "client.example"; URI "spiffe://client.example/w"]);
  x_basic_constraints_ca := Ok (Some false);
  x_key_cert_sign := Ok None |}.
Definition ref_ca : X509 := {|
  x_not_before := 0; x_not_after := 1000;
  x_extended_key_usage := Ok None;
  x_subject_alternative_name := Ok None;
  x_basic_constraints_ca := Ok (Some true);
  x_key_cert_sign := Ok (Some true) |}.

Definition ref_pki : PkiLib := {|
  PrivateKey := unit;
  RootCertStore := list Der;
  ClientVerifier := list Der;
  fs_read path := Ok path;
  pem_certs bytes := Ok [bytes];
  pem_private_key _ := Ok (Some tt);
  x509_from_der der := if String.eqb der "ca" then Ok ref_ca else Ok ref_leaf;
  with_single_cert _ _ := Ok tt;
  roots_empty := [];
  roots_add roots der := Ok (der :: roots);
  verifier_build roots := Ok roots;
  verify_client_cert roots leaf intermediates _ :=
    if existsb (String.eqb (List.last intermediates leaf)) roots then Ok tt else Err "unknown issuer";
  from_pem_bundle bytes := Ok [bytes];
  ServerConfig := unit;
  server_config_build _ _ _ := Ok tt;
  ReqwestIdentity := unit;
  identity_from_pem _ := Ok tt;
  HttpClient := unit;
  client_build _ := Ok tt;
  format_rfc3339 _ := None |}.
