(* ===== verification/Http.v ===== *)
(** * HTTP libraries (crates [http], [axum], [reqwest], [registry-platform-httputil])

    The header map, the proxy header filter, request and response bodies, and the
    outbound client, as the connector uses them.  [HttpLib] has the operations,
    [HttpSpec] the documented behaviour, [ref_http] is an instance.

    Header names are in their normalised lower-case form, as the header map
    stores them; every name the connector writes down is lower case.  A header
    value is its bytes. *)
From S2P Require Import Prelude RustStr Errors External.
From Stdlib Require Import Ascii.

Definition HeaderName : Type := string.
Definition HeaderValue : Type := string.
Definition Bytes : Type := string.

Class HttpLib := {
  (** [http::HeaderMap]: [get_all], [insert], [remove], the borrowing iterator
      and the consuming one, which names only the first value of each header. *)
  HeaderMap : Type;
  hm_get_all : HeaderMap → HeaderName → list HeaderValue;
  hm_insert : HeaderMap → HeaderName → HeaderValue → HeaderMap;
  hm_remove : HeaderMap → HeaderName → HeaderMap;
  hm_iter : HeaderMap → list (HeaderName * HeaderValue);
  hm_into_iter : HeaderMap → list (option HeaderName * HeaderValue);
  (** [HeaderValue::from_str], [HeaderValue::to_str], [HeaderName::from_bytes] and
      [reqwest::Method::from_bytes]; [None] is their error. *)
  header_value_from_str : string → option HeaderValue;
  header_value_to_str : HeaderValue → option string;
  header_name_from_bytes : string → option HeaderName;
  method_from_bytes : string → option string;
  (** [axum::body::to_bytes]. *)
  Body : Type;
  to_bytes : Body → N → result string Bytes;
  (** [ProxyHeaderPolicy], its settings and builder methods, and the two header
      filters of the platform library. *)
  ProxyHeaderPolicy : Type;
  php_authorization : ProxyHeaderPolicy → bool;
  php_cookie : ProxyHeaderPolicy → bool;
  php_prefixes : ProxyHeaderPolicy → list string;
  php_strict : ProxyHeaderPolicy;
  php_allow_authorization : bool → ProxyHeaderPolicy → ProxyHeaderPolicy;
  php_allow_cookie : bool → ProxyHeaderPolicy → ProxyHeaderPolicy;
  php_strip_private_prefix : string → ProxyHeaderPolicy → ProxyHeaderPolicy;
  filter_proxy_request_headers : HeaderMap → ProxyHeaderPolicy → HeaderMap;
  filter_proxy_response_headers : HeaderMap → HeaderMap;
  (** The upstream's response: status, headers, [read_bounded] of its body; then
      [StatusCode::from_u16] and the result of [Builder::body]. *)
  UpstreamResponse : Type;
  resp_status : UpstreamResponse → N;
  resp_headers : UpstreamResponse → HeaderMap;
  read_bounded : UpstreamResponse → N → result string Bytes;
  status_from_u16 : N → option StatusCode;
  builder_body : StatusCode → list (HeaderName * HeaderValue) → Bytes → result string unit;
}.

(** [HeaderMap::get]: the first value. *)
Definition hm_get `{HttpLib} (m : HeaderMap) (n : HeaderName) : option HeaderValue :=
  head (hm_get_all m n).

(** What the consuming iterator yields for one header. *)
Definition into_iter_group `{HttpLib} (m : HeaderMap) (n : HeaderName)
    : list (option HeaderName * HeaderValue) :=
  match hm_get_all m n with
  | [] => []
  | v :: vs => (Some n, v) :: map (pair None) vs
  end.

Class HttpSpec `{HttpLib} : Prop := {
  hm_get_all_insert m n v n' :
    hm_get_all (hm_insert m n v) n' = if decide (n' = n) then [v] else hm_get_all m n';
  hm_get_all_remove m n n' :
    hm_get_all (hm_remove m n) n' = if decide (n' = n) then [] else hm_get_all m n';
  hm_into_iter_groups m :
    ∃ ks, NoDup ks ∧ (∀ k, k ∈ ks ↔ hm_get_all m k ≠ []) ∧
      hm_into_iter m = concat (map (into_iter_group m) ks);
  (** A value built from a string is that string; a value read as a string is
      visible ASCII, which is accepted back. *)
  header_value_from_str_bytes s v : header_value_from_str s = Some v → v = s;
  header_value_to_str_bytes v s :
    header_value_to_str v = Some s → s = v ∧ header_value_from_str s = Some v;
  (** Visible ASCII characters can be read as a string. *)
  header_value_to_str_visible v :
    bytes_all (byte_in 32 126) v = true → header_value_to_str v = Some v;
  header_name_from_bytes_lower b n : header_name_from_bytes b = Some n → n = to_ascii_lowercase b;
  (** A method is its token. *)
  method_from_bytes_token b m : method_from_bytes b = Some m → m = b;
  to_bytes_bounded body max b :
    to_bytes body max = Ok b → (N.of_nat (String.length b) <= max)%N;
  read_bounded_bounded r max b :
    read_bounded r max = Ok b → (N.of_nat (String.length b) <= max)%N;
  (** The request filter only removes headers. *)
  filter_request_removes m p n :
    hm_get_all (filter_proxy_request_headers m p) n = hm_get_all m n ∨
    hm_get_all (filter_proxy_request_headers m p) n = [];
  (** [strict] forwards neither [Authorization] nor [Cookie]; the switches are
      independent of each other and of the private prefixes. *)
  php_strict_spec :
    php_authorization php_strict = false ∧ php_cookie php_strict = false;
  php_allow_authorization_spec b p :
    php_authorization (php_allow_authorization b p) = b ∧
    php_cookie (php_allow_authorization b p) = php_cookie p ∧
    php_prefixes (php_allow_authorization b p) = php_prefixes p;
  php_allow_cookie_spec b p :
    php_cookie (php_allow_cookie b p) = b ∧
    php_authorization (php_allow_cookie b p) = php_authorization p ∧
    php_prefixes (php_allow_cookie b p) = php_prefixes p;
  php_strip_private_prefix_spec s p :
    s ∈ php_prefixes (php_strip_private_prefix s p) ∧
    php_authorization (php_strip_private_prefix s p) = php_authorization p ∧
    php_cookie (php_strip_private_prefix s p) = php_cookie p;
  filter_strips_authorization m p :
    php_authorization p = false →
    hm_get_all (filter_proxy_request_headers m p) "authorization" = [];
  filter_strips_cookie m p :
    php_cookie p = false → hm_get_all (filter_proxy_request_headers m p) "cookie" = [];
  filter_strips_prefix m p s n :
    s ∈ php_prefixes p → starts_with s n = true →
    hm_get_all (filter_proxy_request_headers m p) n = [];
}.

(** ** A reference instance

    A header map is the list of its entries in insertion order. *)
Module Ref.
Abbreviation headers := (list (string * string)).
Record policy : Type := { auth : bool; cookie : bool; prefixes : list string }.
Record response : Type := { r_status : N; r_headers : headers; r_body : string }.

Definition get_all (m : headers) (n : string) : list string :=
  (filter (λ e, e.1 = n) m).*2.
Definition remove (m : headers) (n : string) : headers := filter (λ e, e.1 ≠ n) m.
Definition insert (m : headers) (n v : string) : headers := remove m n ++ [(n, v)].
Definition names (m : headers) : list string := remove_dups m.*1.
Definition into_iter (m : headers) : list (option string * string) :=
  concat (map (λ n, match get_all m n with
                    | [] => []
                    | v :: vs => (Some n, v) :: map (pair None) vs
                    end) (names m)).
Definition visible (s : string) : bool := bytes_all (byte_in 32 126) s.
Definition stripped (p : policy) (n : string) : bool :=
  (negb (auth p) && String.eqb n "authorization") || (negb (cookie p) && String.eqb n "cookie")
  || existsb (λ s, starts_with s n) (prefixes p).
Definition bounded (s : string) (max : N) : result string string :=
  if (N.of_nat (String.length s) <=? max)%N then Ok s else Err "length limit exceeded".

Definition ref_http : HttpLib := {|
  HeaderMap := headers;
  hm_get_all := get_all;
  hm_insert := insert;
  hm_remove := remove;
  hm_iter m := m;
  hm_into_iter := into_iter;
  header_value_from_str s := if visible s then Some s else None;
  header_value_to_str v := if visible v then Some v else None;
  header_name_from_bytes b := if str_is_empty b then None else Some (to_ascii_lowercase b);
  method_from_bytes b := if str_is_empty b then None else Some b;
  Body := string;
  to_bytes := bounded;
  ProxyHeaderPolicy := policy;
  php_authorization := auth;
  php_cookie := cookie;
  php_prefixes := prefixes;
  php_strict := {| auth := false; cookie := false; prefixes := [] |};
  php_allow_authorization b p := {| auth := b; cookie := cookie p; prefixes := prefixes p |};
  php_allow_cookie b p := {| auth := auth p; cookie := b; prefixes := prefixes p |};
  php_strip_private_prefix s p := {| auth := auth p; cookie := cookie p; prefixes := s :: prefixes p |};
  filter_proxy_request_headers m p := filter (λ e, stripped p e.1 = false) m;
  filter_proxy_response_headers m := m;
  UpstreamResponse := response;
  resp_status := r_status;
  resp_headers := r_headers;
  read_bounded r := bounded (r_body r);
  status_from_u16 n := if (100 <=? n)%N && (n <? 1000)%N then Some n else None;
  builder_body _ _ _ := Ok tt |}.

Lemma get_all_filter (P : string * string → Prop) `{∀ e, Decision (P e)} m n :
  (∀ v, P (n, v)) → get_all (filter P m) n = get_all m n.
Proof.
  intros HP. unfold get_all. f_equal. induction m as [|[n' v] m IH]; [done|].
  rewrite (filter_cons P). destruct (decide (P (n', v))) as [Hp|Hp]; rewrite !filter_cons; simpl.
  - case_decide; [by f_equal|done].
  - case_decide; [subst; by destruct (Hp (HP v))|done].
Qed.

Lemma get_all_filter_none (P : string * string → Prop) `{∀ e, Decision (P e)} m n :
  (∀ v, ¬ P (n, v)) → get_all (filter P m) n = [].
Proof.
  intros HP. unfold get_all. induction m as [|[n' v] m IH]; [done|].
  rewrite filter_cons. case_decide as Hp; [|done]. rewrite filter_cons. simpl.
  case_decide; subst; [by destruct (HP v)|done].
Qed.

Lemma get_all_ne m n : n ∈ names m ↔ get_all m n ≠ [].
Proof.
  unfold names, get_all. rewrite elem_of_remove_dups, list_elem_of_fmap. split.
  - intros ([n' v] & -> & Hin) Hnil. apply fmap_nil_inv in Hnil.
    assert (Hf : (n', v) ∈ filter (λ e : string * string, e.1 = n') m)
      by by apply list_elem_of_filter.
    simpl in Hnil. rewrite Hnil in Hf. by apply not_elem_of_nil in Hf.
  - intros Hne. destruct (filter (λ e : string * string, e.1 = n) m) as [|e l] eqn:E; [done|].
    assert (He : e ∈ filter (λ e : string * string, e.1 = n) m) by (rewrite E; left).
    apply list_elem_of_filter in He as [<- He]. eauto.
Qed.

Lemma bounded_length s max b : bounded s max = Ok b → (N.of_nat (String.length b) <= max)%N.
Proof. unfold bounded. destruct (N.leb_spec (N.of_nat (String.length s)) max); congruence. Qed.

Global Instance ref_http_spec : @HttpSpec ref_http.
Proof.
  split.
  - intros m n v n'. cbn. unfold insert, remove, get_all. rewrite list.filter_app, fmap_app. simpl.
    case_decide as Hn; subst.
    + change (get_all (filter (λ e : string * string, e.1 ≠ n) m) n ++
        (filter (λ e : string * string, e.1 = n) [(n, v)]).*2 = [v]).
      rewrite get_all_filter_none by (simpl; auto). rewrite filter_cons_True by done. done.
    + change (get_all (filter (λ e : string * string, e.1 ≠ n) m) n' ++
        (filter (λ e : string * string, e.1 = n') [(n, v)]).*2 = get_all m n').
      rewrite get_all_filter by done. rewrite filter_cons_False by (simpl; congruence).
      apply app_nil_r.
  - intros m n n'. cbn. unfold remove. case_decide; subst.
    + apply get_all_filter_none. simpl. auto.
    + by apply get_all_filter.
  - intros m. exists (names m). split_and!; [apply NoDup_remove_dups|apply get_all_ne|done].
  - intros s v. cbn. case_match; congruence.
  - intros v s. cbn. destruct (visible v) eqn:E; [|done]. intros [= <-]. by rewrite E.
  - intros v Hv. cbn. unfold visible. by rewrite Hv.
  - intros b n. cbn. case_match; congruence.
  - intros b m. cbn. case_match; congruence.
  - intros body max b. apply bounded_length.
  - intros r max b. apply bounded_length.
  - intros m p n. cbn. destruct (stripped p n) eqn:E.
    + right. apply get_all_filter_none. simpl. congruence.
    + left. by apply get_all_filter.
  - done.
  - done.
  - done.
  - intros s p. cbn. split; [left|done].
  - intros m p Hp. apply get_all_filter_none. intros v. simpl. unfold stripped. cbn in Hp. by rewrite Hp.
  - intros m p Hp. apply get_all_filter_none. intros v. simpl. unfold stripped. cbn in Hp. rewrite Hp.
    by rewrite orb_true_r.
  - intros m p s n Hs Hn. apply get_all_filter_none. intros v. simpl. unfold stripped.
    assert (existsb (λ s, starts_with s n) (prefixes p) = true) as ->.
    { apply existsb_elem_of. eauto. }
    by rewrite orb_true_r.
Qed.
End Ref.
