(* ===== verification/Pdp.v ===== *)
(** * The policy decision point (crate [registry-platform-pdp])

    The records the connector fills in, the decision it gets back, the stable
    problem codes, and, in [PdpSpec], the gates a permit has passed: the
    connector's documentation promises that each configured gate is enforced, and
    that a missing context value denies. *)
From S2P Require Import Prelude RustStr.

Inductive PolicyGate : Type :=
| PolicyIdentity | RequestedFact | RequestedDisclosure | SourceBinding | RouteIdentity
| Purpose | Jurisdiction | AssuranceAllowedSet | MinimumAssurance | SourceFreshness
| LegalBasisRequired | ConsentRequired | OdrlTerms | Redaction.

Global Instance PolicyGate_eq_dec : EqDecision PolicyGate.
Proof. solve_decision. Defined.

Definition gate_index (g : PolicyGate) : nat :=
  match g with
  | PolicyIdentity => 0 | RequestedFact => 1 | RequestedDisclosure => 2 | SourceBinding => 3
  | RouteIdentity => 4 | Purpose => 5 | Jurisdiction => 6 | AssuranceAllowedSet => 7
  | MinimumAssurance => 8 | SourceFreshness => 9 | LegalBasisRequired => 10
  | ConsentRequired => 11 | OdrlTerms => 12 | Redaction => 13
  end.
Definition gates : list PolicyGate :=
  [PolicyIdentity; RequestedFact; RequestedDisclosure; SourceBinding; RouteIdentity; Purpose;
   Jurisdiction; AssuranceAllowedSet; MinimumAssurance; SourceFreshness; LegalBasisRequired;
   ConsentRequired; OdrlTerms; Redaction].

Global Program Instance PolicyGate_countable : Countable PolicyGate :=
  inj_countable' gate_index (λ n, unwrap_or Redaction (gates !! n)) _.
Next Obligation. by intros []. Qed.

(** [EvidenceRequestContext]. *)
Record PdpRequestContext : Type := {
  cx_purpose : string;
  cx_legal_basis_ref : option string;
  cx_consent_ref : option string;
  cx_asserted_assurance : option string;
  cx_jurisdiction : option string;
  cx_requester_identity : option string;
  cx_subject_ref : option string;
  cx_relationship : option string;
  cx_on_behalf_of : option string;
  cx_requested_fact : option string;
  cx_requested_disclosure : option string;
  cx_requested_credential_format : option string;
  cx_source_binding : option string;
  cx_route_identity : option string;
  cx_checked_scopes : gset string;
  cx_source_observed_at_unix_seconds : option N;
  cx_source_observed_age_seconds : option N;
}.

(** [PolicyInput]; [required_context] is always its default. *)
Record PdpPolicyInput : Type := {
  pl_policy_id : string;
  pl_policy_hash : string;
  pl_ecosystem_binding_id : option string;
  pl_ecosystem_binding_version : option string;
  pl_rule_ids : list string;
  pl_rule_ids_by_gate : gmap PolicyGate (list string);
  pl_permit_unconstrained : bool;
  pl_odrl_constraint_terms : list string;
  pl_purpose_constraints : list (list string);
  pl_permitted_jurisdictions : list string;
  pl_allowed_assurance : list string;
  pl_minimum_assurance : option string;
  pl_max_source_age_seconds : option N;
  pl_require_legal_basis : bool;
  pl_require_consent : bool;
  pl_allowed_legal_basis_refs : list string;
  pl_allowed_consent_refs : list string;
  pl_redaction_fields : gset string;
  pl_allowed_relationships : list string;
  pl_relationship_purpose_constraints : list string;
  pl_allowed_requested_facts : list string;
  pl_allowed_requested_disclosures : list string;
  pl_allowed_credential_formats : list string;
  pl_allowed_source_bindings : list string;
  pl_allowed_route_identities : list string;
  pl_required_checked_scopes : gset string;
  pl_unsupported_odrl_terms : list string;
}.

Record PdpAudit : Type := {
  pa_policy_id : string;
  pa_policy_hash : string;
  pa_evaluated_rule_ids : list string;
}.

Inductive PdpDecision : Type :=
| Permit (audit : PdpAudit)
| PermitWithRedaction (audit : PdpAudit) (field_set : gset string)
| Deny (audit : PdpAudit) (stable_problem_code : string).

Class PdpLib := {
  pdp_decide : PdpRequestContext → PdpPolicyInput → PdpDecision;
  (** The order of the assurance levels: the first reaches the second. *)
  assurance_reaches : string → string → bool;
  CONTEXT_REQUIRED : string;
  PURPOSE_NOT_PERMITTED : string;
  ASSURANCE_INSUFFICIENT : string;
  EVIDENCE_STALE : string;
  LEGAL_BASIS_REQUIRED : string;
  CONSENT_REQUIRED : string;
  JURISDICTION_NOT_PERMITTED : string;
  RELATIONSHIP_NOT_PERMITTED : string;
  REQUESTED_FACT_NOT_PERMITTED : string;
  DISCLOSURE_NOT_PERMITTED : string;
  CREDENTIAL_FORMAT_NOT_PERMITTED : string;
  SOURCE_BINDING_NOT_PERMITTED : string;
  ROUTE_IDENTITY_NOT_PERMITTED : string;
  CHECKED_SCOPE_REQUIRED : string;
  UNSUPPORTED_POLICY_TERM : string;
  POLICY_REQUIRED : string;
  POLICY_ID_REQUIRED : string;
  POLICY_HASH_INVALID : string;
}.

(** The stable codes, in the order the connector lists them. *)
Definition pdp_codes `{PdpLib} : list string :=
  [CONTEXT_REQUIRED; PURPOSE_NOT_PERMITTED; ASSURANCE_INSUFFICIENT; EVIDENCE_STALE;
   LEGAL_BASIS_REQUIRED; CONSENT_REQUIRED; JURISDICTION_NOT_PERMITTED;
   RELATIONSHIP_NOT_PERMITTED; REQUESTED_FACT_NOT_PERMITTED; DISCLOSURE_NOT_PERMITTED;
   CREDENTIAL_FORMAT_NOT_PERMITTED; SOURCE_BINDING_NOT_PERMITTED;
   ROUTE_IDENTITY_NOT_PERMITTED; CHECKED_SCOPE_REQUIRED; UNSUPPORTED_POLICY_TERM;
   POLICY_REQUIRED; POLICY_ID_REQUIRED; POLICY_HASH_INVALID].

(** The gates a context has to pass, one per configured constraint. *)
Definition value_in (allowed : list string) (v : option string) : bool :=
  is_some_and (λ v, bool_decide (v ∈ allowed)) v.
Definition purpose_gate (cx : PdpRequestContext) (p : PdpPolicyInput) : bool :=
  forallb (λ allowed, bool_decide (cx_purpose cx ∈ allowed)) (pl_purpose_constraints p).
Definition jurisdiction_gate (cx : PdpRequestContext) (p : PdpPolicyInput) : bool :=
  is_empty (pl_permitted_jurisdictions p)
  || value_in (pl_permitted_jurisdictions p) (cx_jurisdiction cx).
Definition assurance_gate (cx : PdpRequestContext) (p : PdpPolicyInput) : bool :=
  is_empty (pl_allowed_assurance p)
  || value_in (pl_allowed_assurance p) (cx_asserted_assurance cx).
Definition minimum_assurance_gate `{PdpLib} (cx : PdpRequestContext) (p : PdpPolicyInput) : bool :=
  match pl_minimum_assurance p with
  | Some minimum => is_some_and (λ level, assurance_reaches level minimum) (cx_asserted_assurance cx)
  | None => true
  end.
Definition freshness_gate (cx : PdpRequestContext) (p : PdpPolicyInput) : bool :=
  match pl_max_source_age_seconds p with
  | Some max => is_some_and (λ age, N.leb age max) (cx_source_observed_age_seconds cx)
  | None => true
  end.
Definition legal_basis_gate (cx : PdpRequestContext) (p : PdpPolicyInput) : bool :=
  negb (pl_require_legal_basis p) || is_some (cx_legal_basis_ref cx).
Definition consent_gate (cx : PdpRequestContext) (p : PdpPolicyInput) : bool :=
  negb (pl_require_consent p) || is_some (cx_consent_ref cx).

Definition decision_audit (d : PdpDecision) : PdpAudit :=
  match d with Permit a | PermitWithRedaction a _ | Deny a _ => a end.

(** A plain permit has passed every gate and owes no redaction; a policy with an
    ODRL term the engine does not support is never permitted; the audit record of a
    decision names the policy that was asked. *)
Class PdpSpec `{PdpLib} : Prop := {
  pdp_permit_gates cx p a :
    pdp_decide cx p = Permit a →
    purpose_gate cx p = true ∧ jurisdiction_gate cx p = true ∧ assurance_gate cx p = true ∧
    minimum_assurance_gate cx p = true ∧ freshness_gate cx p = true ∧
    legal_basis_gate cx p = true ∧ consent_gate cx p = true;
  pdp_permit_plain cx p a :
    pdp_decide cx p = Permit a →
    pl_redaction_fields p = ∅ ∧ pl_unsupported_odrl_terms p = [];
  pdp_audit_echo cx p :
    let a := decision_audit (pdp_decide cx p) in
    pa_policy_id a = pl_policy_id p ∧ pa_policy_hash a = pl_policy_hash p;
}.

(** ** A reference instance that evaluates the gates in order *)
Definition ref_levels : list string := ["low"; "substantial"; "high"].
Fixpoint ref_rank (levels : list string) (level : string) : option nat :=
  match levels with
  | [] => None
  | l :: levels => if String.eqb l level then Some 0 else S <$> ref_rank levels level
  end.
Definition ref_reaches (level minimum : string) : bool :=
  match ref_rank ref_levels level, ref_rank ref_levels minimum with
  | Some n, Some m => (m <=? n)%nat
  | _, _ => false
  end.

Definition ref_decide (cx : PdpRequestContext) (p : PdpPolicyInput) : PdpDecision :=
  let audit := {| pa_policy_id := pl_policy_id p; pa_policy_hash := pl_policy_hash p;
                  pa_evaluated_rule_ids := gates ≫= λ g, unwrap_or [] (pl_rule_ids_by_gate p !! g) |} in
  if negb (is_empty (pl_unsupported_odrl_terms p)) then Deny audit "pdp.unsupported_policy_term"
  else if negb (purpose_gate cx p) then Deny audit "pdp.purpose_not_permitted"
  else if negb (jurisdiction_gate cx p) then Deny audit "pdp.jurisdiction_not_permitted"
  else if negb (assurance_gate cx p) then Deny audit "pdp.assurance_insufficient"
  else if negb (match pl_minimum_assurance p with
                | Some minimum => is_some_and (λ level, ref_reaches level minimum) (cx_asserted_assurance cx)
                | None => true
                end) then Deny audit "pdp.assurance_insufficient"
  else if negb (freshness_gate cx p) then Deny audit "pdp.evidence_stale"
  else if negb (legal_basis_gate cx p) then Deny audit "pdp.legal_basis_required"
  else if negb (consent_gate cx p) then Deny audit "pdp.consent_required"
  else if bool_decide (pl_redaction_fields p = ∅) then Permit audit
  else PermitWithRedaction audit (pl_redaction_fields p).

Definition ref_pdp : PdpLib := {|
  pdp_decide := ref_decide;
  assurance_reaches := ref_reaches;
  CONTEXT_REQUIRED := "pdp.context_required";
  PURPOSE_NOT_PERMITTED := "pdp.purpose_not_permitted";
  ASSURANCE_INSUFFICIENT := "pdp.assurance_insufficient";
  EVIDENCE_STALE := "pdp.evidence_stale";
  LEGAL_BASIS_REQUIRED := "pdp.legal_basis_required";
  CONSENT_REQUIRED := "pdp.consent_required";
  JURISDICTION_NOT_PERMITTED := "pdp.jurisdiction_not_permitted";
  RELATIONSHIP_NOT_PERMITTED := "pdp.relationship_not_permitted";
  REQUESTED_FACT_NOT_PERMITTED := "pdp.requested_fact_not_permitted";
  DISCLOSURE_NOT_PERMITTED := "pdp.disclosure_not_permitted";
  CREDENTIAL_FORMAT_NOT_PERMITTED := "pdp.credential_format_not_permitted";
  SOURCE_BINDING_NOT_PERMITTED := "pdp.source_binding_not_permitted";
  ROUTE_IDENTITY_NOT_PERMITTED := "pdp.route_identity_not_permitted";
  CHECKED_SCOPE_REQUIRED := "pdp.checked_scope_required";
  UNSUPPORTED_POLICY_TERM := "pdp.unsupported_policy_term";
  POLICY_REQUIRED := "pdp.policy_required";
  POLICY_ID_REQUIRED := "pdp.policy_id_required";
  POLICY_HASH_INVALID := "pdp.policy_hash_invalid" |}.

Global Instance ref_pdp_spec : @PdpSpec ref_pdp.
Proof.
  split; [intros cx p a..|]; cbn; unfold ref_decide, minimum_assurance_gate.
  - (repeat case_match; try discriminate; intros _); bool_to_prop; done.
  - (repeat case_match; try discriminate; intros _); bool_to_prop;
      (split; [done|by apply is_empty_true]).
  - intros cx p. by repeat case_match.
Qed.
