(* ===== verification/Config.v ===== *)
(** * Configuration data ([src/src/config.rs], types and accessors)

    The records mirror the [struct]s field by field; the projection names carry a
    prefix because Rocq projections share one name space.  [usize], [u64] and
    [u32] fields are [N], [i64] is [Z], [PathBuf] is a string.  The fields of
    interior-mutable type [PolicyHashCache] are locations of a store the proxy
    state owns (see [PolicyHash] and [Proxy]). *)
From S2P Require Import Prelude RustStr BTree Errors External.
From Stdlib Require Import Ascii.

(** ** Constants *)
Definition DEFAULT_MAX_BODY_BYTES : N := 1024 * 1024.
Definition DEFAULT_UPSTREAM_TIMEOUT_SECONDS : N := 30.
Definition DEFAULT_REQUEST_TIMEOUT_SECONDS : N := 30.
Definition DEFAULT_TLS_HANDSHAKE_TIMEOUT_SECONDS : N := 10.
Definition DEFAULT_HTTP1_HEADER_READ_TIMEOUT_SECONDS : N := 10.
Definition DEFAULT_MAX_CONCURRENT_REQUESTS : N := 1024.
Definition DEFAULT_MAX_CONCURRENT_CONNECTIONS : N := 1024.
Definition DEFAULT_MAX_REQUESTS_PER_IDENTITY_PER_MINUTE : N := 600.
Definition DEFAULT_EXPIRY_WARNING_DAYS : Z := 30.

(** The functions the [serde(default = ..)] attributes name. *)
Definition default_max_body_bytes : N := DEFAULT_MAX_BODY_BYTES.
Definition default_upstream_timeout_seconds : N := DEFAULT_UPSTREAM_TIMEOUT_SECONDS.
Definition default_request_timeout_seconds : N := DEFAULT_REQUEST_TIMEOUT_SECONDS.
Definition default_tls_handshake_timeout_seconds : N := DEFAULT_TLS_HANDSHAKE_TIMEOUT_SECONDS.
Definition default_http1_header_read_timeout_seconds : N := DEFAULT_HTTP1_HEADER_READ_TIMEOUT_SECONDS.
Definition default_max_concurrent_requests : N := DEFAULT_MAX_CONCURRENT_REQUESTS.
Definition default_max_concurrent_connections : N := DEFAULT_MAX_CONCURRENT_CONNECTIONS.
Definition default_max_requests_per_identity_per_minute : N := DEFAULT_MAX_REQUESTS_PER_IDENTITY_PER_MINUTE.
Definition default_expiry_warning_days : Z := DEFAULT_EXPIRY_WARNING_DAYS.
Definition default_auth_header_name : string := "Authorization".
Definition default_auth_header_scheme : string := "Bearer".

(** ** Socket addresses ([std::net]) *)
Inductive IpAddr : Type :=
| V4 (a b c d : N)
| V6 (segments : list N).

Definition ip_is_loopback (ip : IpAddr) : bool :=
  match ip with
  | V4 a _ _ _ => (a =? 127)%N
  | V6 segs => bool_decide (segs = [0; 0; 0; 0; 0; 0; 0; 1]%N)
  end.

Record SocketAddr : Type := { sa_ip : IpAddr; sa_port : N }.

(** ** Listener *)
Inductive ListenConfig : Type :=
| Tcp (addr : SocketAddr)
| Unix (path : string).

Definition as_tcp (l : ListenConfig) : result ConnectorError SocketAddr :=
  match l with
  | Tcp addr => Ok addr
  | Unix _ => Err (InvalidConfig
      "unix socket listeners are not implemented in the MVP binary yet")
  end.

Definition is_loopback (l : ListenConfig) : bool :=
  match l with
  | Tcp addr => ip_is_loopback (sa_ip addr)
  | Unix _ => true
  end.

(** ** Sections of the file *)
Record IdentityFiles : Type := { id_cert : string; id_key : string }.

Record DefaultsConfig : Type := { df_data_purpose : option string }.

Record AuditConfig : Type := {
  au_hash_secret_env : option string;
  au_allow_unkeyed_hashing : bool;
}.

Record LimitsConfig : Type := {
  lm_max_body_bytes : N;
  lm_upstream_timeout_seconds : N;
  lm_request_timeout_seconds : N;
  lm_tls_handshake_timeout_seconds : N;
  lm_http1_header_read_timeout_seconds : N;
  lm_max_concurrent_requests : N;
  lm_max_concurrent_connections : N;
  lm_max_requests_per_identity_per_minute : N;
  lm_expiry_warning_days : Z;
}.

Definition LimitsConfig_default : LimitsConfig := {|
  lm_max_body_bytes := default_max_body_bytes;
  lm_upstream_timeout_seconds := default_upstream_timeout_seconds;
  lm_request_timeout_seconds := default_request_timeout_seconds;
  lm_tls_handshake_timeout_seconds := default_tls_handshake_timeout_seconds;
  lm_http1_header_read_timeout_seconds := default_http1_header_read_timeout_seconds;
  lm_max_concurrent_requests := default_max_concurrent_requests;
  lm_max_concurrent_connections := default_max_concurrent_connections;
  lm_max_requests_per_identity_per_minute := default_max_requests_per_identity_per_minute;
  lm_expiry_warning_days := default_expiry_warning_days;
|}.

Record GovernedTrustedContextConfig : Type := {
  tc_jurisdiction : option string;
  tc_asserted_assurance : option string;
  tc_legal_basis_ref : option string;
  tc_consent_ref : option string;
  tc_source_observed_age_seconds : option N;
}.

Definition GovernedTrustedContextConfig_default : GovernedTrustedContextConfig := {|
  tc_jurisdiction := None; tc_asserted_assurance := None; tc_legal_basis_ref := None;
  tc_consent_ref := None; tc_source_observed_age_seconds := None;
|}.

Record TrustContextEntitlementConfig : Type := {
  te_client_identity : string;
  te_trusted_context : GovernedTrustedContextConfig;
}.

Record TrustAnchorConfig : Type := {
  ta_ca : string;
  ta_trust_domain : string;
  ta_dns_identities : list string;
}.

Record ClientTrustConfig : Type := {
  ct_allowed_identities : list string;
  ct_trust_anchors : list TrustAnchorConfig;
  ct_denied_certificate_fingerprints_sha256 : list string;
  ct_trust_context_entitlements : list TrustContextEntitlementConfig;
}.

Inductive PurposeSource : Type := ClientProvided | StaticRouteDefault | DeniedMissing.

Global Instance PurposeSource_eq_dec : EqDecision PurposeSource.
Proof. solve_decision. Defined.

Record GovernedRoutePolicyConfig : Type := {
  gp_permitted_purposes : list string;
  gp_permitted_jurisdictions : list string;
  gp_allowed_assurance : list string;
  gp_minimum_assurance : option string;
  gp_max_source_age_seconds : option N;
  gp_require_legal_basis : bool;
  gp_require_consent : bool;
  gp_redaction_fields : list string;
  gp_unsupported_odrl_terms : list string;
  gp_trusted_context : GovernedTrustedContextConfig;
}.

(** [http::Method], by its token; the crate compares methods by it. *)
Definition Method : Type := string.

(** A reference to the [PolicyHashCache] cell of a route. *)
Definition CacheLoc : Type := nat.

Record RouteConfig : Type := {
  rt_id : string;
  rt_methods : list Method;
  rt_local_prefix : option string;
  rt_upstream_prefix : option string;
  rt_require_purpose : bool;
  rt_purpose_source : option PurposeSource;
  rt_client_identity : option string;
  rt_client_identities : list string;
  rt_upstream_auth_header_env : option string;
  rt_forward_client_identity_header : bool;
  rt_purposes : list string;
  rt_governed_policy : option GovernedRoutePolicyConfig;
  rt_allow_forward_authorization : bool;
  rt_allow_forward_cookie : bool;
  rt_policy_hash : CacheLoc;
}.

Inductive Mode : Type := Client | Server.

Global Instance Mode_eq_dec : EqDecision Mode.
Proof. solve_decision. Defined.

Section with_url.
Context {UL : UrlLib}.

Record ClientServerConfig : Type := { sv_url : Url; sv_trust_bundle : string }.

Record UpstreamConfig : Type := {
  up_base_url : Url;
  up_default_auth_header_env : option string;
  up_auth_header_name : string;
  up_auth_header_scheme : string;
}.

Record ConnectorConfig : Type := {
  cf_listen : ListenConfig;
  cf_server : option ClientServerConfig;
  cf_client_identity : option IdentityFiles;
  cf_defaults : DefaultsConfig;
  cf_audit : AuditConfig;
  cf_limits : LimitsConfig;
  cf_routes : list RouteConfig;
  cf_server_identity : option IdentityFiles;
  cf_client_trust : option ClientTrustConfig;
  cf_upstream : option UpstreamConfig;
  cf_allow_non_loopback_client_listen : bool;
  cf_allow_dns_san_identity : bool;
  cf_connector_id : option string;
}.

Record LoadedConfig : Type := { ld_config : ConnectorConfig; ld_path : string }.

(** ** Derived maps *)

(** [out.entry(k).or_default().push(p)]. *)
Definition entry_push (k p : string) (m : gmap string (list string)) : gmap string (list string) :=
  <[k := unwrap_or [] (m !! k) ++ [p]]> m.

Definition trust_domain_map (config : ConnectorConfig) : gmap string (list string) :=
  match cf_client_trust config with
  | None => ∅
  | Some trust =>
      fold_left (λ out anchor, entry_push (ta_trust_domain anchor) (ta_ca anchor) out)
        (ct_trust_anchors trust) ∅
  end.

Definition dns_identity_map (config : ConnectorConfig) : gmap string (list string) :=
  match cf_client_trust config with
  | None => ∅
  | Some trust =>
      fold_left (λ out anchor,
        fold_left (λ out identity, entry_push identity (ta_ca anchor) out)
          (ta_dns_identities anchor) out)
        (ct_trust_anchors trust) ∅
  end.

Definition dns_identity_set (config : ConnectorConfig) : gset string :=
  dom (dns_identity_map config).

(** ** Accessors.  A [Duration] is a number of nanoseconds. *)
Definition duration_from_secs (n : N) : N := n * 1000000000.
Definition max_body_bytes (config : ConnectorConfig) : N := lm_max_body_bytes (cf_limits config).
Definition upstream_timeout (config : ConnectorConfig) : N :=
  duration_from_secs (lm_upstream_timeout_seconds (cf_limits config)).
Definition request_timeout (config : ConnectorConfig) : N :=
  duration_from_secs (lm_request_timeout_seconds (cf_limits config)).
Definition tls_handshake_timeout (config : ConnectorConfig) : N :=
  duration_from_secs (lm_tls_handshake_timeout_seconds (cf_limits config)).
Definition http1_header_read_timeout (config : ConnectorConfig) : N :=
  duration_from_secs (lm_http1_header_read_timeout_seconds (cf_limits config)).
End with_url.

(** ** Strings of the configuration *)
Definition spiffe_trust_domain (identity : string) : option string :=
  rest ← strip_prefix "spiffe://" identity;
  opt_filter (λ value, negb (str_is_empty value)) (head (split_char "/" rest)).

Definition is_sha256_fingerprint (value : string) : bool :=
  (String.length value =? 64)%nat && bytes_all is_ascii_hexdigit value.

Definition route_client_identities (route : RouteConfig) : gset string :=
  let identities : gset string :=
    match opt_filter (λ v, negb (str_is_empty v)) (trim <$> rt_client_identity route) with
    | Some identity => {[identity]}
    | None => ∅
    end in
  fold_left (λ acc identity,
      let identity := trim identity in
      if str_is_empty identity then acc else {[identity]} ∪ acc)
    (rt_client_identities route) identities.
