(* ===== verification/SocketAddr.v ===== *)
(** * Socket addresses from text ([std::net], [SocketAddr::from_str])

    [ListenConfig::Tcp] is deserialised with the standard library's parser of
    socket addresses, which decides whether [listen] is a TCP address or the path
    of a Unix socket.  A reader takes a prefix of the text or fails without
    consuming anything, as [read_atomically] does. *)
From S2P Require Import Prelude RustStr BTree Errors External Config.
From Stdlib Require Import Ascii.
Local Open Scope N_scope.

Definition Reader (A : Type) : Type := string → option (A * string).

Definition read_given_char (c : ascii) : Reader unit := λ s,
  match s with
  | String d s => if Ascii.eqb c d then Some (tt, s) else None
  | EmptyString => None
  end.

(** [char::to_digit]. *)
Definition to_digit (radix : N) (c : ascii) : option N :=
  let v := if is_ascii_digit c then Some (byte_val c - 48)
           else if is_ascii_lower c then Some (byte_val c - 87)
           else if is_ascii_upper c then Some (byte_val c - 55)
           else None in
  match v with Some v => if v <? radix then Some v else None | None => None end.

(** The digits at the front and what follows them. *)
Fixpoint span_digits (radix : N) (s : string) : list N * string :=
  match s with
  | EmptyString => ([], EmptyString)
  | String c s' =>
      match to_digit radix c with
      | Some d => let '(ds, rest) := span_digits radix s' in (d :: ds, rest)
      | None => ([], s)
      end
  end.

Definition digits_value (radix : N) (ds : list N) : N := fold_left (λ acc d, acc * radix + d) ds 0.

(** [read_number]: at most [max_digits] digits when given, a leading zero only when
    allowed or alone, and a value of the type, whose bound is [bound]. *)
Definition read_number (radix : N) (max_digits : option nat) (allow_zero_prefix : bool) (bound : N)
    : Reader N := λ s,
  let '(ds, rest) := span_digits radix s in
  if is_empty ds then None else
  if is_some_and (λ max, (max <? length ds)%nat) max_digits then None else
  if negb allow_zero_prefix && starts_with_char "0" s && (1 <? length ds)%nat then None else
  if digits_value radix ds <? bound then Some (digits_value radix ds, rest) else None.

(** [read_separator]: nothing before the first element. *)
Definition read_separator {A} (sep : ascii) (first : bool) (inner : Reader A) : Reader A := λ s,
  if first then inner s else '(_, s) ← read_given_char sep s; inner s.

Definition read_octet (first : bool) : Reader N :=
  read_separator "." first (read_number 10 (Some 3%nat) false 256).

Definition read_ipv4_addr : Reader (N * N * N * N) := λ s,
  '(a, s) ← read_octet true s; '(b, s) ← read_octet false s;
  '(c, s) ← read_octet false s; '(d, s) ← read_octet false s;
  Some ((a, b, c, d), s).

(** The groups of one side of [::], [left] at most; a trailing IPv4 address counts
    as two of them. *)
Fixpoint read_groups (left : nat) (first : bool) (s : string) : list N * bool * string :=
  match left with
  | O => ([], false, s)
  | S left' =>
      match (if (2 <=? left)%nat then read_separator ":" first read_ipv4_addr s else None) with
      | Some ((a, b, c, d), s) => ([a * 256 + b; c * 256 + d], true, s)
      | None =>
          match read_separator ":" first (read_number 16 (Some 4%nat) true 65536) s with
          | Some (g, s) => let '(gs, v4, s) := read_groups left' false s in (g :: gs, v4, s)
          | None => ([], false, s)
          end
      end
  end.

Definition read_ipv6_addr : Reader (list N) := λ s,
  let '(front, front_ipv4, s) := read_groups 8 true s in
  if (length front =? 8)%nat then Some (front, s) else
  if front_ipv4 then None else
  '(_, s) ← read_given_char ":" s; '(_, s) ← read_given_char ":" s;
  let '(back, _, s) := read_groups (8 - (length front + 1)) true s in
  Some (front ++ repeat 0 (8 - length front - length back) ++ back, s).

Definition read_port : Reader N := λ s,
  '(_, s) ← read_given_char ":" s; read_number 10 None true 65536 s.

(** The scope of an IPv6 address is read and not used by the connector. *)
Definition read_scope_id : Reader N := λ s,
  '(_, s) ← read_given_char "%" s; read_number 10 None true 4294967296 s.

Definition read_socket_addr_v4 : Reader SocketAddr := λ s,
  '((a, b, c, d), s) ← read_ipv4_addr s; '(port, s) ← read_port s;
  Some ({| sa_ip := V4 a b c d; sa_port := port |}, s).

Definition read_socket_addr_v6 : Reader SocketAddr := λ s,
  '(_, s) ← read_given_char "[" s; '(ip, s) ← read_ipv6_addr s;
  let s := match read_scope_id s with Some (_, s) => s | None => s end in
  '(_, s) ← read_given_char "]" s; '(port, s) ← read_port s;
  Some ({| sa_ip := V6 ip; sa_port := port |}, s).

(** [SocketAddr::from_str]: the whole text. *)
Definition socket_addr_from_str (s : string) : option SocketAddr :=
  match (match read_socket_addr_v4 s with Some r => Some r | None => read_socket_addr_v6 s end) with
  | Some (addr, EmptyString) => Some addr
  | _ => None
  end.

Example v4_text : socket_addr_from_str "127.0.0.1:8080" =
  Some {| sa_ip := V4 127 0 0 1; sa_port := 8080 |}.
Proof. reflexivity. Qed.
Example v6_text : socket_addr_from_str "[::1]:9443" =
  Some {| sa_ip := V6 [0; 0; 0; 0; 0; 0; 0; 1]; sa_port := 9443 |}.
Proof. reflexivity. Qed.
Example v6_mapped : socket_addr_from_str "[fe80::a:192.168.1.2%3]:00080" =
  Some {| sa_ip := V6 [65152; 0; 0; 0; 0; 10; 49320; 258]; sa_port := 80 |}.
Proof. reflexivity. Qed.
Example octal_refused : socket_addr_from_str "127.0.0.01:80" = None.
Proof. reflexivity. Qed.
Example path_refused : socket_addr_from_str "/run/connector.sock" = None.
Proof. reflexivity. Qed.

(** ** Printed IPv4 addresses are read back *)
Lemma to_digit_decimal c : to_digit 10 c = digit_val c.
Proof. by destruct c as [[] [] [] [] [] [] [] []]. Qed.

Lemma span_parse acc s n :
  parse_digits acc s = Some n →
  ∃ ds, span_digits 10 s = (ds, EmptyString) ∧ fold_left (λ acc d, acc * 10 + d) ds acc = n.
Proof.
  revert acc. induction s as [|c s IH]; intros acc; simpl; [intros [= <-]; by exists []|].
  rewrite to_digit_decimal. destruct (digit_val c) as [d|]; [|done].
  destruct (_ <? _); [|done]. intros (ds & Hs & Hf)%IH. rewrite Hs. by exists (d :: ds).
Qed.

Lemma span_app s rest ds :
  span_digits 10 s = (ds, EmptyString) →
  match rest with String c _ => to_digit 10 c = None | EmptyString => True end →
  span_digits 10 (s +:+ rest) = (ds, rest).
Proof.
  intros Hs Hrest. revert ds Hs. induction s as [|c s IH]; intros ds; simpl.
  - intros [= <-]. destruct rest as [|c rest]; [done|]. simpl. by rewrite Hrest.
  - destruct (to_digit 10 c) as [d|] eqn:Ed; [|done].
    destruct (span_digits 10 s) as [ds' r] eqn:E. intros [= <- ->]. simpl.
    by rewrite (IH ds').
Qed.

Lemma starts_with_char_app c s rest : s ≠ EmptyString → starts_with_char c (s +:+ rest) = starts_with_char c s.
Proof. by destruct s. Qed.

(** The decimal text of a number, read as an octet or as a port. *)
Definition octet_text_ok (n : N) : bool :=
  let '(ds, rest) := span_digits 10 (u64_to_string n) in
  str_is_empty rest && negb (is_empty ds) && (length ds <=? 3)%nat
  && negb (starts_with_char "0" (u64_to_string n) && (1 <? length ds)%nat)
  && (digits_value 10 ds =? n).

Lemma octet_texts : forallb octet_text_ok (N.of_nat <$> seq 0 256) = true.
Proof. vm_compute. reflexivity. Qed.

Lemma read_octet_text n rest :
  n < 256 → match rest with String c _ => to_digit 10 c = None | EmptyString => True end →
  read_number 10 (Some 3%nat) false 256 (u64_to_string n +:+ rest) = Some (n, rest).
Proof.
  intros Hn Hrest.
  assert (Hok : octet_text_ok n = true).
  { apply (proj1 (forallb_elem_of _ _) octet_texts). apply list_elem_of_fmap. exists (N.to_nat n).
    split; [lia|]. apply elem_of_seq. lia. }
  unfold octet_text_ok in Hok. destruct (span_digits 10 (u64_to_string n)) as [ds r] eqn:E.
  rewrite !andb_true_iff in Hok. destruct Hok as [[[[Hr Hne] Hlen] Hz] Hv].
  apply str_is_empty_true in Hr as ->. apply negb_true_iff in Hne, Hz. apply Nat.leb_le in Hlen.
  apply N.eqb_eq in Hv. unfold read_number.
  rewrite (span_app _ _ _ E Hrest), Hne, starts_with_char_app by apply u64_to_string_ne. simpl.
  destruct (Nat.ltb_spec 3 (length ds)); [lia|]. rewrite Hz, Hv.
  by destruct (N.ltb_spec n 256); [|lia].
Qed.

Lemma read_port_text n : n < 65536 → read_port (String ":" (u64_to_string n)) = Some (n, EmptyString).
Proof.
  intros Hn. unfold read_port, read_number. simpl.
  pose proof (parse_u64_of_string n) as Hp. pose proof (u64_to_string_digits n) as Hd.
  pose proof (u64_to_string_ne n) as Hne.
  destruct (N.ltb_spec n u64_bound) as [_|?]; [|unfold u64_bound in *; lia].
  assert (Hparse : parse_digits 0 (u64_to_string n) = Some n).
  { destruct (u64_to_string n) as [|c s]; [done|]. simpl in Hd. apply andb_true_iff in Hd as [Hc _].
    unfold parse_u64 in Hp. by destruct (Ascii.eqb_spec c "+") as [->|_]. }
  apply span_parse in Hparse as (ds & Hs & Hv). rewrite Hs. unfold digits_value. rewrite Hv.
  destruct (N.ltb_spec n 65536); [|lia]. destruct ds as [|d ds]; [|done].
  exfalso. destruct (u64_to_string n) as [|c s]; [done|]. simpl in Hs, Hd.
  apply andb_true_iff in Hd as [Hc _]. rewrite to_digit_decimal in Hs. unfold digit_val in Hs. rewrite Hc in Hs.
  by destruct (span_digits 10 s).
Qed.

Definition socket_addr_v4_text (a b c d port : N) : string :=
  u64_to_string a +:+ "." +:+ u64_to_string b +:+ "." +:+ u64_to_string c +:+ "." +:+ u64_to_string d
    +:+ ":" +:+ u64_to_string port.

Lemma socket_addr_v4_read a b c d port :
  a < 256 → b < 256 → c < 256 → d < 256 → port < 65536 →
  socket_addr_from_str (socket_addr_v4_text a b c d port) =
  Some {| sa_ip := V4 a b c d; sa_port := port |}.
Proof.
  intros Ha Hb Hc Hd Hp. unfold socket_addr_from_str, socket_addr_v4_text, read_socket_addr_v4, read_ipv4_addr.
  assert (Hdot : ∀ n rest, n < 256 →
    match rest with String c _ => to_digit 10 c = None | EmptyString => True end →
    read_octet false ("." +:+ u64_to_string n +:+ rest) = Some (n, rest)).
  { intros n rest Hn Hrest. exact (read_octet_text n rest Hn Hrest). }
  assert (Hfirst : ∀ rest, match rest with String c _ => to_digit 10 c = None | EmptyString => True end →
    read_octet true (u64_to_string a +:+ rest) = Some (a, rest)).
  { intros rest Hrest. exact (read_octet_text a rest Ha Hrest). }
  rewrite Hfirst by done. cbn -[read_octet read_port]. rewrite !Hdot by done. cbn -[read_octet read_port].
  rewrite !Hdot by done. cbn -[read_octet read_port]. rewrite Hdot by done. cbn -[read_port].
  change (":" +:+ u64_to_string port) with (String ":" (u64_to_string port)).
  by rewrite read_port_text.
Qed.

(** ** What is read is an address *)
Definition ip_typed (ip : IpAddr) : Prop :=
  match ip with
  | V4 a b c d => a < 256 ∧ b < 256 ∧ c < 256 ∧ d < 256
  | V6 segments => length segments = 8%nat ∧ Forall (λ g, g < 65536) segments
  end.

Definition addr_typed (addr : SocketAddr) : Prop := ip_typed (sa_ip addr) ∧ sa_port addr < 65536.

Lemma read_number_bound radix digits zero bound s n rest :
  read_number radix digits zero bound s = Some (n, rest) → n < bound.
Proof.
  unfold read_number. destruct (span_digits radix s) as [ds r].
  destruct (is_empty ds); [done|]. destruct (is_some_and _ _); [done|].
  destruct (negb _ && _ && _); [done|]. destruct (N.ltb_spec (digits_value radix ds) bound); [|done].
  by intros [= <- _].
Qed.

Lemma read_separator_bound {A} (P : A → Prop) sep first (inner : Reader A) s a rest :
  (∀ s a rest, inner s = Some (a, rest) → P a) →
  read_separator sep first inner s = Some (a, rest) → P a.
Proof.
  intros HP. unfold read_separator. destruct first; [apply HP|].
  destruct (read_given_char sep s) as [[[] s']|]; simpl; [apply HP|done].
Qed.

Lemma read_octet_bound first s n rest : read_octet first s = Some (n, rest) → n < 256.
Proof. apply (read_separator_bound (λ n, n < 256)). apply read_number_bound. Qed.

Lemma read_ipv4_typed s a b c d rest :
  read_ipv4_addr s = Some ((a, b, c, d), rest) → ip_typed (V4 a b c d).
Proof.
  unfold read_ipv4_addr. intros ([n1 s1] & H1 & ([n2 s2] & H2 & ([n3 s3] & H3 &
    ([n4 s4] & H4 & [= <- <- <- <- <-])%bind_Some)%bind_Some)%bind_Some)%bind_Some.
  by apply read_octet_bound in H1, H2, H3, H4.
Qed.

Lemma read_group_bound first s g rest :
  read_separator ":" first (read_number 16 (Some 4%nat) true 65536) s = Some (g, rest) → g < 65536.
Proof. apply (read_separator_bound (λ g, g < 65536)), read_number_bound. Qed.

Lemma read_embedded_typed first s a b c d rest :
  read_separator ":" first read_ipv4_addr s = Some ((a, b, c, d), rest) → ip_typed (V4 a b c d).
Proof.
  intros H. apply (read_separator_bound (λ '(a, b, c, d), ip_typed (V4 a b c d))) in H; [done|].
  intros s' [[[a' b'] c'] d'] r. apply read_ipv4_typed.
Qed.

Lemma read_groups_typed left first s gs v4 rest :
  read_groups left first s = (gs, v4, rest) →
  (length gs ≤ left)%nat ∧ Forall (λ g, g < 65536) gs.
Proof.
  revert first s gs v4 rest. induction left as [|left IH]; intros first s gs v4 rest; cbn -[Nat.leb].
  { intros [= <- _ _]. split; [done|constructor]. }
  destruct (if (2 <=? S left)%nat then _ else _) as [[[[[a b] c] d] s1]|] eqn:E.
  - intros [= <- _ _]. destruct (Nat.leb_spec 2 (S left)) as [Hl|]; [|done]. simpl. split; [lia|].
    apply read_embedded_typed in E as (? & ? & ? & ?). repeat constructor; lia.
  - clear E. destruct (read_separator _ _ _ _) as [[g s1]|] eqn:Eg.
    + destruct (read_groups left false s1) as [[gs1 w] s2] eqn:Er. intros [= <- _ _].
      apply IH in Er as [Hlen Hgs]. split; [simpl; lia|].
      constructor; [by eapply read_group_bound|done].
    + intros [= <- _ _]. split; [simpl; lia|constructor].
Qed.

Lemma read_ipv6_typed s ip rest : read_ipv6_addr s = Some (ip, rest) → ip_typed (V6 ip).
Proof.
  unfold read_ipv6_addr. destruct (read_groups 8 true s) as [[front fv4] s1] eqn:Ef.
  apply read_groups_typed in Ef as [Hl Hf].
  destruct (Nat.eqb_spec (length front) 8) as [H8|H8]; [by intros [= <- _]|]. destruct fv4; [done|].
  intros ([[] s2] & _ & ([[] s3] & _ & H)%bind_Some)%bind_Some.
  destruct (read_groups (8 - (length front + 1)) true s3) as [[back bv4] s4] eqn:Eb.
  apply read_groups_typed in Eb as [Hlb Hb]. injection H as <- _. split.
  - rewrite !length_app, repeat_length. lia.
  - rewrite !Forall_app. split_and!; [done| |done].
    induction (8 - length front - length back)%nat; simpl; constructor; [lia|done].
Qed.

Lemma read_port_bound s n rest : read_port s = Some (n, rest) → n < 65536.
Proof. intros ([[] s1] & _ & H)%bind_Some. by apply read_number_bound in H. Qed.

Lemma read_v4_typed s addr rest : read_socket_addr_v4 s = Some (addr, rest) → addr_typed addr.
Proof.
  intros ([[[[a b] c] d] s1] & Hip & ([port s2] & Hp & [= <- _])%bind_Some)%bind_Some.
  split; [by eapply read_ipv4_typed|by eapply read_port_bound].
Qed.

Lemma read_v6_typed s addr rest : read_socket_addr_v6 s = Some (addr, rest) → addr_typed addr.
Proof.
  intros ([[] s1] & _ & ([ip s2] & Hip & ([[] s3] & _ & ([port s4] & Hp & [= <- _])%bind_Some)
    %bind_Some)%bind_Some)%bind_Some.
  split; [by eapply read_ipv6_typed|by eapply read_port_bound].
Qed.

Lemma socket_addr_typed s addr : socket_addr_from_str s = Some addr → addr_typed addr.
Proof.
  unfold socket_addr_from_str. destruct (read_socket_addr_v4 s) as [[x r]|] eqn:E4.
  - destruct r; [|done]. intros [= ->]. by apply read_v4_typed in E4.
  - destruct (read_socket_addr_v6 s) as [[x r]|] eqn:E6; [|done]. destruct r; [|done].
    intros [= ->]. by apply read_v6_typed in E6.
Qed.
