(* ===== verification/Decode.v ===== *)
(** * Reading the configuration ([src/src/config.rs], the [Deserialize] impls)

    The structs of the configuration derive [serde::Deserialize]; their attributes
    say which fields may be missing, what a missing field becomes, and that unknown
    fields are refused.  The YAML library supplies the nodes of a document and
    decodes the primitive types; here are the decoders the attributes describe, the
    two hand-written parts ([deserialize_methods] and the [default_*] functions), and
    the untagged [ListenConfig].  Which of several errors of one document is
    reported first is the library's choice and is not modelled. *)
From S2P Require Import Prelude RustStr BTree Errors External Reference Http Config SocketAddr.
From Stdlib Require Import Ascii.

(** The constructors of [serde::de::Error] that occur. *)
Inductive DeError : Type :=
| MissingField (field : string)
| UnknownField (field : string)
| DuplicateField (field : string)
| UnknownVariant (variant : string)
| InvalidType
| InvalidValue (value : string)
| NoVariantMatched
| CustomError (message : string).

(** [serde_saphyr]: the document, and the primitive deserialisers of a node.
    [de_any_string] is the node as self-describing text, which untagged enums see. *)
Class YamlLib := {
  Node : Type;
  yaml_parse : string → result string Node;
  de_error_text : DeError → string;
  de_map : Node → result DeError (list (string * Node));
  de_seq : Node → result DeError (list Node);
  de_is_null : Node → bool;
  de_string : Node → result DeError string;
  de_any_string : Node → option string;
  de_bool : Node → result DeError bool;
  de_u64 : Node → result DeError N;
  de_usize : Node → result DeError N;
  de_u32 : Node → result DeError N;
  de_i64 : Node → result DeError Z;
}.

(** Integers are decoded into their type; [usize] has 64 bits. *)
Class YamlSpec `{YamlLib} : Prop := {
  de_u64_bound n x : de_u64 n = Ok x → (x < 2 ^ 64)%N;
  de_usize_bound n x : de_usize n = Ok x → (x < 2 ^ 64)%N;
  de_u32_bound n x : de_u32 n = Ok x → (x < 2 ^ 32)%N;
  de_i64_bound n x : de_i64 n = Ok x → (- 2 ^ 63 ≤ x < 2 ^ 63)%Z;
}.

Section decode.
Context {YL : YamlLib}.

(** ** Structs with [deny_unknown_fields] *)
Fixpoint check_keys (fields seen : list string) (es : list (string * Node)) : result DeError unit :=
  match es with
  | [] => Ok tt
  | (k, _) :: es =>
      if negb (existsb (String.eqb k) fields) then Err (UnknownField k) else
      if existsb (String.eqb k) seen then Err (DuplicateField k) else
      check_keys fields (k :: seen) es
  end.

Definition de_struct {A} (fields : list string) (body : list (string * Node) → result DeError A)
    (node : Node) : result DeError A :=
  es ← de_map node;
  _ ← check_keys fields [] es;
  body es.

Fixpoint entry (name : string) (es : list (string * Node)) : option Node :=
  match es with
  | [] => None
  | (k, v) :: es => if String.eqb name k then Some v else entry name es
  end.

(** A field without attribute, a field with a default, and an [Option] field, which
    may be missing or null. *)
Definition required {A} (es : list (string * Node)) (name : string) (de : Node → result DeError A)
    : result DeError A :=
  match entry name es with Some node => de node | None => Err (MissingField name) end.

Definition defaulted {A} (es : list (string * Node)) (name : string) (de : Node → result DeError A)
    (default : A) : result DeError A :=
  match entry name es with Some node => de node | None => Ok default end.

Definition de_option {A} (de : Node → result DeError A) (node : Node) : result DeError (option A) :=
  if de_is_null node then Ok None else Some <$> de node.

Definition optional {A} (es : list (string * Node)) (name : string) (de : Node → result DeError A)
    : result DeError (option A) :=
  defaulted es name (de_option de) None.

Fixpoint de_all {A} (de : Node → result DeError A) (nodes : list Node) : result DeError (list A) :=
  match nodes with
  | [] => Ok []
  | node :: nodes => x ← de node; xs ← de_all de nodes; Ok (x :: xs)
  end.

Definition de_vec {A} (de : Node → result DeError A) (node : Node) : result DeError (list A) :=
  nodes ← de_seq node; de_all de nodes.

Definition strings (es : list (string * Node)) (name : string) : result DeError (list string) :=
  defaulted es name (de_vec de_string) [].
Definition flag (es : list (string * Node)) (name : string) : result DeError bool :=
  defaulted es name de_bool false.

(** ** Leaves *)

(** Untagged: a socket address if the text is one, and otherwise the text. *)
Definition de_ListenConfig (node : Node) : result DeError ListenConfig :=
  match de_any_string node with
  | Some text =>
      match socket_addr_from_str text with
      | Some addr => Ok (Tcp addr)
      | None => Ok (Unix text)
      end
  | None => Err NoVariantMatched
  end.

Definition de_PurposeSource (node : Node) : result DeError PurposeSource :=
  name ← de_string node;
  if String.eqb name "client_provided" then Ok ClientProvided else
  if String.eqb name "static_route_default" then Ok StaticRouteDefault else
  if String.eqb name "denied_missing" then Ok DeniedMissing else
  Err (UnknownVariant name).

(** ** Sections without URLs *)
Definition de_IdentityFiles : Node → result DeError IdentityFiles :=
  de_struct ["cert"; "key"] (λ es,
    cert ← required es "cert" de_string;
    key ← required es "key" de_string;
    Ok {| id_cert := cert; id_key := key |}).

Definition de_DefaultsConfig : Node → result DeError DefaultsConfig :=
  de_struct ["data_purpose"] (λ es,
    data_purpose ← optional es "data_purpose" de_string;
    Ok {| df_data_purpose := data_purpose |}).
Definition DefaultsConfig_default : DefaultsConfig := {| df_data_purpose := None |}.

Definition de_AuditConfig : Node → result DeError AuditConfig :=
  de_struct ["hash_secret_env"; "allow_unkeyed_hashing"] (λ es,
    hash_secret_env ← optional es "hash_secret_env" de_string;
    allow_unkeyed_hashing ← flag es "allow_unkeyed_hashing";
    Ok {| au_hash_secret_env := hash_secret_env; au_allow_unkeyed_hashing := allow_unkeyed_hashing |}).
Definition AuditConfig_default : AuditConfig :=
  {| au_hash_secret_env := None; au_allow_unkeyed_hashing := false |}.

Definition limits_fields : list string :=
  ["max_body_bytes"; "upstream_timeout_seconds"; "request_timeout_seconds";
   "tls_handshake_timeout_seconds"; "http1_header_read_timeout_seconds"; "max_concurrent_requests";
   "max_concurrent_connections"; "max_requests_per_identity_per_minute"; "expiry_warning_days"].

Definition de_LimitsConfig : Node → result DeError LimitsConfig :=
  de_struct limits_fields (λ es,
    max_body_bytes ← defaulted es "max_body_bytes" de_usize default_max_body_bytes;
    upstream_timeout_seconds ←
      defaulted es "upstream_timeout_seconds" de_u64 default_upstream_timeout_seconds;
    request_timeout_seconds ←
      defaulted es "request_timeout_seconds" de_u64 default_request_timeout_seconds;
    tls_handshake_timeout_seconds ←
      defaulted es "tls_handshake_timeout_seconds" de_u64 default_tls_handshake_timeout_seconds;
    http1_header_read_timeout_seconds ←
      defaulted es "http1_header_read_timeout_seconds" de_u64 default_http1_header_read_timeout_seconds;
    max_concurrent_requests ←
      defaulted es "max_concurrent_requests" de_usize default_max_concurrent_requests;
    max_concurrent_connections ←
      defaulted es "max_concurrent_connections" de_usize default_max_concurrent_connections;
    max_requests_per_identity_per_minute ←
      defaulted es "max_requests_per_identity_per_minute" de_u32
        default_max_requests_per_identity_per_minute;
    expiry_warning_days ← defaulted es "expiry_warning_days" de_i64 default_expiry_warning_days;
    Ok {| lm_max_body_bytes := max_body_bytes;
          lm_upstream_timeout_seconds := upstream_timeout_seconds;
          lm_request_timeout_seconds := request_timeout_seconds;
          lm_tls_handshake_timeout_seconds := tls_handshake_timeout_seconds;
          lm_http1_header_read_timeout_seconds := http1_header_read_timeout_seconds;
          lm_max_concurrent_requests := max_concurrent_requests;
          lm_max_concurrent_connections := max_concurrent_connections;
          lm_max_requests_per_identity_per_minute := max_requests_per_identity_per_minute;
          lm_expiry_warning_days := expiry_warning_days |}).

Definition trusted_context_fields : list string :=
  ["jurisdiction"; "asserted_assurance"; "legal_basis_ref"; "consent_ref"; "source_observed_age_seconds"].

Definition de_GovernedTrustedContextConfig : Node → result DeError GovernedTrustedContextConfig :=
  de_struct trusted_context_fields (λ es,
    jurisdiction ← optional es "jurisdiction" de_string;
    asserted_assurance ← optional es "asserted_assurance" de_string;
    legal_basis_ref ← optional es "legal_basis_ref" de_string;
    consent_ref ← optional es "consent_ref" de_string;
    source_observed_age_seconds ← optional es "source_observed_age_seconds" de_u64;
    Ok {| tc_jurisdiction := jurisdiction; tc_asserted_assurance := asserted_assurance;
          tc_legal_basis_ref := legal_basis_ref; tc_consent_ref := consent_ref;
          tc_source_observed_age_seconds := source_observed_age_seconds |}).

Definition de_TrustContextEntitlementConfig : Node → result DeError TrustContextEntitlementConfig :=
  de_struct ["client_identity"; "trusted_context"] (λ es,
    client_identity ← required es "client_identity" de_string;
    trusted_context ← defaulted es "trusted_context" de_GovernedTrustedContextConfig
      GovernedTrustedContextConfig_default;
    Ok {| te_client_identity := client_identity; te_trusted_context := trusted_context |}).

Definition de_TrustAnchorConfig : Node → result DeError TrustAnchorConfig :=
  de_struct ["ca"; "trust_domain"; "dns_identities"] (λ es,
    ca ← required es "ca" de_string;
    trust_domain ← required es "trust_domain" de_string;
    dns_identities ← strings es "dns_identities";
    Ok {| ta_ca := ca; ta_trust_domain := trust_domain; ta_dns_identities := dns_identities |}).

Definition client_trust_fields : list string :=
  ["allowed_identities"; "trust_anchors"; "denied_certificate_fingerprints_sha256";
   "trust_context_entitlements"].

Definition de_ClientTrustConfig : Node → result DeError ClientTrustConfig :=
  de_struct client_trust_fields (λ es,
    allowed_identities ← strings es "allowed_identities";
    trust_anchors ← defaulted es "trust_anchors" (de_vec de_TrustAnchorConfig) [];
    denied ← strings es "denied_certificate_fingerprints_sha256";
    entitlements ← defaulted es "trust_context_entitlements"
      (de_vec de_TrustContextEntitlementConfig) [];
    Ok {| ct_allowed_identities := allowed_identities; ct_trust_anchors := trust_anchors;
          ct_denied_certificate_fingerprints_sha256 := denied;
          ct_trust_context_entitlements := entitlements |}).

Definition governed_policy_fields : list string :=
  ["permitted_purposes"; "permitted_jurisdictions"; "allowed_assurance"; "minimum_assurance";
   "max_source_age_seconds"; "require_legal_basis"; "require_consent"; "redaction_fields";
   "unsupported_odrl_terms"; "trusted_context"].

Definition de_GovernedRoutePolicyConfig : Node → result DeError GovernedRoutePolicyConfig :=
  de_struct governed_policy_fields (λ es,
    permitted_purposes ← strings es "permitted_purposes";
    permitted_jurisdictions ← strings es "permitted_jurisdictions";
    allowed_assurance ← strings es "allowed_assurance";
    minimum_assurance ← optional es "minimum_assurance" de_string;
    max_source_age_seconds ← optional es "max_source_age_seconds" de_u64;
    require_legal_basis ← flag es "require_legal_basis";
    require_consent ← flag es "require_consent";
    redaction_fields ← strings es "redaction_fields";
    unsupported_odrl_terms ← strings es "unsupported_odrl_terms";
    trusted_context ← defaulted es "trusted_context" de_GovernedTrustedContextConfig
      GovernedTrustedContextConfig_default;
    Ok {| gp_permitted_purposes := permitted_purposes;
          gp_permitted_jurisdictions := permitted_jurisdictions;
          gp_allowed_assurance := allowed_assurance; gp_minimum_assurance := minimum_assurance;
          gp_max_source_age_seconds := max_source_age_seconds;
          gp_require_legal_basis := require_legal_basis; gp_require_consent := require_consent;
          gp_redaction_fields := redaction_fields;
          gp_unsupported_odrl_terms := unsupported_odrl_terms;
          gp_trusted_context := trusted_context |}).
End decode.

(** ** Routes *)
Section routes.
Context {YL : YamlLib} {HL : HttpLib}.

Definition parse_method (value : string) : result DeError Method :=
  ok_or (CustomError ("invalid HTTP method '" +:+ value +:+ "'")) (method_from_bytes value).

Fixpoint parse_methods (values : list string) : result DeError (list Method) :=
  match values with
  | [] => Ok []
  | value :: values => m ← parse_method value; ms ← parse_methods values; Ok (m :: ms)
  end.

Definition deserialize_methods (node : Node) : result DeError (list Method) :=
  values ← de_vec de_string node;
  parse_methods values.

Definition route_fields : list string :=
  ["id"; "methods"; "local_prefix"; "upstream_prefix"; "require_purpose"; "purpose_source";
   "client_identity"; "client_identities"; "upstream_auth_header_env";
   "forward_client_identity_header"; "purposes"; "governed_policy"; "allow_forward_authorization";
   "allow_forward_cookie"].

(** [policy_hash] is skipped: every route gets a cache cell of its own, which is
    [loc]. *)
Definition de_RouteConfig (loc : CacheLoc) : Node → result DeError RouteConfig :=
  de_struct route_fields (λ es,
    id ← required es "id" de_string;
    methods ← defaulted es "methods" deserialize_methods [];
    local_prefix ← optional es "local_prefix" de_string;
    upstream_prefix ← optional es "upstream_prefix" de_string;
    require_purpose ← flag es "require_purpose";
    purpose_source ← optional es "purpose_source" de_PurposeSource;
    client_identity ← optional es "client_identity" de_string;
    client_identities ← strings es "client_identities";
    upstream_auth_header_env ← optional es "upstream_auth_header_env" de_string;
    forward_client_identity_header ← flag es "forward_client_identity_header";
    purposes ← strings es "purposes";
    governed_policy ← optional es "governed_policy" de_GovernedRoutePolicyConfig;
    allow_forward_authorization ← flag es "allow_forward_authorization";
    allow_forward_cookie ← flag es "allow_forward_cookie";
    Ok {| rt_id := id; rt_methods := methods; rt_local_prefix := local_prefix;
          rt_upstream_prefix := upstream_prefix; rt_require_purpose := require_purpose;
          rt_purpose_source := purpose_source; rt_client_identity := client_identity;
          rt_client_identities := client_identities;
          rt_upstream_auth_header_env := upstream_auth_header_env;
          rt_forward_client_identity_header := forward_client_identity_header;
          rt_purposes := purposes; rt_governed_policy := governed_policy;
          rt_allow_forward_authorization := allow_forward_authorization;
          rt_allow_forward_cookie := allow_forward_cookie; rt_policy_hash := loc |}).

(** The policy hash of a route is skipped by the decoder and starts as a fresh default
    cell; the cells of a document are numbered in the order of its routes. *)
Fixpoint de_routes_from (loc : CacheLoc) (nodes : list Node) : result DeError (list RouteConfig) :=
  match nodes with
  | [] => Ok []
  | node :: nodes =>
      route ← de_RouteConfig loc node;
      routes ← de_routes_from (S loc) nodes;
      Ok (route :: routes)
  end.

Definition de_routes (node : Node) : result DeError (list RouteConfig) :=
  nodes ← de_seq node; de_routes_from 0 nodes.
End routes.

(** ** The document *)
Section document.
Context {YL : YamlLib} {HL : HttpLib} {UL : UrlLib}.

Definition de_Url (node : Node) : result DeError Url :=
  text ← de_string node;
  ok_or (InvalidValue text) (url_parse text).

Definition de_ClientServerConfig : Node → result DeError ClientServerConfig :=
  de_struct ["url"; "trust_bundle"] (λ es,
    url ← required es "url" de_Url;
    trust_bundle ← required es "trust_bundle" de_string;
    Ok {| sv_url := url; sv_trust_bundle := trust_bundle |}).

Definition de_UpstreamConfig : Node → result DeError UpstreamConfig :=
  de_struct ["base_url"; "default_auth_header_env"; "auth_header_name"; "auth_header_scheme"] (λ es,
    base_url ← required es "base_url" de_Url;
    default_auth_header_env ← optional es "default_auth_header_env" de_string;
    auth_header_name ← defaulted es "auth_header_name" de_string default_auth_header_name;
    auth_header_scheme ← defaulted es "auth_header_scheme" de_string default_auth_header_scheme;
    Ok {| up_base_url := base_url; up_default_auth_header_env := default_auth_header_env;
          up_auth_header_name := auth_header_name; up_auth_header_scheme := auth_header_scheme |}).

Definition config_fields : list string :=
  ["listen"; "server"; "client_identity"; "defaults"; "audit"; "limits"; "routes"; "server_identity";
   "client_trust"; "upstream"; "allow_non_loopback_client_listen"; "allow_dns_san_identity";
   "connector_id"].

Definition de_ConnectorConfig : Node → result DeError ConnectorConfig :=
  de_struct config_fields (λ es,
    listen ← required es "listen" de_ListenConfig;
    server ← optional es "server" de_ClientServerConfig;
    client_identity ← optional es "client_identity" de_IdentityFiles;
    defaults ← defaulted es "defaults" de_DefaultsConfig DefaultsConfig_default;
    audit ← defaulted es "audit" de_AuditConfig AuditConfig_default;
    limits ← defaulted es "limits" de_LimitsConfig LimitsConfig_default;
    routes ← defaulted es "routes" de_routes [];
    server_identity ← optional es "server_identity" de_IdentityFiles;
    client_trust ← optional es "client_trust" de_ClientTrustConfig;
    upstream ← optional es "upstream" de_UpstreamConfig;
    allow_non_loopback_client_listen ← flag es "allow_non_loopback_client_listen";
    allow_dns_san_identity ← flag es "allow_dns_san_identity";
    connector_id ← optional es "connector_id" de_string;
    Ok {| cf_listen := listen; cf_server := server; cf_client_identity := client_identity;
          cf_defaults := defaults; cf_audit := audit; cf_limits := limits; cf_routes := routes;
          cf_server_identity := server_identity; cf_client_trust := client_trust;
          cf_upstream := upstream;
          cf_allow_non_loopback_client_listen := allow_non_loopback_client_listen;
          cf_allow_dns_san_identity := allow_dns_san_identity; cf_connector_id := connector_id |}).

(** [serde_saphyr::from_str]. *)
Definition yaml_config (text : string) : result string ConnectorConfig :=
  node ← yaml_parse text;
  map_err de_error_text (de_ConnectorConfig node).
End document.

(** ** Inversion *)
Section inversion.
Context {YL : YamlLib}.

Lemma de_struct_Ok {A} fields (body : list (string * Node) → result DeError A) node a :
  de_struct fields body node = Ok a →
  ∃ es, de_map node = Ok es ∧ check_keys fields [] es = Ok tt ∧ body es = Ok a.
Proof. intros (es & Hm & ([] & Hc & Hb)%bind_Ok_inv)%bind_Ok_inv. eauto. Qed.

Lemma check_keys_Ok fields seen es :
  check_keys fields seen es = Ok tt →
  NoDup es.*1 ∧ (∀ k, k ∈ es.*1 → k ∈ fields ∧ (k ∉ seen)).
Proof.
  revert seen. induction es as [|[k v] es IH]; intros seen; simpl.
  - intros _. split; [constructor|]. intros k []%not_elem_of_nil.
  - destruct (existsb (String.eqb k) fields) eqn:Hf; simpl; [|done].
    destruct (existsb (String.eqb k) seen) eqn:Hs; [done|]. intros [Hnd Hk]%IH.
    apply existsb_elem_of in Hf as (k' & Hf & ->%String.eqb_eq).
    assert (Hns : k' ∉ seen).
    { intros Hin. apply not_true_iff_false in Hs. apply Hs, existsb_elem_of. exists k'.
      split; [done|]. apply String.eqb_refl. }
    split.
    + constructor; [|done]. intros Hin. destruct (Hk _ Hin) as [_ Hno]. apply Hno. left.
    + intros k [->|Hin]%elem_of_cons; [done|]. destruct (Hk _ Hin). set_solver.
Qed.

Lemma entry_elem name (es : list (string * Node)) v : entry name es = Some v → (name, v) ∈ es.
Proof.
  induction es as [|[k u] es IH]; simpl; [done|]. destruct (String.eqb_spec name k) as [->|_].
  - intros [= ->]. left.
  - right. auto.
Qed.

Lemma elem_entry name (es : list (string * Node)) v :
  NoDup es.*1 → (name, v) ∈ es → entry name es = Some v.
Proof.
  induction es as [|[k u] es IH]; simpl; [by intros _ ?%not_elem_of_nil|].
  rewrite list.NoDup_cons. intros [Hni Hnd] [[= -> ->]|Hin]%elem_of_cons; [by rewrite String.eqb_refl|].
  destruct (String.eqb_spec name k) as [->|_]; [|auto].
  destruct Hni. by apply (list_elem_of_fmap_2 fst) in Hin.
Qed.

(** What decoding a field says of the value, missing or not. *)
Lemma defaulted_Ok {A} es name (de : Node → result DeError A) d x :
  defaulted es name de d = Ok x → x = d ∧ entry name es = None ∨ ∃ n, entry name es = Some n ∧ de n = Ok x.
Proof. unfold defaulted. destruct (entry name es); [eauto|]. intros [= <-]. auto. Qed.

Lemma defaulted_ind {A} (P : A → Prop) es name (de : Node → result DeError A) d x :
  defaulted es name de d = Ok x → P d → (∀ n y, de n = Ok y → P y) → P x.
Proof. intros [[-> _]|(n & _ & H)]%defaulted_Ok; eauto. Qed.

Lemma de_option_Some {A} (de : Node → result DeError A) n x :
  de_option de n = Ok (Some x) → de n = Ok x.
Proof. unfold de_option. destruct (de_is_null n); [done|]. destruct (de n); simpl; congruence. Qed.

Lemma optional_ind {A} (P : A → Prop) es name (de : Node → result DeError A) o x :
  optional es name de = Ok o → o = Some x → (∀ n y, de n = Ok y → P y) → P x.
Proof. intros [[-> _]|(n & _ & H)]%defaulted_Ok Ho HP; [done|]. subst. by eapply HP, de_option_Some. Qed.

Lemma de_all_Ok {A} (de : Node → result DeError A) ns xs :
  de_all de ns = Ok xs → Forall2 (λ n x, de n = Ok x) ns xs.
Proof.
  revert xs. induction ns as [|n ns IH]; intros xs; simpl; [by intros [= <-]|].
  intros (x & Hx & (ys & Hys & [= <-])%bind_Ok_inv)%bind_Ok_inv. constructor; auto.
Qed.

Lemma de_vec_Forall {A} (P : A → Prop) (de : Node → result DeError A) n xs :
  de_vec de n = Ok xs → (∀ n y, de n = Ok y → P y) → Forall P xs.
Proof.
  intros (ns & _ & H%de_all_Ok)%bind_Ok_inv HP. induction H; constructor; eauto.
Qed.
End inversion.

(** [H : body = Ok a] taken apart field by field. *)
Ltac fields H :=
  repeat (let x := fresh "x" in let Hx := fresh "Hf" in
          apply bind_Ok_inv in H as (x & Hx & H)); injection H as <-.

(** A field decoded or defaulted has what the default and the decoder ensure. *)
Ltac field_typed x H := pattern x; apply (defaulted_ind _ _ _ _ _ _ H).

(** ** Widths *)
Section widths.
Context {YL : YamlLib} {YS : YamlSpec} {HL : HttpLib}.

Definition u64_opt (o : option N) : Prop := ∀ x, o = Some x → (x < 2 ^ 64)%N.

Record limits_typed (l : LimitsConfig) : Prop := {
  lt_body : (lm_max_body_bytes l < 2 ^ 64)%N;
  lt_upstream : (lm_upstream_timeout_seconds l < 2 ^ 64)%N;
  lt_request : (lm_request_timeout_seconds l < 2 ^ 64)%N;
  lt_handshake : (lm_tls_handshake_timeout_seconds l < 2 ^ 64)%N;
  lt_header : (lm_http1_header_read_timeout_seconds l < 2 ^ 64)%N;
  lt_requests : (lm_max_concurrent_requests l < 2 ^ 64)%N;
  lt_connections : (lm_max_concurrent_connections l < 2 ^ 64)%N;
  lt_rate : (lm_max_requests_per_identity_per_minute l < 2 ^ 32)%N;
  lt_days : (- 2 ^ 63 ≤ lm_expiry_warning_days l < 2 ^ 63)%Z;
}.

Definition context_typed (c : GovernedTrustedContextConfig) : Prop :=
  u64_opt (tc_source_observed_age_seconds c).

Definition policy_typed (p : GovernedRoutePolicyConfig) : Prop :=
  u64_opt (gp_max_source_age_seconds p) ∧ context_typed (gp_trusted_context p).

Definition route_typed (r : RouteConfig) : Prop :=
  (∀ m, m ∈ rt_methods r → ∃ text, method_from_bytes text = Some m) ∧
  (∀ p, rt_governed_policy r = Some p → policy_typed p).

Lemma limits_default_typed : limits_typed LimitsConfig_default.
Proof. split; vm_compute; try split; first [reflexivity|discriminate]. Qed.

Lemma de_limits_typed n l : de_LimitsConfig n = Ok l → limits_typed l.
Proof.
  intros (es & _ & _ & H)%de_struct_Ok. fields H. pose proof limits_default_typed as [].
  split; simpl;
    match goal with Hf : defaulted _ _ _ _ = Ok ?x |- context [?x] => field_typed x Hf end;
    first [assumption | apply de_u64_bound | apply de_usize_bound | apply de_u32_bound
          | apply de_i64_bound].
Qed.

Lemma u64_opt_field es name o : optional es name de_u64 = Ok o → u64_opt o.
Proof. intros H x Hx. exact (optional_ind _ _ _ _ _ _ H Hx de_u64_bound). Qed.

Lemma de_context_typed n c : de_GovernedTrustedContextConfig n = Ok c → context_typed c.
Proof. intros (es & _ & _ & H)%de_struct_Ok. fields H. by eapply u64_opt_field. Qed.

Lemma context_default_typed : context_typed GovernedTrustedContextConfig_default.
Proof. by intros x. Qed.

Lemma de_policy_typed n p : de_GovernedRoutePolicyConfig n = Ok p → policy_typed p.
Proof.
  intros (es & _ & _ & H)%de_struct_Ok. fields H. split; simpl; [by eapply u64_opt_field|].
  eapply defaulted_ind; eauto using context_default_typed, de_context_typed.
Qed.

Lemma parse_methods_Ok values ms :
  parse_methods values = Ok ms → Forall2 (λ v m, method_from_bytes v = Some m) values ms.
Proof.
  revert ms. induction values as [|v values IH]; intros ms; simpl; [by intros [= <-]|].
  intros (m & Hm%ok_or_Ok & (ms' & Hms & [= <-])%bind_Ok_inv)%bind_Ok_inv. constructor; auto.
Qed.

Lemma de_methods_typed n ms m :
  deserialize_methods n = Ok ms → m ∈ ms → ∃ text, method_from_bytes text = Some m.
Proof.
  intros (values & _ & H%parse_methods_Ok)%bind_Ok_inv Hm.
  apply list_elem_of_lookup in Hm as [i Hi]. destruct (Forall2_lookup_r _ _ _ _ _ H Hi) as (v & _ & Hv).
  eauto.
Qed.

Lemma de_route_typed loc n r :
  de_RouteConfig loc n = Ok r → route_typed r ∧ rt_policy_hash r = loc.
Proof.
  intros (es & _ & _ & H)%de_struct_Ok. fields H. split; [|done]. split; simpl.
  - intros m. match goal with Hf : defaulted _ "methods" _ _ = Ok ?x |- _ => field_typed x Hf end.
    + intros []%not_elem_of_nil.
    + eauto using de_methods_typed.
  - intros p Hp. eapply optional_ind; eauto using de_policy_typed.
Qed.

(** Every route of a document has a cell of its own. *)
Lemma de_routes_from_typed loc ns rs :
  de_routes_from loc ns = Ok rs →
  Forall route_typed rs ∧ rt_policy_hash <$> rs = seq loc (length rs).
Proof.
  revert loc rs. induction ns as [|n ns IH]; intros loc rs; simpl; [by intros [= <-]|].
  intros (r & [Hr Hl]%de_route_typed & (rs' & [Hrs Hls]%IH & [= <-])%bind_Ok_inv)%bind_Ok_inv.
  split; [by constructor|]. simpl. by f_equal.
Qed.
End widths.

(** ** The types of a configuration *)
Section types.
Context {YL : YamlLib} {YS : YamlSpec} {HL : HttpLib} {UL : UrlLib}.

(** A [listen] that is no socket address is a path, never the other way around. *)
Definition listen_typed (l : ListenConfig) : Prop :=
  match l with Tcp addr => addr_typed addr | Unix path => socket_addr_from_str path = None end.

Definition entitlements_typed (trust : ClientTrustConfig) : Prop :=
  Forall (λ e, context_typed (te_trusted_context e)) (ct_trust_context_entitlements trust).

Record config_typed (c : ConnectorConfig) : Prop := {
  cy_listen : listen_typed (cf_listen c);
  cy_limits : limits_typed (cf_limits c);
  cy_routes : Forall route_typed (cf_routes c);
  cy_cells : rt_policy_hash <$> cf_routes c = seq 0 (length (cf_routes c));
  cy_trust trust : cf_client_trust c = Some trust → entitlements_typed trust;
}.

Lemma de_listen_typed n l : de_ListenConfig n = Ok l → listen_typed l.
Proof.
  unfold de_ListenConfig. destruct (de_any_string n) as [text|]; [|done].
  destruct (socket_addr_from_str text) as [addr|] eqn:E; intros [= <-]; [|done].
  exact (socket_addr_typed _ _ E).
Qed.

Lemma de_entitlement_typed n e :
  de_TrustContextEntitlementConfig n = Ok e → context_typed (te_trusted_context e).
Proof.
  intros (es & _ & _ & H)%de_struct_Ok. fields H. simpl.
  eapply defaulted_ind; eauto using context_default_typed, de_context_typed.
Qed.

Lemma de_trust_typed n t : de_ClientTrustConfig n = Ok t → entitlements_typed t.
Proof.
  intros (es & _ & _ & H)%de_struct_Ok. fields H. unfold entitlements_typed. simpl.
  match goal with Hf : defaulted _ "trust_context_entitlements" _ _ = Ok ?x |- _ => field_typed x Hf end.
  - constructor.
  - intros m es' Hes. eapply de_vec_Forall; eauto using de_entitlement_typed.
Qed.

Lemma de_config_typed n c : de_ConnectorConfig n = Ok c → config_typed c.
Proof.
  intros (es & _ & _ & H)%de_struct_Ok. fields H.
  match goal with Hf : required es "listen" _ = _ |- _ => rename Hf into Hl end.
  unfold required in Hl. destruct (entry "listen" es); [|done].
  match goal with Hf : defaulted es "routes" _ _ = Ok ?x |- _ =>
    assert (Hr : Forall route_typed x ∧ rt_policy_hash <$> x = seq 0 (length x));
    [field_typed x Hf; [done|]|] end.
  { intros m rs (ns & _ & Hrs)%bind_Ok_inv. by eapply de_routes_from_typed. }
  destruct Hr as [Hr Hc]. split; simpl; [by eapply de_listen_typed| |done|done|].
  - eapply defaulted_ind; eauto using limits_default_typed, de_limits_typed.
  - intros t Ht. eapply optional_ind; eauto using de_trust_typed.
Qed.

Lemma yaml_config_typed text c : yaml_config text = Ok c → config_typed c.
Proof. intros (node & _ & H%map_err_Ok)%bind_Ok_inv. by eapply de_config_typed. Qed.
End types.
