(* ===== verification/Document.v ===== *)
(** * Configuration documents ([src/src/config.rs], what the [Deserialize] impls accept)

    The decoders of [Decode] seen from the document: a schema of the fields every
    section may and must have, which every accepted document follows, and a document
    for every well-typed configuration, which is read back as that configuration. *)
From S2P Require Import Prelude RustStr BTree Errors External Reference Http Config SocketAddr Decode.
From Stdlib Require Import Ascii.

(** ** Schemas *)
#[warnings="-register-all"]
Inductive Schema : Type :=
| Leaf
| Opt (s : Schema)
| SeqOf (s : Schema)
| StructOf (fields : list (string * (bool * Schema))).

(** A field that must be there, and one that may be missing. *)
Definition must (name : string) (s : Schema) : string * (bool * Schema) := (name, (true, s)).
Definition may (name : string) (s : Schema) : string * (bool * Schema) := (name, (false, s)).

Definition strings_schema (name : string) := may name (SeqOf Leaf).
Definition option_schema (name : string) := may name (Opt Leaf).
Definition value_schema (name : string) := may name Leaf.

Definition identity_schema : Schema := StructOf [must "cert" Leaf; must "key" Leaf].
Definition defaults_schema : Schema := StructOf [option_schema "data_purpose"].
Definition audit_schema : Schema :=
  StructOf [option_schema "hash_secret_env"; value_schema "allow_unkeyed_hashing"].
Definition limits_schema : Schema := StructOf (value_schema <$> limits_fields).
Definition context_schema : Schema := StructOf (option_schema <$> trusted_context_fields).
Definition entitlement_schema : Schema :=
  StructOf [must "client_identity" Leaf; may "trusted_context" context_schema].
Definition anchor_schema : Schema :=
  StructOf [must "ca" Leaf; must "trust_domain" Leaf; strings_schema "dns_identities"].
Definition trust_schema : Schema :=
  StructOf [strings_schema "allowed_identities"; may "trust_anchors" (SeqOf anchor_schema);
            strings_schema "denied_certificate_fingerprints_sha256";
            may "trust_context_entitlements" (SeqOf entitlement_schema)].
Definition policy_schema : Schema :=
  StructOf [strings_schema "permitted_purposes"; strings_schema "permitted_jurisdictions";
            strings_schema "allowed_assurance"; option_schema "minimum_assurance";
            option_schema "max_source_age_seconds"; value_schema "require_legal_basis";
            value_schema "require_consent"; strings_schema "redaction_fields";
            strings_schema "unsupported_odrl_terms"; may "trusted_context" context_schema].
Definition route_schema : Schema :=
  StructOf [must "id" Leaf; strings_schema "methods"; option_schema "local_prefix";
            option_schema "upstream_prefix"; value_schema "require_purpose";
            option_schema "purpose_source"; option_schema "client_identity";
            strings_schema "client_identities"; option_schema "upstream_auth_header_env";
            value_schema "forward_client_identity_header"; strings_schema "purposes";
            may "governed_policy" (Opt policy_schema); value_schema "allow_forward_authorization";
            value_schema "allow_forward_cookie"].
Definition server_schema : Schema := StructOf [must "url" Leaf; must "trust_bundle" Leaf].
Definition upstream_schema : Schema :=
  StructOf [must "base_url" Leaf; option_schema "default_auth_header_env";
            value_schema "auth_header_name"; value_schema "auth_header_scheme"].
Definition config_schema : Schema :=
  StructOf [must "listen" Leaf; may "server" (Opt server_schema);
            may "client_identity" (Opt identity_schema); may "defaults" defaults_schema;
            may "audit" audit_schema; may "limits" limits_schema;
            may "routes" (SeqOf route_schema); may "server_identity" (Opt identity_schema);
            may "client_trust" (Opt trust_schema); may "upstream" (Opt upstream_schema);
            value_schema "allow_non_loopback_client_listen"; value_schema "allow_dns_san_identity";
            option_schema "connector_id"].

Create HintDb schema.

Section follows.
Context {YL : YamlLib}.

(** Maps have only fields of the schema, none twice, and every field that must be
    there; values follow their schema. *)
Fixpoint follows (s : Schema) (n : Node) {struct s} : bool :=
  match s with
  | Leaf => true
  | Opt s => de_is_null n || follows s n
  | SeqOf s => match de_seq n with Ok ns => forallb (follows s) ns | Err _ => false end
  | StructOf fs =>
      match de_map n with
      | Ok es =>
          bool_decide (NoDup es.*1)
          && forallb (λ e,
               (fix value (fs : list (string * (bool * Schema))) : bool :=
                  match fs with
                  | [] => false
                  | (k, (_, s)) :: fs => if String.eqb e.1 k then follows s e.2 else value fs
                  end) fs) es
          && forallb (λ f, negb f.2.1 || is_some (entry f.1 es)) fs
      | Err _ => false
      end
  end.

(** What the decoder of a field makes sure of. *)
Definition fits (es : list (string * Node)) (f : string * (bool * Schema)) : Prop :=
  match entry f.1 es with Some n => follows f.2.2 n = true | None => f.2.1 = false end.

Definition ensures {A} (de : Node → result DeError A) (s : Schema) : Prop :=
  ∀ n x, de n = Ok x → follows s n = true.

Lemma struct_ensures {A} fields (body : list (string * Node) → result DeError A) fs :
  fs.*1 = fields → (∀ es a, body es = Ok a → Forall (fits es) fs) →
  ensures (de_struct fields body) (StructOf fs).
Proof.
  intros <- Hfits n a (es & Hm & [Hnd Hk]%check_keys_Ok & Hb)%de_struct_Ok.
  apply Hfits in Hb. cbn [follows]. rewrite Hm, bool_decide_eq_true_2 by done. simpl.
  apply andb_true_iff. split; apply forallb_elem_of.
  - intros [k v] Hin. simpl. assert (He : entry k es = Some v) by by apply elem_entry.
    destruct (Hk k) as [Hf _]; [apply list_elem_of_fmap; by exists (k, v)|].
    clear Hk Hfits. induction fs as [|[k' [req s]] fs IH]; [by apply not_elem_of_nil in Hf|].
    inversion Hb as [|? ? Hf1 Hb']; subst. destruct (String.eqb_spec k k') as [->|Hne].
    + unfold fits in Hf1. simpl in Hf1. by rewrite He in Hf1.
    + simpl in Hf. apply elem_of_cons in Hf as [?|Hf]; [done|]. by apply IH.
  - intros f Hf. apply (Forall_elem _ _ f) in Hb; [|done]. unfold fits in Hb.
    destruct (entry f.1 es); [by rewrite orb_true_r|]. by rewrite Hb.
Qed.

Lemma leaf_ensures {A} (de : Node → result DeError A) : ensures de Leaf.
Proof. done. Qed.

Lemma option_ensures {A} (de : Node → result DeError A) s :
  ensures de s → ensures (de_option de) (Opt s).
Proof.
  intros Hde n x. unfold de_option. simpl. destruct (de_is_null n); [done|].
  destruct (de n) as [y|] eqn:E; [|done]. intros _. simpl. exact (Hde n y E).
Qed.

Lemma vec_ensures {A} (de : Node → result DeError A) s : ensures de s → ensures (de_vec de) (SeqOf s).
Proof.
  intros Hde n x (ns & Hns & H%de_all_Ok)%bind_Ok_inv. cbn [follows]. rewrite Hns.
  clear Hns. induction H as [|m y ns ys Hm _ IH]; simpl; [done|]. by rewrite (Hde _ _ Hm).
Qed.

Lemma required_fits {A} es name (de : Node → result DeError A) s x :
  required es name de = Ok x → ensures de s → fits es (must name s).
Proof. unfold required, fits. simpl. destruct (entry name es) as [n|]; [|done]. eauto. Qed.

Lemma defaulted_fits {A} es name (de : Node → result DeError A) d s x :
  defaulted es name de d = Ok x → ensures de s → fits es (may name s).
Proof. unfold defaulted, fits. simpl. destruct (entry name es) as [n|]; [|done]. eauto. Qed.

Lemma optional_fits {A} es name (de : Node → result DeError A) s x :
  optional es name de = Ok x → ensures de s → fits es (may name (Opt s)).
Proof. intros H Hde. exact (defaulted_fits _ _ _ _ _ _ H (option_ensures _ _ Hde)). Qed.

Lemma strings_fits es name x : strings es name = Ok x → fits es (strings_schema name).
Proof. intros H. exact (defaulted_fits _ _ _ _ _ _ H (vec_ensures _ _ (leaf_ensures _))). Qed.

Lemma flag_fits es name x : flag es name = Ok x → fits es (value_schema name).
Proof. intros H. exact (defaulted_fits _ _ _ _ _ _ H (leaf_ensures _)). Qed.
End follows.

#[export] Hint Resolve leaf_ensures vec_ensures option_ensures : schema.
#[export] Hint Resolve required_fits defaulted_fits optional_fits strings_fits flag_fits : schema.
#[export] Hint Extern 0 (fits _ (option_schema _)) => eapply optional_fits : schema.
#[export] Hint Extern 1 (fits _ (value_schema _)) => eapply defaulted_fits : schema.
#[export] Hint Extern 1 (fits _ (strings_schema _)) => eapply defaulted_fits : schema.

(** A struct's decoder against its schema, field by field. *)
Ltac struct_ensures :=
  apply struct_ensures; [reflexivity|];
  let es := fresh "es" in let a := fresh "a" in let H := fresh "H" in
  intros es a H; fields H;
  repeat (constructor; [solve [eauto with schema]|]); try constructor.

Section ensures.
Context {YL : YamlLib} {HL : HttpLib} {UL : UrlLib}.

Lemma identity_ensures : ensures de_IdentityFiles identity_schema.
Proof. struct_ensures. Qed.
Lemma defaults_ensures : ensures de_DefaultsConfig defaults_schema.
Proof. struct_ensures. Qed.
Lemma audit_ensures : ensures de_AuditConfig audit_schema.
Proof. struct_ensures. Qed.
Lemma limits_ensures : ensures de_LimitsConfig limits_schema.
Proof. struct_ensures. Qed.
Lemma context_ensures : ensures de_GovernedTrustedContextConfig context_schema.
Proof. struct_ensures. Qed.
#[local] Hint Resolve identity_ensures defaults_ensures audit_ensures limits_ensures
  context_ensures : schema.

Lemma entitlement_ensures : ensures de_TrustContextEntitlementConfig entitlement_schema.
Proof. struct_ensures. Qed.
Lemma anchor_ensures : ensures de_TrustAnchorConfig anchor_schema.
Proof. struct_ensures. Qed.
Lemma policy_ensures : ensures de_GovernedRoutePolicyConfig policy_schema.
Proof. struct_ensures. Qed.
#[local] Hint Resolve entitlement_ensures anchor_ensures policy_ensures : schema.
Lemma trust_ensures : ensures de_ClientTrustConfig trust_schema.
Proof. struct_ensures. Qed.

Lemma methods_ensures : ensures deserialize_methods (SeqOf Leaf).
Proof. intros n ms (values & Hv & _)%bind_Ok_inv. exact (vec_ensures _ _ (leaf_ensures _) _ _ Hv). Qed.
#[local] Hint Resolve trust_ensures methods_ensures : schema.

Lemma route_ensures loc : ensures (de_RouteConfig loc) route_schema.
Proof. struct_ensures. Qed.

Lemma routes_ensures : ensures de_routes (SeqOf route_schema).
Proof.
  intros n rs (ns & Hns & H)%bind_Ok_inv. cbn [follows]. rewrite Hns. clear Hns. revert H.
  generalize 0%nat as loc. revert rs.
  induction ns as [|m ns IH]; intros rs loc; [done|]. cbn [de_routes_from forallb].
  intros (r & Hr%route_ensures & (rs' & Hrs%IH & _)%bind_Ok_inv)%bind_Ok_inv. by rewrite Hr.
Qed.

Lemma server_ensures : ensures de_ClientServerConfig server_schema.
Proof. struct_ensures. Qed.
Lemma upstream_ensures : ensures de_UpstreamConfig upstream_schema.
Proof. struct_ensures. Qed.
#[local] Hint Resolve routes_ensures server_ensures upstream_ensures : schema.

Lemma config_ensures : ensures de_ConnectorConfig config_schema.
Proof. struct_ensures. Qed.
End ensures.

(** ** Documents

    The nodes of a document by what is written in it. *)
Class YamlNodes `{YamlLib} := {
  node_map : list (string * Node) → Node;
  node_seq : list Node → Node;
  node_string : string → Node;
  node_bool : bool → Node;
  node_int : Z → Node;
}.

Class YamlNodesSpec `{YamlNodes} : Prop := {
  de_node_map es : de_map (node_map es) = Ok es;
  de_node_seq ns : de_seq (node_seq ns) = Ok ns;
  de_node_string s : de_string (node_string s) = Ok s;
  de_any_node_string s : de_any_string (node_string s) = Some s;
  de_node_bool b : de_bool (node_bool b) = Ok b;
  de_node_u64 x : (x < 2 ^ 64)%N → de_u64 (node_int (Z.of_N x)) = Ok x;
  de_node_usize x : (x < 2 ^ 64)%N → de_usize (node_int (Z.of_N x)) = Ok x;
  de_node_u32 x : (x < 2 ^ 32)%N → de_u32 (node_int (Z.of_N x)) = Ok x;
  de_node_i64 x : (- 2 ^ 63 ≤ x < 2 ^ 63)%Z → de_i64 (node_int x) = Ok x;
  node_map_not_null es : de_is_null (node_map es) = false;
  node_string_not_null s : de_is_null (node_string s) = false;
  node_int_not_null x : de_is_null (node_int x) = false;
}.

Create HintDb reads.

Section fields.
Context {YL : YamlLib} {YN : YamlNodes} {YNS : YamlNodesSpec}.

(** A section by its fields, of which those with a value are written. *)
Definition written (fs : list (string * option Node)) : list (string * Node) :=
  omap (λ f, pair f.1 <$> f.2) fs.

Fixpoint field (name : string) (fs : list (string * option Node)) : option Node :=
  match fs with
  | [] => None
  | (k, o) :: fs => if String.eqb name k then o else field name fs
  end.

Definition opt_field {A} (enc : A → Node) (o : option A) : option Node := enc <$> o.
Definition seq_field {A} (enc : A → Node) (l : list A) : option Node :=
  match l with [] => None | _ :: _ => Some (node_seq (enc <$> l)) end.
Definition flag_field (b : bool) : option Node := if b then Some (node_bool true) else None.

Lemma written_keys fs k : k ∈ (written fs).*1 → k ∈ fs.*1.
Proof.
  intros ([k' n] & -> & (f & Hf & E)%list_elem_of_omap)%list_elem_of_fmap.
  apply fmap_Some in E as (n' & _ & [= -> ->]). apply list_elem_of_fmap. by exists f.
Qed.

Lemma written_cons k o fs :
  written ((k, o) :: fs) = match o with Some n => (k, n) :: written fs | None => written fs end.
Proof. by destruct o. Qed.

Lemma entry_None name (es : list (string * Node)) : name ∉ es.*1 → entry name es = None.
Proof.
  intros Hn. destruct (entry name es) as [v|] eqn:E; [|done]. apply entry_elem in E.
  destruct Hn. apply list_elem_of_fmap. by exists (name, v).
Qed.

Lemma entry_written fs name : NoDup fs.*1 → entry name (written fs) = field name fs.
Proof.
  induction fs as [|[k o] fs IH]; [done|]. cbn [fmap list_fmap fst].
  intros [Hni Hnd]%list.NoDup_cons. rewrite written_cons. simpl. specialize (IH Hnd).
  destruct (String.eqb_spec name k) as [->|Hne].
  - destruct o; simpl; [by rewrite String.eqb_refl|]. apply entry_None. contradict Hni. by apply written_keys.
  - destruct o; simpl; [|done]. by destruct (String.eqb_spec name k).
Qed.

Lemma check_written fields seen fs :
  NoDup fs.*1 → (∀ k, k ∈ fs.*1 → k ∈ fields ∧ (k ∉ seen)) →
  check_keys fields seen (written fs) = Ok tt.
Proof.
  revert seen. induction fs as [|[k o] fs IH]; intros seen; [done|]. cbn [fmap list_fmap fst].
  intros [Hni Hnd]%list.NoDup_cons Hk. rewrite written_cons.
  destruct o as [n|]; [|apply IH; [done|]; intros k' Hk'; apply Hk; by right].
  simpl. destruct (Hk k) as [Hf Hs]; [left|].
  assert (existsb (String.eqb k) fields = true) as ->.
  { apply existsb_elem_of. exists k. split; [done|]. apply String.eqb_refl. }
  destruct (existsb (String.eqb k) seen) eqn:E.
  - apply existsb_elem_of in E as (k' & Hin & <-%String.eqb_eq). done.
  - simpl. apply IH; [done|]. intros k' Hk'. destruct (Hk k') as [Hf' Hs']; [by right|].
    split; [done|]. intros [->|?]%elem_of_cons; done.
Qed.

Lemma read_struct {A} fields (body : list (string * Node) → result DeError A) fs :
  fs.*1 = fields → bool_decide (NoDup fields) = true →
  de_struct fields body (node_map (written fs)) = body (written fs).
Proof.
  intros <- Hnd%bool_decide_eq_true. unfold de_struct. rewrite de_node_map. simpl.
  rewrite check_written; [done|done|]. intros k Hk. split; [done|apply not_elem_of_nil].
Qed.

Lemma de_all_nodes {A} (de : Node → result DeError A) enc l :
  (∀ a, a ∈ l → de (enc a) = Ok a) → de_all de (enc <$> l) = Ok l.
Proof.
  induction l as [|x l IH]; intros Hde; [done|]. rewrite fmap_cons. cbn [de_all].
  rewrite Hde by left. cbn. rewrite IH; [done|]. intros a Ha. apply Hde. by right.
Qed.

(** Fields read back. *)
Section read.
Context (fs : list (string * option Node)) (Hfs : bool_decide (NoDup fs.*1) = true).

Lemma required_written {A} name (de : Node → result DeError A) n x :
  field name fs = Some n → de n = Ok x → required (written fs) name de = Ok x.
Proof. apply bool_decide_eq_true in Hfs. intros E. unfold required. by rewrite entry_written, E. Qed.

Lemma defaulted_written {A} name (de : Node → result DeError A) d n x :
  field name fs = Some n → de n = Ok x → defaulted (written fs) name de d = Ok x.
Proof. apply bool_decide_eq_true in Hfs. intros E. unfold defaulted. by rewrite entry_written, E. Qed.

Lemma optional_written {A} name (de : Node → result DeError A) enc o :
  field name fs = opt_field enc o → (∀ a, o = Some a → de (enc a) = Ok a) →
  (∀ a, de_is_null (enc a) = false) → optional (written fs) name de = Ok o.
Proof.
  apply bool_decide_eq_true in Hfs. intros E Hde Hnull. unfold optional, defaulted.
  rewrite entry_written, E by done. destruct o as [a|]; [|done]. simpl. unfold de_option.
  by rewrite Hnull, (Hde a).
Qed.

Lemma vec_written {A} name (de : Node → result DeError A) enc l :
  field name fs = seq_field enc l → (∀ a, a ∈ l → de (enc a) = Ok a) →
  defaulted (written fs) name (de_vec de) [] = Ok l.
Proof.
  apply bool_decide_eq_true in Hfs. intros E Hde. unfold defaulted. rewrite entry_written, E by done.
  destruct l as [|x l]; [done|]. unfold seq_field, de_vec. rewrite de_node_seq.
  by apply de_all_nodes.
Qed.

Lemma strings_written name l :
  field name fs = seq_field node_string l → strings (written fs) name = Ok l.
Proof. intros E. eapply vec_written; [exact E|]. intros s _. apply de_node_string. Qed.

Lemma flag_written name b : field name fs = flag_field b → flag (written fs) name = Ok b.
Proof.
  apply bool_decide_eq_true in Hfs. intros E. unfold flag, defaulted. rewrite entry_written, E by done.
  destruct b; [apply de_node_bool|done].
Qed.
End read.

Lemma bind_Ok_intro {E A B} (r : result E A) (f : A → result E B) a b :
  r = Ok a → f a = Ok b → r ≫= f = Ok b.
Proof. by intros ->. Qed.
End fields.

#[export] Hint Resolve de_node_string de_node_bool de_node_u64 de_node_usize de_node_u32 de_node_i64 : reads.
#[export] Hint Resolve node_map_not_null node_string_not_null node_int_not_null : reads.

(** Reads the sections of [node_map (written fs)] field by field; what a field
    needs beyond the hints is left. *)
Ltac read_field :=
  eapply bind_Ok_intro;
  [first
     [ eapply strings_written; [reflexivity|reflexivity]
     | eapply flag_written; [reflexivity|reflexivity]
     | eapply optional_written; [reflexivity|reflexivity| |]
     | eapply vec_written; [reflexivity|reflexivity|]
     | eapply defaulted_written; [reflexivity|reflexivity|]
     | eapply required_written; [reflexivity|reflexivity|] ];
   try solve [eauto with reads]
  |].
Ltac read_struct := rewrite read_struct; [|reflexivity|reflexivity]; repeat read_field.

Section documents.
Context {YL : YamlLib} {YN : YamlNodes} {HL : HttpLib} {UL : UrlLib}.
Context (url_text : Url → string).

Definition node_n (x : N) : Node := node_int (Z.of_N x).
Definition section_node (fs : list (string * option Node)) : Node := node_map (written fs).
Definition text (s : string) : option Node := Some (node_string s).

Definition doc_PurposeSource (p : PurposeSource) : Node :=
  node_string match p with
              | ClientProvided => "client_provided"
              | StaticRouteDefault => "static_route_default"
              | DeniedMissing => "denied_missing"
              end.

Definition doc_IdentityFiles (i : IdentityFiles) : Node :=
  section_node [("cert", text (id_cert i)); ("key", text (id_key i))].

Definition doc_DefaultsConfig (d : DefaultsConfig) : Node :=
  section_node [("data_purpose", opt_field node_string (df_data_purpose d))].

Definition doc_AuditConfig (a : AuditConfig) : Node :=
  section_node [("hash_secret_env", opt_field node_string (au_hash_secret_env a));
                ("allow_unkeyed_hashing", flag_field (au_allow_unkeyed_hashing a))].

Definition doc_LimitsConfig (l : LimitsConfig) : Node :=
  section_node [("max_body_bytes", Some (node_n (lm_max_body_bytes l)));
                ("upstream_timeout_seconds", Some (node_n (lm_upstream_timeout_seconds l)));
                ("request_timeout_seconds", Some (node_n (lm_request_timeout_seconds l)));
                ("tls_handshake_timeout_seconds", Some (node_n (lm_tls_handshake_timeout_seconds l)));
                ("http1_header_read_timeout_seconds",
                  Some (node_n (lm_http1_header_read_timeout_seconds l)));
                ("max_concurrent_requests", Some (node_n (lm_max_concurrent_requests l)));
                ("max_concurrent_connections", Some (node_n (lm_max_concurrent_connections l)));
                ("max_requests_per_identity_per_minute",
                  Some (node_n (lm_max_requests_per_identity_per_minute l)));
                ("expiry_warning_days", Some (node_int (lm_expiry_warning_days l)))].

Definition doc_GovernedTrustedContextConfig (c : GovernedTrustedContextConfig) : Node :=
  section_node [("jurisdiction", opt_field node_string (tc_jurisdiction c));
                ("asserted_assurance", opt_field node_string (tc_asserted_assurance c));
                ("legal_basis_ref", opt_field node_string (tc_legal_basis_ref c));
                ("consent_ref", opt_field node_string (tc_consent_ref c));
                ("source_observed_age_seconds", opt_field node_n (tc_source_observed_age_seconds c))].

Definition doc_TrustContextEntitlementConfig (e : TrustContextEntitlementConfig) : Node :=
  section_node [("client_identity", text (te_client_identity e));
                ("trusted_context", Some (doc_GovernedTrustedContextConfig (te_trusted_context e)))].

Definition doc_TrustAnchorConfig (a : TrustAnchorConfig) : Node :=
  section_node [("ca", text (ta_ca a)); ("trust_domain", text (ta_trust_domain a));
                ("dns_identities", seq_field node_string (ta_dns_identities a))].

Definition doc_ClientTrustConfig (t : ClientTrustConfig) : Node :=
  section_node [("allowed_identities", seq_field node_string (ct_allowed_identities t));
                ("trust_anchors", seq_field doc_TrustAnchorConfig (ct_trust_anchors t));
                ("denied_certificate_fingerprints_sha256",
                  seq_field node_string (ct_denied_certificate_fingerprints_sha256 t));
                ("trust_context_entitlements",
                  seq_field doc_TrustContextEntitlementConfig (ct_trust_context_entitlements t))].

Definition doc_GovernedRoutePolicyConfig (p : GovernedRoutePolicyConfig) : Node :=
  section_node [("permitted_purposes", seq_field node_string (gp_permitted_purposes p));
                ("permitted_jurisdictions", seq_field node_string (gp_permitted_jurisdictions p));
                ("allowed_assurance", seq_field node_string (gp_allowed_assurance p));
                ("minimum_assurance", opt_field node_string (gp_minimum_assurance p));
                ("max_source_age_seconds", opt_field node_n (gp_max_source_age_seconds p));
                ("require_legal_basis", flag_field (gp_require_legal_basis p));
                ("require_consent", flag_field (gp_require_consent p));
                ("redaction_fields", seq_field node_string (gp_redaction_fields p));
                ("unsupported_odrl_terms", seq_field node_string (gp_unsupported_odrl_terms p));
                ("trusted_context", Some (doc_GovernedTrustedContextConfig (gp_trusted_context p)))].

Definition doc_RouteConfig (r : RouteConfig) : Node :=
  section_node [("id", text (rt_id r)); ("methods", seq_field node_string (rt_methods r));
                ("local_prefix", opt_field node_string (rt_local_prefix r));
                ("upstream_prefix", opt_field node_string (rt_upstream_prefix r));
                ("require_purpose", flag_field (rt_require_purpose r));
                ("purpose_source", opt_field doc_PurposeSource (rt_purpose_source r));
                ("client_identity", opt_field node_string (rt_client_identity r));
                ("client_identities", seq_field node_string (rt_client_identities r));
                ("upstream_auth_header_env", opt_field node_string (rt_upstream_auth_header_env r));
                ("forward_client_identity_header", flag_field (rt_forward_client_identity_header r));
                ("purposes", seq_field node_string (rt_purposes r));
                ("governed_policy", opt_field doc_GovernedRoutePolicyConfig (rt_governed_policy r));
                ("allow_forward_authorization", flag_field (rt_allow_forward_authorization r));
                ("allow_forward_cookie", flag_field (rt_allow_forward_cookie r))].

Definition doc_ClientServerConfig (s : ClientServerConfig) : Node :=
  section_node [("url", text (url_text (sv_url s))); ("trust_bundle", text (sv_trust_bundle s))].

Definition doc_UpstreamConfig (u : UpstreamConfig) : Node :=
  section_node [("base_url", text (url_text (up_base_url u)));
                ("default_auth_header_env", opt_field node_string (up_default_auth_header_env u));
                ("auth_header_name", text (up_auth_header_name u));
                ("auth_header_scheme", text (up_auth_header_scheme u))].

(** [listen] is the text of the address to listen on. *)
Definition doc_ConnectorConfig (listen : string) (c : ConnectorConfig) : Node :=
  section_node [("listen", text listen);
                ("server", opt_field doc_ClientServerConfig (cf_server c));
                ("client_identity", opt_field doc_IdentityFiles (cf_client_identity c));
                ("defaults", Some (doc_DefaultsConfig (cf_defaults c)));
                ("audit", Some (doc_AuditConfig (cf_audit c)));
                ("limits", Some (doc_LimitsConfig (cf_limits c)));
                ("routes", seq_field doc_RouteConfig (cf_routes c));
                ("server_identity", opt_field doc_IdentityFiles (cf_server_identity c));
                ("client_trust", opt_field doc_ClientTrustConfig (cf_client_trust c));
                ("upstream", opt_field doc_UpstreamConfig (cf_upstream c));
                ("allow_non_loopback_client_listen", flag_field (cf_allow_non_loopback_client_listen c));
                ("allow_dns_san_identity", flag_field (cf_allow_dns_san_identity c));
                ("connector_id", opt_field node_string (cf_connector_id c))].

(** ** Sections read back *)
Context {YNS : YamlNodesSpec}.

Lemma section_not_null fs : de_is_null (section_node fs) = false.
Proof. apply node_map_not_null. Qed.
Lemma node_n_not_null x : de_is_null (node_n x) = false.
Proof. apply node_int_not_null. Qed.
#[local] Hint Resolve section_not_null node_n_not_null : reads.

Lemma read_PurposeSource p : de_PurposeSource (doc_PurposeSource p) = Ok p.
Proof. unfold de_PurposeSource, doc_PurposeSource. rewrite de_node_string. by destruct p. Qed.
Lemma PurposeSource_not_null p : de_is_null (doc_PurposeSource p) = false.
Proof. apply node_string_not_null. Qed.

Lemma read_IdentityFiles i : de_IdentityFiles (doc_IdentityFiles i) = Ok i.
Proof. unfold de_IdentityFiles, doc_IdentityFiles, section_node. read_struct. by destruct i. Qed.

Lemma read_DefaultsConfig d : de_DefaultsConfig (doc_DefaultsConfig d) = Ok d.
Proof. unfold de_DefaultsConfig, doc_DefaultsConfig, section_node. read_struct. by destruct d. Qed.

Lemma read_AuditConfig a : de_AuditConfig (doc_AuditConfig a) = Ok a.
Proof. unfold de_AuditConfig, doc_AuditConfig, section_node. read_struct. by destruct a. Qed.

Lemma read_LimitsConfig l : limits_typed l → de_LimitsConfig (doc_LimitsConfig l) = Ok l.
Proof.
  intros []. unfold de_LimitsConfig, doc_LimitsConfig, section_node, node_n. read_struct. by destruct l.
Qed.

Lemma read_u64_opt o a : u64_opt o → o = Some a → de_u64 (node_n a) = Ok a.
Proof. intros H ->. apply de_node_u64. by apply H. Qed.
#[local] Hint Resolve read_u64_opt : reads.

Lemma read_GovernedTrustedContextConfig c :
  context_typed c → de_GovernedTrustedContextConfig (doc_GovernedTrustedContextConfig c) = Ok c.
Proof.
  intros H. unfold context_typed in H. unfold de_GovernedTrustedContextConfig, doc_GovernedTrustedContextConfig, section_node.
  read_struct. by destruct c.
Qed.
#[local] Hint Resolve read_PurposeSource PurposeSource_not_null read_IdentityFiles read_DefaultsConfig
  read_AuditConfig read_LimitsConfig read_GovernedTrustedContextConfig : reads.

Lemma read_TrustContextEntitlementConfig e :
  context_typed (te_trusted_context e) →
  de_TrustContextEntitlementConfig (doc_TrustContextEntitlementConfig e) = Ok e.
Proof.
  intros H. unfold de_TrustContextEntitlementConfig, doc_TrustContextEntitlementConfig, section_node.
  read_struct. by destruct e.
Qed.

Lemma read_TrustAnchorConfig a : de_TrustAnchorConfig (doc_TrustAnchorConfig a) = Ok a.
Proof. unfold de_TrustAnchorConfig, doc_TrustAnchorConfig, section_node. read_struct. by destruct a. Qed.

Lemma read_ClientTrustConfig t :
  entitlements_typed t → de_ClientTrustConfig (doc_ClientTrustConfig t) = Ok t.
Proof.
  intros H. unfold de_ClientTrustConfig, doc_ClientTrustConfig, section_node. read_struct.
  - intros a _. apply read_TrustAnchorConfig.
  - intros e He. apply read_TrustContextEntitlementConfig. exact (Forall_elem _ _ _ H He).
  - by destruct t.
Qed.

Lemma read_GovernedRoutePolicyConfig p :
  policy_typed p → de_GovernedRoutePolicyConfig (doc_GovernedRoutePolicyConfig p) = Ok p.
Proof.
  intros [Ha Hc]. unfold de_GovernedRoutePolicyConfig, doc_GovernedRoutePolicyConfig, section_node.
  read_struct. by destruct p.
Qed.

Context {HS : HttpSpec}.

Lemma parse_methods_tokens ms :
  (∀ m, m ∈ ms → ∃ text, method_from_bytes text = Some m) → parse_methods ms = Ok ms.
Proof.
  induction ms as [|m ms IH]; intros H; [done|]. cbn [parse_methods]. destruct (H m) as [t Ht]; [left|].
  pose proof (method_from_bytes_token _ _ Ht) as ->. unfold parse_method. rewrite Ht. cbn.
  rewrite IH; [done|]. intros m' Hm'. apply H. by right.
Qed.

Lemma methods_written fs ms :
  bool_decide (NoDup fs.*1) = true → field "methods" fs = seq_field node_string ms →
  (∀ m, m ∈ ms → ∃ text, method_from_bytes text = Some m) →
  defaulted (written fs) "methods" deserialize_methods [] = Ok ms.
Proof.
  intros Hnd%bool_decide_eq_true E Hms. unfold defaulted. rewrite entry_written, E by done.
  destruct ms as [|m ms]; [done|]. unfold seq_field, deserialize_methods, de_vec.
  rewrite de_node_seq. cbn -[de_all fmap parse_methods].
  rewrite de_all_nodes by (intros; apply de_node_string). by apply parse_methods_tokens.
Qed.

Lemma read_RouteConfig r :
  route_typed r → de_RouteConfig (rt_policy_hash r) (doc_RouteConfig r) = Ok r.
Proof.
  intros [Hm Hp]. unfold de_RouteConfig, doc_RouteConfig, section_node.
  rewrite read_struct by reflexivity. read_field.
  eapply bind_Ok_intro; [eapply methods_written; [reflexivity|reflexivity|exact Hm]|].
  repeat read_field; [|by destruct r].
  intros p Hr. apply read_GovernedRoutePolicyConfig. by apply Hp.
Qed.

Lemma read_routes loc rs :
  Forall route_typed rs → rt_policy_hash <$> rs = seq loc (length rs) →
  de_routes_from loc (doc_RouteConfig <$> rs) = Ok rs.
Proof.
  revert loc. induction rs as [|r rs IH]; intros loc; [done|]. rewrite !fmap_cons.
  intros [Hr Hrs]%list.Forall_cons [= Hl Hls]. cbn [de_routes_from]. rewrite <- Hl, read_RouteConfig by done.
  cbn. rewrite Hl, IH; done.
Qed.

Lemma read_Url u : url_parse (url_text u) = Some u → de_Url (node_string (url_text u)) = Ok u.
Proof. intros H. unfold de_Url. rewrite de_node_string. cbn. by rewrite H. Qed.
#[local] Hint Resolve read_Url : reads.

Lemma read_ClientServerConfig s :
  url_parse (url_text (sv_url s)) = Some (sv_url s) →
  de_ClientServerConfig (doc_ClientServerConfig s) = Ok s.
Proof.
  intros H. unfold de_ClientServerConfig, doc_ClientServerConfig, section_node. read_struct. by destruct s.
Qed.

Lemma read_UpstreamConfig u :
  url_parse (url_text (up_base_url u)) = Some (up_base_url u) →
  de_UpstreamConfig (doc_UpstreamConfig u) = Ok u.
Proof.
  intros H. unfold de_UpstreamConfig, doc_UpstreamConfig, section_node. read_struct. by destruct u.
Qed.

(** The texts a document has for what the configuration stores in parsed form. *)
Definition listen_of (listen : string) : ListenConfig :=
  match socket_addr_from_str listen with Some addr => Tcp addr | None => Unix listen end.

Definition urls_printed (c : ConnectorConfig) : Prop :=
  (∀ s, cf_server c = Some s → url_parse (url_text (sv_url s)) = Some (sv_url s)) ∧
  (∀ u, cf_upstream c = Some u → url_parse (url_text (up_base_url u)) = Some (up_base_url u)).

Lemma routes_written fs rs :
  bool_decide (NoDup fs.*1) = true → field "routes" fs = seq_field doc_RouteConfig rs →
  Forall route_typed rs → rt_policy_hash <$> rs = seq 0 (length rs) →
  defaulted (written fs) "routes" de_routes [] = Ok rs.
Proof.
  intros Hnd%bool_decide_eq_true E Hrs Hc. unfold defaulted. rewrite entry_written, E by done.
  destruct rs as [|r rs]; [done|]. unfold seq_field, de_routes. rewrite de_node_seq.
  cbn -[de_routes_from fmap]. by apply read_routes.
Qed.

Lemma read_ConnectorConfig listen c :
  config_typed c → listen_of listen = cf_listen c → urls_printed c →
  de_ConnectorConfig (doc_ConnectorConfig listen c) = Ok c.
Proof.
  intros [_ Hlim Hrt Hc Ht] Hl [Hs Hu]. unfold de_ConnectorConfig, doc_ConnectorConfig, section_node.
  rewrite read_struct by reflexivity.
  eapply bind_Ok_intro; [eapply required_written; [reflexivity|reflexivity|]|].
  { unfold de_ListenConfig. rewrite de_any_node_string. instantiate (1 := cf_listen c). rewrite <- Hl.
    unfold listen_of. by destruct (socket_addr_from_str listen). }
  read_field; [by intros s ?; apply read_ClientServerConfig, Hs|]. do 4 read_field.
  eapply bind_Ok_intro; [eapply routes_written; [reflexivity|reflexivity|done|done]|].
  repeat read_field; [| |by destruct c].
  - intros t ?. by apply read_ClientTrustConfig, Ht.
  - intros u ?. by apply read_UpstreamConfig, Hu.
Qed.
End documents.

(** ** A reference instance: nodes are values, the parser of texts is given. *)
#[warnings="-register-all"]
Inductive Value : Type :=
| VNull
| VBool (b : bool)
| VInt (z : Z)
| VString (s : string)
| VSeq (l : list Value)
| VMap (l : list (string * Value)).

Definition value_int (low high : Z) (v : Value) : result DeError Z :=
  match v with
  | VInt z => if (low <=? z)%Z && (z <? high)%Z then Ok z else Err InvalidType
  | _ => Err InvalidType
  end.

Definition ref_yaml (parse : string → result string Value) : YamlLib := {|
  Node := Value;
  yaml_parse := parse;
  de_error_text e := match e with
                     | UnknownField k => "unknown field `" +:+ k +:+ "`"
                     | _ => "invalid configuration"
                     end;
  de_map v := match v with VMap l => Ok l | _ => Err InvalidType end;
  de_seq v := match v with VSeq l => Ok l | _ => Err InvalidType end;
  de_is_null v := match v with VNull => true | _ => false end;
  de_string v := match v with VString s => Ok s | _ => Err InvalidType end;
  de_any_string v := match v with VString s => Some s | _ => None end;
  de_bool v := match v with VBool b => Ok b | _ => Err InvalidType end;
  de_u64 v := Z.to_N <$> value_int 0 (2 ^ 64) v;
  de_usize v := Z.to_N <$> value_int 0 (2 ^ 64) v;
  de_u32 v := Z.to_N <$> value_int 0 (2 ^ 32) v;
  de_i64 v := value_int (- 2 ^ 63) (2 ^ 63) v |}.

Definition ref_nodes parse : @YamlNodes (ref_yaml parse) :=
  @Build_YamlNodes (ref_yaml parse) VMap VSeq VString VBool VInt.

Lemma value_int_Ok low high v z : value_int low high v = Ok z → (low ≤ z < high)%Z.
Proof.
  destruct v as [| |z'| | |]; simpl; try done.
  destruct (Z.leb_spec low z'), (Z.ltb_spec z' high); simpl; intros [= <-]; done.
Qed.

Lemma value_int_VInt low high z : (low ≤ z < high)%Z → value_int low high (VInt z) = Ok z.
Proof. intros []. simpl. by destruct (Z.leb_spec low z), (Z.ltb_spec z high); try lia. Qed.

Lemma ref_yaml_spec parse : @YamlSpec (ref_yaml parse).
Proof.
  split; simpl; intros n x.
  4: exact (value_int_Ok _ _ _ _).
  all: match goal with |- context [value_int ?low ?high ?v] =>
         destruct (value_int low high v) as [z|] eqn:E end; simpl; [|done]; intros [= <-];
       apply value_int_Ok in E; lia.
Qed.

Lemma ref_nodes_spec parse : @YamlNodesSpec (ref_yaml parse) (ref_nodes parse).
Proof.
  assert (Hn : ∀ high x, (x < high)%N →
    Z.to_N <$> value_int 0 (Z.of_N high) (VInt (Z.of_N x)) = Ok x).
  { intros high x Hx. rewrite value_int_VInt by lia. cbn. by rewrite N2Z.id. }
  split; try done; intros x Hx; [exact (Hn _ x Hx)..|]. by apply value_int_VInt.
Qed.

Module Claims.

(** C16: a document with an unknown field, a repeated field, a missing required field
    or a map or sequence of the wrong shape, in any section at any depth, is refused. *)
Theorem document_strict {YL : YamlLib} {HL : HttpLib} {UL : UrlLib} text node :
  yaml_parse text = Ok node → follows config_schema node = false →
  ∃ e, yaml_config text = Err (de_error_text e).
Proof.
  intros Hp Hf. unfold yaml_config. rewrite Hp. cbn.
  destruct (de_ConnectorConfig node) as [config|e] eqn:E; [|by exists e].
  apply config_ensures in E. congruence.
Qed.

(** C14: every well-typed configuration can be written: the document that lists its
    fields, leaving out absent options, empty lists and false switches, is read back
    as that very configuration. *)
Theorem document_roundtrip {YL : YamlLib} {YN : YamlNodes} {YNS : YamlNodesSpec} {HL : HttpLib}
    {HS : HttpSpec} {UL : UrlLib} (url_text : Url → string) listen config :
  config_typed config → listen_of listen = cf_listen config → urls_printed url_text config →
  de_ConnectorConfig (doc_ConnectorConfig url_text listen config) = Ok config.
Proof. exact (read_ConnectorConfig url_text listen config). Qed.

(** a document that only says where to listen gives the documented defaults:
    bodies of 1 MiB, timeouts of 30 and 10 seconds, 1024 requests and connections, 600
    requests per identity and minute, warnings 30 days ahead, no routes, and every
    permission off. *)
Theorem minimal_document {YL : YamlLib} {HL : HttpLib} {UL : UrlLib} node listen l :
  de_map node = Ok [("listen", listen)] → de_ListenConfig listen = Ok l →
  de_ConnectorConfig node = Ok {|
    cf_listen := l; cf_server := None; cf_client_identity := None;
    cf_defaults := {| df_data_purpose := None |};
    cf_audit := {| au_hash_secret_env := None; au_allow_unkeyed_hashing := false |};
    cf_limits := {|
      lm_max_body_bytes := 1048576; lm_upstream_timeout_seconds := 30;
      lm_request_timeout_seconds := 30; lm_tls_handshake_timeout_seconds := 10;
      lm_http1_header_read_timeout_seconds := 10; lm_max_concurrent_requests := 1024;
      lm_max_concurrent_connections := 1024; lm_max_requests_per_identity_per_minute := 600;
      lm_expiry_warning_days := 30 |};
    cf_routes := []; cf_server_identity := None; cf_client_trust := None; cf_upstream := None;
    cf_allow_non_loopback_client_listen := false; cf_allow_dns_san_identity := false;
    cf_connector_id := None |}.
Proof.
  intros Hm Hl. eapply bind_Ok_intro; [exact Hm|]. eapply bind_Ok_intro; [reflexivity|].
  eapply bind_Ok_intro; [exact Hl|]. reflexivity.
Qed.

(** A document with a misspelt field in the policy of a route. *)
Definition wit_broken : Value :=
  VMap [("listen", VString "127.0.0.1:8080");
        ("routes", VSeq [VMap [("id", VString "people");
                               ("governed_policy", VMap [("permited_purposes", VSeq [])])]])].

Definition wit_lib : YamlLib := ref_yaml (λ _, Ok wit_broken).

Lemma document_strict_witness :
  ∃ e, @yaml_config wit_lib Ref.ref_http ref_url "config" = Err (@de_error_text wit_lib e).
Proof.
  apply (@document_strict wit_lib Ref.ref_http ref_url "config" wit_broken); vm_compute; reflexivity.
Defined.

(** A server's configuration with every section. *)
Definition wit_context : GovernedTrustedContextConfig := {|
  tc_jurisdiction := Some "EU"; tc_asserted_assurance := None; tc_legal_basis_ref := Some "law-7";
  tc_consent_ref := None; tc_source_observed_age_seconds := Some 3600%N |}.
Definition wit_route : RouteConfig := {|
  rt_id := "people"; rt_methods := ["GET"; "POST"]; rt_local_prefix := Some "/local";
  rt_upstream_prefix := Some "/upstream"; rt_require_purpose := true;
  rt_purpose_source := Some ClientProvided; rt_client_identity := None;
  rt_client_identities := ["spiffe://client.example/w"];
  rt_upstream_auth_header_env := Some "UPSTREAM_TOKEN"; rt_forward_client_identity_header := true;
  rt_purposes := ["care"]; rt_governed_policy := Some {|
    gp_permitted_purposes := ["care"]; gp_permitted_jurisdictions := []; gp_allowed_assurance := ["high"];
    gp_minimum_assurance := Some "high"; gp_max_source_age_seconds := Some 86400%N;
    gp_require_legal_basis := true; gp_require_consent := false; gp_redaction_fields := ["name"];
    gp_unsupported_odrl_terms := []; gp_trusted_context := wit_context |};
  rt_allow_forward_authorization := false; rt_allow_forward_cookie := true; rt_policy_hash := 0 |}.
Definition wit_config : @ConnectorConfig ref_url := {|
  cf_listen := Tcp {| sa_ip := V4 0 0 0 0; sa_port := 9443 |};
  cf_server := None; cf_client_identity := None;
  cf_defaults := {| df_data_purpose := Some "care" |};
  cf_audit := {| au_hash_secret_env := Some "AUDIT_SECRET"; au_allow_unkeyed_hashing := false |};
  cf_limits := LimitsConfig_default; cf_routes := [wit_route];
  cf_server_identity := Some {| id_cert := "leaf"; id_key := "key" |};
  cf_client_trust := Some {|
    ct_allowed_identities := ["spiffe://client.example/w"];
    ct_trust_anchors := [{| ta_ca := "ca"; ta_trust_domain := "client.example"; ta_dns_identities := [] |}];
    ct_denied_certificate_fingerprints_sha256 := [];
    ct_trust_context_entitlements :=
      [{| te_client_identity := "spiffe://client.example/w"; te_trusted_context := wit_context |}] |};
  cf_upstream := Some {| up_base_url := (("http://127.0.0.1:9000", "/") : @Url ref_url); up_default_auth_header_env := None;
    up_auth_header_name := "Authorization"; up_auth_header_scheme := "Bearer" |};
  cf_allow_non_loopback_client_listen := false; cf_allow_dns_san_identity := false;
  cf_connector_id := Some "connector-1" |}.

Lemma wit_context_typed : context_typed wit_context.
Proof. intros x [= <-]. lia. Qed.

Lemma wit_config_typed : @config_typed Ref.ref_http ref_url wit_config.
Proof.
  split; simpl.
  - repeat split; lia.
  - apply limits_default_typed.
  - constructor; [|constructor]. split; simpl.
    + intros m [->|[->|[]%not_elem_of_nil]%elem_of_cons]%elem_of_cons; [by exists "GET"|by exists "POST"].
    + intros p [= <-]. split; [intros x [= <-]; lia|apply wit_context_typed].
  - done.
  - intros trust [= <-]. constructor; [apply wit_context_typed|constructor].
Qed.

Definition wit_url_text (u : @Url ref_url) : string := fst u.
Definition wit_yaml : YamlLib :=
  ref_yaml (λ _, Ok (@doc_ConnectorConfig (ref_yaml (λ _, Err "")) (ref_nodes _) ref_url wit_url_text
    "0.0.0.0:9443" wit_config)).

Lemma document_roundtrip_witness :
  @de_ConnectorConfig wit_yaml Ref.ref_http ref_url
    (@doc_ConnectorConfig wit_yaml (ref_nodes _) ref_url wit_url_text "0.0.0.0:9443" wit_config)
  = Ok wit_config.
Proof.
  apply (@document_roundtrip wit_yaml (ref_nodes _) (ref_nodes_spec _) Ref.ref_http Ref.ref_http_spec ref_url).
  - apply wit_config_typed.
  - vm_compute. reflexivity.
  - split; [intros s [=]|]. intros u [= <-]. reflexivity.
Defined.

Lemma minimal_document_witness :
  is_ok (@de_ConnectorConfig wit_yaml Ref.ref_http ref_url (VMap [("listen", VString "[::1]:8080")])) = true.
Proof.
  rewrite (@minimal_document wit_yaml Ref.ref_http ref_url _ (VString "[::1]:8080")
    (Tcp {| sa_ip := V6 [0; 0; 0; 0; 0; 0; 0; 1]%N; sa_port := 8080 |})); reflexivity.
Defined.
End Claims.
