(* ===== verification/Routing.v ===== *)
(** * Routing ([src/src/routing.rs])

    Canonical request paths, segment-aware prefix matching, prefix rewriting and
    the selection of the most specific route.  Definitions first, then the
    theory of canonical paths, of prefixes as segment lists, and of route
    selection. *)
From S2P Require Import Prelude RustStr External Reference Config.
From Stdlib Require Import Ascii.

Record RouteMatch : Type := {
  rm_route : RouteConfig;
  rm_upstream_path : string;
}.

(** The loop over [bytes] with its index; the state is the rest of the string
    from [index] on. *)
Fixpoint reject_invalid_percent_encoding (path : string) : result string unit :=
  match path with
  | EmptyString => Ok tt
  | String c rest =>
      if Ascii.eqb c "%" then
        match rest with
        | String h (String l rest') =>
            if negb (is_ascii_hexdigit h) || negb (is_ascii_hexdigit l)
            then Err "path contains invalid percent-encoding"
            else reject_invalid_percent_encoding rest'
        | _ => Err "path contains invalid percent-encoding"
        end
      else reject_invalid_percent_encoding rest
  end.

(** The same loop as the source writes it, by index, with a bound on the number
    of iterations; [None] means the bound was reached. *)
Fixpoint percent_index_loop (fuel : nat) (bytes : string) (index : nat)
    : option (result string unit) :=
  match fuel with
  | O => None
  | S fuel =>
      if (index <? String.length bytes)%nat then
        if bool_decide (String.get index bytes = Some "%"%char) then
          if (String.length bytes <=? index + 2)%nat
             || negb (is_some_and is_ascii_hexdigit (String.get (index + 1) bytes))
             || negb (is_some_and is_ascii_hexdigit (String.get (index + 2) bytes))
          then Some (Err "path contains invalid percent-encoding")
          else percent_index_loop fuel bytes (index + 3)
        else percent_index_loop fuel bytes (index + 1)
      else Some (Ok tt)
  end.

Definition reject_encoded_delimiters (raw decoded : string) : result string unit :=
  if str_contains "%" raw && str_contains "\" decoded
  then Err "path contains encoded delimiter"
  else
    let raw_slashes := count_byte "/" raw in
    let decoded_slashes := count_byte "/" decoded in
    if (raw_slashes <? decoded_slashes)%nat
    then Err "path contains encoded delimiter"
    else Ok tt.

Definition is_dot_segment (segment : string) : bool :=
  String.eqb segment "." || String.eqb segment "..".

Definition prefix_matches (path prefix : string) : bool :=
  if String.eqb path prefix then true
  else match strip_prefix prefix path with
       | None => false
       | Some rest => ends_with_char "/" prefix || starts_with_char "/" rest
       end.

Definition rewrite_prefix (path local_prefix upstream_prefix : string) : string :=
  let suffix := unwrap_or EmptyString (strip_prefix local_prefix path) in
  if str_is_empty suffix then upstream_prefix
  else if ends_with_char "/" upstream_prefix || starts_with_char "/" suffix
  then upstream_prefix +:+ suffix
  else upstream_prefix +:+ ("/" +:+ suffix).

Definition route_matches_client_identity (route : RouteConfig) (client_identity : string) : bool :=
  let client_identity := trim client_identity in
  bool_decide ((trim <$> rt_client_identity route) = Some client_identity)
  || existsb (λ allowed, String.eqb (trim allowed) client_identity) (rt_client_identities route).

(** [best.as_ref().map(|(best_len, _)| prefix_len > *best_len).unwrap_or(true)] *)
Definition improves (prefix_len : nat) (best : option (nat * RouteMatch)) : bool :=
  match best with
  | None => true
  | Some (best_len, _) => (best_len <? prefix_len)%nat
  end.

Section with_percent.
Context {PL : PercentLib}.

Definition canonical_request_path (path : string) : result string string :=
  if negb (starts_with_char "/" path) then Err "path must start with '/'" else
  _ ← reject_invalid_percent_encoding path;
  decoded ← ok_or "path contains invalid percent-encoding" (percent_decode_utf8 path);
  _ ← reject_encoded_delimiters path decoded;
  if existsb is_dot_segment (split_char "/" decoded)
  then Err "path contains dot segment"
  else Ok decoded.

Definition validate_request_path (path : string) : result string unit :=
  _ ← canonical_request_path path; Ok tt.

Definition validate_route_prefix (prefix : string) : result string unit :=
  if str_is_empty prefix then Err "prefix must not be empty" else
  if negb (starts_with_char "/" prefix) then Err "prefix must start with '/'" else
  validate_request_path prefix.

(** The [for route in routes] loop of [find_client_route]; [continue] is the
    recursive call with [best] unchanged, [?] ends the loop. *)
Fixpoint find_client_route_loop (method : Method) (path : string)
    (best : option (nat * RouteMatch)) (routes : list RouteConfig)
    : result string (option (nat * RouteMatch)) :=
  match routes with
  | [] => Ok best
  | route :: routes =>
      if negb (existsb (λ candidate, String.eqb candidate method) (rt_methods route))
      then find_client_route_loop method path best routes else
      match rt_local_prefix route with
      | None => find_client_route_loop method path best routes
      | Some local_prefix =>
          local_prefix ← canonical_request_path local_prefix;
          if negb (prefix_matches path local_prefix)
          then find_client_route_loop method path best routes else
          upstream_prefix ←
            canonical_request_path (unwrap_or local_prefix (rt_upstream_prefix route));
          let route_match := {|
            rm_route := route;
            rm_upstream_path := rewrite_prefix path local_prefix upstream_prefix |} in
          let prefix_len := String.length local_prefix in
          if improves prefix_len best
          then find_client_route_loop method path (Some (prefix_len, route_match)) routes
          else find_client_route_loop method path best routes
      end
  end.

Definition find_client_route (routes : list RouteConfig) (method : Method) (path : string)
    : result string RouteMatch :=
  path ← canonical_request_path path;
  best ← find_client_route_loop method path None routes;
  ok_or "no client route matched" (snd <$> best).

Fixpoint find_server_route_loop (method : Method) (path client_identity : string)
    (best : option (nat * RouteMatch)) (routes : list RouteConfig)
    : result string (option (nat * RouteMatch)) :=
  match routes with
  | [] => Ok best
  | route :: routes =>
      if negb (existsb (λ candidate, String.eqb candidate method) (rt_methods route))
      then find_server_route_loop method path client_identity best routes else
      if negb (route_matches_client_identity route client_identity)
      then find_server_route_loop method path client_identity best routes else
      match rt_upstream_prefix route with
      | None => find_server_route_loop method path client_identity best routes
      | Some prefix =>
          prefix ← canonical_request_path prefix;
          if prefix_matches path prefix then
            let route_match := {| rm_route := route; rm_upstream_path := path |} in
            let prefix_len := String.length prefix in
            if improves prefix_len best
            then find_server_route_loop method path client_identity
                   (Some (prefix_len, route_match)) routes
            else find_server_route_loop method path client_identity best routes
          else find_server_route_loop method path client_identity best routes
      end
  end.

Definition find_server_route (routes : list RouteConfig) (method : Method)
    (path client_identity : string) : result string RouteMatch :=
  path ← canonical_request_path path;
  best ← find_server_route_loop method path client_identity None routes;
  ok_or "no server route matched" (snd <$> best).
End with_percent.

(** ** Percent-decoded paths

    [valid_pct s]: every [%] of [s], wherever it stands, is followed by two hexadecimal
    digits. *)
Definition valid_pct (s : string) : Prop := ∀ pre rest,
  s = pre +:+ String "%" rest →
  ∃ h l rest', rest = String h (String l rest') ∧
    is_ascii_hexdigit h = true ∧ is_ascii_hexdigit l = true.

Lemma hexdigit_not_percent h : is_ascii_hexdigit h = true → h ≠ "%"%char.
Proof. by intros H ->. Qed.

Lemma valid_pct_nil : valid_pct EmptyString.
Proof. intros [|d pre] rest H; discriminate H. Qed.

Lemma valid_pct_tail c s : valid_pct (String c s) → valid_pct s.
Proof. intros H pre rest ->. by apply (H (String c pre)). Qed.

Lemma valid_pct_cons c s : c ≠ "%"%char → valid_pct s → valid_pct (String c s).
Proof. intros Hc H [|d pre] rest [= -> ->]; [done|]. by eapply H. Qed.

(** The loop, which skips the digits of an escape, checks every percent sign. *)
Lemma reject_invalid_percent_encoding_Ok s :
  reject_invalid_percent_encoding s = Ok tt ↔ valid_pct s.
Proof.
  cut (∀ n s, (String.length s < n)%nat → reject_invalid_percent_encoding s = Ok tt ↔ valid_pct s);
    [eauto|].
  induction n as [|n IH]; intros t Hn; [lia|]. destruct t as [|c t].
  { split; [|done]. intros _. apply valid_pct_nil. }
  simpl in Hn |- *. destruct (Ascii.eqb_spec c "%") as [->|Hc].
  - destruct t as [|h [|l t]].
    1,2: split; [discriminate|]; intros H;
      destruct (H EmptyString _ eq_refl) as (? & ? & ? & ? & _); discriminate.
    destruct (is_ascii_hexdigit h) eqn:Hh, (is_ascii_hexdigit l) eqn:Hl; cbn [negb orb].
    2,3,4: split; [discriminate|]; intros H;
      destruct (H EmptyString _ eq_refl) as (? & ? & ? & [= <- <- <-] & ? & ?); congruence.
    simpl in Hn. rewrite IH by lia. split; [|by intros ?%valid_pct_tail%valid_pct_tail%valid_pct_tail].
    intros H. assert (Hd : valid_pct (String h (String l t))) by auto using valid_pct_cons, hexdigit_not_percent.
    intros [|d pre] rest Heq; [injection Heq as <-; by eauto 10|]. injection Heq as _ Heq. by eapply Hd.
  - rewrite IH by lia. split; [by apply valid_pct_cons|by apply valid_pct_tail].
Qed.

Lemma valid_pct_ind (P : string → Prop) :
  P EmptyString →
  (∀ c s, Ascii.eqb c "%" = false → valid_pct s → P s → P (String c s)) →
  (∀ h l s, is_ascii_hexdigit h = true → is_ascii_hexdigit l = true → valid_pct s → P s →
     P (String "%" (String h (String l s)))) →
  ∀ s, valid_pct s → P s.
Proof.
  intros H0 H1 H2. cut (∀ n s, (String.length s < n)%nat → valid_pct s → P s); [eauto|].
  induction n as [|n IH]; intros s Hn Hv; [lia|].
  destruct s as [|c s]; [done|]. apply reject_invalid_percent_encoding_Ok in Hv. simpl in Hv, Hn.
  destruct (Ascii.eqb c "%") eqn:Ec.
  - apply Ascii.eqb_eq in Ec as ->. destruct s as [|h [|l s]]; try discriminate.
    destruct (is_ascii_hexdigit h) eqn:Hh; [|discriminate].
    destruct (is_ascii_hexdigit l) eqn:Hl; [|discriminate].
    simpl in Hv, Hn. apply reject_invalid_percent_encoding_Ok in Hv.
    apply H2; try done. apply IH; [lia|done].
  - apply reject_invalid_percent_encoding_Ok in Hv. apply H1; [done|done|]. apply IH; [lia|done].
Qed.

Lemma decode_cons c s : Ascii.eqb c "%" = false →
  whatwg_percent_decode (String c s) = String c (whatwg_percent_decode s).
Proof. simpl. by intros ->. Qed.

Lemma decode_escape h l s :
  is_ascii_hexdigit h = true → is_ascii_hexdigit l = true →
  whatwg_percent_decode (String "%" (String h (String l s))) =
    String (ascii_of_N (hex_val h * 16 + hex_val l)) (whatwg_percent_decode s).
Proof. intros Hh Hl. simpl. by rewrite Hh, Hl. Qed.

Lemma decode_id s : str_contains "%" s = false → whatwg_percent_decode s = s.
Proof.
  induction s as [|c s IH]; [done|]. intros [Hc Hs]%orb_false_iff.
  rewrite decode_cons; [by rewrite IH|]. by rewrite Ascii.eqb_sym.
Qed.

Lemma valid_pct_no_escape s : str_contains "%" s = false → valid_pct s.
Proof.
  induction s as [|c s IH]; [intros _; apply valid_pct_nil|]. intros [Hc Hs]%orb_false_iff.
  apply valid_pct_cons; [|by apply IH]. intros ->. discriminate.
Qed.

Lemma hexdigit_not_slash h : is_ascii_hexdigit h = true → Ascii.eqb "/" h = false.
Proof. intros H. destruct (Ascii.eqb_spec "/" h) as [<-|]; [|done]. discriminate. Qed.

Lemma decode_count s :
  valid_pct s → (count_byte "/" s ≤ count_byte "/" (whatwg_percent_decode s))%nat.
Proof.
  revert s. apply valid_pct_ind; [done|..].
  - intros c s Hc _ IH. rewrite decode_cons by done. simpl. lia.
  - intros h l s Hh Hl _ IH. rewrite decode_escape by done. simpl.
    rewrite (hexdigit_not_slash h Hh), (hexdigit_not_slash l Hl). change (Ascii.eqb "/" "%") with false. simpl. lia.
Qed.

(** If decoding adds no separator, it decodes each segment on its own. *)
Lemma decode_split s :
  valid_pct s →
  (count_byte "/" (whatwg_percent_decode s) ≤ count_byte "/" s)%nat →
  split_char "/" (whatwg_percent_decode s) = whatwg_percent_decode <$> split_char "/" s.
Proof.
  intros Hv. pattern s. revert s Hv. apply valid_pct_ind; [done|..].
  - intros c s Hc Hv IH. rewrite decode_cons by done. simpl count_byte. intros Hle.
    simpl split_char. destruct (Ascii.eqb "/" c) eqn:Ec.
    + rewrite IH by lia. by rewrite fmap_cons.
    + rewrite IH by lia. destruct (split_char "/" s) as [|w ws] eqn:E;
        [by apply split_char_ne in E|]. rewrite !fmap_cons, decode_cons by done. done.
  - intros h l s Hh Hl Hv IH. rewrite decode_escape by done.
    pose proof (decode_count s Hv) as Hc. simpl count_byte.
    rewrite (hexdigit_not_slash h Hh), (hexdigit_not_slash l Hl). change (Ascii.eqb "/" "%") with false.
    intros Hle. simpl split_char.
    destruct (Ascii.eqb "/" (ascii_of_N (hex_val h * 16 + hex_val l))) eqn:Eb;
      [simpl in Hle; lia|].
    rewrite IH by (simpl in Hle; lia). rewrite (hexdigit_not_slash h Hh), (hexdigit_not_slash l Hl).
    change (Ascii.eqb "/" "%") with false. cbn match.
    destruct (split_char "/" s) as [|w ws] eqn:E; [by apply split_char_ne in E|].
    rewrite !fmap_cons, decode_escape by done. done.
Qed.

(** ** Canonical paths *)
Definition no_dot_segments (s : string) : Prop :=
  ∀ seg, seg ∈ split_char "/" s → seg ≠ "." ∧ seg ≠ "..".

Lemma is_dot_segment_false seg : is_dot_segment seg = false ↔ seg ≠ "." ∧ seg ≠ "..".
Proof. unfold is_dot_segment. by rewrite orb_false_iff, !String.eqb_neq. Qed.

(** What an accepted raw path satisfies. *)
Record acceptable_path (p : string) : Prop := {
  ap_slash : starts_with_char "/" p = true;
  ap_valid : valid_pct p;
  ap_utf8 : utf8_valid (whatwg_percent_decode p) = true;
  ap_backslash : str_contains "%" p = true → str_contains "\" (whatwg_percent_decode p) = false;
  ap_slashes : count_byte "/" (whatwg_percent_decode p) = count_byte "/" p;
  ap_dots : no_dot_segments (whatwg_percent_decode p);
}.

Lemma no_dot_segments_existsb s :
  existsb is_dot_segment (split_char "/" s) = false ↔ no_dot_segments s.
Proof.
  unfold no_dot_segments. rewrite <- not_true_iff_false, existsb_elem_of.
  setoid_rewrite <- is_dot_segment_false. setoid_rewrite <- not_true_iff_false. naive_solver.
Qed.

Lemma reject_encoded_delimiters_Ok raw decoded u :
  reject_encoded_delimiters raw decoded = Ok u ↔
  (str_contains "%" raw = true → str_contains "\" decoded = false) ∧
  (count_byte "/" decoded ≤ count_byte "/" raw)%nat.
Proof.
  unfold reject_encoded_delimiters. destruct u.
  destruct (str_contains "%" raw), (str_contains "\" decoded); simpl;
    try (split; [discriminate|intros [H _]; by specialize (H eq_refl)]);
    destruct (Nat.ltb_spec (count_byte "/" raw) (count_byte "/" decoded)) as [Hlt|Hle];
    split; intros H; try discriminate; try done; destruct H; lia.
Qed.

Lemma decode_slash p : starts_with_char "/" p = true →
  starts_with_char "/" (whatwg_percent_decode p) = true.
Proof. intros [r ->]%starts_with_char_true. by rewrite decode_cons by done. Qed.

Section canonical.
Context {PL : PercentLib} {PS : PercentSpec}.

Lemma canonical_spec p c :
  canonical_request_path p = Ok c ↔ acceptable_path p ∧ c = whatwg_percent_decode p.
Proof.
  unfold canonical_request_path. rewrite percent_decode_utf8_spec. split.
  - destruct (starts_with_char "/" p) eqn:Hs; [|discriminate]. simpl.
    destruct (reject_invalid_percent_encoding p) as [[]|] eqn:Hv; simpl; [|discriminate].
    apply reject_invalid_percent_encoding_Ok in Hv.
    destruct (utf8_valid _) eqn:Hu; simpl; [|discriminate].
    destruct (reject_encoded_delimiters _ _) as [u|] eqn:Hd; simpl; [|discriminate].
    destruct (existsb _ _) eqn:He; [discriminate|]. intros [= <-].
    apply reject_encoded_delimiters_Ok in Hd as [Hb Hc]. split; [|done].
    split; try done; [|by apply no_dot_segments_existsb].
    apply Nat.le_antisymm; [done|by apply decode_count].
  - intros [[Hs Hv Hu Hb Hc Hd] ->]. apply reject_invalid_percent_encoding_Ok in Hv. rewrite Hs, Hu, Hv. simpl.
    assert (reject_encoded_delimiters p (whatwg_percent_decode p) = Ok tt) as ->.
    { apply reject_encoded_delimiters_Ok. split; [done|lia]. }
    simpl. apply no_dot_segments_existsb in Hd. by rewrite Hd.
Qed.

Lemma canonical_total p :
  canonical_request_path p = Ok (whatwg_percent_decode p) ∨
  ∃ e, canonical_request_path p = Err e.
Proof.
  destruct (canonical_request_path p) as [c|e] eqn:E; [|by eauto].
  apply canonical_spec in E as [_ ->]. by left.
Qed.

Lemma canonical_props p c :
  canonical_request_path p = Ok c →
  starts_with_char "/" c = true ∧ no_dot_segments c ∧ utf8_valid c = true.
Proof.
  intros H. apply canonical_spec in H as [[Hs Hv Hu Hb Hc Hd] ->]. split_and!; [by apply decode_slash|done|done].
Qed.

(** A path with no escape left is its own canonical form. *)
Lemma canonical_fixpoint c :
  starts_with_char "/" c = true → no_dot_segments c → utf8_valid c = true →
  str_contains "%" c = false → canonical_request_path c = Ok c.
Proof.
  intros Hs Hd Hu Hp. apply canonical_spec. rewrite decode_id by done. split; [|done].
  split; rewrite ?decode_id by done; try done; [by apply valid_pct_no_escape|congruence].
Qed.
End canonical.

(** ** Prefixes as segment lists *)
Lemma join_char_app c l1 l2 :
  l1 ≠ [] → l2 ≠ [] → join_char c (l1 ++ l2) = join_char c l1 +:+ String c (join_char c l2).
Proof.
  induction l1 as [|w l1 IH]; [done|]. intros _ H2. destruct l1 as [|v l1].
  - simpl. by destruct l2.
  - change (join_char c ((w :: v :: l1) ++ l2)) with (w +:+ String c (join_char c ((v :: l1) ++ l2))).
    rewrite IH by done.
    change (join_char c (w :: v :: l1)) with (w +:+ String c (join_char c (v :: l1))).
    by rewrite <- str_app_assoc, str_app_cons.
Qed.

Lemma split_prefix_decompose p path tl :
  tl ≠ [] → split_char "/" path = split_char "/" p ++ tl →
  path = p +:+ String "/" (join_char "/" tl).
Proof.
  intros Htl H. rewrite <- (join_split_char "/" path), H, join_char_app; [|apply split_char_ne|done].
  by rewrite join_split_char.
Qed.

Lemma prefix_matches_iff path prefix :
  prefix_matches path prefix = true ↔
  path = prefix ∨ ∃ rest, path = prefix +:+ rest ∧
    (ends_with_char "/" prefix = true ∨ starts_with_char "/" rest = true).
Proof.
  unfold prefix_matches. destruct (String.eqb_spec path prefix) as [->|Hne]; [by split; auto|].
  destruct (strip_prefix prefix path) as [rest|] eqn:E.
  - apply strip_prefix_Some in E. rewrite orb_true_iff. split; [by eauto|].
    intros [?|(r & Hr & H)]; [done|]. rewrite E in Hr.
    apply (inj (String.app prefix)) in Hr as ->. done.
  - split; [discriminate|]. intros [?|(r & Hr & _)]; [done|].
    apply strip_prefix_Some in Hr. congruence.
Qed.

Lemma rewrite_prefix_under path lp up :
  prefix_matches path lp = true → prefix_matches (rewrite_prefix path lp up) up = true.
Proof.
  intros _. unfold rewrite_prefix. set (suffix := unwrap_or _ _).
  rewrite prefix_matches_iff. destruct (str_is_empty suffix) eqn:He; [by left|]. right.
  destruct (ends_with_char "/" up) eqn:Hu; simpl; [by eauto|].
  destruct (starts_with_char "/" suffix) eqn:Hs; [by eauto|].
  eexists. split; [done|]. by right.
Qed.

(** ** Selecting the most specific route

    Both route loops are instances of one: [candidate route] is [Ok None] when
    the loop body continues, [Ok (Some (len, m))] when the route matches with a
    prefix of length [len], and [Err] when the body returns early. *)
Section best.
Variable candidate : RouteConfig → result string (option (nat * RouteMatch)).

Fixpoint best_loop (best : option (nat * RouteMatch)) (routes : list RouteConfig)
    : result string (option (nat * RouteMatch)) :=
  match routes with
  | [] => Ok best
  | route :: routes =>
      c ← candidate route;
      match c with
      | Some (len, m) => best_loop (if improves len best then Some (len, m) else best) routes
      | None => best_loop best routes
      end
  end.

Lemma best_loop_cons best r routes :
  best_loop best (r :: routes) =
  (c ← candidate r;
   match c with
   | Some (len, m) => best_loop (if improves len best then Some (len, m) else best) routes
   | None => best_loop best routes
   end).
Proof. done. Qed.

(** [beaten strict n r]: if [r] is a candidate, its prefix is shorter than [n]
    (at most [n] when [strict] is false). *)
Definition beaten (strict : bool) (n : nat) (r : RouteConfig) : Prop :=
  ∃ c, candidate r = Ok c ∧
  ∀ len m, c = Some (len, m) → if strict then (len < n)%nat else (len ≤ n)%nat.

Lemma best_loop_keep n m routes b :
  best_loop (Some (n, m)) routes = Ok b →
  (b = Some (n, m) ∧ Forall (beaten false n) routes) ∨
  (∃ l1 r l2 n' m', b = Some (n', m') ∧ routes = l1 ++ r :: l2 ∧ (n < n')%nat ∧
     candidate r = Ok (Some (n', m')) ∧ Forall (beaten true n') l1 ∧ Forall (beaten false n') l2).
Proof.
  revert n m. induction routes as [|r routes IH]; simpl; intros n m.
  { intros [= <-]. left. by split. }
  destruct (candidate r) as [[[len m1]|]|] eqn:Er; simpl; [| |discriminate].
  - destruct (Nat.ltb_spec n len) as [Hlt|Hle]; simpl; intros H.
    + destruct (IH _ _ H) as [[-> HF]|(l1 & r' & l2 & n' & m' & -> & -> & Hn & Hr & H1 & H2)].
      * right. exists [], r, routes, len, m1. split_and!; auto.
      * right. exists (r :: l1), r', l2, n', m'. split_and!; auto; [lia|].
        constructor; [|done]. exists (Some (len, m1)). split; [done|]. intros ? ? [= <- _]. lia.
    + destruct (IH _ _ H) as [[-> HF]|(l1 & r' & l2 & n' & m' & -> & -> & Hn & Hr & H1 & H2)].
      * left. split; [done|]. constructor; [|done]. exists (Some (len, m1)).
        split; [done|]. by intros ? ? [= <- _].
      * right. exists (r :: l1), r', l2, n', m'. split_and!; auto.
        constructor; [|done]. exists (Some (len, m1)). split; [done|]. intros ? ? [= <- _]. lia.
  - intros H. destruct (IH _ _ H) as [[-> HF]|(l1 & r' & l2 & n' & m' & -> & -> & Hn & Hr & H1 & H2)].
    + left. split; [done|]. constructor; [|done]. exists None. by split.
    + right. exists (r :: l1), r', l2, n', m'. split_and!; auto.
      constructor; [|done]. exists None. by split.
Qed.

Lemma best_loop_None routes :
  best_loop None routes = Ok None ↔ Forall (λ r, candidate r = Ok None) routes.
Proof.
  induction routes as [|r routes IH]; simpl; [by split|].
  destruct (candidate r) as [[[len m1]|]|] eqn:Er; simpl.
  - split; [|inversion 1; congruence]. intros H.
    by destruct (best_loop_keep _ _ _ _ H) as [[? _]|(?&?&?&?&?&?&_)].
  - rewrite IH. split; [by constructor|by inversion 1].
  - split; [discriminate|inversion 1; congruence].
Qed.

(** The loop returns the first of the candidates with the longest prefix. *)
Lemma best_loop_Some routes n m :
  best_loop None routes = Ok (Some (n, m)) →
  ∃ l1 r l2, routes = l1 ++ r :: l2 ∧ candidate r = Ok (Some (n, m)) ∧
    Forall (beaten true n) l1 ∧ Forall (beaten false n) l2.
Proof.
  induction routes as [|r routes IH]; simpl; [discriminate|].
  destruct (candidate r) as [[[len m1]|]|] eqn:Er; simpl; [| |discriminate].
  - intros H. destruct (best_loop_keep _ _ _ _ H)
      as [[[= <- <-] HF]|(l1 & r' & l2 & n' & m' & [= <- <-] & -> & Hn & Hr & H1 & H2)].
    + by exists [], r, routes.
    + exists (r :: l1), r', l2. split_and!; auto. constructor; [|done].
      exists (Some (len, m1)). split; [done|]. by intros ? ? [= <- _].
  - intros H. destruct (IH H) as (l1 & r' & l2 & -> & Hr & H1 & H2).
    exists (r :: l1), r', l2. split_and!; auto. constructor; [|done]. exists None. by split.
Qed.

Lemma best_loop_Err routes best e :
  best_loop best routes = Err e → ∃ r, r ∈ routes ∧ candidate r = Err e.
Proof.
  revert best. induction routes as [|r routes IH]; simpl; intros best; [discriminate|].
  destruct (candidate r) as [[[len m1]|]|] eqn:Er; simpl; intros H;
    [destruct (IH _ H) as (r' & ? & ?); exists r'; by split; [right|]..|].
  injection H as ->. exists r. split; [left|done].
Qed.

(** If no body fails and one route is a candidate, the loop finds one at least
    as long. *)
Lemma best_loop_finds routes r n m :
  (∀ r' e, r' ∈ routes → candidate r' ≠ Err e) → r ∈ routes →
  candidate r = Ok (Some (n, m)) →
  ∃ r' n' m', best_loop None routes = Ok (Some (n', m')) ∧ r' ∈ routes ∧
    candidate r' = Ok (Some (n', m')) ∧ (n ≤ n')%nat.
Proof.
  intros Hok Hr Hc. destruct (best_loop None routes) as [[[n' m']|]|e] eqn:Hb.
  - apply best_loop_Some in Hb as (l1 & r' & l2 & -> & Hr' & H1 & H2).
    exists r', n', m'. split_and!; [done|set_solver|done|].
    assert (Hbeaten : ∀ b, beaten b n' r → (n ≤ n')%nat).
    { intros b (c & Hc' & Hle). rewrite Hc in Hc'. injection Hc' as <-.
      specialize (Hle _ _ eq_refl). destruct b; lia. }
    apply elem_of_app in Hr as [Hr|[->|Hr]%elem_of_cons].
    + exact (Hbeaten _ (Forall_elem _ _ _ H1 Hr)).
    + rewrite Hc in Hr'. by injection Hr' as -> ->.
    + exact (Hbeaten _ (Forall_elem _ _ _ H2 Hr)).
  - apply best_loop_None in Hb. pose proof (Forall_elem _ _ _ Hb Hr). simpl in *. congruence.
  - apply best_loop_Err in Hb as (r' & Hr' & He). by apply Hok in He.
Qed.
End best.

Section selection.
Context {PL : PercentLib}.

(** One iteration of each loop. *)
Definition client_candidate (method : Method) (path : string) (route : RouteConfig)
    : result string (option (nat * RouteMatch)) :=
  if negb (existsb (λ candidate, String.eqb candidate method) (rt_methods route)) then Ok None else
  match rt_local_prefix route with
  | None => Ok None
  | Some local_prefix =>
      local_prefix ← canonical_request_path local_prefix;
      if negb (prefix_matches path local_prefix) then Ok None else
      upstream_prefix ←
        canonical_request_path (unwrap_or local_prefix (rt_upstream_prefix route));
      Ok (Some (String.length local_prefix, {|
        rm_route := route;
        rm_upstream_path := rewrite_prefix path local_prefix upstream_prefix |}))
  end.

Definition server_candidate (method : Method) (path client_identity : string) (route : RouteConfig)
    : result string (option (nat * RouteMatch)) :=
  if negb (existsb (λ candidate, String.eqb candidate method) (rt_methods route)) then Ok None else
  if negb (route_matches_client_identity route client_identity) then Ok None else
  match rt_upstream_prefix route with
  | None => Ok None
  | Some prefix =>
      prefix ← canonical_request_path prefix;
      if prefix_matches path prefix
      then Ok (Some (String.length prefix, {| rm_route := route; rm_upstream_path := path |}))
      else Ok None
  end.

Lemma client_loop_best method path best routes :
  find_client_route_loop method path best routes =
  best_loop (client_candidate method path) best routes.
Proof.
  revert best. induction routes as [|r routes IH]; intros best; [done|].
  rewrite best_loop_cons. revert IH.
  generalize (best_loop (client_candidate method path)). intros loop IH.
  unfold client_candidate. simpl. destruct (negb (existsb _ _)); simpl; [apply IH|].
  destruct (rt_local_prefix r) as [lp|]; simpl; [|apply IH].
  destruct (canonical_request_path lp) as [clp|e]; simpl; [|done].
  destruct (prefix_matches path clp); simpl; [|apply IH].
  destruct (canonical_request_path _) as [cup|e]; simpl; [|done].
  rewrite !IH. by destruct (improves _ _).
Qed.

Lemma server_loop_best method path cid best routes :
  find_server_route_loop method path cid best routes =
  best_loop (server_candidate method path cid) best routes.
Proof.
  revert best. induction routes as [|r routes IH]; intros best; [done|].
  rewrite best_loop_cons. revert IH.
  generalize (best_loop (server_candidate method path cid)). intros loop IH.
  unfold server_candidate. simpl. destruct (negb (existsb _ _)); simpl; [apply IH|].
  destruct (negb (route_matches_client_identity _ _)); simpl; [apply IH|].
  destruct (rt_upstream_prefix r) as [up|]; simpl; [|apply IH].
  destruct (canonical_request_path up) as [cup|e]; simpl; [|done].
  destruct (prefix_matches path cup); simpl; [|apply IH].
  rewrite !IH. by destruct (improves _ _).
Qed.

Lemma method_allowed method (r : RouteConfig) :
  existsb (λ candidate, String.eqb candidate method) (rt_methods r) = true ↔ method ∈ rt_methods r.
Proof.
  rewrite existsb_elem_of. split.
  - intros (x & Hx & He). apply String.eqb_eq in He as ->. done.
  - intros H. exists method. split; [done|apply String.eqb_refl].
Qed.

Lemma server_candidate_Some method path cid r n m :
  server_candidate method path cid r = Ok (Some (n, m)) ↔
  method ∈ rt_methods r ∧ route_matches_client_identity r cid = true ∧
  ∃ p cp, rt_upstream_prefix r = Some p ∧ canonical_request_path p = Ok cp ∧
    prefix_matches path cp = true ∧ n = String.length cp ∧
    m = {| rm_route := r; rm_upstream_path := path |}.
Proof.
  unfold server_candidate. rewrite <- method_allowed.
  destruct (existsb _ _); simpl; [|refute_iff].
  destruct (route_matches_client_identity r cid); simpl; [|refute_iff].
  destruct (rt_upstream_prefix r) as [p|]; simpl; [|refute_iff].
  destruct (canonical_request_path p) as [cp|] eqn:Ec; simpl;
    [|refute_iff].
  destruct (prefix_matches path cp) eqn:Ep; [|refute_iff].
  split; [|intros; inv_all; congruence]. intros [= <- <-]. split_and!; eauto 10.
Qed.

Lemma client_candidate_Some method path r n m :
  client_candidate method path r = Ok (Some (n, m)) ↔
  method ∈ rt_methods r ∧
  ∃ lp clp cup, rt_local_prefix r = Some lp ∧ canonical_request_path lp = Ok clp ∧
    prefix_matches path clp = true ∧
    canonical_request_path (unwrap_or clp (rt_upstream_prefix r)) = Ok cup ∧
    n = String.length clp ∧
    m = {| rm_route := r; rm_upstream_path := rewrite_prefix path clp cup |}.
Proof.
  unfold client_candidate. rewrite <- method_allowed.
  destruct (existsb _ _); simpl; [|refute_iff].
  destruct (rt_local_prefix r) as [p|]; simpl; [|refute_iff].
  destruct (canonical_request_path p) as [cp|] eqn:Ec; simpl;
    [|refute_iff].
  destruct (prefix_matches path cp) eqn:Ep; simpl; [|refute_iff].
  destruct (canonical_request_path (unwrap_or _ _)) as [cup|] eqn:Eu; simpl;
    [|refute_iff].
  split; [|intros; inv_all; congruence]. intros [= <- <-]. split; [done|].
  exists p, cp, cup. by split_and!.
Qed.

Lemma server_candidate_Err method path cid r e :
  server_candidate method path cid r = Err e →
  ∃ p, rt_upstream_prefix r = Some p ∧ canonical_request_path p = Err e.
Proof.
  unfold server_candidate. destruct (negb _); [done|]. destruct (negb _); [done|].
  destruct (rt_upstream_prefix r) as [p|]; [|done].
  intros [He|(cp & _ & He)]%bind_Err_inv; [by exists p|]. by destruct (prefix_matches _ _).
Qed.

Lemma find_client_route_inv routes method path m :
  find_client_route routes method path = Ok m →
  ∃ cpath l1 l2 n, canonical_request_path path = Ok cpath ∧ routes = l1 ++ rm_route m :: l2 ∧
    client_candidate method cpath (rm_route m) = Ok (Some (n, m)) ∧
    Forall (beaten (client_candidate method cpath) true n) l1 ∧
    Forall (beaten (client_candidate method cpath) false n) l2.
Proof.
  unfold find_client_route. intros H.
  apply bind_Ok_inv in H as (cpath & Hc & H). rewrite client_loop_best in H.
  apply bind_Ok_inv in H as (b & Hb & H). apply ok_or_Ok in H.
  destruct b as [[n m']|]; simpl in H; [|done]. injection H as ->.
  apply best_loop_Some in Hb as (l1 & r & l2 & -> & Hr & H1 & H2).
  pose proof Hr as Hr'. apply client_candidate_Some in Hr' as (_ & ? & ? & ? & _ & _ & _ & _ & _ & ->).
  by exists cpath, l1, l2, n.
Qed.

Lemma find_server_route_inv routes method path cid m :
  find_server_route routes method path cid = Ok m →
  ∃ l1 l2 n, canonical_request_path path = Ok (rm_upstream_path m) ∧ routes = l1 ++ rm_route m :: l2 ∧
    server_candidate method (rm_upstream_path m) cid (rm_route m) = Ok (Some (n, m)) ∧
    Forall (beaten (server_candidate method (rm_upstream_path m) cid) true n) l1 ∧
    Forall (beaten (server_candidate method (rm_upstream_path m) cid) false n) l2.
Proof.
  unfold find_server_route. intros H.
  apply bind_Ok_inv in H as (cpath & Hc & H). rewrite server_loop_best in H.
  apply bind_Ok_inv in H as (b & Hb & H). apply ok_or_Ok in H.
  destruct b as [[n m']|]; simpl in H; [|done]. injection H as ->.
  apply best_loop_Some in Hb as (l1 & r & l2 & -> & Hr & H1 & H2).
  pose proof Hr as Hr'. apply server_candidate_Some in Hr' as (_ & _ & ? & ? & _ & _ & _ & _ & ->).
  by exists l1, l2, n.
Qed.

(** A request under the prefix of one of the client's routes is routed. *)
Lemma find_server_route_finds routes method path cid cpath r n m :
  canonical_request_path path = Ok cpath →
  (∀ r' p e, r' ∈ routes → rt_upstream_prefix r' = Some p → canonical_request_path p ≠ Err e) →
  r ∈ routes → server_candidate method cpath cid r = Ok (Some (n, m)) →
  ∃ r' n' m', find_server_route routes method path cid = Ok m' ∧ r' ∈ routes ∧
    server_candidate method cpath cid r' = Ok (Some (n', m')) ∧ (n ≤ n')%nat.
Proof.
  intros Hc Hok Hr Hcand.
  destruct (best_loop_finds (server_candidate method cpath cid) routes r n m)
    as (r' & n' & m' & Hb & Hr' & Hc' & Hle); [|done|done|].
  { intros r' e Hin (p & Hp & He)%server_candidate_Err. by eapply Hok. }
  exists r', n', m'. split_and!; [|done..].
  unfold find_server_route. rewrite Hc. simpl. by rewrite server_loop_best, Hb.
Qed.
End selection.

(** ** The index loop *)
Lemma get_app_length s t i : String.get (String.length s + i) (s +:+ t) = String.get i t.
Proof. induction s as [|c s IH]; [done|]. rewrite str_app_cons. done. Qed.

Lemma percent_index_loop_suffix fuel bytes pre rest :
  bytes = pre +:+ rest → (String.length rest < fuel)%nat →
  percent_index_loop fuel bytes (String.length pre) =
  Some (reject_invalid_percent_encoding rest).
Proof.
  revert pre rest. induction fuel as [|fuel IH]; intros pre rest Hb Hf; [lia|].
  assert (Hget : ∀ i, String.get (String.length pre + i) bytes = String.get i rest)
    by (intros i; subst; apply get_app_length).
  assert (Hlen : String.length bytes = (String.length pre + String.length rest)%nat)
    by (subst; apply str_length_app).
  pose proof (Hget 0%nat) as Hget0. rewrite Nat.add_0_r in Hget0.
  simpl percent_index_loop. rewrite Hget0, !Hget, Hlen. destruct rest as [|c rest].
  { simpl. by rewrite Nat.add_0_r, Nat.ltb_irrefl. }
  simpl in Hf.
  assert (Hadv : ∀ s r, String c rest = s +:+ r → (String.length r < fuel)%nat →
    percent_index_loop fuel bytes (String.length pre + String.length s) =
    Some (reject_invalid_percent_encoding r)).
  { intros s r Hs Hr. rewrite <- str_length_app. apply IH; [|done].
    by rewrite Hb, Hs, str_app_assoc. }
  destruct (Nat.ltb_spec (String.length pre) (String.length pre + String.length (String c rest)));
    [|simpl in *; lia].
  simpl reject_invalid_percent_encoding. simpl String.get. destruct (Ascii.eqb_spec c "%") as [->|Hne].
  - rewrite bool_decide_eq_true_2 by done. destruct rest as [|h [|l rest]]; simpl String.length.
    1,2: match goal with |- context [Nat.leb ?a ?b] => destruct (Nat.leb_spec a b) end; [done|lia].
    match goal with |- context [Nat.leb ?a ?b] => destruct (Nat.leb_spec a b) end; [lia|].
    simpl. destruct (is_ascii_hexdigit h), (is_ascii_hexdigit l); try done. simpl.
    apply (Hadv (String "%" (String h (String l EmptyString)))); [done|]. simpl in Hf. lia.
  - rewrite bool_decide_eq_false_2 by congruence.
    apply (Hadv (String c EmptyString)); [done|lia].
Qed.

(** ** Dot segments survive no rewrite *)
Lemma no_dot_app_sep s t : no_dot_segments (s +:+ String "/" t) ↔ no_dot_segments s ∧ no_dot_segments t.
Proof.
  unfold no_dot_segments. rewrite split_char_app_sep. setoid_rewrite elem_of_app.
  split; [intros H; split; intros seg Hs; apply H; auto|intros [H1 H2] seg [Hs|Hs]; auto].
Qed.

Lemma no_dot_empty : no_dot_segments EmptyString.
Proof. intros seg Hs. simpl in Hs. apply list_elem_of_singleton in Hs as ->. done. Qed.

(** What follows a matched prefix has only segments of the path. *)
Lemma suffix_no_dot path lp suffix :
  prefix_matches path lp = true → strip_prefix lp path = Some suffix → no_dot_segments path →
  suffix = EmptyString ∨ no_dot_segments suffix.
Proof.
  intros Hm Hs Hd. apply strip_prefix_Some in Hs.
  apply prefix_matches_iff in Hm as [->|(r & Hr & [He|Hc])].
  - left. apply (inj (String.app lp)). by rewrite str_app_nil_r.
  - right. rewrite Hs in Hr. apply (inj (String.app lp)) in Hr as <-.
    apply ends_with_char_true in He as [l ->]. rewrite <- str_app_assoc in Hs.
    change (String "/" EmptyString +:+ suffix) with (String "/" suffix) in Hs.
    rewrite Hs in Hd. by apply no_dot_app_sep in Hd as [_ ?].
  - right. rewrite Hs in Hr. apply (inj (String.app lp)) in Hr as <-.
    apply starts_with_char_true in Hc as [t ->]. rewrite Hs in Hd.
    apply no_dot_app_sep in Hd as [_ Hd].
    change (String "/" t) with (EmptyString +:+ String "/" t). apply no_dot_app_sep.
    split; [apply no_dot_empty|done].
Qed.

Lemma rewrite_no_dot path lp up :
  prefix_matches path lp = true → no_dot_segments path → no_dot_segments up →
  no_dot_segments (rewrite_prefix path lp up).
Proof.
  intros Hm Hd Hu. unfold rewrite_prefix. destruct (strip_prefix lp path) as [suffix|] eqn:Hs; [|done].
  simpl. destruct (str_is_empty suffix) eqn:He; [done|].
  destruct (suffix_no_dot _ _ _ Hm Hs Hd) as [->|Hsd]; [done|].
  destruct (ends_with_char "/" up) eqn:Eu; simpl.
  - apply ends_with_char_true in Eu as [u ->]. rewrite <- str_app_assoc.
    change (String "/" EmptyString +:+ suffix) with (String "/" suffix).
    apply no_dot_app_sep. split; [|done].
    by apply no_dot_app_sep in Hu as [? _].
  - destruct (starts_with_char "/" suffix) eqn:Es.
    + apply starts_with_char_true in Es as [t ->]. apply no_dot_app_sep. split; [done|].
      change (String "/" t) with (EmptyString +:+ String "/" t) in Hsd.
      by apply no_dot_app_sep in Hsd as [_ ?].
    + change (("/" : string) +:+ suffix) with (String "/" suffix). by apply no_dot_app_sep.
Qed.

Lemma rewrite_slash path lp up :
  starts_with_char "/" up = true → starts_with_char "/" (rewrite_prefix path lp up) = true.
Proof.
  intros [u ->]%starts_with_char_true. unfold rewrite_prefix.
  by repeat case_match.
Qed.

(** ** Paths in URLs

    Of a path without escapes, dot segments and bytes that a URL would encode, the URL
    has the very path. *)
Definition plain_path_byte (c : ascii) : bool := url_path_byte c && negb (Ascii.eqb "%" c).

Lemma plain_path_bytes path :
  bytes_all plain_path_byte path = true →
  bytes_all url_path_byte path = true ∧ str_contains "%" path = false ∧ str_contains "?" path = false ∧
  utf8_valid path = true.
Proof.
  intros H. split_and!; [|by eapply bytes_all_contains..|].
  - revert H. apply bytes_all_impl. by intros c [? _]%andb_true_iff.
  - assert (Hb : ∀ c, plain_path_byte c = true → byte_in 0 127 c = true)
      by (intros [[] [] [] [] [] [] [] []]; vm_compute; done).
    induction path as [|c path IH]; [done|]. simpl in H |- *. apply andb_true_iff in H as [Hc Hp].
    rewrite (Hb c Hc). by apply IH.
Qed.

Lemma whatwg_segments_plain read segments :
  Forall (λ s, double_dot s = false ∧ single_dot s = false) segments →
  whatwg_segments read segments = rev read ++ segments.
Proof.
  revert read. induction segments as [|s segments IH]; intros read; [by rewrite app_nil_r|].
  intros [[Hd Hs] HF]%list.Forall_cons. simpl. rewrite Hd, Hs, IH by done. simpl. by rewrite <- app_assoc.
Qed.

Lemma plain_segment s :
  str_contains "%" s = false → s ≠ "." → s ≠ ".." → double_dot s = false ∧ single_dot s = false.
Proof.
  intros Hp H1 H2. unfold double_dot, single_dot. rewrite !bool_decide_eq_false, !elem_of_cons.
  split; intros H; repeat (destruct H as [->|H]; [done|]); by apply not_elem_of_nil in H.
Qed.

Lemma split_contains c d s w :
  w ∈ split_char c s → str_contains d s = false → str_contains d w = false.
Proof.
  intros Hw Hs. apply not_true_iff_false. intros Ht. apply not_true_iff_false in Hs. apply Hs. clear Hs.
  revert w Hw Ht. induction s as [|e s IH]; simpl; intros w Hw Ht.
  { by apply list_elem_of_singleton in Hw as ->. }
  apply orb_true_iff. destruct (Ascii.eqb c e).
  - apply elem_of_cons in Hw as [->|Hw]; [done|]. right. by eapply IH.
  - destruct (split_char c s) as [|v vs] eqn:E; [by apply split_char_ne in E|].
    apply elem_of_cons in Hw as [->|Hw]; [|right; apply (IH w); [by right|done]].
    simpl in Ht. apply orb_true_iff in Ht as [?|Ht]; [by left|right]. apply (IH v); [left|done].
Qed.

Lemma plain_segments s :
  str_contains "%" s = false → no_dot_segments s →
  Forall (λ w, double_dot w = false ∧ single_dot w = false) (split_char "/" s).
Proof.
  intros Hp Hd. apply list.Forall_forall. intros w Hw. destruct (Hd w Hw).
  apply plain_segment; [by eapply split_contains|done..].
Qed.

Lemma whatwg_path_plain path :
  starts_with_char "/" path = true → str_contains "%" path = false → no_dot_segments path →
  whatwg_path path = path.
Proof.
  intros [r ->]%starts_with_char_true Hp Hd. pose proof (plain_segments _ Hp Hd) as HF.
  unfold whatwg_path. simpl in HF |- *. apply list.Forall_cons in HF as [_ HF].
  rewrite whatwg_segments_plain by done. simpl. by rewrite join_split_char.
Qed.

(** A path a client connector forwards, and that has no escape left, is routed by a
    server connector with a route of the same prefix. *)
Lemma client_path_routed {PL : PercentLib} {PS : PercentSpec}
    (croutes sroutes : list RouteConfig) (method : Method) (path cid up : string)
    (m : RouteMatch) (r : RouteConfig) :
  find_client_route croutes method path = Ok m →
  rt_upstream_prefix (rm_route m) = Some up →
  str_contains "%" (rm_upstream_path m) = false →
  utf8_valid (rm_upstream_path m) = true →
  r ∈ sroutes → method ∈ rt_methods r → route_matches_client_identity r cid = true →
  rt_upstream_prefix r = Some up →
  (∀ r' p e, r' ∈ sroutes → rt_upstream_prefix r' = Some p → canonical_request_path p ≠ Err e) →
  starts_with_char "/" (rm_upstream_path m) = true ∧ no_dot_segments (rm_upstream_path m) ∧
  ∃ cup r' m' n', canonical_request_path up = Ok cup ∧
    find_server_route sroutes method (rm_upstream_path m) cid = Ok m' ∧ r' ∈ sroutes ∧
    server_candidate method (rm_upstream_path m) cid r' = Ok (Some (n', m')) ∧
    (String.length cup ≤ n')%nat.
Proof.
  intros Hf Hup Hpct Hutf Hr Hmeth Hid Hrup Hok.
  apply find_client_route_inv in Hf as (cpath & l1 & l2 & n & Hc & _ & Hcand & _ & _).
  apply client_candidate_Some in Hcand
    as (_ & lp & clp & cup & _ & _ & Hpm & Hcup & _ & Hm).
  rewrite Hup in Hcup. simpl in Hcup.
  assert (Hpath : rm_upstream_path m = rewrite_prefix cpath clp cup) by by rewrite Hm.
  pose proof (canonical_props _ _ Hc) as (_ & Hd & _).
  pose proof (canonical_props _ _ Hcup) as (Hsl & Hdu & _).
  assert (Hslash : starts_with_char "/" (rm_upstream_path m) = true) by (rewrite Hpath; by apply rewrite_slash).
  assert (Hdots : no_dot_segments (rm_upstream_path m)) by (rewrite Hpath; by apply rewrite_no_dot).
  split; [exact Hslash|]. split; [exact Hdots|].
  assert (Hcanon : canonical_request_path (rm_upstream_path m) = Ok (rm_upstream_path m)).
  { by apply canonical_fixpoint. }
  assert (Hsc : server_candidate method (rm_upstream_path m) cid r =
    Ok (Some (String.length cup, {| rm_route := r; rm_upstream_path := rm_upstream_path m |}))).
  { apply server_candidate_Some. split_and!; [done|done|]. exists up, cup. split_and!; try done.
    rewrite Hpath. by apply rewrite_prefix_under with (lp := clp). }
  destruct (find_server_route_finds _ _ _ _ _ _ _ _ Hcanon Hok Hr Hsc)
    as (r' & n' & m' & ? & ? & ? & ?). by exists cup, r', m', n'.
Qed.


(** *** Escapes that survive decoding *)
Lemma valid_pct_app s t : str_contains "%" s = false → valid_pct t → valid_pct (s +:+ t).
Proof.
  intros Hs Ht. induction s as [|c s IH]; [done|]. apply orb_false_iff in Hs as [Hc Hs].
  rewrite str_app_cons. apply valid_pct_cons; [|by apply IH]. by intros ->.
Qed.

Lemma valid_pct_escape h l s :
  is_ascii_hexdigit h = true → is_ascii_hexdigit l = true → valid_pct s →
  valid_pct (String "%" (String h (String l s))).
Proof. rewrite <- !reject_invalid_percent_encoding_Ok. simpl. by intros -> ->. Qed.

Lemma decode_app s t :
  str_contains "%" s = false → whatwg_percent_decode (s +:+ t) = s +:+ whatwg_percent_decode t.
Proof.
  induction s as [|c s IH]; [done|]. intros [Hc Hs]%orb_false_iff.
  rewrite !str_app_cons, decode_cons by (by rewrite Ascii.eqb_sym). by rewrite IH.
Qed.

Lemma ascii_utf8 s : bytes_all (byte_in 0 127) s = true → utf8_valid s = true.
Proof. induction s as [|c s IH]; [done|]. simpl. intros [-> ?]%andb_true_iff. by apply IH. Qed.

Lemma plain_ascii s : bytes_all plain_path_byte s = true → bytes_all (byte_in 0 127) s = true.
Proof. apply bytes_all_impl. intros [[] [] [] [] [] [] [] []]; vm_compute; done. Qed.

Lemma plain_no_backslash s : bytes_all plain_path_byte s = true → str_contains "\" s = false.
Proof. intros H. by eapply bytes_all_contains. Qed.

Lemma last_separator c s :
  str_contains c s = true → ∃ a b, s = a +:+ String c b ∧ str_contains c b = false.
Proof.
  induction s as [|d s IH]; [done|]. simpl. destruct (str_contains c s) eqn:E.
  - intros _. destruct (IH eq_refl) as (a & b & -> & ?). by exists (String d a), b.
  - rewrite orb_false_r. intros ->%Ascii.eqb_eq. by exists EmptyString, s.
Qed.

(** An encoded escape of a dot is decoded once and is then an escaped dot. *)
Lemma canonical_double_encoded {PL : PercentLib} {PS : PercentSpec} segment rest :
  bytes_all plain_path_byte segment = true → str_contains "/" segment = false →
  segment ≠ "." → segment ≠ ".." →
  bytes_all plain_path_byte rest = true → no_dot_segments rest →
  canonical_request_path ("/" +:+ segment +:+ "/%252e%252e/" +:+ rest)
    = Ok ("/" +:+ segment +:+ "/%2e%2e/" +:+ rest).
Proof.
  intros Hs Hsl H1 H2 Hr Hd.
  destruct (plain_path_bytes _ Hs) as (_ & Hsp & _ & _), (plain_path_bytes _ Hr) as (_ & Hrp & _ & _).
  apply canonical_spec.
  assert (Hdec : whatwg_percent_decode ("/" +:+ segment +:+ "/%252e%252e/" +:+ rest)
    = "/" +:+ segment +:+ "/%2e%2e/" +:+ rest).
  { change ("/" +:+ segment +:+ ?x) with (String "/" (segment +:+ x)). rewrite decode_cons by done.
    rewrite decode_app by done. simpl. by rewrite decode_id. }
  split; [|by rewrite Hdec]. split; rewrite ?Hdec.
  - done.
  - apply (valid_pct_app "/"); [done|]. apply valid_pct_app; [done|].
    apply (valid_pct_app "/"); [done|]. apply valid_pct_escape; [done..|].
    apply (valid_pct_app "2e"); [done|]. apply valid_pct_escape; [done..|].
    apply (valid_pct_app "2e/"); [done|]. by apply valid_pct_no_escape.
  - apply ascii_utf8. by rewrite !bytes_all_app, (plain_ascii segment), (plain_ascii rest) by done.
  - intros _. by rewrite !str_contains_app, (plain_no_backslash segment), (plain_no_backslash rest) by done.
  - by rewrite !count_byte_app.
  - apply (no_dot_app_sep EmptyString). split; [apply no_dot_empty|].
    apply no_dot_app_sep. split.
    { unfold no_dot_segments. rewrite split_char_no_sep_id by done.
      intros w ->%list_elem_of_singleton. done. }
    apply (no_dot_app_sep "%2e%2e"). split; [|done].
    unfold no_dot_segments. rewrite split_char_no_sep_id by done.
    by intros w ->%list_elem_of_singleton.
Qed.

(** In a URL the escaped dots remove the segment before them. *)
Lemma whatwg_path_double_dot segment rest :
  bytes_all plain_path_byte segment = true → str_contains "/" segment = false →
  segment ≠ "." → segment ≠ ".." →
  bytes_all plain_path_byte rest = true → no_dot_segments rest →
  whatwg_path ("/" +:+ segment +:+ "/%2e%2e/" +:+ rest) = "/" +:+ rest.
Proof.
  intros Hs Hsl H1 H2 Hr Hd.
  destruct (plain_path_bytes _ Hs) as (_ & Hsp & _ & _), (plain_path_bytes _ Hr) as (_ & Hrp & _ & _).
  unfold whatwg_path.
  assert (Hsplit : split_char "/" ("/" +:+ segment +:+ "/%2e%2e/" +:+ rest)
    = EmptyString :: segment :: "%2e%2e" :: split_char "/" rest).
  { change ("/" +:+ segment +:+ "/%2e%2e/" +:+ rest)
      with (String "/" (segment +:+ String "/" ("%2e%2e" +:+ String "/" rest))).
    simpl. f_equal. rewrite split_char_app_sep, split_char_no_sep_id by done. simpl.
    by destruct (split_char "/" rest). }
  rewrite Hsplit. cbn [tail whatwg_segments]. destruct (plain_segment segment Hsp H1 H2) as [-> ->].
  change (double_dot "%2e%2e") with true. pose proof (plain_segments _ Hrp Hd) as HF.
  destruct (split_char "/" rest) as [|w ws] eqn:E; [by apply split_char_ne in E|]. cbn [is_empty tail].
  rewrite whatwg_segments_plain by done. change (rev [] ++ w :: ws) with (w :: ws).
  by rewrite <- E, join_split_char.
Qed.

(** An encoded question mark is decoded and stays in the path. *)
Lemma canonical_question {PL : PercentLib} {PS : PercentSpec} path extra :
  starts_with_char "/" path = true → bytes_all plain_path_byte path = true → no_dot_segments path →
  bytes_all plain_path_byte extra = true → str_contains "/" extra = false →
  canonical_request_path (path +:+ "%3F" +:+ extra) = Ok (path +:+ "?" +:+ extra).
Proof.
  intros Hsl Hp Hd He Hes.
  destruct (plain_path_bytes _ Hp) as (_ & Hpp & _ & _), (plain_path_bytes _ He) as (_ & Hep & _ & _).
  assert (Hdec : whatwg_percent_decode (path +:+ "%3F" +:+ extra) = path +:+ "?" +:+ extra).
  { rewrite decode_app by done. simpl. by rewrite decode_id. }
  apply canonical_spec. split; [|by rewrite Hdec].
  pose proof Hsl as [r Hr]%starts_with_char_true. split; rewrite ?Hdec.
  - by rewrite Hr.
  - apply valid_pct_app; [done|]. apply valid_pct_escape; [done..|]. by apply valid_pct_no_escape.
  - apply ascii_utf8. by rewrite !bytes_all_app, (plain_ascii path), (plain_ascii extra) by done.
  - intros _. by rewrite !str_contains_app, (plain_no_backslash path), (plain_no_backslash extra) by done.
  - by rewrite !count_byte_app.
  - destruct (last_separator "/" path) as (a & b & -> & Hb); [by rewrite Hr|].
    rewrite <- str_app_assoc, str_app_cons. apply no_dot_app_sep in Hd as [Hda _].
    apply no_dot_app_sep. split; [done|]. unfold no_dot_segments.
    rewrite split_char_no_sep_id by (rewrite !str_contains_app, Hb, Hes; done).
    intros w ->%list_elem_of_singleton.
    assert (Hq : str_contains "?" (b +:+ "?" +:+ extra) = true)
      by (rewrite !str_contains_app; simpl; apply orb_true_r).
    split; intros Heq; by rewrite Heq in Hq.
Qed.

(** ** Properties *)
Module Claims.

(** C3: [canonical_request_path] accepts exactly the paths that start with a
    slash, whose escapes are complete, whose decoding is UTF-8, gains no slash
    and (when there are escapes) holds no backslash, and has no dot segment; the
    result is then the percent-decoded path, and every other path is an error. *)
Theorem canonical_request_path_correct {PL : PercentLib} {PS : PercentSpec} (p : string) :
  (∀ c, canonical_request_path p = Ok c ↔ acceptable_path p ∧ c = whatwg_percent_decode p) ∧
  (¬ acceptable_path p → ∃ e, canonical_request_path p = Err e).
Proof.
  split; [apply canonical_spec|]. intros Hn.
  destruct (canonical_request_path p) as [c|e] eqn:E; [|by eauto].
  apply canonical_spec in E as [? _]. done.
Qed.

Lemma canonical_request_path_correct_witness :
  @canonical_request_path ref_percent "/v1/%61dmin/records" = Ok "/v1/admin/records" ∧
  acceptable_path "/v1/%61dmin/records".
Proof.
  assert (H : @canonical_request_path ref_percent "/v1/%61dmin/records" = Ok "/v1/admin/records")
    by (vm_compute; reflexivity).
  split; [exact H|].
  exact (proj1 (proj1 (proj1 (@canonical_request_path_correct ref_percent ref_percent_spec
    "/v1/%61dmin/records") "/v1/admin/records") H)).
Defined.

(** Decoding never changes the segment structure of an accepted path: the
    segments of the canonical path are the decoded segments of the raw path, one
    by one, and none of them is [.] or [..]. *)
Theorem canonical_path_segments {PL : PercentLib} {PS : PercentSpec} (p c : string) :
  canonical_request_path p = Ok c →
  split_char "/" c = whatwg_percent_decode <$> split_char "/" p ∧
  (∀ seg, seg ∈ split_char "/" c → seg ≠ "." ∧ seg ≠ "..") ∧
  starts_with_char "/" c = true.
Proof.
  intros H. pose proof (canonical_props _ _ H) as (Hs & Hd & _).
  apply canonical_spec in H as [[_ Hv _ _ Hc _] ->]. split_and!; [apply decode_split; [done|lia]| |done].
  intros seg Hin. by apply Hd.
Qed.

Lemma canonical_path_segments_witness :
  split_char "/" "/v1/admin" = whatwg_percent_decode <$> split_char "/" "/v1/%61dmin" ∧
  (∀ seg, seg ∈ split_char "/" "/v1/admin" → seg ≠ "." ∧ seg ≠ "..") ∧
  starts_with_char "/" "/v1/admin" = true.
Proof.
  apply (@canonical_path_segments ref_percent ref_percent_spec "/v1/%61dmin" "/v1/admin").
  vm_compute. reflexivity.
Defined.

(** Canonicalisation is stable on what it produces as long as no percent
    sign is left: such a canonical path is its own canonical form. *)
Theorem canonical_path_stable {PL : PercentLib} {PS : PercentSpec} (p c : string) :
  canonical_request_path p = Ok c → str_contains "%" c = false →
  canonical_request_path c = Ok c.
Proof.
  intros H Hp. pose proof (canonical_props _ _ H) as (Hs & Hd & Hu). by apply canonical_fixpoint.
Qed.

Lemma canonical_path_stable_witness :
  @canonical_request_path ref_percent "/v1/admin" = Ok "/v1/admin".
Proof.
  apply (@canonical_path_stable ref_percent ref_percent_spec "/v1/%61dmin" "/v1/admin");
    vm_compute; reflexivity.
Defined.

(** The escape check terminates: the source's index loop over [n] bytes
    answers within [n + 1] iterations, and answers what the structural
    definition answers. *)
Theorem percent_index_loop_terminates (path : string) :
  percent_index_loop (S (String.length path)) path 0 =
  Some (reject_invalid_percent_encoding path).
Proof. apply (percent_index_loop_suffix _ path EmptyString path); [done|lia]. Qed.

(** C15: Prefix matching is segment-aware.  A prefix that does not end in a slash
    matches exactly the paths whose segment list it starts; a prefix [p/] matches
    exactly the paths with the segments of [p] and at least one more. *)
Theorem prefix_matches_segments :
  (∀ path prefix, ends_with_char "/" prefix = false →
     prefix_matches path prefix = true ↔ split_char "/" prefix `prefix_of` split_char "/" path) ∧
  (∀ path p, prefix_matches path (p +:+ "/") = true ↔
     ∃ tl, tl ≠ [] ∧ split_char "/" path = split_char "/" p ++ tl).
Proof.
  split.
  - intros path prefix He. rewrite prefix_matches_iff, He. split.
    + intros [->|(rest & -> & [?|Hs])]; [done|done|].
      apply starts_with_char_true in Hs as [r ->]. rewrite split_char_app_sep. by eexists.
    + intros [tl Htl]. destruct tl as [|w tl].
      * left. rewrite app_nil_r in Htl. by apply split_char_inj in Htl.
      * right. exists (String "/" (join_char "/" (w :: tl))). split; [|by right].
        by apply split_prefix_decompose.
  - intros path p. rewrite prefix_matches_iff.
    assert (He : ends_with_char "/" (p +:+ "/") = true) by (apply ends_with_char_true; by exists p).
    rewrite He. split.
    + assert (Hr : ∀ r, split_char "/" ((p +:+ "/") +:+ r) = split_char "/" p ++ split_char "/" r).
      { intros r. rewrite <- str_app_assoc. apply split_char_app_sep. }
      intros [->|(rest & -> & _)].
      * exists (split_char "/" EmptyString). split; [done|].
        by rewrite <- Hr, str_app_nil_r.
      * exists (split_char "/" rest). split; [apply split_char_ne|apply Hr].
    + intros (tl & Hne & Htl). right. exists (join_char "/" tl). split; [|by left].
      rewrite <- str_app_assoc. by apply split_prefix_decompose.
Qed.

(** C32: Client-mode rewriting stays inside the configured upstream prefix and
    introduces no dot segment: if the path matches [lp], the rewritten path
    matches [up], and it is free of dot segments when path and [up] are. *)
Theorem rewrite_prefix_confined (path lp up : string) :
  prefix_matches path lp = true →
  prefix_matches (rewrite_prefix path lp up) up = true ∧
  (no_dot_segments path → no_dot_segments up → no_dot_segments (rewrite_prefix path lp up)).
Proof. intros Hm. split; [by apply rewrite_prefix_under with (lp := lp)|by apply rewrite_no_dot]. Qed.

Lemma rewrite_prefix_confined_witness :
  prefix_matches (rewrite_prefix "/v1/records" "/v1" "/relay") "/relay" = true ∧
  (no_dot_segments "/v1/records" → no_dot_segments "/relay" →
   no_dot_segments (rewrite_prefix "/v1/records" "/v1" "/relay")).
Proof. apply rewrite_prefix_confined. vm_compute. reflexivity. Defined.

(** C5: Server route selection is exact.  A returned match is a configured route
    whose methods hold the request method, whose identities hold the client, and
    whose canonical upstream prefix covers the canonical request path, forwarded
    unchanged; every earlier matching route has a strictly shorter prefix and
    every later one a prefix that is no longer. *)
Theorem find_server_route_most_specific {PL : PercentLib} (routes : list RouteConfig)
    (method : Method) (path cid : string) (m : RouteMatch) :
  find_server_route routes method path cid = Ok m →
  ∃ l1 l2 p cp,
    routes = l1 ++ rm_route m :: l2 ∧
    canonical_request_path path = Ok (rm_upstream_path m) ∧
    method ∈ rt_methods (rm_route m) ∧
    route_matches_client_identity (rm_route m) cid = true ∧
    rt_upstream_prefix (rm_route m) = Some p ∧ canonical_request_path p = Ok cp ∧
    prefix_matches (rm_upstream_path m) cp = true ∧
    Forall (beaten (server_candidate method (rm_upstream_path m) cid) true (String.length cp)) l1 ∧
    Forall (beaten (server_candidate method (rm_upstream_path m) cid) false (String.length cp)) l2.
Proof.
  intros (l1 & l2 & n & Hc & Hl & Hr & H1 & H2)%find_server_route_inv.
  apply server_candidate_Some in Hr as (Hm & Hi & p & cp & Hp & Hcp & Hpm & -> & _).
  exists l1, l2, p, cp. by split_and!.
Qed.

Definition wit_route (id local up cid : string) : RouteConfig := {|
  rt_id := id; rt_methods := ["GET"]; rt_local_prefix := Some local;
  rt_upstream_prefix := Some up; rt_require_purpose := false; rt_purpose_source := None;
  rt_client_identity := Some cid; rt_client_identities := []; rt_upstream_auth_header_env := None;
  rt_forward_client_identity_header := false; rt_purposes := []; rt_governed_policy := None;
  rt_allow_forward_authorization := false; rt_allow_forward_cookie := false; rt_policy_hash := 0%nat |}.

Definition wit_routes : list RouteConfig :=
  [wit_route "broad" "/local" "/v1" "spiffe://client.example/w";
   wit_route "admin" "/local/admin" "/v1/admin" "spiffe://client.example/w"].

Lemma find_server_route_most_specific_witness :
  ∃ l1 l2 p cp,
    wit_routes = l1 ++ wit_route "admin" "/local/admin" "/v1/admin" "spiffe://client.example/w" :: l2 ∧
    @canonical_request_path ref_percent "/v1/%61dmin/x" = Ok "/v1/admin/x" ∧
    "GET" ∈ ["GET"] ∧
    route_matches_client_identity (wit_route "admin" "/local/admin" "/v1/admin" "spiffe://client.example/w") "spiffe://client.example/w" = true ∧
    Some "/v1/admin" = Some p ∧ @canonical_request_path ref_percent p = Ok cp ∧
    prefix_matches "/v1/admin/x" cp = true ∧
    Forall (beaten (@server_candidate ref_percent "GET" "/v1/admin/x" "spiffe://client.example/w") true (String.length cp)) l1 ∧
    Forall (beaten (@server_candidate ref_percent "GET" "/v1/admin/x" "spiffe://client.example/w") false (String.length cp)) l2.
Proof.
  apply (@find_server_route_most_specific ref_percent wit_routes "GET" "/v1/%61dmin/x"
    "spiffe://client.example/w"
    {| rm_route := wit_route "admin" "/local/admin" "/v1/admin" "spiffe://client.example/w";
       rm_upstream_path := "/v1/admin/x" |}).
  vm_compute. reflexivity.
Defined.

(** A server request is refused by routing only for a reason: its path is
    not canonical, a configured prefix is not canonical, or no route accepts the
    method, identity and path; and when no prefix is broken and some route
    accepts the request, a route is returned. *)
Theorem find_server_route_denial {PL : PercentLib} (routes : list RouteConfig)
    (method : Method) (path cid : string) :
  match find_server_route routes method path cid with
  | Err e =>
      canonical_request_path path = Err e ∨
      ∃ cpath, canonical_request_path path = Ok cpath ∧
        ((∃ r p, r ∈ routes ∧ rt_upstream_prefix r = Some p ∧ canonical_request_path p = Err e) ∨
         (e = "no server route matched" ∧
          Forall (λ r, server_candidate method cpath cid r = Ok None) routes))
  | Ok m => ∃ cpath r, canonical_request_path path = Ok cpath ∧ r ∈ routes ∧
      server_candidate method cpath cid r ≠ Ok None
  end.
Proof.
  unfold find_server_route. destruct (canonical_request_path path) as [cpath|e] eqn:Hc; simpl; [|by left].
  rewrite server_loop_best. destruct (best_loop _ _ _) as [[[n m]|]|e] eqn:Hb; simpl.
  - apply best_loop_Some in Hb as (l1 & r & l2 & -> & Hr & _ & _). exists cpath, r.
    split_and!; [done|set_solver|congruence].
  - right. exists cpath. split; [done|]. right. split; [done|]. by apply best_loop_None.
  - right. exists cpath. split; [done|]. left.
    apply best_loop_Err in Hb as (r & Hr & (p & Hp & He)%server_candidate_Err). by exists r, p.
Qed.

(** Client route selection is exact: the match is the first route with the
    longest canonical local prefix among those that accept method and path, and
    the forwarded path is the canonical request path rewritten to that route's
    upstream prefix (its local prefix when none is configured). *)
Theorem find_client_route_most_specific {PL : PercentLib} (routes : list RouteConfig)
    (method : Method) (path : string) (m : RouteMatch) :
  find_client_route routes method path = Ok m →
  ∃ cpath l1 l2 lp clp cup,
    canonical_request_path path = Ok cpath ∧
    routes = l1 ++ rm_route m :: l2 ∧
    method ∈ rt_methods (rm_route m) ∧
    rt_local_prefix (rm_route m) = Some lp ∧ canonical_request_path lp = Ok clp ∧
    prefix_matches cpath clp = true ∧
    canonical_request_path (unwrap_or clp (rt_upstream_prefix (rm_route m))) = Ok cup ∧
    rm_upstream_path m = rewrite_prefix cpath clp cup ∧
    Forall (beaten (client_candidate method cpath) true (String.length clp)) l1 ∧
    Forall (beaten (client_candidate method cpath) false (String.length clp)) l2.
Proof.
  intros (cpath & l1 & l2 & n & Hc & Hl & Hr & H1 & H2)%find_client_route_inv.
  apply client_candidate_Some in Hr as (Hm & lp & clp & cup & Hlp & Hcl & Hpm & Hcu & -> & Heq).
  exists cpath, l1, l2, lp, clp, cup. split_and!; try done. by rewrite Heq.
Qed.

Lemma find_client_route_most_specific_witness :
  ∃ cpath l1 l2 lp clp cup,
    @canonical_request_path ref_percent "/local/%61dmin/x" = Ok cpath ∧
    wit_routes = l1 ++ wit_route "admin" "/local/admin" "/v1/admin" "spiffe://client.example/w" :: l2 ∧
    "GET" ∈ ["GET"] ∧ Some "/local/admin" = Some lp ∧
    @canonical_request_path ref_percent lp = Ok clp ∧ prefix_matches cpath clp = true ∧
    @canonical_request_path ref_percent "/v1/admin" = Ok cup ∧
    "/v1/admin/x" = rewrite_prefix cpath clp cup ∧
    Forall (beaten (@client_candidate ref_percent "GET" cpath) true (String.length clp)) l1 ∧
    Forall (beaten (@client_candidate ref_percent "GET" cpath) false (String.length clp)) l2.
Proof.
  apply (@find_client_route_most_specific ref_percent wit_routes "GET" "/local/%61dmin/x"
    {| rm_route := wit_route "admin" "/local/admin" "/v1/admin" "spiffe://client.example/w";
       rm_upstream_path := "/v1/admin/x" |}).
  vm_compute. reflexivity.
Defined.
End Claims.
