(* ===== verification/RateLimit.v ===== *)
(** * The request rate limiter ([RequestRateLimiter] of [src/src/proxy.rs])

    A fixed-window counter per (identity, route) pair, kept in one map under a
    mutex and keyed by the identity, a NUL byte and the route id.  The clock
    reading [Instant::now()] is an argument.  The file gives the operation, an
    abstract limiter keyed by pairs that it refines, and the bounds a client can
    rely on. *)
From S2P Require Import Prelude RustStr Errors.
From Stdlib Require Import Ascii.
Local Open Scope N_scope.

(** [Instant]s are nanoseconds of a monotonic clock; [duration_since] saturates
    at zero, which is what subtraction on [N] does. *)
Definition Instant : Type := N.
Definition duration_since (now earlier : Instant) : N := now - earlier.
Definition as_secs (d : N) : N := d / 1000000000.

Record RateWindow : Type := { rw_started : Instant; rw_count : N }.

(** [rl_poisoned] is the poison flag of the mutex. *)
Record RequestRateLimiter : Type := {
  rl_windows : gmap string RateWindow;
  rl_poisoned : bool;
}.

Definition RequestRateLimiter_default : RequestRateLimiter :=
  {| rl_windows := ∅; rl_poisoned := false |}.

(** [u32] addition in release mode wraps. *)
Definition u32_bound : N := 2 ^ 32.
Definition u32_add (a b : N) : N := (a + b) mod u32_bound.

Definition NUL : ascii := ascii_of_N 0.
Definition rate_key (identity route_id : string) : string :=
  identity +:+ String NUL route_id.

Definition rate_check (self : RequestRateLimiter) (now : Instant)
    (identity route_id : string) (limit : N)
    : RequestRateLimiter * result ConnectorProblem unit :=
  if rl_poisoned self then (self, Err ConfigInvalid) else
  let key := rate_key identity route_id in
  let window := unwrap_or {| rw_started := now; rw_count := 0 |} (rl_windows self !! key) in
  let window :=
    if 60 <=? as_secs (duration_since now (rw_started window))
    then {| rw_started := now; rw_count := 0 |} else window in
  let store w := {| rl_windows := <[key := w]> (rl_windows self); rl_poisoned := false |} in
  if limit <=? rw_count window then (store window, Err RateLimited)
  else (store {| rw_started := rw_started window; rw_count := u32_add (rw_count window) 1 |}, Ok tt).

(** A run of calls with one configured limit: the clock reading, the identity
    and the route of each, in the order the mutex serialises them. *)
Definition Call : Type := Instant * string * string.

Fixpoint rate_run (self : RequestRateLimiter) (limit : N) (calls : list Call)
    : RequestRateLimiter * list (result ConnectorProblem unit) :=
  match calls with
  | [] => (self, [])
  | (now, identity, route_id) :: calls =>
      let '(self, r) := rate_check self now identity route_id limit in
      let '(self, rs) := rate_run self limit calls in
      (self, r :: rs)
  end.

(** The number of calls of a run that are let through for one key. *)
Fixpoint permitted (self : RequestRateLimiter) (limit : N) (key : string) (calls : list Call) : N :=
  match calls with
  | [] => 0
  | (now, identity, route_id) :: calls =>
      let '(self, r) := rate_check self now identity route_id limit in
      (if bool_decide (rate_key identity route_id = key) && is_ok r then 1 else 0)
      + permitted self limit key calls
  end.

(** ** The abstract limiter: one window per pair *)
Module Spec.
Definition state : Type := gmap (string * string) RateWindow.

(** The window a call finds: fresh when there is none or it is a minute old. *)
Definition current (now : Instant) (w : option RateWindow) : RateWindow :=
  match w with
  | Some w => if 60 <=? as_secs (now - rw_started w) then {| rw_started := now; rw_count := 0 |} else w
  | None => {| rw_started := now; rw_count := 0 |}
  end.

Definition check (s : state) (now : Instant) (identity route_id : string) (limit : N)
    : state * bool :=
  let w := current now (s !! (identity, route_id)) in
  if rw_count w <? limit
  then (<[(identity, route_id) := {| rw_started := rw_started w; rw_count := rw_count w + 1 |}]> s, true)
  else (<[(identity, route_id) := w]> s, false).
End Spec.

(** ** Invariant: the mutex is healthy and no window holds more than the limit *)
Definition rate_inv (limit : N) (self : RequestRateLimiter) : Prop :=
  rl_poisoned self = false ∧
  ∀ k w, rl_windows self !! k = Some w → rw_count w ≤ limit.

Lemma rate_inv_default limit : rate_inv limit RequestRateLimiter_default.
Proof. split; [done|]. intros k w. simpl. by rewrite lookup_empty. Qed.

(** The window of the called key after the check. *)
Lemma rate_check_spec self now i r limit self' res :
  rate_inv limit self → limit < u32_bound →
  rate_check self now i r limit = (self', res) →
  let w := Spec.current now (rl_windows self !! rate_key i r) in
  rl_poisoned self' = false ∧
  (res = Ok tt ∧ rw_count w < limit ∧
     rl_windows self' = <[rate_key i r := {| rw_started := rw_started w; rw_count := rw_count w + 1 |}]> (rl_windows self)
   ∨ res = Err RateLimited ∧ rw_count w = limit ∧
     rl_windows self' = <[rate_key i r := w]> (rl_windows self)).
Proof.
  intros [Hp Hinv] Hlim. unfold rate_check. rewrite Hp.
  set (w := Spec.current now (rl_windows self !! rate_key i r)).
  assert (Hw : (if 60 <=? as_secs (duration_since now (rw_started
      (unwrap_or {| rw_started := now; rw_count := 0 |} (rl_windows self !! rate_key i r))))
    then {| rw_started := now; rw_count := 0 |}
    else unwrap_or {| rw_started := now; rw_count := 0 |} (rl_windows self !! rate_key i r)) = w).
  { unfold w, Spec.current, duration_since. destruct (rl_windows self !! rate_key i r) as [w0|]; simpl; [done|].
    by rewrite N.sub_diag. }
  rewrite Hw. clear Hw.
  assert (Hle : rw_count w ≤ limit).
  { unfold w, Spec.current. destruct (rl_windows self !! rate_key i r) as [w0|] eqn:E; simpl; [|lia].
    case_match; simpl; [lia|by apply (Hinv (rate_key i r))]. }
  destruct (N.leb_spec limit (rw_count w)); intros [= <- <-]; simpl; split; try done.
  - right. split_and!; [done|lia|done].
  - left. split_and!; [done|lia|]. unfold u32_add. by rewrite N.mod_small by lia.
Qed.

Lemma current_le limit now self k :
  rate_inv limit self → rw_count (Spec.current now (rl_windows self !! k)) ≤ limit.
Proof.
  intros [_ Hinv]. unfold Spec.current. destruct (rl_windows self !! k) eqn:E; simpl; [|lia].
  case_match; simpl; [lia|by eapply Hinv].
Qed.

Lemma rate_check_inv self now i r limit :
  rate_inv limit self → limit < u32_bound → rate_inv limit (fst (rate_check self now i r limit)).
Proof.
  intros Hinv Hlim. destruct (rate_check _ _ _ _ _) as [self' res] eqn:E. simpl.
  apply rate_check_spec in E as (Hp & Hcase); [|done|done].
  pose proof (current_le limit now self (rate_key i r) Hinv) as Hle.
  split; [done|]. intros k w Hk. destruct Hinv as [_ Hinv].
  destruct Hcase as [(_ & Hlt & Hs)|(_ & Heq & Hs)]; rewrite Hs, lookup_insert in Hk;
    case_decide; simplify_eq/=; eauto; lia.
Qed.

(** Calls with another key leave a window alone. *)
Lemma rate_check_other self now i r limit k :
  rate_inv limit self → limit < u32_bound → rate_key i r ≠ k →
  rl_windows (fst (rate_check self now i r limit)) !! k = rl_windows self !! k.
Proof.
  intros Hinv Hlim Hne. destruct (rate_check _ _ _ _ _) as [self' res] eqn:E. simpl.
  apply rate_check_spec in E as (Hp & Hcase); [|done|done].
  destruct Hcase as [(_ & _ & ->)|(_ & _ & ->)]; by rewrite lookup_insert_ne.
Qed.

(** ** Budgets *)
Lemma permitted_in_window self limit k w calls :
  rate_inv limit self → limit < u32_bound → rl_windows self !! k = Some w →
  Forall (λ c : Call, as_secs (fst (fst c) - rw_started w) < 60) calls →
  permitted self limit k calls ≤ limit - rw_count w.
Proof.
  intros Hinv Hlim. revert self w Hinv.
  induction calls as [|[[now i] r] calls IH]; intros self w Hinv Hk HF; simpl; [lia|].
  inversion_clear HF as [|? ? Hnow HF']. simpl in Hnow.
  pose proof (rate_check_inv self now i r limit Hinv Hlim) as Hinv'.
  pose proof (rate_check_other self now i r limit k Hinv Hlim) as Hother.
  destruct (rate_check self now i r limit) as [self' res] eqn:E. simpl in *.
  case_bool_decide as Hkey; simpl.
  - subst k. apply rate_check_spec in E as (_ & Hcase); [|done|done].
    assert (Hcur : Spec.current now (rl_windows self !! rate_key i r) = w).
    { rewrite Hk. simpl. by destruct (N.leb_spec 60 (as_secs (now - rw_started w))); [lia|]. }
    rewrite Hcur in Hcase. destruct Hcase as [(-> & Hlt & Hs)|(-> & Heq & Hs)]; simpl.
    + specialize (IH self' {| rw_started := rw_started w; rw_count := rw_count w + 1 |} Hinv').
      simpl in IH. rewrite Hs, lookup_insert_eq in IH. specialize (IH eq_refl HF'). lia.
    + specialize (IH self' w Hinv'). rewrite Hs, lookup_insert_eq in IH.
      specialize (IH eq_refl HF'). lia.
  - rewrite N.add_0_l. apply IH; [done| |done]. by rewrite Hother.
Qed.

Lemma minute_apart t0 now started :
  t0 ≤ started → now < t0 + 60 * 1000000000 → as_secs (now - started) < 60.
Proof. intros H1 H2. unfold as_secs. apply N.Div0.div_lt_upper_bound. lia. Qed.

Lemma permitted_minute self limit k t0 calls :
  rate_inv limit self → limit < u32_bound →
  Forall (λ c : Call, t0 ≤ fst (fst c) ∧ fst (fst c) < t0 + 60 * 1000000000) calls →
  permitted self limit k calls ≤
    limit + match rl_windows self !! k with Some w => limit - rw_count w | None => 0 end.
Proof.
  intros Hinv Hlim. revert self Hinv.
  induction calls as [|[[now i] r] calls IH]; intros self Hinv HF; simpl; [lia|].
  inversion_clear HF as [|? ? [Hlo Hhi] HF']. simpl in Hlo, Hhi.
  pose proof (rate_check_inv self now i r limit Hinv Hlim) as Hinv'.
  pose proof (rate_check_other self now i r limit k Hinv Hlim) as Hother.
  destruct (rate_check self now i r limit) as [self' res] eqn:E. simpl in *.
  case_bool_decide as Hkey; simpl; [|rewrite <- Hother by done; rewrite N.add_0_l; by apply IH].
  subst k. apply rate_check_spec in E as (_ & Hcase); [|done|done].
  set (w := Spec.current now (rl_windows self !! rate_key i r)) in *.
  assert (Hw : rl_windows self !! rate_key i r = Some w ∨ w = {| rw_started := now; rw_count := 0 |}).
  { unfold w, Spec.current. destruct (rl_windows self !! rate_key i r); [|by right].
    case_match; [by right|by left]. }
  (* a window opened in this minute outlives it *)
  assert (Hnew : ∀ c, rl_windows self' !! rate_key i r = Some {| rw_started := now; rw_count := c |} →
    permitted self' limit (rate_key i r) calls ≤ limit - c).
  { intros c Hc. apply (permitted_in_window _ _ _ _ _ Hinv' Hlim Hc). simpl.
    eapply List.Forall_impl; [|exact HF']. intros [[n ?] ?] [? ?]; simpl in *. by eapply minute_apart. }
  destruct Hcase as [(-> & Hlt & Hs)|(-> & Heq & Hs)]; simpl; rewrite Hs, lookup_insert_eq in Hnew.
  - destruct Hw as [Hk|Hw0].
    + rewrite Hk. specialize (IH self' Hinv' HF'). rewrite Hs, lookup_insert_eq in IH. simpl in IH. lia.
    + rewrite Hw0 in Hnew. simpl in Hnew. specialize (Hnew 1 eq_refl).
      destruct (rl_windows self !! rate_key i r); rewrite Hw0 in Hlt; simpl in Hlt; lia.
  - destruct Hw as [Hk|Hw0].
    + rewrite Hk. specialize (IH self' Hinv' HF'). rewrite Hs, lookup_insert_eq in IH. simpl in IH. lia.
    + rewrite Hw0 in Hnew. specialize (Hnew 0 eq_refl). destruct (rl_windows self !! rate_key i r); lia.
Qed.

(** ** Keys *)
Lemma rate_key_inj i1 i2 r1 r2 :
  str_contains NUL i1 = false → str_contains NUL i2 = false →
  rate_key i1 r1 = rate_key i2 r2 → i1 = i2 ∧ r1 = r2.
Proof. apply str_app_sep_inj. Qed.

(** ** Properties *)
Module Claims.

(** A check never lets a window exceed the limit and never overflows the
    [u32] counter, whatever the clock readings and the order of the calls: the
    invariant holds of the empty limiter and every check keeps it. *)
Theorem rate_limiter_invariant (limit : N) (calls : list Call) :
  limit < u32_bound →
  rate_inv limit (fst (rate_run RequestRateLimiter_default limit calls)).
Proof.
  intros Hlim. generalize (rate_inv_default limit). generalize RequestRateLimiter_default.
  induction calls as [|[[now i] r] calls IH]; intros self Hinv; simpl; [done|].
  pose proof (rate_check_inv self now i r limit Hinv Hlim) as Hinv'.
  destruct (rate_check self now i r limit) as [self' res]. simpl in Hinv'.
  specialize (IH self' Hinv'). by destruct (rate_run self' limit calls).
Qed.

Lemma rate_limiter_invariant_witness :
  rate_inv 2 (fst (rate_run RequestRateLimiter_default 2
    [(5, "spiffe://a/b", "r"); (6, "spiffe://a/b", "r"); (7, "spiffe://a/b", "r")])).
Proof. apply rate_limiter_invariant. vm_compute. reflexivity. Defined.

(** C29: The limiter refines the abstract one that keeps a window per
    (identity, route) pair: from states that agree on the identities without a
    NUL byte, a check of such an identity answers as the abstract limiter does and
    leads to states that agree again. *)
Theorem rate_check_refines_spec (self : RequestRateLimiter) (s : Spec.state) (limit : N)
    (now : Instant) (identity route_id : string) :
  let agree (self : RequestRateLimiter) (s : Spec.state) :=
    ∀ i r, str_contains NUL i = false → rl_windows self !! rate_key i r = s !! (i, r) in
  rate_inv limit self → limit < u32_bound → agree self s → str_contains NUL identity = false →
  let '(self', res) := rate_check self now identity route_id limit in
  let '(s', ok) := Spec.check s now identity route_id limit in
  agree self' s' ∧ is_ok res = ok ∧ rate_inv limit self'.
Proof.
  intros agree Hinv Hlim Hag Hid.
  pose proof (rate_check_inv self now identity route_id limit Hinv Hlim) as Hinv'.
  destruct (rate_check self now identity route_id limit) as [self' res] eqn:E.
  apply rate_check_spec in E as (_ & Hcase); [|done|done].
  rewrite (Hag _ _ Hid) in Hcase. unfold Spec.check. simpl in Hinv'.
  set (w := Spec.current now (s !! (identity, route_id))) in *.
  assert (Hagree : ∀ w', rl_windows self' = <[rate_key identity route_id := w']> (rl_windows self) →
    agree self' (<[(identity, route_id) := w']> s)).
  { intros w' Hs i r Hi. rewrite Hs.
    destruct (decide (rate_key identity route_id = rate_key i r)) as [Hk|Hk].
    - destruct (rate_key_inj _ _ _ _ Hid Hi Hk) as [-> ->]. 
      etrans; [apply lookup_insert_eq|symmetry; apply lookup_insert_eq].
    - rewrite lookup_insert_ne by done. etrans; [by apply Hag|].
      symmetry. apply lookup_insert_ne. congruence. }
  destruct Hcase as [(-> & Hlt & Hs)|(-> & Heq & Hs)].
  - destruct (N.ltb_spec (rw_count w) limit); [|lia]. split_and!; [by apply Hagree|done|done].
  - destruct (N.ltb_spec (rw_count w) limit); [lia|]. split_and!; [by apply Hagree|done|done].
Qed.

Lemma rate_check_refines_spec_witness :
  let agree (self : RequestRateLimiter) (s : Spec.state) :=
    ∀ i r, str_contains NUL i = false → rl_windows self !! rate_key i r = s !! (i, r) in
  let '(self', res) := rate_check RequestRateLimiter_default 7 "spiffe://a/b" "r" 2 in
  let '(s', ok) := Spec.check ∅ 7 "spiffe://a/b" "r" 2 in
  agree self' s' ∧ is_ok res = ok ∧ rate_inv 2 self'.
Proof.
  apply (rate_check_refines_spec RequestRateLimiter_default ∅ 2 7 "spiffe://a/b" "r").
  - apply rate_inv_default.
  - vm_compute; reflexivity.
  - intros i r _. reflexivity.
  - vm_compute; reflexivity.
Defined.

(** C6: What a client can get through: in any run of calls whose clock readings
    lie within one minute, one (identity, route) key is let through at most twice
    the limit from any reachable state, and at most the limit when its window did
    not exist before. *)
Theorem rate_limit_per_minute (self : RequestRateLimiter) (limit t0 : N) (key : string)
    (calls : list Call) :
  rate_inv limit self → limit < u32_bound →
  Forall (λ c : Call, t0 ≤ fst (fst c) ∧ fst (fst c) < t0 + 60 * 1000000000) calls →
  permitted self limit key calls ≤ 2 * limit ∧
  (rl_windows self !! key = None → permitted self limit key calls ≤ limit).
Proof.
  intros Hinv Hlim HF. pose proof (permitted_minute self limit key t0 calls Hinv Hlim HF) as H.
  destruct (rl_windows self !! key) eqn:E; split; [lia|discriminate|lia|]. intros _. lia.
Qed.

Lemma rate_limit_per_minute_witness :
  permitted RequestRateLimiter_default 2 (rate_key "a" "r")
    [(5, "a", "r"); (6, "a", "r"); (7, "b", "r"); (8, "a", "r")] ≤ 2 * 2 ∧
  (rl_windows RequestRateLimiter_default !! rate_key "a" "r" = None →
   permitted RequestRateLimiter_default 2 (rate_key "a" "r")
     [(5, "a", "r"); (6, "a", "r"); (7, "b", "r"); (8, "a", "r")] ≤ 2).
Proof.
  apply (rate_limit_per_minute RequestRateLimiter_default 2 5).
  - apply rate_inv_default.
  - vm_compute; reflexivity.
  - repeat constructor; simpl; lia.
Defined.

(** A client that stayed away for a minute, or was never seen, is let
    through when the limit is not zero, and starts a window of one request at
    that moment; the windows of all other keys are untouched. *)
Theorem rate_limit_recovers (self : RequestRateLimiter) (limit now : N) (identity route_id : string) :
  rate_inv limit self → 0 < limit → limit < u32_bound →
  (∀ w, rl_windows self !! rate_key identity route_id = Some w →
     60 ≤ as_secs (duration_since now (rw_started w))) →
  let '(self', res) := rate_check self now identity route_id limit in
  res = Ok tt ∧
  rl_windows self' = <[rate_key identity route_id := {| rw_started := now; rw_count := 1 |}]> (rl_windows self).
Proof.
  intros Hinv Hpos Hlim Hold. destruct (rate_check _ _ _ _ _) as [self' res] eqn:E.
  apply rate_check_spec in E as (_ & Hcase); [|done|done].
  assert (Hcur : Spec.current now (rl_windows self !! rate_key identity route_id) =
    {| rw_started := now; rw_count := 0 |}).
  { unfold Spec.current. destruct (rl_windows self !! _) as [w|]; [|done].
    specialize (Hold _ eq_refl). unfold duration_since in Hold.
    destruct (N.leb_spec 60 (as_secs (now - rw_started w))); [done|lia]. }
  rewrite Hcur in Hcase. destruct Hcase as [(-> & _ & ->)|(_ & Heq & _)]; [done|simpl in Heq; lia].
Qed.

Lemma rate_limit_recovers_witness :
  let '(self', res) := rate_check RequestRateLimiter_default 9 "a" "r" 1 in
  res = Ok tt ∧
  rl_windows self' = <[rate_key "a" "r" := {| rw_started := 9; rw_count := 1 |}]> ∅.
Proof.
  apply (rate_limit_recovers RequestRateLimiter_default 1 9 "a" "r").
  - apply rate_inv_default.
  - vm_compute; reflexivity.
  - vm_compute; reflexivity.
  - intros w Hw. discriminate Hw.
Defined.
End Claims.
