(* ===== verification/Identity.v ===== *)
(** * Certificates and peer identities ([src/src/identity.rs])

    Loading PEM files, the checks on leaf and CA certificates, and the extraction
    of the peer identity from a client certificate.  Clock readings are
    arguments. *)
From S2P Require Import Prelude RustStr External Reference Config.
From Stdlib Require Import Ascii.

Inductive EkUsage : Type := ClientAuth | ServerAuth.

Definition EkUsage_display (u : EkUsage) : string :=
  match u with ClientAuth => "clientAuth" | ServerAuth => "serverAuth" end.

Inductive IdentityKind : Type := UriSan | DnsSan.

Record PeerIdentity : Type := {
  pi_value : string;
  pi_kind : IdentityKind;
  pi_fingerprint_sha256 : string;
}.

Record CertificateSummary : Type := {
  cs_not_after : string;
  cs_not_after_system : SystemTime;
}.

(** [duration] in nanoseconds; [duration_since] fails when the certificate
    ended before [now]. *)
Definition expires_within (self : CertificateSummary) (now : SystemTime) (duration : N) : bool :=
  if (now <=? cs_not_after_system self)%Z
  then (cs_not_after_system self - now <=? Z.of_N duration)%Z
  else true.

(** [UNIX_EPOCH] plus or minus a number of seconds. *)
Definition as_system_time (unix : Z) : result string SystemTime :=
  if (0 <=? unix)%Z then Ok (0 + unix * 1000000000)%Z else Ok (0 - (- unix) * 1000000000)%Z.

Definition validate_time (cert : X509) (now : SystemTime) : result string unit :=
  not_before ← as_system_time (x_not_before cert);
  not_after ← as_system_time (x_not_after cert);
  if (now <? not_before)%Z then Err "certificate is not valid yet" else
  if (not_after <? now)%Z then Err "certificate is expired" else
  Ok tt.

Definition eku_matches (eku : ExtendedKeyUsage) (usage : EkUsage) : bool :=
  match usage with
  | ClientAuth => eku_client_auth eku
  | ServerAuth => eku_server_auth eku
  end.

Definition leaf_has_eku (cert : X509) (usage : EkUsage) : result string bool :=
  ext ← x_extended_key_usage cert;
  match ext with
  | None => Ok false
  | Some eku => Ok (eku_matches eku usage)
  end.

Section with_sha.
Context {SL : Sha256Lib}.
Definition sha256_hex (bytes : string) : string := hex_bytes (sha256_digest bytes).
End with_sha.

Section with_pki.
Context {SL : Sha256Lib} {PK : PkiLib}.

Definition load_certs (path : string) : result string (list Der) :=
  bytes ← fs_read path;
  map_err (λ err, "failed to parse certificate PEM: " +:+ err) (pem_certs bytes).

Definition load_private_key (path : string) : result string PrivateKey :=
  bytes ← fs_read path;
  key ← map_err (λ err, "failed to parse private key PEM: " +:+ err) (pem_private_key bytes);
  ok_or "private key PEM did not contain a supported private key" key.

Definition newline : string := String (ascii_of_N 10) EmptyString.

Definition read_identity_pem (cert key : string) : result string string :=
  out ← fs_read cert;
  k ← fs_read key;
  Ok (out +:+ (newline +:+ k)).

Definition read_ca_pem (path : string) : result string (list Der) :=
  bytes ← fs_read path;
  from_pem_bundle bytes.

Definition parse_cert_der (bytes : Der) : result string X509 :=
  map_err (λ err, "failed to parse certificate DER: " +:+ err) (x509_from_der bytes).

Definition validate_leaf_certificate (now : SystemTime) (cert_path key_path : string)
    (usage : EkUsage) : result string unit :=
  certs ← load_certs cert_path;
  match certs with
  | [] => Err "certificate file contains no certificates"
  | leaf :: _ =>
      key ← load_private_key key_path;
      _ ← map_err (λ err, "private key does not match certificate: " +:+ err)
            (with_single_cert certs key);
      cert ← parse_cert_der leaf;
      _ ← validate_time cert now;
      has ← leaf_has_eku cert usage;
      if negb has
      then Err ("leaf certificate must assert Extended Key Usage " +:+ EkUsage_display usage)
      else Ok tt
  end.

Definition validate_ca_certificate (now : SystemTime) (cert_path : string) : result string unit :=
  certs ← load_certs cert_path;
  match certs with
  | [] => Err "CA file contains no certificates"
  | [der] =>
      cert ← parse_cert_der der;
      _ ← validate_time cert now;
      bc ← x_basic_constraints_ca cert;
      match bc with
      | Some true =>
          ku ← x_key_cert_sign cert;
          match ku with
          | Some false => Err "trust anchor key usage does not allow certificate signing"
          | _ => Ok tt
          end
      | Some false => Err "trust anchor is not a CA certificate"
      | None => Err "trust anchor missing basic constraints"
      end
  | _ => Err "trust anchor PEM must contain exactly one CA certificate; use separate trust_anchors entries"
  end.

Definition load_single_ca_cert (path : string) : result string Der :=
  certs ← load_certs path;
  match certs with
  | [der] => Ok der
  | [] => Err "CA file contains no certificates"
  | _ => Err "trust anchor PEM must contain exactly one CA certificate; use separate trust_anchors entries"
  end.

Definition certificate_summary (cert_path : string) : result string CertificateSummary :=
  certs ← load_certs cert_path;
  first ← ok_or "certificate file contains no certificates" (head certs);
  cert ← parse_cert_der first;
  not_after_system ← as_system_time (x_not_after cert);
  Ok {| cs_not_after := unwrap_or "unknown" (format_rfc3339 not_after_system);
        cs_not_after_system := not_after_system |}.

(** The two loops over the general names, as the first name each of them
    returns. *)
Fixpoint first_spiffe_uri (names : list GeneralName) : option string :=
  match names with
  | [] => None
  | URI uri :: names => if starts_with "spiffe://" uri then Some uri else first_spiffe_uri names
  | _ :: names => first_spiffe_uri names
  end.
Fixpoint first_dns_name (names : list GeneralName) : option string :=
  match names with
  | [] => None
  | DNSName dns :: _ => Some dns
  | _ :: names => first_dns_name names
  end.

Definition extract_peer_identity_from_der (now : SystemTime) (cert_der : Der)
    (allow_dns_fallback : bool) : result string PeerIdentity :=
  cert ← parse_cert_der cert_der;
  _ ← validate_time cert now;
  has ← leaf_has_eku cert ClientAuth;
  if negb has then Err "client certificate missing clientAuth EKU" else
  let fingerprint := sha256_hex cert_der in
  san ← x_subject_alternative_name cert;
  names ← ok_or "certificate has no subject alternative name" san;
  match first_spiffe_uri names with
  | Some uri => Ok {| pi_value := uri; pi_kind := UriSan; pi_fingerprint_sha256 := fingerprint |}
  | None =>
      match (if allow_dns_fallback then first_dns_name names else None) with
      | Some dns => Ok {| pi_value := dns; pi_kind := DnsSan; pi_fingerprint_sha256 := fingerprint |}
      | None => Err "certificate has no acceptable URI SAN identity"
      end
  end.
End with_pki.

(** ** Lemmas *)
Definition valid_at (cert : X509) (now : SystemTime) : Prop :=
  (x_not_before cert * 1000000000 ≤ now ≤ x_not_after cert * 1000000000)%Z.

Lemma as_system_time_eq unix : as_system_time unix = Ok (unix * 1000000000)%Z.
Proof. unfold as_system_time. destruct (Z.leb_spec 0 unix); f_equal; lia. Qed.

Lemma validate_time_Ok cert now u : validate_time cert now = Ok u ↔ valid_at cert now.
Proof.
  unfold validate_time, valid_at. rewrite !as_system_time_eq. simpl. destruct u.
  destruct (Z.ltb_spec now (x_not_before cert * 1000000000)); [split; [discriminate|lia]|].
  destruct (Z.ltb_spec (x_not_after cert * 1000000000) now); [split; [discriminate|lia]|].
  by split; [lia|].
Qed.

Lemma leaf_has_eku_true cert usage :
  leaf_has_eku cert usage = Ok true ↔
  ∃ eku, x_extended_key_usage cert = Ok (Some eku) ∧ eku_matches eku usage = true.
Proof.
  unfold leaf_has_eku. destruct (x_extended_key_usage cert) as [[eku|]|]; simpl;
    [|refute_iff|refute_iff].
  split; [intros [= H]; by exists eku|intros; inv_all; congruence].
Qed.

Definition is_spiffe_uri (n : GeneralName) : bool :=
  match n with URI uri => starts_with "spiffe://" uri | _ => false end.
Definition is_dns_name (n : GeneralName) : bool :=
  match n with DNSName _ => true | _ => false end.

Lemma first_spiffe_uri_find names :
  first_spiffe_uri names =
  match find is_spiffe_uri names with Some (URI uri) => Some uri | _ => None end.
Proof. induction names as [|[uri|dns|] names IH]; simpl; [done| |done..]. by destruct (starts_with _ _). Qed.

Lemma first_spiffe_uri_Some names uri :
  first_spiffe_uri names = Some uri ↔
  ∃ l1 l2, names = l1 ++ URI uri :: l2 ∧ starts_with "spiffe://" uri = true ∧
    Forall (λ n, is_spiffe_uri n = false) l1.
Proof.
  induction names as [|n names IH].
  { split; [discriminate|]. intros ([|? ?] & l2 & ? & _); discriminate. }
  assert (Hskip : is_spiffe_uri n = false →
    (first_spiffe_uri (n :: names) = first_spiffe_uri names)).
  { destruct n; simpl; [|done..]. by intros ->. }
  destruct (is_spiffe_uri n) eqn:Hn.
  - destruct n as [u| |]; try discriminate. simpl in Hn |- *. rewrite Hn. split.
    + intros [= ->]. exists [], names. by split_and!.
    + intros ([|x l1] & l2 & Heq & Hs & HF); [by injection Heq as -> _|].
      injection Heq as <- _. inversion HF; subst. simpl in *. congruence.
  - rewrite (Hskip eq_refl), IH. split; intros (l1 & l2 & Heq & Hs & HF).
    + exists (n :: l1), l2. rewrite Heq. split_and!; auto.
    + destruct l1 as [|x l1]; injection Heq as -> Heq; [simpl in Hn; congruence|].
      inversion HF; subst. by exists l1, l2.
Qed.

Lemma first_spiffe_uri_None names :
  first_spiffe_uri names = None ↔ Forall (λ n, is_spiffe_uri n = false) names.
Proof.
  induction names as [|[uri|dns|] names IH]; simpl; [done|..].
  - destruct (starts_with "spiffe://" uri) eqn:E.
    + split; [discriminate|]. inversion 1; simpl in *; congruence.
    + rewrite IH. split; [by constructor|by inversion 1].
  - rewrite IH. split; [by constructor|by inversion 1].
  - rewrite IH. split; [by constructor|by inversion 1].
Qed.

Lemma first_dns_name_Some names dns :
  first_dns_name names = Some dns ↔
  ∃ l1 l2, names = l1 ++ DNSName dns :: l2 ∧ Forall (λ n, is_dns_name n = false) l1.
Proof.
  split.
  - induction names as [|[uri|d|] names IH]; simpl; [done|..].
    2:{ intros [= ->]. by exists [], names. }
    all: intros (l1 & l2 & -> & HF)%IH; eexists (_ :: l1), l2; split; [done|by constructor].
  - intros (l1 & l2 & -> & HF). induction HF as [|[uri|d|] l1 Hn _ IH]; done.
Qed.

Section extract.
Context {SL : Sha256Lib} {PK : PkiLib}.

Lemma extract_spec now der allow id :
  extract_peer_identity_from_der now der allow = Ok id ↔
  ∃ cert eku names,
    x509_from_der der = Ok cert ∧ valid_at cert now ∧
    x_extended_key_usage cert = Ok (Some eku) ∧ eku_client_auth eku = true ∧
    x_subject_alternative_name cert = Ok (Some names) ∧
    pi_fingerprint_sha256 id = sha256_hex der ∧
    (first_spiffe_uri names = Some (pi_value id) ∧ pi_kind id = UriSan ∨
     first_spiffe_uri names = None ∧ allow = true ∧
       first_dns_name names = Some (pi_value id) ∧ pi_kind id = DnsSan).
Proof.
  unfold extract_peer_identity_from_der, parse_cert_der. split.
  - intros (cert & Hc%map_err_Ok & H)%bind_Ok_inv.
    apply bind_Ok_inv in H as (u & Ht%validate_time_Ok & H).
    apply bind_Ok_inv in H as (has & He & H). destruct has; [|discriminate]. simpl in H.
    apply leaf_has_eku_true in He as (eku & He & Hm).
    apply bind_Ok_inv in H as (san & Hs & H).
    apply bind_Ok_inv in H as (names & Hn%ok_or_Ok & H). subst san.
    exists cert, eku, names. split_and!; try done;
      destruct (first_spiffe_uri names) eqn:Ef; try (injection H as <-); simpl; auto;
      destruct allow; try discriminate; destruct (first_dns_name names); try discriminate;
      injection H as <-; simpl; auto.
  - intros (cert & eku & names & Hc & Ht & He & Hm & Hs & Hf & Hcase).
    rewrite Hc. simpl. apply (validate_time_Ok _ _ tt) in Ht. rewrite Ht. simpl.
    assert (leaf_has_eku cert ClientAuth = Ok true) as -> by (apply leaf_has_eku_true; eauto).
    simpl. rewrite Hs. simpl. destruct id as [v k f]. simpl in *. subst f.
    destruct Hcase as [[-> ->]|(-> & -> & -> & ->)]; done.
Qed.

Lemma sha256_hex_fingerprint {SS : Sha256Spec} bytes :
  is_sha256_fingerprint (sha256_hex bytes) = true ∧
  to_ascii_lowercase (sha256_hex bytes) = sha256_hex bytes.
Proof.
  destruct (hex_bytes_spec (sha256_digest bytes)) as (Hl & Hh & Hlow).
  unfold is_sha256_fingerprint, sha256_hex. rewrite Hl, Hh, sha256_digest_length. done.
Qed.

Lemma validate_ca_Ok now path u :
  validate_ca_certificate now path = Ok u →
  ∃ der cert, load_certs path = Ok [der] ∧ x509_from_der der = Ok cert ∧ valid_at cert now ∧
    x_basic_constraints_ca cert = Ok (Some true) ∧
    (x_key_cert_sign cert = Ok None ∨ x_key_cert_sign cert = Ok (Some true)).
Proof.
  unfold validate_ca_certificate, parse_cert_der. intros (certs & Hl & H)%bind_Ok_inv.
  destruct certs as [|der [|? ?]]; try discriminate.
  apply bind_Ok_inv in H as (cert & Hc%map_err_Ok & H).
  apply bind_Ok_inv in H as ([] & Ht%validate_time_Ok & H).
  apply bind_Ok_inv in H as ([[]|] & Hb & H); try discriminate.
  apply bind_Ok_inv in H as (ku & Hk & H).
  exists der, cert. split_and!; try done. destruct ku as [[]|]; auto. discriminate.
Qed.
End extract.

Lemma expires_within_true self now d :
  expires_within self now d = true ↔ (cs_not_after_system self - now ≤ Z.of_N d)%Z.
Proof.
  unfold expires_within. destruct (Z.leb_spec now (cs_not_after_system self)); [apply Z.leb_le|].
  split; [lia|done].
Qed.

(** ** Properties *)
Module Claims.

(** C31: The peer identity is taken from the certificate by a fixed rule: it is
    extracted exactly when the certificate parses, is inside its validity period
    at the time of the request, carries the clientAuth usage and has subject
    alternative names; it is then the first SPIFFE URI among them, or, only when
    DNS fallback is enabled and there is no SPIFFE URI, the first DNS name; and it
    carries the fingerprint of the presented bytes. *)
Theorem extract_peer_identity_correct {SL : Sha256Lib} {PK : PkiLib} (now : SystemTime)
    (der : Der) (allow : bool) (id : PeerIdentity) :
  extract_peer_identity_from_der now der allow = Ok id ↔
  ∃ cert eku names,
    x509_from_der der = Ok cert ∧ valid_at cert now ∧
    x_extended_key_usage cert = Ok (Some eku) ∧ eku_client_auth eku = true ∧
    x_subject_alternative_name cert = Ok (Some names) ∧
    pi_fingerprint_sha256 id = sha256_hex der ∧
    ((∃ l1 l2, names = l1 ++ URI (pi_value id) :: l2 ∧
        starts_with "spiffe://" (pi_value id) = true ∧
        Forall (λ n, is_spiffe_uri n = false) l1) ∧ pi_kind id = UriSan ∨
     Forall (λ n, is_spiffe_uri n = false) names ∧ allow = true ∧
       (∃ l1 l2, names = l1 ++ DNSName (pi_value id) :: l2 ∧
          Forall (λ n, is_dns_name n = false) l1) ∧ pi_kind id = DnsSan).
Proof.
  rewrite extract_spec. setoid_rewrite <- first_dns_name_Some. setoid_rewrite <- first_spiffe_uri_Some.
  setoid_rewrite <- first_spiffe_uri_None. done.
Qed.

(** The deny list can name every certificate: the fingerprint the connector
    computes is 64 lower-case hexadecimal digits, which the configuration check
    accepts and lower-casing leaves alone. *)
Theorem sha256_hex_wellformed {SL : Sha256Lib} {SS : Sha256Spec} (bytes : string) :
  is_sha256_fingerprint (sha256_hex bytes) = true ∧
  to_ascii_lowercase (sha256_hex bytes) = sha256_hex bytes.
Proof. apply sha256_hex_fingerprint. Qed.

Lemma sha256_hex_wellformed_witness :
  is_sha256_fingerprint (@sha256_hex ref_sha256 "leaf") = true ∧
  to_ascii_lowercase (@sha256_hex ref_sha256 "leaf") = @sha256_hex ref_sha256 "leaf".
Proof. exact (@sha256_hex_wellformed ref_sha256 ref_sha256_spec "leaf"). Defined.
End Claims.
