(* ===== verification/Tls.v ===== *)
(** * TLS trust policy ([src/src/tls.rs])

    The server's trust policy is built from the configuration at start-up and
    consulted for every request: the presented chain must verify against the
    trust anchors bound to the identity it claims. *)
From S2P Require Import Prelude RustStr BTree Errors External Reference Config Identity.
From Stdlib Require Import Ascii.

Section tls.
Context {UL : UrlLib} {SL : Sha256Lib} {PK : PkiLib}.

(** The certificates the peer presented, leaf first. *)
Definition PeerCertificateChain : Type := list Der.

Record ServerTrustPolicy : Type := {
  tp_anchors_by_domain : gmap string RootCertStore;
  tp_anchors_by_dns_identity : gmap string RootCertStore;
  tp_denied_certificate_fingerprints_sha256 : gset string;
  tp_allow_dns_san_identity : bool;
}.

(** The [for path in paths] loop, with the store built so far. *)
Fixpoint root_store_loop (roots : RootCertStore) (paths : list string)
    : result ConnectorError RootCertStore :=
  match paths with
  | [] => Ok roots
  | path :: paths =>
      cert ← map_err Tls (load_single_ca_cert path);
      roots ← map_err (λ err, Tls ("invalid trust anchor '" +:+ path +:+ "': " +:+ err))
                (roots_add roots cert);
      root_store_loop roots paths
  end.

Definition root_store_from_paths (paths : list string) : result ConnectorError RootCertStore :=
  root_store_loop roots_empty paths.

(** The two loops of [from_config] over a map of paths, in key order. *)
Fixpoint anchors_loop (acc : gmap string RootCertStore) (entries : list (string * list string))
    : result ConnectorError (gmap string RootCertStore) :=
  match entries with
  | [] => Ok acc
  | (key, paths) :: entries =>
      roots ← root_store_from_paths paths;
      anchors_loop (<[key := roots]> acc) entries
  end.

Definition from_config (config : ConnectorConfig) : result ConnectorError ServerTrustPolicy :=
  anchors_by_domain ← anchors_loop ∅ (btree_map_iter (trust_domain_map config));
  anchors_by_dns_identity ← anchors_loop ∅ (btree_map_iter (dns_identity_map config));
  let denied : gset string :=
    match cf_client_trust config with
    | Some trust =>
        btree_collect (to_ascii_lowercase <$> ct_denied_certificate_fingerprints_sha256 trust)
    | None => ∅
    end in
  Ok {| tp_anchors_by_domain := anchors_by_domain;
        tp_anchors_by_dns_identity := anchors_by_dns_identity;
        tp_denied_certificate_fingerprints_sha256 := denied;
        tp_allow_dns_san_identity := cf_allow_dns_san_identity config |}.

Definition tls_spiffe_trust_domain (identity : string) : option string :=
  rest ← strip_prefix "spiffe://" identity;
  opt_filter (λ value, negb (str_is_empty value)) (head (split_char "/" rest)).

Definition verify_chain_against_roots (now : SystemTime) (roots : RootCertStore)
    (chain : list Der) : result string unit :=
  verifier ← verifier_build roots;
  match chain with
  | [] => Err "peer did not present a certificate"
  | leaf :: intermediates =>
      map_err (λ err, "peer certificate does not chain to bound trust domain anchor: " +:+ err)
        (verify_client_cert verifier leaf intermediates now)
  end.

(** The two readings of the clock while a peer is verified: [SystemTime::now()] for
    the leaf's validity and [UnixTime::now()] for the chain. *)
Record VerifyClock : Type := { vc_identity : SystemTime; vc_chain : SystemTime }.

Definition verify_peer (now : VerifyClock) (self : ServerTrustPolicy) (chain : PeerCertificateChain)
    : result string PeerIdentity :=
  leaf ← ok_or "peer did not present a certificate" (head chain);
  identity ← extract_peer_identity_from_der (vc_identity now) leaf (tp_allow_dns_san_identity self);
  if bool_decide (pi_fingerprint_sha256 identity ∈ tp_denied_certificate_fingerprints_sha256 self)
  then Err "peer certificate fingerprint is denied" else
  _ ← match tls_spiffe_trust_domain (pi_value identity) with
      | Some domain =>
          roots ← ok_or ("no trust anchor for trust domain '" +:+ domain +:+ "'")
                    (tp_anchors_by_domain self !! domain);
          verify_chain_against_roots (vc_chain now) roots chain
      | None =>
          if negb (tp_allow_dns_san_identity self)
          then Err "DNS SAN identity fallback is disabled" else
          roots ← ok_or ("no trust anchor is bound to DNS SAN identity '" +:+ pi_value identity +:+ "'")
                    (tp_anchors_by_dns_identity self !! pi_value identity);
          verify_chain_against_roots (vc_chain now) roots chain
      end;
  Ok identity.

Definition server_config (config : ConnectorConfig) : result ConnectorError ServerConfig :=
  identity ← ok_or (InvalidConfig "server mode requires server_identity") (cf_server_identity config);
  certs ← map_err Tls (load_certs (id_cert identity));
  key ← map_err Tls (load_private_key (id_key identity));
  trust ← ok_or (InvalidConfig "server mode requires client_trust") (cf_client_trust config);
  roots ← root_store_from_paths (ta_ca <$> ct_trust_anchors trust);
  verifier ← map_err (λ err, Tls ("client verifier setup failed: " +:+ err)) (verifier_build roots);
  map_err (λ err, Tls ("server identity setup failed: " +:+ err))
    (server_config_build verifier certs key).

Definition reqwest_mtls_client (identity : IdentityFiles) (trust_bundle : string) (timeout : N)
    : result ConnectorError HttpClient :=
  pem ← map_err Tls (read_identity_pem (id_cert identity) (id_key identity));
  identity ← map_err (λ err, Tls ("failed to load client identity for reqwest: " +:+ err))
               (identity_from_pem pem);
  roots ← map_err Tls (read_ca_pem trust_bundle);
  map_err (λ err, Tls ("failed to build mTLS client: " +:+ err))
    (client_build (timeout, identity, roots)).

(** ** Lemmas: the derived maps group the anchors by key *)
Definition domain_pairs (anchors : list TrustAnchorConfig) : list (string * string) :=
  (λ a, (ta_trust_domain a, ta_ca a)) <$> anchors.
Definition dns_pairs (anchors : list TrustAnchorConfig) : list (string * string) :=
  anchors ≫= λ a, (λ i, (i, ta_ca a)) <$> ta_dns_identities a.

Definition values_of (k : string) (l : list (string * string)) : list string :=
  snd <$> filter (λ p : string * string, p.1 = k) l.

Lemma values_of_cons k p l :
  values_of k (p :: l) = (if decide (p.1 = k) then [p.2] else []) ++ values_of k l.
Proof. unfold values_of. rewrite filter_cons. by case_decide. Qed.

Definition group (l : list (string * string)) (m : gmap string (list string)) :=
  fold_left (λ out p, entry_push p.1 p.2 out) l m.

Lemma group_lookup l m k :
  unwrap_or [] (group l m !! k) = unwrap_or [] (m !! k) ++ values_of k l ∧
  (is_Some (group l m !! k) ↔ is_Some (m !! k) ∨ values_of k l ≠ []).
Proof.
  revert m. induction l as [|[k' v] l IH]; intros m.
  { simpl. rewrite app_nil_r. split; [done|]. split; [by left|by intros [?|?]]. }
  simpl. destruct (IH (entry_push k' v m)) as [IH1 IH2]. rewrite IH1, IH2, values_of_cons.
  unfold entry_push. destruct (decide (k' = k)) as [->|Hne]; simpl.
  - rewrite lookup_insert_eq, decide_True by done. simpl. rewrite <- app_assoc.
    split; [done|]. split; [by right|by left].
  - by rewrite lookup_insert_ne, decide_False by done.
Qed.

Lemma group_empty l k paths :
  group l ∅ !! k = Some paths ↔ paths = values_of k l ∧ values_of k l ≠ [].
Proof.
  destruct (group_lookup l ∅ k) as [H1 H2]. rewrite lookup_empty in H1, H2. simpl in H1. split.
  - intros Hk. rewrite Hk in H1. simpl in H1. split; [done|].
    destruct H2 as [H2 _]. destruct H2 as [[? ?]|?]; [by rewrite Hk|done|done].
  - intros [-> Hne]. destruct H2 as [_ H2]. destruct (H2 (or_intror Hne)) as [p Hp].
    rewrite Hp in H1 |- *. simpl in H1. by subst.
Qed.

Lemma trust_domain_map_group config trust :
  cf_client_trust config = Some trust →
  trust_domain_map config = group (domain_pairs (ct_trust_anchors trust)) ∅.
Proof.
  intros Ht. unfold trust_domain_map. rewrite Ht. unfold group, domain_pairs.
  generalize (∅ : gmap string (list string)).
  induction (ct_trust_anchors trust) as [|a l IH]; intros m; simpl; [done|]. by rewrite IH.
Qed.

Lemma dns_identity_map_group config trust :
  cf_client_trust config = Some trust →
  dns_identity_map config = group (dns_pairs (ct_trust_anchors trust)) ∅.
Proof.
  intros Ht. unfold dns_identity_map. rewrite Ht. unfold group, dns_pairs.
  generalize (∅ : gmap string (list string)).
  induction (ct_trust_anchors trust) as [|a l IH]; intros m; simpl; [done|].
  rewrite fold_left_app, <- IH. f_equal. clear IH.
  revert m. induction (ta_dns_identities a) as [|i ids IH]; intros m; simpl; [done|]. by rewrite IH.
Qed.

Lemma derived_maps_empty config :
  cf_client_trust config = None → trust_domain_map config = ∅ ∧ dns_identity_map config = ∅.
Proof. intros H. unfold trust_domain_map, dns_identity_map. by rewrite H. Qed.

Lemma anchors_loop_lookup acc entries res k roots :
  anchors_loop acc entries = Ok res → res !! k = Some roots →
  acc !! k = Some roots ∨
  ∃ paths, (k, paths) ∈ entries ∧ root_store_from_paths paths = Ok roots.
Proof.
  revert acc. induction entries as [|[k' paths] entries IH]; simpl; intros acc.
  { intros [= ->]. by left. }
  intros (r & Hr & H)%bind_Ok_inv Hk. destruct (IH _ H Hk) as [Ha|(p & Hp & Hr')].
  - rewrite lookup_insert in Ha. case_decide; simplify_eq; [|by left].
    right. exists paths. split; [by left|done].
  - right. exists p. split; [by right|done].
Qed.

(** The CA files bound to an identity: those of the anchors of its trust domain
    for a SPIFFE identity, those of the anchors that list it for a DNS one. *)
Definition bound_cas (trust : ClientTrustConfig) (identity : string) : list string :=
  match spiffe_trust_domain identity with
  | Some domain => values_of domain (domain_pairs (ct_trust_anchors trust))
  | None => values_of identity (dns_pairs (ct_trust_anchors trust))
  end.

Lemma elem_of_values_of k v l : v ∈ values_of k l ↔ (k, v) ∈ l.
Proof.
  unfold values_of. rewrite list_elem_of_fmap. setoid_rewrite list_elem_of_filter. split.
  - intros ([k' v'] & -> & <- & H). done.
  - intros H. by exists (k, v).
Qed.

Lemma elem_of_bound_cas trust identity ca :
  ca ∈ bound_cas trust identity ↔
  ∃ a, a ∈ ct_trust_anchors trust ∧ ta_ca a = ca ∧
    match spiffe_trust_domain identity with
    | Some domain => ta_trust_domain a = domain
    | None => identity ∈ ta_dns_identities a
    end.
Proof.
  unfold bound_cas. destruct (spiffe_trust_domain identity) as [d|]; rewrite elem_of_values_of.
  - unfold domain_pairs. rewrite list_elem_of_fmap. split.
    + intros (a & [= -> ->] & Ha). by exists a.
    + intros (a & Ha & <- & <-). by exists a.
  - unfold dns_pairs. rewrite list_elem_of_bind. split.
    + intros (a & (i & [= -> ->] & Hi)%list_elem_of_fmap & Ha). by exists a.
    + intros (a & Ha & <- & Hi). exists a. split; [|done].
      apply list_elem_of_fmap. by exists identity.
Qed.

(** What the two anchor maps of a built policy hold. *)
Lemma from_config_anchors config pol :
  from_config config = Ok pol →
  tp_allow_dns_san_identity pol = cf_allow_dns_san_identity config ∧
  (∀ d roots, tp_anchors_by_domain pol !! d = Some roots →
     ∃ trust, cf_client_trust config = Some trust ∧
       let paths := values_of d (domain_pairs (ct_trust_anchors trust)) in
       paths ≠ [] ∧ root_store_from_paths paths = Ok roots) ∧
  (∀ i roots, tp_anchors_by_dns_identity pol !! i = Some roots →
     ∃ trust, cf_client_trust config = Some trust ∧
       let paths := values_of i (dns_pairs (ct_trust_anchors trust)) in
       paths ≠ [] ∧ root_store_from_paths paths = Ok roots).
Proof.
  unfold from_config. intros (bd & Hbd & H)%bind_Ok_inv.
  apply bind_Ok_inv in H as (bi & Hbi & [= <-]). simpl. split; [done|]. split; intros k roots Hk.
  - eapply anchors_loop_lookup in Hk as [?|(paths & Hp & Hr)]; [by rewrite lookup_empty in *| |exact Hbd].
    apply elem_of_btree_map_iter in Hp. destruct (cf_client_trust config) as [trust|] eqn:Et;
      [|by rewrite (proj1 (derived_maps_empty _ Et)) in Hp].
    exists trust. split; [done|]. rewrite (trust_domain_map_group _ _ Et) in Hp.
    apply group_empty in Hp as [-> ?]. done.
  - eapply anchors_loop_lookup in Hk as [?|(paths & Hp & Hr)]; [by rewrite lookup_empty in *| |exact Hbi].
    apply elem_of_btree_map_iter in Hp. destruct (cf_client_trust config) as [trust|] eqn:Et;
      [|by rewrite (proj2 (derived_maps_empty _ Et)) in Hp].
    exists trust. split; [done|]. rewrite (dns_identity_map_group _ _ Et) in Hp.
    apply group_empty in Hp as [-> ?]. done.
Qed.

Lemma from_config_denied config pol trust f :
  from_config config = Ok pol → cf_client_trust config = Some trust →
  f ∈ ct_denied_certificate_fingerprints_sha256 trust →
  to_ascii_lowercase f ∈ tp_denied_certificate_fingerprints_sha256 pol.
Proof.
  unfold from_config. intros (bd & Hbd & H)%bind_Ok_inv Ht Hf.
  apply bind_Ok_inv in H as (bi & Hbi & [= <-]). simpl. rewrite Ht.
  apply elem_of_list_to_set, list_elem_of_fmap. by exists f.
Qed.

Lemma verify_chain_Ok now roots chain u :
  verify_chain_against_roots now roots chain = Ok u →
  ∃ verifier leaf rest, chain = leaf :: rest ∧ verifier_build roots = Ok verifier ∧
    verify_client_cert verifier leaf rest now = Ok tt.
Proof.
  unfold verify_chain_against_roots. intros (v & Hv & H)%bind_Ok_inv. destruct chain as [|leaf rest]; [done|].
  destruct u. apply map_err_Ok in H. by exists v, leaf, rest.
Qed.

(** Everything an accepted peer has passed. *)
Lemma verify_peer_inv config pol now chain id :
  from_config config = Ok pol → verify_peer now pol chain = Ok id →
  ∃ trust leaf rest roots verifier,
    cf_client_trust config = Some trust ∧ chain = leaf :: rest ∧
    extract_peer_identity_from_der (vc_identity now) leaf (cf_allow_dns_san_identity config) = Ok id ∧
    (∀ f, f ∈ ct_denied_certificate_fingerprints_sha256 trust →
       to_ascii_lowercase f ≠ sha256_hex leaf) ∧
    bound_cas trust (pi_value id) ≠ [] ∧
    root_store_from_paths (bound_cas trust (pi_value id)) = Ok roots ∧
    verifier_build roots = Ok verifier ∧ verify_client_cert verifier leaf rest (vc_chain now) = Ok tt ∧
    (spiffe_trust_domain (pi_value id) = None → cf_allow_dns_san_identity config = true).
Proof.
  intros Hp. destruct (from_config_anchors _ _ Hp) as (Hallow & Hdom & Hdns).
  unfold verify_peer. intros (leaf & Hleaf%ok_or_Ok & H)%bind_Ok_inv.
  apply bind_Ok_inv in H as (i & Hi & H). case_bool_decide as Hd; [done|].
  apply bind_Ok_inv in H as (u & Hv & [= ->]).
  destruct chain as [|c rest]; [done|]. injection Hleaf as ->.
  assert (Hfp : pi_fingerprint_sha256 id = sha256_hex leaf).
  { apply extract_spec in Hi as (? & ? & ? & _ & _ & _ & _ & _ & ? & _). done. }
  rewrite Hallow in Hi.
  assert (Hroots : ∃ trust roots, cf_client_trust config = Some trust ∧
    bound_cas trust (pi_value id) ≠ [] ∧ root_store_from_paths (bound_cas trust (pi_value id)) = Ok roots ∧
    verify_chain_against_roots (vc_chain now) roots (leaf :: rest) = Ok u ∧
    (spiffe_trust_domain (pi_value id) = None → cf_allow_dns_san_identity config = true)).
  { unfold bound_cas. change (tls_spiffe_trust_domain (pi_value id))
      with (spiffe_trust_domain (pi_value id)) in Hv.
    destruct (spiffe_trust_domain (pi_value id)) as [d|].
    - apply bind_Ok_inv in Hv as (roots & Hr%ok_or_Ok & Hv).
      apply Hdom in Hr as (trust & ? & ? & ?). by exists trust, roots.
    - destruct (tp_allow_dns_san_identity pol) eqn:Ea; [|done]. simpl in Hv.
      apply bind_Ok_inv in Hv as (roots & Hr%ok_or_Ok & Hv).
      apply Hdns in Hr as (trust & ? & ? & ?). by exists trust, roots. }
  destruct Hroots as (trust & roots & Ht & Hne & Hr & Hc & Hn).
  apply verify_chain_Ok in Hc as (v & l & r & [= <- <-] & Hb & Hver).
  exists trust, leaf, rest, roots, v. split_and!; try done.
  intros f Hf Heq. apply Hd. rewrite Hfp, <- Heq. by eapply from_config_denied.
Qed.
End tls.

(** ** Properties *)
Module Claims.

(** A server configuration with one SPIFFE anchor, for the witnesses. *)
Definition wit_trust : ClientTrustConfig := {|
  ct_allowed_identities := ["spiffe://client.example/w"];
  ct_trust_anchors := [{| ta_ca := "ca"; ta_trust_domain := "client.example"; ta_dns_identities := [] |}];
  ct_denied_certificate_fingerprints_sha256 := [];
  ct_trust_context_entitlements := [] |}.
Definition wit_config : @ConnectorConfig ref_url := {|
  cf_listen := Tcp {| sa_ip := V4 127 0 0 1; sa_port := 9443 |};
  cf_server := None; cf_client_identity := None;
  cf_defaults := {| df_data_purpose := None |};
  cf_audit := {| au_hash_secret_env := None; au_allow_unkeyed_hashing := true |};
  cf_limits := LimitsConfig_default; cf_routes := [];
  cf_server_identity := None; cf_client_trust := Some wit_trust; cf_upstream := None;
  cf_allow_non_loopback_client_listen := false; cf_allow_dns_san_identity := false;
  cf_connector_id := None |}.

(** C4: A peer the server accepts has proved its identity: with the policy built
    from the configuration, an accepted chain has a leaf whose certificate yields
    the identity, whose fingerprint equals no entry of the deny list in whatever
    letter case it is written, and which verifies, with the intermediates it came
    with, against exactly the non-empty set of CAs the configuration binds to that
    identity (by trust domain for SPIFFE, by name for DNS, the latter only when
    DNS identities are enabled). *)
Theorem verify_peer_sound {UL : UrlLib} {SL : Sha256Lib} {PK : PkiLib}
    (config : ConnectorConfig) (pol : ServerTrustPolicy) (now : VerifyClock)
    (chain : PeerCertificateChain) (id : PeerIdentity) :
  from_config config = Ok pol → verify_peer now pol chain = Ok id →
  ∃ trust leaf rest roots verifier,
    cf_client_trust config = Some trust ∧ chain = leaf :: rest ∧
    extract_peer_identity_from_der (vc_identity now) leaf (cf_allow_dns_san_identity config) = Ok id ∧
    (∀ f, f ∈ ct_denied_certificate_fingerprints_sha256 trust →
       to_ascii_lowercase f ≠ sha256_hex leaf) ∧
    bound_cas trust (pi_value id) ≠ [] ∧
    root_store_from_paths (bound_cas trust (pi_value id)) = Ok roots ∧
    verifier_build roots = Ok verifier ∧ verify_client_cert verifier leaf rest (vc_chain now) = Ok tt ∧
    (spiffe_trust_domain (pi_value id) = None → cf_allow_dns_san_identity config = true).
Proof. apply verify_peer_inv. Qed.

Definition wit_policy : @ServerTrustPolicy ref_pki := {|
  tp_anchors_by_domain := {[ "client.example" := (["ca"] : @RootCertStore ref_pki) ]};
  tp_anchors_by_dns_identity := ∅;
  tp_denied_certificate_fingerprints_sha256 := ∅;
  tp_allow_dns_san_identity := false |}.
Definition wit_identity : PeerIdentity := {|
  pi_value := "spiffe://client.example/w"; pi_kind := UriSan;
  pi_fingerprint_sha256 := @sha256_hex ref_sha256 "leaf" |}.

Lemma verify_peer_sound_witness :
  ∃ trust leaf rest roots verifier,
    Some wit_trust = Some trust ∧ ["leaf"; "ca"] = leaf :: rest ∧
    @extract_peer_identity_from_der ref_sha256 ref_pki 5%Z leaf false = Ok wit_identity ∧
    (∀ f, f ∈ ct_denied_certificate_fingerprints_sha256 trust →
       to_ascii_lowercase f ≠ @sha256_hex ref_sha256 leaf) ∧
    bound_cas trust "spiffe://client.example/w" ≠ [] ∧
    @root_store_from_paths ref_pki (bound_cas trust "spiffe://client.example/w") = Ok roots ∧
    @verifier_build ref_pki roots = Ok verifier ∧
    @verify_client_cert ref_pki verifier leaf rest 6%Z = Ok tt ∧
    (spiffe_trust_domain "spiffe://client.example/w" = None → false = true).
Proof.
  apply (@verify_peer_sound ref_url ref_sha256 ref_pki wit_config wit_policy
    {| vc_identity := 5%Z; vc_chain := 6%Z |} ["leaf"; "ca"] wit_identity);
    vm_compute; reflexivity.
Defined.
End Claims.
