(* ===== verification/PolicyHash.v ===== *)
(** * The route policy hash ([push_hash_field], [route_purpose_policy_hash] of
    [src/src/proxy.rs], [PolicyHashCache] of [src/src/config.rs])

    A route's policy hash is the SHA-256 of a canonical text of the fields of the
    route, cached per route together with the text it was computed from.  The
    caches are cells of a store, since they are mutated through shared references
    to the configuration.  The file proves that the text commits to exactly the
    route's policy (two routes have the same text only when they have the same
    policy), and that caching is invisible. *)
From S2P Require Import Prelude RustStr BTree External Reference Config Identity Routing.
From stdpp Require pretty.
From Stdlib Require Import Ascii.

(** ** The cache

    The content of the mutex.  The lock is only ever held by [get_or_compute],
    which cannot panic while it holds it, so the mutex is never poisoned. *)
Definition PolicyHashCache : Type := option (string * string).
Abbreviation CacheStore := (gmap nat (string * string)).

Definition get_or_compute (cached : PolicyHashCache) (material : string)
    (compute : string → string) : PolicyHashCache * string :=
  let miss := let hash := compute material in (Some (material, hash), hash) in
  match cached with
  | Some (cached_material, cached_hash) =>
      if String.eqb cached_material material then (cached, cached_hash) else miss
  | None => miss
  end.

(** The call through a route's reference to its cell. *)
Definition get_or_compute_at (store : CacheStore) (loc : CacheLoc) (material : string)
    (compute : string → string) : CacheStore * string :=
  let '(cell, hash) := get_or_compute (store !! loc) material compute in
  (partial_alter (λ _, cell) loc store, hash).

(** ** The material *)
Definition push_hash_field (material name value : string) : string :=
  material +:+ name +:+ ":" +:+ u64_to_string (N.of_nat (String.length value)) +:+ ":"
    +:+ value +:+ newline.

(** [for value in set { push_hash_field(&mut material, name, value) }]. *)
Definition push_hash_fields (material name : string) (values : gset string) : string :=
  fold_left (λ material value, push_hash_field material name value) (btree_iter values) material.

Definition bool_str (b : bool) : string := if b then "true" else "false".
Definition opt_str (o : option string) : string := unwrap_or EmptyString o.
Definition opt_u64_str (o : option N) : string := unwrap_or EmptyString (u64_to_string <$> o).

Definition governed_material (material : string) (policy : GovernedRoutePolicyConfig) : string :=
  let material := push_hash_field material "governed_policy" "true" in
  let material := push_hash_field material "governed_minimum_assurance"
    (opt_str (gp_minimum_assurance policy)) in
  let material := push_hash_field material "governed_max_source_age_seconds"
    (opt_u64_str (gp_max_source_age_seconds policy)) in
  let material := push_hash_field material "governed_require_legal_basis"
    (bool_str (gp_require_legal_basis policy)) in
  let material := push_hash_field material "governed_require_consent"
    (bool_str (gp_require_consent policy)) in
  let material := push_hash_fields material "governed_permitted_purpose"
    (btree_collect (gp_permitted_purposes policy)) in
  let material := push_hash_fields material "governed_permitted_jurisdiction"
    (btree_collect (gp_permitted_jurisdictions policy)) in
  let material := push_hash_fields material "governed_allowed_assurance"
    (btree_collect (gp_allowed_assurance policy)) in
  let material := push_hash_fields material "governed_redaction_field"
    (btree_collect (gp_redaction_fields policy)) in
  let material := push_hash_fields material "governed_unsupported_odrl_term"
    (btree_collect (gp_unsupported_odrl_terms policy)) in
  let context := gp_trusted_context policy in
  let material := push_hash_field material "trusted_jurisdiction"
    (opt_str (tc_jurisdiction context)) in
  let material := push_hash_field material "trusted_asserted_assurance"
    (opt_str (tc_asserted_assurance context)) in
  let material := push_hash_field material "trusted_legal_basis_ref"
    (opt_str (tc_legal_basis_ref context)) in
  let material := push_hash_field material "trusted_consent_ref"
    (opt_str (tc_consent_ref context)) in
  push_hash_field material "trusted_source_observed_age_seconds"
    (opt_u64_str (tc_source_observed_age_seconds context)).

Definition policy_material (route : RouteConfig) : string :=
  let material := EmptyString in
  let material := push_hash_field material "schema" "route-purpose-policy-v3" in
  let material := push_hash_field material "route_id" (rt_id route) in
  let material := push_hash_field material "client_identity"
    (trim (opt_str (rt_client_identity route))) in
  let material := push_hash_fields material "client_identity"
    (btree_collect (List.filter (λ identity, negb (str_is_empty identity))
      (trim <$> rt_client_identities route))) in
  let material := push_hash_field material "local_prefix" (opt_str (rt_local_prefix route)) in
  let material := push_hash_field material "upstream_prefix" (opt_str (rt_upstream_prefix route)) in
  let material := push_hash_field material "require_purpose" (bool_str (rt_require_purpose route)) in
  let material := push_hash_fields material "method" (btree_collect (rt_methods route)) in
  let material := push_hash_fields material "purpose" (btree_collect (rt_purposes route)) in
  match rt_governed_policy route with
  | Some policy => governed_material material policy
  | None => material
  end.

Section hash.
Context {SL : Sha256Lib}.

Definition policy_hash_of (material : string) : string := "sha256:" +:+ sha256_hex material.

Definition route_purpose_policy_hash (store : CacheStore) (route_match : RouteMatch)
    : CacheStore * string :=
  let route := rm_route route_match in
  get_or_compute_at store (rt_policy_hash route) (policy_material route) policy_hash_of.
End hash.

(** ** Fields and their text

    [encode] is the text of a list of fields; the material is the text of the
    fields of a route. *)
Definition field : Type := string * string.
Definition encode_field (f : field) : string := push_hash_field EmptyString (fst f) (snd f).
Fixpoint encode (fs : list field) : string :=
  match fs with
  | [] => EmptyString
  | f :: fs => encode_field f +:+ encode fs
  end.

Definition repeat_fields (name : string) (X : gset string) : list field :=
  pair name <$> btree_iter X.

Definition governed_fields (p : GovernedRoutePolicyConfig) : list field :=
  let c := gp_trusted_context p in
  [("governed_policy", "true");
   ("governed_minimum_assurance", opt_str (gp_minimum_assurance p));
   ("governed_max_source_age_seconds", opt_u64_str (gp_max_source_age_seconds p));
   ("governed_require_legal_basis", bool_str (gp_require_legal_basis p));
   ("governed_require_consent", bool_str (gp_require_consent p))]
  ++ repeat_fields "governed_permitted_purpose" (btree_collect (gp_permitted_purposes p))
  ++ repeat_fields "governed_permitted_jurisdiction" (btree_collect (gp_permitted_jurisdictions p))
  ++ repeat_fields "governed_allowed_assurance" (btree_collect (gp_allowed_assurance p))
  ++ repeat_fields "governed_redaction_field" (btree_collect (gp_redaction_fields p))
  ++ repeat_fields "governed_unsupported_odrl_term" (btree_collect (gp_unsupported_odrl_terms p))
  ++ [("trusted_jurisdiction", opt_str (tc_jurisdiction c));
      ("trusted_asserted_assurance", opt_str (tc_asserted_assurance c));
      ("trusted_legal_basis_ref", opt_str (tc_legal_basis_ref c));
      ("trusted_consent_ref", opt_str (tc_consent_ref c));
      ("trusted_source_observed_age_seconds", opt_u64_str (tc_source_observed_age_seconds c))].

Definition extra_identities (r : RouteConfig) : gset string :=
  btree_collect (List.filter (λ identity, negb (str_is_empty identity)) (trim <$> rt_client_identities r)).

Definition route_fields (r : RouteConfig) : list field :=
  [("schema", "route-purpose-policy-v3"); ("route_id", rt_id r);
   ("client_identity", trim (opt_str (rt_client_identity r)))]
  ++ repeat_fields "client_identity" (extra_identities r)
  ++ [("local_prefix", opt_str (rt_local_prefix r));
      ("upstream_prefix", opt_str (rt_upstream_prefix r));
      ("require_purpose", bool_str (rt_require_purpose r))]
  ++ repeat_fields "method" (btree_collect (rt_methods r))
  ++ repeat_fields "purpose" (btree_collect (rt_purposes r))
  ++ match rt_governed_policy r with Some p => governed_fields p | None => [] end.

Lemma encode_app fs gs : encode (fs ++ gs) = encode fs +:+ encode gs.
Proof. induction fs as [|f fs IH]; [done|]. simpl. by rewrite IH, str_app_assoc. Qed.

Lemma push_hash_field_encode fs n v :
  push_hash_field (encode fs) n v = encode (fs ++ [(n, v)]).
Proof. rewrite encode_app. simpl. by rewrite str_app_nil_r. Qed.

Lemma push_hash_fields_encode fs n X :
  push_hash_fields (encode fs) n X = encode (fs ++ repeat_fields n X).
Proof.
  unfold push_hash_fields, repeat_fields. revert fs.
  induction (btree_iter X) as [|v l IH]; intros fs; simpl; [by rewrite app_nil_r|].
  by rewrite push_hash_field_encode, IH, <- app_assoc.
Qed.

Lemma governed_material_encode fs p :
  governed_material (encode fs) p = encode (fs ++ governed_fields p).
Proof.
  unfold governed_material. repeat rewrite ?push_hash_field_encode, ?push_hash_fields_encode.
  apply (f_equal encode). rewrite <- !app_assoc. done.
Qed.

Lemma policy_material_encode r : policy_material r = encode (route_fields r).
Proof.
  unfold policy_material, route_fields. cbv zeta.
  change (push_hash_field EmptyString ?x) with (push_hash_field (encode []) x).
  repeat rewrite ?push_hash_field_encode, ?push_hash_fields_encode.
  destruct (rt_governed_policy r); rewrite ?governed_material_encode;
    apply (f_equal encode); rewrite <- !app_assoc; simpl; rewrite ?app_nil_r; done.
Qed.

(** ** Unique decodability *)
Definition good_name (f : field) : Prop := str_contains ":" (fst f) = false.

Lemma encode_field_unfold n v t :
  encode_field (n, v) +:+ t =
  n +:+ String ":" (u64_to_string (N.of_nat (String.length v)) +:+ String ":" (v +:+ newline +:+ t)).
Proof.
  unfold encode_field, push_hash_field. simpl. change (EmptyString +:+ ?x) with x.
  rewrite <- !str_app_assoc. rewrite !str_app_cons. done.
Qed.

Lemma u64_to_string_inj m n : u64_to_string m = u64_to_string n → m = n.
Proof. apply (inj (pretty.pretty (A:=N))). Qed.

Lemma encode_inj fs gs :
  Forall good_name fs → Forall good_name gs → encode fs = encode gs → fs = gs.
Proof.
  intros Hfs. revert gs. induction Hfs as [|[n v] fs Hn Hfs IH]; intros [|[m w] gs] Hgs; [done| | |].
  1,2: cbn [encode]; rewrite encode_field_unfold; first [by destruct m|by destruct n].
  inversion_clear Hgs as [|? ? Hm Hgs']. cbn [encode]. rewrite !encode_field_unfold. intros Heq.
  assert (Hdig : ∀ k, str_contains ":" (u64_to_string k) = false).
  { intros k. eapply bytes_all_contains; [apply u64_to_string_digits|done]. }
  apply str_app_sep_inj in Heq as [-> Heq]; [|done|done].
  apply str_app_sep_inj in Heq as [Hlen Heq]; [|done|done].
  apply u64_to_string_inj, Nat2N.inj in Hlen.
  apply str_app_length_inj in Heq as [-> Heq]; [|done].
  apply str_app_length_inj in Heq as [_ Heq]; [|done].
  by rewrite (IH gs).
Qed.

(** A run of fields of one name followed by something of another name. *)
Definition not_headed (n : string) (fs : list field) : Prop :=
  ∀ v gs, fs ≠ (n, v) :: gs.

Lemma repeat_fields_inj n X Y fs gs :
  not_headed n fs → not_headed n gs →
  repeat_fields n X ++ fs = repeat_fields n Y ++ gs → X = Y ∧ fs = gs.
Proof.
  intros Hf Hg Heq. assert (btree_iter X = btree_iter Y ∧ fs = gs) as [HX ->].
  { unfold repeat_fields in Heq. revert Heq. generalize (btree_iter X) (btree_iter Y).
    intros l. induction l as [|x l IH]; intros [|y k]; simpl; intros Heq.
    - done.
    - by apply Hf in Heq.
    - symmetry in Heq. by apply Hg in Heq.
    - injection Heq as -> Heq. by destruct (IH _ Heq) as [-> ->]. }
  split; [by apply btree_iter_inj|done].
Qed.

Lemma not_headed_repeat n m X fs : n ≠ m → not_headed n fs → not_headed n (repeat_fields m X ++ fs).
Proof.
  intros Hne Hfs v gs. unfold repeat_fields. destruct (btree_iter X) as [|x l]; simpl; [apply Hfs|].
  congruence.
Qed.

Lemma not_headed_cons n m v fs : n ≠ m → not_headed n ((m, v) :: fs).
Proof. intros Hne w gs. congruence. Qed.

Lemma not_headed_nil n : not_headed n [].
Proof. by intros v gs. Qed.

(** ** What the hash commits to

    The policy of a route, with collections as sets and an absent optional text
    identified with the empty one. *)
Record GovernedView : Type := {
  gv_minimum_assurance : string;
  gv_max_source_age_seconds : option N;
  gv_require_legal_basis : bool;
  gv_require_consent : bool;
  gv_permitted_purposes : gset string;
  gv_permitted_jurisdictions : gset string;
  gv_allowed_assurance : gset string;
  gv_redaction_fields : gset string;
  gv_unsupported_odrl_terms : gset string;
  gv_jurisdiction : string;
  gv_asserted_assurance : string;
  gv_legal_basis_ref : string;
  gv_consent_ref : string;
  gv_source_observed_age_seconds : option N;
}.

Record PolicyView : Type := {
  pv_id : string;
  pv_client_identity : string;
  pv_client_identities : gset string;
  pv_local_prefix : string;
  pv_upstream_prefix : string;
  pv_require_purpose : bool;
  pv_methods : gset string;
  pv_purposes : gset string;
  pv_governed : option GovernedView;
}.

Definition governed_view (p : GovernedRoutePolicyConfig) : GovernedView := {|
  gv_minimum_assurance := opt_str (gp_minimum_assurance p);
  gv_max_source_age_seconds := gp_max_source_age_seconds p;
  gv_require_legal_basis := gp_require_legal_basis p;
  gv_require_consent := gp_require_consent p;
  gv_permitted_purposes := list_to_set (gp_permitted_purposes p);
  gv_permitted_jurisdictions := list_to_set (gp_permitted_jurisdictions p);
  gv_allowed_assurance := list_to_set (gp_allowed_assurance p);
  gv_redaction_fields := list_to_set (gp_redaction_fields p);
  gv_unsupported_odrl_terms := list_to_set (gp_unsupported_odrl_terms p);
  gv_jurisdiction := opt_str (tc_jurisdiction (gp_trusted_context p));
  gv_asserted_assurance := opt_str (tc_asserted_assurance (gp_trusted_context p));
  gv_legal_basis_ref := opt_str (tc_legal_basis_ref (gp_trusted_context p));
  gv_consent_ref := opt_str (tc_consent_ref (gp_trusted_context p));
  gv_source_observed_age_seconds := tc_source_observed_age_seconds (gp_trusted_context p);
|}.

Definition policy_view (r : RouteConfig) : PolicyView := {|
  pv_id := rt_id r;
  pv_client_identity := trim (opt_str (rt_client_identity r));
  pv_client_identities := extra_identities r;
  pv_local_prefix := opt_str (rt_local_prefix r);
  pv_upstream_prefix := opt_str (rt_upstream_prefix r);
  pv_require_purpose := rt_require_purpose r;
  pv_methods := list_to_set (rt_methods r);
  pv_purposes := list_to_set (rt_purposes r);
  pv_governed := governed_view <$> rt_governed_policy r;
|}.

Lemma bool_str_inj b c : bool_str b = bool_str c → b = c.
Proof. by destruct b, c. Qed.

Lemma opt_u64_str_inj o p : opt_u64_str o = opt_u64_str p → o = p.
Proof.
  destruct o as [m|], p as [n|]; unfold opt_u64_str; simpl; intros H.
  - by apply u64_to_string_inj in H as ->.
  - by apply u64_to_string_ne in H.
  - symmetry in H. by apply u64_to_string_ne in H.
  - done.
Qed.

(** Peels one field, or one run of fields, off an equation of field lists. *)
Ltac next_run H :=
  apply repeat_fields_inj in H as [? H];
  [|repeat first [apply not_headed_nil | apply not_headed_cons; discriminate
                 | apply not_headed_repeat; [discriminate|]]..].

Lemma governed_fields_inj p q :
  governed_fields p = governed_fields q → governed_view p = governed_view q.
Proof.
  unfold governed_fields. simpl. intros H. injection H as Hmin Hage Hlb Hc H.
  do 5 next_run H. injection H as Hj Ha Hl Hco Hso.
  apply opt_u64_str_inj in Hage, Hso. apply bool_str_inj in Hlb, Hc.
  unfold governed_view. by f_equal.
Qed.

Lemma governed_view_fields p q :
  governed_view p = governed_view q → governed_fields p = governed_fields q.
Proof.
  unfold governed_view, governed_fields, btree_collect.
  by intros [= -> -> -> -> -> -> -> -> -> -> -> -> -> ->].
Qed.

Lemma not_headed_governed n r :
  n ≠ "governed_policy" →
  not_headed n match rt_governed_policy r with Some p => governed_fields p | None => [] end.
Proof. intros Hn. destruct (rt_governed_policy r); [by apply not_headed_cons|apply not_headed_nil]. Qed.

Lemma governed_opt_inj o p :
  match o with Some p => governed_fields p | None => [] end =
  match p with Some p => governed_fields p | None => [] end →
  governed_view <$> o = governed_view <$> p.
Proof.
  destruct o, p; simpl; [|discriminate..|done]. intros H. f_equal. by apply governed_fields_inj.
Qed.

Lemma route_fields_inj r s : route_fields r = route_fields s → policy_view r = policy_view s.
Proof.
  unfold route_fields. simpl. intros H. injection H as Hid Hci H.
  apply repeat_fields_inj in H as [Hx H]; [|by apply not_headed_cons..].
  injection H as Hl Hu Hr H.
  apply repeat_fields_inj in H as [Hm H];
    [|by apply not_headed_repeat; [|apply not_headed_governed]..].
  apply repeat_fields_inj in H as [Hp H]; [|by apply not_headed_governed..].
  apply governed_opt_inj in H. apply bool_str_inj in Hr.
  unfold policy_view. by f_equal.
Qed.

Lemma policy_view_fields r s : policy_view r = policy_view s → route_fields r = route_fields s.
Proof.
  unfold policy_view, route_fields. intros H. injection H as -> -> -> -> -> -> Hm Hp Hg.
  change (btree_collect (rt_methods r) = btree_collect (rt_methods s)) in Hm.
  change (btree_collect (rt_purposes r) = btree_collect (rt_purposes s)) in Hp.
  rewrite Hm, Hp. repeat f_equal.
  destruct (rt_governed_policy r), (rt_governed_policy s); try done.
  apply governed_view_fields. by apply (inj Some).
Qed.

Lemma good_names r : Forall good_name (route_fields r).
Proof.
  assert (Hrep : ∀ n X, str_contains ":" n = false → Forall good_name (repeat_fields n X)).
  { intros n X Hn. unfold repeat_fields. apply List.Forall_map, List.Forall_forall. by intros. }
  unfold route_fields, governed_fields. repeat (apply Forall_app; split);
    [..|destruct (rt_governed_policy r)]; repeat first
    [apply Hrep; done | constructor; [done|] | apply Forall_app; split | constructor].
Qed.

(** ** Caching *)
Section coherence.
Context {SL : Sha256Lib}.

(** Every cell holds the hash of the material beside it. *)
Definition cache_inv (store : CacheStore) : Prop :=
  ∀ loc m h, store !! loc = Some (m, h) → h = policy_hash_of m.

Lemma get_or_compute_coherent store loc m :
  cache_inv store →
  let '(store', h) := get_or_compute_at store loc m policy_hash_of in
  cache_inv store' ∧ h = policy_hash_of m.
Proof.
  intros Hinv.
  assert (Hput : ∀ cell, (∀ m' h', cell = Some (m', h') → h' = policy_hash_of m') →
    cache_inv (partial_alter (λ _, cell) loc store)).
  { intros cell Hcell l m' h'. destruct (decide (l = loc)) as [->|Hne].
    - rewrite lookup_partial_alter_eq. apply Hcell.
    - rewrite lookup_partial_alter_ne by done. apply Hinv. }
  unfold get_or_compute_at, get_or_compute.
  destruct (store !! loc) as [[cm ch]|] eqn:E; simpl.
  - destruct (String.eqb_spec cm m) as [->|]; (split; [apply Hput|]).
    + intros m' h' [= <- <-]. by apply (Hinv loc).
    + by apply (Hinv loc).
    + by intros m' h' [= <- <-].
    + done.
  - split; [apply Hput; by intros m' h' [= <- <-]|done].
Qed.

(** A sequence of hash computations, in the order the locks serialise them. *)
Fixpoint hash_run (store : CacheStore) (calls : list RouteMatch) : CacheStore * list string :=
  match calls with
  | [] => (store, [])
  | m :: calls =>
      let '(store, h) := route_purpose_policy_hash store m in
      let '(store, hs) := hash_run store calls in
      (store, h :: hs)
  end.
End coherence.

(** ** Properties *)
Module Claims.
(** C10: The text that is hashed commits to exactly the policy of the route: two
    routes have the same material if and only if they agree on id, identities,
    prefixes, [require_purpose], methods, purposes, the presence of a governed
    policy and every field of it (collections compared as sets), whatever bytes
    the values contain (names, separators and newlines inside values included). *)
Theorem policy_material_commits (r s : RouteConfig) :
  policy_material r = policy_material s ↔ policy_view r = policy_view s.
Proof.
  rewrite !policy_material_encode. split; intros H.
  - apply route_fields_inj, encode_inj; auto using good_names.
  - by rewrite (policy_view_fields r s).
Qed.

(** The cache is invisible: in every sequence of hash computations from an
    empty store, whichever routes they are for and even if routes share a cell,
    each returns the digest of its own route's current material, and at the end
    every cell holds a material together with its own digest. *)
Theorem policy_hash_cache_transparent {SL : Sha256Lib} (calls : list RouteMatch) :
  let '(store, hashes) := hash_run ∅ calls in
  hashes = (λ m, "sha256:" +:+ sha256_hex (policy_material (rm_route m))) <$> calls ∧
  cache_inv store.
Proof.
  assert (Hinv : cache_inv ∅) by (intros loc m h; by rewrite lookup_empty).
  revert Hinv. generalize (∅ : CacheStore).
  induction calls as [|m calls IH]; intros store Hinv; simpl; [done|].
  unfold route_purpose_policy_hash.
  pose proof (get_or_compute_coherent store (rt_policy_hash (rm_route m)) (policy_material (rm_route m)) Hinv) as Hstep.
  destruct (get_or_compute_at _ _ _ _) as [store' h]. destruct Hstep as [Hinv' ->].
  specialize (IH store' Hinv'). destruct (hash_run store' calls) as [store'' hs].
  destruct IH as [-> ?]. done.
Qed.
End Claims.
