(* ===== verification/Purpose.v ===== *)
(** * Purpose resolution and authorisation ([src/src/proxy.rs], from
    [resolve_client_purpose] to [pdp_problem_code], and [single_data_purpose])

    Client mode decides which purpose a request carries; server mode checks the
    purpose and the trust assertions of a request against the route's policy
    through the policy decision point.  Assertions reach the decision point only
    when the peer is entitled to them.  The clock reading is an argument, and the
    policy hash caches are threaded as a store. *)
From S2P Require Import Prelude RustStr BTree Errors External Reference Http Pdp Config Routing Identity PolicyHash.
From Stdlib Require Import Ascii.

Definition DATA_PURPOSE : string := "data-purpose".
Definition REQUEST_ID : string := "x-request-id".
Definition CONNECTOR_ID : string := "x-registry-connector-id".
Definition CONNECTOR_VERSION : string := "x-registry-connector-version".
Definition CONNECTOR_CLIENT_IDENTITY : string := "x-registry-connector-client-identity".
Definition TRUST_JURISDICTION : string := "x-registry-trust-jurisdiction".
Definition TRUST_ASSURANCE : string := "x-registry-trust-assurance".
Definition TRUST_LEGAL_BASIS : string := "x-registry-trust-legal-basis".
Definition TRUST_CONSENT : string := "x-registry-trust-consent".
Definition TRUST_SOURCE_OBSERVED_AGE_SECONDS : string := "x-registry-source-observed-age-seconds".

(** ** Entitlements as scopes *)
Definition trust_context_scope (field value : string) : string :=
  "registry:trust:" +:+ field +:+ ":" +:+ value.

Definition context_scopes (context : GovernedTrustedContextConfig) : gset string :=
  let insert_opt (field : string) (value : option string) (scopes : gset string) : gset string :=
    match value with
    | Some value => {[trust_context_scope field value]} ∪ scopes
    | None => scopes
    end in
  let scopes := ∅ in
  let scopes := insert_opt "jurisdiction" (tc_jurisdiction context) scopes in
  let scopes := insert_opt "assurance" (tc_asserted_assurance context) scopes in
  let scopes := insert_opt "legal_basis" (tc_legal_basis_ref context) scopes in
  let scopes := insert_opt "consent" (tc_consent_ref context) scopes in
  insert_opt "source_observed_age_seconds"
    (u64_to_string <$> tc_source_observed_age_seconds context) scopes.

Definition peer_trusted_context_scopes (client_trust : option ClientTrustConfig)
    (client_identity : string) : gset string :=
  let entitlements :=
    match client_trust with Some trust => ct_trust_context_entitlements trust | None => [] end in
  match List.find (λ e, String.eqb (trim (te_client_identity e)) client_identity) entitlements with
  | Some entitlement => context_scopes (te_trusted_context entitlement)
  | None => ∅
  end.

Definition trusted_context_scopes (policy : option GovernedRoutePolicyConfig)
    (client_trust : option ClientTrustConfig) (client_identity : string) : gset string :=
  let peer_scopes := peer_trusted_context_scopes client_trust client_identity in
  let route_scopes :=
    match policy with Some policy => context_scopes (gp_trusted_context policy) | None => ∅ end in
  if bool_decide (route_scopes = ∅) then peer_scopes else peer_scopes ∩ route_scopes.

(** [iter.max()]. *)
Definition max_opt (l : list N) : option N :=
  foldr (λ v acc, Some (match acc with Some m => N.max v m | None => v end)) None l.

Definition source_observed_age_limit_seconds (trusted_context_scopes : gset string) : option N :=
  let prefix := "registry:trust:source_observed_age_seconds:" in
  max_opt (omap parse_u64 (omap (strip_prefix prefix) (btree_iter trusted_context_scopes))).

Section http.
Context {HL : HttpLib}.

(** ** Reading headers *)
Definition trust_header_value (headers : HeaderMap) (name : string) : option string :=
  opt_filter (λ value, negb (str_is_empty value))
    (trim <$> (hm_get headers name ≫= header_value_to_str)).

Definition verified_trust_header_value (headers : HeaderMap) (trusted_context_scopes : gset string)
    (name field : string) : option string :=
  value ← trust_header_value headers name;
  if bool_decide (trust_context_scope field value ∈ trusted_context_scopes)
  then Some value else None.

Definition data_purpose_values (headers : HeaderMap) : list string :=
  omap (λ value, opt_filter (λ value, negb (str_is_empty value)) (trim <$> header_value_to_str value))
    (hm_get_all headers DATA_PURPOSE).

Definition single_data_purpose (headers : HeaderMap) : result ConnectorProblem (option string) :=
  match data_purpose_values headers with
  | [] => Ok None
  | [first] => Ok (Some first)
  | _ :: _ :: _ => Err PurposeDenied
  end.

(** ** Client mode *)
Section client.
Context {UL : UrlLib}.

Definition not_blank (value : string) : bool := negb (str_is_empty (trim value)).

Definition resolve_client_purpose (config : ConnectorConfig) (route_match : RouteMatch)
    (headers : HeaderMap) : result ConnectorProblem (option string) :=
  let provided := opt_filter not_blank (hm_get headers DATA_PURPOSE ≫= header_value_to_str) in
  if rt_require_purpose (rm_route route_match) then
    match unwrap_or DeniedMissing (rt_purpose_source (rm_route route_match)) with
    | StaticRouteDefault =>
        ok_or PurposeRequired
          (Some <$> opt_filter not_blank (df_data_purpose (cf_defaults config)))
    | ClientProvided => ok_or PurposeRequired (Some <$> provided)
    | DeniedMissing => Err PurposeRequired
    end
  else Ok provided.
End client.

(** ** Server mode *)
Section server.
Context {PD : PdpLib} {SL : Sha256Lib}.

(** [value.parse::<u64>()], unreadable numbers being stale evidence. *)
Definition parse_age (value : string) : result ConnectorProblem N :=
  ok_or (PdpDenied EVIDENCE_STALE) (parse_u64 value).

Definition source_observed_at_with_age (now : SystemTime) (headers : HeaderMap)
    (trusted_context_scopes : gset string) : result ConnectorProblem (option (N * N)) :=
  match trust_header_value headers "x-registry-source-observed-at-unix-seconds" with
  | None => Ok None
  | Some value =>
      match source_observed_age_limit_seconds trusted_context_scopes with
      | None => Ok None
      | Some limit =>
          observed_at ← parse_age value;
          if (now <? 0)%Z then Err (PdpDenied EVIDENCE_STALE) else
          let now := Z.to_N (now / 1000000000) in
          let age_seconds := (now - observed_at)%N in
          if (now <? observed_at)%N || (limit <? age_seconds)%N then Ok None
          else Ok (Some (observed_at, age_seconds))
      end
  end.

Definition source_observed_at_unix_seconds (now : SystemTime) (headers : HeaderMap)
    (trusted_context_scopes : gset string) : result ConnectorProblem (option N) :=
  option_map fst <$> source_observed_at_with_age now headers trusted_context_scopes.

Definition source_observed_age_seconds (now : SystemTime) (headers : HeaderMap)
    (trusted_context_scopes : gset string) : result ConnectorProblem (option N) :=
  match trust_header_value headers TRUST_SOURCE_OBSERVED_AGE_SECONDS with
  | Some value =>
      match source_observed_age_limit_seconds trusted_context_scopes with
      | None => Ok None
      | Some limit =>
          age_seconds ← parse_age value;
          if (limit <? age_seconds)%N then Ok None else Ok (Some age_seconds)
      end
  | None =>
      option_map snd <$> source_observed_at_with_age now headers trusted_context_scopes
  end.

(** [now_at] and [now_age] are the clock readings of the two freshness fields. *)
Definition request_pdp_context (now_at now_age : SystemTime) (purpose : string) (headers : HeaderMap)
    (identity : PeerIdentity) (trusted_context_scopes : gset string)
    (route_identity source_binding : string) : result ConnectorProblem PdpRequestContext :=
  observed_at ← source_observed_at_unix_seconds now_at headers trusted_context_scopes;
  observed_age ← source_observed_age_seconds now_age headers trusted_context_scopes;
  Ok {|
    cx_purpose := purpose;
    cx_legal_basis_ref :=
      verified_trust_header_value headers trusted_context_scopes TRUST_LEGAL_BASIS "legal_basis";
    cx_consent_ref :=
      verified_trust_header_value headers trusted_context_scopes TRUST_CONSENT "consent";
    cx_asserted_assurance :=
      verified_trust_header_value headers trusted_context_scopes TRUST_ASSURANCE "assurance";
    cx_jurisdiction :=
      verified_trust_header_value headers trusted_context_scopes TRUST_JURISDICTION "jurisdiction";
    cx_requester_identity := Some (pi_value identity);
    cx_subject_ref := trust_header_value headers "x-registry-subject-ref";
    cx_relationship := trust_header_value headers "x-registry-relationship";
    cx_on_behalf_of := trust_header_value headers "x-registry-on-behalf-of";
    cx_requested_fact := Some source_binding;
    cx_requested_disclosure := Some "proxy_forward";
    cx_requested_credential_format := trust_header_value headers "x-registry-credential-format";
    cx_source_binding := Some source_binding;
    cx_route_identity := Some route_identity;
    cx_checked_scopes := ∅;
    cx_source_observed_at_unix_seconds := observed_at;
    cx_source_observed_age_seconds := observed_age |}.

Definition insert_when (b : bool) (g : PolicyGate) (ids : list string)
    (m : gmap PolicyGate (list string)) : gmap PolicyGate (list string) :=
  if b then <[g := ids]> m else m.

Definition route_pdp_rule_ids_by_gate (route : RouteConfig)
    (governed_policy : option GovernedRoutePolicyConfig) : gmap PolicyGate (list string) :=
  let rule suffix := ["trust-connector.route." +:+ rt_id route +:+ "." +:+ suffix] in
  let insert_if b g suffix m := insert_when b g (rule suffix) m in
  let rule_ids : gmap PolicyGate (list string) :=
    list_to_map [(PolicyIdentity, rule "policy_identity");
                 (RequestedFact, rule "requested_fact");
                 (RequestedDisclosure, rule "requested_disclosure");
                 (SourceBinding, rule "source_binding");
                 (RouteIdentity, rule "route_identity")] in
  let rule_ids := insert_if
    (negb (is_empty (rt_purposes route))
     || is_some_and (λ policy, negb (is_empty (gp_permitted_purposes policy))) governed_policy)
    Purpose "purpose" rule_ids in
  match governed_policy with
  | None => rule_ids
  | Some policy =>
      let rule_ids := insert_if (negb (is_empty (gp_permitted_jurisdictions policy)))
        Jurisdiction "jurisdiction" rule_ids in
      let rule_ids := insert_if (negb (is_empty (gp_allowed_assurance policy)))
        AssuranceAllowedSet "assurance" rule_ids in
      let rule_ids := insert_if (is_some (gp_minimum_assurance policy))
        MinimumAssurance "minimum_assurance" rule_ids in
      let rule_ids := insert_if (is_some (gp_max_source_age_seconds policy))
        SourceFreshness "source_freshness" rule_ids in
      let rule_ids := insert_if (gp_require_legal_basis policy)
        LegalBasisRequired "legal_basis" rule_ids in
      let rule_ids := insert_if (gp_require_consent policy)
        ConsentRequired "consent" rule_ids in
      let rule_ids := insert_if (negb (is_empty (gp_unsupported_odrl_terms policy)))
        OdrlTerms "odrl_terms" rule_ids in
      insert_if (negb (is_empty (gp_redaction_fields policy))) Redaction "redaction" rule_ids
  end.

Definition pdp_problem_code (code : string) : string :=
  if String.eqb code CONTEXT_REQUIRED then CONTEXT_REQUIRED
  else if String.eqb code PURPOSE_NOT_PERMITTED then PURPOSE_NOT_PERMITTED
  else if String.eqb code ASSURANCE_INSUFFICIENT then ASSURANCE_INSUFFICIENT
  else if String.eqb code EVIDENCE_STALE then EVIDENCE_STALE
  else if String.eqb code LEGAL_BASIS_REQUIRED then LEGAL_BASIS_REQUIRED
  else if String.eqb code CONSENT_REQUIRED then CONSENT_REQUIRED
  else if String.eqb code JURISDICTION_NOT_PERMITTED then JURISDICTION_NOT_PERMITTED
  else if String.eqb code RELATIONSHIP_NOT_PERMITTED then RELATIONSHIP_NOT_PERMITTED
  else if String.eqb code REQUESTED_FACT_NOT_PERMITTED then REQUESTED_FACT_NOT_PERMITTED
  else if String.eqb code DISCLOSURE_NOT_PERMITTED then DISCLOSURE_NOT_PERMITTED
  else if String.eqb code CREDENTIAL_FORMAT_NOT_PERMITTED then CREDENTIAL_FORMAT_NOT_PERMITTED
  else if String.eqb code SOURCE_BINDING_NOT_PERMITTED then SOURCE_BINDING_NOT_PERMITTED
  else if String.eqb code ROUTE_IDENTITY_NOT_PERMITTED then ROUTE_IDENTITY_NOT_PERMITTED
  else if String.eqb code CHECKED_SCOPE_REQUIRED then CHECKED_SCOPE_REQUIRED
  else if String.eqb code UNSUPPORTED_POLICY_TERM then UNSUPPORTED_POLICY_TERM
  else if String.eqb code POLICY_REQUIRED then POLICY_REQUIRED
  else if String.eqb code POLICY_ID_REQUIRED then POLICY_ID_REQUIRED
  else if String.eqb code POLICY_HASH_INVALID then POLICY_HASH_INVALID
  else PURPOSE_NOT_PERMITTED.

Definition purpose_constraints (route : RouteConfig)
    (governed_policy : option GovernedRoutePolicyConfig) : list (list string) :=
  (if is_empty (rt_purposes route) then [] else [rt_purposes route]) ++
  match opt_filter (λ purposes, negb (is_empty purposes)) (gp_permitted_purposes <$> governed_policy) with
  | Some configured_purposes => [configured_purposes]
  | None => []
  end.

Definition route_policy_input (route : RouteConfig) (governed_policy : option GovernedRoutePolicyConfig)
    (source_binding policy_hash : string) : PdpPolicyInput := {|
  pl_policy_id := "trust-connector.route." +:+ rt_id route;
  pl_policy_hash := policy_hash;
  pl_ecosystem_binding_id := None;
  pl_ecosystem_binding_version := None;
  pl_rule_ids := ["route-purpose:" +:+ rt_id route];
  pl_rule_ids_by_gate := route_pdp_rule_ids_by_gate route governed_policy;
  pl_permit_unconstrained := false;
  pl_odrl_constraint_terms := [];
  pl_purpose_constraints := purpose_constraints route governed_policy;
  pl_permitted_jurisdictions := unwrap_or [] (gp_permitted_jurisdictions <$> governed_policy);
  pl_allowed_assurance := unwrap_or [] (gp_allowed_assurance <$> governed_policy);
  pl_minimum_assurance := governed_policy ≫= gp_minimum_assurance;
  pl_max_source_age_seconds := governed_policy ≫= gp_max_source_age_seconds;
  pl_require_legal_basis := is_some_and gp_require_legal_basis governed_policy;
  pl_require_consent := is_some_and gp_require_consent governed_policy;
  pl_allowed_legal_basis_refs := [];
  pl_allowed_consent_refs := [];
  pl_redaction_fields :=
    match governed_policy with
    | Some policy => btree_collect (gp_redaction_fields policy)
    | None => ∅
    end;
  pl_allowed_relationships := [];
  pl_relationship_purpose_constraints := [];
  pl_allowed_requested_facts := [source_binding];
  pl_allowed_requested_disclosures := ["proxy_forward"];
  pl_allowed_credential_formats := [];
  pl_allowed_source_bindings := [source_binding];
  pl_allowed_route_identities := [rt_id route];
  pl_required_checked_scopes := ∅;
  pl_unsupported_odrl_terms := unwrap_or [] (gp_unsupported_odrl_terms <$> governed_policy) |}.

Definition decision_result (purpose : string) (d : PdpDecision)
    : result ConnectorProblem (option string) :=
  match d with
  | Permit _ => Ok (Some purpose)
  | PermitWithRedaction _ _ => Err (PdpDenied UNSUPPORTED_POLICY_TERM)
  | Deny _ stable_problem_code => Err (PdpDenied (pdp_problem_code stable_problem_code))
  end.

(** The line each branch of the decision writes: which route and policy decided, the
    rules that were evaluated, the fields a redaction decision names, the stable
    problem code of a denial, and the message. *)
Record DecisionLog : Type := {
  dl_route_id : string;
  dl_policy_id : string;
  dl_policy_hash : string;
  dl_evaluated_rule_ids : list string;
  dl_redaction_fields : option (gset string);
  dl_stable_problem_code : option string;
  dl_message : string;
}.

Definition decision_log (route_id : string) (d : PdpDecision) : DecisionLog :=
  let line (audit : PdpAudit) fields problem_code message := {|
    dl_route_id := route_id;
    dl_policy_id := pa_policy_id audit;
    dl_policy_hash := pa_policy_hash audit;
    dl_evaluated_rule_ids := pa_evaluated_rule_ids audit;
    dl_redaction_fields := fields;
    dl_stable_problem_code := problem_code;
    dl_message := message |} in
  match d with
  | Permit audit => line audit None None "server connector permitted purpose by pdp"
  | PermitWithRedaction audit field_set =>
      line audit (Some field_set) (Some UNSUPPORTED_POLICY_TERM)
        "server connector denied pdp redaction decision it cannot enforce"
  | Deny audit stable_problem_code =>
      line audit None (Some stable_problem_code) "server connector denied purpose by pdp"
  end.

(** The caches afterwards, the decision line where the decision point was asked, and
    the answer. *)
Definition authorize_server_purpose (store : CacheStore) (now_at now_age : SystemTime)
    (route_match : RouteMatch) (headers : HeaderMap) (identity : PeerIdentity)
    (client_trust : option ClientTrustConfig)
    : CacheStore * option DecisionLog * result ConnectorProblem (option string) :=
  let route := rm_route route_match in
  match single_data_purpose headers with
  | Err e => (store, None, Err e)
  | Ok purpose =>
      let governed_policy := rt_governed_policy route in
      let scopes := trusted_context_scopes governed_policy client_trust (pi_value identity) in
      if is_empty (rt_purposes route) && negb (rt_require_purpose route)
         && negb (is_some governed_policy)
      then (store, None, Ok purpose) else
      match purpose with
      | None => (store, None, Err PurposeRequired)
      | Some purpose =>
          if rt_require_purpose route && is_empty (purpose_constraints route governed_policy)
          then (store, None, Err PurposeDenied) else
          let source_binding := "trust-connector:" +:+ rm_upstream_path route_match in
          match request_pdp_context now_at now_age purpose headers identity scopes (rt_id route)
                  source_binding with
          | Err e => (store, None, Err e)
          | Ok context =>
              let '(store, hash) := route_purpose_policy_hash store route_match in
              let policy := route_policy_input route governed_policy source_binding hash in
              let decision := pdp_decide context policy in
              (store, Some (decision_log (rt_id route) decision), decision_result purpose decision)
          end
      end
  end.
End server.
End http.

(** ** Scopes decode to assertions

    The four textual assertions: their scope field, their request header and
    their place in a trusted context. *)
Inductive TrustField : Type := FJurisdiction | FAssurance | FLegalBasis | FConsent.

Definition field_name (f : TrustField) : string :=
  match f with
  | FJurisdiction => "jurisdiction" | FAssurance => "assurance"
  | FLegalBasis => "legal_basis" | FConsent => "consent"
  end.
Definition field_header (f : TrustField) : string :=
  match f with
  | FJurisdiction => TRUST_JURISDICTION | FAssurance => TRUST_ASSURANCE
  | FLegalBasis => TRUST_LEGAL_BASIS | FConsent => TRUST_CONSENT
  end.
Definition field_value (f : TrustField) : GovernedTrustedContextConfig → option string :=
  match f with
  | FJurisdiction => tc_jurisdiction | FAssurance => tc_asserted_assurance
  | FLegalBasis => tc_legal_basis_ref | FConsent => tc_consent_ref
  end.
Definition age_field : string := "source_observed_age_seconds".

Lemma scope_inj f g v w :
  str_contains ":" f = false → str_contains ":" g = false →
  trust_context_scope f v = trust_context_scope g w → f = g ∧ v = w.
Proof.
  intros Hf Hg H. unfold trust_context_scope in H.
  apply str_app_length_inj in H as [_ H]; [|done]. by apply (str_app_sep_inj ":") in H.
Qed.

Lemma field_name_no_colon f : str_contains ":" (field_name f) = false.
Proof. by destruct f. Qed.

Lemma field_name_age f : field_name f ≠ age_field.
Proof. by destruct f. Qed.

Lemma field_name_inj f g : field_name f = field_name g → f = g.
Proof. by destruct f, g. Qed.

Lemma elem_of_context_scopes s c :
  s ∈ context_scopes c ↔
  (∃ f v, field_value f c = Some v ∧ s = trust_context_scope (field_name f) v) ∨
  (∃ n, tc_source_observed_age_seconds c = Some n ∧
        s = trust_context_scope age_field (u64_to_string n)).
Proof.
  unfold context_scopes. split.
  - intros H. destruct (tc_source_observed_age_seconds c) as [n|] eqn:Ha; simpl in H;
      [apply elem_of_union in H as [H|H]; [apply elem_of_singleton in H; eauto|]|]; left.
    all: destruct (tc_consent_ref c) eqn:Hc;
      [apply elem_of_union in H as [H|H]; [apply elem_of_singleton in H; by exists FConsent; eauto|]|].
    all: destruct (tc_legal_basis_ref c) eqn:Hl;
      [apply elem_of_union in H as [H|H]; [apply elem_of_singleton in H; by exists FLegalBasis; eauto|]|].
    all: destruct (tc_asserted_assurance c) eqn:Hs;
      [apply elem_of_union in H as [H|H]; [apply elem_of_singleton in H; by exists FAssurance; eauto|]|].
    all: destruct (tc_jurisdiction c) eqn:Hj;
      [apply elem_of_union in H as [H|H]; [apply elem_of_singleton in H; by exists FJurisdiction; eauto|]|].
    all: by apply elem_of_empty in H.
  - intros [([] & v & Hv & ->)|(n & Hn & ->)]; simpl in *; rewrite ?Hv, ?Hn; simpl;
      repeat case_match; set_solver.
Qed.

Lemma scope_in_context f v c :
  trust_context_scope (field_name f) v ∈ context_scopes c ↔ field_value f c = Some v.
Proof.
  rewrite elem_of_context_scopes. split; [|by eauto].
  intros [(g & w & Hw & H)|(n & _ & H)].
  - apply scope_inj in H as [H ->]; [|apply field_name_no_colon..].
    by apply field_name_inj in H as ->.
  - apply scope_inj in H as [H _]; [|apply field_name_no_colon|done].
    by apply field_name_age in H.
Qed.

Lemma age_scope_in_context s c :
  trust_context_scope age_field s ∈ context_scopes c ↔
  ∃ n, tc_source_observed_age_seconds c = Some n ∧ s = u64_to_string n.
Proof.
  rewrite elem_of_context_scopes. split.
  - intros [(g & w & _ & H)|(n & Hn & H)].
    + apply scope_inj in H as [H _]; [|done|apply field_name_no_colon].
      symmetry in H. by apply field_name_age in H.
    + apply scope_inj in H as [_ ->]; [|done..]. eauto.
  - intros (n & Hn & ->). right. eauto.
Qed.

(** ** What a peer is granted on a route *)
Definition peer_context (client_trust : option ClientTrustConfig) (id : string)
    : option GovernedTrustedContextConfig :=
  te_trusted_context <$>
    List.find (λ e, String.eqb (trim (te_client_identity e)) id)
      (match client_trust with Some trust => ct_trust_context_entitlements trust | None => [] end).

(** The route does not narrow the entitlement, or its own context has [P]. *)
Definition route_allows (policy : option GovernedRoutePolicyConfig)
    (P : GovernedTrustedContextConfig → Prop) : Prop :=
  ∀ p, policy = Some p →
    gp_trusted_context p = GovernedTrustedContextConfig_default ∨ P (gp_trusted_context p).

Definition granted (policy : option GovernedRoutePolicyConfig)
    (client_trust : option ClientTrustConfig) (id : string) (f : TrustField) (v : string) : Prop :=
  (∃ c, peer_context client_trust id = Some c ∧ field_value f c = Some v) ∧
  route_allows policy (λ c, field_value f c = Some v).

Lemma peer_scopes_context ct id :
  peer_trusted_context_scopes ct id =
    match peer_context ct id with Some c => context_scopes c | None => ∅ end.
Proof. unfold peer_trusted_context_scopes, peer_context. by destruct (List.find _ _). Qed.

Lemma context_scopes_empty c : context_scopes c = ∅ ↔ c = GovernedTrustedContextConfig_default.
Proof.
  split; [|by intros ->]. intros H.
  assert (Hn : ∀ s, s ∉ context_scopes c) by (rewrite H; apply not_elem_of_empty).
  assert (Hf : ∀ f, field_value f c = None).
  { intros f. destruct (field_value f c) as [v|] eqn:E; [|done].
    apply scope_in_context in E. by apply Hn in E. }
  pose proof (Hf FJurisdiction) as H1. pose proof (Hf FAssurance) as H2.
  pose proof (Hf FLegalBasis) as H3. pose proof (Hf FConsent) as H4.
  assert (H5 : tc_source_observed_age_seconds c = None).
  { destruct (tc_source_observed_age_seconds c) as [n|] eqn:E; [|done].
    destruct (Hn (trust_context_scope age_field (u64_to_string n))).
    apply age_scope_in_context. eauto. }
  destruct c; simpl in *. by subst.
Qed.

(** Membership in the scopes of a request, as entitlement and route context. *)
Lemma elem_of_trusted_scopes policy ct id s :
  s ∈ trusted_context_scopes policy ct id ↔
  (∃ c, peer_context ct id = Some c ∧ s ∈ context_scopes c) ∧
  route_allows policy (λ c, s ∈ context_scopes c).
Proof.
  unfold trusted_context_scopes. rewrite peer_scopes_context.
  assert (Hpeer : s ∈ (match peer_context ct id with Some c => context_scopes c | None => ∅ end : gset string)
    ↔ ∃ c, peer_context ct id = Some c ∧ s ∈ context_scopes c).
  { destruct (peer_context ct id) as [c|]; set_solver. }
  unfold route_allows. destruct policy as [p|]; case_bool_decide as Hemp.
  - apply context_scopes_empty in Hemp. rewrite Hpeer. split; [|by intros [? _]].
    intros ?; split; [done|]. intros ? [= <-]. by left.
  - rewrite elem_of_intersection, Hpeer. split; intros [? H]; (split; [done|]).
    + intros ? [= <-]. by right.
    + destruct (H p eq_refl) as [Hd|]; [|done]. by apply context_scopes_empty in Hd.
  - rewrite Hpeer. split; [|by intros [? _]]. intros ?. split; [done|]. by intros ?.
  - done.
Qed.

Lemma scope_granted policy ct id f v :
  trust_context_scope (field_name f) v ∈ trusted_context_scopes policy ct id ↔
  granted policy ct id f v.
Proof.
  rewrite elem_of_trusted_scopes. unfold granted, route_allows.
  by setoid_rewrite scope_in_context.
Qed.

Section authorise.
Context {HL : HttpLib} {PD : PdpLib} {SL : Sha256Lib}.

Lemma verified_granted headers policy ct id f v :
  verified_trust_header_value headers (trusted_context_scopes policy ct id) (field_header f) (field_name f)
    = Some v ↔
  trust_header_value headers (field_header f) = Some v ∧ granted policy ct id f v.
Proof.
  unfold verified_trust_header_value.
  destruct (trust_header_value headers (field_header f)) as [w|]; simpl; [|refute_iff].
  case_bool_decide as Hin; rewrite scope_granted in Hin.
  - split; [intros [= <-]; done|]. by intros [? _].
  - split; [done|]. intros [[= ->] ?]. done.
Qed.

(** ** Freshness *)
Lemma max_opt_elem l m : max_opt l = Some m → m ∈ l.
Proof.
  revert m. induction l as [|v l IH]; simpl; [done|]. intros m [= <-].
  destruct (max_opt l) as [k|] eqn:E; [|left]. destruct (N.max_spec v k) as [[_ ->]|[_ ->]].
  - right. by apply IH.
  - left.
Qed.

Lemma age_limit_granted policy ct id limit :
  source_observed_age_limit_seconds (trusted_context_scopes policy ct id) = Some limit →
  (∃ c, peer_context ct id = Some c ∧ tc_source_observed_age_seconds c = Some limit) ∧
  route_allows policy (λ c, tc_source_observed_age_seconds c = Some limit).
Proof.
  intros H%max_opt_elem. apply list_elem_of_omap in H as (s & Hs & Hparse).
  apply list_elem_of_omap in Hs as (scope & Hin & Hstrip).
  apply strip_prefix_Some in Hstrip as ->. apply elem_of_btree_iter in Hin.
  change ("registry:trust:source_observed_age_seconds:" +:+ s)
    with (trust_context_scope age_field s) in Hin.
  assert (Hage : ∀ c, trust_context_scope age_field s ∈ context_scopes c →
    tc_source_observed_age_seconds c = Some limit).
  { intros c (n & Hn & ->)%age_scope_in_context.
    by apply parse_u64_to_string_inv in Hparse as ->. }
  apply elem_of_trusted_scopes in Hin as [(c & Hc & Hin) Hroute]. split; [eauto|].
  intros p Hp. destruct (Hroute p Hp); eauto.
Qed.

(** An age that reaches the decision point is within the granted limit. *)
(** How old the request says its source is: the age it states, or, where it states none,
    the whole seconds from the time of observation it states until now. *)
Definition evidence_age (now : SystemTime) (headers : HeaderMap) (age : N) : Prop :=
  (∃ v, trust_header_value headers TRUST_SOURCE_OBSERVED_AGE_SECONDS = Some v ∧ parse_u64 v = Some age) ∨
  trust_header_value headers TRUST_SOURCE_OBSERVED_AGE_SECONDS = None ∧
  ∃ v observed, trust_header_value headers "x-registry-source-observed-at-unix-seconds" = Some v ∧
    parse_u64 v = Some observed ∧ (Z.of_N (observed + age) = now / 1000000000)%Z.

Lemma age_within_limit now headers scopes age :
  source_observed_age_seconds now headers scopes = Ok (Some age) →
  evidence_age now headers age ∧
  ∃ limit, source_observed_age_limit_seconds scopes = Some limit ∧ (age ≤ limit)%N.
Proof.
  unfold source_observed_age_seconds, source_observed_at_with_age, evidence_age, parse_age.
  destruct (trust_header_value headers TRUST_SOURCE_OBSERVED_AGE_SECONDS) as [v|].
  - destruct (source_observed_age_limit_seconds scopes) as [limit|]; [|done].
    intros H. bind_step H a E. apply ok_or_Ok in E. destruct (N.ltb_spec limit a); [done|].
    simplify_eq/=. eauto 10.
  - destruct (trust_header_value headers _) as [v|]; [|done].
    destruct (source_observed_age_limit_seconds scopes) as [limit|]; [|done].
    destruct (parse_u64 v) as [obs|] eqn:Ev; [|done]. simpl.
    destruct (Z.ltb_spec now 0); [done|].
    destruct (N.ltb_spec (Z.to_N (now / 1000000000)) obs); [done|].
    destruct (N.ltb_spec limit (Z.to_N (now / 1000000000) - obs)); [done|]. intros [= <-].
    assert (0 ≤ now / 1000000000)%Z by (apply Z.div_pos; lia).
    split; [right; split; [done|]; exists v, obs; split_and!; [done|done|lia]|]. eauto.
Qed.

(** Without an age grant the clock and the freshness headers do not matter. *)
Lemma age_ungranted now headers scopes :
  source_observed_age_limit_seconds scopes = None →
  source_observed_age_seconds now headers scopes = Ok None ∧
  source_observed_at_unix_seconds now headers scopes = Ok None.
Proof.
  intros H. unfold source_observed_age_seconds, source_observed_at_unix_seconds, source_observed_at_with_age.
  rewrite H. by repeat case_match.
Qed.

(** ** The outcomes of [authorize_server_purpose] *)
Definition ungated (route : RouteConfig) : Prop :=
  rt_purposes route = [] ∧ rt_require_purpose route = false ∧ rt_governed_policy route = None.

Lemma ungated_true route :
  is_empty (rt_purposes route) && negb (rt_require_purpose route)
    && negb (is_some (rt_governed_policy route)) = true ↔ ungated route.
Proof.
  unfold ungated. destruct (rt_purposes route), (rt_require_purpose route), (rt_governed_policy route);
    simpl; split; first [done | intros (? & ? & ?); congruence | intros _; by split_and!].
Qed.

Definition request_context (now_at now_age : SystemTime) (m : RouteMatch) (headers : HeaderMap)
    (identity : PeerIdentity) (ct : option ClientTrustConfig) (purpose : string) :=
  request_pdp_context now_at now_age purpose headers identity
    (trusted_context_scopes (rt_governed_policy (rm_route m)) ct (pi_value identity))
    (rt_id (rm_route m)) ("trust-connector:" +:+ rm_upstream_path m).

Definition request_policy (m : RouteMatch) (hash : string) : PdpPolicyInput :=
  route_policy_input (rm_route m) (rt_governed_policy (rm_route m))
    ("trust-connector:" +:+ rm_upstream_path m) hash.

Lemma authorize_cases store now_at now_age m headers identity ct r :
  snd (authorize_server_purpose store now_at now_age m headers identity ct) = r →
  match single_data_purpose headers with
  | Err e => r = Err e
  | Ok purpose =>
      ungated (rm_route m) ∧ r = Ok purpose ∨
      ¬ ungated (rm_route m) ∧
      match purpose with
      | None => r = Err PurposeRequired
      | Some p =>
          rt_require_purpose (rm_route m) = true ∧
            purpose_constraints (rm_route m) (rt_governed_policy (rm_route m)) = [] ∧
            r = Err PurposeDenied ∨
          (rt_require_purpose (rm_route m) = true →
             purpose_constraints (rm_route m) (rt_governed_policy (rm_route m)) ≠ []) ∧
          match request_context now_at now_age m headers identity ct p with
          | Err e => r = Err e
          | Ok cx => ∃ hash, r = decision_result p (pdp_decide cx (request_policy m hash))
          end
      end
  end.
Proof.
  unfold authorize_server_purpose. destruct (single_data_purpose headers) as [purpose|e]; [|by intros <-].
  pose proof (ungated_true (rm_route m)) as Hu.
  destruct (is_empty _ && _ && _); [left; by split; [apply Hu|]|]. intros Hr. right.
  split; [by intros ?%Hu|]. destruct purpose as [p|]; [|done].
  destruct (rt_require_purpose (rm_route m)) eqn:Hreq; simpl in Hr;
    [destruct (is_empty (purpose_constraints _ _)) eqn:Hc|].
  - left. apply is_empty_true in Hc. done.
  - right. apply is_empty_false in Hc. split; [done|]. unfold request_context.
    destruct (request_pdp_context _ _ _ _ _ _ _ _) as [cx|e]; [|done].
    destruct (route_purpose_policy_hash store m) as [store' hash]. by exists hash.
  - right. split; [done|]. unfold request_context.
    destruct (request_pdp_context _ _ _ _ _ _ _ _) as [cx|e]; [|done].
    destruct (route_purpose_policy_hash store m) as [store' hash]. by exists hash.
Qed.

(** The answer does not depend on what the caches hold, and the caches stay coherent. *)
Lemma authorize_caches store1 store2 now_at now_age m headers identity ct :
  cache_inv store1 → cache_inv store2 →
  ∃ s1 s2 log r, cache_inv s1 ∧ cache_inv s2 ∧
    authorize_server_purpose store1 now_at now_age m headers identity ct = (s1, log, r) ∧
    authorize_server_purpose store2 now_at now_age m headers identity ct = (s2, log, r).
Proof.
  intros H1 H2. unfold authorize_server_purpose, route_purpose_policy_hash.
  pose proof (get_or_compute_coherent store1 (rt_policy_hash (rm_route m)) (policy_material (rm_route m)) H1) as G1.
  pose proof (get_or_compute_coherent store2 (rt_policy_hash (rm_route m)) (policy_material (rm_route m)) H2) as G2.
  destruct (get_or_compute_at store1 _ _ _) as [s1 h1], (get_or_compute_at store2 _ _ _) as [s2 h2].
  destruct G1 as [? ->], G2 as [? ->]. repeat case_match; simplify_eq; eauto 10.
Qed.

Lemma pdp_problem_code_stable c :
  pdp_problem_code c = if decide (c ∈ pdp_codes) then c else PURPOSE_NOT_PERMITTED.
Proof.
  unfold pdp_problem_code. case_decide as Hin.
  - unfold pdp_codes in Hin.
    repeat match goal with
    | |- context [String.eqb c ?x] => destruct (String.eqb_spec c x); [done|]
    end.
    set_solver.
  - repeat match goal with
    | |- context [String.eqb c ?x] =>
        destruct (String.eqb_spec c x); [subst; exfalso; apply Hin; unfold pdp_codes; set_solver|]
    end.
    done.
Qed.

(** The context of a request, field by field. *)
Lemma request_context_Ok now_at now_age m headers identity ct p cx :
  request_context now_at now_age m headers identity ct p = Ok cx →
  let policy := rt_governed_policy (rm_route m) in
  let id := pi_value identity in
  cx_purpose cx = p ∧
  (∀ v, cx_jurisdiction cx = Some v → trust_header_value headers TRUST_JURISDICTION = Some v ∧ granted policy ct id FJurisdiction v) ∧
  (∀ v, cx_asserted_assurance cx = Some v → trust_header_value headers TRUST_ASSURANCE = Some v ∧ granted policy ct id FAssurance v) ∧
  (∀ v, cx_legal_basis_ref cx = Some v → trust_header_value headers TRUST_LEGAL_BASIS = Some v ∧ granted policy ct id FLegalBasis v) ∧
  (∀ v, cx_consent_ref cx = Some v → trust_header_value headers TRUST_CONSENT = Some v ∧ granted policy ct id FConsent v) ∧
  (∀ age, cx_source_observed_age_seconds cx = Some age →
     evidence_age now_age headers age ∧ ∃ limit, (age ≤ limit)%N ∧
       (∃ c, peer_context ct id = Some c ∧ tc_source_observed_age_seconds c = Some limit) ∧
       route_allows policy (λ c, tc_source_observed_age_seconds c = Some limit)).
Proof.
  unfold request_context, request_pdp_context. intros H.
  bind_step H at' Eat. bind_step H age' Eage. injection H as <-. simpl.
  split_and!; [done| | | | |].
  - intros v. apply (verified_granted _ _ _ _ FJurisdiction).
  - intros v. apply (verified_granted _ _ _ _ FAssurance).
  - intros v. apply (verified_granted _ _ _ _ FLegalBasis).
  - intros v. apply (verified_granted _ _ _ _ FConsent).
  - intros age ->. apply age_within_limit in Eage as (He & limit & Hl & Hle).
    apply age_limit_granted in Hl as [? ?]. eauto.
Qed.

(** The only error in building the context is unreadable freshness evidence. *)
Lemma request_context_Err now_at now_age m headers identity ct p e :
  request_context now_at now_age m headers identity ct p = Err e → e = PdpDenied EVIDENCE_STALE.
Proof.
  assert (Hat : ∀ now scopes e, source_observed_at_with_age now headers scopes = Err e → e = PdpDenied EVIDENCE_STALE).
  { intros now scopes e'. unfold source_observed_at_with_age, parse_age.
    destruct (trust_header_value headers _) as [v|]; [|done].
    destruct (source_observed_age_limit_seconds scopes); [|done].
    destruct (parse_u64 v); simpl; [|congruence]. repeat case_match; congruence. }
  unfold request_context, request_pdp_context. intros [H|(a & _ & H)]%bind_Err_inv.
  - unfold source_observed_at_unix_seconds in H.
    destruct (source_observed_at_with_age _ _ _) eqn:E; [done|]. injection H as <-. eauto.
  - apply bind_Err_inv in H as [H|(b & _ & ?)]; [|done]. unfold source_observed_age_seconds in H.
    destruct (trust_header_value headers TRUST_SOURCE_OBSERVED_AGE_SECONDS) as [v|].
    + destruct (source_observed_age_limit_seconds _); [|done]. unfold parse_age in H.
      destruct (parse_u64 v); simpl in H; [|congruence]. by case_match.
    + destruct (source_observed_at_with_age _ _ _) eqn:E; [done|]. injection H as <-. eauto.
Qed.
End authorise.

(** ** Properties *)

(** The trust assertion [v] is made by the request and granted to the peer. *)
Definition asserted {HL : HttpLib} (headers : HeaderMap) (policy : option GovernedRoutePolicyConfig)
    (ct : option ClientTrustConfig) (id : string) (f : TrustField) (v : string) : Prop :=
  trust_header_value headers (field_header f) = Some v ∧ granted policy ct id f v.

(** Every gate of a governed policy holds of a request at the time [now]. *)
Record policy_satisfied {HL : HttpLib} {PD : PdpLib} (now : SystemTime)
    (policy : GovernedRoutePolicyConfig) (headers : HeaderMap) (ct : option ClientTrustConfig) (id purpose : string) : Prop := {
  sat_purpose : gp_permitted_purposes policy = [] ∨ purpose ∈ gp_permitted_purposes policy;
  sat_jurisdiction : gp_permitted_jurisdictions policy = [] ∨
    ∃ v, v ∈ gp_permitted_jurisdictions policy ∧ asserted headers (Some policy) ct id FJurisdiction v;
  sat_assurance : gp_allowed_assurance policy = [] ∨
    ∃ v, v ∈ gp_allowed_assurance policy ∧ asserted headers (Some policy) ct id FAssurance v;
  sat_minimum minimum : gp_minimum_assurance policy = Some minimum →
    ∃ v, assurance_reaches v minimum = true ∧ asserted headers (Some policy) ct id FAssurance v;
  sat_legal_basis : gp_require_legal_basis policy = true →
    ∃ v, asserted headers (Some policy) ct id FLegalBasis v;
  sat_consent : gp_require_consent policy = true →
    ∃ v, asserted headers (Some policy) ct id FConsent v;
  sat_freshness max : gp_max_source_age_seconds policy = Some max →
    ∃ age limit, evidence_age now headers age ∧ (age ≤ max)%N ∧ (age ≤ limit)%N ∧
      (∃ c, peer_context ct id = Some c ∧ tc_source_observed_age_seconds c = Some limit) ∧
      route_allows (Some policy) (λ c, tc_source_observed_age_seconds c = Some limit);
  sat_redaction : gp_redaction_fields policy = [];
  sat_odrl : gp_unsupported_odrl_terms policy = [];
}.

Lemma value_in_true l v : value_in l v = true ↔ ∃ x, v = Some x ∧ x ∈ l.
Proof.
  unfold value_in. rewrite is_some_and_true. by setoid_rewrite bool_decide_eq_true.
Qed.

Lemma empty_or_value_in l v :
  is_empty l || value_in l v = true → l = [] ∨ ∃ x, v = Some x ∧ x ∈ l.
Proof. intros [->%is_empty_true|H%value_in_true]%orb_true_iff; auto. Qed.

Lemma collect_empty (l : list string) : btree_collect l = ∅ → l = [].
Proof.
  destruct l as [|x l]; [done|]. intros H. exfalso.
  assert (x ∈ btree_collect (x :: l)) as Hx by (unfold btree_collect; set_solver).
  rewrite H in Hx. by apply elem_of_empty in Hx.
Qed.

Lemma collect_is_empty (l : list string) : bool_decide (btree_collect l = ∅) = is_empty l.
Proof.
  destruct (is_empty l) eqn:E; [apply is_empty_true in E as ->; by apply bool_decide_eq_true|].
  apply bool_decide_eq_false. intros ->%collect_empty. done.
Qed.

Lemma purpose_constraints_empty route policy :
  is_empty (purpose_constraints route policy) =
  negb (negb (is_empty (rt_purposes route))
        || is_some_and (λ policy, negb (is_empty (gp_permitted_purposes policy))) policy).
Proof.
  unfold purpose_constraints. destruct (rt_purposes route), policy as [p|]; simpl;
    try destruct (gp_permitted_purposes p); done.
Qed.

Lemma insert_when_lookup b g ids m h :
  is_some (insert_when b g ids m !! h) = bool_decide (h = g) && b || is_some (m !! h).
Proof.
  unfold insert_when. destruct b; [|by rewrite andb_false_r].
  case_bool_decide; subst; [by rewrite lookup_insert_eq|by rewrite lookup_insert_ne].
Qed.

Lemma purpose_constraints_elem route policy l :
  l ∈ purpose_constraints route policy ↔
  l ≠ [] ∧ (l = rt_purposes route ∨ ∃ p, policy = Some p ∧ l = gp_permitted_purposes p).
Proof.
  unfold purpose_constraints. rewrite elem_of_app.
  destruct (rt_purposes route) as [|x xs] eqn:E1; destruct policy as [p|]; simpl;
    try destruct (gp_permitted_purposes p) as [|y ys] eqn:E2; simpl; set_solver.
Qed.

(** An optional value against the predicate that describes it. *)
Lemma optional_pred {A} (o : option A) (P : A → Prop) :
  (∀ a, o = Some a ↔ P a) →
  match o with Some a => P a ∧ ∀ b, P b → b = a | None => ∀ a, ¬ P a end.
Proof.
  intros H. destruct o as [a|]; [split; [by apply H|intros b Hb%H; congruence]|].
  by intros a Ha%H.
Qed.

Section satisfied.
Context {HL : HttpLib} {PD : PdpLib} {PDS : PdpSpec} {SL : Sha256Lib}.

Lemma permit_satisfied now_at now_age m headers identity ct p cx hash audit policy :
  rt_governed_policy (rm_route m) = Some policy →
  request_context now_at now_age m headers identity ct p = Ok cx →
  pdp_decide cx (request_policy m hash) = Permit audit →
  policy_satisfied now_age policy headers ct (pi_value identity) p.
Proof.
  intros Hpol Hcx Hd.
  pose proof (pdp_permit_gates _ _ _ Hd) as (Hp & Hj & Ha & Hmin & Hf & Hl & Hc).
  pose proof (pdp_permit_plain _ _ _ Hd) as [Hred Hodrl]. clear Hd.
  apply request_context_Ok in Hcx as (<- & Rj & Ra & Rl & Rc & Rage).
  rewrite Hpol in Rj, Ra, Rl, Rc, Rage.
  assert (Hfields : request_policy m hash =
    route_policy_input (rm_route m) (Some policy) ("trust-connector:" +:+ rm_upstream_path m) hash)
    by (unfold request_policy; by rewrite Hpol).
  rewrite Hfields in *. clear Hfields Hpol.
  split.
  - clear - Hp. destruct (decide (gp_permitted_purposes policy = [])) as [E|Hne]; [by left|]. right.
    unfold purpose_gate in Hp. rewrite forallb_elem_of in Hp.
    apply (bool_decide_eq_true_1 (cx_purpose cx ∈ gp_permitted_purposes policy)), Hp.
    apply purpose_constraints_elem. eauto.
  - clear - Hj Rj. apply empty_or_value_in in Hj as [H|(v & Hv & Hin)]; [by left|].
    right. exists v. split; [exact Hin|by apply Rj].
  - clear - Ha Ra. apply empty_or_value_in in Ha as [H|(v & Hv & Hin)]; [by left|].
    right. exists v. split; [exact Hin|by apply Ra].
  - clear - Hmin Ra. intros minimum Hreq. unfold minimum_assurance_gate in Hmin. cbn in Hmin.
    rewrite Hreq in Hmin. apply is_some_and_true in Hmin as (v & Hv & Hr). exists v.
    split; [exact Hr|by apply Ra].
  - clear - Hl Rl. intros Hreq. unfold legal_basis_gate in Hl. cbn in Hl. rewrite Hreq in Hl.
    destruct (cx_legal_basis_ref cx) as [v|]; [|discriminate Hl]. exists v. by apply Rl.
  - clear - Hc Rc. intros Hreq. unfold consent_gate in Hc. cbn in Hc. rewrite Hreq in Hc.
    destruct (cx_consent_ref cx) as [v|]; [|discriminate Hc]. exists v. by apply Rc.
  - clear - Hf Rage. intros max Hmax. unfold freshness_gate in Hf. cbn in Hf. rewrite Hmax in Hf.
    apply is_some_and_true in Hf as (age & Hage & Hle). apply N.leb_le in Hle.
    destruct (Rage age Hage) as (? & limit & ? & ? & ?). exists age, limit. auto.
  - clear - Hred. by apply collect_empty.
  - clear - Hodrl. exact Hodrl.
Qed.

Lemma single_data_purpose_Ok headers o :
  single_data_purpose headers = Ok o → data_purpose_values headers = option_list o.
Proof. unfold single_data_purpose. repeat case_match; try done; by intros [= <-]. Qed.
End satisfied.

(** What the purpose and the trust assertions of an authorised request satisfy. *)
Definition purpose_authorized {HL : HttpLib} {PD : PdpLib} (now : SystemTime) (route : RouteConfig)
    (headers : HeaderMap)
    (ct : option ClientTrustConfig) (id : string) (o : option string) : Prop :=
  ungated route ∧ data_purpose_values headers = option_list o ∨
  ∃ p, o = Some p ∧ data_purpose_values headers = [p] ∧
    (rt_purposes route = [] ∨ p ∈ rt_purposes route) ∧
    (rt_require_purpose route = true →
       rt_purposes route ≠ [] ∨
       ∃ policy, rt_governed_policy route = Some policy ∧ gp_permitted_purposes policy ≠ []) ∧
    ∀ policy, rt_governed_policy route = Some policy →
      policy_satisfied now policy headers ct id p.

Lemma authorize_purpose_Ok {HL : HttpLib} {PD : PdpLib} {PDS : PdpSpec} {SL : Sha256Lib}
    (store : CacheStore) (now_at now_age : SystemTime) (m : RouteMatch) (headers : HeaderMap)
    (identity : PeerIdentity) (ct : option ClientTrustConfig) (o : option string) :
  snd (authorize_server_purpose store now_at now_age m headers identity ct) = Ok o →
  purpose_authorized now_age (rm_route m) headers ct (pi_value identity) o.
Proof.
  intros H%authorize_cases. unfold purpose_authorized.
  destruct (single_data_purpose headers) as [purpose|] eqn:Es; [|done].
  apply single_data_purpose_Ok in Es. destruct H as [[Hu [= <-]]|[_ H]]; [by left|]. right.
  destruct purpose as [p|]; [|done]. destruct H as [(_ & _ & ?)|[Hreq H]]; [done|].
  destruct (request_context now_at now_age m headers identity ct p) as [cx|] eqn:Ecx; [|done].
  destruct H as [hash H]. destruct (pdp_decide cx _) as [audit|?|?] eqn:Ed; [|done..].
  injection H as ->. exists p. split_and!; [done|done| | |].
  - pose proof (pdp_permit_gates _ _ _ Ed) as (Hp & _). unfold purpose_gate in Hp.
    rewrite forallb_elem_of in Hp. apply request_context_Ok in Ecx as (<- & _).
    destruct (decide (rt_purposes (rm_route m) = [])); [by left|]. right.
    apply (bool_decide_eq_true_1 (cx_purpose cx ∈ rt_purposes (rm_route m))), Hp.
    apply purpose_constraints_elem. auto.
  - intros Hr. specialize (Hreq Hr). destruct (purpose_constraints _ _) as [|l ls] eqn:El; [done|].
    assert (Hl : l ∈ purpose_constraints (rm_route m) (rt_governed_policy (rm_route m)))
      by (rewrite El; left).
    apply purpose_constraints_elem in Hl as [Hne [->|(q & ? & ->)]]; eauto.
  - intros policy Hpol. by eapply permit_satisfied.
Qed.

Module Claims.
(** C2: A request the server authorises carries an authorised purpose: either the
    route has no purpose rule at all and the purpose (at most one value) passes
    through, or the request carries exactly one non-blank [data-purpose], that
    value is the one returned, it is in the route's list and in the governed
    policy's list where they are non-empty, at least one list is non-empty when the
    route requires a purpose, and every gate of the governed policy holds of
    assertions that the request makes, that the peer's entitlement grants with
    exactly that value and that the route's own trusted context does not exclude:
    jurisdiction, assurance in the allowed set and at the required minimum, legal basis,
    consent, and an age of the source, as the request states it or follows from the time
    of observation it states, within the policy's maximum and the peer's limit.
    Policies that need redaction or have unsupported terms never authorise. *)
Theorem server_purpose_authorized {HL : HttpLib} {PD : PdpLib} {PDS : PdpSpec} {SL : Sha256Lib}
    (store : CacheStore) (now_at now_age : SystemTime) (m : RouteMatch) (headers : HeaderMap)
    (identity : PeerIdentity) (ct : option ClientTrustConfig) (o : option string) :
  snd (authorize_server_purpose store now_at now_age m headers identity ct) = Ok o →
  purpose_authorized now_age (rm_route m) headers ct (pi_value identity) o.
Proof. apply authorize_purpose_Ok. Qed.

(** C34: Why authorisation fails: [PurposeDenied] only for a repeated purpose or
    for a route that requires one and lists none, [PurposeRequired] only when a
    purpose rule meets a request without purpose, and otherwise a policy denial
    whose code is one of the eighteen stable codes. *)
Theorem server_purpose_denied {HL : HttpLib} {PD : PdpLib} {SL : Sha256Lib}
    (store : CacheStore) (now_at now_age : SystemTime) (m : RouteMatch) (headers : HeaderMap)
    (identity : PeerIdentity) (ct : option ClientTrustConfig) (e : ConnectorProblem) :
  snd (authorize_server_purpose store now_at now_age m headers identity ct) = Err e →
  let route := rm_route m in
  let values := data_purpose_values headers in
  e = PurposeDenied ∧ 2 ≤ length values ∨
  e = PurposeDenied ∧ length values = 1 ∧ rt_require_purpose route = true ∧
    rt_purposes route = [] ∧
    (∀ policy, rt_governed_policy route = Some policy → gp_permitted_purposes policy = []) ∨
  e = PurposeRequired ∧ values = [] ∧ ¬ ungated route ∨
  ∃ code, e = PdpDenied code ∧ code ∈ pdp_codes ∧ length values = 1 ∧ ¬ ungated route.
Proof.
  intros H%authorize_cases. simpl.
  destruct (single_data_purpose headers) as [purpose|e'] eqn:Es.
  2:{ injection H as <-. revert Es. unfold single_data_purpose.
      destruct (data_purpose_values headers) as [|a [|b l]]; [done..|].
      intros [= <-]. left. simpl. split; [done|lia]. }
  apply single_data_purpose_Ok in Es. rewrite Es. destruct H as [[_ ?]|[Hu H]]; [done|]. right.
  destruct purpose as [p|]; simpl; [|by injection H as ->; right; left].
  destruct H as [(Hr & Hc & [= ->])|[_ H]].
  - left. split_and!; [done..| |].
    + destruct (decide (rt_purposes (rm_route m) = [])); [done|].
      assert (Hin : rt_purposes (rm_route m) ∈ purpose_constraints (rm_route m) (rt_governed_policy (rm_route m)))
        by (apply purpose_constraints_elem; auto).
      rewrite Hc in Hin. by apply not_elem_of_nil in Hin.
    + intros policy Hp. destruct (decide (gp_permitted_purposes policy = [])); [done|].
      assert (Hin : gp_permitted_purposes policy ∈ purpose_constraints (rm_route m) (rt_governed_policy (rm_route m)))
        by (apply purpose_constraints_elem; eauto).
      rewrite Hc in Hin. by apply not_elem_of_nil in Hin.
  - right; right.
    destruct (request_context now_at now_age m headers identity ct p) as [cx|e'] eqn:Ecx.
    + destruct H as [hash H]. destruct (pdp_decide cx _) as [|?|? c]; [done|..];
        injection H as ->; eexists; split_and!; try done.
      * unfold pdp_codes. set_solver.
      * rewrite pdp_problem_code_stable. case_decide; [done|]. unfold pdp_codes. set_solver.
    + injection H as ->. apply request_context_Err in Ecx as ->. eexists. split_and!; try done.
      unfold pdp_codes. set_solver.
Qed.

(** A route with a governed policy, an entitled peer and a request that meets it. *)
Definition wit_context : GovernedTrustedContextConfig := {|
  tc_jurisdiction := Some "ZZ"; tc_asserted_assurance := Some "substantial";
  tc_legal_basis_ref := Some "law:test"; tc_consent_ref := Some "consent:test";
  tc_source_observed_age_seconds := Some 300%N |}.
Definition wit_gov : GovernedRoutePolicyConfig := {|
  gp_permitted_purposes := ["operations"]; gp_permitted_jurisdictions := ["ZZ"];
  gp_allowed_assurance := ["substantial"]; gp_minimum_assurance := Some "low";
  gp_max_source_age_seconds := Some 60%N; gp_require_legal_basis := true;
  gp_require_consent := true; gp_redaction_fields := []; gp_unsupported_odrl_terms := [];
  gp_trusted_context := GovernedTrustedContextConfig_default |}.
Definition wit_governed_route (purposes : list string) (gov : option GovernedRoutePolicyConfig)
    : RouteMatch := {|
  rm_route := {|
    rt_id := "relay"; rt_methods := ["GET"]; rt_local_prefix := Some "/relay";
    rt_upstream_prefix := Some "/v1"; rt_require_purpose := true; rt_purpose_source := None;
    rt_client_identity := Some "spiffe://client.example/w"; rt_client_identities := [];
    rt_upstream_auth_header_env := Some "TOKEN"; rt_forward_client_identity_header := false;
    rt_purposes := purposes; rt_governed_policy := gov;
    rt_allow_forward_authorization := false; rt_allow_forward_cookie := false;
    rt_policy_hash := 0 |};
  rm_upstream_path := "/v1/x" |}.
Definition wit_peer : PeerIdentity := {|
  pi_value := "spiffe://client.example/w"; pi_kind := UriSan; pi_fingerprint_sha256 := EmptyString |}.
Definition wit_entitled : ClientTrustConfig := {|
  ct_allowed_identities := ["spiffe://client.example/w"]; ct_trust_anchors := [];
  ct_denied_certificate_fingerprints_sha256 := [];
  ct_trust_context_entitlements :=
    [{| te_client_identity := "spiffe://client.example/w"; te_trusted_context := wit_context |}] |}.
Definition wit_headers : @HeaderMap Ref.ref_http :=
  [("data-purpose", " operations "); (TRUST_JURISDICTION, "ZZ"); (TRUST_ASSURANCE, "substantial");
   (TRUST_LEGAL_BASIS, "law:test"); (TRUST_CONSENT, "consent:test");
   (TRUST_SOURCE_OBSERVED_AGE_SECONDS, "30")].

Lemma server_purpose_authorized_witness :
  @purpose_authorized Ref.ref_http ref_pdp 0%Z (rm_route (wit_governed_route ["operations"; "audit"] (Some wit_gov)))
    wit_headers (Some wit_entitled) "spiffe://client.example/w" (Some "operations").
Proof.
  apply (@server_purpose_authorized Ref.ref_http ref_pdp ref_pdp_spec ref_sha256 ∅ 0%Z 0%Z
    (wit_governed_route ["operations"; "audit"] (Some wit_gov)) wit_headers wit_peer
    (Some wit_entitled) (Some "operations")).
  vm_compute. reflexivity.
Defined.

Lemma server_purpose_denied_witness :
  let route := rm_route (wit_governed_route ["audit"] None) in
  let values := @data_purpose_values Ref.ref_http wit_headers in
  let e := PdpDenied "pdp.purpose_not_permitted" in
  e = PurposeDenied ∧ 2 ≤ length values ∨
  e = PurposeDenied ∧ length values = 1 ∧ rt_require_purpose route = true ∧
    rt_purposes route = [] ∧
    (∀ policy, rt_governed_policy route = Some policy → gp_permitted_purposes policy = []) ∨
  e = PurposeRequired ∧ values = [] ∧ ¬ ungated route ∨
  ∃ code, e = PdpDenied code ∧ code ∈ @pdp_codes ref_pdp ∧ length values = 1 ∧ ¬ ungated route.
Proof.
  apply (@server_purpose_denied Ref.ref_http ref_pdp ref_sha256 ∅ 0%Z 0%Z
    (wit_governed_route ["audit"] None) wit_headers wit_peer None).
  vm_compute. reflexivity.
Defined.

(** A purpose outside the route's list is refused with a policy code and never
    with the connector's own [connector.purpose_denied], which the documentation
    names for this case. *)
Theorem unlisted_purpose_is_policy_denial {HL : HttpLib} {PD : PdpLib} {PDS : PdpSpec} {SL : Sha256Lib}
    (store : CacheStore) (now_at now_age : SystemTime) (m : RouteMatch) (headers : HeaderMap)
    (identity : PeerIdentity) (ct : option ClientTrustConfig) (p : string) :
  data_purpose_values headers = [p] → rt_purposes (rm_route m) ≠ [] →
  p ∉ rt_purposes (rm_route m) →
  ∃ code, snd (authorize_server_purpose store now_at now_age m headers identity ct)
      = Err (PdpDenied code) ∧ code ∈ pdp_codes.
Proof.
  intros Hv Hne Hnin.
  assert (Hstale : EVIDENCE_STALE ∈ pdp_codes) by (unfold pdp_codes; set_solver).
  assert (Hterm : UNSUPPORTED_POLICY_TERM ∈ pdp_codes) by (unfold pdp_codes; set_solver).
  pose proof (authorize_cases store now_at now_age m headers identity ct _ eq_refl) as H.
  assert (Hs : single_data_purpose headers = Ok (Some p)) by (unfold single_data_purpose; by rewrite Hv).
  rewrite Hs in H. destruct H as [[[Hu _] _]|[_ H]]; [done|].
  assert (Hc : rt_purposes (rm_route m) ∈ purpose_constraints (rm_route m) (rt_governed_policy (rm_route m)))
    by (apply purpose_constraints_elem; auto).
  destruct H as [(_ & Hnil & _)|[_ H]]; [rewrite Hnil in Hc; by apply not_elem_of_nil in Hc|].
  destruct (request_context now_at now_age m headers identity ct p) as [cx|e] eqn:Ecx.
  - destruct H as [hash ->]. destruct (pdp_decide cx _) as [audit|?|? c] eqn:Ed; simpl; [|by eauto|].
    + pose proof (pdp_permit_gates _ _ _ Ed) as (Hp & _). unfold purpose_gate in Hp.
      rewrite forallb_elem_of in Hp. apply request_context_Ok in Ecx as (<- & _).
      by apply (bool_decide_eq_true_1 (cx_purpose cx ∈ rt_purposes (rm_route m))) in Hp.
    + eexists; split; [done|]. rewrite pdp_problem_code_stable. case_decide; [done|].
      unfold pdp_codes. set_solver.
  - apply request_context_Err in Ecx as ->. eauto.
Qed.

Lemma unlisted_purpose_is_policy_denial_witness :
  ∃ code, snd (@authorize_server_purpose Ref.ref_http ref_pdp ref_sha256 ∅ 0%Z 0%Z
      (wit_governed_route ["audit"] None) wit_headers wit_peer None)
      = Err (PdpDenied code) ∧ code ∈ @pdp_codes ref_pdp.
Proof.
  apply (@unlisted_purpose_is_policy_denial Ref.ref_http ref_pdp ref_pdp_spec ref_sha256 ∅ 0%Z 0%Z
    (wit_governed_route ["audit"] None) wit_headers wit_peer None "operations").
  - vm_compute. reflexivity.
  - discriminate.
  - change ("operations" ∉ ["audit"]). intros Hin%list_elem_of_singleton. discriminate Hin.
Defined.

(** C25: Trust headers of a peer without entitlement do not influence the decision:
    two requests of such a peer with the same purposes and the same descriptive
    headers are decided alike, at any time of day, whatever jurisdiction,
    assurance, legal basis, consent or freshness they claim. *)
Theorem trust_headers_need_entitlement {HL : HttpLib} {PD : PdpLib} {SL : Sha256Lib}
    (store : CacheStore) (t1 t2 t1' t2' : SystemTime) (m : RouteMatch) (h1 h2 : HeaderMap)
    (identity : PeerIdentity) (ct : option ClientTrustConfig) :
  peer_context ct (pi_value identity) = None →
  data_purpose_values h1 = data_purpose_values h2 →
  (∀ n, n ∈ ["x-registry-subject-ref"; "x-registry-relationship"; "x-registry-on-behalf-of";
             "x-registry-credential-format"] → trust_header_value h1 n = trust_header_value h2 n) →
  authorize_server_purpose store t1 t2 m h1 identity ct =
  authorize_server_purpose store t1' t2' m h2 identity ct.
Proof.
  intros Hpeer Hval Hdesc. unfold authorize_server_purpose, single_data_purpose. rewrite Hval.
  set (scopes := trusted_context_scopes _ _ _).
  assert (Hs : scopes = ∅).
  { apply set_eq. intros s. unfold scopes. rewrite elem_of_trusted_scopes, Hpeer.
    split; [by intros [(c & ? & _) _]|set_solver]. }
  assert (Hv : ∀ h n f, verified_trust_header_value h scopes n f = None).
  { intros h n f. unfold verified_trust_header_value. rewrite Hs.
    destruct (trust_header_value h n); simpl; [|done]. case_bool_decide; set_solver. }
  assert (Hctx : ∀ p rid sb, request_pdp_context t1 t2 p h1 identity scopes rid sb
                           = request_pdp_context t1' t2' p h2 identity scopes rid sb).
  { intros p rid sb. unfold request_pdp_context. rewrite !Hv.
    assert (Hl : source_observed_age_limit_seconds scopes = None) by (by rewrite Hs).
    destruct (age_ungranted t1 h1 _ Hl) as [_ ->]. destruct (age_ungranted t2 h1 _ Hl) as [-> _].
    destruct (age_ungranted t1' h2 _ Hl) as [_ ->]. destruct (age_ungranted t2' h2 _ Hl) as [-> _].
    simpl. rewrite !(Hdesc _) by set_solver. done. }
  destruct (data_purpose_values h2) as [|p [|q l]]; [done| |done]. by rewrite Hctx.
Qed.

Lemma trust_headers_need_entitlement_witness :
  @authorize_server_purpose Ref.ref_http ref_pdp ref_sha256 ∅ 0%Z 0%Z
    (wit_governed_route ["operations"] (Some wit_gov)) wit_headers wit_peer None =
  @authorize_server_purpose Ref.ref_http ref_pdp ref_sha256 ∅ 7%Z 8%Z
    (wit_governed_route ["operations"] (Some wit_gov)) [("data-purpose", "operations")] wit_peer None.
Proof.
  apply (@trust_headers_need_entitlement Ref.ref_http ref_pdp ref_sha256).
  - reflexivity.
  - vm_compute. reflexivity.
  - intros n Hn. unfold trust_header_value, hm_get. cbn [hm_get_all Ref.ref_http].
    repeat (apply elem_of_cons in Hn as [->|Hn]; [vm_compute; reflexivity|]).
    by apply not_elem_of_nil in Hn.
Defined.

(** C35: Which purpose client mode sends: with a purpose required, the configured
    default or the caller's header, as the route says, and only if it is not blank
    (else the request is refused as [PurposeRequired]; an unset source always
    refuses); without, the caller's header passes if it is not blank. *)
Theorem resolve_client_purpose_correct {HL : HttpLib} {UL : UrlLib} (config : ConnectorConfig)
    (m : RouteMatch) (headers : HeaderMap) :
  let route := rm_route m in
  let provided p := not_blank p = true ∧
    ∃ v, head (hm_get_all headers DATA_PURPOSE) = Some v ∧ header_value_to_str v = Some p in
  let default p := not_blank p = true ∧ df_data_purpose (cf_defaults config) = Some p in
  let result := resolve_client_purpose config m headers in
  (∀ p, result = Ok (Some p) ↔
     if rt_require_purpose route then
       rt_purpose_source route = Some ClientProvided ∧ provided p ∨
       rt_purpose_source route = Some StaticRouteDefault ∧ default p
     else provided p) ∧
  (result = Ok None ↔ rt_require_purpose route = false ∧ ∀ p, ¬ provided p) ∧
  (∀ e, result = Err e ↔ e = PurposeRequired ∧ rt_require_purpose route = true ∧
     (rt_purpose_source route = Some ClientProvided → ∀ p, ¬ provided p) ∧
     (rt_purpose_source route = Some StaticRouteDefault → ∀ p, ¬ default p)).
Proof.
  set (given := opt_filter not_blank (hm_get headers DATA_PURPOSE ≫= header_value_to_str)).
  set (dflt := opt_filter not_blank (df_data_purpose (cf_defaults config))).
  intros route provided default result.
  assert (Hg : ∀ p, given = Some p ↔ provided p).
  { intros p. unfold given, provided, hm_get. rewrite opt_filter_Some, bind_Some. tauto. }
  assert (Hd : ∀ p, dflt = Some p ↔ default p).
  { intros p. unfold dflt, default. rewrite opt_filter_Some. tauto. }
  clearbody provided default. unfold result, resolve_client_purpose. fold given dflt.
  change (rm_route m) with route. clearbody given dflt route. clear result.
  apply optional_pred in Hg, Hd.
  destruct (rt_require_purpose route); [destruct (rt_purpose_source route) as [[]|]|]; simpl;
    destruct given as [g|]; try destruct Hg as [Hg Hg']; destruct dflt as [d|];
    try destruct Hd as [Hd Hd']; simpl; naive_solver.
Qed.

(** The audit rule ids follow the policy: a gate has a rule exactly when the
    policy handed to the decision point constrains it, and the rule of a gate names
    the route. *)
Theorem rule_ids_match_policy (route : RouteConfig) (policy : option GovernedRoutePolicyConfig)
    (source_binding hash : string) (g : PolicyGate) :
  let input := route_policy_input route policy source_binding hash in
  is_some (pl_rule_ids_by_gate input !! g) =
    match g with
    | PolicyIdentity | RequestedFact | RequestedDisclosure | SourceBinding | RouteIdentity => true
    | Purpose => negb (is_empty (pl_purpose_constraints input))
    | Jurisdiction => negb (is_empty (pl_permitted_jurisdictions input))
    | AssuranceAllowedSet => negb (is_empty (pl_allowed_assurance input))
    | MinimumAssurance => is_some (pl_minimum_assurance input)
    | SourceFreshness => is_some (pl_max_source_age_seconds input)
    | LegalBasisRequired => pl_require_legal_basis input
    | ConsentRequired => pl_require_consent input
    | OdrlTerms => negb (is_empty (pl_unsupported_odrl_terms input))
    | Redaction => negb (bool_decide (pl_redaction_fields input = ∅))
    end.
Proof.
  cbn [route_policy_input pl_rule_ids_by_gate pl_purpose_constraints pl_permitted_jurisdictions
    pl_allowed_assurance pl_minimum_assurance pl_max_source_age_seconds pl_require_legal_basis
    pl_require_consent pl_unsupported_odrl_terms pl_redaction_fields].
  rewrite purpose_constraints_empty, negb_involutive. unfold route_pdp_rule_ids_by_gate.
  destruct policy as [p|]; rewrite ?collect_is_empty, !insert_when_lookup; destruct g; simpl;
    rewrite ?orb_false_r; reflexivity.
Qed.
End Claims.
