(* ===== verification/Conformance.v ===== *)
(** * The program's unit tests ([src/src/proxy.rs], [mod tests])

    The tests that come with the proxy, run against the model: each test is a function
    of what it reads from outside (the clock, the policy decision point, SHA-256) to
    its verdict, with the fixtures the tests share.  A route built with [..route] takes
    the policy hash cell of [route] with it, one built with [..test_route()] has a cell
    of its own.  The tests run on the reference instances of the libraries, with a
    digest that depends on the whole input. *)
From S2P Require Import Prelude RustStr BTree Errors External Reference Http Pdp Config Routing.
From S2P Require Import Identity PolicyHash Purpose.
From Stdlib Require Import Ascii.

(** ** A digest of the whole input

    Horner's rule modulo [2^256], written as 32 bytes. *)
Fixpoint horner (acc : N) (s : string) : N :=
  match s with
  | EmptyString => acc
  | String c s => horner ((acc * 257 + byte_val c + 1) mod 2 ^ 256)%N s
  end.
Fixpoint le_bytes (k : nat) (n : N) : string :=
  match k with
  | O => EmptyString
  | S k => String (ascii_of_N (n mod 256)%N) (le_bytes k (n / 256)%N)
  end.
Definition mixing_sha256 : Sha256Lib := {| sha256_digest s := le_bytes 32 (horner 7%N s) |}.

Lemma le_bytes_length k n : String.length (le_bytes k n) = k.
Proof. revert n. induction k as [|k IH]; intros n; simpl; [done|by rewrite IH]. Qed.

Global Instance mixing_sha256_spec : @Sha256Spec mixing_sha256.
Proof. split. intros s. apply le_bytes_length. Qed.

(** ** Fixtures *)
Definition GovernedRoutePolicyConfig_default : GovernedRoutePolicyConfig := {|
  gp_permitted_purposes := []; gp_permitted_jurisdictions := []; gp_allowed_assurance := [];
  gp_minimum_assurance := None; gp_max_source_age_seconds := None; gp_require_legal_basis := false;
  gp_require_consent := false; gp_redaction_fields := []; gp_unsupported_odrl_terms := [];
  gp_trusted_context := GovernedTrustedContextConfig_default |}.

(** The fields in which the tests' routes differ, and the cell. *)
Definition route_with (cell : nat) (methods : list Method) (upstream_prefix client_identity : string)
    (client_identities purposes : list string) (governed_policy : option GovernedRoutePolicyConfig)
    : RouteConfig := {|
  rt_id := "server-route"; rt_methods := methods; rt_local_prefix := None;
  rt_upstream_prefix := Some upstream_prefix; rt_require_purpose := true; rt_purpose_source := None;
  rt_client_identity := Some client_identity; rt_client_identities := client_identities;
  rt_upstream_auth_header_env := Some "REGISTRY_PROXY_POLICY_TOKEN";
  rt_forward_client_identity_header := false; rt_purposes := purposes;
  rt_governed_policy := governed_policy; rt_allow_forward_authorization := false;
  rt_allow_forward_cookie := false; rt_policy_hash := cell |}.

Definition client_a : string := "spiffe://openspp.example/client-a".

Definition test_route : RouteConfig :=
  route_with 0 ["GET"; "POST"] "/relay/packages" client_a [] ["operations"; "eligibility"] None.

Definition test_identity : PeerIdentity := {|
  pi_value := client_a; pi_kind := UriSan; pi_fingerprint_sha256 := "sha256:test" |}.

Definition trusted_context_grants : GovernedTrustedContextConfig := {|
  tc_jurisdiction := Some "ZZ"; tc_asserted_assurance := Some "substantial";
  tc_legal_basis_ref := Some "law:test"; tc_consent_ref := Some "consent:test";
  tc_source_observed_age_seconds := Some 5%N |}.

Definition client_trust_with_source_age_grant (source_observed_age_seconds : N) : ClientTrustConfig := {|
  ct_allowed_identities := [client_a]; ct_trust_anchors := [];
  ct_denied_certificate_fingerprints_sha256 := [];
  ct_trust_context_entitlements := [{|
    te_client_identity := client_a;
    te_trusted_context := {|
      tc_jurisdiction := tc_jurisdiction trusted_context_grants;
      tc_asserted_assurance := tc_asserted_assurance trusted_context_grants;
      tc_legal_basis_ref := tc_legal_basis_ref trusted_context_grants;
      tc_consent_ref := tc_consent_ref trusted_context_grants;
      tc_source_observed_age_seconds := Some source_observed_age_seconds |} |}] |}.

Definition test_client_trust : ClientTrustConfig := client_trust_with_source_age_grant 5%N.

Definition context_age (age : N) : GovernedTrustedContextConfig := {|
  tc_jurisdiction := None; tc_asserted_assurance := None; tc_legal_basis_ref := None;
  tc_consent_ref := None; tc_source_observed_age_seconds := Some age |}.
Definition context_jurisdiction (j : string) (legal_basis_ref : option string)
    : GovernedTrustedContextConfig := {|
  tc_jurisdiction := Some j; tc_asserted_assurance := None; tc_legal_basis_ref := legal_basis_ref;
  tc_consent_ref := None; tc_source_observed_age_seconds := None |}.

(** [RouteConfig { governed_policy: Some(..), ..test_route() }], with a cell of its own. *)
Definition governed_route (policy : GovernedRoutePolicyConfig) : RouteConfig :=
  route_with 1 ["GET"; "POST"] "/relay/packages" client_a [] ["operations"; "eligibility"] (Some policy).

Definition route_match_of (route : RouteConfig) : RouteMatch :=
  {| rm_route := route; rm_upstream_path := "/relay/packages/records" |}.

(** The policy with every gate the tests use, over a context that grants them. *)
Definition full_policy (context : GovernedTrustedContextConfig) : GovernedRoutePolicyConfig := {|
  gp_permitted_purposes := ["operations"]; gp_permitted_jurisdictions := ["ZZ"];
  gp_allowed_assurance := ["substantial"]; gp_minimum_assurance := None;
  gp_max_source_age_seconds := None; gp_require_legal_basis := true; gp_require_consent := true;
  gp_redaction_fields := []; gp_unsupported_odrl_terms := []; gp_trusted_context := context |}.
Definition age_policy (max age : N) : GovernedRoutePolicyConfig := {|
  gp_permitted_purposes := []; gp_permitted_jurisdictions := []; gp_allowed_assurance := [];
  gp_minimum_assurance := None; gp_max_source_age_seconds := Some max; gp_require_legal_basis := false;
  gp_require_consent := false; gp_redaction_fields := []; gp_unsupported_odrl_terms := [];
  gp_trusted_context := context_age age |}.

Section tests.
Context {PD : PdpLib} {SL : Sha256Lib}.

Definition purpose_header (p : string) : @HeaderMap Ref.ref_http := [(DATA_PURPOSE, p)].
Definition full_headers : @HeaderMap Ref.ref_http :=
  [(DATA_PURPOSE, "operations"); (TRUST_JURISDICTION, "ZZ"); (TRUST_ASSURANCE, "substantial");
   (TRUST_LEGAL_BASIS, "law:test"); (TRUST_CONSENT, "consent:test")].

(** [authorize_server_purpose] with the clock at [now] seconds, and its decision line. *)
Definition authorize_at (now : Z) (route : RouteConfig) (headers : @HeaderMap Ref.ref_http)
    (trust : option ClientTrustConfig) : option DecisionLog * result ConnectorProblem (option string) :=
  let '(_, log, r) := @authorize_server_purpose Ref.ref_http PD SL ∅ (now * 1000000000)%Z
    (now * 1000000000)%Z (route_match_of route) headers test_identity trust in
  (log, r).

Definition result_is (expected : result ConnectorProblem (option string))
    (r : result ConnectorProblem (option string)) : bool :=
  match r, expected with
  | Ok a, Ok b => bool_decide (a = b)
  | Err a, Err b => bool_decide (a = b)
  | _, _ => false
  end.

(** The captured line has the route, the policy, its hash and the rules. *)
Definition log_has_provenance (log : option DecisionLog) : bool :=
  match log with
  | Some log =>
      String.eqb (dl_route_id log) "server-route"
      && String.eqb (dl_policy_id log) "trust-connector.route.server-route"
      && is_some (strip_prefix "sha256:" (dl_policy_hash log))
      && bool_decide ("trust-connector.route.server-route.policy_identity" ∈ dl_evaluated_rule_ids log)
      && bool_decide ("trust-connector.route.server-route.purpose" ∈ dl_evaluated_rule_ids log)
  | None => false
  end.

(** ** The tests of the decision *)
Definition server_purpose_logs_pdp_audit_provenance_for_denials_and_permits : bool :=
  let '(log, r) := authorize_at 0%Z test_route (purpose_header "marketing") (Some test_client_trust) in
  result_is (Err (PdpDenied PURPOSE_NOT_PERMITTED)) r && log_has_provenance log &&
  let '(log, r) := authorize_at 0%Z (governed_route (full_policy trusted_context_grants)) full_headers
    (Some test_client_trust) in
  result_is (Ok (Some "operations")) r && log_has_provenance log.

Definition governed_route_policy_denies_when_required_trusted_context_is_missing : bool :=
  let policy := {|
    gp_permitted_purposes := ["operations"]; gp_permitted_jurisdictions := []; gp_allowed_assurance := [];
    gp_minimum_assurance := None; gp_max_source_age_seconds := None; gp_require_legal_basis := true;
    gp_require_consent := false; gp_redaction_fields := []; gp_unsupported_odrl_terms := [];
    gp_trusted_context := GovernedTrustedContextConfig_default |} in
  result_is (Err (PdpDenied LEGAL_BASIS_REQUIRED))
    (authorize_at 0%Z (governed_route policy) (purpose_header "operations") None).2.

Definition required_purpose_denies_when_no_allowed_purpose_is_configured : bool :=
  let route := route_with 1 ["GET"; "POST"] "/relay/packages" client_a [] []
    (Some GovernedRoutePolicyConfig_default) in
  result_is (Err PurposeDenied) (authorize_at 0%Z route (purpose_header "operations") None).2.

Definition governed_route_policy_permits_when_request_context_satisfies_policy : bool :=
  result_is (Ok (Some "operations"))
    (authorize_at 0%Z (governed_route (full_policy trusted_context_grants)) full_headers
      (Some test_client_trust)).2.

Definition governed_route_policy_denies_missing_request_source_age_despite_static_context : bool :=
  result_is (Err (PdpDenied EVIDENCE_STALE))
    (authorize_at 0%Z (governed_route (age_policy 30%N 5%N)) (purpose_header "operations") None).2.

Definition governed_route_policy_permits_fresh_dynamic_source_age_when_granted : bool :=
  let headers := @hm_insert Ref.ref_http (purpose_header "operations") TRUST_SOURCE_OBSERVED_AGE_SECONDS "4" in
  result_is (Ok (Some "operations"))
    (authorize_at 0%Z (governed_route (age_policy 30%N 5%N)) headers (Some test_client_trust)).2.

(** [now] is the reading of the test, [later] that of the code under test. *)
Definition governed_route_policy_permits_fresh_unix_source_timestamp_when_granted (now later : N) : bool :=
  let headers := @hm_insert Ref.ref_http (purpose_header "operations")
    "x-registry-source-observed-at-unix-seconds" (u64_to_string now) in
  result_is (Ok (Some "operations"))
    (authorize_at (Z.of_N later) (governed_route (age_policy 30%N 30%N)) headers
      (Some (client_trust_with_source_age_grant 30%N))).2.

Definition governed_route_policy_denies_unix_source_timestamp_older_than_grant (now later : N) : bool :=
  let headers := @hm_insert Ref.ref_http (purpose_header "operations")
    "x-registry-source-observed-at-unix-seconds" (u64_to_string (now - 60)%N) in
  result_is (Err (PdpDenied EVIDENCE_STALE))
    (authorize_at (Z.of_N later) (governed_route (age_policy 30%N 5%N)) headers (Some test_client_trust)).2.

Definition governed_route_policy_ignores_ungranted_trust_headers : bool :=
  result_is (Err (PdpDenied JURISDICTION_NOT_PERMITTED))
    (authorize_at 0%Z (governed_route (full_policy GovernedTrustedContextConfig_default)) full_headers None).2.

Definition governed_route_policy_denies_mismatched_trusted_context_grants : bool :=
  let policy := {|
    gp_permitted_purposes := ["operations"]; gp_permitted_jurisdictions := ["ZZ"];
    gp_allowed_assurance := []; gp_minimum_assurance := None; gp_max_source_age_seconds := None;
    gp_require_legal_basis := false; gp_require_consent := false; gp_redaction_fields := [];
    gp_unsupported_odrl_terms := []; gp_trusted_context := context_jurisdiction "RW" None |} in
  let headers := @hm_insert Ref.ref_http (purpose_header "operations") TRUST_JURISDICTION "ZZ" in
  result_is (Err (PdpDenied JURISDICTION_NOT_PERMITTED))
    (authorize_at 0%Z (governed_route policy) headers (Some test_client_trust)).2.

Definition terms_policy (redaction_fields unsupported_odrl_terms purposes : list string)
    : GovernedRoutePolicyConfig := {|
  gp_permitted_purposes := purposes; gp_permitted_jurisdictions := []; gp_allowed_assurance := [];
  gp_minimum_assurance := None; gp_max_source_age_seconds := None; gp_require_legal_basis := false;
  gp_require_consent := false; gp_redaction_fields := redaction_fields;
  gp_unsupported_odrl_terms := unsupported_odrl_terms;
  gp_trusted_context := GovernedTrustedContextConfig_default |}.

Definition governed_route_policy_denies_unsupported_odrl_terms : bool :=
  result_is (Err (PdpDenied UNSUPPORTED_POLICY_TERM))
    (authorize_at 0%Z (governed_route (terms_policy [] ["odrl:spatial"] ["operations"]))
      (purpose_header "operations") None).2.

Definition governed_route_policy_denies_redaction_decisions_it_cannot_enforce : bool :=
  result_is (Err (PdpDenied UNSUPPORTED_POLICY_TERM))
    (authorize_at 0%Z (governed_route (terms_policy ["claims.ssn"] [] ["operations"]))
      (purpose_header "operations") None).2.

(** ** The tests of the policy hash *)
Definition hash_for_route (store : CacheStore) (route : RouteConfig) : CacheStore * string :=
  route_purpose_policy_hash store (route_match_of route).

(** [baseline] is computed first; the changed route has the cell of the first. *)
Definition hash_changes (changed : RouteConfig) : bool :=
  let '(store, baseline) := hash_for_route ∅ test_route in
  let '(_, changed) := hash_for_route store changed in
  negb (String.eqb baseline changed).

Definition route_purpose_policy_hash_changes_for_client_identity : bool :=
  hash_changes (route_with 0 ["GET"; "POST"] "/relay/packages" "spiffe://openspp.example/client-b" []
    ["operations"; "eligibility"] None).

Definition route_purpose_policy_hash_changes_for_method_set : bool :=
  hash_changes (route_with 0 ["GET"] "/relay/packages" client_a [] ["operations"; "eligibility"] None).

Definition route_purpose_policy_hash_changes_for_upstream_route_material : bool :=
  hash_changes (route_with 0 ["GET"; "POST"] "/relay/search" client_a [] ["operations"; "eligibility"] None).

Definition route_purpose_policy_hash_changes_for_governed_policy_material : bool :=
  let policy := {|
    gp_permitted_purposes := []; gp_permitted_jurisdictions := ["ZZ"]; gp_allowed_assurance := [];
    gp_minimum_assurance := None; gp_max_source_age_seconds := None; gp_require_legal_basis := true;
    gp_require_consent := false; gp_redaction_fields := []; gp_unsupported_odrl_terms := [];
    gp_trusted_context := context_jurisdiction "ZZ" (Some "law:test") |} in
  hash_changes (route_with 0 ["GET"; "POST"] "/relay/packages" client_a [] ["operations"; "eligibility"]
    (Some policy)).

Definition route_purpose_policy_hash_changes_for_unsupported_odrl_terms : bool :=
  hash_changes (route_with 0 ["GET"; "POST"] "/relay/packages" client_a [] ["operations"; "eligibility"]
    (Some (terms_policy [] ["odrl:spatial"] []))).

Definition route_purpose_policy_hash_is_stable_for_set_ordering : bool :=
  let reordered := route_with 1 ["POST"; "GET"] "/relay/packages" client_a []
    ["eligibility"; "operations"] None in
  let '(store, h1) := hash_for_route ∅ test_route in
  let '(_, h2) := hash_for_route store reordered in
  String.eqb h1 h2.

Definition route_purpose_policy_hash_trims_configured_client_identities : bool :=
  let trimmed := route_with 1 ["GET"; "POST"] "/relay/packages" " spiffe://openspp.example/client-a "
    [" spiffe://openspp.example/client-b "; "spiffe://openspp.example/client-c"]
    ["operations"; "eligibility"] None in
  let normalized := route_with 2 ["GET"; "POST"] "/relay/packages" client_a
    ["spiffe://openspp.example/client-c"; "spiffe://openspp.example/client-b"]
    ["operations"; "eligibility"] None in
  let '(store, h1) := hash_for_route ∅ trimmed in
  let '(store, h2) := hash_for_route store normalized in
  let '(store, h3) := hash_for_route store test_route in
  let '(_, h4) := hash_for_route store normalized in
  String.eqb h1 h2 && negb (String.eqb h3 h4).

Definition peer_trusted_context_scopes_trims_configured_identity : bool :=
  let trust := {|
    ct_allowed_identities := ct_allowed_identities test_client_trust;
    ct_trust_anchors := ct_trust_anchors test_client_trust;
    ct_denied_certificate_fingerprints_sha256 := ct_denied_certificate_fingerprints_sha256 test_client_trust;
    ct_trust_context_entitlements :=
      match ct_trust_context_entitlements test_client_trust with
      | e :: rest => {| te_client_identity := " spiffe://openspp.example/client-a ";
                        te_trusted_context := te_trusted_context e |} :: rest
      | [] => []
      end |} in
  let scopes := peer_trusted_context_scopes (Some trust) "spiffe://openspp.example/client-a" in
  bool_decide ("registry:trust:jurisdiction:ZZ" ∈ scopes)
  && bool_decide ("registry:trust:assurance:substantial" ∈ scopes).

(** ** All tests, at one moment and a second later *)
Definition unit_tests (now : N) : list bool :=
  [server_purpose_logs_pdp_audit_provenance_for_denials_and_permits;
   governed_route_policy_denies_when_required_trusted_context_is_missing;
   required_purpose_denies_when_no_allowed_purpose_is_configured;
   governed_route_policy_permits_when_request_context_satisfies_policy;
   governed_route_policy_denies_missing_request_source_age_despite_static_context;
   governed_route_policy_permits_fresh_dynamic_source_age_when_granted;
   governed_route_policy_permits_fresh_unix_source_timestamp_when_granted now (now + 1)%N;
   governed_route_policy_denies_unix_source_timestamp_older_than_grant now (now + 1)%N;
   governed_route_policy_ignores_ungranted_trust_headers;
   governed_route_policy_denies_mismatched_trusted_context_grants;
   governed_route_policy_denies_unsupported_odrl_terms;
   governed_route_policy_denies_redaction_decisions_it_cannot_enforce;
   route_purpose_policy_hash_changes_for_client_identity;
   route_purpose_policy_hash_changes_for_method_set;
   route_purpose_policy_hash_changes_for_upstream_route_material;
   route_purpose_policy_hash_changes_for_governed_policy_material;
   route_purpose_policy_hash_changes_for_unsupported_odrl_terms;
   route_purpose_policy_hash_is_stable_for_set_ordering;
   route_purpose_policy_hash_trims_configured_client_identities;
   peer_trusted_context_scopes_trims_configured_identity].
End tests.

(** ** Properties *)
Module Claims.
(** The program's unit tests pass on the model. *)
Theorem unit_tests_pass :
  @unit_tests ref_pdp mixing_sha256 1750000000%N = replicate 20 true.
Proof. vm_compute. reflexivity. Qed.
End Claims.
