(* ===== verification/Redaction.v ===== *)
(** * What goes into the logs ([src/src/redaction.rs], [src/src/logging.rs])

    Client identities and certificates are logged as keyed hashes only.  The keyed
    hasher is the platform's audit library; the environment is an argument.  The
    subscriber that renders the lines is chosen from the format and a filter. *)
From S2P Require Import Prelude RustStr Errors External Http Config.

(** The process environment: [env::var(name).ok()]. *)
Definition Environ : Type := string → option string.

(** [registry_platform_audit::AuditKeyHasher]; hashing fails only on an empty
    class or an empty input. *)
Class AuditLib := {
  AuditKeyHasher : Type;
  hasher_from_env : Environ → string → result string AuditKeyHasher;
  unkeyed_dev_only : AuditKeyHasher;
  audit_reference_hash : AuditKeyHasher → string → string → string → option string;
}.
Class AuditSpec `{AuditLib} : Prop := {
  audit_reference_hash_total h class scope input :
    class ≠ EmptyString → input ≠ EmptyString →
    is_Some (audit_reference_hash h class scope input);
  (** A secret that is not set is refused. *)
  hasher_from_env_set environ name h :
    hasher_from_env environ name = Ok h → is_Some (environ name);
}.

Section redaction.
Context {AL : AuditLib}.

Definition audit_key_hasher `{UrlLib} (environ : Environ) (config : ConnectorConfig)
    : result ConnectorError AuditKeyHasher :=
  match au_hash_secret_env (cf_audit config) with
  | Some env_var =>
      map_err (λ err, InvalidConfig ("audit hash secret is invalid: " +:+ err))
        (hasher_from_env environ env_var)
  | None =>
      if au_allow_unkeyed_hashing (cf_audit config) then Ok unkeyed_dev_only
      else Err (InvalidConfig
        "audit.hash_secret_env is required unless audit.allow_unkeyed_hashing is true")
  end.

(** The two log hashes; [None] is the panic of [expect]. *)
Definition identity_hash_for_log (hasher : AuditKeyHasher) (value : string) : option string :=
  audit_reference_hash hasher "registry-trust-connector-client-identity-v1" EmptyString value.

Definition certificate_hash_for_log (hasher : AuditKeyHasher) (fingerprint_sha256 : string)
    : option string :=
  audit_reference_hash hasher "registry-trust-connector-client-cert-v1" EmptyString fingerprint_sha256.
End redaction.

Definition sanitized_path (path : string) : string := path.

Definition has_sensitive_headers `{HttpLib} (headers : HeaderMap) : bool :=
  negb (is_empty (hm_get_all headers "authorization"))
  || negb (is_empty (hm_get_all headers "cookie")).

(** ** Log format *)
Inductive LogFormat : Type := Text | Json.

Definition log_format (environ : Environ) : LogFormat :=
  let value := to_ascii_lowercase
    (unwrap_or EmptyString (environ "REGISTRY_TRUST_CONNECTOR_LOG_FORMAT")) in
  if String.eqb value "json" || String.eqb value "jsonl" then Json else Text.

(** A reference hasher: the class, a separator and the input. *)
Definition ref_audit : AuditLib := {|
  AuditKeyHasher := unit;
  hasher_from_env environ name :=
    match environ name with Some _ => Ok tt | None => Err "secret is not set" end;
  unkeyed_dev_only := tt;
  audit_reference_hash _ class scope input :=
    if str_is_empty class || str_is_empty input then None
    else Some (class +:+ "/" +:+ scope +:+ "/" +:+ input) |}.

Global Instance ref_audit_spec : @AuditSpec ref_audit.
Proof.
  split; [intros h [|c class] scope [|d input]; try done; by eexists|].
  intros environ name h. simpl. destruct (environ name); [by eexists|done].
Qed.

(** ** The subscriber *)

(** [tracing_subscriber::EnvFilter]: the filter of the environment, or an error when
    it is unset or unreadable; a filter from directives; whether it enables [info]. *)
Class EnvFilterLib := {
  EnvFilter : Type;
  try_from_default_env : Environ → option EnvFilter;
  env_filter_new : string → EnvFilter;
  enables_info : EnvFilter → bool;
}.
Class EnvFilterSpec `{EnvFilterLib} : Prop := {
  try_from_default_env_unset environ : environ "RUST_LOG" = None → try_from_default_env environ = None;
  env_filter_new_info : enables_info (env_filter_new "info") = true;
}.

Inductive Writer : Type := Stderr.

Record Subscriber `{EnvFilterLib} : Type := {
  sb_filter : EnvFilter;
  sb_format : LogFormat;
  sb_writer : Writer;
}.

Definition init_tracing `{EnvFilterLib} (environ : Environ) : Subscriber :=
  let filter := unwrap_or (env_filter_new "info") (try_from_default_env environ) in
  match log_format environ with
  | Json => {| sb_filter := filter; sb_format := Json; sb_writer := Stderr |}
  | Text => {| sb_filter := filter; sb_format := Text; sb_writer := Stderr |}
  end.

(** Unless the environment says otherwise, the lines of level [info] are written. *)
Lemma init_tracing_default `{EnvFilterSpec} environ :
  environ "RUST_LOG" = None → enables_info (sb_filter (init_tracing environ)) = true.
Proof.
  intros Hu. unfold init_tracing. rewrite try_from_default_env_unset by done.
  destruct (log_format environ); apply env_filter_new_info.
Qed.
