(* ===== verification/ConfigValidate.v ===== *)
(** * Configuration validation ([src/src/config.rs], from [validate_config] on)

    A validator that takes [errors: &mut Vec<String>] is the list of the strings
    it pushes, in order; an early [return] ends the list.  The file system, the
    environment and the clock are the environment of a validation run. *)
From S2P Require Import Prelude RustStr BTree Errors External Reference Http Config Routing Identity Tls Redaction.
From Stdlib Require Import Ascii.
Local Open Scope connector_scope.

(** [Path::exists], and [metadata(path)] with its Unix mode bits. *)
Record ValidationEnv : Type := {
  ve_exists : string → bool;
  ve_mode : string → option N;
  ve_environ : Environ;
  ve_now : SystemTime;
}.

Definition blank (s : string) : bool := str_is_empty (trim s).

(** [matches!(value, Some(value) if value.trim().is_empty())]. *)
Definition some_blank (o : option string) : bool := is_some_and blank o.
(** [value.is_some_and(|value| !value.trim().is_empty())]. *)
Definition some_not_blank (o : option string) : bool := is_some_and (λ v, negb (blank v)) o.

(** One push per element of a list that satisfies a test. *)
Definition push_each {A} (p : A → bool) (msg : A → string) (l : list A) : list string :=
  msg <$> List.filter p l.

(** ** Files *)
Section files.
Context {PK : PkiLib} (env : ValidationEnv).

Definition require_file (field path : string) : list string :=
  if str_is_empty path then [field +:+ " must not be empty"]
  else if negb (ve_exists env path) then [field +:+ " '" +:+ path +:+ "' does not exist"]
  else [].

Definition validate_private_key_permissions (prefix path : string) : list string :=
  match ve_mode env path with
  | None => []
  | Some mode =>
      when negb (N.land mode 63 =? 0)%N
      push (prefix +:+ ".key must not be readable or writable by group or others")
  end.

Definition validate_identity_files (prefix : string) (identity : IdentityFiles) (usage : EkUsage)
    : list string :=
  require_file (prefix +:+ ".cert") (id_cert identity)
  ++ require_file (prefix +:+ ".key") (id_key identity)
  ++ validate_private_key_permissions prefix (id_key identity)
  ++ if ve_exists env (id_cert identity) && ve_exists env (id_key identity) then
       match validate_leaf_certificate (ve_now env) (id_cert identity) (id_key identity) usage with
       | Err err => [prefix +:+ ": " +:+ err]
       | Ok _ => []
       end
     else [].
End files.

(** ** Governed policies and trusted contexts *)
Definition trusted_context_has_assertion (trusted : GovernedTrustedContextConfig) : bool :=
  some_not_blank (tc_jurisdiction trusted)
  || some_not_blank (tc_asserted_assurance trusted)
  || some_not_blank (tc_legal_basis_ref trusted)
  || some_not_blank (tc_consent_ref trusted)
  || is_some_and (λ value, (0 <? value)%N) (tc_source_observed_age_seconds trusted).

Definition validate_trusted_context_fields (prefix : string)
    (trusted : GovernedTrustedContextConfig) : list string :=
  (when some_blank (tc_jurisdiction trusted) push (prefix +:+ ".jurisdiction must not be empty"))
  ++ (when some_blank (tc_asserted_assurance trusted)
      push (prefix +:+ ".asserted_assurance must not be empty"))
  ++ (when some_blank (tc_legal_basis_ref trusted)
      push (prefix +:+ ".legal_basis_ref must not be empty"))
  ++ (when some_blank (tc_consent_ref trusted) push (prefix +:+ ".consent_ref must not be empty"))
  ++ (when bool_decide (tc_source_observed_age_seconds trusted = Some 0%N)
      push (prefix +:+ ".source_observed_age_seconds must be greater than zero")).

Definition governed_route_policy_has_gate (policy : GovernedRoutePolicyConfig) : bool :=
  let any := existsb (λ value, negb (blank value)) in
  any (gp_permitted_purposes policy)
  || any (gp_permitted_jurisdictions policy)
  || any (gp_allowed_assurance policy)
  || some_not_blank (gp_minimum_assurance policy)
  || is_some_and (λ value, (0 <? value)%N) (gp_max_source_age_seconds policy)
  || gp_require_legal_basis policy
  || gp_require_consent policy
  || any (gp_redaction_fields policy)
  || any (gp_unsupported_odrl_terms policy).

Definition validate_governed_route_policy (route_id : string) (policy : GovernedRoutePolicyConfig)
    : list string :=
  let msg text := "route '" +:+ route_id +:+ "' governed_policy " +:+ text in
  (when negb (governed_route_policy_has_gate policy) push (msg "must enforce at least one gate"))
  ++ push_each blank (λ _, msg "contains an empty permitted_purpose") (gp_permitted_purposes policy)
  ++ push_each blank (λ _, msg "contains an empty permitted_jurisdiction")
       (gp_permitted_jurisdictions policy)
  ++ push_each blank (λ _, msg "contains an empty allowed_assurance") (gp_allowed_assurance policy)
  ++ (when some_blank (gp_minimum_assurance policy) push (msg "minimum_assurance must not be empty"))
  ++ (when bool_decide (gp_max_source_age_seconds policy = Some 0%N)
      push (msg "max_source_age_seconds must be greater than zero"))
  ++ push_each blank (λ _, msg "contains an empty redaction_field") (gp_redaction_fields policy)
  ++ push_each blank (λ _, msg "contains an empty unsupported_odrl_term")
       (gp_unsupported_odrl_terms policy)
  ++ validate_trusted_context_fields (msg "trusted_context") (gp_trusted_context policy).

(** ** Checks of both modes *)
Section common.
Context {PL : PercentLib} {UL : UrlLib}.

Definition collect_prefix_error (route_id field prefix : string) : list string :=
  match validate_route_prefix prefix with
  | Err err => ["route '" +:+ route_id +:+ "' " +:+ field +:+ ": " +:+ err]
  | Ok _ => []
  end.

(** One iteration of the loop over the routes; [ids] are the ids seen so far. *)
Definition validate_route (ids : gset string) (route : RouteConfig) : gset string * list string :=
  let msg text := "route '" +:+ rt_id route +:+ "' " +:+ text in
  let '(ids, id_errors) :=
    if blank (rt_id route) then (ids, ["route without id"])
    else if bool_decide (rt_id route ∈ ids)
    then (ids, ["duplicate route id '" +:+ rt_id route +:+ "'"])
    else ({[rt_id route]} ∪ ids, []) in
  (ids,
   id_errors
   ++ (when is_empty (rt_methods route) push (msg "must declare at least one method"))
   ++ match rt_local_prefix route with
      | Some prefix => collect_prefix_error (rt_id route) "local_prefix" prefix
      | None => []
      end
   ++ match rt_upstream_prefix route with
      | Some prefix => collect_prefix_error (rt_id route) "upstream_prefix" prefix
      | None => []
      end
   ++ push_each blank (λ _, msg "contains an empty purpose") (rt_purposes route)
   ++ push_each blank (λ _, msg "contains an empty client_identities entry") (rt_client_identities route)
   ++ match rt_governed_policy route with
      | Some policy => validate_governed_route_policy (rt_id route) policy
      | None => []
      end).

Fixpoint validate_routes (ids : gset string) (routes : list RouteConfig) : list string :=
  match routes with
  | [] => []
  | route :: routes =>
      let '(ids, errors) := validate_route ids route in
      errors ++ validate_routes ids routes
  end.

Definition validate_common (config : ConnectorConfig) : list string :=
  let limits := cf_limits config in
  let positive (n : N) (field : string) :=
    when (n =? 0)%N push ("limits." +:+ field +:+ " must be greater than zero") in
  (when is_empty (cf_routes config) push "routes must not be empty")
  ++ positive (lm_upstream_timeout_seconds limits) "upstream_timeout_seconds"
  ++ positive (lm_request_timeout_seconds limits) "request_timeout_seconds"
  ++ positive (lm_tls_handshake_timeout_seconds limits) "tls_handshake_timeout_seconds"
  ++ positive (lm_http1_header_read_timeout_seconds limits) "http1_header_read_timeout_seconds"
  ++ positive (lm_max_concurrent_requests limits) "max_concurrent_requests"
  ++ positive (lm_max_concurrent_connections limits) "max_concurrent_connections"
  ++ positive (lm_max_requests_per_identity_per_minute limits) "max_requests_per_identity_per_minute"
  ++ match au_hash_secret_env (cf_audit config) with
     | Some value => when blank value push "audit.hash_secret_env must not be empty"
     | None =>
         when negb (au_allow_unkeyed_hashing (cf_audit config))
         push "audit.hash_secret_env is required unless audit.allow_unkeyed_hashing is true"
     end
  ++ validate_routes ∅ (cf_routes config).
End common.

(** ** Client and server checks *)
Definition is_hop_by_hop_header (name : HeaderName) : bool :=
  existsb (String.eqb name)
    ["connection"; "keep-alive"; "proxy-authenticate"; "proxy-authorization"; "te"; "trailer";
     "transfer-encoding"; "upgrade"].

Definition validate_upstream_auth_header_name {HL : HttpLib} (name : string) : list string :=
  let msg text := "upstream.auth_header_name '" +:+ name +:+ "' " +:+ text in
  match header_name_from_bytes name with
  | None => [msg "is not a valid HTTP header name"]
  | Some header_name =>
      (when is_hop_by_hop_header header_name push (msg "must not be a hop-by-hop header"))
      ++ (when starts_with "x-registry-connector-" header_name
          push (msg "must not use the x-registry-connector-* private prefix"))
  end.

(** [allowed_identities.iter().any(|allowed| allowed.trim() == identity)]. *)
Definition is_allowed (client_trust : ClientTrustConfig) (identity : string) : bool :=
  existsb (λ allowed, String.eqb (trim allowed) identity) (ct_allowed_identities client_trust).

Definition validate_trust_context_entitlement (client_trust : ClientTrustConfig)
    (entitlement : TrustContextEntitlementConfig) (seen_identities : gset string)
    : gset string * list string :=
  let identity := trim (te_client_identity entitlement) in
  if str_is_empty identity then
    (seen_identities, ["client_trust.trust_context_entitlements[].client_identity must not be empty"])
  else
    ({[identity]} ∪ seen_identities,
     (when bool_decide (identity ∈ seen_identities)
      push ("duplicate client_trust.trust_context_entitlements client_identity '"
            +:+ te_client_identity entitlement +:+ "'"))
     ++ (when negb (is_allowed client_trust identity)
         push ("client_trust.trust_context_entitlements client_identity '"
               +:+ te_client_identity entitlement +:+ "' not in client_trust.allowed_identities"))
     ++ (when negb (trusted_context_has_assertion (te_trusted_context entitlement))
         push ("client_trust.trust_context_entitlements for '" +:+ te_client_identity entitlement
               +:+ "' must grant at least one trust context assertion"))
     ++ validate_trusted_context_fields "client_trust.trust_context_entitlements[].trusted_context"
          (te_trusted_context entitlement)).

Fixpoint validate_entitlements (client_trust : ClientTrustConfig) (seen_identities : gset string)
    (entitlements : list TrustContextEntitlementConfig) : list string :=
  match entitlements with
  | [] => []
  | entitlement :: entitlements =>
      let '(seen_identities, errors) :=
        validate_trust_context_entitlement client_trust entitlement seen_identities in
      errors ++ validate_entitlements client_trust seen_identities entitlements
  end.

Section modes.
Context {PL : PercentLib} {UL : UrlLib} {PK : PkiLib} {HL : HttpLib} {AL : AuditLib}.
Context (env : ValidationEnv).

Definition is_root_url_path (url : Url) : bool :=
  String.eqb (url_path url) EmptyString || String.eqb (url_path url) "/".

Definition require_audit_hash_env (config : ConnectorConfig) : list string :=
  match au_hash_secret_env (cf_audit config) with
  | None => []
  | Some var =>
      match hasher_from_env (ve_environ env) var with
      | Err err => ["required audit hash env var '" +:+ var +:+ "' is invalid: " +:+ err]
      | Ok _ => []
      end
  end.

Definition missing_prefix (o : option string) : bool := str_is_empty (unwrap_or EmptyString o).

Definition validate_client_route (config : ConnectorConfig) (route : RouteConfig) : list string :=
  let msg text := "client route '" +:+ rt_id route +:+ "' " +:+ text in
  (when missing_prefix (rt_local_prefix route) push (msg "requires local_prefix"))
  ++ (when missing_prefix (rt_upstream_prefix route) push (msg "requires upstream_prefix"))
  ++ (when rt_require_purpose route
           && bool_decide (rt_purpose_source route = Some StaticRouteDefault)
           && blank (unwrap_or EmptyString (df_data_purpose (cf_defaults config)))
      push (msg "needs defaults.data_purpose for static_route_default")).

Definition validate_client (config : ConnectorConfig) (require_env : bool) : list string :=
  (when negb (is_loopback (cf_listen config)) && negb (cf_allow_non_loopback_client_listen config)
   push "client listen on non-loopback interfaces requires allow_non_loopback_client_listen: true")
  ++ match cf_server config with
     | None => ["client config requires server"]
     | Some server =>
         (when negb (String.eqb (url_scheme (sv_url server)) "https")
          push "client server.url must use https")
         ++ (when negb (is_root_url_path (sv_url server))
             push "client server.url must not include a path")
         ++ require_file env "server.trust_bundle" (sv_trust_bundle server)
         ++ match cf_client_identity config with
            | None => ["client config requires client_identity"]
            | Some files =>
                validate_identity_files env "client_identity" files ClientAuth
                ++ concat (validate_client_route config <$> cf_routes config)
                ++ if require_env then require_audit_hash_env config else []
            end
     end.

(** One trust anchor; the loop also collects the non-blank trust domains. *)
Definition validate_anchor (anchor : TrustAnchorConfig) : list string :=
  require_file env "client_trust.trust_anchors[].ca" (ta_ca anchor)
  ++ (when blank (ta_trust_domain anchor)
      push "client_trust.trust_anchors[].trust_domain must not be empty")
  ++ push_each blank
       (λ _, "client_trust.trust_anchors[].dns_identities contains an empty identity")
       (ta_dns_identities anchor)
  ++ match validate_ca_certificate (ve_now env) (ta_ca anchor) with
     | Err err => ["trust anchor '" +:+ ta_ca anchor +:+ "': " +:+ err]
     | Ok _ => []
     end.

Definition anchor_domains (anchors : list TrustAnchorConfig) : gset string :=
  btree_collect (List.filter (λ domain, negb (blank domain)) (ta_trust_domain <$> anchors)).

Definition validate_allowed_identity (config : ConnectorConfig) (trust_domains : gset string)
    (identity : string) : list string :=
  if blank identity then ["client_trust.allowed_identities contains an empty identity"] else
  match spiffe_trust_domain identity with
  | Some domain =>
      when negb (bool_decide (domain ∈ trust_domains))
      push ("client identity '" +:+ identity +:+ "' has no trust anchor for trust domain '"
            +:+ domain +:+ "'")
  | None =>
      if negb (cf_allow_dns_san_identity config) then
        ["client identity '" +:+ identity
         +:+ "' is not a SPIFFE URI and DNS SAN fallback is disabled"]
      else
        when negb (bool_decide (identity ∈ dns_identity_set config))
        push ("DNS client identity '" +:+ identity
              +:+ "' must be bound to at least one client_trust.trust_anchors[].dns_identities entry")
  end.

Definition validate_required_env (var : string) : list string :=
  match ve_environ env var with
  | Some value =>
      if negb (blank value) then
        when negb (is_some (header_value_from_str value))
        push ("required upstream auth env var '" +:+ var
              +:+ "' contains invalid characters for an HTTP header value")
      else ["required upstream auth env var '" +:+ var +:+ "' is empty"]
  | None => ["required upstream auth env var '" +:+ var +:+ "' is missing"]
  end.

Definition required_auth_env (config : ConnectorConfig) (upstream : UpstreamConfig) : gset string :=
  btree_collect (option_list (up_default_auth_header_env upstream)
                 ++ omap rt_upstream_auth_header_env (cf_routes config)).

Definition validate_server_route (client_trust : ClientTrustConfig) (route : RouteConfig)
    : list string :=
  let msg text := "server route '" +:+ rt_id route +:+ "' " +:+ text in
  (when missing_prefix (rt_upstream_prefix route) push (msg "requires upstream_prefix"))
  ++ if bool_decide (route_client_identities route = ∅) then
       [msg "requires client_identity so route and purpose policy are identity-bound"]
     else
       push_each (λ identity, negb (is_allowed client_trust identity))
         (λ identity, msg ("references client_identity '" +:+ identity
                           +:+ "' not in client_trust.allowed_identities"))
         (btree_iter (route_client_identities route)).

Definition validate_upstream (config : ConnectorConfig) (client_trust : ClientTrustConfig)
    (upstream : UpstreamConfig) (require_env : bool) : list string :=
  (when negb (is_root_url_path (up_base_url upstream))
   push "upstream.base_url must not include a path")
  ++ validate_upstream_auth_header_name (up_auth_header_name upstream)
  ++ (when some_blank (up_default_auth_header_env upstream)
      push "upstream.default_auth_header_env must not be empty")
  ++ push_each (λ route, some_blank (rt_upstream_auth_header_env route))
       (λ route, "server route '" +:+ rt_id route +:+ "' upstream_auth_header_env must not be empty")
       (cf_routes config)
  ++ (if require_env then
        require_audit_hash_env config
        ++ concat (validate_required_env <$> btree_iter (required_auth_env config upstream))
      else [])
  ++ concat (validate_server_route client_trust <$> cf_routes config).

Definition validate_server (config : ConnectorConfig) (require_env : bool) : list string :=
  match cf_server_identity config with
  | None => ["server config requires server_identity"]
  | Some files =>
      validate_identity_files env "server_identity" files ServerAuth
      ++ match cf_client_trust config with
         | None => ["server config requires client_trust"]
         | Some client_trust =>
             (when is_empty (ct_allowed_identities client_trust)
              push "client_trust.allowed_identities must not be empty")
             ++ (when is_empty (ct_trust_anchors client_trust)
                 push "client_trust.trust_anchors must not be empty")
             ++ push_each (λ fingerprint, negb (is_sha256_fingerprint fingerprint))
                  (λ _, "client_trust.denied_certificate_fingerprints_sha256 contains an invalid SHA-256 fingerprint")
                  (ct_denied_certificate_fingerprints_sha256 client_trust)
             ++ validate_entitlements client_trust ∅ (ct_trust_context_entitlements client_trust)
             ++ concat (validate_anchor <$> ct_trust_anchors client_trust)
             ++ concat (validate_allowed_identity config (anchor_domains (ct_trust_anchors client_trust))
                        <$> ct_allowed_identities client_trust)
             ++ match cf_upstream config with
                | None => ["server config requires upstream"]
                | Some upstream => validate_upstream config client_trust upstream require_env
                end
         end
  end.

Definition validate_config (config : ConnectorConfig) (mode : Mode) (require_env : bool)
    : result (list string) unit :=
  let errors :=
    match mode with
    | Client => validate_client config require_env
    | Server => validate_server config require_env
    end ++ validate_common config in
  if is_empty errors then Ok tt else Err errors.

(** ** Expiry warnings *)

(** [(expiry_warning_days.max(0) as u64) * 86_400] with the wrap-around of [u64]. *)
Definition expiry_threshold_seconds (config : ConnectorConfig) : N :=
  (Z.to_N (Z.max (lm_expiry_warning_days (cf_limits config)) 0) * 86400) mod u64_bound.

(** The certificates a warning is logged for. *)
Definition warn_certificate_expiry (config : ConnectorConfig) (mode : Mode) : list string :=
  let threshold := duration_from_secs (expiry_threshold_seconds config) in
  let identities := option_list (match mode with
                                 | Client => cf_client_identity config
                                 | Server => cf_server_identity config
                                 end) in
  omap (λ identity,
    match certificate_summary (id_cert identity) with
    | Ok summary =>
        if expires_within summary (ve_now env) threshold then Some (id_cert identity) else None
    | Err _ => None
    end) identities.
End modes.

(** ** What the validators accept *)
Definition nonblank (s : string) : Prop := trim s ≠ EmptyString.
Definition opt_nonblank (o : option string) : Prop := ∀ v, o = Some v → nonblank v.
Definition all_nonblank (l : list string) : Prop := ∀ v, v ∈ l → nonblank v.

Lemma blank_false s : blank s = false ↔ nonblank s.
Proof. unfold blank, nonblank. rewrite <- str_is_empty_true. by destruct (str_is_empty (trim s)). Qed.

Lemma some_blank_false o : some_blank o = false ↔ opt_nonblank o.
Proof.
  unfold some_blank, opt_nonblank. destruct o as [v|]; simpl; [|naive_solver].
  rewrite blank_false. naive_solver.
Qed.

Lemma push_each_nil {A} (p : A → bool) msg l : push_each p msg l = [] ↔ ∀ x, x ∈ l → p x = false.
Proof.
  unfold push_each. induction l as [|y l IH]; simpl; [set_solver|].
  destruct (p y) eqn:E; simpl; [|set_solver]. split; [done|]. intros H.
  specialize (H y). rewrite E in H. set_solver.
Qed.

Lemma push_each_blank msg l : push_each blank msg l = [] ↔ all_nonblank l.
Proof. rewrite push_each_nil. unfold all_nonblank. by setoid_rewrite blank_false. Qed.

Lemma concat_fmap_nil {A} (f : A → list string) l : concat (f <$> l) = [] ↔ ∀ x, x ∈ l → f x = [].
Proof.
  induction l as [|y l IH]; simpl; [set_solver|]. rewrite app_nil, IH. set_solver.
Qed.

Record context_ok (c : GovernedTrustedContextConfig) : Prop := {
  co_jurisdiction : opt_nonblank (tc_jurisdiction c);
  co_assurance : opt_nonblank (tc_asserted_assurance c);
  co_legal_basis : opt_nonblank (tc_legal_basis_ref c);
  co_consent : opt_nonblank (tc_consent_ref c);
  co_age : tc_source_observed_age_seconds c ≠ Some 0%N;
}.

Lemma trusted_context_fields_nil prefix c :
  validate_trusted_context_fields prefix c = [] ↔ context_ok c.
Proof.
  unfold validate_trusted_context_fields. rewrite !app_nil, !when_push_nil, !some_blank_false, bool_decide_eq_false.
  split; [by intros (? & ? & ? & ? & ?)|by intros []].
Qed.

(** An entitlement grants something. *)
Definition grants_something (c : GovernedTrustedContextConfig) : Prop :=
  c ≠ GovernedTrustedContextConfig_default.

Lemma some_not_blank_true o : opt_nonblank o → some_not_blank o = is_some o.
Proof. destruct o as [v|]; [|done]. intros H. simpl. apply negb_true_iff, blank_false. by apply H. Qed.

Lemma has_assertion_iff c : context_ok c → trusted_context_has_assertion c = true ↔ grants_something c.
Proof.
  intros [? ? ? ? Hage]. unfold trusted_context_has_assertion, grants_something.
  rewrite !some_not_blank_true by done. destruct c as [[] [] [] [] [n|]]; simpl in *; split; try done.
  intros _. destruct n; [by destruct Hage|done].
Qed.

Record governed_ok (p : GovernedRoutePolicyConfig) : Prop := {
  go_gate : gp_permitted_purposes p ≠ [] ∨ gp_permitted_jurisdictions p ≠ [] ∨
    gp_allowed_assurance p ≠ [] ∨ is_Some (gp_minimum_assurance p) ∨
    is_Some (gp_max_source_age_seconds p) ∨ gp_require_legal_basis p = true ∨
    gp_require_consent p = true ∨ gp_redaction_fields p ≠ [] ∨ gp_unsupported_odrl_terms p ≠ [];
  go_purposes : all_nonblank (gp_permitted_purposes p);
  go_jurisdictions : all_nonblank (gp_permitted_jurisdictions p);
  go_assurance : all_nonblank (gp_allowed_assurance p);
  go_minimum : opt_nonblank (gp_minimum_assurance p);
  go_age : gp_max_source_age_seconds p ≠ Some 0%N;
  go_redaction : all_nonblank (gp_redaction_fields p);
  go_odrl : all_nonblank (gp_unsupported_odrl_terms p);
  go_context : context_ok (gp_trusted_context p);
}.

Lemma any_not_blank l : all_nonblank l → existsb (λ v, negb (blank v)) l = negb (is_empty l).
Proof.
  destruct l as [|v l]; [done|]. intros H. simpl. assert (blank v = false) as ->; [|done].
  apply blank_false, H. left.
Qed.

Lemma has_gate_iff p :
  all_nonblank (gp_permitted_purposes p) → all_nonblank (gp_permitted_jurisdictions p) →
  all_nonblank (gp_allowed_assurance p) → opt_nonblank (gp_minimum_assurance p) →
  gp_max_source_age_seconds p ≠ Some 0%N → all_nonblank (gp_redaction_fields p) →
  all_nonblank (gp_unsupported_odrl_terms p) →
  governed_route_policy_has_gate p = true ↔
    gp_permitted_purposes p ≠ [] ∨ gp_permitted_jurisdictions p ≠ [] ∨
    gp_allowed_assurance p ≠ [] ∨ is_Some (gp_minimum_assurance p) ∨
    is_Some (gp_max_source_age_seconds p) ∨ gp_require_legal_basis p = true ∨
    gp_require_consent p = true ∨ gp_redaction_fields p ≠ [] ∨ gp_unsupported_odrl_terms p ≠ [].
Proof.
  intros. unfold governed_route_policy_has_gate. cbv zeta.
  rewrite !any_not_blank, some_not_blank_true by done.
  assert (Hage : is_some_and (λ value, (0 <? value)%N) (gp_max_source_age_seconds p)
    = is_some (gp_max_source_age_seconds p)).
  { destruct (gp_max_source_age_seconds p) as [[|n]|]; done. }
  rewrite Hage, !orb_true_iff, !negb_true_iff, !is_empty_false.
  assert (Hs : ∀ {A} (o : option A), is_some o = true ↔ is_Some o).
  { intros A [a|]; simpl; [split; [by eexists|done]|split; [done|by intros [? ?]]]. }
  rewrite !Hs. tauto.
Qed.

Lemma governed_policy_nil rid p : validate_governed_route_policy rid p = [] ↔ governed_ok p.
Proof.
  unfold validate_governed_route_policy. cbv zeta.
  rewrite !app_nil, !when_push_nil, !push_each_blank, some_blank_false, bool_decide_eq_false,
    trusted_context_fields_nil, negb_false_iff.
  split.
  - intros (Hg & ? & ? & ? & ? & ? & ? & ? & ?). split; try done. by apply has_gate_iff.
  - intros []. split_and!; try done. by apply has_gate_iff.
Qed.

(** ** Routes and limits *)
Section common_lemmas.
Context {PL : PercentLib} {UL : UrlLib}.

Definition prefix_ok (o : option string) : Prop :=
  ∀ p, o = Some p → validate_route_prefix p = Ok tt.

Record route_ok (r : RouteConfig) : Prop := {
  ro_id : nonblank (rt_id r);
  ro_methods : rt_methods r ≠ [];
  ro_local_prefix : prefix_ok (rt_local_prefix r);
  ro_upstream_prefix : prefix_ok (rt_upstream_prefix r);
  ro_purposes : all_nonblank (rt_purposes r);
  ro_identities : all_nonblank (rt_client_identities r);
  ro_governed : ∀ p, rt_governed_policy r = Some p → governed_ok p;
}.

Lemma collect_prefix_nil rid field o :
  match o with Some p => collect_prefix_error rid field p | None => [] end = [] ↔ prefix_ok o.
Proof.
  unfold prefix_ok, collect_prefix_error. destruct o as [p|]; [|by split].
  destruct (validate_route_prefix p) as [[]|e] eqn:E; split; try done.
  - by intros _ q [= <-].
  - intros H. specialize (H p eq_refl). congruence.
Qed.

Lemma validate_route_nil ids r :
  snd (validate_route ids r) = [] ↔ (rt_id r ∉ ids) ∧ route_ok r.
Proof.
  unfold validate_route. set (rest := _ ++ _ ++ _ ++ _ ++ _ ++ _).
  assert (Hrest : rest = [] ↔ rt_methods r ≠ [] ∧ prefix_ok (rt_local_prefix r) ∧
    prefix_ok (rt_upstream_prefix r) ∧ all_nonblank (rt_purposes r) ∧
    all_nonblank (rt_client_identities r) ∧ ∀ p, rt_governed_policy r = Some p → governed_ok p).
  { unfold rest. rewrite !app_nil, when_push_nil, !collect_prefix_nil, !push_each_blank, is_empty_false.
    assert (Hg : match rt_governed_policy r with Some p => validate_governed_route_policy (rt_id r) p | None => [] end = []
      ↔ ∀ p, rt_governed_policy r = Some p → governed_ok p).
    { destruct (rt_governed_policy r) as [p|]; [|naive_solver]. rewrite governed_policy_nil. naive_solver. }
    by rewrite Hg. }
  destruct (blank (rt_id r)) eqn:Eb; simpl; [|case_bool_decide; simpl].
  - split; [done|]. intros [_ [Hid _]]. apply blank_false in Hid. congruence.
  - split; [done|]. by intros [? _].
  - apply blank_false in Eb. rewrite Hrest. split.
    + intros (? & ? & ? & ? & ? & ?). done.
    + by intros [_ []].
Qed.

Lemma validate_route_ids ids r :
  route_ok r → rt_id r ∉ ids → fst (validate_route ids r) = {[rt_id r]} ∪ ids.
Proof.
  intros [Hid _ _ _ _ _ _] Hni. unfold validate_route. apply blank_false in Hid. rewrite Hid.
  by rewrite bool_decide_eq_false_2.
Qed.

Lemma validate_routes_nil ids routes :
  validate_routes ids routes = [] ↔
  (∀ r, r ∈ routes → route_ok r ∧ (rt_id r ∉ ids)) ∧ NoDup (rt_id <$> routes).
Proof.
  revert ids. induction routes as [|r routes IH]; intros ids.
  { split; [|done]. intros _. split; [set_solver|constructor]. }
  simpl. destruct (validate_route ids r) as [ids' errs] eqn:E.
  rewrite app_nil, IH, list.NoDup_cons.
  pose proof (validate_route_nil ids r) as Hr. pose proof (validate_route_ids ids r) as Hids.
  rewrite E in Hr, Hids. simpl in Hr, Hids. rewrite Hr. split.
  - intros ([Hni Hok] & Hall & Hnd). specialize (Hids Hok Hni). subst ids'. split; [|split; [|done]].
    + intros r' [->|Hin]%elem_of_cons; [done|]. destruct (Hall r' Hin). set_solver.
    + intros (r' & Heq & Hin)%list_elem_of_fmap. destruct (Hall r' Hin) as [_ Hx]. rewrite Heq in Hx. set_solver.
  - intros (Hall & Hni & Hnd). destruct (Hall r) as [Hok Hni']; [left|].
    specialize (Hids Hok Hni'). subst ids'. split_and!; [done..| |done].
    intros r' Hin. destruct (Hall r') as [? ?]; [by right|]. split; [done|].
    rewrite elem_of_union, elem_of_singleton. intros [Heq|?]; [|done]. apply Hni.
    rewrite <- Heq. by apply list_elem_of_fmap_2.
Qed.

Record common_ok (config : ConnectorConfig) : Prop := {
  ok_routes : cf_routes config ≠ [];
  ok_upstream_timeout : (0 < lm_upstream_timeout_seconds (cf_limits config))%N;
  ok_request_timeout : (0 < lm_request_timeout_seconds (cf_limits config))%N;
  ok_handshake_timeout : (0 < lm_tls_handshake_timeout_seconds (cf_limits config))%N;
  ok_header_timeout : (0 < lm_http1_header_read_timeout_seconds (cf_limits config))%N;
  ok_requests : (0 < lm_max_concurrent_requests (cf_limits config))%N;
  ok_connections : (0 < lm_max_concurrent_connections (cf_limits config))%N;
  ok_rate : (0 < lm_max_requests_per_identity_per_minute (cf_limits config))%N;
  ok_audit : opt_nonblank (au_hash_secret_env (cf_audit config)) ∧
    (au_hash_secret_env (cf_audit config) = None → au_allow_unkeyed_hashing (cf_audit config) = true);
  ok_each_route : ∀ r, r ∈ cf_routes config → route_ok r;
  ok_ids : NoDup (rt_id <$> cf_routes config);
}.

Lemma zero_false n : (n =? 0)%N = false ↔ (0 < n)%N.
Proof. rewrite N.eqb_neq. lia. Qed.

Lemma validate_common_nil config : validate_common config = [] ↔ common_ok config.
Proof.
  unfold validate_common. cbv zeta.
  assert (Haudit : match au_hash_secret_env (cf_audit config) with
     | Some value => when blank value push "audit.hash_secret_env must not be empty"
     | None =>
         when negb (au_allow_unkeyed_hashing (cf_audit config))
         push "audit.hash_secret_env is required unless audit.allow_unkeyed_hashing is true"
     end = [] ↔ opt_nonblank (au_hash_secret_env (cf_audit config)) ∧
    (au_hash_secret_env (cf_audit config) = None → au_allow_unkeyed_hashing (cf_audit config) = true)).
  { unfold opt_nonblank. destruct (au_hash_secret_env (cf_audit config)) as [v|]; rewrite when_push_nil.
    - rewrite blank_false. naive_solver.
    - rewrite negb_false_iff. naive_solver. }
  rewrite !app_nil, !when_push_nil, !zero_false, is_empty_false, Haudit, validate_routes_nil.
  split.
  - intros (? & ? & ? & ? & ? & ? & ? & ? & ? & Hr & ?). split; try done. intros r Hin. by apply Hr.
  - intros []. split_and!; try done; set_solver.
Qed.
End common_lemmas.

Lemma validate_route_prefix_canonical {PL : PercentLib} p u :
  validate_route_prefix p = Ok u → ∃ c, canonical_request_path p = Ok c.
Proof.
  unfold validate_route_prefix, validate_request_path. do 2 (case_match; [done|]).
  intros (c & Hc & _)%bind_Ok_inv. eauto.
Qed.

(** ** Modes *)
Section mode_lemmas.
Context {PL : PercentLib} {UL : UrlLib} {SL : Sha256Lib} {PK : PkiLib} {HL : HttpLib} {AL : AuditLib}.
Context (env : ValidationEnv).

Definition file_ok (path : string) : Prop := path ≠ EmptyString ∧ ve_exists env path = true.

Record identity_files_ok (files : IdentityFiles) (usage : EkUsage) : Prop := {
  if_cert : file_ok (id_cert files);
  if_key : file_ok (id_key files);
  if_mode : ∀ mode, ve_mode env (id_key files) = Some mode → N.land mode 63 = 0%N;
  if_leaf : validate_leaf_certificate (ve_now env) (id_cert files) (id_key files) usage = Ok tt;
}.

Lemma require_file_nil field path : require_file env field path = [] ↔ file_ok path.
Proof.
  unfold require_file, file_ok. rewrite <- str_is_empty_true.
  destruct (str_is_empty path), (ve_exists env path); simpl; naive_solver.
Qed.

Lemma validate_identity_files_nil prefix files usage :
  validate_identity_files env prefix files usage = [] ↔ identity_files_ok files usage.
Proof.
  unfold validate_identity_files. rewrite !app_nil, !require_file_nil.
  assert (Hperm : validate_private_key_permissions env prefix (id_key files) = [] ↔
    ∀ mode, ve_mode env (id_key files) = Some mode → N.land mode 63 = 0%N).
  { unfold validate_private_key_permissions. destruct (ve_mode env (id_key files)) as [m|]; [|by split].
    rewrite when_push_nil, negb_false_iff, N.eqb_eq. naive_solver. }
  rewrite Hperm. split.
  - intros ([Hc Hce] & [Hk Hke] & Hm & Hl). split; try done. revert Hl. rewrite Hce, Hke. simpl.
    by destruct (validate_leaf_certificate _ _ _ _) as [[]|e].
  - intros [[Hc Hce] [Hk Hke] Hm Hl]. split_and!; try done. by rewrite Hce, Hke, Hl.
Qed.

Record entitlement_ok (ct : ClientTrustConfig) (e : TrustContextEntitlementConfig) : Prop := {
  eo_identity : nonblank (te_client_identity e);
  eo_allowed : is_allowed ct (trim (te_client_identity e)) = true;
  eo_grants : grants_something (te_trusted_context e);
  eo_context : context_ok (te_trusted_context e);
}.

Lemma validate_entitlement_nil ct e seen :
  snd (validate_trust_context_entitlement ct e seen) = [] ↔
  (trim (te_client_identity e) ∉ seen) ∧ entitlement_ok ct e.
Proof.
  unfold validate_trust_context_entitlement. pose proof (blank_false (te_client_identity e)) as Hb.
  unfold blank in Hb. destruct (str_is_empty (trim (te_client_identity e))) eqn:E; simpl.
  - split; [done|]. intros [_ [Hid _ _ _]]. by apply Hb in Hid.
  - rewrite !app_nil, !when_push_nil, bool_decide_eq_false, !negb_false_iff, trusted_context_fields_nil.
    split.
    + intros (? & ? & Ha & ?). split; [done|]. split; [by apply Hb|done|by apply has_assertion_iff|done].
    + intros [? []]. split_and!; try done. by apply has_assertion_iff.
Qed.

Lemma validate_entitlement_seen ct e seen :
  entitlement_ok ct e →
  fst (validate_trust_context_entitlement ct e seen) = {[trim (te_client_identity e)]} ∪ seen.
Proof.
  intros [Hid _ _ _]. apply blank_false in Hid. unfold blank in Hid.
  unfold validate_trust_context_entitlement. by rewrite Hid.
Qed.

Lemma validate_entitlements_nil ct seen es :
  validate_entitlements ct seen es = [] ↔
  (∀ e, e ∈ es → entitlement_ok ct e ∧ (trim (te_client_identity e) ∉ seen)) ∧
  NoDup ((λ e, trim (te_client_identity e)) <$> es).
Proof.
  revert seen. induction es as [|e es IH]; intros seen.
  { split; [|done]. intros _. split; [set_solver|constructor]. }
  simpl. destruct (validate_trust_context_entitlement ct e seen) as [seen' errs] eqn:E.
  rewrite app_nil, IH, list.NoDup_cons.
  pose proof (validate_entitlement_nil ct e seen) as Hr. pose proof (validate_entitlement_seen ct e seen) as Hs.
  rewrite E in Hr, Hs. simpl in Hr, Hs. rewrite Hr. split.
  - intros ([Hni Hok] & Hall & Hnd). specialize (Hs Hok). subst seen'. split; [|split; [|done]].
    + intros e' [->|Hin]%elem_of_cons; [done|]. destruct (Hall e' Hin). set_solver.
    + intros (e' & Heq & Hin)%list_elem_of_fmap. destruct (Hall e' Hin) as [_ Hx]. rewrite <- Heq in Hx. set_solver.
  - intros (Hall & Hni & Hnd). destruct (Hall e) as [Hok Hni']; [left|].
    specialize (Hs Hok). subst seen'. split_and!; [done..| |done].
    intros e' Hin. destruct (Hall e') as [? ?]; [by right|]. split; [done|].
    rewrite elem_of_union, elem_of_singleton. intros [Heq|?]; [|done]. apply Hni.
    rewrite <- Heq. by apply (list_elem_of_fmap_2 (λ e, trim (te_client_identity e))).
Qed.

(** ** Anchors and the identities bound to them *)
Record anchor_ok (a : TrustAnchorConfig) : Prop := {
  an_file : file_ok (ta_ca a);
  an_domain : nonblank (ta_trust_domain a);
  an_dns : all_nonblank (ta_dns_identities a);
  an_ca : validate_ca_certificate (ve_now env) (ta_ca a) = Ok tt;
}.

Lemma validate_anchor_nil a : validate_anchor env a = [] ↔ anchor_ok a.
Proof.
  unfold validate_anchor. rewrite !app_nil, require_file_nil, when_push_nil, blank_false, push_each_blank.
  destruct (validate_ca_certificate _ _) as [[]|e] eqn:E; split.
  - by intros (? & ? & ? & _).
  - by intros [].
  - by intros (_ & _ & _ & ?).
  - intros []. congruence.
Qed.

Record identity_ok (config : ConnectorConfig) (ct : ClientTrustConfig) (i : string) : Prop := {
  io_nonblank : nonblank i;
  io_bound : bound_cas ct i ≠ [];
  io_dns : spiffe_trust_domain i = None → cf_allow_dns_san_identity config = true;
}.

Lemma bound_cas_anchor ct i :
  bound_cas ct i ≠ [] ↔ ∃ a, a ∈ ct_trust_anchors ct ∧
    match spiffe_trust_domain i with
    | Some d => ta_trust_domain a = d | None => i ∈ ta_dns_identities a end.
Proof.
  split.
  - intros Hne. destruct (bound_cas ct i) as [|ca l] eqn:E; [done|].
    assert (Hin : ca ∈ bound_cas ct i) by (rewrite E; left).
    apply elem_of_bound_cas in Hin as (a & ? & _ & ?). eauto.
  - intros (a & Ha & Hm) E. assert (Hin : ta_ca a ∈ bound_cas ct i) by (apply elem_of_bound_cas; eauto).
    rewrite E in Hin. by apply not_elem_of_nil in Hin.
Qed.

Lemma dns_identity_set_elem config ct i :
  cf_client_trust config = Some ct →
  i ∈ dns_identity_set config ↔ ∃ a, a ∈ ct_trust_anchors ct ∧ i ∈ ta_dns_identities a.
Proof.
  intros Hct. unfold dns_identity_set. rewrite elem_of_dom, (dns_identity_map_group _ _ Hct).
  destruct (group_lookup (dns_pairs (ct_trust_anchors ct)) ∅ i) as [_ ->]. rewrite lookup_empty. split.
  - intros [[? ?]|Hne]; [done|]. destruct (values_of i _) as [|v l] eqn:E; [done|].
    assert (Hin : v ∈ values_of i (dns_pairs (ct_trust_anchors ct))) by (rewrite E; left).
    apply elem_of_values_of in Hin. unfold dns_pairs in Hin.
    apply list_elem_of_bind in Hin as (a & (j & [= -> ->] & Hj)%list_elem_of_fmap & Ha). eauto.
  - intros (a & Ha & Hi). right. intros E.
    assert (Hin : ta_ca a ∈ values_of i (dns_pairs (ct_trust_anchors ct))).
    { apply elem_of_values_of, list_elem_of_bind. exists a. split; [|done]. apply list_elem_of_fmap. by exists i. }
    rewrite E in Hin. by apply not_elem_of_nil in Hin.
Qed.

Lemma validate_allowed_identity_nil config ct i :
  cf_client_trust config = Some ct → (∀ a, a ∈ ct_trust_anchors ct → anchor_ok a) →
  validate_allowed_identity config (anchor_domains (ct_trust_anchors ct)) i = [] ↔ identity_ok config ct i.
Proof.
  intros Hct Hanch. unfold validate_allowed_identity.
  destruct (blank i) eqn:Eb.
  { split; [done|]. intros [Hn _ _]. apply blank_false in Hn. congruence. }
  apply blank_false in Eb. pose proof (bound_cas_anchor ct i) as Hbound.
  destruct (spiffe_trust_domain i) as [d|] eqn:Es.
  - rewrite when_push_nil, negb_false_iff, bool_decide_eq_true.
    assert (Hd : d ∈ anchor_domains (ct_trust_anchors ct) ↔ bound_cas ct i ≠ []).
    { rewrite Hbound. unfold anchor_domains, btree_collect.
      rewrite elem_of_list_to_set, list_elem_of_In, filter_In, <- list_elem_of_In, list_elem_of_fmap. split.
      - intros [(a & -> & Ha) _]. eauto.
      - intros (a & Ha & <-). split; [eauto|]. apply negb_true_iff, blank_false. by apply Hanch. }
    rewrite Hd. split; [|by intros []]. intros ?. split; [done..|]. by rewrite Es.
  - destruct (cf_allow_dns_san_identity config) eqn:Ed; simpl.
    + rewrite when_push_nil, negb_false_iff, bool_decide_eq_true, (dns_identity_set_elem _ _ _ Hct), <- Hbound.
      split; [|by intros []]. done.
    + split; [done|]. intros [_ _ Hx]. specialize (Hx Es). congruence.
Qed.

(** ** Server *)
Record upstream_ok (config : ConnectorConfig) (up : UpstreamConfig) : Prop := {
  uo_root : is_root_url_path (up_base_url up) = true;
  uo_name : ∃ n, header_name_from_bytes (up_auth_header_name up) = Some n ∧
    is_hop_by_hop_header n = false ∧ starts_with "x-registry-connector-" n = false;
  uo_default : opt_nonblank (up_default_auth_header_env up);
  uo_routes : ∀ r, r ∈ cf_routes config → opt_nonblank (rt_upstream_auth_header_env r);
}.

(** With [require_env], every variable that can be read for a credential is set to
    a usable secret. *)
Record env_ok (config : ConnectorConfig) (up : UpstreamConfig) : Prop := {
  eo_audit : ∀ var, au_hash_secret_env (cf_audit config) = Some var →
    is_ok (hasher_from_env (ve_environ env) var) = true;
  eo_auth : ∀ var, up_default_auth_header_env up = Some var ∨
      (∃ r, r ∈ cf_routes config ∧ rt_upstream_auth_header_env r = Some var) →
    ∃ secret, ve_environ env var = Some secret ∧ nonblank secret ∧
      is_Some (header_value_from_str secret);
}.

Record server_route_ok (ct : ClientTrustConfig) (r : RouteConfig) : Prop := {
  sr_prefix : ∃ p, rt_upstream_prefix r = Some p ∧ p ≠ EmptyString;
  sr_bound : route_client_identities r ≠ ∅;
  sr_allowed : ∀ i, i ∈ route_client_identities r → is_allowed ct i = true;
}.

Lemma missing_prefix_false o : missing_prefix o = false ↔ ∃ p, o = Some p ∧ p ≠ EmptyString.
Proof.
  unfold missing_prefix. destruct o as [p|]; simpl; [|split; [done|by intros (? & ? & _)]].
  rewrite <- not_true_iff_false, str_is_empty_true. naive_solver.
Qed.

Lemma validate_server_route_nil ct r : validate_server_route ct r = [] ↔ server_route_ok ct r.
Proof.
  unfold validate_server_route. rewrite app_nil, when_push_nil, missing_prefix_false.
  case_bool_decide as He.
  - split; [by intros [_ ?]|]. by intros [].
  - rewrite push_each_nil. setoid_rewrite elem_of_btree_iter. setoid_rewrite negb_false_iff.
    split; [by intros [? ?]|by intros []].
Qed.

Lemma auth_header_name_nil name :
  validate_upstream_auth_header_name name = [] ↔
  ∃ n, header_name_from_bytes name = Some n ∧
    is_hop_by_hop_header n = false ∧ starts_with "x-registry-connector-" n = false.
Proof.
  unfold validate_upstream_auth_header_name.
  destruct (header_name_from_bytes name) as [n|]; [|split; [done|by intros (? & ? & _)]].
  rewrite app_nil, !when_push_nil. naive_solver.
Qed.

Lemma require_audit_hash_env_nil config :
  require_audit_hash_env env config = [] ↔
  ∀ var, au_hash_secret_env (cf_audit config) = Some var →
    is_ok (hasher_from_env (ve_environ env) var) = true.
Proof.
  unfold require_audit_hash_env. destruct (au_hash_secret_env (cf_audit config)) as [var|]; [|by split].
  destruct (hasher_from_env (ve_environ env) var) eqn:E; split; try done; [by intros _ ? [= <-]; rewrite E|].
  intros H. specialize (H var eq_refl). by rewrite E in H.
Qed.

Lemma required_env_nil config up :
  require_audit_hash_env env config
  ++ concat (validate_required_env env <$> btree_iter (required_auth_env config up)) = [] ↔
  env_ok config up.
Proof.
  rewrite app_nil, require_audit_hash_env_nil, concat_fmap_nil.
  assert (Hv : ∀ var, validate_required_env env var = [] ↔
    ∃ secret, ve_environ env var = Some secret ∧ nonblank secret ∧ is_Some (header_value_from_str secret)).
  { intros var. unfold validate_required_env. destruct (ve_environ env var) as [s|]; [|split; [done|by intros (? & ? & _)]].
    destruct (blank s) eqn:Eb; simpl.
    - split; [done|]. intros (? & [= <-] & Hn & _). apply blank_false in Hn. congruence.
    - apply blank_false in Eb. rewrite when_push_nil, negb_false_iff. split.
      + intros Hs. exists s. split_and!; try done. destruct (header_value_from_str s); [by eexists|done].
      + intros (? & [= <-] & _ & [v Hs]). by rewrite Hs. }
  assert (Hin : ∀ var, var ∈ btree_iter (required_auth_env config up) ↔ up_default_auth_header_env up = Some var ∨
      (∃ r, r ∈ cf_routes config ∧ rt_upstream_auth_header_env r = Some var)).
  { intros var. rewrite elem_of_btree_iter. unfold required_auth_env, btree_collect.
    rewrite elem_of_list_to_set, elem_of_app, list_elem_of_omap.
    destruct (up_default_auth_header_env up); simpl; [rewrite list_elem_of_singleton|rewrite elem_of_nil];
      naive_solver. }
  setoid_rewrite Hv. setoid_rewrite Hin. split; [by intros [? ?]|by intros []].
Qed.

Record server_ok (config : ConnectorConfig) (require_env : bool) : Prop := {
  so_identity : ∃ files, cf_server_identity config = Some files ∧ identity_files_ok files ServerAuth;
  so_trust : ∃ ct, cf_client_trust config = Some ct ∧
    ct_allowed_identities ct ≠ [] ∧ ct_trust_anchors ct ≠ [] ∧
    (∀ f, f ∈ ct_denied_certificate_fingerprints_sha256 ct → is_sha256_fingerprint f = true) ∧
    (∀ e, e ∈ ct_trust_context_entitlements ct → entitlement_ok ct e) ∧
    NoDup ((λ e, trim (te_client_identity e)) <$> ct_trust_context_entitlements ct) ∧
    (∀ a, a ∈ ct_trust_anchors ct → anchor_ok a) ∧
    (∀ i, i ∈ ct_allowed_identities ct → identity_ok config ct i) ∧
    (∀ r, r ∈ cf_routes config → server_route_ok ct r);
  so_upstream : ∃ up, cf_upstream config = Some up ∧ upstream_ok config up ∧
    (require_env = true → env_ok config up);
}.

Lemma validate_upstream_nil config ct up require_env :
  validate_upstream env config ct up require_env = [] ↔
  upstream_ok config up ∧ (require_env = true → env_ok config up) ∧
  ∀ r, r ∈ cf_routes config → server_route_ok ct r.
Proof.
  unfold validate_upstream.
  rewrite !app_nil, !when_push_nil, push_each_nil, negb_false_iff, auth_header_name_nil,
    some_blank_false, concat_fmap_nil.
  setoid_rewrite validate_server_route_nil. setoid_rewrite some_blank_false.
  assert (He : (if require_env then require_audit_hash_env env config
      ++ concat (validate_required_env env <$> btree_iter (required_auth_env config up)) else []) = []
    ↔ (require_env = true → env_ok config up)).
  { destruct require_env; [rewrite required_env_nil|]; naive_solver. }
  rewrite He. split.
  - by intros (? & ? & ? & ? & ? & ?).
  - by intros ([] & ? & ?).
Qed.

Lemma validate_server_nil config require_env :
  validate_server env config require_env = [] ↔ server_ok config require_env.
Proof.
  unfold validate_server. destruct (cf_server_identity config) as [files|] eqn:Ei.
  2:{ split; [done|]. intros [(? & ? & _) _ _]. congruence. }
  rewrite app_nil, validate_identity_files_nil. destruct (cf_client_trust config) as [ct|] eqn:Et.
  2:{ split; [by intros [_ ?]|]. intros [_ (? & ? & _) _]. congruence. }
  rewrite !app_nil, !when_push_nil, !is_empty_false, push_each_nil, validate_entitlements_nil, !concat_fmap_nil.
  setoid_rewrite negb_false_iff. setoid_rewrite validate_anchor_nil.
  destruct (cf_upstream config) as [up|] eqn:Eu.
  2:{ split; [by intros (_ & _ & _ & _ & _ & _ & _ & ?)|]. intros [_ _ (? & ? & _)]. congruence. }
  rewrite validate_upstream_nil. split.
  - intros (Hf & Ha & Hta & Hfp & [He Hnd] & Hanch & Hids & Hup & Hre & Hr). split; [by eauto| |by eauto].
    exists ct. split_and!; try done; [intros e ?; by apply He|].
    intros i Hi. by apply validate_allowed_identity_nil; [..|apply Hids].
  - intros [(f & Hf0 & Hf) (ct' & Ht0 & Ha & Hta & Hfp & He & Hnd & Hanch & Hids & Hr)
      (u & Hu0 & Hup & Hre)]. rewrite Ei in Hf0. rewrite Et in Ht0. rewrite Eu in Hu0.
    injection Hf0 as <-. injection Ht0 as <-. injection Hu0 as <-. split_and!; try done.
    + intros e Hin. split; [by apply He|set_solver].
    + intros i Hi. apply validate_allowed_identity_nil; auto.
Qed.
End mode_lemmas.

(** ** Client *)
Section client_lemmas.
Context {PL : PercentLib} {UL : UrlLib} {PK : PkiLib} {HL : HttpLib} {AL : AuditLib}.
Context (env : ValidationEnv).

Record client_route_ok (config : ConnectorConfig) (r : RouteConfig) : Prop := {
  cr_local : ∃ p, rt_local_prefix r = Some p ∧ p ≠ EmptyString;
  cr_upstream : ∃ p, rt_upstream_prefix r = Some p ∧ p ≠ EmptyString;
  cr_default : rt_require_purpose r = true → rt_purpose_source r = Some StaticRouteDefault →
    ∃ p, df_data_purpose (cf_defaults config) = Some p ∧ nonblank p;
}.

Record client_ok (config : ConnectorConfig) (require_env : bool) : Prop := {
  cl_listen : is_loopback (cf_listen config) = true ∨ cf_allow_non_loopback_client_listen config = true;
  cl_server : ∃ server, cf_server config = Some server ∧ url_scheme (sv_url server) = "https" ∧
    is_root_url_path (sv_url server) = true ∧ file_ok env (sv_trust_bundle server);
  cl_identity : ∃ files, cf_client_identity config = Some files ∧
    identity_files_ok env files ClientAuth;
  cl_routes : ∀ r, r ∈ cf_routes config → client_route_ok config r;
  cl_env : require_env = true → ∀ var, au_hash_secret_env (cf_audit config) = Some var →
    is_ok (hasher_from_env (ve_environ env) var) = true;
}.

Lemma validate_client_route_nil config r :
  validate_client_route config r = [] ↔ client_route_ok config r.
Proof.
  unfold validate_client_route. rewrite !app_nil, !when_push_nil, !missing_prefix_false.
  assert (Hd : rt_require_purpose r && bool_decide (rt_purpose_source r = Some StaticRouteDefault)
      && blank (unwrap_or EmptyString (df_data_purpose (cf_defaults config))) = false ↔
    (rt_require_purpose r = true → rt_purpose_source r = Some StaticRouteDefault →
     ∃ p, df_data_purpose (cf_defaults config) = Some p ∧ nonblank p)).
  { destruct (rt_require_purpose r); simpl; [|by split].
    case_bool_decide as Hs; simpl; [|by split].
    destruct (df_data_purpose (cf_defaults config)) as [p|]; simpl.
    - rewrite blank_false. split; [eauto|]. intros H. by destruct (H eq_refl Hs) as (? & [= <-] & ?).
    - split; [done|]. intros H. by destruct (H eq_refl Hs) as (? & ? & _). }
  rewrite Hd. split; [by intros (? & ? & ?)|by intros []].
Qed.

Lemma validate_client_nil config require_env :
  validate_client env config require_env = [] ↔ client_ok config require_env.
Proof.
  unfold validate_client. rewrite app_nil, when_push_nil, andb_false_iff, !negb_false_iff.
  destruct (cf_server config) as [server|] eqn:Es.
  2:{ split; [by intros [_ ?]|]. intros [_ (? & ? & _) _ _ _]. congruence. }
  rewrite !app_nil, !when_push_nil, !negb_false_iff, String.eqb_eq, require_file_nil.
  destruct (cf_client_identity config) as [files|] eqn:Ei.
  2:{ split; [by intros (_ & _ & _ & _ & ?)|]. intros [_ _ (? & ? & _) _ _]. congruence. }
  rewrite !app_nil, validate_identity_files_nil, concat_fmap_nil.
  setoid_rewrite validate_client_route_nil.
  assert (He : (if require_env then require_audit_hash_env env config else []) = [] ↔
    (require_env = true → ∀ var, au_hash_secret_env (cf_audit config) = Some var →
      is_ok (hasher_from_env (ve_environ env) var) = true)).
  { destruct require_env; [rewrite require_audit_hash_env_nil|]; naive_solver. }
  rewrite He. split.
  - intros (? & ? & ? & ? & ? & ? & ?). split; eauto 10.
  - intros [? (s & Hs & ? & ? & ?) (f & Hf & ?) ? ?]. rewrite Es in Hs. rewrite Ei in Hf.
    injection Hs as <-. injection Hf as <-. by split_and!.
Qed.

Lemma validate_config_Ok config mode require_env :
  validate_config env config mode require_env = Ok tt ↔
  match mode with
  | Client => client_ok config require_env
  | Server => server_ok env config require_env
  end ∧ common_ok config.
Proof.
  unfold validate_config. rewrite <- validate_common_nil.
  destruct mode; [rewrite <- validate_client_nil|rewrite <- validate_server_nil]; rewrite <- app_nil;
    destruct (_ ++ _); simpl; split; done.
Qed.
End client_lemmas.

(** ** Expiry warnings *)
Lemma expiry_warning_Ok {UL : UrlLib} {PK : PkiLib} (env : ValidationEnv)
    (config : ConnectorConfig) (mode : Mode) (cert : string) :
  let days := lm_expiry_warning_days (cf_limits config) in
  (days ≤ 213503982334601)%Z →
  cert ∈ warn_certificate_expiry env config mode ↔
  ∃ files summary,
    match mode with Client => cf_client_identity config | Server => cf_server_identity config end
      = Some files ∧ id_cert files = cert ∧ certificate_summary cert = Ok summary ∧
    (cs_not_after_system summary - ve_now env ≤ Z.max days 0 * 86400 * 1000000000)%Z.
Proof.
  intros days Hdays. unfold warn_certificate_expiry. rewrite list_elem_of_omap.
  assert (Hthr : Z.of_N (duration_from_secs (expiry_threshold_seconds config)) =
    (Z.max days 0 * 86400 * 1000000000)%Z).
  { unfold duration_from_secs, expiry_threshold_seconds. fold days.
    rewrite N.mod_small by (unfold u64_bound; lia). lia. }
  split.
  - intros (files & Hf & H). exists files.
    destruct (certificate_summary (id_cert files)) as [summary|] eqn:Es; [|done].
    destruct (expires_within summary (ve_now env) _) eqn:Ee; [|done]. injection H as <-.
    exists summary. split_and!; try done; [|apply expires_within_true in Ee; lia].
    destruct mode; [destruct (cf_client_identity config)|destruct (cf_server_identity config)];
      simpl in Hf; set_solver.
  - intros (files & summary & Hm & <- & Hs & Hle). exists files. split; [rewrite Hm; left|].
    rewrite Hs. assert (Hw : expires_within summary (ve_now env)
      (duration_from_secs (expiry_threshold_seconds config)) = true) by (apply expires_within_true; lia).
    by rewrite Hw.
Qed.

(** The configuration with another expiry setting. *)
Definition with_expiry_days {UL : UrlLib} (days : Z) (c : ConnectorConfig) : ConnectorConfig := {|
  cf_listen := cf_listen c; cf_server := cf_server c; cf_client_identity := cf_client_identity c;
  cf_defaults := cf_defaults c; cf_audit := cf_audit c;
  cf_limits := {|
    lm_max_body_bytes := lm_max_body_bytes (cf_limits c);
    lm_upstream_timeout_seconds := lm_upstream_timeout_seconds (cf_limits c);
    lm_request_timeout_seconds := lm_request_timeout_seconds (cf_limits c);
    lm_tls_handshake_timeout_seconds := lm_tls_handshake_timeout_seconds (cf_limits c);
    lm_http1_header_read_timeout_seconds := lm_http1_header_read_timeout_seconds (cf_limits c);
    lm_max_concurrent_requests := lm_max_concurrent_requests (cf_limits c);
    lm_max_concurrent_connections := lm_max_concurrent_connections (cf_limits c);
    lm_max_requests_per_identity_per_minute :=
      lm_max_requests_per_identity_per_minute (cf_limits c);
    lm_expiry_warning_days := days |};
  cf_routes := cf_routes c; cf_server_identity := cf_server_identity c;
  cf_client_trust := cf_client_trust c; cf_upstream := cf_upstream c;
  cf_allow_non_loopback_client_listen := cf_allow_non_loopback_client_listen c;
  cf_allow_dns_san_identity := cf_allow_dns_san_identity c; cf_connector_id := cf_connector_id c;
|}.

Lemma expiry_wraps {PL : PercentLib} {UL : UrlLib} {PK : PkiLib} {HL : HttpLib}
    {AL : AuditLib} (env : ValidationEnv) (config : ConnectorConfig) (mode : Mode)
    (require_env : bool) (days : Z) :
  (213503982334601 < days)%Z →
  let config' := with_expiry_days days config in
  validate_config env config' mode require_env = validate_config env config mode require_env ∧
  Z.of_N (expiry_threshold_seconds config') = ((days * 86400) mod 18446744073709551616)%Z ∧
  (Z.of_N (expiry_threshold_seconds config') < days * 86400)%Z.
Proof.
  intros Hd config'. split; [by destruct config as [? ? ? ? ? [] ? ? ? ? ? ? ?]|].
  assert (H : Z.of_N (expiry_threshold_seconds config') =
    ((days * 86400) mod 18446744073709551616)%Z).
  { unfold expiry_threshold_seconds, u64_bound. cbn [config' with_expiry_days cf_limits
      lm_expiry_warning_days]. rewrite N2Z.inj_mod, N2Z.inj_mul, Z2N.id, Z.max_l by lia. done. }
  split; [exact H|]. rewrite H.
  pose proof (Z.mod_pos_bound (days * 86400) 18446744073709551616). lia.
Qed.

(** ** Properties *)
Module Claims.
(** C9: Validation is exact in both modes.  A configuration is accepted for server
    mode if and only if it meets every condition of [server_ok] and [common_ok]:
    usable key material, at least one anchor and one allowed identity, every allowed
    identity bound to an anchor, every route bound to allowed identities only, unique
    route ids and entitlements, canonical prefixes, positive limits, keyed audit
    hashing unless waived, and with [require_env] a usable secret in every credential
    variable.  It is accepted for client mode if and only if it meets [client_ok] and
    [common_ok]: it listens on loopback or says otherwise, has an [https] server URL
    without path, its trust bundle and a usable client certificate, both prefixes on
    every route, and a default purpose where a route relies on it. *)
Theorem validate_config_exact {PL : PercentLib} {UL : UrlLib} {PK : PkiLib} {HL : HttpLib}
    {AL : AuditLib} (env : ValidationEnv) (config : ConnectorConfig) (mode : Mode) (require_env : bool) :
  validate_config env config mode require_env = Ok tt ↔
  match mode with
  | Server => server_ok env config require_env
  | Client => client_ok env config require_env
  end ∧ common_ok config.
Proof. destruct mode; exact (validate_config_Ok env config _ require_env). Qed.

(** With an accepted server configuration, route lookup fails only because of
    the request: its path is not acceptable, or no route of the caller matches;
    never because of a prefix in the configuration. *)
Theorem validated_routes_never_fail {PL : PercentLib} {UL : UrlLib} {PK : PkiLib} {HL : HttpLib}
    {AL : AuditLib} (env : ValidationEnv) (config : ConnectorConfig) (require_env : bool)
    (method : Method) (path id e : string) :
  validate_config env config Server require_env = Ok tt →
  find_server_route (cf_routes config) method path id = Err e →
  canonical_request_path path = Err e ∨ e = "no server route matched".
Proof.
  intros [_ Hok]%validate_config_Ok H. unfold find_server_route in H.
  apply bind_Err_inv in H as [H|(cpath & _ & H)]; [by left|]. right.
  rewrite server_loop_best in H. apply bind_Err_inv in H as [H|(b & _ & H)].
  - apply best_loop_Err in H as (r & Hr & H). apply server_candidate_Err in H as (p & Hp & H).
    pose proof (ro_upstream_prefix _ (ok_each_route _ Hok r Hr) p Hp) as Hv.
    apply validate_route_prefix_canonical in Hv as [c Hc]. congruence.
  - by apply ok_or_Err in H as [_ ->].
Qed.

(** A server configuration in the reference world. *)
Definition wit_files : IdentityFiles := {| id_cert := "leaf"; id_key := "key" |}.
Definition wit_server_config (days : Z) : @ConnectorConfig ref_url := {|
  cf_listen := Tcp {| sa_ip := V4 127 0 0 1; sa_port := 9443 |};
  cf_server := None; cf_client_identity := None;
  cf_defaults := {| df_data_purpose := None |};
  cf_audit := {| au_hash_secret_env := Some "AUDIT"; au_allow_unkeyed_hashing := false |};
  cf_limits := {|
    lm_max_body_bytes := 1024; lm_upstream_timeout_seconds := 30; lm_request_timeout_seconds := 30;
    lm_tls_handshake_timeout_seconds := 10; lm_http1_header_read_timeout_seconds := 10;
    lm_max_concurrent_requests := 8; lm_max_concurrent_connections := 8;
    lm_max_requests_per_identity_per_minute := 600; lm_expiry_warning_days := days |};
  cf_routes := [{|
    rt_id := "relay"; rt_methods := ["GET"]; rt_local_prefix := None;
    rt_upstream_prefix := Some "/v1"; rt_require_purpose := true; rt_purpose_source := None;
    rt_client_identity := Some "spiffe://client.example/w"; rt_client_identities := [];
    rt_upstream_auth_header_env := None; rt_forward_client_identity_header := true;
    rt_purposes := ["operations"]; rt_governed_policy := None;
    rt_allow_forward_authorization := false; rt_allow_forward_cookie := false;
    rt_policy_hash := 0 |}];
  cf_server_identity := Some wit_files;
  cf_client_trust := Some {|
    ct_allowed_identities := ["spiffe://client.example/w"];
    ct_trust_anchors :=
      [{| ta_ca := "ca"; ta_trust_domain := "client.example"; ta_dns_identities := [] |}];
    ct_denied_certificate_fingerprints_sha256 := [];
    ct_trust_context_entitlements := [] |};
  cf_upstream := Some {|
    up_base_url := (("http://relay:8080", "/") : @Url ref_url);
    up_default_auth_header_env := Some "TOKEN"; up_auth_header_name := "Authorization";
    up_auth_header_scheme := "Bearer" |};
  cf_allow_non_loopback_client_listen := false; cf_allow_dns_san_identity := false;
  cf_connector_id := None |}.
Definition wit_environ : Environ := λ name,
  if String.eqb name "TOKEN" then Some "s3cret" else
  if String.eqb name "AUDIT" then Some "k" else None.
Definition wit_env : ValidationEnv := {|
  ve_exists _ := true; ve_mode _ := Some 384%N; ve_environ := wit_environ;
  ve_now := 5000000000%Z |}.

Lemma validated_routes_never_fail_witness :
  @canonical_request_path ref_percent "/v2/x" = Err "no server route matched" ∨
  "no server route matched" = "no server route matched".
Proof.
  apply (@validated_routes_never_fail ref_percent ref_url ref_pki Ref.ref_http ref_audit wit_env
    (wit_server_config 30) true "GET" "/v2/x" "spiffe://client.example/w").
  - vm_compute. reflexivity.
  - vm_compute. reflexivity.
Defined.

(** C38: The expiry warning, exactly: up to 213503982334601 days the certificate of
    the mode is reported exactly when it loads and its validity ends within that many
    days, negative settings counting as zero.  Beyond that bound the number of seconds
    overflows [u64]: validation, which answers the same for every expiry setting, does
    not refuse it, and the threshold is the number of seconds modulo [2^64], hence
    strictly shorter than the period the operator asked for. *)
Theorem expiry_warning_exact {PL : PercentLib} {UL : UrlLib} {PK : PkiLib} {HL : HttpLib}
    {AL : AuditLib} (env : ValidationEnv) (config : ConnectorConfig) (mode : Mode)
    (require_env : bool) (days : Z) (cert : string) :
  let config' := with_expiry_days days config in
  if (days <=? 213503982334601)%Z then
    cert ∈ warn_certificate_expiry env config' mode ↔
    ∃ files summary,
      match mode with Client => cf_client_identity config | Server => cf_server_identity config end
        = Some files ∧ id_cert files = cert ∧ certificate_summary cert = Ok summary ∧
      (cs_not_after_system summary - ve_now env ≤ Z.max days 0 * 86400 * 1000000000)%Z
  else
    validate_config env config' mode require_env = validate_config env config mode require_env ∧
    Z.of_N (expiry_threshold_seconds config') = ((days * 86400) mod 18446744073709551616)%Z ∧
    (Z.of_N (expiry_threshold_seconds config') < days * 86400)%Z.
Proof.
  intros config'. destruct (Z.leb_spec days 213503982334601) as [Hd|Hd].
  - exact (expiry_warning_Ok env config' mode cert Hd).
  - exact (expiry_wraps env config mode require_env days Hd).
Qed.
End Claims.
