(* ===== verification/Proxy.v ===== *)
(** * The proxy ([src/src/proxy.rs], state and handlers)

    [proxy_handler] runs [handle_client] or [handle_server] under a timeout,
    turns its error into a problem response and writes the completion log.  The
    handlers are programs of a small monad: a state of the shared mutable objects
    (the rate limiter, the policy hash caches) and the trace of visible effects
    (requests sent upstream, lines of policy decisions and of authorised requests), and an error that is a
    problem or a panic.  Clock readings, the environment, the upstream's answer,
    the fresh request id and the point at which the timeout strikes are the
    environment [Env] of one request. *)
From S2P Require Import Prelude RustStr BTree Errors External Reference Http Pdp Config Routing.
From S2P Require Import RateLimit Identity Tls PolicyHash Purpose Redaction ConfigValidate.
From Stdlib Require Import Ascii.

(** The client of the platform's [OutboundClientBuilder], by timeout and agent. *)
Class OutboundLib `{PkiLib} := { outbound_client : N → string → HttpClient }.

(** ** Small helpers *)
Definition CARGO_PKG_VERSION : string := "0.1.0".

Definition request_id_byte (c : ascii) : bool :=
  is_ascii_alphanumeric c || Ascii.eqb c "-" || Ascii.eqb c "_" || Ascii.eqb c "." || Ascii.eqb c ":".

Definition valid_request_id (value : string) : bool :=
  negb (str_is_empty value) && (String.length value <=? 128)%nat && bytes_all request_id_byte value.

Section helpers.
Context {HL : HttpLib} {UL : UrlLib}.

(** [ulid] is the text of the fresh ULID. *)
Definition request_id (ulid : string) (headers : HeaderMap) : string :=
  unwrap_or ulid
    (opt_filter valid_request_id (hm_get headers REQUEST_ID ≫= header_value_to_str)).

Definition header_value (value : string) : result ConnectorProblem HeaderValue :=
  ok_or ConfigInvalid (header_value_from_str value).

(** The text handed to [Url::parse]. *)
Definition url_text (base : Url) (path : string) (query : option string) : string :=
  url_before_path base +:+ path +:+
  match query with Some query => String "?" query | None => EmptyString end.

Definition build_url (base : Url) (path : string) (query : option string) : option Url :=
  url_parse (url_text base path query).

Definition filtered_headers (headers : HeaderMap) (route_match : RouteMatch) : HeaderMap :=
  let policy := php_strip_private_prefix "x-registry-connector-"
    (php_allow_cookie (rt_allow_forward_cookie (rm_route route_match))
      (php_allow_authorization (rt_allow_forward_authorization (rm_route route_match)) php_strict)) in
  filter_proxy_request_headers headers policy.

Definition read_limited_body (body : Body) (max_bytes : N) : result ConnectorProblem Bytes :=
  map_err (λ _, BodyTooLarge) (to_bytes body max_bytes).

(** [environ] is the process environment. *)
Definition upstream_auth_header (environ : Environ) (config : ConnectorConfig)
    (route_match : RouteMatch) : result ConnectorProblem HeaderValue :=
  upstream ← ok_or ConfigInvalid (cf_upstream config);
  env_var ← ok_or UpstreamAuthMissing
    (match rt_upstream_auth_header_env (rm_route route_match) with
     | Some env_var => Some env_var
     | None => up_default_auth_header_env upstream
     end);
  secret ← ok_or UpstreamAuthMissing
    (opt_filter (λ value, negb (str_is_empty (trim value))) (environ env_var));
  let value :=
    if str_is_empty (trim (up_auth_header_scheme upstream)) then secret
    else up_auth_header_scheme upstream +:+ " " +:+ secret in
  header_value value.
End helpers.

Section proxy.
Context {PL : PercentLib} {UL : UrlLib} {SL : Sha256Lib} {PK : PkiLib} {HL : HttpLib}
  {PD : PdpLib} {AL : AuditLib} {OL : OutboundLib}.

(** ** Data *)
Record ProxyState : Type := {
  ps_config : ConnectorConfig;
  ps_mode : Mode;
  ps_client : HttpClient;
  ps_server_trust : option ServerTrustPolicy;
  ps_audit_hasher : option AuditKeyHasher;
}.

Definition ProxyState_client (config : ConnectorConfig) (client : HttpClient) : ProxyState := {|
  ps_config := config; ps_mode := Client; ps_client := client;
  ps_server_trust := None; ps_audit_hasher := None |}.

Definition ProxyState_server (environ : Environ) (config : ConnectorConfig)
    : result ConnectorError ProxyState :=
  let client := outbound_client (upstream_timeout config) "registry-trust-connector/0.1" in
  trust ← from_config config;
  hasher ← audit_key_hasher environ config;
  Ok {| ps_config := config; ps_mode := Server; ps_client := client;
        ps_server_trust := Some trust; ps_audit_hasher := Some hasher |}.

(** The inbound request; [rq_chain] is the [PeerCertificateChain] extension. *)
Record Request : Type := {
  rq_method : Method;
  rq_path : string;
  rq_query : option string;
  rq_headers : HeaderMap;
  rq_body : Body;
  rq_chain : option PeerCertificateChain;
}.

(** What [reqwest] is asked to send; headers in the order they were appended.  What the
    client adds to every request on its own, the [User-Agent] it was built with above all,
    is not part of it: that is the client's, [ps_client]. *)
Record OutboundRequest : Type := {
  ob_method : string;
  ob_url : Url;
  ob_headers : list (HeaderName * HeaderValue);
  ob_body : Bytes;
}.

Record Response : Type := {
  rs_status : StatusCode;
  rs_headers : list (HeaderName * HeaderValue);
  rs_body : Bytes;
}.

(** Visible effects: what is sent, and the [info] lines of the server handler. *)
Inductive Event : Type :=
| Sent (client : HttpClient) (request : OutboundRequest)
| Decided (log : DecisionLog)
| Authorized (route_id identity_hash cert_hash request_id : string).

(** The shared mutable objects of [ProxyState] and the trace so far. *)
Record World : Type := {
  w_limiter : RequestRateLimiter;
  w_caches : CacheStore;
  w_events : list Event;
}.

(** Where the handlers wait, and so where the timeout can strike. *)
Inductive AwaitPoint : Type := AtBody | AtSend | AtResponse.

Record Env : Type := {
  en_environ : Environ;
  en_now_verify : VerifyClock;
  en_now_at : SystemTime;
  en_now_age : SystemTime;
  en_instant : Instant;
  en_ulid : string;
  en_upstream : HttpClient → OutboundRequest → result string UpstreamResponse;
  en_timeout : option AwaitPoint;
  en_latency_ms : N;
  (** Whether the subscriber enables the [info] level, without which the
      arguments of a log line are not evaluated. *)
  en_info : bool;
}.

Inductive Failure : Type :=
| Problem (p : ConnectorProblem)
| Panicked.

(** ** The handler monad *)
Definition Handler (A : Type) : Type := World → World * result Failure A.

Definition h_ret {A} (a : A) : Handler A := λ w, (w, Ok a).
Definition h_bind {A B} (e : Handler A) (k : A → Handler B) : Handler B := λ w,
  match e w with
  | (w', Ok a) => k a w'
  | (w', Err f) => (w', Err f)
  end.
Definition lift {A} (r : result ConnectorProblem A) : Handler A := λ w, (w, map_err Problem r).
Definition or_panic {A} (o : option A) : Handler A := λ w, (w, ok_or Panicked o).
Definition emit (e : Event) : Handler unit := λ w,
  ({| w_limiter := w_limiter w; w_caches := w_caches w; w_events := w_events w ++ [e] |}, Ok tt).

Definition await {A} (env : Env) (p : AwaitPoint) (r : result ConnectorProblem A) : Handler A :=
  match en_timeout env, p with
  | Some AtBody, AtBody | Some AtSend, AtSend | Some AtResponse, AtResponse =>
      lift (Err RequestTimeout)
  | _, _ => lift r
  end.
End proxy.

Notation "x <-- e ; k" := (h_bind e (λ x, k))
  (at level 100, e at next level, right associativity) : connector_scope.
Notation "e ;;; k" := (h_bind e (λ _ : unit, k))
  (at level 100, right associativity) : connector_scope.
Local Open Scope connector_scope.

Section handlers.
Context {PL : PercentLib} {UL : UrlLib} {SL : Sha256Lib} {PK : PkiLib} {HL : HttpLib}
  {PD : PdpLib} {AL : AuditLib} {OL : OutboundLib}.

(** ** Sending *)

(** [for (name, value) in headers { if let Some(name) = name { .. } }]. *)
Definition named_headers (headers : HeaderMap) : list (HeaderName * HeaderValue) :=
  omap (λ '(name, value), (λ name, (name, value)) <$> name) (hm_into_iter headers).

Definition send_upstream (env : Env) (client : HttpClient) (method : Method) (url : Url)
    (headers : HeaderMap) (body : Bytes) (max_body_bytes : N) : Handler Response :=
  reqwest_method <-- lift (ok_or ConfigInvalid (method_from_bytes method));
  let request := {| ob_method := reqwest_method; ob_url := url;
                    ob_headers := named_headers headers; ob_body := body |} in
  emit (Sent client request);;;
  response <-- await env AtSend
    (map_err (λ _, UpstreamUnavailable) (en_upstream env client request));
  status <-- lift (ok_or UpstreamUnavailable (status_from_u16 (resp_status response)));
  let response_headers := hm_iter (filter_proxy_response_headers (resp_headers response)) in
  body <-- await env AtResponse
    (map_err (λ _, UpstreamUnavailable) (read_bounded response max_body_bytes));
  _ <-- lift (map_err (λ _, UpstreamUnavailable) (builder_body status response_headers body));
  h_ret {| rs_status := status; rs_headers := response_headers; rs_body := body |}.

(** ** Client mode *)

(** The headers of the upstream request. *)
Definition client_headers (config : ConnectorConfig) (route_match : RouteMatch)
    (purpose : option string) (request_id : string) (inbound : HeaderMap)
    : result ConnectorProblem HeaderMap :=
  let headers := filtered_headers inbound route_match in
  rid ← header_value request_id;
  let headers := hm_insert headers REQUEST_ID rid in
  let headers := hm_insert headers CONNECTOR_VERSION CARGO_PKG_VERSION in
  headers ← match cf_connector_id config with
            | Some connector_id =>
                v ← header_value connector_id; Ok (hm_insert headers CONNECTOR_ID v)
            | None => Ok headers
            end;
  match purpose with
  | Some purpose => v ← header_value purpose; Ok (hm_insert headers DATA_PURPOSE v)
  | None => Ok headers
  end.

Definition handle_client (env : Env) (state : ProxyState) (request : Request) (request_id : string)
    : Handler Response :=
  let config := ps_config state in
  route_match <-- lift (map_err (λ _, RouteDenied)
    (find_client_route (cf_routes config) (rq_method request) (rq_path request)));
  purpose <-- lift (resolve_client_purpose config route_match (rq_headers request));
  body <-- await env AtBody (read_limited_body (rq_body request) (max_body_bytes config));
  server <-- lift (ok_or ConfigInvalid (cf_server config));
  url <-- lift (ok_or ConfigInvalid
    (build_url (sv_url server) (rm_upstream_path route_match) (rq_query request)));
  headers <-- lift (client_headers config route_match purpose request_id (rq_headers request));
  send_upstream env (ps_client state) (rq_method request) url headers body (max_body_bytes config).

(** ** Server mode *)
Definition identity_allowed (config : ConnectorConfig) (identity : PeerIdentity) : bool :=
  match cf_client_trust config with
  | Some trust =>
      existsb (λ allowed, String.eqb (trim allowed) (pi_value identity)) (ct_allowed_identities trust)
  | None => false
  end.

(** The decision line, where the subscriber enables [info]. *)
Definition decision_events (env : Env) (log : option DecisionLog) : list Event :=
  if en_info env then Decided <$> option_list log else [].

(** The calls that change the shared objects. *)
Definition authorize_m (env : Env) (route_match : RouteMatch) (headers : HeaderMap)
    (identity : PeerIdentity) (ct : option ClientTrustConfig) : Handler (option string) := λ w,
  let '(caches, log, r) := authorize_server_purpose (w_caches w) (en_now_at env) (en_now_age env)
    route_match headers identity ct in
  ({| w_limiter := w_limiter w; w_caches := caches;
      w_events := w_events w ++ decision_events env log |}, map_err Problem r).

Definition rate_check_m (env : Env) (identity route_id : string) (limit : N) : Handler unit := λ w,
  let '(limiter, r) := rate_check (w_limiter w) (en_instant env) identity route_id limit in
  ({| w_limiter := limiter; w_caches := w_caches w; w_events := w_events w |}, map_err Problem r).

(** The headers of the upstream request. *)
Definition server_headers (env : Env) (config : ConnectorConfig) (upstream : UpstreamConfig)
    (route_match : RouteMatch) (identity : PeerIdentity) (authorized_purpose : option string)
    (request_id : string) (inbound : HeaderMap) : result ConnectorProblem HeaderMap :=
  let headers := filter_proxy_request_headers inbound
    (php_strip_private_prefix "x-registry-connector-" php_strict) in
  let headers := hm_remove headers DATA_PURPOSE in
  headers ← match authorized_purpose with
            | Some purpose => v ← header_value purpose; Ok (hm_insert headers DATA_PURPOSE v)
            | None => Ok headers
            end;
  rid ← header_value request_id;
  let headers := hm_insert headers REQUEST_ID rid in
  auth_value ← upstream_auth_header (en_environ env) config route_match;
  name ← ok_or ConfigInvalid (header_name_from_bytes (up_auth_header_name upstream));
  let headers := hm_insert headers name auth_value in
  if rt_forward_client_identity_header (rm_route route_match) then
    v ← header_value (pi_value identity); Ok (hm_insert headers CONNECTOR_CLIENT_IDENTITY v)
  else Ok headers.

Definition log_authorized (env : Env) (state : ProxyState) (route_match : RouteMatch) (identity : PeerIdentity)
    (request_id : string) : Handler unit :=
  if negb (en_info env) then h_ret tt else
  hasher <-- lift (ok_or ConfigInvalid (ps_audit_hasher state));
  identity_hash <-- or_panic (identity_hash_for_log hasher (pi_value identity));
  cert_hash <-- or_panic (certificate_hash_for_log hasher (pi_fingerprint_sha256 identity));
  emit (Authorized (rt_id (rm_route route_match)) identity_hash cert_hash request_id).

Definition handle_server (env : Env) (state : ProxyState) (request : Request) (request_id : string)
    : Handler Response :=
  let config := ps_config state in
  chain <-- lift (ok_or ClientIdentityMissing (rq_chain request));
  trust <-- lift (ok_or ConfigInvalid (ps_server_trust state));
  identity <-- lift (map_err (λ _, ClientIdentityDenied) (verify_peer (en_now_verify env) trust chain));
  if negb (identity_allowed config identity) then lift (Err ClientIdentityDenied) else
  route_match <-- lift (map_err (λ _, RouteDenied)
    (find_server_route (cf_routes config) (rq_method request) (rq_path request) (pi_value identity)));
  authorized_purpose <--
    authorize_m env route_match (rq_headers request) identity (cf_client_trust config);
  rate_check_m env (pi_value identity) (rt_id (rm_route route_match))
    (lm_max_requests_per_identity_per_minute (cf_limits config));;;
  body <-- await env AtBody (read_limited_body (rq_body request) (max_body_bytes config));
  upstream <-- lift (ok_or ConfigInvalid (cf_upstream config));
  url <-- lift (ok_or ConfigInvalid
    (build_url (up_base_url upstream) (rm_upstream_path route_match) (rq_query request)));
  headers <-- lift (server_headers env config upstream route_match identity authorized_purpose
    request_id (rq_headers request));
  log_authorized env state route_match identity request_id;;;
  send_upstream env (ps_client state) (rq_method request) url headers body (max_body_bytes config).

(** ** The handler *)
Record CompletionLog : Type := {
  cl_mode : Mode;
  cl_method : Method;
  cl_path_len : nat;
  cl_query_present : bool;
  cl_request_id : string;
  cl_status : StatusCode;
  cl_status_class : N;
  cl_outcome : string;
  cl_problem_code : string;
  cl_denial_stage : string;
  cl_denial_reason : string;
  cl_latency_ms : N;
}.

Inductive Reply : Type :=
| Forwarded (r : Response)
| Refused (doc : ProblemDoc).

Definition reply_status (r : Reply) : StatusCode :=
  match r with Forwarded r => rs_status r | Refused doc => problem_status doc end.

(** What follows the handler: the response and the completion log; [None] when the
    task panicked. *)
Definition finish_request (env : Env) (state : ProxyState) (request : Request)
    (result : result Failure Response) : option (Reply * CompletionLog) :=
  let finish (problem : option ConnectorProblem) (reply : Reply) :=
    Some (reply, {|
      cl_mode := ps_mode state;
      cl_method := rq_method request;
      cl_path_len := String.length (rq_path request);
      cl_query_present := is_some (rq_query request);
      cl_request_id := request_id (en_ulid env) (rq_headers request);
      cl_status := reply_status reply;
      cl_status_class := reply_status reply / 100;
      cl_outcome := unwrap_or "forwarded" (audit_outcome <$> problem);
      cl_problem_code := unwrap_or EmptyString (code <$> problem);
      cl_denial_stage := unwrap_or EmptyString (problem ≫= denial_stage);
      cl_denial_reason := unwrap_or EmptyString (problem ≫= denial_reason);
      cl_latency_ms := en_latency_ms env |}) in
  match result with
  | Ok response => finish None (Forwarded response)
  | Err (Problem problem) => finish (Some problem) (Refused (problem_response problem))
  | Err Panicked => None
  end.

Definition proxy_handler (env : Env) (state : ProxyState) (request : Request) (w : World)
    : World * option (Reply * CompletionLog) :=
  let rid := request_id (en_ulid env) (rq_headers request) in
  let handler := match ps_mode state with
                 | Client => handle_client env state request rid
                 | Server => handle_server env state request rid
                 end in
  let '(w, result) := handler w in
  (w, finish_request env state request result).
End handlers.

(** ** Running handlers *)
Section runs.
Context {PL : PercentLib} {UL : UrlLib} {SL : Sha256Lib} {PK : PkiLib} {HL : HttpLib}
  {PD : PdpLib} {AL : AuditLib} {OL : OutboundLib}.

Lemma h_bind_inv {A B} (e : Handler A) (k : A → Handler B) w w' r :
  h_bind e k w = (w', r) →
  (∃ a w1, e w = (w1, Ok a) ∧ k a w1 = (w', r)) ∨ (∃ f, e w = (w', Err f) ∧ r = Err f).
Proof. unfold h_bind. destruct (e w) as [w1 [a|f]]; [eauto|]. intros [= <- <-]. eauto. Qed.

Lemma lift_Ok {A} (r : result ConnectorProblem A) w w' a :
  lift r w = (w', Ok a) → w' = w ∧ r = Ok a.
Proof. unfold lift. intros [= <- H]. apply map_err_Ok in H. done. Qed.

Lemma lift_Err {A} (r : result ConnectorProblem A) w w' f :
  lift r w = (w', Err f) → w' = w ∧ ∃ p, f = Problem p ∧ r = Err p.
Proof. unfold lift. intros [= <- H]. apply map_err_Err in H as (p & -> & ->). eauto. Qed.

Lemma await_Ok {A} env p (r : result ConnectorProblem A) w w' a :
  await env p r w = (w', Ok a) → w' = w ∧ r = Ok a.
Proof.
  unfold await. destruct (en_timeout env) as [[]|], p; intros H; by apply lift_Ok in H as [-> ?].
Qed.

Lemma await_Err {A} env p (r : result ConnectorProblem A) w w' f :
  await env p r w = (w', Err f) → w' = w ∧ ∃ q, f = Problem q ∧ (q = RequestTimeout ∨ r = Err q).
Proof.
  unfold await. destruct (en_timeout env) as [[]|], p; intros H;
    apply lift_Err in H as (-> & q & -> & Hq); split; try done; eexists; split; eauto; left; congruence.
Qed.

(** What [send_upstream] does: nothing but refuse an invalid method, or send
    exactly one request. *)
Lemma send_upstream_inv env client method url headers body max w w' r :
  send_upstream env client method url headers body max w = (w', r) →
  w_limiter w' = w_limiter w ∧ w_caches w' = w_caches w ∧
  ((method_from_bytes method = None ∧ w_events w' = w_events w ∧ r = Err (Problem ConfigInvalid)) ∨
   ∃ m, method_from_bytes method = Some m ∧
     let q := {| ob_method := m; ob_url := url; ob_headers := named_headers headers; ob_body := body |} in
     w_events w' = w_events w ++ [Sent client q] ∧
     match r with
     | Ok resp => ∃ up, en_upstream env client q = Ok up ∧
         status_from_u16 (resp_status up) = Some (rs_status resp) ∧
         rs_headers resp = hm_iter (filter_proxy_response_headers (resp_headers up)) ∧
         read_bounded up max = Ok (rs_body resp)
     | Err f => f = Problem UpstreamUnavailable ∨ f = Problem RequestTimeout
     end).
Proof.
  unfold send_upstream. intros H.
  apply h_bind_inv in H as [(m & w1 & E & H)|(f & E & ->)].
  2:{ apply lift_Err in E as (-> & p & -> & Hp). apply ok_or_Err in Hp as [? ->]. split_and!; [done..|]. by left. }
  apply lift_Ok in E as [-> Hm%ok_or_Ok].
  apply h_bind_inv in H as [([] & w2 & E & H)|(f & E & ->)]; [|discriminate E].
  injection E as <-.
  apply h_bind_inv in H as [(up & w3 & E & H)|(f & E & ->)].
  2:{ apply await_Err in E as (-> & p & -> & Hp). split_and!; [done..|]. right. exists m.
      split_and!; [done..|]. destruct Hp as [->|Hp]; [by right|]. apply map_err_Err in Hp as (? & _ & ->). by left. }
  apply await_Ok in E as [-> Hup%map_err_Ok].
  apply h_bind_inv in H as [(s & w4 & E & H)|(f & E & ->)].
  2:{ apply lift_Err in E as (-> & p & -> & Hp). apply ok_or_Err in Hp as [_ ->]. split_and!; [done..|]. right.
      exists m. split_and!; [done..|]. by left. }
  apply lift_Ok in E as [-> Hs%ok_or_Ok].
  apply h_bind_inv in H as [(b & w5 & E & H)|(f & E & ->)].
  2:{ apply await_Err in E as (-> & p & -> & Hp). split_and!; [done..|]. right. exists m.
      split_and!; [done..|]. destruct Hp as [->|Hp]; [by right|]. apply map_err_Err in Hp as (? & _ & ->). by left. }
  apply await_Ok in E as [-> Hb%map_err_Ok].
  apply h_bind_inv in H as [(u & w6 & E & H)|(f & E & ->)].
  2:{ apply lift_Err in E as (-> & p & -> & Hp). apply map_err_Err in Hp as (? & _ & ->). split_and!; [done..|].
      right. exists m. split_and!; [done..|]. by left. }
  apply lift_Ok in E as [-> _]. injection H as <- <-. split_and!; [done..|]. right. exists m.
  split_and!; [done..|]. by exists up.
Qed.

(** ** Server mode

    The caller is authenticated, allowed, routed and authorised, in a world with
    these policy hash caches. *)
Record server_auth (env : Env) (state : ProxyState) (request : Request) (w : World)
    (identity : PeerIdentity) (m : RouteMatch) (purpose : option string) : Prop := {
  sa_identity : ∃ trust chain, ps_server_trust state = Some trust ∧ rq_chain request = Some chain ∧
    verify_peer (en_now_verify env) trust chain = Ok identity;
  sa_allowed : identity_allowed (ps_config state) identity = true;
  sa_route : find_server_route (cf_routes (ps_config state)) (rq_method request) (rq_path request)
    (pi_value identity) = Ok m;
  sa_purpose : snd (authorize_server_purpose (w_caches w) (en_now_at env) (en_now_age env)
    m (rq_headers request) identity (cf_client_trust (ps_config state))) = Ok purpose;
}.

Record ServerPass : Type := {
  sp_identity : PeerIdentity;
  sp_match : RouteMatch;
  sp_purpose : option string;
  sp_body : Bytes;
  sp_upstream : UpstreamConfig;
  sp_url : Url;
  sp_headers : HeaderMap;
}.

(** Every gate of [handle_server] is passed, in a world with these caches and
    this limiter. *)
Record server_gates (env : Env) (state : ProxyState) (request : Request) (rid : string)
    (w : World) (p : ServerPass) : Prop := {
  sg_auth : server_auth env state request w (sp_identity p) (sp_match p) (sp_purpose p);
  sg_rate : snd (rate_check (w_limiter w) (en_instant env) (pi_value (sp_identity p))
    (rt_id (rm_route (sp_match p)))
    (lm_max_requests_per_identity_per_minute (cf_limits (ps_config state)))) = Ok tt;
  sg_body : to_bytes (rq_body request) (max_body_bytes (ps_config state)) = Ok (sp_body p);
  sg_upstream : cf_upstream (ps_config state) = Some (sp_upstream p);
  sg_url : build_url (up_base_url (sp_upstream p)) (rm_upstream_path (sp_match p)) (rq_query request)
    = Some (sp_url p);
  sg_headers : server_headers env (ps_config state) (sp_upstream p) (sp_match p) (sp_identity p)
    (sp_purpose p) rid (rq_headers request) = Ok (sp_headers p);
}.

(** The limiter is consulted once the caller is known to be authorised. *)
Definition rate_charged (env : Env) (state : ProxyState) (w : World) (id : PeerIdentity)
    (m : RouteMatch) : RequestRateLimiter :=
  fst (rate_check (w_limiter w) (en_instant env) (pi_value id) (rt_id (rm_route m))
    (lm_max_requests_per_identity_per_minute (cf_limits (ps_config state)))).

Definition no_sends (es : list Event) : Prop := ∀ c q, Sent c q ∉ es.

Lemma no_sends_nil : no_sends [].
Proof. intros c q. apply not_elem_of_nil. Qed.

Lemma no_sends_app es1 es2 : no_sends es1 → no_sends es2 → no_sends (es1 ++ es2).
Proof. intros H1 H2 c q [Hin|Hin]%elem_of_app; [by eapply H1|by eapply H2]. Qed.

(** From the first world to the second only log lines were written. *)
Definition logs_only (w w' : World) : Prop :=
  ∃ logs, w_events w' = w_events w ++ logs ∧ no_sends logs.

Lemma logs_only_same w w' : w_events w' = w_events w → logs_only w w'.
Proof. intros H. exists []. rewrite app_nil_r. split; [done|apply no_sends_nil]. Qed.

Global Instance logs_only_preorder : PreOrder logs_only.
Proof.
  split; [intros w; by apply logs_only_same|].
  intros w1 w2 w3 (l1 & H1 & Hn1) (l2 & H2 & Hn2). exists (l1 ++ l2).
  rewrite H2, H1, app_assoc. split; [done|by apply no_sends_app].
Qed.

Lemma no_sends_decision env log : no_sends (decision_events env log).
Proof.
  unfold decision_events. intros c q. destruct (en_info env), log; simpl;
    rewrite ?list_elem_of_singleton; try done; apply not_elem_of_nil.
Qed.

Lemma decision_events_logs env log l c w :
  logs_only w {| w_limiter := l; w_caches := c; w_events := w_events w ++ decision_events env log |}.
Proof. eexists; split; [done|apply no_sends_decision]. Qed.

Lemma authorize_m_Ok env m h id ct w w' o :
  authorize_m env m h id ct w = (w', Ok o) →
  w_limiter w' = w_limiter w ∧ logs_only w w' ∧
  snd (authorize_server_purpose (w_caches w) (en_now_at env) (en_now_age env) m h id ct) = Ok o.
Proof.
  unfold authorize_m. destruct (authorize_server_purpose _ _ _ _ _ _ _) as [[c log] r].
  intros [= <- H]. apply map_err_Ok in H as ->. split_and!; [done|apply decision_events_logs|done].
Qed.

Lemma authorize_m_Err env m h id ct w w' f :
  authorize_m env m h id ct w = (w', Err f) →
  w_limiter w' = w_limiter w ∧ logs_only w w' ∧
  ∃ p, f = Problem p ∧
    snd (authorize_server_purpose (w_caches w) (en_now_at env) (en_now_age env) m h id ct) = Err p.
Proof.
  unfold authorize_m. destruct (authorize_server_purpose _ _ _ _ _ _ _) as [[c log] r].
  intros [= <- H]. apply map_err_Err in H as (p & -> & ->).
  split_and!; [done|apply decision_events_logs|eauto].
Qed.

Lemma rate_check_m_inv env i rid limit w w' r :
  rate_check_m env i rid limit w = (w', r) →
  w_limiter w' = fst (rate_check (w_limiter w) (en_instant env) i rid limit) ∧
  w_caches w' = w_caches w ∧ w_events w' = w_events w ∧
  r = map_err Problem (snd (rate_check (w_limiter w) (en_instant env) i rid limit)).
Proof. unfold rate_check_m. destruct (rate_check _ _ _ _ _) as [l x]. by intros [= <- <-]. Qed.

Lemma log_authorized_inv env state m id rid w w' r :
  log_authorized env state m id rid w = (w', r) →
  w_limiter w' = w_limiter w ∧ w_caches w' = w_caches w ∧
  (r = Ok tt ∧ logs_only w w' ∨
   ∃ f, r = Err f ∧ w_events w' = w_events w ∧
     (f = Problem ConfigInvalid ∧ ps_audit_hasher state = None ∨
      f = Panicked ∧ ∃ h, ps_audit_hasher state = Some h ∧
        (identity_hash_for_log h (pi_value id) = None ∨
         certificate_hash_for_log h (pi_fingerprint_sha256 id) = None))).
Proof.
  unfold log_authorized. destruct (en_info env); simpl.
  2:{ intros [= <- <-]. split_and!; [done..|]. by left. }
  intros H. apply h_bind_inv in H as [(h & w1 & E & H)|(f & E & ->)].
  2:{ apply lift_Err in E as (-> & p & -> & Hp). apply ok_or_Err in Hp as [? ->].
      split_and!; [done..|]. right. eauto 7. }
  apply lift_Ok in E as [-> Hh%ok_or_Ok]. unfold or_panic in H.
  apply h_bind_inv in H as [(i & w2 & E & H)|(f & E & ->)].
  2:{ injection E as <- E. apply ok_or_Err in E as [? ->]. split_and!; [done..|]. right. eauto 9. }
  injection E as <- _.
  apply h_bind_inv in H as [(c & w3 & E & H)|(f & E & ->)].
  2:{ injection E as <- E. apply ok_or_Err in E as [? ->]. split_and!; [done..|]. right. eauto 9. }
  injection E as <- _. injection H as <- <-. split_and!; [done..|]. left. split; [done|].
  eexists; split; [done|]. intros c' q Hin%list_elem_of_singleton. discriminate Hin.
Qed.

(** A refusal before anything was sent: before the limiter was consulted, or after
    the caller was authorised and charged. *)
Definition server_refused (env : Env) (state : ProxyState) (request : Request) (w w' : World)
    (f : Failure) : Prop :=
  logs_only w w' ∧
  (w_limiter w' = w_limiter w ∧
     (∃ p, f = Problem p ∧ p ∉ [BodyTooLarge; RequestTimeout; RateLimited; UpstreamUnavailable;
        UpstreamAuthMissing]) ∨
   ∃ identity m purpose, server_auth env state request w identity m purpose ∧
     w_limiter w' = rate_charged env state w identity m ∧
     (f = Panicked → ∃ h, ps_audit_hasher state = Some h ∧
        (identity_hash_for_log h (pi_value identity) = None ∨
         certificate_hash_for_log h (pi_fingerprint_sha256 identity) = None))).

Lemma authorize_error_kind store t1 t2 m h id ct e :
  snd (authorize_server_purpose store t1 t2 m h id ct) = Err e →
  e ∉ [BodyTooLarge; RequestTimeout; RateLimited; UpstreamUnavailable; UpstreamAuthMissing].
Proof.
  intros H%authorize_cases Hin.
  assert (Hk : e = PurposeDenied ∨ e = PurposeRequired ∨ ∃ c, e = PdpDenied c).
  { destruct (single_data_purpose h) as [o|e'] eqn:Es.
    - destruct H as [[_ H]|[_ H]]; [discriminate H|]. destruct o as [p|]; [|naive_solver].
      destruct H as [(_ & _ & H)|[_ H]]; [naive_solver|].
      destruct (request_context _ _ _ _ _ _ _) as [cx|e'] eqn:Ecx.
      + destruct H as [hash H]. destruct (pdp_decide _ _); simpl in H; naive_solver.
      + injection H as ->. apply request_context_Err in Ecx. naive_solver.
    - injection H as ->. revert Es. unfold single_data_purpose. repeat case_match; naive_solver. }
  revert Hin. rewrite !elem_of_cons, elem_of_nil. naive_solver.
Qed.

(** A refusal of a stage that runs after the limiter. *)
Lemma refused_charged env state request w w' w1 identity m purpose p :
  server_auth env state request w identity m purpose →
  w_limiter w1 = rate_charged env state w identity m → logs_only w w1 →
  w' = w1 → server_refused env state request w w' (Problem p).
Proof. intros Ha Hl He ->. split; [done|]. right. exists identity, m, purpose. done. Qed.

Lemma refused_early env state request w w' p :
  w_limiter w' = w_limiter w → logs_only w w' →
  p ∉ [BodyTooLarge; RequestTimeout; RateLimited; UpstreamUnavailable; UpstreamAuthMissing] →
  server_refused env state request w w' (Problem p).
Proof. intros Hl He Hp. split; [done|]. left. eauto. Qed.

Ltac not_listed := rewrite !not_elem_of_cons; split_and!; (done || apply not_elem_of_nil).

(** The stages from the limiter on. *)
Lemma handle_server_charged env state request rid w w1 w' r identity m purpose :
  server_auth env state request w identity m purpose →
  w_limiter w1 = w_limiter w → logs_only w w1 →
  (rate_check_m env (pi_value identity) (rt_id (rm_route m))
     (lm_max_requests_per_identity_per_minute (cf_limits (ps_config state)));;;
   body <-- await env AtBody (read_limited_body (rq_body request) (max_body_bytes (ps_config state)));
   upstream <-- lift (ok_or ConfigInvalid (cf_upstream (ps_config state)));
   url <-- lift (ok_or ConfigInvalid
     (build_url (up_base_url upstream) (rm_upstream_path m) (rq_query request)));
   headers <-- lift (server_headers env (ps_config state) upstream m identity purpose rid
     (rq_headers request));
   log_authorized env state m identity rid;;;
   send_upstream env (ps_client state) (rq_method request) url headers body
     (max_body_bytes (ps_config state))) w1 = (w', r) →
  (∃ f, r = Err f ∧ server_refused env state request w w' f) ∨
  ∃ p w2 logs, server_gates env state request rid w p ∧
    w_limiter w2 = rate_charged env state w (sp_identity p) (sp_match p) ∧
    w_events w2 = w_events w ++ logs ∧ no_sends logs ∧
    send_upstream env (ps_client state) (rq_method request) (sp_url p) (sp_headers p) (sp_body p)
      (max_body_bytes (ps_config state)) w2 = (w', r).
Proof.
  intros Hauth Hl1 He1 H.
  apply h_bind_inv in H as [([] & w2 & E & H)|(f & E & ->)];
    apply rate_check_m_inv in E as (Hl2 & _ & He2 & Hr); rewrite Hl1 in Hl2, Hr;
    apply logs_only_same in He2; pose proof (transitivity He1 He2) as He.
  2:{ symmetry in Hr. apply map_err_Err in Hr as (p & _ & ->). left. eexists; split; [done|].
      by eapply refused_charged. }
  symmetry in Hr. apply map_err_Ok in Hr.
  apply h_bind_inv in H as [(body & w3 & E & H)|(f & E & ->)].
  2:{ apply await_Err in E as (-> & p & -> & _). left. eexists; split; [done|]. by eapply refused_charged. }
  apply await_Ok in E as [-> Hbody%map_err_Ok].
  apply h_bind_inv in H as [(upstream & w3 & E & H)|(f & E & ->)].
  2:{ apply lift_Err in E as (-> & p & -> & _). left. eexists; split; [done|]. by eapply refused_charged. }
  apply lift_Ok in E as [-> Hup%ok_or_Ok].
  apply h_bind_inv in H as [(url & w3 & E & H)|(f & E & ->)].
  2:{ apply lift_Err in E as (-> & p & -> & _). left. eexists; split; [done|]. by eapply refused_charged. }
  apply lift_Ok in E as [-> Hurl%ok_or_Ok].
  apply h_bind_inv in H as [(headers & w3 & E & H)|(f & E & ->)].
  2:{ apply lift_Err in E as (-> & p & -> & _). left. eexists; split; [done|]. by eapply refused_charged. }
  apply lift_Ok in E as [-> Hheaders].
  apply h_bind_inv in H as [([] & w3 & E & H)|(f & E & ->)];
    apply log_authorized_inv in E as (Hl3 & _ & Hlog).
  - destruct Hlog as [[_ He3]|(f & ? & _)]; [|done]. right.
    destruct (transitivity He He3) as (logs & He4 & Hns).
    exists {| sp_identity := identity; sp_match := m; sp_purpose := purpose; sp_body := body;
              sp_upstream := upstream; sp_url := url; sp_headers := headers |}, w3, logs.
    split_and!; [split; done| |done|done|done]. by rewrite Hl3, Hl2.
  - destruct Hlog as [[? _]|(f' & [= <-] & He3 & Hf)]; [done|]. left. eexists; split; [done|].
    split; [by etrans; [|apply logs_only_same]|]. right. exists identity, m, purpose.
    split_and!; [done|by rewrite Hl3, Hl2|]. intros ->. destruct Hf as [[? _]|[_ ?]]; done.
Qed.

Lemma handle_server_inv env state request rid w w' r :
  handle_server env state request rid w = (w', r) →
  (∃ f, r = Err f ∧ server_refused env state request w w' f) ∨
  ∃ p w1 logs, server_gates env state request rid w p ∧
    w_limiter w1 = rate_charged env state w (sp_identity p) (sp_match p) ∧
    w_events w1 = w_events w ++ logs ∧ no_sends logs ∧
    send_upstream env (ps_client state) (rq_method request) (sp_url p) (sp_headers p) (sp_body p)
      (max_body_bytes (ps_config state)) w1 = (w', r).
Proof.
  unfold handle_server. intros H.
  apply h_bind_inv in H as [(chain & w1 & E & H)|(f & E & ->)].
  2:{ apply lift_Err in E as (-> & p & -> & Hp). apply ok_or_Err in Hp as [_ ->].
      left. eexists; split; [done|]. apply refused_early; [done..|not_listed]. }
  apply lift_Ok in E as [-> Hchain%ok_or_Ok].
  apply h_bind_inv in H as [(trust & w1 & E & H)|(f & E & ->)].
  2:{ apply lift_Err in E as (-> & p & -> & Hp). apply ok_or_Err in Hp as [_ ->].
      left. eexists; split; [done|]. apply refused_early; [done..|not_listed]. }
  apply lift_Ok in E as [-> Htrust%ok_or_Ok].
  apply h_bind_inv in H as [(identity & w1 & E & H)|(f & E & ->)].
  2:{ apply lift_Err in E as (-> & p & -> & Hp). apply map_err_Err in Hp as (? & _ & ->).
      left. eexists; split; [done|]. apply refused_early; [done..|not_listed]. }
  apply lift_Ok in E as [-> Hid%map_err_Ok].
  destruct (identity_allowed (ps_config state) identity) eqn:Hallow; simpl in H.
  2:{ injection H as <- <-. left. eexists; split; [done|]. apply refused_early; [done..|not_listed]. }
  apply h_bind_inv in H as [(m & w1 & E & H)|(f & E & ->)].
  2:{ apply lift_Err in E as (-> & p & -> & Hp). apply map_err_Err in Hp as (? & _ & ->).
      left. eexists; split; [done|]. apply refused_early; [done..|not_listed]. }
  apply lift_Ok in E as [-> Hroute%map_err_Ok].
  apply h_bind_inv in H as [(purpose & w1 & E & H)|(f & E & ->)].
  2:{ apply authorize_m_Err in E as (? & ? & p & -> & Hp). left. eexists; split; [done|].
      apply refused_early; [done..|]. by eapply authorize_error_kind. }
  apply authorize_m_Ok in E as (Hl1 & He1 & Hpurpose).
  assert (Hauth : server_auth env state request w identity m purpose) by (split; eauto).
  by eapply handle_server_charged.
Qed.
End runs.

(** ** Headers *)
Section header_lemmas.
Context {UL : UrlLib} {HL : HttpLib} {HS : HttpSpec}.

(** The entry of one header: its first value. *)
Definition first_entry (h : HeaderMap) (k : HeaderName) : option (HeaderName * HeaderValue) :=
  pair k <$> head (hm_get_all h k).

Lemma named_group h k :
  omap (λ '(name, value), (λ name, (name, value)) <$> name) (into_iter_group h k)
  = option_list (first_entry h k).
Proof.
  unfold into_iter_group, first_entry. destruct (hm_get_all h k) as [|v vs]; [done|]. simpl.
  f_equal. by induction vs as [|x vs IH].
Qed.

Lemma named_headers_omap h :
  ∃ ks, NoDup ks ∧ (∀ k, k ∈ ks ↔ hm_get_all h k ≠ []) ∧ named_headers h = omap (first_entry h) ks.
Proof.
  destruct (hm_into_iter_groups h) as (ks & Hnd & Hks & Hit). exists ks. split_and!; [done..|].
  unfold named_headers. rewrite Hit. clear. induction ks as [|k ks IH]; [done|]. simpl.
  rewrite omap_app, IH, named_group. by destruct (first_entry h k).
Qed.

(** The headers that are sent: of each header, the first value, once. *)
Lemma elem_of_named_headers h n v :
  (n, v) ∈ named_headers h ↔ head (hm_get_all h n) = Some v.
Proof.
  destruct (named_headers_omap h) as (ks & _ & Hks & ->). rewrite list_elem_of_omap. unfold first_entry.
  split.
  - intros (k & _ & H). apply fmap_Some in H as (x & Hx & [= -> ->]). done.
  - intros Hv. exists n. rewrite Hv. split; [|done]. apply Hks. intros E. by rewrite E in Hv.
Qed.

Lemma NoDup_named_headers h : NoDup (named_headers h).*1.
Proof.
  destruct (named_headers_omap h) as (ks & Hnd & _ & ->). induction Hnd as [|k ks Hni Hnd IH]; [constructor|].
  simpl. destruct (first_entry h k) as [e|] eqn:E; [|done]. simpl. constructor; [|done].
  unfold first_entry in E. apply fmap_Some in E as (v & _ & ->). simpl.
  intros (e & Hk & Hin)%list_elem_of_fmap. apply list_elem_of_omap in Hin as (k' & Hin & E).
  unfold first_entry in E. apply fmap_Some in E as (v' & _ & ->). simpl in Hk. by subst k'.
Qed.

Lemma filter_key_none {B} (l : list (string * B)) n : (n ∉ l.*1) → filter (λ e, e.1 = n) l = [].
Proof.
  induction l as [|[k u] l IH]; [done|]. simpl. rewrite not_elem_of_cons. intros [? ?].
  rewrite filter_cons_False by (simpl; congruence). auto.
Qed.

Lemma filter_key {B} (l : list (string * B)) n v :
  NoDup l.*1 → (n, v) ∈ l → filter (λ e, e.1 = n) l = [(n, v)].
Proof.
  induction l as [|[k u] l IH]; simpl; [by intros _ ?%not_elem_of_nil|].
  rewrite list.NoDup_cons. intros [Hni Hnd] [[= -> ->]|Hin]%elem_of_cons.
  - rewrite filter_cons_True by done. f_equal. by apply filter_key_none.
  - rewrite filter_cons_False; [by apply IH|]. simpl. intros ->. apply Hni.
    by apply (list_elem_of_fmap_2 fst) in Hin.
Qed.

(** What is sent under one name. *)
Lemma named_headers_values h n :
  filter (λ e, e.1 = n) (named_headers h) = option_list (pair n <$> head (hm_get_all h n)).
Proof.
  destruct (head (hm_get_all h n)) as [v|] eqn:E; simpl.
  - apply filter_key; [apply NoDup_named_headers|by apply elem_of_named_headers].
  - apply filter_key_none. intros ([k v] & -> & Hin)%list_elem_of_fmap.
    apply elem_of_named_headers in Hin. simpl in E. congruence.
Qed.

Lemma header_value_Ok s v : header_value s = Ok v → v = s.
Proof. unfold header_value. intros H%ok_or_Ok. by apply header_value_from_str_bytes. Qed.

(** What the caller's own headers may become. *)
Definition caller_header (auth cookie : bool) (inbound : HeaderMap) (n : HeaderName)
    (vs : list HeaderValue) : Prop :=
  vs = [] ∨
  vs = hm_get_all inbound n ∧ (auth = true ∨ n ≠ "authorization") ∧ (cookie = true ∨ n ≠ "cookie") ∧
  starts_with "x-registry-connector-" n = false.

Lemma filter_caller_header m p auth cookie n :
  php_authorization p = auth → php_cookie p = cookie → "x-registry-connector-" ∈ php_prefixes p →
  caller_header auth cookie m n (hm_get_all (filter_proxy_request_headers m p) n).
Proof.
  intros Ha Hc Hp. destruct (filter_request_removes m p n) as [Heq|]; [|by left].
  destruct (hm_get_all (filter_proxy_request_headers m p) n) as [|v vs] eqn:E; [by left|]. right.
  split_and!; [done|..].
  - destruct auth; [by left|]. right. intros ->. by rewrite filter_strips_authorization in E.
  - destruct cookie; [by left|]. right. intros ->. by rewrite filter_strips_cookie in E.
  - destruct (starts_with "x-registry-connector-" n) eqn:Hs; [|done].
    by rewrite (filter_strips_prefix m p _ n Hp Hs) in E.
Qed.

Lemma filtered_headers_caller headers m n :
  caller_header (rt_allow_forward_authorization (rm_route m)) (rt_allow_forward_cookie (rm_route m))
    headers n (hm_get_all (filtered_headers headers m) n).
Proof.
  unfold filtered_headers. set (policy := php_strip_private_prefix _ _).
  assert (Hpol : php_authorization policy = rt_allow_forward_authorization (rm_route m) ∧
    php_cookie policy = rt_allow_forward_cookie (rm_route m) ∧
    "x-registry-connector-" ∈ php_prefixes policy).
  { unfold policy.
    destruct (php_strip_private_prefix_spec "x-registry-connector-"
      (php_allow_cookie (rt_allow_forward_cookie (rm_route m))
        (php_allow_authorization (rt_allow_forward_authorization (rm_route m)) php_strict))) as (? & -> & ->).
    destruct (php_allow_cookie_spec (rt_allow_forward_cookie (rm_route m))
      (php_allow_authorization (rt_allow_forward_authorization (rm_route m)) php_strict)) as (-> & -> & _).
    destruct (php_allow_authorization_spec (rt_allow_forward_authorization (rm_route m)) php_strict) as (-> & _).
    done. }
  destruct Hpol as (? & ? & ?). by apply filter_caller_header.
Qed.

Lemma strict_headers_caller headers n :
  caller_header false false headers n
    (hm_get_all (filter_proxy_request_headers headers
      (php_strip_private_prefix "x-registry-connector-" php_strict)) n).
Proof.
  destruct (php_strip_private_prefix_spec "x-registry-connector-" php_strict) as (Hp & Ha & Hc).
  destruct php_strict_spec as [Ha' Hc']. apply filter_caller_header; congruence.
Qed.

Lemma head_option_list (o : option string) v : head (option_list o) = Some v ↔ o = Some v.
Proof. by destruct o. Qed.

Lemma caller_first auth cookie inbound n (vs : list HeaderValue) v :
  caller_header auth cookie inbound n vs →
  head vs = Some v ↔
  ∃ us, caller_header auth cookie inbound n us ∧ head us = Some v ∧ us = vs.
Proof. intros Hc. split; [eauto|]. by intros (us & _ & Hv & ->). Qed.
End header_lemmas.

Section server_header_lemmas.
Context {UL : UrlLib} {PK : PkiLib} {HL : HttpLib} {HS : HttpSpec}.

(** The upstream credential a configuration determines for a route. *)
Definition credential (environ : Environ) (config : ConnectorConfig) (m : RouteMatch)
    (value : string) : Prop :=
  ∃ upstream var secret, cf_upstream config = Some upstream ∧
    (rt_upstream_auth_header_env (rm_route m) = Some var ∨
     rt_upstream_auth_header_env (rm_route m) = None ∧ up_default_auth_header_env upstream = Some var) ∧
    environ var = Some secret ∧ trim secret ≠ EmptyString ∧
    value = if str_is_empty (trim (up_auth_header_scheme upstream)) then secret
            else up_auth_header_scheme upstream +:+ " " +:+ secret.

Lemma upstream_auth_header_Ok environ config m v :
  upstream_auth_header environ config m = Ok v → credential environ config m v.
Proof.
  unfold upstream_auth_header. intros (up & Hup%ok_or_Ok & H)%bind_Ok_inv.
  apply bind_Ok_inv in H as (var & Hvar%ok_or_Ok & H).
  apply bind_Ok_inv in H as (secret & Hs%ok_or_Ok & H).
  apply opt_filter_Some in Hs as [Hs Hne]. apply header_value_Ok in H.
  exists up, var, secret. split_and!; [done| |done| |done].
  - destruct (rt_upstream_auth_header_env (rm_route m)); naive_solver.
  - intros E. by rewrite E in Hne.
Qed.

Lemma opt_insert_lookup (h h' : HeaderMap) (o : option string) k n :
  match o with
  | Some p => v ← header_value p; Ok (hm_insert h k v)
  | None => Ok h
  end = Ok h' →
  hm_get_all h' n = match o with
                    | Some p => if decide (n = k) then [p] else hm_get_all h n
                    | None => hm_get_all h n
                    end.
Proof.
  destruct o as [p|]; [|by intros [= ->]]. intros (v & Hv%header_value_Ok & [= <-])%bind_Ok_inv.
  rewrite hm_get_all_insert. by subst v.
Qed.

(** The headers of the upstream request, all of them. *)
Lemma server_headers_lookup (env : Env) config upstream m identity purpose rid inbound h :
  server_headers env config upstream m identity purpose rid inbound = Ok h →
  ∃ secret, credential (en_environ env) config m secret ∧
  ∀ n, hm_get_all h n =
    if decide (n = CONNECTOR_CLIENT_IDENTITY ∧ rt_forward_client_identity_header (rm_route m) = true)
    then [pi_value identity]
    else if decide (n = to_ascii_lowercase (up_auth_header_name upstream)) then [secret]
    else if decide (n = REQUEST_ID) then [rid]
    else if decide (n = DATA_PURPOSE) then option_list purpose
    else hm_get_all (filter_proxy_request_headers inbound
      (php_strip_private_prefix "x-registry-connector-" php_strict)) n.
Proof.
  unfold server_headers. intros (h1 & H1 & H)%bind_Ok_inv.
  apply bind_Ok_inv in H as (r & Hr%header_value_Ok & H).
  apply bind_Ok_inv in H as (secret & Hs%upstream_auth_header_Ok & H).
  apply bind_Ok_inv in H as (name & Hn%ok_or_Ok%header_name_from_bytes_lower & H). subst r name.
  exists secret. split; [done|]. intros n.
  assert (Hh1 : hm_get_all h1 n = if decide (n = DATA_PURPOSE) then option_list purpose
    else hm_get_all (filter_proxy_request_headers inbound
      (php_strip_private_prefix "x-registry-connector-" php_strict)) n).
  { rewrite (opt_insert_lookup _ _ _ _ n H1). rewrite hm_get_all_remove.
    destruct purpose; simpl; repeat case_decide; done. }
  assert (Hh2 : hm_get_all (hm_insert (hm_insert h1 REQUEST_ID rid)
      (to_ascii_lowercase (up_auth_header_name upstream)) secret) n =
    if decide (n = to_ascii_lowercase (up_auth_header_name upstream)) then [secret]
    else if decide (n = REQUEST_ID) then [rid] else hm_get_all h1 n).
  { by rewrite !hm_get_all_insert. }
  rewrite Hh1 in Hh2. destruct (rt_forward_client_identity_header (rm_route m)).
  - apply bind_Ok_inv in H as (v & Hv%header_value_Ok & [= <-]). subst v.
    rewrite hm_get_all_insert, Hh2. repeat case_decide; naive_solver.
  - injection H as <-. rewrite Hh2. by destruct (decide (n = CONNECTOR_CLIENT_IDENTITY ∧ false = true)) as [[_ ?]|_].
Qed.
End server_header_lemmas.

Section client_lemmas.
Context {PL : PercentLib} {UL : UrlLib} {SL : Sha256Lib} {PK : PkiLib} {HL : HttpLib}
  {PD : PdpLib} {AL : AuditLib} {OL : OutboundLib}.

Record ClientPass : Type := {
  cp_match : RouteMatch;
  cp_purpose : option string;
  cp_body : Bytes;
  cp_server : ClientServerConfig;
  cp_url : Url;
  cp_headers : HeaderMap;
}.

Record client_gates (state : ProxyState) (request : Request) (rid : string) (p : ClientPass)
    : Prop := {
  cg_route : find_client_route (cf_routes (ps_config state)) (rq_method request) (rq_path request)
    = Ok (cp_match p);
  cg_purpose : resolve_client_purpose (ps_config state) (cp_match p) (rq_headers request)
    = Ok (cp_purpose p);
  cg_body : to_bytes (rq_body request) (max_body_bytes (ps_config state)) = Ok (cp_body p);
  cg_server : cf_server (ps_config state) = Some (cp_server p);
  cg_url : build_url (sv_url (cp_server p)) (rm_upstream_path (cp_match p)) (rq_query request)
    = Some (cp_url p);
  cg_headers : client_headers (ps_config state) (cp_match p) (cp_purpose p) rid (rq_headers request)
    = Ok (cp_headers p);
}.

Lemma handle_client_inv env state request rid w w' r :
  handle_client env state request rid w = (w', r) →
  (∃ p, r = Err (Problem p) ∧ w' = w) ∨
  ∃ p, client_gates state request rid p ∧
    send_upstream env (ps_client state) (rq_method request) (cp_url p) (cp_headers p) (cp_body p)
      (max_body_bytes (ps_config state)) w = (w', r).
Proof.
  unfold handle_client. intros H.
  apply h_bind_inv in H as [(m & w1 & E & H)|(f & E & ->)].
  2:{ apply lift_Err in E as (-> & p & -> & _). eauto. }
  apply lift_Ok in E as [-> Hm%map_err_Ok].
  apply h_bind_inv in H as [(purpose & w1 & E & H)|(f & E & ->)].
  2:{ apply lift_Err in E as (-> & p & -> & _). eauto. }
  apply lift_Ok in E as [-> Hp].
  apply h_bind_inv in H as [(body & w1 & E & H)|(f & E & ->)].
  2:{ apply await_Err in E as (-> & p & -> & _). eauto. }
  apply await_Ok in E as [-> Hb%map_err_Ok].
  apply h_bind_inv in H as [(server & w1 & E & H)|(f & E & ->)].
  2:{ apply lift_Err in E as (-> & p & -> & _). eauto. }
  apply lift_Ok in E as [-> Hs%ok_or_Ok].
  apply h_bind_inv in H as [(url & w1 & E & H)|(f & E & ->)].
  2:{ apply lift_Err in E as (-> & p & -> & _). eauto. }
  apply lift_Ok in E as [-> Hu%ok_or_Ok].
  apply h_bind_inv in H as [(headers & w1 & E & H)|(f & E & ->)].
  2:{ apply lift_Err in E as (-> & p & -> & _). eauto. }
  apply lift_Ok in E as [-> Hh]. right.
  exists {| cp_match := m; cp_purpose := purpose; cp_body := body; cp_server := server;
            cp_url := url; cp_headers := headers |}.
  split; [by split|done].
Qed.

Lemma client_headers_lookup {HS : HttpSpec} config m purpose rid inbound h :
  client_headers config m purpose rid inbound = Ok h →
  ∀ n, hm_get_all h n =
    if decide (n = DATA_PURPOSE ∧ is_Some purpose) then option_list purpose
    else if decide (n = CONNECTOR_ID ∧ is_Some (cf_connector_id config))
    then option_list (cf_connector_id config)
    else if decide (n = CONNECTOR_VERSION) then [CARGO_PKG_VERSION]
    else if decide (n = REQUEST_ID) then [rid]
    else hm_get_all (filtered_headers inbound m) n.
Proof.
  unfold client_headers. intros (r & Hr%header_value_Ok & H)%bind_Ok_inv n. subst r.
  apply bind_Ok_inv in H as (h1 & H1 & H).
  rewrite (opt_insert_lookup _ _ _ _ n H), (opt_insert_lookup _ _ _ _ n H1), !hm_get_all_insert.
  destruct purpose as [p|], (cf_connector_id config) as [c|]; simpl;
    repeat case_decide; naive_solver eauto using is_Some_None.
Qed.

(** ** The whole handler *)
Lemma proxy_handler_inv env state request w w' out :
  proxy_handler env state request w = (w', out) →
  ∃ r, match ps_mode state with
       | Client => handle_client env state request (request_id (en_ulid env) (rq_headers request)) w
       | Server => handle_server env state request (request_id (en_ulid env) (rq_headers request)) w
       end = (w', r) ∧
    match out with
    | Some (Forwarded resp, log) => r = Ok resp
    | Some (Refused doc, log) => ∃ p, r = Err (Problem p) ∧ doc = problem_response p
    | None => r = Err Panicked
    end.
Proof.
  unfold proxy_handler. destruct (ps_mode state).
  - destruct (handle_client _ _ _ _ w) as [w1 [resp|[p|]]]; intros [= <- <-]; eexists; split; eauto.
  - destruct (handle_server _ _ _ _ w) as [w1 [resp|[p|]]]; intros [= <- <-]; eexists; split; eauto.
Qed.
End client_lemmas.

(** ** What the handlers send *)
Section sends.
Context {PL : PercentLib} {UL : UrlLib} {SL : Sha256Lib} {PK : PkiLib} {HL : HttpLib}
  {PD : PdpLib} {AL : AuditLib} {OL : OutboundLib}.

(** The request built from an outcome of the gates. *)
Definition outbound (method : string) (url : Url) (headers : HeaderMap) (body : Bytes)
    : OutboundRequest :=
  {| ob_method := method; ob_url := url; ob_headers := named_headers headers; ob_body := body |}.

(** A failure after which the request may have left. *)
Definition after_send (f : Failure) : Prop :=
  f = Problem UpstreamUnavailable ∨ f = Problem RequestTimeout.

Definition rid_of (env : Env) (request : Request) : string :=
  request_id (en_ulid env) (rq_headers request).

Lemma handle_server_sends env state request rid w w' r :
  handle_server env state request rid w = (w', r) →
  ∃ new, w_events w' = w_events w ++ new ∧
    (no_sends new ∧ (∃ f, r = Err f) ∨
     ∃ logs p method, no_sends logs ∧ server_gates env state request rid w p ∧
       method_from_bytes (rq_method request) = Some method ∧
       new = logs ++ [Sent (ps_client state) (outbound method (sp_url p) (sp_headers p) (sp_body p))] ∧
       (∀ f, r = Err f → after_send f)).
Proof.
  intros [(f & -> & (logs & He & Hns) & _)|(p & w1 & logs & Hg & _ & He & Hns & Hs)]%handle_server_inv.
  - exists logs. split; [done|]. left. eauto.
  - apply send_upstream_inv in Hs as (_ & _ & [(_ & He' & ->)|(method & Hm & He' & Hr)]).
    + exists logs. rewrite He', He. split; [done|]. left. eauto.
    + exists (logs ++ [Sent (ps_client state) (outbound method (sp_url p) (sp_headers p) (sp_body p))]).
      rewrite He', He, <- app_assoc. split; [done|]. right. exists logs, p, method.
      split_and!; try done. by intros f ->.
Qed.

Lemma handle_client_sends env state request rid w w' r :
  handle_client env state request rid w = (w', r) →
  ∃ new, w_events w' = w_events w ++ new ∧
    (no_sends new ∧ (∃ f, r = Err f) ∨
     ∃ p method, client_gates state request rid p ∧
       method_from_bytes (rq_method request) = Some method ∧
       new = [Sent (ps_client state) (outbound method (cp_url p) (cp_headers p) (cp_body p))] ∧
       (∀ f, r = Err f → after_send f)).
Proof.
  intros [(f & -> & ->)|(p & Hg & Hs)]%handle_client_inv.
  - exists []. rewrite app_nil_r. split; [done|]. left. split; [apply no_sends_nil|eauto].
  - apply send_upstream_inv in Hs as (_ & _ & [(_ & He' & ->)|(method & Hm & He' & Hr)]).
    + exists []. rewrite He', app_nil_r. split; [done|]. left. split; [apply no_sends_nil|eauto].
    + eexists. split; [exact He'|]. right. exists p, method. split_and!; try done. by intros f ->.
Qed.

Lemma sent_last logs c q c' q' : no_sends logs → Sent c q ∈ logs ++ [Sent c' q'] → c = c' ∧ q = q'.
Proof.
  intros Hns [Hin|Hin]%elem_of_app; [by apply Hns in Hin|].
  apply list_elem_of_singleton in Hin. by injection Hin.
Qed.

(** ** From the configuration *)
Record peer_proved (config : ConnectorConfig) (now : VerifyClock) (request : Request)
    (identity : PeerIdentity) : Prop := {
  pp_chain : ∃ trust leaf rest roots verifier,
    cf_client_trust config = Some trust ∧ rq_chain request = Some (leaf :: rest) ∧
    extract_peer_identity_from_der (vc_identity now) leaf (cf_allow_dns_san_identity config) = Ok identity ∧
    (∀ f, f ∈ ct_denied_certificate_fingerprints_sha256 trust →
       to_ascii_lowercase f ≠ sha256_hex leaf) ∧
    bound_cas trust (pi_value identity) ≠ [] ∧
    root_store_from_paths (bound_cas trust (pi_value identity)) = Ok roots ∧
    verifier_build roots = Ok verifier ∧ verify_client_cert verifier leaf rest (vc_chain now) = Ok tt;
  pp_allowed : ∃ trust allowed, cf_client_trust config = Some trust ∧
    allowed ∈ ct_allowed_identities trust ∧ trim allowed = pi_value identity;
}.

Record route_proved (config : ConnectorConfig) (request : Request) (identity : PeerIdentity)
    (m : RouteMatch) : Prop := {
  rp_route : rm_route m ∈ cf_routes config;
  rp_method : rq_method request ∈ rt_methods (rm_route m);
  rp_identity : route_matches_client_identity (rm_route m) (pi_value identity) = true;
  rp_path : canonical_request_path (rq_path request) = Ok (rm_upstream_path m);
  rp_prefix : ∃ p cp, rt_upstream_prefix (rm_route m) = Some p ∧ canonical_request_path p = Ok cp ∧
    prefix_matches (rm_upstream_path m) cp = true;
}.

Lemma ProxyState_server_inv environ config state :
  ProxyState_server environ config = Ok state →
  ps_config state = config ∧ ps_mode state = Server ∧
  (∃ trust, ps_server_trust state = Some trust ∧ from_config config = Ok trust) ∧
  is_Some (ps_audit_hasher state).
Proof.
  unfold ProxyState_server. intros (trust & Ht & H)%bind_Ok_inv.
  apply bind_Ok_inv in H as (h & Hh & [= <-]). simpl. eauto 6.
Qed.

Lemma server_auth_peer environ config state env request w identity m purpose :
  ProxyState_server environ config = Ok state →
  server_auth env state request w identity m purpose →
  peer_proved config (en_now_verify env) request identity.
Proof.
  intros (Hc & _ & (trust & Ht & Hf) & _)%ProxyState_server_inv [(trust' & chain & Ht' & Hchain & Hv) Ha _ _].
  rewrite Ht in Ht'. injection Ht' as <-. rewrite Hc in Ha. split.
  - destruct (verify_peer_inv _ _ _ _ _ Hf Hv) as (tr & leaf & rest & roots & v & ? & -> & ? & ? & ? & ? & ? & ? & _).
    exists tr, leaf, rest, roots, v. by split_and!.
  - unfold identity_allowed in Ha. destruct (cf_client_trust config) as [tr|]; [|done].
    apply existsb_elem_of in Ha as (a & Hin & Heq%String.eqb_eq). eauto.
Qed.

Lemma server_auth_route env state request w identity m purpose :
  server_auth env state request w identity m purpose →
  route_proved (ps_config state) request identity m.
Proof.
  intros [_ _ Hr _]. apply find_server_route_inv in Hr as (l1 & l2 & n & Hc & Hl & Hcand & _).
  apply server_candidate_Some in Hcand as (? & ? & p & cp & ? & ? & ? & _ & _).
  split; eauto 6. rewrite Hl. set_solver.
Qed.
End sends.

(** ** Serving authorised requests *)
Section serving.
Context {PL : PercentLib} {UL : UrlLib} {SL : Sha256Lib} {SS : Sha256Spec} {PK : PkiLib}
  {HL : HttpLib} {HS : HttpSpec} {PD : PdpLib} {AL : AuditLib} {AS : AuditSpec} {OL : OutboundLib}.

Lemma h_bind_Ok {A B} (e : Handler A) (k : A → Handler B) w w1 a :
  e w = (w1, Ok a) → h_bind e k w = k a w1.
Proof. unfold h_bind. by intros ->. Qed.

Lemma h_bind_lift {A B} (r : result ConnectorProblem A) (k : A → Handler B) w a :
  r = Ok a → h_bind (lift r) k w = k a w.
Proof. by intros ->. Qed.

Lemma h_bind_await {A B} env p (r : result ConnectorProblem A) (k : A → Handler B) w a :
  en_timeout env = None → r = Ok a → h_bind (await env p r) k w = k a w.
Proof. unfold await. by intros -> ->. Qed.

(** The upstream answers, whatever it is sent, with what becomes this response. *)
Record upstream_answers (env : Env) (state : ProxyState) (resp : Response) : Prop := {
  ua_response : ∃ up, (∀ q, en_upstream env (ps_client state) q = Ok up) ∧
    status_from_u16 (resp_status up) = Some (rs_status resp) ∧
    rs_headers resp = hm_iter (filter_proxy_response_headers (resp_headers up)) ∧
    read_bounded up (max_body_bytes (ps_config state)) = Ok (rs_body resp);
  ua_build : builder_body (rs_status resp) (rs_headers resp) (rs_body resp) = Ok tt;
}.

(** The upstream's answer to one request becomes this response. *)
Record answers (env : Env) (state : ProxyState) (q : OutboundRequest) (resp : Response) : Prop := {
  an_response : ∃ up, en_upstream env (ps_client state) q = Ok up ∧
    status_from_u16 (resp_status up) = Some (rs_status resp) ∧
    rs_headers resp = hm_iter (filter_proxy_response_headers (resp_headers up)) ∧
    read_bounded up (max_body_bytes (ps_config state)) = Ok (rs_body resp);
  an_build : builder_body (rs_status resp) (rs_headers resp) (rs_body resp) = Ok tt;
}.

Lemma upstream_answers_any env state resp q : upstream_answers env state resp → answers env state q resp.
Proof. intros [(up & Hup & ?) Hb]. split; [|done]. exists up. by rewrite Hup. Qed.

Lemma send_upstream_answered env state method m url headers body resp w :
  en_timeout env = None → method_from_bytes method = Some m →
  answers env state (outbound m url headers body) resp →
  ∃ w', send_upstream env (ps_client state) method url headers body (max_body_bytes (ps_config state)) w
      = (w', Ok resp) ∧ w_limiter w' = w_limiter w ∧
    w_events w' = w_events w ++ [Sent (ps_client state) (outbound m url headers body)].
Proof.
  intros Ht Hm [(up & Hup & Hs & Hh & Hb) Hbuild]. unfold send_upstream.
  rewrite (h_bind_lift _ _ _ m) by (by rewrite Hm).
  erewrite h_bind_Ok by reflexivity.
  rewrite (h_bind_await _ _ _ _ _ up) by (try done; unfold outbound in Hup; by rewrite Hup).
  rewrite (h_bind_lift _ _ _ (rs_status resp)) by (by rewrite Hs). cbv zeta. rewrite <- Hh.
  rewrite (h_bind_await _ _ _ _ _ (rs_body resp)) by (try done; by rewrite Hb).
  rewrite (h_bind_lift _ _ _ tt) by (by rewrite Hbuild).
  eexists. split; [by destruct resp|done].
Qed.

(** A client request that passes every gate gets the server connector's answer. *)
Lemma handle_client_serves env state request rid w p method resp :
  client_gates state request rid p → en_timeout env = None →
  method_from_bytes (rq_method request) = Some method →
  answers env state (outbound method (cp_url p) (cp_headers p) (cp_body p)) resp →
  ∃ w', handle_client env state request rid w = (w', Ok resp) ∧
    w_events w' = w_events w ++
      [Sent (ps_client state) (outbound method (cp_url p) (cp_headers p) (cp_body p))].
Proof.
  intros [Hr Hp Hb Hsv Hu Hh] Hto Hm Hans. unfold handle_client.
  rewrite (h_bind_lift _ _ _ (cp_match p)) by (by rewrite Hr).
  rewrite (h_bind_lift _ _ _ _ Hp).
  rewrite (h_bind_await _ _ _ _ _ (cp_body p)) by (try done; unfold read_limited_body; by rewrite Hb).
  rewrite (h_bind_lift _ _ _ (cp_server p)) by (by rewrite Hsv).
  rewrite (h_bind_lift _ _ _ (cp_url p)) by (by rewrite Hu).
  rewrite (h_bind_lift _ _ _ _ Hh).
  destruct (send_upstream_answered env state (rq_method request) method (cp_url p) (cp_headers p)
    (cp_body p) resp w Hto Hm Hans) as (w' & E & _ & He). by exists w'.
Qed.

(** With an accepted configuration the log hashes of an authenticated caller exist. *)
Lemma log_hashes_total venv require_env environ config state env request w identity m purpose h :
  validate_config venv config Server require_env = Ok tt →
  ProxyState_server environ config = Ok state →
  server_auth env state request w identity m purpose →
  is_Some (identity_hash_for_log h (pi_value identity)) ∧
  is_Some (certificate_hash_for_log h (pi_fingerprint_sha256 identity)).
Proof.
  intros [Hok _]%validate_config_Ok Hst Hauth.
  destruct (server_auth_peer _ _ _ _ _ _ _ _ _ Hst Hauth) as
    [(trust & leaf & rest & roots & v & _ & _ & Hx & _) (trust' & a & Ht & Ha & Heq)].
  destruct Hok as [_ (ct & Hct & _ & _ & _ & _ & _ & _ & Hids & _) _].
  rewrite Ht in Hct. injection Hct as <-.
  pose proof (io_nonblank _ _ _ (Hids a Ha)) as Hne. unfold nonblank in Hne. rewrite Heq in Hne.
  apply extract_spec in Hx as (? & ? & ? & _ & _ & _ & _ & _ & Hfp & _).
  split; apply audit_reference_hash_total; try done.
  rewrite Hfp. destruct (sha256_hex_fingerprint leaf) as [Hl _]. intros Hz. by rewrite Hz in Hl.
Qed.

Lemma log_authorized_total env state m identity rid w :
  (∀ h, is_Some (identity_hash_for_log h (pi_value identity)) ∧
        is_Some (certificate_hash_for_log h (pi_fingerprint_sha256 identity))) →
  is_Some (ps_audit_hasher state) →
  ∃ w' logs, log_authorized env state m identity rid w = (w', Ok tt) ∧
    w_limiter w' = w_limiter w ∧ w_events w' = w_events w ++ logs ∧ no_sends logs.
Proof.
  intros Hh [h Hs]. destruct (Hh h) as [[x Hx] [y Hy]].
  destruct (log_authorized env state m identity rid w) as [w' r] eqn:E. exists w'.
  apply log_authorized_inv in E as (Hl & _ & [[-> (logs & He & Hn)]|(f & _ & _ & Hf)]); [eauto 6|].
  exfalso. destruct Hf as [[_ Hf]|[_ (h' & Hh' & Hf)]]; [congruence|].
  rewrite Hs in Hh'. injection Hh' as <-. destruct Hf; congruence.
Qed.
(** The strings that become header values can be header values. *)
Record encodable (env : Env) (config : ConnectorConfig) (m : RouteMatch) (identity : PeerIdentity)
    (purpose : option string) : Prop := {
  enc_ulid : is_Some (header_value_from_str (en_ulid env));
  enc_purpose : ∀ p, purpose = Some p → is_Some (header_value_from_str p);
  enc_identity : rt_forward_client_identity_header (rm_route m) = true →
    is_Some (header_value_from_str (pi_value identity));
  enc_credential : ∀ v, credential (en_environ env) config m v → is_Some (header_value_from_str v);
}.

Lemma header_value_total s : is_Some (header_value_from_str s) → ∃ v, header_value s = Ok v.
Proof. intros [v Hv]. exists v. unfold header_value. by rewrite Hv. Qed.

(** The request id is the fresh one or the caller's valid one. *)
Lemma request_id_valid ulid headers :
  valid_request_id ulid = true → valid_request_id (request_id ulid headers) = true.
Proof.
  intros Hu. unfold request_id. destruct (opt_filter _ _) as [s|] eqn:E; [|exact Hu].
  apply opt_filter_Some in E as [_ E]. exact E.
Qed.

(** The request id is the fresh one or was a header value. *)
Lemma rid_of_encodable env request :
  is_Some (header_value_from_str (en_ulid env)) → is_Some (header_value_from_str (rid_of env request)).
Proof.
  intros Hu. unfold rid_of, request_id.
  destruct (opt_filter _ _) as [s|] eqn:E; [|done]. simpl. apply opt_filter_Some in E as [E _].
  apply bind_Some in E as (v & _ & Hv). apply header_value_to_str_bytes in Hv as [_ Hv]. by eexists.
Qed.

(** A route that names a credential variable, or for which the upstream does. *)
Definition credential_named (config : ConnectorConfig) (m : RouteMatch) : Prop :=
  is_Some (rt_upstream_auth_header_env (rm_route m)) ∨
  ∃ up, cf_upstream config = Some up ∧ is_Some (up_default_auth_header_env up).

Lemma upstream_auth_header_total environ config up m :
  cf_upstream config = Some up → credential_named config m →
  (∀ var, up_default_auth_header_env up = Some var ∨ rt_upstream_auth_header_env (rm_route m) = Some var →
     ∃ secret, environ var = Some secret ∧ nonblank secret) →
  (∀ v, credential environ config m v → is_Some (header_value_from_str v)) →
  ∃ v, upstream_auth_header environ config m = Ok v.
Proof.
  intros Hup Hnamed Hset Henc. unfold upstream_auth_header. rewrite Hup. simpl.
  assert (Hvar : ∃ var, match rt_upstream_auth_header_env (rm_route m) with
      | Some env_var => Some env_var | None => up_default_auth_header_env up end = Some var ∧
    (rt_upstream_auth_header_env (rm_route m) = Some var ∨
     rt_upstream_auth_header_env (rm_route m) = None ∧ up_default_auth_header_env up = Some var)).
  { destruct (rt_upstream_auth_header_env (rm_route m)) as [var|] eqn:E; [by eauto|].
    destruct Hnamed as [[? Hn]|(up' & Hup' & var & Hv)]; [congruence|].
    rewrite Hup in Hup'. injection Hup' as <-. eauto. }
  destruct Hvar as (var & -> & Hwhich). destruct (Hset var) as (secret & Hs & Hn); [naive_solver|].
  simpl. rewrite Hs. simpl.
  assert (Hb : negb (str_is_empty (trim secret)) = true).
  { destruct (str_is_empty (trim secret)) eqn:E; [|done]. by apply str_is_empty_true in E. }
  rewrite Hb. simpl. apply header_value_total, Henc. exists up, var, secret. by split_and!.
Qed.

Lemma server_headers_total env config up m identity purpose request :
  cf_upstream config = Some up → encodable env config m identity purpose →
  is_Some (header_name_from_bytes (up_auth_header_name up)) →
  (∃ v, upstream_auth_header (en_environ env) config m = Ok v) →
  ∃ h, server_headers env config up m identity purpose (rid_of env request) (rq_headers request) = Ok h.
Proof.
  intros Hup [Hu Hp Hi _] [n Hn] [v Hv]. unfold server_headers.
  destruct (header_value_total _ (rid_of_encodable env request Hu)) as [rid ->].
  rewrite Hv, Hn. destruct purpose as [p|].
  - destruct (header_value_total p) as [x ->]; [by apply Hp|]. simpl.
    destruct (rt_forward_client_identity_header (rm_route m)); [|by eexists].
    destruct (header_value_total (pi_value identity)) as [y ->]; [by apply Hi|]. by eexists.
  - simpl. destruct (rt_forward_client_identity_header (rm_route m)); [|by eexists].
    destruct (header_value_total (pi_value identity)) as [y ->]; [by apply Hi|]. by eexists.
Qed.

(** A validated configuration builds the upstream headers of any authorised
    request, as long as the environment has not changed since. *)
Lemma validated_server_headers venv config state env request w identity m purpose :
  validate_config venv config Server true = Ok tt → ps_config state = config →
  ve_environ venv = en_environ env →
  server_auth env state request w identity m purpose →
  credential_named config m → encodable env config m identity purpose →
  ∃ up h, cf_upstream config = Some up ∧
    server_headers env config up m identity purpose (rid_of env request) (rq_headers request) = Ok h.
Proof.
  intros [[_ _ (up & Hup & Huo & Henv)] _]%validate_config_Ok Hc Hve Hauth Hn Henc.
  destruct (uo_name _ _ Huo) as (n & Hname & _). specialize (Henv eq_refl).
  destruct (server_headers_total env config up m identity purpose request) as [h Hh];
    [done|done|by eexists| |by eauto].
  apply (upstream_auth_header_total _ _ up); [done..| |by apply Henc].
  pose proof (rp_route _ _ _ _ (server_auth_route _ _ _ _ _ _ _ Hauth)) as Hr. rewrite Hc in Hr.
  intros var Hvar. destruct (eo_auth _ _ _ Henv var) as (s & Hs & Hns & _); [naive_solver|].
  exists s. by rewrite <- Hve.
Qed.
Lemma authorize_m_total env m h id ct w o :
  snd (authorize_server_purpose (w_caches w) (en_now_at env) (en_now_age env) m h id ct) = Ok o →
  ∃ w', authorize_m env m h id ct w = (w', Ok o) ∧ w_limiter w' = w_limiter w ∧ logs_only w w'.
Proof.
  unfold authorize_m. destruct (authorize_server_purpose _ _ _ _ _ _ _) as [[c log] r]. simpl.
  intros ->. eexists. split_and!; [done..|apply decision_events_logs].
Qed.

Lemma rate_check_m_total env i rid limit w :
  snd (rate_check (w_limiter w) (en_instant env) i rid limit) = Ok tt →
  ∃ w', rate_check_m env i rid limit w = (w', Ok tt) ∧ w_events w' = w_events w ∧
    w_limiter w' = fst (rate_check (w_limiter w) (en_instant env) i rid limit).
Proof. unfold rate_check_m. destruct (rate_check _ _ _ _ _) as [l r]. simpl. intros ->. eauto. Qed.

(** A request that passes every gate gets the upstream's answer. *)
Lemma handle_server_serves env state request rid w p method resp :
  server_gates env state request rid w p → en_timeout env = None →
  method_from_bytes (rq_method request) = Some method → upstream_answers env state resp →
  (∀ h, is_Some (identity_hash_for_log h (pi_value (sp_identity p))) ∧
        is_Some (certificate_hash_for_log h (pi_fingerprint_sha256 (sp_identity p)))) →
  is_Some (ps_audit_hasher state) →
  ∃ w' logs, handle_server env state request rid w = (w', Ok resp) ∧ no_sends logs ∧
    w_limiter w' = rate_charged env state w (sp_identity p) (sp_match p) ∧
    w_events w' = w_events w ++ logs ++
      [Sent (ps_client state) (outbound method (sp_url p) (sp_headers p) (sp_body p))].
Proof.
  intros [[(trust & chain & Ht & Hch & Hv) Ha Hr Hp] Hrate Hb Hup Hurl Hh] Hto Hm Hans Hlog Hhash.
  unfold handle_server. rewrite (h_bind_lift _ _ _ chain) by (by rewrite Hch).
  rewrite (h_bind_lift _ _ _ trust) by (by rewrite Ht).
  rewrite (h_bind_lift _ _ _ (sp_identity p)) by (by rewrite Hv). rewrite Ha. cbn [negb].
  rewrite (h_bind_lift _ _ _ (sp_match p)) by (by rewrite Hr).
  destruct (authorize_m_total _ _ _ _ _ _ _ Hp) as (w1 & E1 & Hl1 & He1). rewrite (h_bind_Ok _ _ _ _ _ E1).
  rewrite <- Hl1 in Hrate.
  destruct (rate_check_m_total _ _ _ _ _ Hrate) as (w2 & E2 & He2 & Hl2). rewrite (h_bind_Ok _ _ _ _ _ E2).
  rewrite (h_bind_await _ _ _ _ _ (sp_body p)) by (try done; unfold read_limited_body; by rewrite Hb).
  rewrite (h_bind_lift _ _ _ (sp_upstream p)) by (by rewrite Hup).
  rewrite (h_bind_lift _ _ _ (sp_url p)) by (by rewrite Hurl).
  rewrite (h_bind_lift _ _ _ _ Hh).
  destruct (log_authorized_total env state (sp_match p) (sp_identity p) rid w2 Hlog Hhash)
    as (w3 & logs & E3 & Hl3 & He3 & Hns). rewrite (h_bind_Ok _ _ _ _ _ E3).
  destruct (send_upstream_answered env state (rq_method request) method (sp_url p) (sp_headers p)
    (sp_body p) resp w3 Hto Hm (upstream_answers_any _ _ _ _ Hans)) as (w4 & E4 & Hl4 & He4).
  destruct He1 as (logs1 & He1 & Hns1).
  exists w4, (logs1 ++ logs). split_and!; [exact E4|by apply no_sends_app| |].
  - unfold rate_charged. by rewrite Hl4, Hl3, Hl2, Hl1.
  - by rewrite He4, He3, He2, He1, <- !app_assoc.
Qed.
End serving.

(** ** A validated server answers *)
Lemma server_answers {PL : PercentLib} {UL : UrlLib} {SL : Sha256Lib} {SS : Sha256Spec}
    {PK : PkiLib} {HL : HttpLib} {PD : PdpLib} {AL : AuditLib} {AS : AuditSpec} {OL : OutboundLib}
    (venv : ValidationEnv) (require_env : bool) (environ : Environ) (config : ConnectorConfig)
    (state : ProxyState) (env : Env) (request : Request) (w : World) :
  validate_config venv config Server require_env = Ok tt →
  ProxyState_server environ config = Ok state →
  is_Some (snd (proxy_handler env state request w)).
Proof.
  intros Hok Hst. pose proof (ProxyState_server_inv _ _ _ Hst) as (_ & Hm & _ & _).
  destruct (proxy_handler env state request w) as [w' out] eqn:E. simpl.
  destruct out as [|]; [by eexists|exfalso]. apply proxy_handler_inv in E as (r & Hrun & ->).
  rewrite Hm in Hrun. apply handle_server_inv in Hrun as [(f & [= <-] & _ & Hcase)|(p & w1 & logs & _ & _ & _ & _ & Hs)].
  - destruct Hcase as [(_ & p & ? & _)|(identity & m & purpose & Hauth & _ & Hp)]; [done|].
    destruct (Hp eq_refl) as (h & _ & Hnone).
    destruct (log_hashes_total _ _ _ _ _ _ _ _ _ _ _ h Hok Hst Hauth) as [[x Hx] [y Hy]].
    destruct Hnone; congruence.
  - apply send_upstream_inv in Hs as (_ & _ & [(_ & _ & ?)|(? & _ & _ & [?|?])]); done.
Qed.

(** ** A validated server serves *)
Lemma server_forwards {PL : PercentLib} {UL : UrlLib} {SL : Sha256Lib}
    {SS : Sha256Spec} {PK : PkiLib} {HL : HttpLib} {HS : HttpSpec} {PD : PdpLib} {AL : AuditLib}
    {AS : AuditSpec} {OL : OutboundLib} (venv : ValidationEnv) (config : ConnectorConfig)
    (state : ProxyState) (env : Env) (request : Request) (w : World) (identity : PeerIdentity)
    (m : RouteMatch) (purpose : option string) (body : Bytes) (up : UpstreamConfig) (url : Url)
    (method : string) (resp : Response) :
  validate_config venv config Server true = Ok tt →
  ProxyState_server (en_environ env) config = Ok state → ve_environ venv = en_environ env →
  server_auth env state request w identity m purpose →
  snd (rate_check (w_limiter w) (en_instant env) (pi_value identity) (rt_id (rm_route m))
    (lm_max_requests_per_identity_per_minute (cf_limits config))) = Ok tt →
  to_bytes (rq_body request) (max_body_bytes config) = Ok body →
  credential_named config m → encodable env config m identity purpose →
  cf_upstream config = Some up →
  build_url (up_base_url up) (rm_upstream_path m) (rq_query request) = Some url →
  method_from_bytes (rq_method request) = Some method →
  en_timeout env = None → upstream_answers env state resp →
  ∃ w' log logs headers,
    proxy_handler env state request w = (w', Some (Forwarded resp, log)) ∧ no_sends logs ∧
    w_events w' = w_events w ++ logs ++ [Sent (ps_client state) (outbound method url headers body)] ∧
    w_limiter w' = rate_charged env state w identity m.
Proof.
  intros Hok Hst Hve Hauth Hrate Hb Hnamed Henc Hup Hurl Hm Hto Hans.
  pose proof (ProxyState_server_inv _ _ _ Hst) as (Hc & Hmode & _ & Hhash).
  destruct (validated_server_headers _ _ _ _ _ _ _ _ _ Hok Hc Hve Hauth Hnamed Henc)
    as (up' & h & Hup' & Hh). rewrite Hup in Hup'. injection Hup' as <-.
  pose (p := {| sp_identity := identity; sp_match := m; sp_purpose := purpose; sp_body := body;
    sp_upstream := up; sp_url := url; sp_headers := h |}).
  destruct (handle_server_serves env state request (rid_of env request) w p method resp)
    as (w' & logs & E & Hns & Hl & He); [|done..| |done|].
  - by split; rewrite ?Hc.
  - intros hs. by eapply log_hashes_total.
  - unfold proxy_handler. rewrite Hmode. unfold rid_of in E. rewrite E.
    eexists w', _, logs, h. split_and!; [done..].
Qed.

(** A request that passes every gate was proved to be allowed. *)
Lemma gates_proved {PL : PercentLib} {UL : UrlLib} {SL : Sha256Lib} {PK : PkiLib}
    {HL : HttpLib} {HS : HttpSpec} {PD : PdpLib} {PDS : PdpSpec} {AL : AuditLib} {OL : OutboundLib}
    environ config state env request rid w p :
  ProxyState_server environ config = Ok state → server_gates env state request rid w p →
  peer_proved config (en_now_verify env) request (sp_identity p) ∧
  route_proved config request (sp_identity p) (sp_match p) ∧
  purpose_authorized (en_now_age env) (rm_route (sp_match p)) (rq_headers request) (cf_client_trust config)
    (pi_value (sp_identity p)) (sp_purpose p).
Proof.
  intros Hst [Hauth _ _ _ _ _]. pose proof (ProxyState_server_inv _ _ _ Hst) as (Hc & _).
  pose proof (server_auth_route _ _ _ _ _ _ _ Hauth) as Hroute. rewrite Hc in Hroute.
  split_and!; [by eapply server_auth_peer|done|].
  destruct Hauth as [_ _ _ Hp]. rewrite Hc in Hp. by eapply authorize_purpose_Ok.
Qed.

(** ** Properties *)
Module Claims.

(** C1: End to end, nothing leaves a server connector unauthorised: whatever the
    request, the environment and the history, a request is sent upstream at most
    once, as the last effect, and then the caller's certificate chain was valid and
    anchored for its identity, the identity is in the allow list, the route is one
    of the configured ones for the method, the identity and the canonical path, the
    purpose and the trust assertions are authorised by the route's policy, the
    caller is within its rate limit and the body within the size limit. *)
Theorem server_sends_only_authorized {PL : PercentLib} {UL : UrlLib} {SL : Sha256Lib} {PK : PkiLib}
    {HL : HttpLib} {HS : HttpSpec} {PD : PdpLib} {PDS : PdpSpec} {AL : AuditLib} {OL : OutboundLib}
    (environ : Environ) (config : ConnectorConfig) (state : ProxyState) (env : Env)
    (request : Request) (w w' : World) (out : option (Reply * CompletionLog)) :
  ProxyState_server environ config = Ok state →
  proxy_handler env state request w = (w', out) →
  ∃ new, w_events w' = w_events w ++ new ∧
    (no_sends new ∨ ∃ logs q, no_sends logs ∧ new = logs ++ [Sent (ps_client state) q]) ∧
    ∀ c q, Sent c q ∈ new →
      ∃ identity m purpose,
        peer_proved config (en_now_verify env) request identity ∧
        route_proved config request identity m ∧
        purpose_authorized (en_now_age env) (rm_route m) (rq_headers request) (cf_client_trust config)
          (pi_value identity) purpose ∧
        snd (rate_check (w_limiter w) (en_instant env) (pi_value identity) (rt_id (rm_route m))
          (lm_max_requests_per_identity_per_minute (cf_limits config))) = Ok tt ∧
        (N.of_nat (String.length (ob_body q)) ≤ max_body_bytes config)%N.
Proof.
  intros Hst (r & Hrun & _)%proxy_handler_inv.
  pose proof (ProxyState_server_inv _ _ _ Hst) as (Hc & Hm & _). rewrite Hm in Hrun.
  apply handle_server_sends in Hrun as (new & He & [[Hns _]|(logs & p & method & Hns & Hg & _ & -> & _)]).
  { exists new. split_and!; [done|by left|]. intros c q Hin. by apply Hns in Hin. }
  eexists. split; [exact He|]. split; [right; eauto|]. intros c q [-> ->]%sent_last; [|done].
  destruct (gates_proved _ _ _ _ _ _ _ _ Hst Hg) as (Hpeer & Hroute & Hpurpose).
  destruct Hg as [_ Hrate Hbody _ _ _]. rewrite Hc in Hrate, Hbody.
  exists (sp_identity p), (sp_match p), (sp_purpose p).
  split_and!; [done|done|done|done|by eapply to_bytes_bounded].
Qed.

(** C8: A refusal is a refusal: when the caller gets a problem response, in either
    mode, no request was sent upstream, unless the problem is the upstream's failure
    or the request timeout. *)
Theorem refused_sends_nothing {PL : PercentLib} {UL : UrlLib} {SL : Sha256Lib} {PK : PkiLib}
    {HL : HttpLib} {PD : PdpLib} {AL : AuditLib} {OL : OutboundLib} (state : ProxyState) (env : Env)
    (request : Request) (w w' : World) (doc : ProblemDoc) (log : CompletionLog) :
  proxy_handler env state request w = (w', Some (Refused doc, log)) →
  problem_type doc ≠ "urn:registry:problem:connector.upstream_unavailable" →
  problem_type doc ≠ "urn:registry:problem:connector.request_timeout" →
  ∃ new, w_events w' = w_events w ++ new ∧ no_sends new.
Proof.
  intros (r & Hrun & p & -> & ->)%proxy_handler_inv Hu Ht.
  assert (Hno : ¬ after_send (Problem p)).
  { intros [[= ->]|[= ->]]; [by apply Hu|by apply Ht]. }
  destruct (ps_mode state).
  - apply handle_client_sends in Hrun as (new & He & [[Hns _]|(? & ? & _ & _ & _ & Hf)]); [eauto|].
    destruct (Hno (Hf _ eq_refl)).
  - apply handle_server_sends in Hrun as (new & He & [[Hns _]|(? & ? & ? & _ & _ & _ & _ & Hf)]); [eauto|].
    destruct (Hno (Hf _ eq_refl)).
Qed.

(** C7: The headers a server connector hands to its HTTP client are determined: the
    caller's identity
    when the route forwards it, the configured credential under the configured
    name, the request id, the authorised purpose and nothing else under those
    names; every other header is the caller's own, and never [authorization],
    [cookie] or an [x-registry-connector-] header.  No header name repeats. *)
Theorem server_upstream_headers {PL : PercentLib} {UL : UrlLib} {SL : Sha256Lib} {PK : PkiLib}
    {HL : HttpLib} {HS : HttpSpec} {PD : PdpLib} {AL : AuditLib} {OL : OutboundLib}
    (env : Env) (state : ProxyState) (request : Request) (w w' : World)
    (out : option (Reply * CompletionLog)) (c : HttpClient) (q : OutboundRequest) :
  ps_mode state = Server → proxy_handler env state request w = (w', out) →
  Sent c q ∈ w_events w' → (Sent c q ∉ w_events w) →
  ∃ identity m purpose upstream secret,
    server_auth env state request w identity m purpose ∧
    cf_upstream (ps_config state) = Some upstream ∧
    credential (en_environ env) (ps_config state) m secret ∧
    NoDup (ob_headers q).*1 ∧
    ∀ n v, (n, v) ∈ ob_headers q ↔
      if decide (n = CONNECTOR_CLIENT_IDENTITY ∧ rt_forward_client_identity_header (rm_route m) = true)
      then v = pi_value identity
      else if decide (n = to_ascii_lowercase (up_auth_header_name upstream)) then v = secret
      else if decide (n = REQUEST_ID) then v = rid_of env request
      else if decide (n = DATA_PURPOSE) then purpose = Some v
      else ∃ vs, caller_header false false (rq_headers request) n vs ∧ head vs = Some v ∧
             vs = hm_get_all (filter_proxy_request_headers (rq_headers request)
               (php_strip_private_prefix "x-registry-connector-" php_strict)) n.
Proof.
  intros Hmode (r & Hrun & _)%proxy_handler_inv Hin Hold. rewrite Hmode in Hrun.
  apply handle_server_sends in Hrun as (new & He & Hcase). rewrite He, elem_of_app in Hin.
  destruct Hin as [Hin|Hin]; [done|].
  destruct Hcase as [[Hns _]|(logs & p & method & Hns & Hg & _ & -> & _)]; [by apply Hns in Hin|].
  apply sent_last in Hin as [-> ->]; [|done]. destruct Hg as [Hauth _ _ Hup _ Hh].
  apply server_headers_lookup in Hh as (secret & Hcred & Hh).
  exists (sp_identity p), (sp_match p), (sp_purpose p), (sp_upstream p), secret.
  split_and!; [done..|apply NoDup_named_headers|]. intros n v. simpl.
  rewrite elem_of_named_headers, Hh. unfold rid_of.
  repeat case_decide; simpl; try (exfalso; tauto); try (split; congruence);
    first [apply head_option_list | apply caller_first, strict_headers_caller].
Qed.

(** C26: The headers a client connector hands to its HTTP client are determined likewise:
    the resolved
    purpose, the connector's id and version, the request id, and otherwise the
    caller's own headers, without [authorization] and [cookie] unless the route
    forwards them, and without [x-registry-connector-] headers. *)
Theorem client_upstream_headers {PL : PercentLib} {UL : UrlLib} {SL : Sha256Lib} {PK : PkiLib}
    {HL : HttpLib} {HS : HttpSpec} {PD : PdpLib} {AL : AuditLib} {OL : OutboundLib}
    (env : Env) (state : ProxyState) (request : Request) (w w' : World)
    (out : option (Reply * CompletionLog)) (c : HttpClient) (q : OutboundRequest) :
  ps_mode state = Client → proxy_handler env state request w = (w', out) →
  Sent c q ∈ w_events w' → (Sent c q ∉ w_events w) →
  ∃ m purpose,
    find_client_route (cf_routes (ps_config state)) (rq_method request) (rq_path request) = Ok m ∧
    resolve_client_purpose (ps_config state) m (rq_headers request) = Ok purpose ∧
    NoDup (ob_headers q).*1 ∧
    ∀ n v, (n, v) ∈ ob_headers q ↔
      if decide (n = DATA_PURPOSE ∧ is_Some purpose) then purpose = Some v
      else if decide (n = CONNECTOR_ID ∧ is_Some (cf_connector_id (ps_config state)))
      then cf_connector_id (ps_config state) = Some v
      else if decide (n = CONNECTOR_VERSION) then v = CARGO_PKG_VERSION
      else if decide (n = REQUEST_ID) then v = rid_of env request
      else ∃ vs, caller_header (rt_allow_forward_authorization (rm_route m))
               (rt_allow_forward_cookie (rm_route m)) (rq_headers request) n vs ∧
             head vs = Some v ∧ vs = hm_get_all (filtered_headers (rq_headers request) m) n.
Proof.
  intros Hmode (r & Hrun & _)%proxy_handler_inv Hin Hold. rewrite Hmode in Hrun.
  apply handle_client_sends in Hrun as (new & He & Hcase). rewrite He, elem_of_app in Hin.
  destruct Hin as [Hin|Hin]; [done|].
  destruct Hcase as [[Hns _]|(p & method & Hg & _ & -> & _)]; [by apply Hns in Hin|].
  apply list_elem_of_singleton in Hin. injection Hin as -> ->. destruct Hg as [Hr Hp _ _ _ Hh].
  exists (cp_match p), (cp_purpose p). split_and!; [done..|apply NoDup_named_headers|]. intros n v. simpl.
  rewrite elem_of_named_headers, (client_headers_lookup _ _ _ _ _ _ Hh). unfold rid_of.
  repeat case_decide; simpl; try (exfalso; tauto); try (split; congruence);
    first [apply head_option_list | apply caller_first, filtered_headers_caller].
Qed.

(** C27: With an accepted configuration the server handler never panics: whatever
    the request, every call is answered, because the two log hashes are only taken
    of a non-empty identity and a non-empty fingerprint. *)
Theorem server_never_panics {PL : PercentLib} {UL : UrlLib} {SL : Sha256Lib} {SS : Sha256Spec}
    {PK : PkiLib} {HL : HttpLib} {PD : PdpLib} {AL : AuditLib} {AS : AuditSpec} {OL : OutboundLib}
    (venv : ValidationEnv) (require_env : bool) (environ : Environ) (config : ConnectorConfig)
    (state : ProxyState) (env : Env) (request : Request) (w : World) :
  validate_config venv config Server require_env = Ok tt →
  ProxyState_server environ config = Ok state →
  is_Some (snd (proxy_handler env state request w)).
Proof. exact (server_answers venv require_env environ config state env request w). Qed.

(** C28: The rate limit is only charged to callers who passed every authorisation
    gate: a request leaves the limiter as it was, or its caller was authenticated,
    allowed, routed and authorised and the limiter is charged once, for that caller
    and that route. *)
Theorem rate_limit_charged_to_authorized {PL : PercentLib} {UL : UrlLib} {SL : Sha256Lib}
    {PK : PkiLib} {HL : HttpLib} {PD : PdpLib} {AL : AuditLib} {OL : OutboundLib}
    (env : Env) (state : ProxyState) (request : Request) (w : World) :
  let w' := fst (proxy_handler env state request w) in
  w_limiter w' = w_limiter w ∨
  ps_mode state = Server ∧
  ∃ identity m purpose, server_auth env state request w identity m purpose ∧
    w_limiter w' = fst (rate_check (w_limiter w) (en_instant env) (pi_value identity)
      (rt_id (rm_route m)) (lm_max_requests_per_identity_per_minute (cf_limits (ps_config state)))).
Proof.
  destruct (proxy_handler env state request w) as [w' out] eqn:E. simpl.
  apply proxy_handler_inv in E as (r & Hrun & _). destruct (ps_mode state).
  - left. apply handle_client_inv in Hrun as [(p & _ & ->)|(p & _ & Hs)]; [done|].
    by apply send_upstream_inv in Hs as (-> & _).
  - apply handle_server_inv in Hrun as [(f & _ & _ & [[? _]|(i & m & o & Ha & Hl & _)])|(p & w1 & logs & Hg & Hl & _ & _ & Hs)].
    + by left.
    + right. split; [done|]. by exists i, m, o.
    + right. split; [done|]. apply send_upstream_inv in Hs as (Hl' & _). destruct Hg as [Ha _ _ _ _ _].
      exists (sp_identity p), (sp_match p), (sp_purpose p). by rewrite Hl'.
Qed.

(** C36: A forwarded response is the upstream's answer to the request that was sent
    on behalf of the caller: same status, the response headers the filter keeps, and
    the whole body, which is within the configured limit. *)
Theorem forwarded_response_faithful {PL : PercentLib} {UL : UrlLib} {SL : Sha256Lib} {PK : PkiLib}
    {HL : HttpLib} {HS : HttpSpec} {PD : PdpLib} {AL : AuditLib} {OL : OutboundLib}
    (env : Env) (state : ProxyState) (request : Request) (w w' : World) (resp : Response)
    (log : CompletionLog) :
  proxy_handler env state request w = (w', Some (Forwarded resp, log)) →
  ∃ before q up, w_events w' = before ++ [Sent (ps_client state) q] ∧
    en_upstream env (ps_client state) q = Ok up ∧
    status_from_u16 (resp_status up) = Some (rs_status resp) ∧
    rs_headers resp = hm_iter (filter_proxy_response_headers (resp_headers up)) ∧
    read_bounded up (max_body_bytes (ps_config state)) = Ok (rs_body resp) ∧
    (N.of_nat (String.length (rs_body resp)) ≤ max_body_bytes (ps_config state))%N.
Proof.
  intros (r & Hrun & ->)%proxy_handler_inv.
  assert (Hs : ∃ method url headers body w1,
    send_upstream env (ps_client state) method url headers body (max_body_bytes (ps_config state)) w1
      = (w', Ok resp)).
  { destruct (ps_mode state).
    - apply handle_client_inv in Hrun as [(p & ? & _)|(p & _ & Hs)]; [done|by repeat eexists].
    - apply handle_server_inv in Hrun as [(f & ? & _)|(p & w1 & logs & _ & _ & _ & _ & Hs)]; [done|by repeat eexists]. }
  destruct Hs as (method & url & headers & body & w1 & Hs).
  apply send_upstream_inv in Hs as (_ & _ & [(_ & _ & ?)|(m & _ & He & up & Hup & Hst & Hh & Hb)]); [done|].
  do 3 eexists. split; [exact He|]. split_and!; try done. by eapply read_bounded_bounded.
Qed.

(** C37: The completion log tells what the caller was told: its status is the
    response's, its request id is the one that was forwarded, an outcome of
    [forwarded] goes with the upstream's response and empty problem fields, and a
    refusal is logged with the code of its problem document, as [failed] exactly
    for server-side statuses and otherwise as [denied] with the stage that refused. *)
Theorem completion_log_consistent {PL : PercentLib} {UL : UrlLib} {SL : Sha256Lib} {PK : PkiLib}
    {HL : HttpLib} {PD : PdpLib} {AL : AuditLib} {OL : OutboundLib}
    (env : Env) (state : ProxyState) (request : Request) (w w' : World) (reply : Reply)
    (log : CompletionLog) :
  proxy_handler env state request w = (w', Some (reply, log)) →
  cl_status log = reply_status reply ∧ cl_request_id log = rid_of env request ∧
  match reply with
  | Forwarded _ => cl_outcome log = "forwarded" ∧ cl_problem_code log = EmptyString ∧
      cl_denial_stage log = EmptyString ∧ cl_denial_reason log = EmptyString
  | Refused doc => problem_extra doc = [("code", cl_problem_code log)] ∧
      problem_type doc = "urn:registry:problem:" +:+ cl_problem_code log ∧
      (if (500 <=? cl_status log)%N
       then cl_outcome log = "failed" ∧ cl_denial_stage log = EmptyString ∧ cl_denial_reason log = EmptyString
       else cl_outcome log = "denied" ∧ cl_denial_stage log ≠ EmptyString)
  end.
Proof.
  unfold proxy_handler, rid_of.
  destruct (ps_mode state);
    [destruct (handle_client _ _ _ _ w) as [w1 [resp|[p|]]]
    |destruct (handle_server _ _ _ _ w) as [w1 [resp|[p|]]]];
    intros [= <- <- <-]; try done; split_and!; try done; by destruct p.
Qed.

(** The request id is fit to be logged and forwarded: one to 128 characters,
    letters, digits, [-], [_], [.] and [:] only, the caller's own if it is of that
    form, and otherwise the fresh one. *)
Theorem request_id_safe {HL : HttpLib} (ulid : string) (headers : HeaderMap) :
  valid_request_id ulid = true →
  valid_request_id (request_id ulid headers) = true ∧
  (∀ v s, head (hm_get_all headers REQUEST_ID) = Some v → header_value_to_str v = Some s →
     valid_request_id s = true → request_id ulid headers = s) ∧
  str_contains (ascii_of_N 10) (request_id ulid headers) = false ∧
  str_contains (ascii_of_N 32) (request_id ulid headers) = false.
Proof.
  intros Hu. pose proof (request_id_valid ulid headers Hu) as Hv.
  pose proof Hv as Hb. unfold valid_request_id in Hb. apply andb_true_iff in Hb as [_ Hb].
  split_and!; [done| |eapply bytes_all_contains; [exact Hb|reflexivity]..].
  intros v s Hh Hs Hval. unfold request_id, hm_get. rewrite Hh. simpl. rewrite Hs. simpl. by rewrite Hval.
Qed.

(** Of a header the caller repeats, only the first value is sent upstream: the
    consuming iterator names a header once and the loop skips the entries without
    name. *)
Theorem repeated_header_values_dropped {HL : HttpLib} {HS : HttpSpec} (headers : HeaderMap)
    (n : HeaderName) (v : HeaderValue) (vs : list HeaderValue) :
  hm_get_all headers n = v :: vs →
  filter (λ e, e.1 = n) (named_headers headers) = [(n, v)].
Proof.
  intros H. by rewrite named_headers_values, H.
Qed.

(** C24: The server serves: with a validated configuration whose environment has not
    changed, an authorised request within the rate and size limits, on a route for
    which a credential variable is named, whose parts can be sent at all, gets the
    upstream's answer when the upstream gives one in time; exactly one request is
    sent for it, with its own method, URL and body, and the limiter is charged once. *)
Theorem server_forwards_authorized {PL : PercentLib} {UL : UrlLib} {SL : Sha256Lib}
    {SS : Sha256Spec} {PK : PkiLib} {HL : HttpLib} {HS : HttpSpec} {PD : PdpLib} {AL : AuditLib}
    {AS : AuditSpec} {OL : OutboundLib} (venv : ValidationEnv) (config : ConnectorConfig)
    (state : ProxyState) (env : Env) (request : Request) (w : World) (identity : PeerIdentity)
    (m : RouteMatch) (purpose : option string) (body : Bytes) (up : UpstreamConfig) (url : Url)
    (method : string) (resp : Response) :
  validate_config venv config Server true = Ok tt →
  ProxyState_server (en_environ env) config = Ok state → ve_environ venv = en_environ env →
  server_auth env state request w identity m purpose →
  snd (rate_check (w_limiter w) (en_instant env) (pi_value identity) (rt_id (rm_route m))
    (lm_max_requests_per_identity_per_minute (cf_limits config))) = Ok tt →
  to_bytes (rq_body request) (max_body_bytes config) = Ok body →
  credential_named config m → encodable env config m identity purpose →
  cf_upstream config = Some up →
  build_url (up_base_url up) (rm_upstream_path m) (rq_query request) = Some url →
  method_from_bytes (rq_method request) = Some method →
  en_timeout env = None → upstream_answers env state resp →
  ∃ w' log logs headers,
    proxy_handler env state request w = (w', Some (Forwarded resp, log)) ∧ no_sends logs ∧
    w_events w' = w_events w ++ logs ++ [Sent (ps_client state) (outbound method url headers body)] ∧
    w_limiter w' = rate_charged env state w identity m.
Proof. exact (server_forwards venv config state env request w identity m purpose body up url method resp). Qed.

(** ** A concrete server and a concrete client *)
Definition ref_outbound : @OutboundLib ref_pki := {| outbound_client _ _ := (tt : @HttpClient ref_pki) |}.

Definition wit_server : @ProxyState ref_url ref_pki ref_audit := {|
  ps_config := ConfigValidate.Claims.wit_server_config 30;
  ps_mode := Server;
  ps_client := (tt : @HttpClient ref_pki);
  ps_server_trust := Some ({|
    tp_anchors_by_domain := {[ "client.example" := (["ca"] : @RootCertStore ref_pki) ]};
    tp_anchors_by_dns_identity := ∅;
    tp_denied_certificate_fingerprints_sha256 := ∅;
    tp_allow_dns_san_identity := false |} : @ServerTrustPolicy ref_pki);
  ps_audit_hasher := Some (tt : @AuditKeyHasher ref_audit) |}.

Definition wit_client_config : @ConnectorConfig ref_url := {|
  cf_listen := Tcp {| sa_ip := V4 127 0 0 1; sa_port := 8080 |};
  cf_server := Some {| sv_url := (("https://server:9443", "/") : @Url ref_url);
                       sv_trust_bundle := "ca" |};
  cf_client_identity := Some {| id_cert := "leaf"; id_key := "key" |};
  cf_defaults := {| df_data_purpose := None |};
  cf_audit := {| au_hash_secret_env := None; au_allow_unkeyed_hashing := true |};
  cf_limits := LimitsConfig_default;
  cf_routes := [{|
    rt_id := "relay"; rt_methods := ["GET"]; rt_local_prefix := Some "/relay";
    rt_upstream_prefix := Some "/v1"; rt_require_purpose := true;
    rt_purpose_source := Some ClientProvided;
    rt_client_identity := None; rt_client_identities := [];
    rt_upstream_auth_header_env := None; rt_forward_client_identity_header := false;
    rt_purposes := []; rt_governed_policy := None;
    rt_allow_forward_authorization := false; rt_allow_forward_cookie := false;
    rt_policy_hash := 0 |}];
  cf_server_identity := None; cf_client_trust := None; cf_upstream := None;
  cf_allow_non_loopback_client_listen := false; cf_allow_dns_san_identity := false;
  cf_connector_id := Some "connector-1" |}.
Definition wit_client : @ProxyState ref_url ref_pki ref_audit :=
  ProxyState_client wit_client_config (tt : @HttpClient ref_pki).

Definition wit_request (path purpose : string) : @Request Ref.ref_http := {|
  rq_method := "GET"; rq_path := path; rq_query := None;
  rq_headers := ([("data-purpose", purpose); ("cookie", "c"); ("accept", "a"); ("accept", "b")]
    : @HeaderMap Ref.ref_http);
  rq_body := ("hello" : @Body Ref.ref_http);
  rq_chain := Some ["leaf"; "ca"] |}.
Definition wit_clock : VerifyClock := {| vc_identity := 5000000000%Z; vc_chain := 5000000001%Z |}.
Definition wit_penv : @Env ref_url ref_pki Ref.ref_http := {|
  en_environ := ConfigValidate.Claims.wit_environ;
  en_now_verify := wit_clock; en_now_at := 0%Z; en_now_age := 0%Z; en_instant := 0%N;
  en_ulid := "01ARZ3NDEKTSV4RRFFQ69G5FAV";
  en_upstream _ _ := Ok ({| Ref.r_status := 200; Ref.r_headers := []; Ref.r_body := "done" |}
    : @UpstreamResponse Ref.ref_http);
  en_timeout := None; en_latency_ms := 1%N; en_info := true |}.
Definition wit_world : @World ref_url ref_pki := {|
  w_limiter := RequestRateLimiter_default; w_caches := ∅; w_events := [] |}.

Definition wit_run (state : @ProxyState ref_url ref_pki ref_audit) (request : @Request Ref.ref_http) :=
  @proxy_handler ref_percent ref_url ref_sha256 ref_pki Ref.ref_http ref_pdp ref_audit
    wit_penv state request wit_world.

(** The server forwards an authorised request, and sends one request for it. *)
Lemma server_sends_only_authorized_witness :
  length (w_events (fst (wit_run wit_server (wit_request "/v1/x" "operations")))) = 3 ∧
  ∃ new, w_events (fst (wit_run wit_server (wit_request "/v1/x" "operations"))) = [] ++ new ∧
    (no_sends new ∨ ∃ logs q, no_sends logs ∧ new = logs ++ [Sent (tt : @HttpClient ref_pki) q]) ∧
    ∀ c q, Sent c q ∈ new →
      ∃ identity m purpose,
        @peer_proved ref_url ref_sha256 ref_pki Ref.ref_http (ps_config wit_server) wit_clock
          (wit_request "/v1/x" "operations") identity ∧
        @route_proved ref_percent ref_url Ref.ref_http (ps_config wit_server)
          (wit_request "/v1/x" "operations") identity m ∧
        @purpose_authorized Ref.ref_http ref_pdp (en_now_age wit_penv) (rm_route m) (rq_headers (wit_request "/v1/x" "operations"))
          (cf_client_trust (ps_config wit_server)) (pi_value identity) purpose ∧
        snd (rate_check RequestRateLimiter_default 0%N (pi_value identity) (rt_id (rm_route m)) 600%N) = Ok tt ∧
        (N.of_nat (String.length (ob_body q)) ≤ 1024)%N.
Proof.
  split; [vm_compute; reflexivity|].
  eapply (@server_sends_only_authorized ref_percent ref_url ref_sha256 ref_pki Ref.ref_http
    Ref.ref_http_spec ref_pdp ref_pdp_spec ref_audit ref_outbound
    ConfigValidate.Claims.wit_environ (ps_config wit_server) wit_server wit_penv
    (wit_request "/v1/x" "operations") wit_world).
  - vm_compute. reflexivity.
  - apply surjective_pairing.
Defined.

(** An unlisted purpose is refused, and nothing is sent. *)
Lemma refused_sends_nothing_witness :
  ∃ new, w_events (fst (wit_run wit_server (wit_request "/v1/x" "marketing"))) = [] ++ new ∧
    no_sends new.
Proof.
  eapply (@refused_sends_nothing ref_percent ref_url ref_sha256 ref_pki Ref.ref_http ref_pdp ref_audit
    ref_outbound wit_server wit_penv (wit_request "/v1/x" "marketing") wit_world).
  - vm_compute. reflexivity.
  - vm_compute. discriminate.
  - vm_compute. discriminate.
Defined.

(** What the concrete runs send. *)
Definition wit_sent (state : @ProxyState ref_url ref_pki ref_audit) (request : @Request Ref.ref_http)
    : @OutboundRequest ref_url :=
  match list.last (w_events (fst (wit_run state request))) with
  | Some (Sent _ q) => q
  | _ => {| ob_method := EmptyString; ob_url := (EmptyString, EmptyString) : @Url ref_url;
            ob_headers := []; ob_body := EmptyString |}
  end.

Example wit_server_headers :
  ob_headers (wit_sent wit_server (wit_request "/v1/x" "operations")) =
  [("accept", "a"); ("data-purpose", "operations");
   ("x-request-id", "01ARZ3NDEKTSV4RRFFQ69G5FAV"); ("authorization", "Bearer s3cret");
   ("x-registry-connector-client-identity", "spiffe://client.example/w")].
Proof. vm_compute. reflexivity. Qed.

Lemma server_upstream_headers_witness :
  let request := wit_request "/v1/x" "operations" in
  let q := wit_sent wit_server request in
  ∃ identity m purpose upstream secret,
    @server_auth ref_percent ref_url ref_sha256 ref_pki Ref.ref_http ref_pdp ref_audit
      wit_penv wit_server request wit_world identity m purpose ∧
    cf_upstream (ps_config wit_server) = Some upstream ∧
    @credential ref_url ConfigValidate.Claims.wit_environ (ps_config wit_server) m secret ∧
    NoDup (ob_headers q).*1 ∧
    ∀ n v, (n, v) ∈ ob_headers q ↔
      if decide (n = CONNECTOR_CLIENT_IDENTITY ∧ rt_forward_client_identity_header (rm_route m) = true)
      then v = pi_value identity
      else if decide (n = to_ascii_lowercase (up_auth_header_name upstream)) then v = secret
      else if decide (n = REQUEST_ID) then v = rid_of wit_penv request
      else if decide (n = DATA_PURPOSE) then purpose = Some v
      else ∃ vs, @caller_header Ref.ref_http false false (rq_headers request) n vs ∧ head vs = Some v ∧
             vs = @hm_get_all Ref.ref_http (@filter_proxy_request_headers Ref.ref_http (rq_headers request)
               (@php_strip_private_prefix Ref.ref_http "x-registry-connector-" (@php_strict Ref.ref_http))) n.
Proof.
  eapply (@server_upstream_headers ref_percent ref_url ref_sha256 ref_pki Ref.ref_http Ref.ref_http_spec
    ref_pdp ref_audit ref_outbound wit_penv wit_server (wit_request "/v1/x" "operations") wit_world
    (fst (wit_run wit_server (wit_request "/v1/x" "operations"))) _ (tt : @HttpClient ref_pki)).
  - reflexivity.
  - apply surjective_pairing.
  - vm_compute. right. right. left.
  - apply not_elem_of_nil.
Defined.

Example wit_client_headers :
  ob_headers (wit_sent wit_client (wit_request "/relay/x" "operations")) =
  [("accept", "a"); ("x-request-id", "01ARZ3NDEKTSV4RRFFQ69G5FAV");
   ("x-registry-connector-version", "0.1.0"); ("x-registry-connector-id", "connector-1");
   ("data-purpose", "operations")].
Proof. vm_compute. reflexivity. Qed.

Lemma client_upstream_headers_witness :
  let request := wit_request "/relay/x" "operations" in
  let q := wit_sent wit_client request in
  ∃ m purpose,
    @find_client_route ref_percent (cf_routes wit_client_config) "GET" "/relay/x" = Ok m ∧
    @resolve_client_purpose Ref.ref_http ref_url wit_client_config m (rq_headers request) = Ok purpose ∧
    NoDup (ob_headers q).*1 ∧
    ∀ n v, (n, v) ∈ ob_headers q ↔
      if decide (n = DATA_PURPOSE ∧ is_Some purpose) then purpose = Some v
      else if decide (n = CONNECTOR_ID ∧ is_Some (cf_connector_id wit_client_config))
      then cf_connector_id wit_client_config = Some v
      else if decide (n = CONNECTOR_VERSION) then v = CARGO_PKG_VERSION
      else if decide (n = REQUEST_ID) then v = rid_of wit_penv request
      else ∃ vs, @caller_header Ref.ref_http (rt_allow_forward_authorization (rm_route m))
               (rt_allow_forward_cookie (rm_route m)) (rq_headers request) n vs ∧
             head vs = Some v ∧ vs = @hm_get_all Ref.ref_http (filtered_headers (rq_headers request) m) n.
Proof.
  eapply (@client_upstream_headers ref_percent ref_url ref_sha256 ref_pki Ref.ref_http Ref.ref_http_spec
    ref_pdp ref_audit ref_outbound wit_penv wit_client (wit_request "/relay/x" "operations") wit_world
    (fst (wit_run wit_client (wit_request "/relay/x" "operations"))) _ (tt : @HttpClient ref_pki)).
  - reflexivity.
  - apply surjective_pairing.
  - vm_compute. left.
  - apply not_elem_of_nil.
Defined.

Lemma server_never_panics_witness :
  is_Some (snd (wit_run wit_server (wit_request "/v1/x" "operations"))).
Proof.
  eapply (@server_never_panics ref_percent ref_url ref_sha256 ref_sha256_spec ref_pki Ref.ref_http
    ref_pdp ref_audit ref_audit_spec ref_outbound ConfigValidate.Claims.wit_env true
    ConfigValidate.Claims.wit_environ (ps_config wit_server)).
  - vm_compute. reflexivity.
  - vm_compute. reflexivity.
Defined.

Lemma forwarded_response_faithful_witness :
  let request := wit_request "/v1/x" "operations" in
  ∃ before q up, w_events (fst (wit_run wit_server request)) = before ++ [Sent (tt : @HttpClient ref_pki) q] ∧
    en_upstream wit_penv (tt : @HttpClient ref_pki) q = Ok up ∧
    @status_from_u16 Ref.ref_http (@resp_status Ref.ref_http up) = Some 200%N ∧
    [] = @hm_iter Ref.ref_http (@filter_proxy_response_headers Ref.ref_http (@resp_headers Ref.ref_http up)) ∧
    @read_bounded Ref.ref_http up 1024%N = Ok "done" ∧
    (N.of_nat (String.length "done") ≤ 1024)%N.
Proof.
  eapply (@forwarded_response_faithful ref_percent ref_url ref_sha256 ref_pki Ref.ref_http
    Ref.ref_http_spec ref_pdp ref_audit ref_outbound wit_penv wit_server
    (wit_request "/v1/x" "operations") wit_world
    (fst (wit_run wit_server (wit_request "/v1/x" "operations")))
    {| rs_status := 200%N; rs_headers := []; rs_body := "done" |}).
  vm_compute. reflexivity.
Defined.

Lemma completion_log_consistent_witness :
  let '(w', out) := wit_run wit_server (wit_request "/v1/x" "marketing") in
  ∃ reply log, out = Some (reply, log) ∧
    cl_status log = reply_status reply ∧
    cl_request_id log = rid_of wit_penv (wit_request "/v1/x" "marketing") ∧
    match reply with
    | Forwarded _ => cl_outcome log = "forwarded" ∧ cl_problem_code log = EmptyString ∧
        cl_denial_stage log = EmptyString ∧ cl_denial_reason log = EmptyString
    | Refused doc => problem_extra doc = [("code", cl_problem_code log)] ∧
        problem_type doc = "urn:registry:problem:" +:+ cl_problem_code log ∧
        (if (500 <=? cl_status log)%N
         then cl_outcome log = "failed" ∧ cl_denial_stage log = EmptyString ∧ cl_denial_reason log = EmptyString
         else cl_outcome log = "denied" ∧ cl_denial_stage log ≠ EmptyString)
    end.
Proof.
  destruct (wit_run wit_server (wit_request "/v1/x" "marketing")) as [w' out] eqn:E.
  destruct out as [[reply log]|]; [|vm_compute in E; discriminate E].
  exists reply, log. split; [reflexivity|].
  apply (@completion_log_consistent ref_percent ref_url ref_sha256 ref_pki Ref.ref_http ref_pdp
    ref_audit ref_outbound wit_penv wit_server (wit_request "/v1/x" "marketing") wit_world w').
  exact E.
Defined.

Lemma request_id_safe_witness :
  let headers := ([("x-request-id", "bad id")] : @HeaderMap Ref.ref_http) in
  let ulid := "01ARZ3NDEKTSV4RRFFQ69G5FAV" in
  valid_request_id (request_id ulid headers) = true ∧
  (∀ v s, head (@hm_get_all Ref.ref_http headers REQUEST_ID) = Some v →
     @header_value_to_str Ref.ref_http v = Some s →
     valid_request_id s = true → request_id ulid headers = s) ∧
  str_contains (ascii_of_N 10) (request_id ulid headers) = false ∧
  str_contains (ascii_of_N 32) (request_id ulid headers) = false.
Proof. apply (@request_id_safe Ref.ref_http). vm_compute. reflexivity. Defined.

Lemma repeated_header_values_dropped_witness :
  let headers := ([("accept", "a"); ("x", "y"); ("accept", "b")] : @HeaderMap Ref.ref_http) in
  filter (λ e, e.1 = "accept") (named_headers headers) = [("accept", "a")].
Proof.
  apply (@repeated_header_values_dropped Ref.ref_http Ref.ref_http_spec
    ([("accept", "a"); ("x", "y"); ("accept", "b")] : @HeaderMap Ref.ref_http) "accept" "a" ["b"]).
  vm_compute. reflexivity.
Defined.

(** The concrete server answers the concrete request. *)
Definition wit_identity : PeerIdentity := {|
  pi_value := "spiffe://client.example/w"; pi_kind := UriSan;
  pi_fingerprint_sha256 := @sha256_hex ref_sha256 "leaf" |}.
Definition wit_match : RouteMatch := {|
  rm_route := {|
    rt_id := "relay"; rt_methods := ["GET"]; rt_local_prefix := None;
    rt_upstream_prefix := Some "/v1"; rt_require_purpose := true; rt_purpose_source := None;
    rt_client_identity := Some "spiffe://client.example/w"; rt_client_identities := [];
    rt_upstream_auth_header_env := None; rt_forward_client_identity_header := true;
    rt_purposes := ["operations"]; rt_governed_policy := None;
    rt_allow_forward_authorization := false; rt_allow_forward_cookie := false;
    rt_policy_hash := 0 |};
  rm_upstream_path := "/v1/x" |}.

Lemma server_forwards_authorized_witness :
  ∃ w' log logs headers,
    wit_run wit_server (wit_request "/v1/x" "operations") =
      (w', Some (Forwarded {| rs_status := 200%N; rs_headers := []; rs_body := "done" |}, log)) ∧
    no_sends logs ∧
    w_events w' = [] ++ logs ++ [Sent (tt : @HttpClient ref_pki)
      (@outbound ref_url Ref.ref_http "GET" ("http://relay:8080", "/v1/x") headers "hello")] ∧
    w_limiter w' = @rate_charged ref_url ref_pki Ref.ref_http ref_audit
      wit_penv wit_server wit_world wit_identity wit_match.
Proof.
  eapply (@server_forwards_authorized ref_percent ref_url ref_sha256 ref_sha256_spec ref_pki
    Ref.ref_http Ref.ref_http_spec ref_pdp ref_audit ref_audit_spec ref_outbound
    ConfigValidate.Claims.wit_env (ps_config wit_server) wit_server wit_penv
    (wit_request "/v1/x" "operations") wit_world wit_identity wit_match (Some "operations")).
  - vm_compute. reflexivity.
  - vm_compute. reflexivity.
  - reflexivity.
  - split; [do 2 eexists; split; [reflexivity|split; [reflexivity|]]| | |]; vm_compute; reflexivity.
  - vm_compute. reflexivity.
  - vm_compute. reflexivity.
  - right. eexists. split; [reflexivity|]. by eexists.
  - split; [by eexists|intros p [= <-]; by eexists|by eexists|].
    intros v (up & var & secret & Hup & Hvar & Hs & _ & ->). injection Hup as <-.
    destruct Hvar as [Hvar|[_ Hvar]]; [discriminate Hvar|]. injection Hvar as <-.
    vm_compute in Hs. injection Hs as <-. vm_compute. by eexists.
  - reflexivity.
  - vm_compute. reflexivity.
  - vm_compute. reflexivity.
  - reflexivity.
  - split; [|reflexivity]. eexists. split_and!; reflexivity.
Defined.
End Claims.
