(* ===== verification/AuditTrail.v ===== *)
(** * What the logs say ([src/src/proxy.rs], the lines of the handlers)

    Server mode writes a line for each decision of the policy decision point and a
    line for each authorised request; every request ends with a completion line.
    [server_lines] computes the lines from the parts of a request that may be logged;
    the handler is shown to write the decision line always, and after it the
    authorisation line or nothing, and to write both when it forwards.  From this follow
    the two properties of the log: every policy decision leaves a record that agrees with
    the answer, and what else a request carries (body, query, other headers, credentials)
    reaches no line; it can only change how the request ends, and so which lines there
    are. *)
From S2P Require Import Prelude RustStr BTree Errors External Reference Http Pdp Config Routing.
From S2P Require Import RateLimit Identity Tls PolicyHash Purpose Redaction ConfigValidate Proxy.
From Stdlib Require Import Ascii.
Local Open Scope connector_scope.

Section lines.
Context {PL : PercentLib} {UL : UrlLib} {SL : Sha256Lib} {PK : PkiLib} {HL : HttpLib}
  {PD : PdpLib} {AL : AuditLib} {OL : OutboundLib}.

Definition is_line (e : Event) : bool :=
  match e with Sent _ _ => false | Decided _ | Authorized _ _ _ _ => true end.
Definition log_lines (es : list Event) : list Event := List.filter is_line es.

Definition decisions (es : list Event) : list DecisionLog :=
  omap (λ e, match e with Decided log => Some log | _ => None end) es.

Lemma log_lines_app es1 es2 : log_lines (es1 ++ es2) = log_lines es1 ++ log_lines es2.
Proof. apply List.filter_app. Qed.

Lemma log_lines_decision env log : log_lines (decision_events env log) = decision_events env log.
Proof. unfold decision_events. by destruct (en_info env), log. Qed.

Lemma decisions_lines es : decisions (log_lines es) = decisions es.
Proof. induction es as [|[| |] es IH]; simpl; [done|exact IH|by f_equal|exact IH]. Qed.

Lemma decisions_app es1 es2 : decisions (es1 ++ es2) = decisions es1 ++ decisions es2.
Proof. apply omap_app. Qed.

Lemma decisions_events env log :
  en_info env = true → decisions (decision_events env log) = option_list log.
Proof. unfold decision_events. intros ->. by destruct log. Qed.

(** ** The lines of a request *)

(** Who asks for which route: the stages before the purpose is looked at. *)
Definition routed (env : Env) (state : ProxyState) (request : Request)
    : result ConnectorProblem (PeerIdentity * RouteMatch) :=
  chain ← ok_or ClientIdentityMissing (rq_chain request);
  trust ← ok_or ConfigInvalid (ps_server_trust state);
  identity ← map_err (λ _, ClientIdentityDenied) (verify_peer (en_now_verify env) trust chain);
  if negb (identity_allowed (ps_config state) identity) then Err ClientIdentityDenied else
  m ← map_err (λ _, RouteDenied) (find_server_route (cf_routes (ps_config state))
    (rq_method request) (rq_path request) (pi_value identity));
  Ok (identity, m).

(** The authorisation line, where logging is on and the hashes exist. *)
Definition authorized_lines (env : Env) (state : ProxyState) (m : RouteMatch)
    (identity : PeerIdentity) (rid : string) : list Event :=
  if negb (en_info env) then [] else
  match ps_audit_hasher state with
  | None => []
  | Some hasher =>
      match identity_hash_for_log hasher (pi_value identity),
            certificate_hash_for_log hasher (pi_fingerprint_sha256 identity) with
      | Some ih, Some ch => [Authorized (rt_id (rm_route m)) ih ch rid]
      | _, _ => []
      end
  end.

(** The decision line, and the authorisation line of a request that is let through. *)
Definition server_lines (env : Env) (state : ProxyState) (request : Request) (rid : string)
    (caches : CacheStore) : list Event * list Event :=
  match routed env state request with
  | Err _ => ([], [])
  | Ok (identity, m) =>
      let '(_, log, r) := authorize_server_purpose caches (en_now_at env) (en_now_age env)
        m (rq_headers request) identity (cf_client_trust (ps_config state)) in
      (decision_events env log, if is_ok r then authorized_lines env state m identity rid else [])
  end.

(** ** What a stage writes

    A stage writes [L]: what it adds to the log is a prefix of [L], all of [L] when
    it succeeds, and it does not fail with a policy denial. *)
Definition no_denial {E A} (is_denial : E → Prop) (r : result E A) : Prop :=
  ∀ e, r = Err e → ¬ is_denial e.
Definition pdp_problem (p : ConnectorProblem) : Prop := ∃ c, p = PdpDenied c.
Definition pdp_failure (f : Failure) : Prop := ∃ c, f = Problem (PdpDenied c).

Definition writes {A} (L : list Event) (h : Handler A) : Prop := ∀ w w' r,
  h w = (w', r) →
  ∃ es, w_events w' = w_events w ++ es ∧ log_lines es `prefix_of` L ∧
    (is_ok r = true → log_lines es = L) ∧ no_denial pdp_failure r.

Lemma writes_bind {A B} L1 L2 (e : Handler A) (k : A → Handler B) :
  writes L1 e → (∀ a, writes L2 (k a)) → writes (L1 ++ L2) (h_bind e k).
Proof.
  intros He Hk w w' r [(a & w1 & E1 & E2)|(f & E1 & ->)]%h_bind_inv.
  - apply He in E1 as (es1 & H1 & _ & Heq & _). specialize (Heq eq_refl).
    apply Hk in E2 as (es2 & H2 & Hp & Hok & Hd). exists (es1 ++ es2).
    rewrite H2, H1, app_assoc, log_lines_app, Heq. split_and!; [done|by apply prefix_app| |done].
    intros Hr. by rewrite (Hok Hr).
  - apply He in E1 as (es1 & H1 & Hp & _ & Hd). exists es1. split_and!; [done| |done|].
    + by apply prefix_app_r.
    + intros ? [= <-]. by apply Hd.
Qed.

Lemma writes_bind_nil {A B} L (e : Handler A) (k : A → Handler B) :
  writes [] e → (∀ a, writes L (k a)) → writes L (h_bind e k).
Proof. apply (writes_bind []). Qed.

Lemma writes_quiet {A} (h : Handler A) :
  (∀ w w' r, h w = (w', r) → w_events w' = w_events w ∧ no_denial pdp_failure r) → writes [] h.
Proof.
  intros Hh w w' r [He Hd]%Hh. exists []. rewrite app_nil_r. by split_and!.
Qed.

Lemma writes_lift {A} (r : result ConnectorProblem A) : no_denial pdp_problem r → writes [] (lift r).
Proof.
  intros Hr. apply writes_quiet. intros w w' r' E. injection E as <- <-. split; [done|].
  intros f Hf [c ->]. apply map_err_Err in Hf as (p & -> & [= <-]). apply (Hr _ eq_refl). by eexists.
Qed.

Lemma writes_await {A} env p (r : result ConnectorProblem A) :
  no_denial pdp_problem r → writes [] (await env p r).
Proof.
  intros Hr. unfold await.
  repeat case_match; apply writes_lift; try exact Hr; by intros ? [= <-] [].
Qed.

Lemma writes_ret {A} (a : A) : writes [] (h_ret a).
Proof. apply writes_quiet. by intros w w' r [= <- <-]. Qed.

Lemma writes_panic {A} (o : option A) : writes [] (or_panic o).
Proof.
  apply writes_quiet. intros w w' r [= <- <-]. split; [done|]. intros f [_ ->]%ok_or_Err [c ?]. done.
Qed.

Lemma writes_sent c q : writes [] (emit (Sent c q)).
Proof. intros w w' r [= <- <-]. exists [Sent c q]. by split_and!. Qed.

Lemma writes_rate env i rid limit : writes [] (rate_check_m env i rid limit).
Proof.
  apply writes_quiet. intros w w' r E. unfold rate_check_m, rate_check in E.
  repeat case_match; simplify_eq/=; split; try done; by intros ? [= <-] [].
Qed.

Lemma writes_log env state m identity rid :
  writes (authorized_lines env state m identity rid) (log_authorized env state m identity rid).
Proof.
  unfold log_authorized, authorized_lines. destruct (en_info env); simpl; [|apply writes_ret].
  intros w w' r. unfold h_bind, lift, or_panic, emit. destruct (ps_audit_hasher state) as [h|]; simpl.
  - destruct (identity_hash_for_log h _) as [ih|]; simpl; [destruct (certificate_hash_for_log h _) as [ch|]; simpl|].
    + intros [= <- <-]. eexists. split; [done|]. by split_and!.
    + intros [= <- <-]. exists []. rewrite app_nil_r. split_and!; try done. by intros ? [= <-] [].
    + intros [= <- <-]. exists []. rewrite app_nil_r. split_and!; try done. by intros ? [= <-] [].
  - intros [= <- <-]. exists []. rewrite app_nil_r. split_and!; try done. by intros ? [= <-] [].
Qed.

(** Errors that are no policy denials. *)
Lemma ok_or_no_denial {A} (o : option A) p : ¬ pdp_problem p → no_denial pdp_problem (ok_or p o).
Proof. intros Hp e [_ ->]%ok_or_Err. done. Qed.

Lemma map_err_no_denial {E A} (r : result E A) (p : ConnectorProblem) :
  ¬ pdp_problem p → no_denial pdp_problem (map_err (λ _, p) r).
Proof. by intros Hp e (x & -> & ->)%map_err_Err. Qed.

Lemma bind_no_denial {A B} (r : result ConnectorProblem A) (k : A → result ConnectorProblem B) :
  no_denial pdp_problem r → (∀ a, no_denial pdp_problem (k a)) → no_denial pdp_problem (r ≫= k).
Proof. intros Hr Hk e [He|(a & _ & He)]%bind_Err_inv; [by apply Hr|by eapply Hk]. Qed.

Lemma Ok_no_denial {A} (a : A) : no_denial pdp_problem (Ok a).
Proof. done. Qed.

Lemma not_pdp p : (∀ c, p ≠ PdpDenied c) → ¬ pdp_problem p.
Proof. intros H [c ->]. by eapply H. Qed.
End lines.

Create HintDb lines.
#[export] Hint Resolve ok_or_no_denial map_err_no_denial Ok_no_denial writes_lift writes_await writes_ret
  writes_panic writes_sent writes_rate : lines.
#[export] Hint Extern 1 (¬ pdp_problem _) => apply not_pdp; discriminate : lines.
#[export] Hint Extern 2 (no_denial _ (_ ≫= _)) => apply bind_no_denial; [|intros ?] : lines.
#[export] Hint Extern 2 (writes _ (h_bind _ _)) => apply writes_bind_nil; [|intros ?] : lines.

Section handlers.
Context {PL : PercentLib} {UL : UrlLib} {SL : Sha256Lib} {PK : PkiLib} {HL : HttpLib}
  {PD : PdpLib} {AL : AuditLib} {OL : OutboundLib}.

Lemma writes_send env client method url headers body max :
  writes [] (send_upstream env client method url headers body max).
Proof. unfold send_upstream. auto 20 with lines. Qed.

Lemma server_headers_no_denial env config up m identity purpose rid h :
  no_denial pdp_problem (server_headers env config up m identity purpose rid h).
Proof.
  unfold server_headers, upstream_auth_header, header_value.
  destruct purpose, (rt_forward_client_identity_header (rm_route m)); simpl; auto 30 with lines.
Qed.
Hint Resolve writes_send server_headers_no_denial : lines.

(** The stages from the limiter on write the authorisation line. *)
Lemma writes_charged env state request rid identity m purpose :
  writes (authorized_lines env state m identity rid)
  (rate_check_m env (pi_value identity) (rt_id (rm_route m))
     (lm_max_requests_per_identity_per_minute (cf_limits (ps_config state)));;;
   body <-- await env AtBody (read_limited_body (rq_body request) (max_body_bytes (ps_config state)));
   upstream <-- lift (ok_or ConfigInvalid (cf_upstream (ps_config state)));
   url <-- lift (ok_or ConfigInvalid
     (build_url (up_base_url upstream) (rm_upstream_path m) (rq_query request)));
   headers <-- lift (server_headers env (ps_config state) upstream m identity purpose rid
     (rq_headers request));
   log_authorized env state m identity rid;;;
   send_upstream env (ps_client state) (rq_method request) url headers body
     (max_body_bytes (ps_config state))).
Proof.
  unfold read_limited_body. do 5 (apply writes_bind_nil; [auto with lines|intros ?]).
  rewrite <- (app_nil_r (authorized_lines _ _ _ _ _)).
  apply writes_bind; [apply writes_log|auto with lines].
Qed.

(** What [handle_server] is after its first stages. *)
Lemma handle_server_routed env state request rid w :
  handle_server env state request rid w =
  match routed env state request with
  | Err p => (w, Err (Problem p))
  | Ok (identity, m) =>
      (authorized_purpose <--
         authorize_m env m (rq_headers request) identity (cf_client_trust (ps_config state));
       rate_check_m env (pi_value identity) (rt_id (rm_route m))
         (lm_max_requests_per_identity_per_minute (cf_limits (ps_config state)));;;
       body <-- await env AtBody (read_limited_body (rq_body request) (max_body_bytes (ps_config state)));
       upstream <-- lift (ok_or ConfigInvalid (cf_upstream (ps_config state)));
       url <-- lift (ok_or ConfigInvalid
         (build_url (up_base_url upstream) (rm_upstream_path m) (rq_query request)));
       headers <-- lift (server_headers env (ps_config state) upstream m identity authorized_purpose rid
         (rq_headers request));
       log_authorized env state m identity rid;;;
       send_upstream env (ps_client state) (rq_method request) url headers body
         (max_body_bytes (ps_config state))) w
  end.
Proof.
  unfold handle_server, routed. destruct (rq_chain request) as [chain|]; [|done]. simpl.
  unfold h_bind at 1 2 3. simpl. destruct (ps_server_trust state) as [trust|]; [|done]. simpl.
  destruct (verify_peer _ _ _) as [identity|]; [|done]. simpl.
  destruct (identity_allowed _ _); [|done]. simpl. unfold h_bind at 1.
  by destruct (find_server_route _ _ _ _) as [m|].
Qed.

Lemma handle_server_lines env state request rid w w' r :
  handle_server env state request rid w = (w', r) →
  ∃ new, w_events w' = w_events w ++ new ∧
    match routed env state request with
    | Err p => new = [] ∧ r = Err (Problem p)
    | Ok (identity, m) =>
        let '(_, log, o) := authorize_server_purpose (w_caches w) (en_now_at env) (en_now_age env)
          m (rq_headers request) identity (cf_client_trust (ps_config state)) in
        match o with
        | Err p => new = decision_events env log ∧ r = Err (Problem p)
        | Ok _ => ∃ rest, new = decision_events env log ++ rest ∧
            log_lines rest `prefix_of` authorized_lines env state m identity rid ∧
            (is_ok r = true → log_lines rest = authorized_lines env state m identity rid) ∧
            no_denial pdp_failure r
        end
    end.
Proof.
  rewrite handle_server_routed. destruct (routed env state request) as [[identity m]|p].
  2:{ intros [= <- <-]. exists []. by rewrite app_nil_r. }
  unfold h_bind at 1, authorize_m.
  destruct (authorize_server_purpose _ _ _ _ _ _ _) as [[c log] [o|p]]; simpl.
  - intros (rest & He & Hp & Hok & Hd)%writes_charged. simpl in He. rewrite <- app_assoc in He. eauto 10.
  - intros [= <- <-]. eauto.
Qed.

(** There is at most one authorisation line. *)
Lemma authorized_lines_one env state m identity rid : length (authorized_lines env state m identity rid) ≤ 1.
Proof. unfold authorized_lines. repeat case_match; simpl; lia. Qed.

Lemma prefix_of_one {A} (l k : list A) : length k ≤ 1 → l `prefix_of` k → l = [] ∨ l = k.
Proof.
  intros Hk [rest ->]. destruct l as [|x l]; [by left|right]. simpl in Hk.
  destruct l, rest; simpl in *; [done|lia..].
Qed.

(** The authorisation line is no decision line. *)
Lemma prefix_no_decisions env state m identity rid es :
  log_lines es `prefix_of` authorized_lines env state m identity rid → decisions es = [].
Proof.
  rewrite <- decisions_lines. intros [k Hk].
  assert (H : decisions (log_lines es ++ k) = []).
  { rewrite <- Hk. unfold authorized_lines. by repeat case_match. }
  rewrite decisions_app in H. by apply app_eq_nil in H as [? _].
Qed.

(** What a run adds to the log. *)
Definition wrote (lines : list Event * list Event) (forwarded : Prop) (new : list Event) : Prop :=
  let '(decided, authorized) := lines in
  (log_lines new = decided ∨ log_lines new = decided ++ authorized) ∧
  (forwarded → log_lines new = decided ++ authorized) ∧ decisions new = decisions decided.

Lemma handle_server_log env state request rid w w' r :
  handle_server env state request rid w = (w', r) →
  ∃ new, w_events w' = w_events w ++ new ∧
    wrote (server_lines env state request rid (w_caches w)) (is_ok r = true) new.
Proof.
  intros (new & He & Hcase)%handle_server_lines. exists new. split; [done|].
  unfold server_lines, wrote. destruct (routed env state request) as [[identity m]|p].
  - destruct (authorize_server_purpose _ _ _ _ _ _ _) as [[c log] [o|p]]; simpl.
    + destruct Hcase as (rest & -> & Hp & Hok & _).
      rewrite log_lines_app, log_lines_decision, decisions_app, (prefix_no_decisions _ _ _ _ _ _ Hp), app_nil_r.
      split_and!; [|intros Hr; by rewrite Hok|done].
      destruct (prefix_of_one _ _ (authorized_lines_one _ _ _ _ _) Hp) as [->| ->]; [left|by right].
      by rewrite app_nil_r.
    + destruct Hcase as [-> ->]. rewrite log_lines_decision, app_nil_r. auto.
  - destruct Hcase as [-> ->]. simpl. auto.
Qed.
End handlers.

Section authorized.
Context {PL : PercentLib} {UL : UrlLib} {SL : Sha256Lib} {PK : PkiLib} {HL : HttpLib}
  {PD : PdpLib} {AL : AuditLib} {OL : OutboundLib}.

(** The stages before the purpose do not deny by policy. *)
Lemma routed_no_denial env state request code : routed env state request ≠ Err (PdpDenied code).
Proof.
  intros H. assert (Hn : no_denial pdp_problem (routed env state request)); [|by eapply Hn; [done|eexists]].
  unfold routed. do 3 (apply bind_no_denial; [auto with lines|intros ?]).
  destruct (negb _); [by intros ? [= <-] []|auto with lines].
Qed.
End authorized.

(** ** Decisions and their records *)
Section records.
Context {HL : HttpLib} {PD : PdpLib} {SL : Sha256Lib}.

(** The line names the route, its policy and the hash of the policy it was decided by. *)
Definition names_policy (log : DecisionLog) (route : RouteConfig) : Prop :=
  dl_route_id log = rt_id route ∧
  dl_policy_id log = "trust-connector.route." +:+ rt_id route ∧
  dl_policy_hash log = policy_hash_of (policy_material route).

(** The decision point is asked about a request that was routed: the route has purpose
    rules and they can be met, one purpose is given and the evidence is readable; the
    policy it is asked about is that of the route, with its hash. *)
Record consulted (now_at now_age : SystemTime) (m : RouteMatch) (headers : HeaderMap)
    (identity : PeerIdentity) (ct : option ClientTrustConfig) (purpose : string) (d : PdpDecision) : Prop := {
  co_gated : ¬ ungated (rm_route m);
  co_purpose : single_data_purpose headers = Ok (Some purpose);
  co_rules : rt_require_purpose (rm_route m) = true →
    purpose_constraints (rm_route m) (rt_governed_policy (rm_route m)) ≠ [];
  co_decision : ∃ cx, request_context now_at now_age m headers identity ct purpose = Ok cx ∧
    d = pdp_decide cx (request_policy m (policy_hash_of (policy_material (rm_route m))));
}.

Lemma consulted_fun now_at now_age m headers identity ct p1 p2 d1 d2 :
  consulted now_at now_age m headers identity ct p1 d1 →
  consulted now_at now_age m headers identity ct p2 d2 → d1 = d2.
Proof.
  intros [_ H1 _ (cx1 & Hc1 & ->)] [_ H2 _ (cx2 & Hc2 & ->)]. rewrite H1 in H2. injection H2 as <-. congruence.
Qed.

(** The line says what was decided. *)
Definition records (log : DecisionLog) (d : PdpDecision) : Prop :=
  match d with
  | Permit audit => dl_stable_problem_code log = None ∧ dl_redaction_fields log = None ∧
      dl_evaluated_rule_ids log = pa_evaluated_rule_ids audit ∧
      dl_message log = "server connector permitted purpose by pdp"
  | PermitWithRedaction audit fields =>
      dl_stable_problem_code log = Some UNSUPPORTED_POLICY_TERM ∧ dl_redaction_fields log = Some fields ∧
      dl_evaluated_rule_ids log = pa_evaluated_rule_ids audit ∧
      dl_message log = "server connector denied pdp redaction decision it cannot enforce"
  | Deny audit code => dl_stable_problem_code log = Some code ∧ dl_redaction_fields log = None ∧
      dl_evaluated_rule_ids log = pa_evaluated_rule_ids audit ∧
      dl_message log = "server connector denied purpose by pdp"
  end.

Lemma decision_recorded {PDS : PdpSpec} cx m :
  let route := rm_route m in
  let d := pdp_decide cx (request_policy m (policy_hash_of (policy_material route))) in
  let log := decision_log (rt_id route) d in
  names_policy log route ∧ records log d.
Proof.
  pose proof (pdp_audit_echo cx (request_policy m (policy_hash_of (policy_material (rm_route m))))) as Ha.
  simpl in Ha |- *. unfold names_policy, records.
  by destruct (pdp_decide cx _) as [a|a fs|a c]; simpl in *; destruct Ha as [Hi Hh].
Qed.

(** Where no line is written, the decision point was not asked. *)
Definition undecided (now_at now_age : SystemTime) (m : RouteMatch) (headers : HeaderMap)
    (identity : PeerIdentity) (ct : option ClientTrustConfig) (r : result ConnectorProblem (option string))
    : Prop :=
  ungated (rm_route m) ∧ (∃ o, r = Ok o) ∨
  r ∈ [Err PurposeDenied; Err PurposeRequired] ∨
  ∃ purpose, r = Err (PdpDenied EVIDENCE_STALE) ∧
    request_context now_at now_age m headers identity ct purpose = Err (PdpDenied EVIDENCE_STALE).

Lemma authorize_log {PDS : PdpSpec} store now_at now_age m headers identity ct store' log r :
  cache_inv store →
  authorize_server_purpose store now_at now_age m headers identity ct = (store', log, r) →
  match log with
  | Some log => ∃ purpose d, consulted now_at now_age m headers identity ct purpose d ∧
      names_policy log (rm_route m) ∧ records log d ∧ r = decision_result purpose d
  | None => (∀ purpose d, ¬ consulted now_at now_age m headers identity ct purpose d) ∧
      undecided now_at now_age m headers identity ct r
  end.
Proof.
  intros Hinv. unfold authorize_server_purpose, route_purpose_policy_hash, undecided.
  destruct (single_data_purpose headers) as [purpose|e] eqn:Es.
  2:{ intros [= _ <- <-]. split; [intros ? ? []; congruence|]. right. left. revert Es.
      unfold single_data_purpose. repeat case_match; intros [= <-]. left. }
  pose proof (ungated_true (rm_route m)) as Hu.
  destruct (is_empty _ && _ && _); [intros [= _ <- <-]; split; [intros ? ? [Hg]; by apply Hg, Hu|]; left; split; [by apply Hu|eauto]|].
  destruct purpose as [p|]; [|intros [= _ <- <-]; split; [intros ? ? []; congruence|right; set_solver]].
  destruct (rt_require_purpose _) eqn:Hreq; simpl; [destruct (is_empty _) eqn:Hc|].
  { intros [= _ <- <-]. split; [|right; set_solver]. intros ? ? [_ _ Hr _]. apply is_empty_true in Hc. by apply Hr. }
  all: destruct (request_pdp_context _ _ _ _ _ _ _ _) as [cx|e] eqn:Ecx.
  2,4: pose proof (request_context_Err now_at now_age m headers _ ct p e Ecx) as ->;
    intros [= _ <- <-]; split; [intros q d [_ Hq _ (cx & Hcx & _)]; unfold request_context in Hcx; congruence|];
    right; right; by exists p.
  all: pose proof (get_or_compute_coherent store (rt_policy_hash (rm_route m)) (policy_material (rm_route m)) Hinv) as G;
    destruct (get_or_compute_at store _ _ _) as [s h]; destruct G as [_ ->]; intros [= _ <- <-];
    destruct (decision_recorded cx m) as [Hn Hr]; do 2 eexists; split_and!; [|exact Hn|exact Hr|done].
  all: split; [by intros ?%Hu|done| |by exists cx].
  - intros _. by apply is_empty_false in Hc.
  - congruence.
Qed.

(** ** What a decision depends on *)

(** The headers of which the decision sees the first value, trimmed. *)
Definition trust_names : list string :=
  [TRUST_JURISDICTION; TRUST_ASSURANCE; TRUST_LEGAL_BASIS; TRUST_CONSENT;
   TRUST_SOURCE_OBSERVED_AGE_SECONDS; "x-registry-source-observed-at-unix-seconds";
   "x-registry-subject-ref"; "x-registry-relationship"; "x-registry-on-behalf-of";
   "x-registry-credential-format"].

Definition same_trust_headers (h1 h2 : HeaderMap) : Prop :=
  data_purpose_values h1 = data_purpose_values h2 ∧
  ∀ n, n ∈ trust_names → trust_header_value h1 n = trust_header_value h2 n.

Lemma authorize_headers store now_at now_age m h1 h2 identity ct :
  same_trust_headers h1 h2 →
  authorize_server_purpose store now_at now_age m h1 identity ct =
  authorize_server_purpose store now_at now_age m h2 identity ct.
Proof.
  intros [Hp Hn]. unfold authorize_server_purpose, single_data_purpose. rewrite Hp.
  assert (Hc : ∀ p scopes rid sb, request_pdp_context now_at now_age p h1 identity scopes rid sb
                                = request_pdp_context now_at now_age p h2 identity scopes rid sb).
  { intros. unfold request_pdp_context, source_observed_at_unix_seconds, source_observed_age_seconds,
      source_observed_at_with_age, verified_trust_header_value.
    by rewrite !(Hn _) by (unfold trust_names; set_solver). }
  destruct (data_purpose_values h2) as [|p [|q l]]; [done| |done]. by rewrite Hc.
Qed.
End records.

(** ** Requests the log cannot tell apart *)
Section visible.
Context {PL : PercentLib} {UL : UrlLib} {SL : Sha256Lib} {PK : PkiLib} {HL : HttpLib}
  {PD : PdpLib} {AL : AuditLib} {OL : OutboundLib}.

(** The connectors agree in mode, trust, routes and log hashing key; everything else
    of the configuration may differ. *)
Record same_connector (s1 s2 : ProxyState) : Prop := {
  sc_mode : ps_mode s1 = ps_mode s2;
  sc_trust : ps_server_trust s1 = ps_server_trust s2;
  sc_hasher : ps_audit_hasher s1 = ps_audit_hasher s2;
  sc_routes : cf_routes (ps_config s1) = cf_routes (ps_config s2);
  sc_client_trust : cf_client_trust (ps_config s1) = cf_client_trust (ps_config s2);
}.

(** The surroundings agree in the clock, the log level and the measured latency; the
    environment variables, the rate window, the timeout and the upstream may differ. *)
Record same_surroundings (e1 e2 : Env) : Prop := {
  ss_verify : en_now_verify e1 = en_now_verify e2;
  ss_at : en_now_at e1 = en_now_at e2;
  ss_age : en_now_age e1 = en_now_age e2;
  ss_info : en_info e1 = en_info e2;
  ss_latency : en_latency_ms e1 = en_latency_ms e2;
}.

(** The requests agree in peer, method, path, request id and trust headers, and both
    or neither have a query; the text of the query, the body and all other headers
    may differ. *)
Record same_request (e1 e2 : Env) (r1 r2 : Request) : Prop := {
  sr_chain : rq_chain r1 = rq_chain r2;
  sr_method : rq_method r1 = rq_method r2;
  sr_path : rq_path r1 = rq_path r2;
  sr_query : is_some (rq_query r1) = is_some (rq_query r2);
  sr_id : rid_of e1 r1 = rid_of e2 r2;
  sr_headers : same_trust_headers (rq_headers r1) (rq_headers r2);
}.

Lemma server_lines_visible e1 e2 s1 s2 r1 r2 c1 c2 :
  same_connector s1 s2 → same_surroundings e1 e2 → same_request e1 e2 r1 r2 →
  cache_inv c1 → cache_inv c2 →
  server_lines e1 s1 r1 (rid_of e1 r1) c1 = server_lines e2 s2 r2 (rid_of e2 r2) c2.
Proof.
  intros [_ Ht Hh Hr Hct] [Hv Ha Hg Hi _] [Hch Hm Hp _ Hid Hhd] Hc1 Hc2.
  unfold server_lines.
  assert (Hro : routed e1 s1 r1 = routed e2 s2 r2).
  { unfold routed, identity_allowed. by rewrite Hch, Ht, Hv, Hct, Hr, Hm, Hp. }
  rewrite Hro. destruct (routed e2 s2 r2) as [[identity m]|]; [|done].
  rewrite (authorize_headers _ _ _ _ _ _ _ _ Hhd), Ha, Hg, Hct.
  destruct (authorize_caches c1 c2 (en_now_at e2) (en_now_age e2) m (rq_headers r2) identity
    (cf_client_trust (ps_config s2)) Hc1 Hc2) as (? & ? & log & o & _ & _ & -> & ->).
  unfold decision_events, authorized_lines. by rewrite Hi, Hh, Hid.
Qed.

(** A client connector writes no line before its completion line. *)
Lemma handle_client_log env state request rid w w' r :
  handle_client env state request rid w = (w', r) →
  ∃ new, w_events w' = w_events w ++ new ∧ log_lines new = [].
Proof.
  intros [(p & _ & ->)|(p & _ & Hs)]%handle_client_inv.
  - exists []. by rewrite app_nil_r.
  - apply send_upstream_inv in Hs as (_ & _ & [(_ & He & _)|(method & _ & He & _)]).
    + exists []. by rewrite app_nil_r.
    + by eexists.
Qed.

(** The lines a handler writes before its completion line. *)
Definition handler_lines (env : Env) (state : ProxyState) (request : Request) (caches : CacheStore)
    : list Event * list Event :=
  match ps_mode state with
  | Client => ([], [])
  | Server => server_lines env state request (rid_of env request) caches
  end.

Definition forwarded (out : option (Reply * CompletionLog)) : Prop :=
  ∃ resp log, out = Some (Forwarded resp, log).

Lemma proxy_handler_log env state request w w' out :
  proxy_handler env state request w = (w', out) →
  ∃ new, w_events w' = w_events w ++ new ∧
    wrote (handler_lines env state request (w_caches w)) (forwarded out) new.
Proof.
  intros (r & Hrun & Hout)%proxy_handler_inv. unfold handler_lines. destruct (ps_mode state).
  - apply handle_client_log in Hrun as (new & He & Hl). exists new. unfold wrote.
    rewrite <- (decisions_lines new), Hl. auto.
  - apply handle_server_log in Hrun as (new & He & Hw). exists new. split; [done|].
    unfold wrote in *. destruct (server_lines _ _ _ _ _) as [decided authorized].
    destruct Hw as (? & Hok & ?). split_and!; [done| |done].
    intros (resp & log & ->). apply Hok. by rewrite Hout.
Qed.

Lemma handler_lines_one env state request caches :
  length (snd (handler_lines env state request caches)) ≤ 1.
Proof.
  unfold handler_lines, server_lines. destruct (ps_mode state); [simpl; lia|].
  destruct (routed _ _ _) as [[identity m]|]; [|simpl; lia].
  destruct (authorize_server_purpose _ _ _ _ _ _ _) as [[c log] [o|p]]; simpl; [|lia].
  apply authorized_lines_one.
Qed.

(** The callers are answered alike: both forwarded with one status, or both refused with
    one problem document. *)
Definition same_answer (reply1 reply2 : Reply) : Prop :=
  match reply1, reply2 with
  | Forwarded resp1, Forwarded resp2 => rs_status resp1 = rs_status resp2
  | Refused doc1, Refused doc2 => doc1 = doc2
  | _, _ => False
  end.

(** A problem document determines the problem. *)
Lemma problem_response_inj p1 p2 : problem_response p1 = problem_response p2 → p1 = p2.
Proof.
  intros H. pose proof (f_equal problem_title H) as Ht. pose proof (f_equal problem_extra H) as He.
  destruct p1, p2; try discriminate Ht; try done. simpl in He. by injection He as ->.
Qed.

Lemma completion_visible e1 e2 s1 s2 r1 r2 w1 w2 reply1 reply2 log1 log2 :
  same_connector s1 s2 → same_surroundings e1 e2 → same_request e1 e2 r1 r2 →
  snd (proxy_handler e1 s1 r1 w1) = Some (reply1, log1) →
  snd (proxy_handler e2 s2 r2 w2) = Some (reply2, log2) →
  same_answer reply1 reply2 → log1 = log2.
Proof.
  intros [Hmode _ _ _ _] [_ _ _ _ Hlat] [_ Hm Hp Hq Hid _].
  assert (Hf : ∀ e s r w, ∃ res, snd (proxy_handler e s r w) = finish_request e s r res).
  { intros e s r w. unfold proxy_handler. destruct (ps_mode s);
      [destruct (handle_client _ _ _ _ _)|destruct (handle_server _ _ _ _ _)]; by eexists. }
  destruct (Hf e1 s1 r1 w1) as [res1 ->], (Hf e2 s2 r2 w2) as [res2 ->]. unfold rid_of in Hid.
  unfold finish_request. rewrite Hmode, Hm, Hp, Hq, Hid, Hlat.
  destruct res1 as [resp1|[p1|]], res2 as [resp2|[p2|]]; simpl; try done;
    intros [= <- <-] [= <- <-]; simpl; try done.
  - intros Heq. by rewrite Heq.
  - by intros ->%problem_response_inj.
Qed.
End visible.

(** ** Properties *)
Module Claims.
(** C20: Every policy decision leaves its record, and only decisions do.  With the
    [info] level on, a request of a server connector leaves exactly one decision line
    when the decision point was asked about it, and none otherwise, whatever becomes of
    the request afterwards (rate limited, too large, timed out, refused upstream).  The
    line names the route that was selected, its policy and the hash of the policy in
    force, the rules that were evaluated and what was decided, and the caller's answer
    agrees: a permitted request is not refused by policy, a denied one is refused with
    the stable form of the recorded code and a redaction decision as unsupported, and
    neither sends anything.  Without a line, a policy refusal is unreadable freshness
    evidence, and what is sent upstream was sent on a route without any purpose rule. *)
Theorem decisions_recorded {PL : PercentLib} {UL : UrlLib} {SL : Sha256Lib} {PK : PkiLib}
    {HL : HttpLib} {PD : PdpLib} {PDS : PdpSpec} {AL : AuditLib} {OL : OutboundLib}
    (env : Env) (state : ProxyState) (request : Request) (rid : string) (w w' : World)
    (r : result Failure Response) :
  en_info env = true → cache_inv (w_caches w) →
  handle_server env state request rid w = (w', r) →
  let asked m d := ∃ identity purpose, routed env state request = Ok (identity, m) ∧
    consulted (en_now_at env) (en_now_age env) m (rq_headers request) identity
      (cf_client_trust (ps_config state)) purpose d in
  ∃ new, w_events w' = w_events w ++ new ∧
    (∀ m d, asked m d → ∃ log, decisions new = [log] ∧ names_policy log (rm_route m) ∧ records log d ∧
       match d with
       | Permit _ => ∀ code, r ≠ Err (Problem (PdpDenied code))
       | PermitWithRedaction _ _ => r = Err (Problem (PdpDenied UNSUPPORTED_POLICY_TERM)) ∧ no_sends new
       | Deny _ code => r = Err (Problem (PdpDenied (pdp_problem_code code))) ∧ no_sends new
       end) ∧
    ((∀ m d, ¬ asked m d) → decisions new = [] ∧
       (∀ code, r = Err (Problem (PdpDenied code)) → code = EVIDENCE_STALE ∧
          ∃ identity m purpose, routed env state request = Ok (identity, m) ∧
            request_context (en_now_at env) (en_now_age env) m (rq_headers request) identity
              (cf_client_trust (ps_config state)) purpose = Err (PdpDenied EVIDENCE_STALE)) ∧
       (∀ c q, Sent c q ∈ new → ∃ identity m, routed env state request = Ok (identity, m) ∧
          ungated (rm_route m))).
Proof.
  intros Hinfo Hinv (new & He & Hcase)%handle_server_lines asked. exists new. split; [done|].
  destruct (routed env state request) as [[identity m]|p] eqn:Hro.
  2:{ destruct Hcase as [-> ->]. simpl. split; [intros m d (? & ? & ? & _); congruence|]. intros _.
      split_and!; [done| |intros c q []%not_elem_of_nil].
      intros code [= ->]. by apply routed_no_denial in Hro. }
  destruct (authorize_server_purpose _ _ _ _ _ _ _) as [[c log] o] eqn:Ea.
  apply authorize_log in Ea; [|done].
  assert (Hdec : decisions new = option_list log).
  { destruct o as [o|p]; [destruct Hcase as (rest & -> & Hp & _)|destruct Hcase as [-> _]].
    - by rewrite decisions_app, decisions_events, (prefix_no_decisions _ _ _ _ _ _ Hp), app_nil_r.
    - by rewrite decisions_events. }
  rewrite Hdec. destruct log as [log|]; simpl.
  - destruct Ea as (purpose & d & Hco & Hn & Hr & Ho).
    split; [|intros Hno; destruct (Hno m d); by exists identity, purpose].
    intros m' d' (identity' & purpose' & [= <- <-] & Hco').
    assert (d' = d) as -> by exact (consulted_fun _ _ _ _ _ _ _ _ _ _ Hco' Hco).
    exists log. split_and!; [done..|]. destruct d as [a|a fields|a code]; simpl in Ho; subst o.
    + destruct Hcase as (rest & _ & _ & _ & Hd). intros code ->. apply (Hd _ eq_refl). by eexists.
    + destruct Hcase as [-> ->]. split; [done|apply no_sends_decision].
    + destruct Hcase as [-> ->]. split; [done|apply no_sends_decision].
  - destruct Ea as [Hno Hun]. split.
    { intros m' d' (identity' & purpose' & [= <- <-] & Hco'). by apply Hno in Hco'. }
    intros _. split; [done|]. destruct o as [o|p].
    + destruct Hcase as (rest & -> & _ & _ & Hd).
      split; [intros code ->; exfalso; apply (Hd _ eq_refl); by eexists|]. intros _ _ _.
      exists identity, m. split; [done|]. destruct Hun as [[? _]|[Hin|(? & ? & _)]]; [done|set_solver|done].
    + destruct Hcase as [-> ->]. split; [|intros ? ? Hin; by apply no_sends_decision in Hin].
      intros code [= ->]. destruct Hun as [[_ [? ?]]|[Hin|(purpose & [= ->] & Hcx)]]; [done|set_solver|].
      split; [done|]. by exists identity, m, purpose.
Qed.

(** A purpose outside the list of the route is recorded as denied, and a permitted
    request over the rate limit as permitted. *)
Definition wit_full : @World ref_url ref_pki := {|
  w_limiter := {| rl_windows := {[ rate_key "spiffe://client.example/w" "relay" :=
                    {| rw_started := 0%N; rw_count := 600%N |} ]}; rl_poisoned := false |};
  w_caches := ∅; w_events := [] |}.
Definition wit_handle (request : @Request Ref.ref_http) :=
  @handle_server ref_percent ref_url ref_sha256 ref_pki Ref.ref_http ref_pdp ref_audit
    Proxy.Claims.wit_penv Proxy.Claims.wit_server request "rid" wit_full.
Definition wit_denied : @Request Ref.ref_http := Proxy.Claims.wit_request "/v1/x" "audit".
Definition wit_limited : @Request Ref.ref_http := Proxy.Claims.wit_request "/v1/x" "operations".

Lemma wit_limited_asked :
  match @routed ref_percent ref_url ref_sha256 ref_pki Ref.ref_http ref_audit Proxy.Claims.wit_penv
          Proxy.Claims.wit_server wit_limited with
  | Ok (identity, m) => ∃ d, @consulted Ref.ref_http ref_pdp ref_sha256 0%Z 0%Z m (rq_headers wit_limited)
      identity (cf_client_trust (ps_config Proxy.Claims.wit_server)) "operations" d ∧
      match d with Permit _ => True | _ => False end
  | Err _ => False
  end.
Proof.
  destruct (@routed ref_percent ref_url ref_sha256 ref_pki Ref.ref_http ref_audit Proxy.Claims.wit_penv
    Proxy.Claims.wit_server wit_limited) as [[identity m]|e] eqn:E; [|vm_compute in E; discriminate E].
  vm_compute in E. injection E as <- <-. eexists. split; [split|].
  - intros [H _]. discriminate H.
  - vm_compute. reflexivity.
  - intros _ H. vm_compute in H. discriminate H.
  - eexists. split; [vm_compute; reflexivity|reflexivity].
  - vm_compute. exact I.
Qed.

Lemma decisions_recorded_witness :
  map dl_stable_problem_code (decisions (w_events (fst (wit_handle wit_denied))))
    = [Some "pdp.purpose_not_permitted"] ∧
  snd (wit_handle wit_limited) = Err (Problem RateLimited) ∧
  ∃ log, decisions (w_events (fst (wit_handle wit_limited))) = [log] ∧
    dl_stable_problem_code log = None.
Proof.
  split; [vm_compute; reflexivity|]. split; [vm_compute; reflexivity|].
  pose proof wit_limited_asked as Hask.
  destruct (@routed ref_percent ref_url ref_sha256 ref_pki Ref.ref_http ref_audit Proxy.Claims.wit_penv
    Proxy.Claims.wit_server wit_limited) as [[identity m]|e] eqn:Hro; [|destruct Hask].
  destruct Hask as (d & Hco & Hd).
  destruct (@decisions_recorded ref_percent ref_url ref_sha256 ref_pki Ref.ref_http ref_pdp ref_pdp_spec
    ref_audit Proxy.Claims.ref_outbound Proxy.Claims.wit_penv Proxy.Claims.wit_server wit_limited "rid"
    wit_full (fst (wit_handle wit_limited)) (snd (wit_handle wit_limited)))
    as (new & He & Hasked & _).
  - reflexivity.
  - intros loc m' h Hl. discriminate Hl.
  - apply surjective_pairing.
  - destruct (Hasked m d) as (log & Hone & _ & Hrec & _).
    { exists identity, "operations". split; [exact Hro|exact Hco]. }
    exists log. rewrite He. split; [exact Hone|]. destruct d; [exact (proj1 Hrec)|destruct Hd..].
Defined.

(** C19: The log does not depend on anything confidential.  Take two requests of the same
    peer for the same method and path, with the same request id and the same
    [data-purpose] and trust headers, at the same time and log level and with the same
    measured latency, handled by connectors with the same mode, trust, routes and log
    hashing key; their query texts, bodies and other headers (credentials and cookies
    among them), the upstream credentials of the process environment, the state of the
    limiter and of the policy hash caches, the upstream's answers, the timeout and the
    rest of the configuration may all differ.  Then the decision lines of the two are the
    same; each of them writes those and then the same authorisation line or none, and
    writes it whenever it forwards; and if the two callers are answered alike, both
    forwarded with the same status or both refused with the same problem document, the
    completion lines are equal in every field. *)
Theorem log_noninterference {PL : PercentLib} {UL : UrlLib} {SL : Sha256Lib} {PK : PkiLib}
    {HL : HttpLib} {PD : PdpLib} {AL : AuditLib} {OL : OutboundLib}
    (env1 env2 : Env) (state1 state2 : ProxyState) (request1 request2 : Request) (w1 w2 : World) :
  same_connector state1 state2 → same_surroundings env1 env2 →
  same_request env1 env2 request1 request2 → cache_inv (w_caches w1) → cache_inv (w_caches w2) →
  let '(w1', out1) := proxy_handler env1 state1 request1 w1 in
  let '(w2', out2) := proxy_handler env2 state2 request2 w2 in
  ∃ new1 new2 decided authorized,
    w_events w1' = w_events w1 ++ new1 ∧ w_events w2' = w_events w2 ++ new2 ∧
    decisions new1 = decisions new2 ∧ length authorized ≤ 1 ∧
    (log_lines new1 = decided ∨ log_lines new1 = decided ++ authorized) ∧
    (log_lines new2 = decided ∨ log_lines new2 = decided ++ authorized) ∧
    (forwarded out1 → log_lines new1 = decided ++ authorized) ∧
    (forwarded out2 → log_lines new2 = decided ++ authorized) ∧
    (∀ reply1 log1 reply2 log2, out1 = Some (reply1, log1) → out2 = Some (reply2, log2) →
       same_answer reply1 reply2 → log1 = log2).
Proof.
  intros Hs He Hr Hc1 Hc2.
  destruct (proxy_handler env1 state1 request1 w1) as [w1' out1] eqn:E1.
  destruct (proxy_handler env2 state2 request2 w2) as [w2' out2] eqn:E2.
  pose proof (proxy_handler_log _ _ _ _ _ _ E1) as (new1 & He1 & Hw1).
  pose proof (proxy_handler_log _ _ _ _ _ _ E2) as (new2 & He2 & Hw2).
  assert (Hl : handler_lines env1 state1 request1 (w_caches w1)
             = handler_lines env2 state2 request2 (w_caches w2)).
  { unfold handler_lines. rewrite (sc_mode _ _ Hs). destruct (ps_mode state2); [done|].
    by apply server_lines_visible. }
  rewrite Hl in Hw1. pose proof (handler_lines_one env2 state2 request2 (w_caches w2)) as Hone.
  destruct (handler_lines env2 state2 request2 (w_caches w2)) as [decided authorized].
  destruct Hw1 as (? & ? & Hd1), Hw2 as (? & ? & Hd2).
  exists new1, new2, decided, authorized. split_and!; [done|done|congruence|done..|].
  intros reply1 log1 reply2 log2 -> ->.
  apply (completion_visible env1 env2 state1 state2 request1 request2 w1 w2 reply1 reply2); try done;
    by rewrite ?E1, ?E2.
Qed.

(** The same request twice, with other credentials, query and body, at a connector
    with another connector id. *)
Definition wit_secret (query body token : string) : @Request Ref.ref_http := {|
  rq_method := "GET"; rq_path := "/v1/x"; rq_query := Some query;
  rq_headers := ([("data-purpose", "operations"); ("cookie", token)] : @HeaderMap Ref.ref_http);
  rq_body := (body : @Body Ref.ref_http);
  rq_chain := Some ["leaf"; "ca"] |}.
Definition wit_named (id : option string) : @ProxyState ref_url ref_pki ref_audit :=
  let s := Proxy.Claims.wit_server in let c := ps_config s in {|
  ps_config := {|
    cf_listen := cf_listen c; cf_server := cf_server c; cf_client_identity := cf_client_identity c;
    cf_defaults := cf_defaults c; cf_audit := cf_audit c; cf_limits := cf_limits c;
    cf_routes := cf_routes c; cf_server_identity := cf_server_identity c;
    cf_client_trust := cf_client_trust c; cf_upstream := cf_upstream c;
    cf_allow_non_loopback_client_listen := cf_allow_non_loopback_client_listen c;
    cf_allow_dns_san_identity := cf_allow_dns_san_identity c; cf_connector_id := id |};
  ps_mode := ps_mode s; ps_client := ps_client s; ps_server_trust := ps_server_trust s;
  ps_audit_hasher := ps_audit_hasher s |}.
Definition wit_logged (id : option string) (request : @Request Ref.ref_http) :=
  Proxy.Claims.wit_run (wit_named id) request.

Lemma log_noninterference_witness :
  length (log_lines (w_events (fst (wit_logged None (wit_secret "a=1" "x" "s3cret"))))) = 2 ∧
  let '(w1', out1) := wit_logged None (wit_secret "a=1" "x" "s3cret") in
  let '(w2', out2) := wit_logged (Some "c-2") (wit_secret "b=2" "yy" "other") in
  ∃ new1 new2 decided authorized, w_events w1' = [] ++ new1 ∧ w_events w2' = [] ++ new2 ∧
    decisions new1 = decisions new2 ∧ length authorized ≤ 1 ∧
    (log_lines new1 = decided ∨ log_lines new1 = decided ++ authorized) ∧
    (log_lines new2 = decided ∨ log_lines new2 = decided ++ authorized) ∧
    (forwarded out1 → log_lines new1 = decided ++ authorized) ∧
    (forwarded out2 → log_lines new2 = decided ++ authorized) ∧
    (∀ reply1 log1 reply2 log2, out1 = Some (reply1, log1) → out2 = Some (reply2, log2) →
       same_answer reply1 reply2 → log1 = log2).
Proof.
  split; [vm_compute; reflexivity|].
  apply (@log_noninterference ref_percent ref_url ref_sha256 ref_pki Ref.ref_http ref_pdp ref_audit
    Proxy.Claims.ref_outbound Proxy.Claims.wit_penv Proxy.Claims.wit_penv (wit_named None)
    (wit_named (Some "c-2")) (wit_secret "a=1" "x" "s3cret") (wit_secret "b=2" "yy" "other")
    Proxy.Claims.wit_world Proxy.Claims.wit_world).
  - split; reflexivity.
  - split; reflexivity.
  - split; try reflexivity. split; [vm_compute; reflexivity|].
    intros n Hn. unfold trust_names in Hn.
    repeat (apply elem_of_cons in Hn as [->|Hn]; [vm_compute; reflexivity|]).
    by apply not_elem_of_nil in Hn.
  - intros loc m h Hl. discriminate Hl.
  - intros loc m h Hl. discriminate Hl.
Defined.
End Claims.
