(* ===== verification/Connection.v ===== *)
(** * One TLS connection ([src/src/main.rs], the task [run_server] spawns)

    The handshake under its timeout, the certificate chain of the peer, and the
    service that hands every request of the connection to the router.  The requests
    of a connection are handled in a sequence here; how requests interleave is in
    [Concurrent]. *)
From S2P Require Import Prelude RustStr BTree Errors External Reference Http Pdp Config Routing.
From S2P Require Import RateLimit Identity Tls PolicyHash Purpose Redaction ConfigValidate Proxy.
From Stdlib Require Import Ascii.

(** [timeout(tls_handshake_timeout, acceptor.accept(stream))], and for an established
    connection the certificates of the peer. *)
Inductive Handshake : Type :=
| Established (peer_certificates : option (list Der))
| HandshakeFailed (err : string)
| HandshakeTimedOut.

(** The protocol the connection turned out to speak. *)
Inductive Protocol : Type := Http1 | Http2.

(** What the task logs, with the remote address. *)
Inductive Warning : Type :=
| TLS_handshake_failed (remote err : string)
| TLS_handshake_timed_out (remote : string)
| connection_failed (remote err : string).

(** A request as it comes off the connection: no extension is set. *)
Record Incoming `{HttpLib} : Type := {
  in_method : Method;
  in_path : string;
  in_query : option string;
  in_headers : HeaderMap;
  in_body : Body;
}.

Definition internal_problem : ProblemDoc := {|
  problem_type := "urn:registry:problem:connector.internal";
  problem_title := "Internal connector error";
  problem_status := 500%N;
  problem_detail := "request failed inside registry trust connector";
  problem_extra := [] |}.

Section connection.
Context {PL : PercentLib} {UL : UrlLib} {SL : Sha256Lib} {PK : PkiLib} {HL : HttpLib}
  {PD : PdpLib} {AL : AuditLib} {OL : OutboundLib}.
Context (state : ProxyState).

(** The chain of the connection, if there is one, becomes the only extension of the
    request. *)
Definition attach_chain (peer_chain : option PeerCertificateChain) (req : Incoming) : Request := {|
  rq_method := in_method req; rq_path := in_path req; rq_query := in_query req;
  rq_headers := in_headers req; rq_body := in_body req;
  rq_chain := peer_chain |}.

(** [app.oneshot(req)], whose error type is empty; [None] when the handler panics. *)
Definition oneshot (env : Env) (req : Request) (w : World) : World * option (result Empty_set Reply) :=
  let '(w, out) := proxy_handler env state req w in
  (w, (λ r, Ok (fst r)) <$> out).

Definition service (peer_chain : option PeerCertificateChain) (env : Env) (req : Incoming) (w : World)
    : World * option Reply :=
  let '(w, response) := oneshot env (attach_chain peer_chain req) w in
  (w, (λ r, match r with Ok reply => reply | Err _ => Refused internal_problem end) <$> response).

Fixpoint serve_connection (peer_chain : option PeerCertificateChain) (calls : list (Env * Incoming))
    (w : World) : World * list (option Reply) :=
  match calls with
  | [] => (w, [])
  | (env, req) :: calls =>
      let '(w, reply) := service peer_chain env req w in
      let '(w, replies) := serve_connection peer_chain calls w in
      (w, reply :: replies)
  end.

(** [http1().keep_alive(false)]: an HTTP/1 connection carries one request. *)
Definition carried (protocol : Protocol) (calls : list (Env * Incoming)) : list (Env * Incoming) :=
  match protocol with Http1 => take 1 calls | Http2 => calls end.

(** The whole task, with the result of [builder.serve_connection(..)]: the replies and
    the warnings it logs. *)
Definition connection (remote : string) (handshake : Handshake) (protocol : Protocol)
    (calls : list (Env * Incoming)) (served : result string unit) (w : World)
    : World * list (option Reply) * list Warning :=
  match handshake with
  | HandshakeFailed err => (w, [], [TLS_handshake_failed remote err])
  | HandshakeTimedOut => (w, [], [TLS_handshake_timed_out remote])
  | Established certs =>
      let peer_chain : option PeerCertificateChain := certs in
      let '(w, replies) := serve_connection peer_chain (carried protocol calls) w in
      (w, replies, match served with Ok _ => [] | Err err => [connection_failed remote err] end)
  end.

(** ** What leaves on behalf of a connection *)
Context {HS : HttpSpec} {SS : Sha256Spec} {AS : AuditSpec}.
Context (venv : ValidationEnv) (require_env : bool) (environ : Environ) (config : ConnectorConfig).
Context (Hok : validate_config venv config Server require_env = Ok tt)
  (Hst : ProxyState_server environ config = Ok state).

Lemma handler_sends_peer env request w w' out :
  proxy_handler env state request w = (w', out) →
  ∃ new, w_events w' = w_events w ++ new ∧
    ∀ c q, Sent c q ∈ new → ∃ identity, peer_proved config (en_now_verify env) request identity.
Proof using Hst HS.
  intros (r & Hrun & _)%proxy_handler_inv.
  pose proof (ProxyState_server_inv _ _ _ Hst) as (_ & Hm & _). rewrite Hm in Hrun.
  apply handle_server_sends in Hrun as (new & He & [[Hns _]|(logs & p & method & Hns & Hg & _ & -> & _)]).
  { exists new. split; [done|]. intros c q Hin. by apply Hns in Hin. }
  eexists. split; [exact He|]. intros c q _. destruct Hg as [Hauth _ _ _ _ _]. eexists.
  by eapply server_auth_peer.
Qed.

Lemma handler_without_chain env request w :
  rq_chain request = None →
  fst <$> snd (proxy_handler env state request w) =
  Some (Refused (problem_response ClientIdentityMissing)).
Proof using Hst.
  intros Hn. unfold proxy_handler. pose proof (ProxyState_server_inv _ _ _ Hst) as (_ & Hm & _).
  rewrite Hm. unfold handle_server. by rewrite Hn.
Qed.

Lemma service_answers chain env req w : is_Some (snd (service chain env req w)).
Proof using Hok Hst HS SS AS.
  unfold service, oneshot.
  destruct (server_answers venv require_env environ config state env (attach_chain chain req) w Hok Hst)
    as [out Hout].
  destruct (proxy_handler env state (attach_chain chain req) w) as [w' o]. simpl in *. subst o. by eexists.
Qed.

Lemma serve_connection_sends chain calls w w' replies :
  serve_connection chain calls w = (w', replies) →
  ∃ new, w_events w' = w_events w ++ new ∧
    ∀ c q, Sent c q ∈ new → ∃ env req identity, (env, req) ∈ calls ∧
      peer_proved config (en_now_verify env) (attach_chain chain req) identity.
Proof using Hst HS.
  revert w replies. induction calls as [|[env req] calls IH]; intros w replies; simpl.
  { intros [= <- _]. exists []. split; [by rewrite app_nil_r|]. intros c q []%not_elem_of_nil. }
  unfold service, oneshot. destruct (proxy_handler env state _ w) as [w1 out] eqn:Eh.
  destruct (serve_connection chain calls w1) as [w2 rs] eqn:Es. intros [= <- _].
  apply handler_sends_peer in Eh as (new1 & He1 & Hp1). apply IH in Es as (new2 & He2 & Hp2).
  exists (new1 ++ new2). split; [by rewrite He2, He1, app_assoc|]. intros c q [Hin|Hin]%elem_of_app.
  - apply Hp1 in Hin as [identity Hp]. exists env, req, identity. split; [left|done].
  - apply Hp2 in Hin as (env' & req' & identity & Hin & Hp). exists env', req', identity. split; [by right|done].
Qed.

Lemma serve_connection_answers chain calls w w' replies :
  serve_connection chain calls w = (w', replies) →
  length replies = length calls ∧ Forall is_Some replies.
Proof using Hok Hst HS SS AS.
  revert w replies. induction calls as [|[env req] calls IH]; intros w replies; simpl; [by intros [= _ <-]|].
  pose proof (service_answers chain env req w) as Ha.
  destruct (service chain env req w) as [w1 reply]. destruct (serve_connection chain calls w1) as [w2 rs] eqn:Es.
  intros [= <- <-]. apply IH in Es as [Hl Hf]. split; [simpl; by f_equal|by constructor].
Qed.

Lemma serve_anonymous calls w w' replies :
  serve_connection None calls w = (w', replies) →
  Forall (λ r, r = Some (Refused (problem_response ClientIdentityMissing))) replies.
Proof using Hst.
  revert w replies. induction calls as [|[env req] calls IH]; intros w replies; simpl; [by intros [= _ <-]|].
  unfold service, oneshot. pose proof (handler_without_chain env (attach_chain None req) w eq_refl) as Ha.
  destruct (proxy_handler env state _ w) as [w1 out]. destruct (serve_connection None calls w1) as [w2 rs] eqn:Es.
  intros [= <- <-]. simpl in Ha. constructor; [|by eapply IH].
  destruct out as [[reply log]|]; simpl in *; congruence.
Qed.
End connection.

(** ** Properties *)
Module Claims.
(** C23: What a connection can do is decided by its TLS peer.  With a validated
    configuration, every request of an established connection is answered, at most one
    on an HTTP/1 connection; whatever
    is sent upstream on its behalf is sent for a request of that connection whose
    identity was proved by the certificates of that very handshake; a peer without
    certificate gets the same refusal every time; and after a failed or late
    handshake nothing is handled at all. *)
Theorem connection_bound_to_peer {PL : PercentLib} {UL : UrlLib} {SL : Sha256Lib} {SS : Sha256Spec}
    {PK : PkiLib} {HL : HttpLib} {HS : HttpSpec} {PD : PdpLib} {AL : AuditLib} {AS : AuditSpec}
    {OL : OutboundLib} (venv : ValidationEnv) (require_env : bool) (environ : Environ)
    (config : ConnectorConfig) (state : ProxyState) (remote : string) (handshake : Handshake)
    (protocol : Protocol) (calls : list (Env * Incoming)) (served : result string unit)
    (w w' : World) (replies : list (option Reply)) (warnings : list Warning) :
  validate_config venv config Server require_env = Ok tt →
  ProxyState_server environ config = Ok state →
  connection state remote handshake protocol calls served w = (w', replies, warnings) →
  match handshake with
  | Established certs =>
      length replies = length (carried protocol calls) ∧ (protocol = Http1 → length replies ≤ 1) ∧
      Forall is_Some replies ∧ (warnings = [] ↔ is_ok served = true) ∧
      (certs = None → Forall (λ r, r = Some (Refused (problem_response ClientIdentityMissing))) replies) ∧
      ∃ new, w_events w' = w_events w ++ new ∧
        ∀ c q, Sent c q ∈ new → ∃ leaf rest env req identity,
          certs = Some (leaf :: rest) ∧ (env, req) ∈ calls ∧
          extract_peer_identity_from_der (vc_identity (en_now_verify env)) leaf (cf_allow_dns_san_identity config)
            = Ok identity ∧
          peer_proved config (en_now_verify env) (attach_chain certs req) identity
  | _ => w' = w ∧ replies = [] ∧ length warnings = 1
  end.
Proof.
  intros Hok Hst. destruct handshake as [certs|err|]; [|by intros [= <- <- <-]..]. simpl.
  destruct (serve_connection state certs _ w) as [w1 rs] eqn:E. intros [= <- <- <-].
  pose proof (serve_connection_answers state venv require_env environ config Hok Hst certs _ w w1 rs E) as [Hl Hf].
  destruct (serve_connection_sends state environ config Hst certs _ w w1 rs E) as (new & He & Hp).
  split_and!; [done| |done|by destruct served| |].
  - intros ->. rewrite Hl. simpl. rewrite length_take. lia.
  - intros ->. exact (serve_anonymous state environ config Hst _ w w1 rs E).
  - exists new. split; [done|]. intros c q (env & req & identity & Hin & Hpp)%Hp.
    destruct (pp_chain _ _ _ _ Hpp) as (trust & leaf & rest & roots & v & _ & Hc & Hx & _).
    exists leaf, rest, env, req, identity. split_and!; [by simpl in Hc; destruct certs| |done..].
    destruct protocol; [|done]. apply elem_of_take in Hin as (i & Hi & _). by eapply list_elem_of_lookup_2.
Qed.

(** A connection with the client's certificate that makes one request. *)
Definition wit_incoming : @Incoming Ref.ref_http := {|
  in_method := "GET"; in_path := "/v1/x"; in_query := None;
  in_headers := ([("data-purpose", "operations")] : @HeaderMap Ref.ref_http);
  in_body := ("hello" : @Body Ref.ref_http) |}.
Definition wit_connection (handshake : Handshake) :=
  @connection ref_percent ref_url ref_sha256 ref_pki Ref.ref_http ref_pdp ref_audit Proxy.Claims.wit_server
    "192.0.2.7:50000" handshake Http1
    [(Proxy.Claims.wit_penv, wit_incoming); (Proxy.Claims.wit_penv, wit_incoming)] (Ok tt)
    Proxy.Claims.wit_world.

Lemma connection_bound_to_peer_witness :
  let '(w, replies, warnings) := wit_connection (Established (Some ["leaf"; "ca"])) in
  length (w_events w) = 3 ∧ length replies = 1 ∧ length replies ≤ 1 ∧ Forall is_Some replies ∧
  warnings = [].
Proof.
  destruct (wit_connection (Established (Some ["leaf"; "ca"]))) as [[w replies] warnings] eqn:E.
  split.
  - assert (H : length (w_events (fst (fst (wit_connection (Established (Some ["leaf"; "ca"])))))) = 3)
      by (vm_compute; reflexivity).
    rewrite E in H. exact H.
  - destruct (@connection_bound_to_peer ref_percent ref_url ref_sha256 ref_sha256_spec ref_pki Ref.ref_http
      Ref.ref_http_spec ref_pdp ref_audit ref_audit_spec Proxy.Claims.ref_outbound
      ConfigValidate.Claims.wit_env true ConfigValidate.Claims.wit_environ
      (ps_config Proxy.Claims.wit_server) Proxy.Claims.wit_server "192.0.2.7:50000"
      (Established (Some ["leaf"; "ca"])) Http1
      [(Proxy.Claims.wit_penv, wit_incoming); (Proxy.Claims.wit_penv, wit_incoming)] (Ok tt)
      Proxy.Claims.wit_world w replies warnings)
      as (Hl & Hone & Hf & Hw & _).
    + vm_compute. reflexivity.
    + vm_compute. reflexivity.
    + exact E.
    + split; [exact Hl|]. split; [exact (Hone eq_refl)|]. split; [exact Hf|by apply Hw].
Defined.
End Claims.
