(* ===== verification/Concurrent.v ===== *)
(** * Concurrent requests ([src/src/proxy.rs], [router] and the handlers)

    The runtime serves many requests at once.  Handlers share two objects, the
    policy hash caches and the rate limiter, each behind a mutex, and the outside
    world, to which they log and send.  Here a handler is a program over those
    atomic accesses and the points at which it waits, cut where other requests can run in
    between; whether the timeout strikes in a wait is said by the environment of the
    request, as in [Proxy] ([Timing] says when it does).  [run_prog] executes a program
    alone and is shown to be the handler of [Proxy].  The router admits a
    request while fewer than [max_concurrent_requests] are in flight, as
    [ConcurrencyLimitLayer] documents, and otherwise lets it wait.  A caller that goes
    away drops its request at whatever access it has reached. *)
From S2P Require Import Prelude RustStr BTree Errors External Reference Http Pdp Config Routing.
From S2P Require Import RateLimit Identity Tls PolicyHash Purpose Redaction ConfigValidate Proxy.
From stdpp Require Import relations.
From Stdlib Require Import Ascii.

Section concurrent.
Context {PL : PercentLib} {UL : UrlLib} {SL : Sha256Lib} {PK : PkiLib} {HL : HttpLib}
  {PD : PdpLib} {AL : AuditLib} {OL : OutboundLib}.

(** ** Atomic accesses *)
Inductive Op : Type → Type :=
| Authorize (m : RouteMatch) (headers : HeaderMap) (identity : PeerIdentity)
    (ct : option ClientTrustConfig) : Op (result ConnectorProblem (option string))
| RateCheck (identity route_id : string) (limit : N) : Op (result ConnectorProblem unit)
| Emit (e : Event) : Op unit
| Wait (at_ : AwaitPoint) : Op bool.

(** Whether the timeout of the request strikes while it waits at this point. *)
Definition strikes (env : Env) (at_ : AwaitPoint) : bool :=
  match en_timeout env, at_ with
  | Some AtBody, AtBody | Some AtSend, AtSend | Some AtResponse, AtResponse => true
  | _, _ => false
  end.

(** The answer, the shared objects afterwards, and what became visible. *)
Definition exec_op {X} (env : Env) (op : Op X) (l : RequestRateLimiter) (c : CacheStore)
    : X * RequestRateLimiter * CacheStore * list Event :=
  match op in Op X return X * RequestRateLimiter * CacheStore * list Event with
  | Authorize m headers identity ct =>
      let '(c', log, r) :=
        authorize_server_purpose c (en_now_at env) (en_now_age env) m headers identity ct in
      (r, l, c', decision_events env log)
  | RateCheck identity route_id limit =>
      let '(l', r) := rate_check l (en_instant env) identity route_id limit in
      (r, l', c, [])
  | Emit e => (tt, l, c, [e])
  | Wait at_ => (strikes env at_, l, c, [])
  end.

(** ** Programs *)
Inductive prog (A : Type) : Type :=
| Done (r : result Failure A)
| Act {X} (op : Op X) (k : X → prog A).

Arguments Done {A} r.
Arguments Act {A X} op k.

Fixpoint p_bind {A B} (p : prog A) (k : A → prog B) : prog B :=
  match p with
  | Done (Ok a) => k a
  | Done (Err f) => Done (Err f)
  | Act op k' => Act op (λ x, p_bind (k' x) k)
  end.

Definition p_lift {A} (r : result ConnectorProblem A) : prog A := Done (map_err Problem r).
Definition p_or_panic {A} (o : option A) : prog A := Done (ok_or Panicked o).
Definition p_act {A} (op : Op (result ConnectorProblem A)) : prog A :=
  Act op (λ r, Done (map_err Problem r)).
Definition p_emit (e : Event) : prog unit := Act (Emit e) (λ _, Done (Ok tt)).
Definition p_await {A} (at_ : AwaitPoint) (r : result ConnectorProblem A) : prog A :=
  Act (Wait at_) (λ late, p_lift (if late then Err RequestTimeout else r)).

(** A program alone, from a limiter and the caches. *)
Fixpoint run_prog {A} (env : Env) (p : prog A) (l : RequestRateLimiter) (c : CacheStore)
    : result Failure A * RequestRateLimiter * CacheStore * list Event :=
  match p with
  | Done r => (r, l, c, [])
  | Act op k =>
      let '(x, l, c, es) := exec_op env op l c in
      let '(r, l, c, es') := run_prog env (k x) l c in
      (r, l, c, es ++ es')
  end.
End concurrent.
Arguments Done {UL PK HL A} r.
Arguments Act {UL PK HL A X} op k.

Notation "x <~ e ; k" := (p_bind e (λ x, k))
  (at level 100, e at next level, right associativity) : connector_scope.
Notation "e ;~ k" := (p_bind e (λ _ : unit, k))
  (at level 100, right associativity) : connector_scope.
Local Open Scope connector_scope.

Section programs.
Context {PL : PercentLib} {UL : UrlLib} {SL : Sha256Lib} {PK : PkiLib} {HL : HttpLib}
  {PD : PdpLib} {AL : AuditLib} {OL : OutboundLib}.

(** ** The handlers, cut at their shared accesses *)
Definition send_upstream_p (env : Env) (client : HttpClient) (method : Method) (url : Url)
    (headers : HeaderMap) (body : Bytes) (max_body_bytes : N) : prog Response :=
  reqwest_method <~ p_lift (ok_or ConfigInvalid (method_from_bytes method));
  let request := {| ob_method := reqwest_method; ob_url := url;
                    ob_headers := named_headers headers; ob_body := body |} in
  p_emit (Sent client request);~
  response <~ p_await AtSend
    (map_err (λ _, UpstreamUnavailable) (en_upstream env client request));
  status <~ p_lift (ok_or UpstreamUnavailable (status_from_u16 (resp_status response)));
  let response_headers := hm_iter (filter_proxy_response_headers (resp_headers response)) in
  body <~ p_await AtResponse
    (map_err (λ _, UpstreamUnavailable) (read_bounded response max_body_bytes));
  _ <~ p_lift (map_err (λ _, UpstreamUnavailable) (builder_body status response_headers body));
  Done (Ok {| rs_status := status; rs_headers := response_headers; rs_body := body |}).

Definition handle_client_p (env : Env) (state : ProxyState) (request : Request) (request_id : string)
    : prog Response :=
  let config := ps_config state in
  route_match <~ p_lift (map_err (λ _, RouteDenied)
    (find_client_route (cf_routes config) (rq_method request) (rq_path request)));
  purpose <~ p_lift (resolve_client_purpose config route_match (rq_headers request));
  body <~ p_await AtBody (read_limited_body (rq_body request) (max_body_bytes config));
  server <~ p_lift (ok_or ConfigInvalid (cf_server config));
  url <~ p_lift (ok_or ConfigInvalid
    (build_url (sv_url server) (rm_upstream_path route_match) (rq_query request)));
  headers <~ p_lift (client_headers config route_match purpose request_id (rq_headers request));
  send_upstream_p env (ps_client state) (rq_method request) url headers body (max_body_bytes config).

Definition log_authorized_p (env : Env) (state : ProxyState) (route_match : RouteMatch)
    (identity : PeerIdentity) (request_id : string) : prog unit :=
  if negb (en_info env) then Done (Ok tt) else
  hasher <~ p_lift (ok_or ConfigInvalid (ps_audit_hasher state));
  identity_hash <~ p_or_panic (identity_hash_for_log hasher (pi_value identity));
  cert_hash <~ p_or_panic (certificate_hash_for_log hasher (pi_fingerprint_sha256 identity));
  p_emit (Authorized (rt_id (rm_route route_match)) identity_hash cert_hash request_id).

Definition handle_server_p (env : Env) (state : ProxyState) (request : Request) (request_id : string)
    : prog Response :=
  let config := ps_config state in
  chain <~ p_lift (ok_or ClientIdentityMissing (rq_chain request));
  trust <~ p_lift (ok_or ConfigInvalid (ps_server_trust state));
  identity <~ p_lift (map_err (λ _, ClientIdentityDenied) (verify_peer (en_now_verify env) trust chain));
  if negb (identity_allowed config identity) then p_lift (Err ClientIdentityDenied) else
  route_match <~ p_lift (map_err (λ _, RouteDenied)
    (find_server_route (cf_routes config) (rq_method request) (rq_path request) (pi_value identity)));
  authorized_purpose <~
    p_act (Authorize route_match (rq_headers request) identity (cf_client_trust config));
  p_act (RateCheck (pi_value identity) (rt_id (rm_route route_match))
    (lm_max_requests_per_identity_per_minute (cf_limits config)));~
  body <~ p_await AtBody (read_limited_body (rq_body request) (max_body_bytes config));
  upstream <~ p_lift (ok_or ConfigInvalid (cf_upstream config));
  url <~ p_lift (ok_or ConfigInvalid
    (build_url (up_base_url upstream) (rm_upstream_path route_match) (rq_query request)));
  headers <~ p_lift (server_headers env config upstream route_match identity authorized_purpose
    request_id (rq_headers request));
  log_authorized_p env state route_match identity request_id;~
  send_upstream_p env (ps_client state) (rq_method request) url headers body (max_body_bytes config).

Definition handler_p (env : Env) (state : ProxyState) (request : Request) : prog Response :=
  let rid := request_id (en_ulid env) (rq_headers request) in
  match ps_mode state with
  | Client => handle_client_p env state request rid
  | Server => handle_server_p env state request rid
  end.

(** ** A program alone is the handler *)
Definition as_handler {A} (env : Env) (p : prog A) : Handler A := λ w,
  let '(r, l, c, es) := run_prog env p (w_limiter w) (w_caches w) in
  ({| w_limiter := l; w_caches := c; w_events := w_events w ++ es |}, r).

Lemma world_eta w : {| w_limiter := w_limiter w; w_caches := w_caches w; w_events := w_events w ++ [] |} = w.
Proof. destruct w. simpl. by rewrite app_nil_r. Qed.

Lemma as_handler_bind {A B} env (p : prog A) (k : A → prog B) (k' : A → Handler B) w :
  (∀ a w, as_handler env (k a) w = k' a w) →
  as_handler env (p_bind p k) w = h_bind (as_handler env p) k' w.
Proof.
  intros Hk. revert w. induction p as [r|X op k0 IH]; intros w.
  - unfold h_bind, as_handler at 2. simpl. rewrite world_eta. destruct r as [a|f]; [apply Hk|].
    unfold as_handler. simpl. by rewrite world_eta.
  - unfold h_bind, as_handler. simpl.
    destruct (exec_op env op (w_limiter w) (w_caches w)) as [[[x l] c] es].
    specialize (IH x {| w_limiter := l; w_caches := c; w_events := w_events w ++ es |}).
    unfold h_bind, as_handler in IH. simpl in IH.
    destruct (run_prog env (p_bind (k0 x) k) l c) as [[[r1 l1] c1] es1].
    destruct (run_prog env (k0 x) l c) as [[[r2 l2] c2] es2].
    rewrite <- app_assoc in IH. rewrite app_assoc in IH. rewrite <- !app_assoc in IH. exact IH.
Qed.

Lemma as_handler_lift {A} env (r : result ConnectorProblem A) w :
  as_handler env (p_lift r) w = lift r w.
Proof. unfold as_handler. simpl. by rewrite world_eta. Qed.

Lemma as_handler_await {A} env a (r : result ConnectorProblem A) w :
  as_handler env (p_await a r) w = await env a r w.
Proof.
  unfold as_handler, await. simpl. rewrite world_eta. unfold strikes.
  by destruct (en_timeout env) as [[]|], a.
Qed.

Lemma as_handler_emit env e w : as_handler env (p_emit e) w = emit e w.
Proof. done. Qed.

Lemma as_handler_done {A} env (a : A) w : as_handler env (Done (Ok a)) w = h_ret a w.
Proof. unfold as_handler. simpl. by rewrite world_eta. Qed.

Lemma as_handler_or_panic {A} env (o : option A) w :
  as_handler env (p_or_panic o) w = or_panic o w.
Proof. unfold as_handler. simpl. by rewrite world_eta. Qed.

Lemma as_handler_authorize env m h id ct w :
  as_handler env (p_act (Authorize m h id ct)) w = authorize_m env m h id ct w.
Proof.
  unfold as_handler, authorize_m. simpl. destruct (authorize_server_purpose _ _ _ _ _ _ _) as [[c log] r].
  simpl. by rewrite app_nil_r.
Qed.

Lemma as_handler_rate env i r limit w :
  as_handler env (p_act (RateCheck i r limit)) w = rate_check_m env i r limit w.
Proof.
  unfold as_handler, rate_check_m. simpl. destruct (rate_check _ _ _ _ _) as [l x].
  simpl. by rewrite app_nil_r.
Qed.

Lemma as_handler_seq {A B} env (p : prog A) (e : Handler A) (k : A → prog B) (k' : A → Handler B) w :
  (∀ w, as_handler env p w = e w) → (∀ a w, as_handler env (k a) w = k' a w) →
  as_handler env (p_bind p k) w = h_bind e k' w.
Proof. intros Hp Hk. rewrite (as_handler_bind _ _ _ k') by done. unfold h_bind. by rewrite Hp. Qed.
End programs.

Create HintDb handlers.
#[export] Hint Resolve as_handler_lift as_handler_await as_handler_emit as_handler_done
  as_handler_or_panic as_handler_authorize as_handler_rate : handlers.
#[export] Hint Extern 2 (as_handler _ (p_bind _ _) _ = h_bind _ _ _) =>
  apply as_handler_seq; intros : handlers.

Section alone.
Context {PL : PercentLib} {UL : UrlLib} {SL : Sha256Lib} {PK : PkiLib} {HL : HttpLib}
  {PD : PdpLib} {AL : AuditLib} {OL : OutboundLib}.

Lemma send_upstream_alone env client method url headers body max w :
  as_handler env (send_upstream_p env client method url headers body max) w
  = send_upstream env client method url headers body max w.
Proof. unfold send_upstream_p, send_upstream. auto 20 with handlers. Qed.

Lemma log_authorized_alone env state m identity rid w :
  as_handler env (log_authorized_p env state m identity rid) w = log_authorized env state m identity rid w.
Proof. unfold log_authorized_p, log_authorized. destruct (negb (en_info env)); auto 20 with handlers. Qed.
Hint Resolve send_upstream_alone log_authorized_alone : handlers.

Lemma handle_client_alone env state request rid w :
  as_handler env (handle_client_p env state request rid) w = handle_client env state request rid w.
Proof. unfold handle_client_p, handle_client. auto 20 with handlers. Qed.

Lemma handle_server_alone env state request rid w :
  as_handler env (handle_server_p env state request rid) w = handle_server env state request rid w.
Proof.
  unfold handle_server_p, handle_server.
  do 3 (apply as_handler_seq; [auto with handlers|intros ? ?]).
  destruct (negb _); auto 30 with handlers.
Qed.
End alone.

(** ** Programs and the shared objects *)
Section shared.
Context {PL : PercentLib} {UL : UrlLib} {SL : Sha256Lib} {PK : PkiLib} {HL : HttpLib}
  {PD : PdpLib} {AL : AuditLib} {OL : OutboundLib}.

(** What a program answers, the limiter it leaves, and what becomes visible. *)
Definition obs {A} (env : Env) (p : prog A) (l : RequestRateLimiter) (c : CacheStore)
    : result Failure A * RequestRateLimiter * list Event :=
  let '(r, l, _, es) := run_prog env p l c in (r, l, es).

Lemma exec_op_caches {X} env (op : Op X) l c1 c2 x l' c' es :
  cache_inv c1 → cache_inv c2 → exec_op env op l c1 = (x, l', c', es) →
  cache_inv c' ∧ ∃ c2', exec_op env op l c2 = (x, l', c2', es) ∧ cache_inv c2'.
Proof.
  intros H1 H2. destruct op as [m h id ct|i r limit|e|a]; simpl.
  - destruct (authorize_caches c1 c2 (en_now_at env) (en_now_age env) m h id ct H1 H2)
      as (s1 & s2 & log & r & Hi1 & Hi2 & -> & ->). intros [= <- <- <- <-]. eauto.
  - destruct (rate_check _ _ _ _ _). intros [= <- <- <- <-]. eauto.
  - intros [= <- <- <- <-]. eauto.
  - intros [= <- <- <- <-]. eauto.
Qed.

(** The caches are invisible to a whole program. *)
Lemma run_prog_caches {A} env (p : prog A) l c1 c2 :
  cache_inv c1 → cache_inv c2 →
  obs env p l c1 = obs env p l c2 ∧ cache_inv (snd (fst (run_prog env p l c1))).
Proof.
  revert l c1 c2. induction p as [r|X op k IH]; intros l c1 c2 H1 H2; [done|].
  unfold obs in *. simpl. destruct (exec_op env op l c1) as [[[x l'] c'] es] eqn:E.
  apply (exec_op_caches _ _ _ _ c2) in E as (Hi & c2' & -> & Hi2); [|done..].
  destruct (IH x l' c' c2' Hi Hi2) as [Heq Hinv].
  destruct (run_prog env (k x) l' c') as [[[? ?] ?] ?], (run_prog env (k x) l' c2') as [[[? ?] ?] ?].
  simpl in *. split; [congruence|done].
Qed.

(** ** When a program consults the limiter *)
Definition is_rate {X} (op : Op X) : bool := match op with RateCheck _ _ _ => true | _ => false end.

Fixpoint no_rate {A} (p : prog A) : Prop :=
  match p with
  | Done _ => True
  | Act op k => is_rate op = false ∧ ∀ x, no_rate (k x)
  end.

Fixpoint rate_once {A} (p : prog A) : Prop :=
  match p with
  | Done _ => True
  | Act op k => ∀ x, if is_rate op then no_rate (k x) else rate_once (k x)
  end.

Lemma no_rate_once {A} (p : prog A) : no_rate p → rate_once p.
Proof. induction p as [r|X op k IH]; [done|]. simpl. intros [-> H] x. by apply IH. Qed.

Lemma no_rate_bind {A B} (p : prog A) (k : A → prog B) :
  no_rate p → (∀ a, no_rate (k a)) → no_rate (p_bind p k).
Proof.
  induction p as [[a|f]|X op k' IH]; simpl; [by auto|done|]. intros [? Hp] Hk. split; auto.
Qed.

Lemma rate_once_bind {A B} (p : prog A) (k : A → prog B) :
  no_rate p → (∀ a, rate_once (k a)) → rate_once (p_bind p k).
Proof.
  induction p as [[a|f]|X op k' IH]; simpl; [by auto|done|]. intros [-> Hp] Hk x. auto.
Qed.

Lemma rate_then {A B} (p : prog A) (k : A → prog B) :
  rate_once p → (∀ a, no_rate (k a)) → rate_once (p_bind p k).
Proof.
  induction p as [[a|f]|X op k' IH]; simpl; [by auto using no_rate_once|done|].
  intros Hp Hk x. specialize (Hp x). destruct (is_rate op); auto using no_rate_bind.
Qed.

Lemma no_rate_lift {A} (r : result ConnectorProblem A) : no_rate (p_lift r).
Proof. done. Qed.
Lemma no_rate_await {A} a (r : result ConnectorProblem A) : no_rate (p_await a r).
Proof. done. Qed.
Lemma no_rate_emit e : no_rate (p_emit e).
Proof. done. Qed.
Lemma no_rate_done {A} (r : result Failure A) : no_rate (Done r).
Proof. done. Qed.
Lemma no_rate_panic {A} (o : option A) : no_rate (p_or_panic o).
Proof. done. Qed.

(** A program that does not consult the limiter neither depends on it nor changes it. *)
Lemma no_rate_run {A} env (p : prog A) l l2 c r l' es :
  no_rate p → obs env p l c = (r, l', es) → l' = l ∧ obs env p l2 c = (r, l2, es).
Proof.
  revert l l2 c r l' es. induction p as [r0|X op k IH]; intros l l2 c r l' es.
  { intros _ [= <- <- <-]. done. }
  unfold obs in *. simpl. intros [Hr Hp].
  assert (He : ∃ x c1 es1, ∀ l, exec_op env op l c = (x, l, c1, es1)).
  { destruct op; simpl in *; [|done|eauto..].
    destruct (authorize_server_purpose _ _ _ _ _ _ _) as [[? ?] ?]. eauto. }
  destruct He as (x & c1 & es1 & He). rewrite !He.
  destruct (run_prog env (k x) l c1) as [[[r1 l1] c2] es2] eqn:E. intros [= -> -> <-].
  specialize (IH x l l2 c1 r l' es2 (Hp x)). rewrite E in IH. destruct (IH eq_refl) as [-> IH'].
  destruct (run_prog env (k x) l2 c1) as [[[? ?] ?] ?]. injection IH' as -> -> ->. done.
Qed.
End shared.

#[export] Hint Resolve no_rate_lift no_rate_await no_rate_emit no_rate_done no_rate_panic : handlers.
#[export] Hint Extern 2 (no_rate (p_bind _ _)) => apply no_rate_bind; [|intros ?] : handlers.

Section handlers_once.
Context {PL : PercentLib} {UL : UrlLib} {SL : Sha256Lib} {PK : PkiLib} {HL : HttpLib}
  {PD : PdpLib} {AL : AuditLib} {OL : OutboundLib}.

Lemma no_rate_send env client method url headers body max :
  no_rate (send_upstream_p env client method url headers body max).
Proof. unfold send_upstream_p. auto 20 with handlers. Qed.

Lemma no_rate_log env state m identity rid : no_rate (log_authorized_p env state m identity rid).
Proof. unfold log_authorized_p. destruct (negb (en_info env)); auto 20 with handlers. Qed.
Hint Resolve no_rate_send no_rate_log : handlers.

Lemma handler_p_once env state request : rate_once (handler_p env state request).
Proof.
  unfold handler_p. destruct (ps_mode state).
  - apply no_rate_once. unfold handle_client_p. auto 30 with handlers.
  - unfold handle_server_p. do 3 (apply rate_once_bind; [auto with handlers|intros ?]).
    destruct (negb _); [done|]. apply rate_once_bind; [auto with handlers|intros ?].
    apply rate_once_bind; [done|intros ?]. apply rate_then; [done|]. intros ?. auto 30 with handlers.
Qed.

(** The handler of [Proxy], in terms of the program. *)
Lemma proxy_handler_alone env state request l c es0 :
  proxy_handler env state request {| w_limiter := l; w_caches := c; w_events := es0 |} =
  let '(r, l, c, es) := run_prog env (handler_p env state request) l c in
  ({| w_limiter := l; w_caches := c; w_events := es0 ++ es |}, finish_request env state request r).
Proof.
  set (w := {| w_limiter := l; w_caches := c; w_events := es0 |}).
  assert (H : as_handler env (handler_p env state request) w =
    let '(r, l, c, es) := run_prog env (handler_p env state request) l c in
    ({| w_limiter := l; w_caches := c; w_events := es0 ++ es |}, r)) by done.
  unfold proxy_handler. unfold handler_p in H. destruct (ps_mode state) eqn:Em.
  - rewrite <- handle_client_alone, H. unfold handler_p. rewrite Em.
    by destruct (run_prog _ _ _ _) as [[[? ?] ?] ?].
  - rewrite <- handle_server_alone, H. unfold handler_p. rewrite Em.
    by destruct (run_prog _ _ _ _) as [[[? ?] ?] ?].
Qed.
End handlers_once.

(** ** Requests in flight *)
Module Router.
Section router.
Context {PL : PercentLib} {UL : UrlLib} {SL : Sha256Lib} {PK : PkiLib} {HL : HttpLib}
  {PD : PdpLib} {AL : AuditLib} {OL : OutboundLib}.

(** A request with what its handling reads from the outside. *)
Definition Job : Type := Env * Request.

(** What became visible of a request, and how it ended. *)
Definition Transcript : Type := list Event * option (Reply * CompletionLog).

Record Task : Type := { tk_job : Job; tk_prog : prog Response; tk_events : list Event }.

Record Sys : Type := {
  sy_limiter : RequestRateLimiter;
  sy_caches : CacheStore;
  sy_jobs : gmap nat Job;
  sy_running : gmap nat Task;
  sy_done : gmap nat Transcript;
  sy_dropped : gmap nat (list Event);
}.

Definition init (l : RequestRateLimiter) (c : CacheStore) : Sys :=
  {| sy_limiter := l; sy_caches := c; sy_jobs := ∅; sy_running := ∅; sy_done := ∅;
     sy_dropped := ∅ |}.

Inductive Label : Type :=
| Admit (n : nat) (job : Job)
| Advance (n : nat)
| Drop (n : nat).

(** What has become visible of a request so far. *)
Definition visible (s : Sys) (n : nat) : option (list Event) :=
  match sy_done s !! n, sy_running s !! n with
  | Some tr, _ => Some tr.1
  | None, Some t => Some (tk_events t)
  | None, None => sy_dropped s !! n
  end.

Definition is_sent (e : Event) : bool :=
  match e with Sent _ _ => true | Decided _ | Authorized _ _ _ _ => false end.
Definition has_sent (es : list Event) : bool := existsb is_sent es.

Lemma no_sends_has_sent es : no_sends es → has_sent es = false.
Proof.
  intros H. apply not_true_iff_false. unfold has_sent. rewrite existsb_elem_of.
  intros ([c q| |] & Hin & He); [|done..]. by apply H in Hin.
Qed.

Lemma has_sent_app es1 es2 : has_sent (es1 ++ es2) = has_sent es1 || has_sent es2.
Proof. apply existsb_app. Qed.

Lemma has_sent_prefix es1 es2 : es1 `prefix_of` es2 → has_sent es1 = true → has_sent es2 = true.
Proof. intros [k ->] H. by rewrite has_sent_app, H. Qed.

Context (state : ProxyState).

(** The limit of [router]. *)
Definition max_in_flight : nat := N.to_nat (lm_max_concurrent_requests (cf_limits (ps_config state))).

(** The router takes a request, or a request in flight makes its next shared
    access or ends, or its connection goes away and its handler is dropped where it
    is. *)
Definition step (s : Sys) (lbl : Label) : option Sys :=
  match lbl with
  | Admit n job =>
      if bool_decide (sy_jobs s !! n = None) && (size (sy_running s) <? max_in_flight)%nat
      then Some {| sy_limiter := sy_limiter s; sy_caches := sy_caches s;
                   sy_jobs := <[n := job]> (sy_jobs s);
                   sy_running := <[n := {| tk_job := job; tk_prog := handler_p job.1 state job.2;
                                           tk_events := [] |}]> (sy_running s);
                   sy_done := sy_done s; sy_dropped := sy_dropped s |}
      else None
  | Advance n =>
      t ← sy_running s !! n;
      match tk_prog t with
      | Act op k =>
          let '(x, l, c, es) := exec_op (tk_job t).1 op (sy_limiter s) (sy_caches s) in
          Some {| sy_limiter := l; sy_caches := c; sy_jobs := sy_jobs s;
                  sy_running := <[n := {| tk_job := tk_job t; tk_prog := k x;
                                          tk_events := tk_events t ++ es |}]> (sy_running s);
                  sy_done := sy_done s; sy_dropped := sy_dropped s |}
      | Done r =>
          Some {| sy_limiter := sy_limiter s; sy_caches := sy_caches s; sy_jobs := sy_jobs s;
                  sy_running := delete n (sy_running s);
                  sy_done := <[n := (tk_events t,
                    finish_request (tk_job t).1 state (tk_job t).2 r)]> (sy_done s);
                  sy_dropped := sy_dropped s |}
      end
  | Drop n =>
      t ← sy_running s !! n;
      Some {| sy_limiter := sy_limiter s; sy_caches := sy_caches s; sy_jobs := sy_jobs s;
              sy_running := delete n (sy_running s); sy_done := sy_done s;
              sy_dropped := <[n := tk_events t]> (sy_dropped s) |}
  end.

Fixpoint steps (s : Sys) (schedule : list Label) : option Sys :=
  match schedule with
  | [] => Some s
  | lbl :: schedule => s ← step s lbl; steps s schedule
  end.

(** The same requests one after the other. *)
Fixpoint serve (l : RequestRateLimiter) (c : CacheStore) (jobs : list (nat * Job))
    : RequestRateLimiter * CacheStore * list (nat * Transcript) :=
  match jobs with
  | [] => (l, c, [])
  | (n, job) :: jobs =>
      let '(w, out) := proxy_handler job.1 state job.2
        {| w_limiter := l; w_caches := c; w_events := [] |} in
      let '(l, c, ts) := serve (w_limiter w) (w_caches w) jobs in
      (l, c, (n, (w_events w, out)) :: ts)
  end.

Lemma serve_app l c jobs1 jobs2 :
  serve l c (jobs1 ++ jobs2) =
  let '(l, c, ts1) := serve l c jobs1 in
  let '(l, c, ts2) := serve l c jobs2 in (l, c, ts1 ++ ts2).
Proof.
  revert l c. induction jobs1 as [|[n job] jobs1 IH]; intros l c; simpl.
  - by destruct (serve l c jobs2) as [[? ?] ?].
  - destruct (proxy_handler _ _ _ _) as [w out]. rewrite IH.
    destruct (serve (w_limiter w) (w_caches w) jobs1) as [[? ?] ?].
    by destruct (serve _ _ jobs2) as [[? ?] ?].
Qed.

Lemma serve_ids l c jobs : (snd (serve l c jobs)).*1 = jobs.*1.
Proof.
  revert l c. induction jobs as [|[n job] jobs IH]; intros l c; [done|]. simpl.
  destruct (proxy_handler _ _ _ _) as [w out]. specialize (IH (w_limiter w) (w_caches w)).
  destruct (serve _ _ jobs) as [[? ?] ?]. simpl in *. f_equal. exact IH.
Qed.

(** One more request at the end. *)
Lemma serve_snoc l0 c0 jobs n job l c ts r l' es c1 :
  serve l0 c0 jobs = (l, c, ts) → cache_inv c → cache_inv c1 →
  obs job.1 (handler_p job.1 state job.2) l c1 = (r, l', es) →
  ∃ c', serve l0 c0 (jobs ++ [(n, job)])
      = (l', c', ts ++ [(n, (es, finish_request job.1 state job.2 r))]) ∧ cache_inv c'.
Proof.
  intros Hs Hc Hc1 Ho. rewrite serve_app, Hs. simpl. rewrite proxy_handler_alone.
  destruct (run_prog_caches job.1 (handler_p job.1 state job.2) l c c1 Hc Hc1) as [Heq Hinv].
  rewrite Ho in Heq. unfold obs in Heq.
  destruct (run_prog _ _ l c) as [[[r1 l1] c2] es1]. injection Heq as -> -> ->. simpl. eauto.
Qed.

(** *** Sending comes after the limiter *)
Definition op_quiet {X} (op : Op X) : bool := match op with Emit e => negb (is_sent e) | _ => true end.

(** No request is sent before the limiter was consulted. *)
Fixpoint late {A} (p : prog A) : Prop :=
  match p with
  | Done _ => True
  | Act op k => is_rate op = true ∨ op_quiet op = true ∧ ∀ x, late (k x)
  end.

Lemma late_bind {A B} (p : prog A) (k : A → prog B) :
  late p → (∀ a, late (k a)) → late (p_bind p k).
Proof.
  intros Hp Hk. induction p as [[a|f]|X op k' IH]; simpl in *; [by apply Hk|done|].
  destruct Hp as [?|[? Hp]]; [by left|right]. split; [done|]. intros x. by apply IH.
Qed.

Lemma handler_late env request : ps_mode state = Server → late (handler_p env state request).
Proof.
  intros Hm. unfold handler_p. rewrite Hm. unfold handle_server_p.
  do 3 (apply late_bind; [done|intros ?]). destruct (negb _); [done|].
  apply late_bind; [done|intros ?]. apply late_bind; [simpl; by right|intros ?]. by left.
Qed.

Lemma exec_quiet {X} env (op : Op X) l c x l' c' es :
  op_quiet op = true → exec_op env op l c = (x, l', c', es) → has_sent es = false.
Proof.
  destruct op as [m h id ct|i r limit|e|a]; simpl; intros Hq.
  - destruct (authorize_server_purpose _ _ _ _ _ _ _) as [[c1 log] r]. intros [= <- <- <- <-].
    apply no_sends_has_sent, no_sends_decision.
  - destruct (rate_check _ _ _ _ _). by intros [= <- <- <- <-].
  - intros [= <- <- <- <-]. simpl. by destruct (is_sent e).
  - by intros [= <- <- <- <-].
Qed.

(** *** The invariant of an execution

    [order] lists the requests whose outcome is fixed, in the order in which they
    consulted the limiter or ended without; the others have not consulted it. *)
Context (l0 : RequestRateLimiter) (c0 : CacheStore).

(** The rest of the task's program completes its request as if it ran alone now; in
    server mode nothing was sent yet. *)
Definition pending (t : Task) : Prop :=
  rate_once (tk_prog t) ∧
  (ps_mode state = Server → late (tk_prog t) ∧ has_sent (tk_events t) = false) ∧
  ∀ l c r l' es, cache_inv c → obs (tk_job t).1 (tk_prog t) l c = (r, l', es) →
    obs (tk_job t).1 (handler_p (tk_job t).1 state (tk_job t).2) l c = (r, l', tk_events t ++ es).

(** The rest of the task's program leads to this transcript, whatever the others do. *)
Definition committed (t : Task) (tr : Transcript) : Prop :=
  no_rate (tk_prog t) ∧
  ∃ r es, tr = (tk_events t ++ es, finish_request (tk_job t).1 state (tk_job t).2 r) ∧
    ∀ l c, cache_inv c → obs (tk_job t).1 (tk_prog t) l c = (r, l, es).

(** A dropped request that never consulted the limiter: what it did show is what it
    would have shown first, alone and in any state. *)
Definition abandoned (job : Job) (es : list Event) : Prop :=
  (ps_mode state = Server → has_sent es = false) ∧
  ∀ l c r l' es', cache_inv c →
    obs job.1 (handler_p job.1 state job.2) l c = (r, l', es') → es `prefix_of` es'.

Record inv (s : Sys) (order : list (nat * Job)) (ts : list (nat * Transcript)) : Prop := {
  inv_caches : cache_inv (sy_caches s);
  inv_serve : ∃ c, serve l0 c0 order = (sy_limiter s, c, ts) ∧ cache_inv c;
  inv_nodup : NoDup order.*1;
  inv_jobs : ∀ n job, (n, job) ∈ order → sy_jobs s !! n = Some job;
  inv_done : ∀ n tr, sy_done s !! n = Some tr → (n, tr) ∈ ts;
  inv_running : ∀ n t, sy_running s !! n = Some t →
    sy_jobs s !! n = Some (tk_job t) ∧ sy_done s !! n = None ∧
    ((n ∉ order.*1) ∧ pending t ∨ ∃ tr, (n, tr) ∈ ts ∧ committed t tr);
  inv_dropped : ∀ n es, sy_dropped s !! n = Some es →
    ∃ job, sy_jobs s !! n = Some job ∧ sy_done s !! n = None ∧ sy_running s !! n = None ∧
      ((n ∉ order.*1) ∧ abandoned job es ∨ ∃ tr, (n, tr) ∈ ts ∧ es `prefix_of` tr.1);
  inv_all : ∀ n, is_Some (sy_jobs s !! n) →
    is_Some (sy_running s !! n) ∨ is_Some (sy_done s !! n) ∨ is_Some (sy_dropped s !! n);
}.

Lemma inv_init : cache_inv c0 → inv (init l0 c0) [] [].
Proof.
  intros Hc. split; simpl.
  - done.
  - by eauto.
  - constructor.
  - intros n job []%not_elem_of_nil.
  - intros n tr. by rewrite lookup_empty.
  - intros n t. by rewrite lookup_empty.
  - intros n es. by rewrite lookup_empty.
  - intros n [job Hn]. by rewrite lookup_empty in Hn.
Qed.

(** Fixing the outcome of one more request. *)
Lemma inv_commit s order ts n t r l' es c1 :
  inv s order ts → sy_running s !! n = Some t → (n ∉ order.*1) → cache_inv c1 →
  obs (tk_job t).1 (handler_p (tk_job t).1 state (tk_job t).2) (sy_limiter s) c1 = (r, l', es) →
  ∃ c', let order' := order ++ [(n, tk_job t)] in
    let ts' := ts ++ [(n, (es, finish_request (tk_job t).1 state (tk_job t).2 r))] in
    serve l0 c0 order' = (l', c', ts') ∧ cache_inv c' ∧ NoDup order'.*1 ∧
    ∀ m job, (m, job) ∈ order' → sy_jobs s !! m = Some job.
Proof.
  intros [_ (c & Hs & Hc) Hnd Hj _ Hr _ _] Hn Hni Hc1 Ho.
  destruct (serve_snoc l0 c0 order n (tk_job t) _ c ts r l' es c1 Hs Hc Hc1 Ho) as (c' & Hs' & Hc').
  exists c'. split_and!; [done|done| |].
  - rewrite fmap_app. apply NoDup_app. split_and!; [done| |apply NoDup_singleton].
    simpl. intros x Hx ->%list_elem_of_singleton. done.
  - intros m job [?|[= -> ->]%list_elem_of_singleton]%elem_of_app; [auto|]. by apply Hr.
Qed.

Lemma exec_op_not_rate {X} env (op : Op X) l1 l2 c1 c2 x l' c' es :
  is_rate op = false → cache_inv c1 → cache_inv c2 → exec_op env op l1 c1 = (x, l', c', es) →
  l' = l1 ∧ cache_inv c' ∧ ∃ c2', exec_op env op l2 c2 = (x, l2, c2', es) ∧ cache_inv c2'.
Proof.
  intros Hr H1 H2 E. pose proof E as E'. apply (exec_op_caches _ _ _ _ c2) in E' as (Hi & c2' & E2 & Hi2); [|done..].
  destruct op; simpl in *; [|done|..].
  - destruct (authorize_server_purpose c1 _ _ _ _ _ _) as [[? ?] ?],
      (authorize_server_purpose c2 _ _ _ _ _ _) as [[? ?] ?]. simplify_eq. eauto.
  - simplify_eq. eauto.
  - simplify_eq. eauto.
Qed.

Lemma obs_act {A X} env (op : Op X) (k : X → prog A) l c x l1 c1 es1 :
  exec_op env op l c = (x, l1, c1, es1) →
  obs env (Act op k) l c = let '(r, l', es) := obs env (k x) l1 c1 in (r, l', es1 ++ es).
Proof.
  intros E. unfold obs. simpl. rewrite E. by destruct (run_prog env (k x) l1 c1) as [[[? ?] ?] ?].
Qed.

Lemma obs_caches {A} env (p : prog A) l c1 c2 :
  cache_inv c1 → cache_inv c2 → obs env p l c1 = obs env p l c2.
Proof. intros H1 H2. by apply run_prog_caches. Qed.

(** A task that makes an access other than the limiter keeps its standing. *)
Lemma pending_act t X (op : Op X) k l c x l1 c1 es :
  pending t → tk_prog t = Act op k → is_rate op = false → cache_inv c →
  exec_op (tk_job t).1 op l c = (x, l1, c1, es) →
  pending {| tk_job := tk_job t; tk_prog := k x; tk_events := tk_events t ++ es |}.
Proof.
  intros (Ho & Hq & Hp) Ht Hr Hc E. rewrite Ht in Ho, Hq, Hp. simpl in Ho, Hq. split; simpl; [|split].
  - specialize (Ho x). by rewrite Hr in Ho.
  - intros [Hl Hns]%Hq. destruct Hl as [?|[Hop Hl]]; [congruence|]. split; [done|].
    by rewrite has_sent_app, Hns, (exec_quiet _ _ _ _ _ _ _ _ Hop E).
  - intros l2 c2 r l' es2 Hc2 Hobs.
    destruct (exec_op_not_rate _ op l l2 c c2 _ _ _ _ Hr Hc Hc2 E) as (_ & _ & c2' & E2 & Hc2').
    rewrite <- app_assoc. apply Hp; [done|]. rewrite (obs_act _ _ _ _ _ _ _ _ _ E2).
    by rewrite (obs_caches _ _ _ c2' c2), Hobs.
Qed.

Lemma committed_act t tr X (op : Op X) k l c x l1 c1 es :
  committed t tr → tk_prog t = Act op k → cache_inv c →
  exec_op (tk_job t).1 op l c = (x, l1, c1, es) →
  l1 = l ∧ committed {| tk_job := tk_job t; tk_prog := k x; tk_events := tk_events t ++ es |} tr.
Proof.
  intros [Hn (r & es2 & Htr & Hobs)] Ht Hc E. rewrite Ht in Hn, Hobs. destruct Hn as [Hr Hk].
  destruct (exec_op_not_rate _ op l l c c _ _ _ _ Hr Hc Hc E) as (-> & Hc1 & _).
  split; [done|]. split; [by apply Hk|]. simpl.
  pose proof (Hobs l c Hc) as Ho. rewrite (obs_act _ _ _ _ _ _ _ _ _ E) in Ho.
  destruct (obs _ (k x) l c1) as [[r' l'] es3] eqn:E3. injection Ho as -> -> <-.
  exists r, es3. split; [by rewrite Htr, app_assoc|]. intros l2 c2 Hc2.
  rewrite (obs_caches _ _ _ c2 c1) by done. by apply (no_rate_run _ _ _ l2 _ _ _ _ (Hk x) E3).
Qed.

(** The access to the limiter fixes the outcome. *)
Lemma pending_rate t X (op : Op X) k l c x l1 c1 es :
  pending t → tk_prog t = Act op k → is_rate op = true → cache_inv c →
  exec_op (tk_job t).1 op l c = (x, l1, c1, es) →
  ∃ r es2, obs (tk_job t).1 (handler_p (tk_job t).1 state (tk_job t).2) l c = (r, l1, es2) ∧
    cache_inv c1 ∧
    committed {| tk_job := tk_job t; tk_prog := k x; tk_events := tk_events t ++ es |}
      (es2, finish_request (tk_job t).1 state (tk_job t).2 r).
Proof.
  intros (Ho & _ & Hp) Ht Hr Hc E. rewrite Ht in Ho, Hp. simpl in Ho. specialize (Ho x). rewrite Hr in Ho.
  destruct (exec_op_caches _ _ _ _ c _ _ _ _ Hc Hc E) as (Hc1 & _).
  destruct (obs (tk_job t).1 (k x) l1 c1) as [[r l'] es3] eqn:E3.
  destruct (no_rate_run _ _ _ l1 _ _ _ _ Ho E3) as [-> _].
  exists r, (tk_events t ++ es ++ es3). split_and!; [|done|].
  - apply Hp; [done|]. by rewrite (obs_act _ _ _ _ _ _ _ _ _ E), E3.
  - split; [done|]. exists r, es3. simpl. split; [by rewrite app_assoc|]. intros l2 c2 Hc2.
    rewrite (obs_caches _ _ _ c2 c1) by done. by apply (no_rate_run _ _ _ l2 _ _ _ _ Ho E3).
Qed.

Lemma inv_ids s order ts : inv s order ts → ts.*1 = order.*1.
Proof. intros [_ (c & Hs & _) _ _ _ _ _ _]. rewrite <- (serve_ids l0 c0 order), Hs. done. Qed.

(** A task replaced by its next state. *)
Lemma inv_update s order ts order' ts' n t t' l c' :
  inv s order ts → sy_running s !! n = Some t → tk_job t' = tk_job t → cache_inv c' →
  (∃ c, serve l0 c0 order' = (l, c, ts') ∧ cache_inv c) → NoDup order'.*1 →
  (∀ m job, (m, job) ∈ order' → sy_jobs s !! m = Some job) →
  ts ⊆ ts' → (∀ m, m ≠ n → m ∈ order'.*1 → m ∈ order.*1) →
  ((n ∉ order'.*1) ∧ pending t' ∨ ∃ tr, (n, tr) ∈ ts' ∧ committed t' tr) →
  inv {| sy_limiter := l; sy_caches := c'; sy_jobs := sy_jobs s;
         sy_running := <[n := t']> (sy_running s); sy_done := sy_done s;
         sy_dropped := sy_dropped s |} order' ts'.
Proof.
  intros [Hc Hs Hnd Hj Hd Hr Hx Ha] Hn Hjob Hc' Hs' Hnd' Hj' Hts Hord Ht'. split; simpl; try done.
  - intros m tr Hm. by apply Hts, Hd.
  - intros m tm. destruct (decide (m = n)) as [->|Hne].
    + rewrite lookup_insert_eq. intros [= <-]. rewrite Hjob. destruct (Hr n t Hn) as (? & ? & _). done.
    + rewrite lookup_insert_ne by done. intros Hm. destruct (Hr m tm Hm) as (? & ? & Hcase).
      split_and!; [done|done|]. destruct Hcase as [[Hni ?]|(tr & ? & ?)]; [left|right; eauto].
      split; [|done]. by intros Hin%Hord.
  - intros m es Hm. destruct (Hx m es Hm) as (job & Hmj & Hmd & Hmr & Hcase).
    assert (m ≠ n) by congruence. exists job. rewrite lookup_insert_ne by done. split_and!; [done..|].
    destruct Hcase as [[? ?]|(tr & ? & ?)]; [left; split; [by intros ?%Hord|done]|right; eauto].
  - intros m Hm. destruct (decide (m = n)) as [->|Hne]; [rewrite lookup_insert_eq; eauto|].
    rewrite lookup_insert_ne by done. by apply Ha.
Qed.

(** A task that ends. *)
Lemma inv_finish s order ts order' ts' n t tr :
  inv s order ts → sy_running s !! n = Some t →
  (∃ c, serve l0 c0 order' = (sy_limiter s, c, ts') ∧ cache_inv c) → NoDup order'.*1 →
  (∀ m job, (m, job) ∈ order' → sy_jobs s !! m = Some job) →
  ts ⊆ ts' → (∀ m, m ≠ n → m ∈ order'.*1 → m ∈ order.*1) → (n, tr) ∈ ts' →
  inv {| sy_limiter := sy_limiter s; sy_caches := sy_caches s; sy_jobs := sy_jobs s;
         sy_running := delete n (sy_running s); sy_done := <[n := tr]> (sy_done s);
         sy_dropped := sy_dropped s |} order' ts'.
Proof.
  intros [Hc Hs Hnd Hj Hd Hr Hx Ha] Hn Hs' Hnd' Hj' Hts Hord Htr. split; simpl; try done.
  - intros m trm. destruct (decide (m = n)) as [->|Hne].
    + rewrite lookup_insert_eq. by intros [= <-].
    + rewrite lookup_insert_ne by done. intros Hm. by apply Hts, Hd.
  - intros m tm. destruct (decide (m = n)) as [->|Hne]; [by rewrite lookup_delete_eq|].
    rewrite lookup_delete_ne, lookup_insert_ne by done. intros Hm. destruct (Hr m tm Hm) as (? & ? & Hcase).
    split_and!; [done|done|]. destruct Hcase as [[Hni ?]|(tr' & ? & ?)]; [left|right; eauto].
    split; [|done]. by intros Hin%Hord.
  - intros m es Hm. destruct (Hx m es Hm) as (job & Hmj & Hmd & Hmr & Hcase).
    assert (m ≠ n) by congruence. exists job. rewrite lookup_delete_ne, lookup_insert_ne by done.
    split_and!; [done..|].
    destruct Hcase as [[? ?]|(tr' & ? & ?)]; [left; split; [by intros ?%Hord|done]|right; eauto].
  - intros m Hm. destruct (decide (m = n)) as [->|Hne]; [right; left; rewrite lookup_insert_eq; eauto|].
    rewrite lookup_delete_ne, lookup_insert_ne by done. by apply Ha.
Qed.

(** A task that is dropped: its standing decides whether it counts. *)
Lemma inv_drop s order ts n t :
  inv s order ts → sy_running s !! n = Some t →
  inv {| sy_limiter := sy_limiter s; sy_caches := sy_caches s; sy_jobs := sy_jobs s;
         sy_running := delete n (sy_running s); sy_done := sy_done s;
         sy_dropped := <[n := tk_events t]> (sy_dropped s) |} order ts.
Proof.
  intros [Hc Hs Hnd Hj Hd Hr Hx Ha] Hn. split; simpl; try done.
  - intros m tm [_ Hm]%lookup_delete_Some. by apply Hr.
  - intros m es. destruct (decide (m = n)) as [->|Hne].
    + rewrite lookup_insert_eq, lookup_delete_eq. intros [= <-].
      destruct (Hr n t Hn) as (Hjob & Hdone & Hcase). exists (tk_job t). split_and!; [done..|].
      destruct Hcase as [[Hni (_ & Hq & Hp)]|(tr & Hin & _ & r & es & -> & _)].
      * left. split; [done|]. split; [by intros [_ ?]%Hq|]. intros l c r l' es' Hci Ho.
        destruct (obs (tk_job t).1 (tk_prog t) l c) as [[r0 l1] es0] eqn:E.
        rewrite (Hp l c _ _ _ Hci E) in Ho. injection Ho as _ _ <-. by apply prefix_app_r.
      * right. eexists. split; [done|]. by apply prefix_app_r.
    + rewrite lookup_insert_ne, lookup_delete_ne by done. apply Hx.
  - intros m Hm. destruct (decide (m = n)) as [->|Hne]; [right; right; rewrite lookup_insert_eq; eauto|].
    rewrite lookup_delete_ne, lookup_insert_ne by done. by apply Ha.
Qed.

Lemma snoc_grows {A} (order : list (nat * A)) n a m :
  m ≠ n → m ∈ (order ++ [(n, a)]).*1 → m ∈ order.*1.
Proof. rewrite fmap_app, elem_of_app. simpl. rewrite list_elem_of_singleton. naive_solver. Qed.

Lemma inv_admit s order ts n job :
  inv s order ts → sy_jobs s !! n = None →
  inv {| sy_limiter := sy_limiter s; sy_caches := sy_caches s; sy_jobs := <[n := job]> (sy_jobs s);
         sy_running := <[n := {| tk_job := job; tk_prog := handler_p job.1 state job.2;
                                 tk_events := [] |}]> (sy_running s);
         sy_done := sy_done s; sy_dropped := sy_dropped s |} order ts.
Proof.
  intros Hinv Hn. pose proof (inv_ids _ _ _ Hinv) as Hids. destruct Hinv as [Hc Hs Hnd Hj Hd Hr Hx Ha].
  assert (Hni : n ∉ order.*1).
  { intros ([m j] & Hm & Hin)%list_elem_of_fmap. simpl in Hm. subst m. apply Hj in Hin. congruence. }
  split; simpl; try done.
  - intros m j Hin. rewrite lookup_insert_ne; [by apply Hj|]. intros ->. by apply Hj in Hin; congruence.
  - intros m t. destruct (decide (m = n)) as [->|Hne].
    + rewrite !lookup_insert_eq. intros [= <-]. simpl. split_and!; [done| |].
      * destruct (sy_done s !! n) as [tr|] eqn:E; [|done]. apply Hd in E. exfalso. apply Hni.
        rewrite <- Hids. by apply (list_elem_of_fmap_2 fst) in E.
      * left. split; [done|]. split; [apply handler_p_once|]. simpl. auto using handler_late.
    + rewrite !lookup_insert_ne by done. apply Hr.
  - intros m es Hm. destruct (Hx m es Hm) as (j & Hmj & ? & ? & ?). assert (m ≠ n) by congruence.
    exists j. rewrite !lookup_insert_ne by done. done.
  - intros m. destruct (decide (m = n)) as [->|Hne]; [rewrite !lookup_insert_eq; eauto|].
    rewrite !lookup_insert_ne by done. apply Ha.
Qed.

Lemma inv_advance s order ts n t X (op : Op X) k x l c es :
  inv s order ts → sy_running s !! n = Some t → tk_prog t = Act op k →
  exec_op (tk_job t).1 op (sy_limiter s) (sy_caches s) = (x, l, c, es) →
  ∃ order' ts', inv {| sy_limiter := l; sy_caches := c; sy_jobs := sy_jobs s;
    sy_running := <[n := {| tk_job := tk_job t; tk_prog := k x; tk_events := tk_events t ++ es |}]>
      (sy_running s); sy_done := sy_done s; sy_dropped := sy_dropped s |} order' ts'.
Proof.
  intros Hinv Hn Hp E. pose proof Hinv as [Hc Hs Hnd Hj _ Hr _ _].
  destruct (exec_op_caches _ _ _ _ _ _ _ _ _ Hc Hc E) as (Hc' & _).
  destruct (Hr n t Hn) as (Hjob & _ & [[Hni Hpend]|(tr & Htr & Hcom)]).
  - destruct (is_rate op) eqn:Hrate.
    + destruct (pending_rate _ _ _ _ _ _ _ _ _ _ Hpend Hp Hrate Hc E) as (r & es2 & Ho & _ & Hcom).
      destruct (inv_commit _ _ _ _ _ _ _ _ _ Hinv Hn Hni Hc Ho) as (c2 & Hs' & Hc2 & Hnd' & Hj').
      do 2 eexists. refine (inv_update _ _ _ _ _ _ _ _ _ _ Hinv Hn _ Hc' _ Hnd' Hj' _ _ _);
        [done|by eauto|set_solver|intros m; apply snoc_grows|].
      right. eexists. split; [|exact Hcom]. set_solver.
    + exists order, ts. destruct (exec_op_not_rate _ _ _ (sy_limiter s) _ _ _ _ _ _ Hrate Hc Hc E) as (-> & _).
      eapply inv_update; eauto. left. split; [done|]. exact (pending_act _ _ _ _ _ _ _ _ _ _ Hpend Hp Hrate Hc E).
  - destruct (committed_act _ _ _ _ _ _ _ _ _ _ _ Hcom Hp Hc E) as [-> Hcom'].
    exists order, ts. eapply inv_update; eauto.
Qed.

Lemma inv_end s order ts n t r :
  inv s order ts → sy_running s !! n = Some t → tk_prog t = Done r →
  ∃ order' ts', inv {| sy_limiter := sy_limiter s; sy_caches := sy_caches s; sy_jobs := sy_jobs s;
    sy_running := delete n (sy_running s);
    sy_done := <[n := (tk_events t, finish_request (tk_job t).1 state (tk_job t).2 r)]> (sy_done s);
    sy_dropped := sy_dropped s |} order' ts'.
Proof.
  intros Hinv Hn Hp. pose proof Hinv as [Hc Hs Hnd Hj _ Hr _ _].
  destruct (Hr n t Hn) as (Hjob & _ & [[Hni (_ & _ & Hpend)]|(tr & Htr & _ & r' & es & -> & Hobs)]).
  - specialize (Hpend (sy_limiter s) (sy_caches s) r (sy_limiter s) [] Hc). rewrite Hp in Hpend.
    specialize (Hpend eq_refl). rewrite app_nil_r in Hpend.
    destruct (inv_commit _ _ _ _ _ _ _ _ _ Hinv Hn Hni Hc Hpend) as (c2 & Hs' & Hc2 & Hnd' & Hj').
    do 2 eexists. refine (inv_finish _ _ _ _ _ _ _ _ Hinv Hn _ Hnd' Hj' _ _ _);
      [by eauto|set_solver|intros m; apply snoc_grows|set_solver].
  - specialize (Hobs (sy_limiter s) (sy_caches s) Hc). rewrite Hp in Hobs. injection Hobs as <- <-.
    rewrite app_nil_r in Htr. exists order, ts. eapply inv_finish; eauto.
Qed.

Lemma inv_step s order ts lbl s' :
  inv s order ts → step s lbl = Some s' → ∃ order' ts', inv s' order' ts'.
Proof.
  intros Hinv. destruct lbl as [n job|n|n]; simpl.
  - case_bool_decide as Hn; simpl; [|done]. destruct (_ <? _)%nat; [|done]. intros [= <-].
    exists order, ts. by apply inv_admit.
  - destruct (sy_running s !! n) as [t|] eqn:Hn; simpl; [|done].
    destruct (tk_prog t) as [r|X op k] eqn:Hp.
    + intros [= <-]. by eapply inv_end.
    + destruct (exec_op _ op _ _) as [[[x l] c] es] eqn:E. intros [= <-]. by eapply inv_advance.
  - intros (t & Hn & [= <-])%bind_Some. exists order, ts. by apply inv_drop.
Qed.

Lemma inv_steps s order ts schedule s' :
  inv s order ts → steps s schedule = Some s' → ∃ order' ts', inv s' order' ts'.
Proof.
  revert s order ts. induction schedule as [|lbl schedule IH]; intros s order ts Hinv; simpl.
  - intros [= <-]. eauto.
  - intros (s1 & H1 & H2)%bind_Some. destruct (inv_step _ _ _ _ _ Hinv H1) as (o1 & t1 & Hinv1). by eapply IH.
Qed.

(** With nothing in flight and nothing dropped, the transcripts are those of the order. *)
Lemma inv_quiet s order ts :
  inv s order ts → sy_running s = ∅ → sy_dropped s = ∅ →
  list_to_map order = sy_jobs s ∧ list_to_map ts = sy_done s.
Proof.
  intros Hinv Hq Hx. pose proof (inv_ids _ _ _ Hinv) as Hids. destruct Hinv as [_ _ Hnd Hj Hd _ _ Ha].
  assert (Hnd' : NoDup ts.*1) by (by rewrite Hids).
  assert (Hall : ∀ n job, sy_jobs s !! n = Some job → ∃ tr, sy_done s !! n = Some tr ∧ (n, tr) ∈ ts).
  { intros n job Hn. destruct (Ha n (mk_is_Some _ _ Hn)) as [[t Ht]|[[tr Ht]|[es Ht]]]; [|by eauto|].
    - by rewrite Hq, lookup_empty in Ht.
    - by rewrite Hx, lookup_empty in Ht. }
  split; apply map_eq; intros n; apply option_eq; intros v.
  - rewrite <- elem_of_list_to_map by done. split; [by apply Hj|]. intros Hv.
    destruct (Hall n v Hv) as (tr & _ & Hin). apply (list_elem_of_fmap_2 fst) in Hin. simpl in Hin.
    rewrite Hids in Hin. apply list_elem_of_fmap in Hin as ([m job] & Hm & Hin). simpl in Hm. subst m.
    apply Hj in Hin as Hin'. congruence.
  - rewrite <- elem_of_list_to_map by done. split; [|by apply Hd]. intros Hin.
    pose proof Hin as Hin'. apply (list_elem_of_fmap_2 fst) in Hin'. simpl in Hin'.
    rewrite Hids in Hin'. apply list_elem_of_fmap in Hin' as ([m job] & Hm & Hjob). simpl in Hm. subst m.
    apply Hj in Hjob. destruct (Hall n job Hjob) as (tr & Hd' & Hin2).
    rewrite elem_of_list_to_map in Hin, Hin2 by done. congruence.
Qed.

(** *** The limit on requests in flight *)
Lemma in_flight_step s lbl s' :
  step s lbl = Some s' → size (sy_running s) ≤ max_in_flight →
  (∀ n, is_Some (sy_running s !! n) → is_Some (sy_jobs s !! n)) →
  size (sy_running s') ≤ max_in_flight ∧ ∀ n, is_Some (sy_running s' !! n) → is_Some (sy_jobs s' !! n).
Proof.
  intros Hs Hsize Hsub. destruct lbl as [m job|m|m]; simpl in Hs.
  - case_bool_decide as Hm; simpl in Hs; [|done].
    destruct (Nat.ltb_spec (size (sy_running s)) max_in_flight); [|done]. injection Hs as <-. simpl. split.
    + rewrite map_size_insert. destruct (sy_running s !! m); simpl; lia.
    + intros n. destruct (decide (m = n)) as [->|]; [rewrite !lookup_insert_eq; eauto|].
      rewrite !lookup_insert_ne by done. apply Hsub.
  - destruct (sy_running s !! m) as [t|] eqn:Hm; simpl in Hs; [|done].
    destruct (tk_prog t) as [r|X op k].
    + injection Hs as <-. simpl. split; [rewrite map_size_delete, Hm; simpl; lia|].
      intros n [? [_ ?]%lookup_delete_Some]. eauto.
    + destruct (exec_op _ _ _ _) as [[[x l] c] es]. injection Hs as <-. simpl.
      split; [by rewrite map_size_insert, Hm|].
      intros n. destruct (decide (m = n)) as [->|]; [eauto|]. rewrite lookup_insert_ne by done. apply Hsub.
  - apply bind_Some in Hs as (t & Hm & [= <-]). simpl. split; [rewrite map_size_delete, Hm; simpl; lia|].
    intros n [? [_ ?]%lookup_delete_Some]. eauto.
Qed.

Lemma in_flight_steps s schedule s' :
  steps s schedule = Some s' → size (sy_running s) ≤ max_in_flight →
  (∀ n, is_Some (sy_running s !! n) → is_Some (sy_jobs s !! n)) → size (sy_running s') ≤ max_in_flight.
Proof.
  revert s. induction schedule as [|lbl schedule IH]; intros s; simpl; [by intros [= <-]|].
  intros (s1 & H1 & H2)%bind_Some Hsize Hsub.
  destruct (in_flight_step _ _ _ H1 Hsize Hsub) as [? ?]. by apply (IH s1).
Qed.

Lemma in_flight_bound l c schedule s :
  steps (init l c) schedule = Some s → size (sy_running s) ≤ max_in_flight.
Proof.
  intros H. apply (in_flight_steps _ _ _ H); simpl; [rewrite map_size_empty; lia|].
  intros n. by rewrite lookup_empty.
Qed.

(** *** Requests and their place in the order *)

(** In server mode a request that has sent something has its place in the order. *)
Lemma visible_sent s order ts n es :
  ps_mode state = Server → inv s order ts → visible s n = Some es → has_sent es = true →
  ∃ tr, (n, tr) ∈ ts ∧ es `prefix_of` tr.1.
Proof.
  intros Hm [_ _ _ _ Hd Hr Hx _] Hv Hs. unfold visible in Hv.
  destruct (sy_done s !! n) as [tr|] eqn:E; [injection Hv as <-; exists tr; auto|].
  destruct (sy_running s !! n) as [t|] eqn:Et.
  - injection Hv as <-. destruct (Hr n t Et) as (_ & _ & [[_ (_ & Hq & _)]|(tr & Hin & _ & r & es & -> & _)]).
    + destruct (Hq Hm). congruence.
    + eexists. split; [done|]. by apply prefix_app_r.
  - destruct (Hx n es Hv) as (job & _ & _ & _ & [[_ [Hq _]]|(tr & Hin & Hp)]).
    + rewrite (Hq Hm) in Hs. done.
    + by exists tr.
Qed.

(** The transcript of a request in an order is that of its handler, from some state. *)
Lemma serve_transcript l c order l' c' ts n tr :
  serve l c order = (l', c', ts) → (n, tr) ∈ ts →
  ∃ job l1 c1, (n, job) ∈ order ∧
    let out := proxy_handler job.1 state job.2 {| w_limiter := l1; w_caches := c1; w_events := [] |} in
    tr = (w_events (fst out), snd out).
Proof.
  revert l c ts. induction order as [|[m job] order IH]; intros l c ts; simpl.
  { intros [= _ _ <-] []%not_elem_of_nil. }
  destruct (proxy_handler _ _ _ _) as [w out] eqn:Ep.
  destruct (serve (w_limiter w) (w_caches w) order) as [[l1 c1] ts1] eqn:Es. intros [= -> -> <-].
  intros [[= -> ->]|Hin]%elem_of_cons.
  - exists job, l, c. split; [left|]. by rewrite Ep.
  - destruct (IH _ _ _ Es Hin) as (job' & l2 & c2 & ? & ?). exists job', l2, c2. split; [by right|done].
Qed.

End router.
End Router.

(** ** Properties *)
Module Claims.
(** C11: Concurrent requests are serialisable: however the shared accesses of the
    requests in flight interleave and whichever handlers are dropped on the way, once
    none is in flight there is an order of requests such that handling them one after
    the other leaves the limiter in the same state and gives every request that ended
    the same visible effects and the same response and log.  A dropped request either
    has its place in the order, and then showed a beginning of its effects there, or it
    never reached the limiter, showed a beginning of what it would have shown alone in
    any state, and in server mode had sent nothing.  Without dropped requests the order
    is of all requests. *)
Theorem interleaving_serialisable {PL : PercentLib} {UL : UrlLib} {SL : Sha256Lib} {PK : PkiLib}
    {HL : HttpLib} {PD : PdpLib} {AL : AuditLib} {OL : OutboundLib} (state : ProxyState)
    (l0 : RequestRateLimiter) (c0 : CacheStore) (schedule : list Router.Label) (s : Router.Sys) :
  cache_inv c0 → Router.steps state (Router.init l0 c0) schedule = Some s →
  Router.sy_running s = ∅ →
  ∃ order c ts, NoDup order.*1 ∧ Router.serve state l0 c0 order = (Router.sy_limiter s, c, ts) ∧
    (∀ n job, (n, job) ∈ order → Router.sy_jobs s !! n = Some job) ∧
    (∀ n job, Router.sy_jobs s !! n = Some job →
       (∃ tr, Router.sy_done s !! n = Some tr ∧ (n, tr) ∈ ts) ∨
       ∃ es, Router.sy_dropped s !! n = Some es ∧
         ((∃ tr, (n, tr) ∈ ts ∧ es `prefix_of` tr.1) ∨
          (n ∉ order.*1) ∧ Router.abandoned state job es)) ∧
    (Router.sy_dropped s = ∅ →
       list_to_map order = Router.sy_jobs s ∧ list_to_map ts = Router.sy_done s).
Proof.
  intros Hc Hs Hq.
  destruct (Router.inv_steps state l0 c0 _ [] [] _ _ (Router.inv_init _ _ _ Hc) Hs) as (order & ts & Hinv).
  destruct (Router.inv_serve _ _ _ _ _ _ Hinv) as (c & Hserve & _).
  exists order, c, ts. split_and!.
  - apply (Router.inv_nodup _ _ _ _ _ _ Hinv).
  - done.
  - apply (Router.inv_jobs _ _ _ _ _ _ Hinv).
  - intros n job Hn.
    destruct (Router.inv_all _ _ _ _ _ _ Hinv n (mk_is_Some _ _ Hn)) as [[t Ht]|[[tr Ht]|[es Ht]]].
    + by rewrite Hq, lookup_empty in Ht.
    + left. exists tr. split; [done|]. by apply (Router.inv_done _ _ _ _ _ _ Hinv).
    + right. exists es. split; [done|].
      destruct (Router.inv_dropped _ _ _ _ _ _ Hinv n es Ht) as (j & Hj & _ & _ & Hcase).
      assert (j = job) as -> by congruence. tauto.
  - intros Hx. by apply (Router.inv_quiet _ _ _ _ _ _ Hinv).
Qed.

(** Two requests of the same caller whose accesses alternate, and a third that is
    dropped while it waits for the upstream's answer. *)
Definition wit_job (path : string) : @Router.Job ref_url ref_pki Ref.ref_http :=
  (Proxy.Claims.wit_penv, Proxy.Claims.wit_request path "operations").
Definition wit_schedule : list (@Router.Label ref_url ref_pki Ref.ref_http) :=
  [Router.Admit 0 (wit_job "/v1/x"); Router.Admit 1 (wit_job "/v1/y"); Router.Advance 0;
   Router.Advance 1; Router.Advance 1; Router.Advance 0; Router.Advance 0; Router.Advance 1;
   Router.Admit 2 (wit_job "/v1/z"); Router.Advance 2; Router.Advance 2; Router.Advance 1;
   Router.Advance 0; Router.Advance 2; Router.Advance 1; Router.Advance 2; Router.Advance 2;
   Router.Advance 0; Router.Advance 0; Router.Drop 2; Router.Advance 1; Router.Advance 1;
   Router.Advance 0; Router.Advance 1; Router.Advance 0].
Definition wit_steps (schedule : list (@Router.Label ref_url ref_pki Ref.ref_http)) :=
  @Router.steps ref_percent ref_url ref_sha256 ref_pki Ref.ref_http ref_pdp ref_audit
    Proxy.Claims.wit_server (Router.init RequestRateLimiter_default ∅) schedule.

Lemma wit_cache_inv : @cache_inv ref_sha256 ∅.
Proof. intros loc m h. by rewrite lookup_empty. Qed.

(** Nothing is in flight at the end, and the third request was dropped. *)
Definition wit_check (s : @Router.Sys ref_url ref_pki Ref.ref_http) : bool :=
  bool_decide (dom (Router.sy_running s) = ∅) && is_some (Router.sy_dropped s !! 2).

Lemma wit_run_ok : wit_check <$> wit_steps wit_schedule = Some true.
Proof. vm_compute. reflexivity. Qed.

Lemma interleaving_serialisable_witness :
  match wit_steps wit_schedule with
  | Some s => ∃ order c ts, NoDup order.*1 ∧
      @Router.serve ref_percent ref_url ref_sha256 ref_pki Ref.ref_http ref_pdp ref_audit
        Proxy.Claims.wit_server RequestRateLimiter_default ∅ order = (Router.sy_limiter s, c, ts) ∧
      (∀ n job, (n, job) ∈ order → Router.sy_jobs s !! n = Some job) ∧
      (∀ n job, Router.sy_jobs s !! n = Some job →
         (∃ tr, Router.sy_done s !! n = Some tr ∧ (n, tr) ∈ ts) ∨
         ∃ es, Router.sy_dropped s !! n = Some es ∧
           ((∃ tr, (n, tr) ∈ ts ∧ es `prefix_of` tr.1) ∨
            (n ∉ order.*1) ∧ @Router.abandoned ref_percent ref_url ref_sha256 ref_pki Ref.ref_http
              ref_pdp ref_audit Proxy.Claims.wit_server job es)) ∧
      (Router.sy_dropped s = ∅ →
         list_to_map order = Router.sy_jobs s ∧ list_to_map ts = Router.sy_done s)
  | None => False
  end.
Proof.
  pose proof wit_run_ok as Hrun. destruct (wit_steps wit_schedule) as [s|] eqn:E; [|discriminate Hrun].
  injection Hrun as [Hq _]%andb_true_iff. apply bool_decide_eq_true in Hq.
  apply (@interleaving_serialisable ref_percent ref_url ref_sha256 ref_pki Ref.ref_http ref_pdp ref_audit
    Proxy.Claims.ref_outbound Proxy.Claims.wit_server RequestRateLimiter_default ∅ wit_schedule s).
  - apply wit_cache_inv.
  - exact E.
  - by apply dom_empty_iff_L in Hq.
Defined.
End Claims.
