(* ===== verification/RouterRate.v ===== *)
(** * The rate of requests in flight ([src/src/proxy.rs], the limiter under the router)

    What the limiter of [RateLimit] means for the requests of [Concurrent]: every access
    of a request to the shared limiter is an entry of a list of consultations, in the
    order in which the mutex grants them.  The limiter is in the state that list leads
    to, a request makes at most one entry, for the identity and route of its caller, and
    nothing is sent for it unless that entry let it through.  So the bound of the limiter
    is a bound on what is sent, over runs of any length. *)
From S2P Require Import Prelude RustStr BTree Errors External Reference Http Pdp Config Routing.
From S2P Require Import RateLimit Identity Tls PolicyHash Purpose Redaction ConfigValidate Proxy.
From S2P Require Import Concurrent.
From Stdlib Require Import Ascii Sorting.Sorted.

Section consultations.
Context {PL : PercentLib} {UL : UrlLib} {SL : Sha256Lib} {PK : PkiLib} {HL : HttpLib}
  {PD : PdpLib} {AL : AuditLib} {OL : OutboundLib}.

(** The identity, route and limit of an access to the limiter. *)
Definition rate_call {X} (op : Op X) : option (string * string * N) :=
  match op with RateCheck i r limit => Some (i, r, limit) | _ => None end.

(** ** Consultations of the limiter *)

(** The entry a step makes: the request, its clock reading, identity and route. *)
Definition consults (s : Router.Sys) (lbl : Router.Label) : list (nat * Call) :=
  match lbl with
  | Router.Advance n =>
      match Router.sy_running s !! n with
      | Some t =>
          match Router.tk_prog t with
          | Act op _ =>
              match rate_call op with
              | Some (i, r, _) => [(n, (en_instant (Router.tk_job t).1, i, r))]
              | None => []
              end
          | Done _ => []
          end
      | None => []
      end
  | _ => []
  end.

Context (state : ProxyState).

Fixpoint consultations (s : Router.Sys) (schedule : list Router.Label) : list (nat * Call) :=
  match schedule with
  | [] => []
  | lbl :: schedule =>
      consults s lbl ++
      match Router.step state s lbl with Some s => consultations s schedule | None => [] end
  end.

(** The identity and route of a request that has both. *)
Definition caller (job : Router.Job) : option (string * string) :=
  chain ← rq_chain job.2;
  trust ← ps_server_trust state;
  match verify_peer (en_now_verify job.1) trust chain with
  | Ok identity =>
      if negb (identity_allowed (ps_config state) identity) then None else
      match find_server_route (cf_routes (ps_config state)) (rq_method job.2) (rq_path job.2)
              (pi_value identity) with
      | Ok m => Some (pi_value identity, rt_id (rm_route m))
      | Err _ => None
      end
  | Err _ => None
  end.

Definition the_limit : N := lm_max_requests_per_identity_per_minute (cf_limits (ps_config state)).

(** ** What a program does with the limiter *)

(** Neither consults the limiter nor sends. *)
Fixpoint silent {A} (p : prog A) : Prop :=
  match p with
  | Done _ => True
  | Act op k => is_rate op = false ∧ Router.op_quiet op = true ∧ ∀ x, silent (k x)
  end.

Definition refused {X} (op : Op X) : X → Prop :=
  match op in Op X return X → Prop with
  | RateCheck _ _ _ => λ x, x ≠ Ok tt
  | _ => λ _, False
  end.

(** Consults the limiter at most once, for the caller, and does nothing visible to the
    upstream before it was let through. *)
Fixpoint charged {A} (job : Router.Job) (p : prog A) : Prop :=
  match p with
  | Done _ => True
  | Act op k =>
      match rate_call op with
      | Some (i, r, limit) => caller job = Some (i, r) ∧ limit = the_limit ∧
          ∀ x, no_rate (k x) ∧ (refused op x → silent (k x))
      | None => Router.op_quiet op = true ∧ ∀ x, charged job (k x)
      end
  end.

#[local] Hint Resolve no_rate_send no_rate_log : handlers.

Lemma charged_lift {A B} job (r : result ConnectorProblem A) (k : A → prog B) :
  (∀ a, r = Ok a → charged job (k a)) → charged job (p_bind (p_lift r) k).
Proof. destruct r; simpl; auto. Qed.

Lemma handler_charged job : ps_mode state = Server → charged job (handler_p job.1 state job.2).
Proof.
  intros Hm. unfold handler_p. rewrite Hm. unfold handle_server_p.
  apply charged_lift. intros chain Hc%ok_or_Ok. apply charged_lift. intros trust Ht%ok_or_Ok.
  apply charged_lift. intros identity Hv%map_err_Ok. destruct (negb _) eqn:Ha; [done|].
  apply charged_lift. intros m Hf%map_err_Ok. split; [done|]. intros [purpose|p]; [|done].
  cbn [p_bind map_err]. split; [|split; [done|]].
  { unfold caller. rewrite Hc. simpl. rewrite Ht. simpl. by rewrite Hv, Ha, Hf. }
  intros [[]|e]; [|done]. split; [|done]. cbn [p_bind map_err].
  auto 30 with handlers.
Qed.

(** ** Entries that were let through *)
Fixpoint grants (self : RequestRateLimiter) (calls : list (nat * Call)) : list (nat * Call) :=
  match calls with
  | [] => []
  | (n, (now, i, r)) :: calls =>
      let '(self, x) := rate_check self now i r the_limit in
      (if is_ok x then [(n, (now, i, r))] else []) ++ grants self calls
  end.

Definition after (self : RequestRateLimiter) (calls : list (nat * Call)) : RequestRateLimiter :=
  fst (rate_run self the_limit (snd <$> calls)).

Lemma after_cons self n now i r calls :
  after self ((n, (now, i, r)) :: calls) = after (fst (rate_check self now i r the_limit)) calls.
Proof.
  unfold after. rewrite fmap_cons. cbn [rate_run snd].
  destruct (rate_check self now i r the_limit) as [self' x]. cbn [fst].
  match goal with |- context [rate_run self' ?limit ?l] => by destruct (rate_run self' limit l) end.
Qed.

Lemma after_app self calls1 calls2 : after self (calls1 ++ calls2) = after (after self calls1) calls2.
Proof.
  revert self. induction calls1 as [|[n [[now i] r]] calls1 IH]; intros self; [done|].
  simpl app. by rewrite !after_cons.
Qed.

Lemma grants_app self calls1 calls2 :
  grants self (calls1 ++ calls2) = grants self calls1 ++ grants (after self calls1) calls2.
Proof.
  revert self. induction calls1 as [|[n [[now i] r]] calls1 IH]; intros self; [done|].
  simpl. rewrite after_cons. destruct (rate_check _ _ _ _ _) as [self' x]. simpl.
  by rewrite IH, app_assoc.
Qed.

Lemma grants_sublist self calls : grants self calls `sublist_of` calls.
Proof.
  revert self. induction calls as [|[n [[now i] r]] calls IH]; intros self; simpl; [done|].
  destruct (rate_check _ _ _ _ _) as [self' x]. destruct (is_ok x); simpl; by constructor.
Qed.

Lemma grants_elem self calls e : e ∈ grants self calls → e ∈ calls.
Proof. apply sublist_subseteq, grants_sublist. Qed.

Lemma grants_ids self calls n : n ∈ (grants self calls).*1 → n ∈ calls.*1.
Proof. intros (e & -> & ?%grants_elem)%list_elem_of_fmap. by apply list_elem_of_fmap_2. Qed.

Lemma grants_permitted self calls i r :
  (N.of_nat (length (filter (λ e : nat * Call, (e.2.1.2, e.2.2) = (i, r)) (grants self calls)))
   ≤ permitted self the_limit (rate_key i r) (snd <$> calls))%N.
Proof.
  revert self. induction calls as [|[n [[now i'] r']] calls IH]; intros self; [done|].
  rewrite fmap_cons. cbn [grants permitted snd].
  destruct (rate_check _ _ _ _ _) as [self' x]. rewrite list.filter_app, length_app, Nat2N.inj_add.
  apply N.add_le_mono; [|apply IH]. destruct (is_ok x); [|by rewrite andb_false_r].
  rewrite andb_true_r, list.filter_cons. simpl. case_decide as Hd; [|by destruct (bool_decide _)].
  injection Hd as -> ->. by rewrite bool_decide_true.
Qed.

(** ** The invariant of an execution *)
Context (l0 : RequestRateLimiter).

Definition granted (calls : list (nat * Call)) (n : nat) : Prop := n ∈ (grants l0 calls).*1.

(** A request in flight has not consulted the limiter and has sent nothing; or it has, and
    was let through or is silent. *)
Definition standing (calls : list (nat * Call)) (n : nat) (t : Router.Task) : Prop :=
  (n ∉ calls.*1) ∧ charged (Router.tk_job t) (Router.tk_prog t) ∧
    Router.has_sent (Router.tk_events t) = false ∨
  no_rate (Router.tk_prog t) ∧
    (granted calls n ∨ silent (Router.tk_prog t) ∧ Router.has_sent (Router.tk_events t) = false).

Record rinv (s : Router.Sys) (calls : list (nat * Call)) : Prop := {
  ri_limiter : Router.sy_limiter s = after l0 calls;
  ri_nodup : NoDup calls.*1;
  ri_calls : ∀ n now i r, (n, (now, i, r)) ∈ calls → ∃ job : Router.Job, Router.sy_jobs s !! n = Some job ∧
    now = en_instant job.1 ∧ caller job = Some (i, r);
  ri_running : ∀ n t, Router.sy_running s !! n = Some t →
    Router.sy_jobs s !! n = Some (Router.tk_job t) ∧ standing calls n t;
  ri_done : ∀ n tr, Router.sy_done s !! n = Some tr → Router.has_sent tr.1 = true → granted calls n;
  ri_dropped : ∀ n es, Router.sy_dropped s !! n = Some es → Router.has_sent es = true → granted calls n;
}.

Lemma granted_grows calls calls' n : granted calls n → granted (calls ++ calls') n.
Proof. unfold granted. rewrite grants_app, fmap_app, elem_of_app. by left. Qed.

Lemma standing_sent calls n t :
  standing calls n t → Router.has_sent (Router.tk_events t) = true → granted calls n.
Proof. intros [(_ & _ & H)|(_ & [H|[_ H]])] Hs; congruence. Qed.

Lemma standing_grows calls calls' n t :
  (n ∉ calls'.*1) → standing calls n t → standing (calls ++ calls') n t.
Proof.
  intros Hn [(Hni & ? & ?)|(? & [?|?])]; [left|right..].
  - split_and!; [|done..]. rewrite fmap_app, elem_of_app. tauto.
  - split; [done|]. left. by apply granted_grows.
  - split; [done|]. by right.
Qed.

Lemma rinv_init c0 : rinv (Router.init l0 c0) [].
Proof.
  split; simpl; try done.
  - constructor.
  - intros n now i r []%not_elem_of_nil.
Qed.

(** A step that makes no entry and changes one request. *)
Lemma rinv_quiet s calls s' :
  rinv s calls → Router.sy_limiter s' = Router.sy_limiter s →
  (∀ n job, Router.sy_jobs s !! n = Some job → Router.sy_jobs s' !! n = Some job) →
  (∀ n t, Router.sy_running s' !! n = Some t → Router.sy_running s !! n = Some t ∨
     Router.sy_jobs s' !! n = Some (Router.tk_job t) ∧ standing calls n t) →
  (∀ n tr, Router.sy_done s' !! n = Some tr → Router.sy_done s !! n = Some tr ∨
     (Router.has_sent tr.1 = true → granted calls n)) →
  (∀ n es, Router.sy_dropped s' !! n = Some es → Router.sy_dropped s !! n = Some es ∨
     (Router.has_sent es = true → granted calls n)) →
  rinv s' calls.
Proof.
  intros [Hl Hnd Hc Hr Hd Hx] Hl' Hj Hr' Hd' Hx'. split; [congruence|done|..].
  - intros n now i r Hin. destruct (Hc _ _ _ _ Hin) as (job & ? & ? & ?). exists job. auto.
  - intros n t [Ht|Ht]%Hr'; [|done]. destruct (Hr n t Ht). auto.
  - intros n tr [Ht|Ht]%Hd'; [by eapply Hd|done].
  - intros n es [Ht|Ht]%Hx'; [by eapply Hx|done].
Qed.

(** A request makes an access. *)
Lemma rinv_act s calls n t X (op : Op X) k x l c es :
  rinv s calls → Router.sy_running s !! n = Some t → Router.tk_prog t = Act op k →
  exec_op (Router.tk_job t).1 op (Router.sy_limiter s) (Router.sy_caches s) = (x, l, c, es) →
  let t' := {| Router.tk_job := Router.tk_job t; Router.tk_prog := k x;
               Router.tk_events := Router.tk_events t ++ es |} in
  let new := match rate_call op with
             | Some (i, r, _) => [(n, (en_instant (Router.tk_job t).1, i, r))]
             | None => []
             end in
  l = after l0 (calls ++ new) ∧ NoDup (calls ++ new).*1 ∧
  (∀ m now i r, (m, (now, i, r)) ∈ new →
     m = n ∧ now = en_instant (Router.tk_job t).1 ∧ caller (Router.tk_job t) = Some (i, r)) ∧
  standing (calls ++ new) n t'.
Proof.
  intros [Hl Hnd Hc Hr _ _] Hn Hp E t' new. destruct (Hr n t Hn) as [Hjob Hst].
  destruct (rate_call op) as [[[i r] limit]|] eqn:Hcall.
  - assert (Hrate : is_rate op = true) by (by destruct op).
    destruct Hst as [(Hni & Hch & Hs)|(Hno & _)]; rewrite Hp in *; simpl in *; [|destruct Hno; congruence].
    rewrite Hcall in Hch. destruct Hch as (Hcl & -> & Hk).
    assert (Hnew : ∀ self', after self' new = fst (rate_check self' (en_instant (Router.tk_job t).1) i r the_limit)).
    { intros self'. unfold new. by rewrite after_cons. }
    destruct op as [|i' r' lim'| |]; try done. simpl in Hcall. injection Hcall as -> -> ->. simpl in E.
    split_and!.
    + rewrite after_app, Hnew, <- Hl. destruct (rate_check _ _ _ _ _). by injection E as <- <- <- <-.
    + rewrite fmap_app. apply list.NoDup_app. split_and!; [done| |apply list.NoDup_singleton].
      simpl. by intros m Hm ->%list_elem_of_singleton.
    + by intros m now i0 r0 [= -> -> -> ->]%list_elem_of_singleton.
    + right. simpl. destruct (Hk x) as [Hno Hsil]. split; [done|].
      unfold granted. rewrite grants_app, <- Hl. unfold new. simpl.
      destruct (rate_check _ _ _ _ _) as [l1 x1]. injection E as <- <- <- <-. destruct x1 as [[]|e].
      * left. rewrite fmap_app, elem_of_app. right. simpl. left.
      * right. rewrite app_nil_r. split; [by apply Hsil|done].
  - assert (Hrate : is_rate op = false) by (by destruct op). subst new. rewrite app_nil_r.
    assert (l = Router.sy_limiter s) as ->.
    { destruct op; simpl in *; try done; try (by injection E as _ <- _ _).
      destruct (authorize_server_purpose _ _ _ _ _ _ _) as [[? ?] ?]. by injection E as _ <- _ _. }
    split_and!; [done|done|by intros m now i r ?%not_elem_of_nil|].
    destruct Hst as [(Hni & Hch & Hs)|(Hno & Hg)]; rewrite Hp in *; simpl in *.
    + rewrite Hcall in Hch. destruct Hch as [Hq Hk]. left. simpl. split_and!; [done|by apply Hk|].
      by rewrite Router.has_sent_app, Hs, (Router.exec_quiet _ _ _ _ _ _ _ _ Hq E).
    + right. simpl. destruct Hno as [_ Hno]. split; [by apply Hno|].
      destruct Hg as [Hg|[(_ & Hq & Hk) Hs]]; [by left|right]. split; [by apply Hk|].
      by rewrite Router.has_sent_app, Hs, (Router.exec_quiet _ _ _ _ _ _ _ _ Hq E).
Qed.

(** The state after the access. *)
Lemma rinv_advance s calls n t X (op : Op X) k x l c es :
  rinv s calls → Router.sy_running s !! n = Some t → Router.tk_prog t = Act op k →
  exec_op (Router.tk_job t).1 op (Router.sy_limiter s) (Router.sy_caches s) = (x, l, c, es) →
  rinv {| Router.sy_limiter := l; Router.sy_caches := c; Router.sy_jobs := Router.sy_jobs s;
    Router.sy_running := <[n := {| Router.tk_job := Router.tk_job t; Router.tk_prog := k x;
      Router.tk_events := Router.tk_events t ++ es |}]> (Router.sy_running s);
    Router.sy_done := Router.sy_done s; Router.sy_dropped := Router.sy_dropped s |}
    (calls ++ match rate_call op with
              | Some (i, r, _) => [(n, (en_instant (Router.tk_job t).1, i, r))]
              | None => []
              end).
Proof.
  intros Hinv Hn Hp E.
  destruct (rinv_act _ _ _ _ _ _ _ _ _ _ _ Hinv Hn Hp E) as (Hl & Hnd & Hnew & Hst).
  set (new := match rate_call op with Some _ => _ | None => _ end) in *.
  destruct Hinv as [_ _ Hc Hr Hd Hx]. destruct (Hr n t Hn) as [Hjob _].
  assert (Hother : ∀ m, m ≠ n → (m ∉ new.*1)).
  { intros m Hne ([m' [[now i] r]] & -> & Hin)%list_elem_of_fmap. by destruct (Hnew _ _ _ _ Hin) as [? _]. }
  split; simpl; [done|done|..].
  - intros m now i r [Hin|Hin]%elem_of_app; [by eapply Hc|].
    destruct (Hnew _ _ _ _ Hin) as (-> & -> & ?). by exists (Router.tk_job t).
  - intros m tm. destruct (decide (m = n)) as [->|Hne].
    { rewrite lookup_insert_eq. by intros [= <-]. }
    rewrite lookup_insert_ne by done. intros [? ?]%Hr. split; [done|]. apply standing_grows; auto.
  - intros m tr Hm' Hs'. apply granted_grows. by eapply Hd.
  - intros m es' Hm' Hs'. apply granted_grows. by eapply Hx.
Qed.

Lemma rinv_step s calls lbl s' :
  ps_mode state = Server → rinv s calls → Router.step state s lbl = Some s' →
  rinv s' (calls ++ consults s lbl).
Proof.
  intros Hm Hinv Hs. destruct lbl as [n job|n|n].
  - cbn [consults]. rewrite app_nil_r. revert Hs. simpl. case_bool_decide as Hn; simpl; [|done].
    destruct (_ <? _)%nat; [|done]. intros [= <-].
    assert (Hni : n ∉ calls.*1).
    { intros ([m [[now i] r]] & -> & Hin)%list_elem_of_fmap.
      destruct (ri_calls _ _ Hinv _ _ _ _ Hin) as (? & Hin' & _). simpl in *.
      by rewrite Hn in Hin'. }
    eapply rinv_quiet; [done|done|..]; simpl; [| |auto..].
    + intros m j Hj. rewrite lookup_insert_ne; [done|]. intros <-. by rewrite Hn in Hj.
    + intros m t. destruct (decide (m = n)) as [->|Hne]; [|rewrite lookup_insert_ne by done; auto].
      rewrite !lookup_insert_eq. intros [= <-]. right. split; [done|]. left.
      split_and!; [done|by apply handler_charged|done].
  - cbn [Router.step] in Hs. destruct (Router.sy_running s !! n) as [t|] eqn:Hn; cbn in Hs; [|done].
    destruct (Router.tk_prog t) as [res|X op k] eqn:Hp.
    + injection Hs as <-. cbn [consults]. rewrite Hn, Hp, app_nil_r.
      eapply rinv_quiet; [done|done|..]; simpl; [auto|..].
      * intros m tm [_ ?]%lookup_delete_Some. by left.
      * intros m tr. destruct (decide (m = n)) as [->|Hne]; [|rewrite lookup_insert_ne by done; auto].
        rewrite lookup_insert_eq. intros [= <-]. right. simpl. apply standing_sent.
        by apply (ri_running _ _ Hinv).
      * auto.
    + destruct (exec_op _ op _ _) as [[[x l] c] es] eqn:E. injection Hs as <-. cbn [consults]. rewrite Hn, Hp.
      by eapply rinv_advance.
  - cbn [consults]. rewrite app_nil_r. apply bind_Some in Hs as (t & Hn & [= <-]).
    eapply rinv_quiet; [done|done|..]; simpl; [auto|..].
    + intros m tm [_ ?]%lookup_delete_Some. by left.
    + auto.
    + intros m es. destruct (decide (m = n)) as [->|Hne]; [|rewrite lookup_insert_ne by done; auto].
      rewrite lookup_insert_eq. intros [= <-]. right. apply standing_sent. by apply (ri_running _ _ Hinv).
Qed.

Lemma rinv_steps s calls schedule s' :
  ps_mode state = Server → rinv s calls → Router.steps state s schedule = Some s' →
  rinv s' (calls ++ consultations s schedule).
Proof.
  intros Hm. revert s calls. induction schedule as [|lbl schedule IH]; intros s calls Hinv; simpl.
  { intros [= <-]. by rewrite app_nil_r. }
  destruct (Router.step state s lbl) as [s1|] eqn:E; simpl; [|done]. intros Hs. rewrite app_assoc.
  apply IH; [|done]. by eapply rinv_step.
Qed.
(** ** The bound on what is sent *)

(** A request of this caller whose events hold a send. *)
Definition upstream_sent (s : Router.Sys) (i r : string) (n : nat) : Prop :=
  ∃ job es, Router.sy_jobs s !! n = Some job ∧ caller job = Some (i, r) ∧
    Router.visible s n = Some es ∧ Router.has_sent es = true.

Definition in_minute (t0 now : Instant) : Prop := (t0 ≤ now ∧ now < t0 + 60 * 1000000000)%N.

(** Entries in the order of their clock readings. *)
Definition clock_ordered (calls : list (nat * Call)) : Prop :=
  StronglySorted (λ e1 e2 : nat * Call, (e1.2.1.1 ≤ e2.2.1.1)%N) calls.

Lemma after_inv calls :
  rate_inv the_limit l0 → (the_limit < u32_bound)%N → rate_inv the_limit (after l0 calls).
Proof.
  intros Hinv Hlim. revert Hinv. generalize l0.
  induction calls as [|[n [[now i] r]] calls IH]; intros self Hinv; [done|].
  rewrite after_cons. apply IH. by apply rate_check_inv.
Qed.

Lemma visible_granted s calls n es :
  rinv s calls → Router.visible s n = Some es → Router.has_sent es = true → granted calls n.
Proof.
  intros [_ _ _ Hr Hd Hx] Hv Hs. unfold Router.visible in Hv.
  destruct (Router.sy_done s !! n) as [tr|] eqn:E; [injection Hv as <-; eauto|].
  destruct (Router.sy_running s !! n) as [t|] eqn:Et; [|eauto].
  injection Hv as <-. eapply standing_sent; [|done]. by apply Hr.
Qed.

Lemma sent_granted s calls i r n : rinv s calls → upstream_sent s i r n → granted calls n.
Proof. intros Hinv (job & es & _ & _ & Hv & Hs). by eapply visible_granted. Qed.

(** An entry that was let through in a stretch, by the request it is of. *)
Lemma granted_stretch pre mid post n :
  NoDup (pre ++ mid ++ post).*1 → granted (pre ++ mid ++ post) n → n ∈ mid.*1 →
  n ∈ (grants (after l0 pre) mid).*1.
Proof.
  intros Hnd Hg Hn. unfold granted in Hg. rewrite !grants_app, !fmap_app, !elem_of_app in Hg.
  rewrite !fmap_app, list.NoDup_app in Hnd. destruct Hnd as (_ & Hpre & (_ & Hmid & _)%list.NoDup_app).
  destruct Hg as [Hg|[Hg|Hg]]; [|done|]; exfalso.
  - apply (Hpre n); [by eapply grants_ids|rewrite elem_of_app; by left].
  - apply (Hmid n Hn). by eapply grants_ids.
Qed.

(** Over a stretch of entries whose readings lie in one minute. *)
Lemma stretch_bound s pre mid post t0 i r ids :
  rate_inv the_limit l0 → (the_limit < u32_bound)%N → rinv s (pre ++ mid ++ post) →
  Forall (λ e : nat * Call, in_minute t0 e.2.1.1) mid → NoDup ids →
  (∀ n, n ∈ ids → n ∈ mid.*1 ∧ upstream_sent s i r n) →
  (N.of_nat (length ids) ≤ 2 * the_limit)%N.
Proof.
  intros Hl0 Hlim Hinv Hmin Hnd Hids.
  set (granted_here := filter (λ e : nat * Call, (e.2.1.2, e.2.2) = (i, r)) (grants (after l0 pre) mid)).
  assert (Hsub : ids ⊆ granted_here.*1).
  { intros n Hn. destruct (Hids n Hn) as [Hin Hsent]. pose proof (sent_granted _ _ _ _ _ Hinv Hsent) as Hg.
    apply (granted_stretch pre mid post) in Hg; [|apply Hinv|done].
    apply list_elem_of_fmap in Hg as ([m [[now i'] r']] & -> & Hg). apply list_elem_of_fmap. eexists; split; [done|].
    apply list_elem_of_filter. split; [|done]. simpl.
    destruct (ri_calls _ _ Hinv m now i' r') as (job' & Hj' & _ & Hcl').
    { apply elem_of_app. right. apply elem_of_app. left. by eapply grants_elem. }
    destruct Hsent as (job & es & Hj & Hcl & _). simpl in Hj. congruence. }
  apply NoDup_submseteq, submseteq_length in Hsub; [|done]. rewrite length_fmap in Hsub.
  pose proof (grants_permitted (after l0 pre) mid i r) as Hgp. fold granted_here in Hgp.
  assert (Hmin' : Forall (λ c : Call, in_minute t0 c.1.1) (snd <$> mid)) by (by apply Forall_fmap).
  pose proof (permitted_minute _ _ (rate_key i r) t0 _ (after_inv pre Hl0 Hlim) Hlim Hmin').
  destruct (rl_windows _ !! _); lia.
Qed.

(** In an ordered list the entries of a minute are a stretch. *)
Lemma ordered_split t calls :
  clock_ordered calls → ∃ early later, calls = early ++ later ∧ clock_ordered later ∧
    Forall (λ e : nat * Call, (e.2.1.1 < t)%N) early ∧ Forall (λ e : nat * Call, (t ≤ e.2.1.1)%N) later.
Proof.
  induction calls as [|e calls IH]; intros Ho; [by exists [], []|].
  destruct (decide (e.2.1.1 < t)%N) as [Hlt|Hge].
  - apply StronglySorted_inv in Ho as [Ho _]. destruct (IH Ho) as (early & later & -> & ? & ? & ?).
    exists (e :: early), later. auto.
  - exists [], (e :: calls). split_and!; [done|done|done|].
    apply StronglySorted_inv in Ho as [_ Hle]. constructor; [lia|].
    eapply list.Forall_impl; [exact Hle|]. intros e' ?. simpl in *. lia.
Qed.

Lemma ordered_stretch t0 calls :
  clock_ordered calls → ∃ pre mid post, calls = pre ++ mid ++ post ∧
    Forall (λ e : nat * Call, in_minute t0 e.2.1.1) mid ∧
    ∀ e, e ∈ calls → in_minute t0 e.2.1.1 → e ∈ mid.
Proof.
  intros Ho. destruct (ordered_split t0 calls Ho) as (pre & rest & -> & Hr & Hpre & Hrest).
  destruct (ordered_split (t0 + 60 * 1000000000) rest Hr) as (mid & post & -> & _ & Hmid & Hpost).
  apply Forall_app in Hrest as [Hmid' _]. exists pre, mid, post. split_and!; [done|..].
  - apply list.Forall_forall. intros e He. rewrite list.Forall_forall in Hmid, Hmid'.
    split; [by apply Hmid'|by apply Hmid].
  - rewrite list.Forall_forall in Hpre, Hpost.
    intros e [He|[He|He]%elem_of_app]%elem_of_app [? ?]; [apply Hpre in He|done|apply Hpost in He];
      exfalso; unfold Call in *; simpl in *; lia.
Qed.

(** A request that sent something has its entry, for its caller. *)
Lemma sent_entry s calls n es :
  rinv s calls → Router.visible s n = Some es → Router.has_sent es = true →
  ∃ (job : Router.Job) i r, Router.sy_jobs s !! n = Some job ∧ caller job = Some (i, r) ∧
    (n, (en_instant job.1, i, r)) ∈ calls.
Proof.
  intros Hinv Hv Hs. pose proof (visible_granted _ _ _ _ Hinv Hv Hs) as Hg.
  apply list_elem_of_fmap in Hg as ([m [[now i] r]] & -> & Hg). simpl in *.
  apply grants_elem in Hg. destruct (ri_calls _ _ Hinv m now i r Hg) as (job & Hj & -> & Hcl).
  by exists job, i, r.
Qed.

(** Over any minute, when the entries are in the order of their readings. *)
Lemma minute_bound s calls t0 i r ids :
  rate_inv the_limit l0 → (the_limit < u32_bound)%N → rinv s calls → clock_ordered calls → NoDup ids →
  (∀ n, n ∈ ids → upstream_sent s i r n ∧
     ∃ job : Router.Job, Router.sy_jobs s !! n = Some job ∧ in_minute t0 (en_instant job.1)) →
  (N.of_nat (length ids) ≤ 2 * the_limit)%N.
Proof.
  intros Hl0 Hlim Hinv Ho Hnd Hids. destruct (ordered_stretch t0 calls Ho) as (pre & mid & post & -> & Hmid & Hall).
  eapply stretch_bound; [done..|]. intros n Hn. destruct (Hids n Hn) as (Hsent & job & Hj & Hmin).
  split; [|done]. pose proof Hsent as (_ & es & _ & _ & Hv & Hs).
  destruct (sent_entry _ _ _ _ Hinv Hv Hs) as (job' & i' & r' & Hj' & _ & Hin).
  assert (job' = job) as -> by congruence. apply list_elem_of_fmap. by eexists; split; [|by apply Hall].
Qed.
End consultations.
