(* ===== verification/Timing.v ===== *)
(** * The request timeout ([src/src/proxy.rs], [proxy_handler])

    [proxy_handler] runs the handler under [tokio::time::timeout].  Here a handler runs
    on a clock: synchronous code takes no time, and at each of its waits (for the body of
    the request, for the upstream's answer, for the body of that answer) the handler is
    suspended for as long as the awaited thing takes, which may be for ever.  A timeout
    ends the wait that is under way at its deadline; what arrives at the deadline itself
    still counts, since [Timeout] polls the handler before its own timer.  Without a
    timeout an execution need not end, and [run_timed] then has no result.

    [Proxy] and [Concurrent] leave the outcome of each wait to the environment of the
    request, as [en_timeout]; the theorem below says which of those outcomes occur. *)
From S2P Require Import Prelude RustStr BTree Errors External Reference Http Pdp Config Routing.
From S2P Require Import RateLimit Identity Tls PolicyHash Purpose Redaction ConfigValidate Proxy.
From S2P Require Import Concurrent.
From Stdlib Require Import Ascii.

#[global] Instance await_point_eq_dec : EqDecision AwaitPoint.
Proof. solve_decision. Defined.

Section timing.
Context {PL : PercentLib} {UL : UrlLib} {SL : Sha256Lib} {PK : PkiLib} {HL : HttpLib}
  {PD : PdpLib} {AL : AuditLib} {OL : OutboundLib}.

(** How long the handler is kept at each point, in nanoseconds; [None] is for ever. *)
Definition Arrivals : Type := AwaitPoint → option N.

(** A wait that begins at [now]: when it ends, and whether by the timeout. *)
Definition wait_until (deadline : option N) (now : N) (takes : option N) : option (N * bool) :=
  match deadline, takes with
  | Some deadline, Some d =>
      Some (if (now + d <=? deadline)%N then ((now + d)%N, false) else (deadline, true))
  | Some deadline, None => Some (deadline, true)
  | None, Some d => Some ((now + d)%N, false)
  | None, None => None
  end.

(** ** Execution on a clock *)
Definition timed_op {X} (deadline : option N) (arrive : Arrivals) (env : Env) (op : Op X) (now : N)
    (l : RequestRateLimiter) (c : CacheStore)
    : option (N * (X * RequestRateLimiter * CacheStore * list Event)) :=
  match op in Op X return option (N * (X * RequestRateLimiter * CacheStore * list Event)) with
  | Wait at_ =>
      '(now, late) ← wait_until deadline now (arrive at_);
      Some (now, (late, l, c, []))
  | op => Some (now, exec_op env op l c)
  end.

Fixpoint run_timed {A} (deadline : option N) (arrive : Arrivals) (env : Env) (p : prog A) (now : N)
    (l : RequestRateLimiter) (c : CacheStore)
    : option (N * (result Failure A * RequestRateLimiter * CacheStore * list Event)) :=
  match p with
  | Done r => Some (now, (r, l, c, []))
  | Act op k =>
      '(now, (x, l, c, es)) ← timed_op deadline arrive env op now l c;
      '(now, (r, l, c, es')) ← run_timed deadline arrive env (k x) now l c;
      Some (now, (r, l, c, es ++ es'))
  end.

(** The handler of a request that arrives at time zero, with this timeout. *)
Definition timed_with (deadline : option N) (arrive : Arrivals) (env : Env) (state : ProxyState)
    (request : Request) (w : World) : option (N * (World * option (Reply * CompletionLog))) :=
  '(now, (r, l, c, es)) ←
    run_timed deadline arrive env (handler_p env state request) 0 (w_limiter w) (w_caches w);
  Some (now, ({| w_limiter := l; w_caches := c; w_events := w_events w ++ es |},
              finish_request env state request r)).

Definition timed_handler (arrive : Arrivals) (env : Env) (state : ProxyState) (request : Request)
    (w : World) : option (N * (World * option (Reply * CompletionLog))) :=
  timed_with (Some (request_timeout (ps_config state))) arrive env state request w.

(** The environment in which the timeout strikes at this point, or nowhere. *)
Definition with_timeout (env : Env) (strike : option AwaitPoint) : Env :=
  {| en_environ := en_environ env; en_now_verify := en_now_verify env; en_now_at := en_now_at env;
     en_now_age := en_now_age env; en_instant := en_instant env; en_ulid := en_ulid env;
     en_upstream := en_upstream env; en_timeout := strike; en_latency_ms := en_latency_ms env;
     en_info := en_info env |}.

(** When a handler that started at [now] and waits at these points in order is through
    with the wait at [p]; [None] when it never is. *)
Fixpoint due_from (arrive : Arrivals) (now : N) (points : list AwaitPoint) (p : AwaitPoint) : option N :=
  match points with
  | [] => None
  | q :: points =>
      d ← arrive q;
      if decide (q = p) then Some (now + d)%N else due_from arrive (now + d)%N points p
  end.

Definition await_points : list AwaitPoint := [AtBody; AtSend; AtResponse].
Definition due (arrive : Arrivals) (p : AwaitPoint) : option N := due_from arrive 0 await_points p.

(** ** Handlers wait in order *)

Definition is_wait {X} (op : Op X) : bool := match op with Wait _ => true | _ => false end.

(** At most once at each of these points, in this order, and a wait that is timed out
    ends the program. *)
Inductive paced {A} : list AwaitPoint → prog A → Prop :=
| paced_done points r : paced points (Done r)
| paced_wait at_ points k :
    k true = Done (Err (Problem RequestTimeout)) → paced points (k false) →
    paced (at_ :: points) (Act (Wait at_) k)
| paced_op points X (op : Op X) k :
    is_wait op = false → (∀ x, paced points (k x)) → paced points (Act op k).

Lemma paced_bind {A B} points (p : prog A) (k : A → prog B) :
  paced [] p → (∀ a, paced points (k a)) → paced points (p_bind p k).
Proof.
  intros Hp Hk. remember [] as nil eqn:Hn. induction Hp as [pts [a|f]|at_ pts k' _ _ _|pts X op k' Hw _ IH];
    simpl; [apply Hk|constructor|done|]. constructor; auto.
Qed.

Lemma paced_await {A B} at_ points (r : result ConnectorProblem A) (k : A → prog B) :
  (∀ a, paced points (k a)) → paced (at_ :: points) (p_bind (p_await at_ r) k).
Proof. intros Hk. simpl. apply paced_wait; [done|]. destruct r as [a|e]; simpl; [apply Hk|constructor]. Qed.

Lemma paced_lift {A} (r : result ConnectorProblem A) : paced [] (p_lift r).
Proof. constructor. Qed.
Lemma paced_panic {A} (o : option A) : paced [] (p_or_panic o).
Proof. constructor. Qed.
Lemma paced_act {A} (op : Op (result ConnectorProblem A)) : is_wait op = false → paced [] (p_act op).
Proof. intros H. apply paced_op; [done|]. constructor. Qed.
Lemma paced_emit e : paced [] (p_emit e).
Proof. apply paced_op; [done|]. constructor. Qed.
End timing.

#[local] Hint Resolve paced_lift paced_panic paced_act paced_emit paced_done : handlers.
#[local] Hint Extern 1 (paced _ (p_bind (p_await _ _) _)) => apply paced_await; intros ? : handlers.
#[local] Hint Extern 2 (paced _ (p_bind _ _)) => apply paced_bind; [|intros ?] : handlers.

Section deadline.
Context {PL : PercentLib} {UL : UrlLib} {SL : Sha256Lib} {PK : PkiLib} {HL : HttpLib}
  {PD : PdpLib} {AL : AuditLib} {OL : OutboundLib}.

Lemma paced_send env client method url headers body max :
  paced [AtSend; AtResponse] (send_upstream_p env client method url headers body max).
Proof. unfold send_upstream_p. auto 20 with handlers. Qed.

Lemma paced_log env state m identity rid : paced [] (log_authorized_p env state m identity rid).
Proof. unfold log_authorized_p. destruct (negb (en_info env)); auto 20 with handlers. Qed.
#[local] Hint Resolve paced_send paced_log : handlers.

Lemma handler_paced env state request : paced await_points (handler_p env state request).
Proof.
  unfold handler_p. destruct (ps_mode state).
  - unfold handle_client_p. auto 30 with handlers.
  - unfold handle_server_p. do 3 (apply paced_bind; [auto with handlers|intros ?]).
    destruct (negb _); [constructor|]. auto 30 with handlers.
Qed.

(** ** On the clock and off it *)
Lemma strikes_other env strike at_ :
  strike ≠ Some at_ → strikes (with_timeout env strike) at_ = false.
Proof. unfold strikes. destruct strike as [[]|], at_; simpl; congruence. Qed.

Lemma strikes_here env at_ : strikes (with_timeout env (Some at_)) at_ = true.
Proof. by destruct at_. Qed.

Lemma timed_op_other {X} deadline arrive env (op : Op X) now l c strike :
  is_wait op = false →
  timed_op deadline arrive env op now l c = Some (now, exec_op (with_timeout env strike) op l c).
Proof. by destruct op. Qed.

Lemma due_here arrive now p points d :
  arrive p = Some d → due_from arrive now (p :: points) p = Some (now + d)%N.
Proof. intros H. simpl. rewrite H. simpl. by rewrite decide_True. Qed.

Lemma due_later arrive now q points p d :
  arrive q = Some d → q ≠ p → due_from arrive now (q :: points) p = due_from arrive (now + d)%N points p.
Proof. intros H Hne. simpl. rewrite H. simpl. by rewrite decide_False. Qed.

(** What is known of an execution from [now] on. *)
Record timed_ok {A} (arrive : Arrivals) (deadline now : N) (points : list AwaitPoint)
    (strike : option AwaitPoint) (t : N) (r : result Failure A) : Prop := {
  to_time : (t ≤ deadline)%N;
  to_points : ∀ p, strike = Some p → p ∈ points;
  to_struck : ∀ p, strike = Some p → t = deadline ∧ r = Err (Problem RequestTimeout) ∧
    ∀ d, due_from arrive now points p = Some d → (deadline < d)%N;
  to_through : strike = None → t = now ∨ ∃ p, due_from arrive now points p = Some t;
}.

Lemma timed_ok_later {A} arrive deadline now q points d strike t (r : result Failure A) :
  arrive q = Some d → q ∉ points → timed_ok arrive deadline (now + d) points strike t r →
  timed_ok arrive deadline now (q :: points) strike t r.
Proof.
  intros Hd Hq [Ht Hp Hs Hn]. split; [done|..].
  - intros p ?%Hp. by right.
  - intros p Hsp. destruct (Hs p Hsp) as (? & ? & Hdue). split_and!; [done..|].
    rewrite (due_later _ _ _ _ _ d); [done|done|]. intros ->. by apply Hq, Hp.
  - intros Hsn. right. destruct (Hn Hsn) as [->|[p Hp']].
    + exists q. by apply due_here.
    + destruct (decide (q = p)) as [->|Hne]; [|exists p; by rewrite (due_later _ _ _ _ _ d)].
      exfalso. clear - Hq Hp'. revert Hp'. generalize (now + d)%N. induction points as [|x points IH]; intros n; simpl; [done|].
      intros (e & _ & H)%bind_Some. apply not_elem_of_cons in Hq as [Hx Hq].
      rewrite decide_False in H by done. by eapply IH.
Qed.

Lemma run_timed_ok {A} arrive deadline env points (p : prog A) :
  paced points p → NoDup points → ∀ now l c, (now ≤ deadline)%N →
  ∃ t strike out, run_timed (Some deadline) arrive env p now l c = Some (t, out) ∧
    run_prog (with_timeout env strike) p l c = out ∧
    timed_ok arrive deadline now points strike t (fst (fst (fst out))).
Proof.
  intros Hp. induction Hp as [points r|at_ points k Hlate Hp IH|points X op k Hw Hp IH];
    intros Hnd now l c Hnow; cbn [run_timed].
  - exists now, None. eexists. split_and!; [done..|]. split; simpl; try done. auto.
  - apply list.NoDup_cons in Hnd as [Hni Hnd].
    assert (Hstruck : ∀ d, arrive at_ = d → (∀ n, d = Some n → (deadline < now + n)%N) →
      timed_ok (A := A) arrive deadline now (at_ :: points) (Some at_) deadline (Err (Problem RequestTimeout))).
    { intros d Hd Hlt. split; [done|intros p [= ->]; left|intros p [= <-]|done]. split_and!; [done..|].
      intros e He. simpl in He. rewrite Hd in He. destruct d as [n|]; [|done]. simpl in He.
      rewrite decide_True in He by done. injection He as <-. by apply Hlt. }
    destruct (arrive at_) as [d|] eqn:Ha.
    + simpl. rewrite Ha. simpl. destruct (N.leb_spec (now + d) deadline) as [Hle|Hlt]; simpl.
      * destruct (IH Hnd (now + d)%N l c Hle) as (t & strike & [[[r l'] c'] es] & -> & Hrun & Hok).
        exists t, strike, (r, l', c', es). split_and!; [done| |by eapply timed_ok_later].
        rewrite strikes_other by (intros ->; by apply Hni, (to_points _ _ _ _ _ _ _ Hok)).
        by rewrite Hrun.
      * exists deadline, (Some at_). rewrite strikes_here, Hlate. simpl. eexists. split_and!; [done..|].
        apply (Hstruck _ eq_refl). by intros n [= <-].
    + simpl. rewrite Ha. simpl. exists deadline, (Some at_). rewrite strikes_here, Hlate. simpl.
      eexists. split_and!; [done..|]. by apply (Hstruck _ eq_refl).
  - rewrite (timed_op_other _ _ _ _ _ _ _ None Hw). cbn [mbind option_bind].
    destruct (exec_op (with_timeout env None) op l c) as [[[x l1] c1] es1] eqn:E.
    destruct (IH x Hnd now l1 c1 Hnow) as (t & strike & [[[r l'] c'] es] & Ht & Hrun & Hok).
    rewrite Ht. simpl. exists t, strike, (r, l', c', es1 ++ es). split_and!; [done| |done].
    assert (E' : exec_op (with_timeout env strike) op l c = (x, l1, c1, es1)).
    { rewrite <- E. by destruct op. }
    by rewrite E', Hrun.
Qed.

Lemma handler_with_timeout env strike state request :
  handler_p (with_timeout env strike) state request = handler_p env state request.
Proof. reflexivity. Qed.

Lemma client_answers env state request w :
  ps_mode state = Client → is_Some (snd (proxy_handler env state request w)).
Proof.
  intros Hm. destruct (proxy_handler env state request w) as [w' out] eqn:E. simpl.
  destruct out as [|]; [by eexists|exfalso]. apply proxy_handler_inv in E as (r & Hrun & ->).
  rewrite Hm in Hrun.
  apply handle_client_inv in Hrun as [(p & ? & _)|(p & _ & Hs)]; [done|].
  apply send_upstream_inv in Hs as (_ & _ & [(_ & _ & ?)|(? & _ & _ & [?|?])]); done.
Qed.
End deadline.

(** ** Properties *)
Module Claims.
(** C17: Every request is answered by its deadline.  Whatever a handler waits for, the
    body of the request, the upstream's answer or the body of that answer, and however
    long it takes, for ever included, the answer is there no later than
    [request_timeout_seconds] after the request arrived, counting the time spent
    waiting; and it is the answer, and the effects are the effects, of the handler in
    which the timeout struck at one point or at none.  If it struck, the answer is
    [connector.request_timeout], given at the deadline, and the wait it struck in would
    have ended after the deadline; if not, the answer is given at once when the last
    wait ends.  In client mode and for a validated server there always is an answer: no
    handler panics. *)
Theorem answered_in_time {PL : PercentLib} {UL : UrlLib} {SL : Sha256Lib} {SS : Sha256Spec}
    {PK : PkiLib} {HL : HttpLib} {PD : PdpLib} {AL : AuditLib} {AS : AuditSpec} {OL : OutboundLib}
    (arrive : Arrivals) (env : Env) (state : ProxyState) (request : Request) (w : World) :
  let deadline := request_timeout (ps_config state) in
  ∃ t w' out strike,
    timed_handler arrive env state request w = Some (t, (w', out)) ∧ (t ≤ deadline)%N ∧
    proxy_handler (with_timeout env strike) state request w = (w', out) ∧
    match strike with
    | Some p => t = deadline ∧
        (∃ log, out = Some (Refused (problem_response RequestTimeout), log)) ∧
        ∀ d, due arrive p = Some d → (deadline < d)%N
    | None => t = 0%N ∨ ∃ p, due arrive p = Some t
    end ∧
    (ps_mode state = Client → is_Some out) ∧
    ∀ venv require_env environ, validate_config venv (ps_config state) Server require_env = Ok tt →
      ProxyState_server environ (ps_config state) = Ok state → is_Some out.
Proof.
  intros deadline. destruct w as [l c es0].
  destruct (run_timed_ok arrive deadline env _ _ (handler_paced env state request)
    ltac:(by apply (bool_decide_eq_true_1 (NoDup await_points))) 0%N l c (N.le_0_l _))
    as (t & strike & [[[r l'] c'] es] & Hrun & Hprog & [Ht _ Hs Hn]).
  exists t, {| w_limiter := l'; w_caches := c'; w_events := es0 ++ es |},
    (finish_request env state request r), strike.
  assert (Hout : proxy_handler (with_timeout env strike) state request
      {| w_limiter := l; w_caches := c; w_events := es0 |}
    = ({| w_limiter := l'; w_caches := c'; w_events := es0 ++ es |}, finish_request env state request r)).
  { rewrite proxy_handler_alone, handler_with_timeout, Hprog. done. }
  split_and!; [|done|done|..].
  - unfold timed_handler, timed_with. fold deadline. cbn [w_limiter w_caches]. by rewrite Hrun.
  - destruct strike as [p|]; [|by apply Hn]. destruct (Hs p eq_refl) as (-> & Hr & Hd). simpl in Hr.
    split_and!; [done| |done]. rewrite Hr. simpl. by eexists.
  - intros Hm. pose proof (client_answers (with_timeout env strike) state request
      {| w_limiter := l; w_caches := c; w_events := es0 |} Hm) as H. by rewrite Hout in H.
  - intros venv require_env environ Hv Hst. pose proof (server_answers venv require_env environ _ _
      (with_timeout env strike) request {| w_limiter := l; w_caches := c; w_events := es0 |} Hv Hst) as H.
    by rewrite Hout in H.
Qed.

(** An upstream that is silent for ever: with the timeout of the configuration the
    request is refused at the deadline, and without any it would never be answered. *)
Definition wit_silent : Arrivals := λ p, match p with AtBody => Some 5%N | _ => None end.
Example silent_upstream :
  let timed deadline := @timed_with ref_percent ref_url ref_sha256 ref_pki Ref.ref_http ref_pdp ref_audit
    deadline wit_silent Proxy.Claims.wit_penv Proxy.Claims.wit_server
    (Proxy.Claims.wit_request "/v1/x" "operations") Proxy.Claims.wit_world in
  option_map (λ out, (out.1, option_map (λ o, reply_status o.1) out.2.2)) (timed (Some 30000000000%N))
    = Some (30000000000%N, Some 408%N) ∧
  timed None = None.
Proof. split; vm_compute; reflexivity. Qed.

Lemma answered_in_time_witness :
  ∃ t w' out, @timed_handler ref_percent ref_url ref_sha256 ref_pki Ref.ref_http ref_pdp ref_audit
      wit_silent Proxy.Claims.wit_penv Proxy.Claims.wit_server
      (Proxy.Claims.wit_request "/v1/x" "operations") Proxy.Claims.wit_world = Some (t, (w', out)) ∧
    (t ≤ 30 * 1000000000)%N ∧ is_Some out.
Proof.
  destruct (@answered_in_time ref_percent ref_url ref_sha256 ref_sha256_spec ref_pki Ref.ref_http
    ref_pdp ref_audit ref_audit_spec Proxy.Claims.ref_outbound wit_silent Proxy.Claims.wit_penv
    Proxy.Claims.wit_server (Proxy.Claims.wit_request "/v1/x" "operations") Proxy.Claims.wit_world)
    as (t & w' & out & strike & Hrun & Ht & _ & _ & _ & Hans).
  exists t, w', out. split; [exact Hrun|]. split; [exact Ht|].
  apply (Hans ConfigValidate.Claims.wit_env true ConfigValidate.Claims.wit_environ);
    vm_compute; reflexivity.
Defined.
End Claims.
