(* ===== verification/EndToEnd.v ===== *)
(** * Both connectors in a row ([src/src/proxy.rs])

    A request passes a client connector, the network, and a server connector
    before it reaches the registry.  This file relates what the caller sent to
    what the registry receives.  The network stack between the two may own some
    headers ([host], [content-length] and the like); the others arrive as they
    were sent.  The path goes through [Url::parse] on the way, by whose law a path of
    ordinary bytes arrives unchanged and others do not. *)
From S2P Require Import Prelude RustStr BTree Errors External Reference Http Pdp Config Routing.
From S2P Require Import RateLimit Identity Tls PolicyHash Purpose Redaction ConfigValidate Proxy.
From Stdlib Require Import Ascii.

Section hops.
Context {PL : PercentLib} {UL : UrlLib} {SL : Sha256Lib} {PK : PkiLib} {HL : HttpLib} {HS : HttpSpec}
  {PD : PdpLib} {PDS : PdpSpec} {AL : AuditLib} {OL : OutboundLib}.

(** The headers of an outbound request arrive, those of the network stack apart. *)
Definition headers_delivered (transport : list HeaderName) (q : OutboundRequest) (request : Request)
    : Prop :=
  ∀ n, (n ∉ transport) →
    hm_get_all (rq_headers request) n = (filter (λ e, e.1 = n) (ob_headers q)).*2.

(** A request sent by a client connector, and the gates it passed. *)
Lemma client_sent env state request w w' out c q :
  ps_mode state = Client → proxy_handler env state request w = (w', out) →
  Sent c q ∈ w_events w' → (Sent c q ∉ w_events w) →
  ∃ p, client_gates state request (rid_of env request) p ∧ ob_headers q = named_headers (cp_headers p) ∧
    ob_url q = cp_url p.
Proof.
  intros Hm (r & Hrun & _)%proxy_handler_inv Hin Hold. rewrite Hm in Hrun.
  apply handle_client_sends in Hrun as (new & He & Hcase). rewrite He, elem_of_app in Hin.
  destruct Hin as [Hin|Hin]; [done|].
  destruct Hcase as [[Hns _]|(p & method & Hg & _ & -> & _)]; [by apply Hns in Hin|].
  apply list_elem_of_singleton in Hin as [= -> ->]. by exists p.
Qed.

Lemma server_sent env state request w w' out c q :
  ps_mode state = Server → proxy_handler env state request w = (w', out) →
  Sent c q ∈ w_events w' → (Sent c q ∉ w_events w) →
  ∃ p, server_gates env state request (rid_of env request) w p ∧
    ob_headers q = named_headers (sp_headers p) ∧ ob_url q = sp_url p.
Proof.
  intros Hm (r & Hrun & _)%proxy_handler_inv Hin Hold. rewrite Hm in Hrun.
  apply handle_server_sends in Hrun as (new & He & Hcase). rewrite He, elem_of_app in Hin.
  destruct Hin as [Hin|Hin]; [done|].
  destruct Hcase as [[Hns _]|(logs & p & method & Hns & Hg & _ & -> & _)]; [by apply Hns in Hin|].
  apply sent_last in Hin as [-> ->]; [|done]. by exists p.
Qed.

(** What arrives under one name is at most the first value that was sent. *)
Lemma delivered_first transport q request h n :
  headers_delivered transport q request → ob_headers q = named_headers h → (n ∉ transport) →
  hm_get_all (rq_headers request) n = option_list (head (hm_get_all h n)).
Proof.
  intros Hd Hq Hn. rewrite (Hd n Hn), Hq, named_headers_values. by destruct (head (hm_get_all h n)).
Qed.

Lemma request_id_visible s : valid_request_id s = true → bytes_all (byte_in 32 126) s = true.
Proof.
  unfold valid_request_id. intros [_ H]%andb_true_iff. revert H. apply bytes_all_impl.
  intros c. unfold request_id_byte, is_ascii_alphanumeric, is_ascii_digit, is_ascii_lower, is_ascii_upper,
    byte_in. rewrite !orb_true_iff, !andb_true_iff, !N.leb_le.
  intros [[[[H|H]|H]|H]|H]; [lia|apply Ascii.eqb_eq in H as ->; vm_compute; split; discriminate..].
Qed.

Lemma rid_hop cenv cstate request p transport q senv request' :
  client_gates cstate request (rid_of cenv request) p → ob_headers q = named_headers (cp_headers p) →
  headers_delivered transport q request' → (REQUEST_ID ∉ transport) → valid_request_id (en_ulid cenv) = true →
  rid_of senv request' = rid_of cenv request.
Proof.
  intros Hg Hq Hd Hn Hu. pose proof (client_headers_lookup _ _ _ _ _ _ (cg_headers _ _ _ _ Hg) REQUEST_ID) as Hl.
  rewrite decide_False, decide_False, decide_False, decide_True in Hl
    by (unfold REQUEST_ID, DATA_PURPOSE, CONNECTOR_ID, CONNECTOR_VERSION; naive_solver).
  pose proof (delivered_first _ _ _ _ _ Hd Hq Hn) as Hget. rewrite Hl in Hget. simpl in Hget.
  pose proof (request_id_valid (en_ulid cenv) (rq_headers request) Hu) as Hv. fold (rid_of cenv request) in Hv.
  unfold rid_of at 1, request_id, hm_get. rewrite Hget. simpl.
  rewrite (header_value_to_str_visible _ (request_id_visible _ Hv)). simpl. by rewrite Hv.
Qed.

Lemma purpose_hop cstate request rid p transport q request' v :
  client_gates cstate request rid p → ob_headers q = named_headers (cp_headers p) →
  headers_delivered transport q request' → (DATA_PURPOSE ∉ transport) →
  data_purpose_values (rq_headers request') = [v] →
  ∃ x, cp_purpose p = Some x ∧ v = trim x.
Proof.
  intros Hg Hq Hd Hn Hv. unfold data_purpose_values in Hv.
  rewrite (delivered_first _ _ _ _ _ Hd Hq Hn) in Hv.
  pose proof (client_headers_lookup _ _ _ _ _ _ (cg_headers _ _ _ _ Hg) DATA_PURPOSE) as Hl.
  destruct (head (hm_get_all (cp_headers p) DATA_PURPOSE)) as [x|] eqn:Eh; [|done]. simpl in Hv.
  destruct (header_value_to_str x) as [s|] eqn:Es; [|done]. simpl in Hv.
  destruct (str_is_empty (trim s)) eqn:Et; [done|]. injection Hv as <-.
  apply header_value_to_str_bytes in Es as Hb. destruct Hb as [-> _].
  destruct (cp_purpose p) as [y|] eqn:Ep.
  - rewrite decide_True in Hl by eauto. rewrite Hl in Eh. injection Eh as ->. eauto.
  - exfalso. rewrite decide_False, decide_False, decide_False, decide_False in Hl
      by (unfold REQUEST_ID, DATA_PURPOSE, CONNECTOR_ID, CONNECTOR_VERSION; naive_solver eauto using is_Some_None).
    rewrite Hl in Eh. destruct (filtered_headers_caller (rq_headers request) (cp_match p) DATA_PURPOSE)
      as [Hnil|[Hc _]]; [by rewrite Hnil in Eh|]. rewrite Hc in Eh.
    pose proof (cg_purpose _ _ _ _ Hg) as Hr. rewrite Ep in Hr. unfold resolve_client_purpose, hm_get in Hr.
    rewrite Eh in Hr. simpl in Hr. rewrite Es in Hr. simpl in Hr. unfold not_blank in Hr. rewrite Et in Hr.
    simpl in Hr. destruct (rt_require_purpose _); [|done].
    destruct (unwrap_or _ _); [done| |done]. by destruct (opt_filter _ (df_data_purpose _)).
Qed.

(** What arrives of an outbound request. *)
Record delivered (transport : list HeaderName) (q : OutboundRequest) (request : Request) : Prop := {
  dv_method : rq_method request = ob_method q;
  dv_headers : headers_delivered transport q request;
  dv_body : ∀ max, (N.of_nat (String.length (ob_body q)) ≤ max)%N →
    to_bytes (rq_body request) max = Ok (ob_body q);
}.

(** What comes back of a response. *)
Record returned (resp : Response) (up : UpstreamResponse) : Prop := {
  rt_status : status_from_u16 (resp_status up) = Some (rs_status resp);
  rt_body : ∀ max, (N.of_nat (String.length (rs_body resp)) ≤ max)%N →
    read_bounded up max = Ok (rs_body resp);
  rt_headers : builder_body (rs_status resp) (hm_iter (filter_proxy_response_headers (resp_headers up)))
    (rs_body resp) = Ok tt;
}.

(** An answer that comes back within the limit is an answer of the upstream. *)
Lemma returned_answers env state q resp up :
  en_upstream env (ps_client state) q = Ok up → returned resp up →
  (N.of_nat (String.length (rs_body resp)) ≤ max_body_bytes (ps_config state))%N →
  ∃ resp', answers env state q resp' ∧ rs_status resp' = rs_status resp ∧ rs_body resp' = rs_body resp.
Proof.
  intros Hup [Hs Hb Hh] Hmax.
  exists {| rs_status := rs_status resp;
            rs_headers := hm_iter (filter_proxy_response_headers (resp_headers up));
            rs_body := rs_body resp |}.
  split; [|done]. split; simpl; [|done]. exists up. split_and!; [done..|by apply Hb].
Qed.
End hops.

(** ** Properties *)
Module Claims.
(** C12: What the registry receives, over both connectors: a header under the
    connectors' private prefix is the client identity header with the identity the
    server connector verified; the credential is the server connector's own; the
    request id is the one the client connector chose, so both logs and the registry
    agree on it; the purpose is the one the client connector resolved; neither
    [authorization] nor [cookie] of the caller gets through; and every other header
    that does not belong to the network stack is the caller's own. *)
Theorem two_hops {PL : PercentLib} {UL : UrlLib} {SL : Sha256Lib} {PK : PkiLib} {HL : HttpLib}
    {HS : HttpSpec} {PD : PdpLib} {PDS : PdpSpec} {AL : AuditLib} {OL : OutboundLib}
    (cenv senv : Env) (cstate sstate : ProxyState) (request request' : Request)
    (cw cw' sw sw' : World) (cout sout : option (Reply * CompletionLog)) (c c' : HttpClient)
    (q q' : OutboundRequest) (transport : list HeaderName) (venv : ValidationEnv) (require_env : bool)
    (environ : Environ) (config : ConnectorConfig) :
  ps_mode cstate = Client → valid_request_id (en_ulid cenv) = true →
  proxy_handler cenv cstate request cw = (cw', cout) →
  Sent c q ∈ w_events cw' → (Sent c q ∉ w_events cw) →
  headers_delivered transport q request' → (REQUEST_ID ∉ transport) → (DATA_PURPOSE ∉ transport) →
  validate_config venv config Server require_env = Ok tt →
  ProxyState_server environ config = Ok sstate →
  proxy_handler senv sstate request' sw = (sw', sout) →
  Sent c' q' ∈ w_events sw' → (Sent c' q' ∉ w_events sw) →
  rid_of senv request' = rid_of cenv request ∧
  ∃ identity m upstream secret,
    peer_proved config (en_now_verify senv) request' identity ∧ cf_upstream config = Some upstream ∧
    credential (en_environ senv) config m secret ∧
    ∀ n v, (n, v) ∈ ob_headers q' →
      if starts_with "x-registry-connector-" n
      then n = CONNECTOR_CLIENT_IDENTITY ∧ v = pi_value identity
      else if decide (n = to_ascii_lowercase (up_auth_header_name upstream)) then v = secret
      else if decide (n = REQUEST_ID) then v = rid_of cenv request
      else if decide (n = DATA_PURPOSE) then
        ∃ cm x, find_client_route (cf_routes (ps_config cstate)) (rq_method request) (rq_path request)
            = Ok cm ∧
          resolve_client_purpose (ps_config cstate) cm (rq_headers request) = Ok (Some x) ∧ v = trim x
      else n ≠ "authorization" ∧ n ≠ "cookie" ∧
        (n ∈ transport ∨ head (hm_get_all (rq_headers request) n) = Some v).
Proof.
  intros Hcm Hu Hcrun Hcin Hcold Hd Hnr Hnp Hval Hst Hsrun Hsin Hsold.
  pose proof (ProxyState_server_inv _ _ _ Hst) as (Hc & Hsm & _).
  destruct (client_sent _ _ _ _ _ _ _ _ Hcm Hcrun Hcin Hcold) as (p & Hcg & Hq & _).
  destruct (server_sent _ _ _ _ _ _ _ _ Hsm Hsrun Hsin Hsold) as (sp & Hsg & Hq' & _).
  pose proof (rid_hop _ _ _ _ _ _ senv _ Hcg Hq Hd Hnr Hu) as Hrid. split; [done|].
  destruct Hsg as [Hauth _ _ Hup _ Hh]. rewrite Hc in Hup, Hh.
  destruct (server_headers_lookup _ _ _ _ _ _ _ _ _ Hh) as (secret & Hcred & Hl).
  exists (sp_identity sp), (sp_match sp), (sp_upstream sp), secret.
  split_and!; [by eapply server_auth_peer|done|done|]. intros n v Hin. rewrite Hq' in Hin.
  apply elem_of_named_headers in Hin. rewrite Hl in Hin. clear Hl.
  apply validate_config_Ok in Hval as [[_ _ (up & Hup' & Huo & _)] _].
  rewrite Hup in Hup'. injection Hup' as <-. destruct (uo_name _ _ Huo) as (name & Hname & _ & Hpre).
  apply header_name_from_bytes_lower in Hname as ->.
  revert Hin. case_decide as Hni; [intros [= <-]; by destruct Hni as [-> _]|].
  case_decide as Hna; [intros [= <-]; subst n; rewrite Hpre; by rewrite decide_True|].
  rewrite (decide_False (P := n = to_ascii_lowercase _)) by done.
  case_decide as Hnr'; [intros [= <-]; subst n; by rewrite Hrid|].
  rewrite (decide_False (P := n = REQUEST_ID)) by done.
  case_decide as Hnp'; intros Hin.
  { subst n. simpl. rewrite head_option_list in Hin. destruct Hauth as [_ _ _ Hp].
    rewrite Hc in Hp. apply authorize_purpose_Ok in Hp. rewrite Hin in Hp.
    destruct (purpose_hop _ _ _ _ _ _ request' v Hcg Hq Hd Hnp) as (x & Hx & ->).
    - destruct Hp as [[_ Hp]|(y & [= <-] & Hp & _)]; exact Hp.
    - exists (cp_match p), x. destruct Hcg as [Hroute Hres _ _ _ _]. rewrite Hx in Hres. done. }
  destruct (strict_headers_caller (rq_headers request') n) as [Hnil|(Hs & [?|Ha] & [?|Hk] & Hpr)];
    [by rewrite Hnil in Hin|done..|].
  rewrite Hpr, decide_False by done. split_and!; [done..|]. destruct (decide (n ∈ transport)) as [?|Ht]; [by left|right].
  rewrite Hs, (delivered_first _ _ _ _ _ Hd Hq Ht), head_option_list in Hin.
  rewrite (client_headers_lookup _ _ _ _ _ _ (cg_headers _ _ _ _ Hcg) n) in Hin.
  rewrite !decide_False in Hin by (first [done|intros [-> _]; done|intros ->; done]).
  destruct (filtered_headers_caller (rq_headers request) (cp_match p) n) as [Hnil|[Hf _]];
    [by rewrite Hnil in Hin|by rewrite Hf in Hin].
Qed.

(** The request of [Proxy.Claims] through the concrete client and the concrete
    server; the network stack adds a [host] header. *)
Definition wit_in : @Request Ref.ref_http := Proxy.Claims.wit_request "/relay/x" "operations".
Definition wit_out : @OutboundRequest ref_url := Proxy.Claims.wit_sent Proxy.Claims.wit_client wit_in.
Definition wit_arrived : @Request Ref.ref_http := {|
  rq_method := "GET"; rq_path := "/v1/x"; rq_query := None;
  rq_headers := (("host", "server:9443") :: ob_headers wit_out : @HeaderMap Ref.ref_http);
  rq_body := ("hello" : @Body Ref.ref_http);
  rq_chain := Some ["leaf"; "ca"] |}.
Definition wit_final : @OutboundRequest ref_url :=
  Proxy.Claims.wit_sent Proxy.Claims.wit_server wit_arrived.

Example wit_final_headers :
  ob_headers wit_final =
  [("host", "server:9443"); ("accept", "a"); ("data-purpose", "operations");
   ("x-request-id", "01ARZ3NDEKTSV4RRFFQ69G5FAV"); ("authorization", "Bearer s3cret");
   ("x-registry-connector-client-identity", "spiffe://client.example/w")].
Proof. vm_compute. reflexivity. Qed.

Lemma wit_delivered : @headers_delivered ref_url Ref.ref_http ["host"] wit_out wit_arrived.
Proof.
  intros n Hn. change (Ref.get_all (("host", "server:9443") :: ob_headers wit_out) n =
    (filter (λ e, e.1 = n) (ob_headers wit_out)).*2).
  unfold Ref.get_all. f_equal. apply filter_cons_False. simpl. intros <-. apply Hn. left.
Qed.

Lemma two_hops_witness :
  @rid_of ref_url ref_pki Ref.ref_http Proxy.Claims.wit_penv wit_arrived =
    @rid_of ref_url ref_pki Ref.ref_http Proxy.Claims.wit_penv wit_in ∧
  ∃ identity m upstream secret,
    @peer_proved ref_url ref_sha256 ref_pki Ref.ref_http (ps_config Proxy.Claims.wit_server) Proxy.Claims.wit_clock
      wit_arrived identity ∧
    cf_upstream (ps_config Proxy.Claims.wit_server) = Some upstream ∧
    @credential ref_url ConfigValidate.Claims.wit_environ (ps_config Proxy.Claims.wit_server) m secret ∧
    ∀ n v, (n, v) ∈ ob_headers wit_final →
      if starts_with "x-registry-connector-" n
      then n = CONNECTOR_CLIENT_IDENTITY ∧ v = pi_value identity
      else if decide (n = to_ascii_lowercase (up_auth_header_name upstream)) then v = secret
      else if decide (n = REQUEST_ID)
      then v = @rid_of ref_url ref_pki Ref.ref_http Proxy.Claims.wit_penv wit_in
      else if decide (n = DATA_PURPOSE) then
        ∃ cm x, @find_client_route ref_percent (cf_routes Proxy.Claims.wit_client_config) "GET" "/relay/x"
            = Ok cm ∧
          @resolve_client_purpose Ref.ref_http ref_url Proxy.Claims.wit_client_config cm (rq_headers wit_in)
            = Ok (Some x) ∧ v = trim x
      else n ≠ "authorization" ∧ n ≠ "cookie" ∧
        (n ∈ ["host"] ∨ head (@hm_get_all Ref.ref_http (rq_headers wit_in) n) = Some v).
Proof.
  eapply (@two_hops ref_percent ref_url ref_sha256 ref_pki Ref.ref_http Ref.ref_http_spec ref_pdp
    ref_pdp_spec ref_audit Proxy.Claims.ref_outbound Proxy.Claims.wit_penv Proxy.Claims.wit_penv
    Proxy.Claims.wit_client Proxy.Claims.wit_server wit_in wit_arrived Proxy.Claims.wit_world
    (fst (Proxy.Claims.wit_run Proxy.Claims.wit_client wit_in)) Proxy.Claims.wit_world
    (fst (Proxy.Claims.wit_run Proxy.Claims.wit_server wit_arrived)) _ _
    (tt : @HttpClient ref_pki) (tt : @HttpClient ref_pki) wit_out wit_final ["host"]
    ConfigValidate.Claims.wit_env true ConfigValidate.Claims.wit_environ
    (ps_config Proxy.Claims.wit_server)).
  - reflexivity.
  - vm_compute. reflexivity.
  - apply surjective_pairing.
  - vm_compute. left.
  - apply not_elem_of_nil.
  - apply wit_delivered.
  - rewrite list_elem_of_singleton. discriminate.
  - rewrite list_elem_of_singleton. discriminate.
  - vm_compute. reflexivity.
  - vm_compute. reflexivity.
  - apply surjective_pairing.
  - vm_compute. right. right. left.
  - apply not_elem_of_nil.
Defined.

(** C21: A round trip over both connectors ends well.  A caller's request that has a
    route, a purpose and a body within the limit at the client connector, whose
    delivery the server connector authorises within the caller's rate, and which the
    registry answers in time, is answered to the caller with the registry's status and
    body; on the way exactly one request reaches the server connector and exactly one
    the registry, the latter with the caller's own method and body. *)
Theorem round_trip {PL : PercentLib} {UL : UrlLib} {SL : Sha256Lib} {SS : Sha256Spec} {PK : PkiLib}
    {HL : HttpLib} {HS : HttpSpec} {PD : PdpLib} {AL : AuditLib} {AS : AuditSpec} {OL : OutboundLib}
    (cenv senv : Env) (cstate sstate : ProxyState) (request request' : Request) (cw sw : World)
    (p : ClientPass) (method : string) (transport : list HeaderName) (venv : ValidationEnv)
    (config : ConnectorConfig) (identity : PeerIdentity) (m : RouteMatch) (purpose : option string)
    (upstream : UpstreamConfig) (url : Url) (answer : Response) (back : UpstreamResponse) :
  let q := outbound method (cp_url p) (cp_headers p) (cp_body p) in
  ps_mode cstate = Client → client_gates cstate request (rid_of cenv request) p →
  method_from_bytes (rq_method request) = Some method → en_timeout cenv = None →
  delivered transport q request' →
  validate_config venv config Server true = Ok tt →
  ProxyState_server (en_environ senv) config = Ok sstate → ve_environ venv = en_environ senv →
  server_auth senv sstate request' sw identity m purpose →
  snd (rate_check (w_limiter sw) (en_instant senv) (pi_value identity) (rt_id (rm_route m))
    (lm_max_requests_per_identity_per_minute (cf_limits config))) = Ok tt →
  (N.of_nat (String.length (cp_body p)) ≤ max_body_bytes config)%N →
  credential_named config m → encodable senv config m identity purpose →
  cf_upstream config = Some upstream →
  build_url (up_base_url upstream) (rm_upstream_path m) (rq_query request') = Some url →
  en_timeout senv = None → upstream_answers senv sstate answer →
  en_upstream cenv (ps_client cstate) q = Ok back → returned answer back →
  (N.of_nat (String.length (rs_body answer)) ≤ max_body_bytes (ps_config cstate))%N →
  ∃ cw' sw' resp clog slog logs headers,
    proxy_handler cenv cstate request cw = (cw', Some (Forwarded resp, clog)) ∧
    proxy_handler senv sstate request' sw = (sw', Some (Forwarded answer, slog)) ∧
    rs_status resp = rs_status answer ∧ rs_body resp = rs_body answer ∧
    w_events cw' = w_events cw ++ [Sent (ps_client cstate) q] ∧ no_sends logs ∧
    w_events sw' = w_events sw ++ logs ++
      [Sent (ps_client sstate) (outbound (rq_method request) url headers (cp_body p))].
Proof.
  intros q Hcm Hcg Hm Hcto [Hdm Hdh Hdb] Hok Hst Hve Hauth Hrate Hlen Hnamed Henc Hup Hurl Hsto Hans
    Hback Hret Hblen.
  assert (method = rq_method request) as -> by (by apply method_from_bytes_token).
  assert (Hbody : to_bytes (rq_body request') (max_body_bytes config) = Ok (cp_body p)) by (by apply Hdb).
  assert (Hm' : method_from_bytes (rq_method request') = Some (rq_method request)) by (by rewrite Hdm).
  destruct (server_forwards venv config sstate senv request' sw identity m purpose (cp_body p) upstream url
    (rq_method request) answer Hok Hst Hve Hauth Hrate Hbody Hnamed Henc Hup Hurl Hm' Hsto Hans)
    as (sw' & slog & logs & headers & Hs & Hns & He & _).
  destruct (returned_answers _ _ _ _ _ Hback Hret Hblen) as (resp & Hresp & Hstatus & Hb).
  destruct (handle_client_serves cenv cstate request (rid_of cenv request) cw p (rq_method request) resp
    Hcg Hcto Hm Hresp) as (cw' & Hc & Hce).
  exists cw', sw', resp. eexists. exists slog, logs, headers. split_and!; try done.
  unfold proxy_handler. rewrite Hcm. unfold rid_of in Hc. by rewrite Hc.
Qed.

(** What the concrete client connector makes of that request, and the answer that
    comes back. *)
Definition wit_pass : @ClientPass ref_url Ref.ref_http := {|
  cp_match := {| rm_route := match cf_routes Proxy.Claims.wit_client_config with
                             | r :: _ => r | [] => rm_route Proxy.Claims.wit_match end;
                 rm_upstream_path := "/v1/x" |};
  cp_purpose := Some "operations"; cp_body := "hello";
  cp_server := {| sv_url := (("https://server:9443", "/") : @Url ref_url); sv_trust_bundle := "ca" |};
  cp_url := (("https://server:9443", "/v1/x") : @Url ref_url);
  cp_headers := ([("accept", "a"); ("accept", "b"); ("x-request-id", "01ARZ3NDEKTSV4RRFFQ69G5FAV");
    ("x-registry-connector-version", "0.1.0"); ("x-registry-connector-id", "connector-1");
    ("data-purpose", "operations")] : @HeaderMap Ref.ref_http) |}.
Definition wit_answer : Response := {| rs_status := 200%N; rs_headers := []; rs_body := "done" |}.
Definition wit_back : @UpstreamResponse Ref.ref_http :=
  {| Ref.r_status := 200; Ref.r_headers := []; Ref.r_body := "done" |}.

Lemma round_trip_witness :
  ∃ cw' sw' resp clog slog logs headers,
    Proxy.Claims.wit_run Proxy.Claims.wit_client wit_in = (cw', Some (Forwarded resp, clog)) ∧
    Proxy.Claims.wit_run Proxy.Claims.wit_server wit_arrived = (sw', Some (Forwarded wit_answer, slog)) ∧
    rs_status resp = 200%N ∧ rs_body resp = "done" ∧
    w_events cw' = [] ++ [Sent (tt : @HttpClient ref_pki) (@outbound ref_url Ref.ref_http "GET"
      (cp_url wit_pass) (cp_headers wit_pass) "hello")] ∧ no_sends logs ∧
    w_events sw' = [] ++ logs ++ [Sent (tt : @HttpClient ref_pki) (@outbound ref_url Ref.ref_http "GET"
      (("http://relay:8080", "/v1/x") : @Url ref_url) headers "hello")].
Proof.
  eapply (@round_trip ref_percent ref_url ref_sha256 ref_sha256_spec ref_pki Ref.ref_http
    Ref.ref_http_spec ref_pdp ref_audit ref_audit_spec Proxy.Claims.ref_outbound
    Proxy.Claims.wit_penv Proxy.Claims.wit_penv Proxy.Claims.wit_client Proxy.Claims.wit_server
    wit_in wit_arrived Proxy.Claims.wit_world Proxy.Claims.wit_world wit_pass "GET" ["host"]
    ConfigValidate.Claims.wit_env (ps_config Proxy.Claims.wit_server) Proxy.Claims.wit_identity
    Proxy.Claims.wit_match (Some "operations") _ _ wit_answer wit_back).
  - reflexivity.
  - split; vm_compute; reflexivity.
  - vm_compute. reflexivity.
  - reflexivity.
  - split; [reflexivity|exact wit_delivered|]. intros max Hmax.
    change (Ref.bounded "hello" max = Ok "hello"). unfold Ref.bounded.
    change (N.of_nat (String.length "hello") ≤ max)%N in Hmax. by apply N.leb_le in Hmax as ->.
  - vm_compute. reflexivity.
  - vm_compute. reflexivity.
  - reflexivity.
  - split; [do 2 eexists; split; [reflexivity|split; [reflexivity|]]| | |]; vm_compute; reflexivity.
  - vm_compute. reflexivity.
  - vm_compute. discriminate.
  - right. eexists. split; [reflexivity|]. by eexists.
  - split; [by eexists|intros p [= <-]; by eexists|by eexists|].
    intros v (up & var & secret & Hup & Hvar & Hs & _ & ->). injection Hup as <-.
    destruct Hvar as [Hvar|[_ Hvar]]; [discriminate Hvar|]. injection Hvar as <-.
    vm_compute in Hs. injection Hs as <-. vm_compute. by eexists.
  - reflexivity.
  - vm_compute. reflexivity.
  - reflexivity.
  - split; [|reflexivity]. eexists. split_and!; reflexivity.
  - reflexivity.
  - split; [reflexivity| |reflexivity]. intros max Hmax.
    change (Ref.bounded "done" max = Ok "done"). unfold Ref.bounded.
    change (N.of_nat (String.length "done") ≤ max)%N in Hmax. by apply N.leb_le in Hmax as ->.
  - vm_compute. discriminate.
Defined.



(** C39: The path that is checked is not the path that is requested upstream.  The
    canonical path is pasted into the URL as it is and read again there.  Whatever a
    server connector sends for a request to [/segment/%252e%252e/rest] goes to the path
    [/rest], although the route was selected for a path under [/segment]; and whatever it
    sends for a request to [path%3Fextra] without query goes to [path], although the
    route was selected for [path?extra]. *)
Theorem canonical_path_reinterpreted {PL : PercentLib} {PS : PercentSpec} {UL : UrlLib} {US : UrlSpec}
    {SL : Sha256Lib} {PK : PkiLib} {HL : HttpLib} {HS : HttpSpec} {PD : PdpLib} {PDS : PdpSpec}
    {AL : AuditLib} {OL : OutboundLib} (environ : Environ) (config : ConnectorConfig)
    (state : ProxyState) (env : Env) (request : Request) (w w' : World)
    (out : option (Reply * CompletionLog)) (c : HttpClient) (q : OutboundRequest)
    (upstream : UpstreamConfig) (text : string) :
  ProxyState_server environ config = Ok state → cf_upstream config = Some upstream →
  url_parse text = Some (up_base_url upstream) →
  url_scheme (up_base_url upstream) ∈ ["http"; "https"] →
  proxy_handler env state request w = (w', out) →
  Sent c q ∈ w_events w' → (Sent c q ∉ w_events w) →
  ∃ identity m, route_proved config request identity m ∧
    (∀ segment rest,
       bytes_all plain_path_byte segment = true → str_contains "/" segment = false →
       segment ≠ "." → segment ≠ ".." →
       bytes_all plain_path_byte rest = true → no_dot_segments rest →
       rq_path request = "/" +:+ segment +:+ "/%252e%252e/" +:+ rest →
       prefix_matches (rm_upstream_path m) ("/" +:+ segment) = true ∧
       url_path (ob_url q) = "/" +:+ rest) ∧
    (∀ path extra,
       starts_with_char "/" path = true → bytes_all plain_path_byte path = true → no_dot_segments path →
       bytes_all plain_path_byte extra = true → str_contains "/" extra = false →
       rq_path request = path +:+ "%3F" +:+ extra → rq_query request = None →
       rm_upstream_path m = path +:+ "?" +:+ extra ∧ url_path (ob_url q) = path).
Proof.
  intros Hst Hup Htext Hscheme Hrun Hin Hold.
  pose proof (ProxyState_server_inv _ _ _ Hst) as (Hc & Hm & _).
  destruct (server_sent _ _ _ _ _ _ _ _ Hm Hrun Hin Hold) as (p & Hg & _ & Hurl).
  destruct (gates_proved _ _ _ _ _ _ _ _ Hst Hg) as (_ & Hroute & _).
  exists (sp_identity p), (sp_match p). split; [done|]. pose proof (rp_path _ _ _ _ Hroute) as Hpath.
  destruct Hg as [_ _ _ Hup' Hu _]. rewrite Hc, Hup in Hup'. injection Hup' as Hup'. rewrite <- Hup' in Hu.
  unfold build_url, url_text in Hu. rewrite Hurl. split.
  - intros segment rest Hs Hsl H1 H2 Hr Hd Hreq.
    rewrite Hreq, canonical_double_encoded in Hpath by done. injection Hpath as Hpath.
    rewrite <- Hpath in Hu |- *. split.
    + apply prefix_matches_iff. right. exists ("/%2e%2e/" +:+ rest). by split; [|right].
    + rewrite <- (whatwg_path_double_dot segment rest) by done.
      eapply url_parse_path; [exact Htext|exact Hscheme|done| |exact Hu].
      destruct (plain_path_bytes _ Hs) as (Hsb & _), (plain_path_bytes _ Hr) as (Hrb & _).
      by rewrite !bytes_all_app, Hsb, Hrb.
  - intros path extra Hsl Hp Hd He Hes Hreq Hq.
    rewrite Hreq, canonical_question in Hpath by done. injection Hpath as Hpath.
    rewrite Hq in Hu. rewrite <- Hpath in Hu |- *. split; [done|].
    destruct (plain_path_bytes _ Hp) as (Hpb & Hpp & _ & _).
    transitivity (whatwg_path path); [|by apply whatwg_path_plain].
    apply (url_parse_path text (up_base_url upstream) path (Some extra)); [done..|].
    by rewrite str_app_nil_r in Hu.
Qed.

Definition wit_escape : @Request Ref.ref_http := Proxy.Claims.wit_request "/v1/%252e%252e/admin" "operations".

Lemma canonical_path_reinterpreted_witness :
  prefix_matches "/v1/%2e%2e/admin" "/v1" = true ∧
  url_path (ob_url (Proxy.Claims.wit_sent Proxy.Claims.wit_server wit_escape)) = "/admin".
Proof.
  destruct (@canonical_path_reinterpreted ref_percent ref_percent_spec ref_url ref_url_spec ref_sha256 ref_pki
    Ref.ref_http Ref.ref_http_spec ref_pdp ref_pdp_spec ref_audit Proxy.Claims.ref_outbound
    ConfigValidate.Claims.wit_environ (ps_config Proxy.Claims.wit_server) Proxy.Claims.wit_server
    Proxy.Claims.wit_penv wit_escape Proxy.Claims.wit_world
    (fst (Proxy.Claims.wit_run Proxy.Claims.wit_server wit_escape))
    (snd (Proxy.Claims.wit_run Proxy.Claims.wit_server wit_escape)) (tt : @HttpClient ref_pki)
    (Proxy.Claims.wit_sent Proxy.Claims.wit_server wit_escape)
    {| up_base_url := (("http://relay:8080", "/") : @Url ref_url);
       up_default_auth_header_env := Some "TOKEN"; up_auth_header_name := "Authorization";
       up_auth_header_scheme := "Bearer" |} "http://relay:8080")
    as (identity & m & Hroute & Hdots & _).
  - vm_compute. reflexivity.
  - vm_compute. reflexivity.
  - vm_compute. reflexivity.
  - vm_compute. left.
  - apply surjective_pairing.
  - vm_compute. right. right. left.
  - apply not_elem_of_nil.
  - split; [reflexivity|].
    exact (proj2 (Hdots "v1" "admin" eq_refl eq_refl ltac:(discriminate) ltac:(discriminate) eq_refl
      ltac:(intros seg Hs; apply list_elem_of_singleton in Hs as ->; done) eq_refl)).
Defined.

(** C40: Validation does not look at [connector_id], which the client connector sends as
    a header: the checks accept a configuration with any connector id when they accept
    it with another, but with one that is no header value every request is refused and
    nothing is ever sent. *)
Theorem connector_id_unchecked {PL : PercentLib} {UL : UrlLib} {SL : Sha256Lib} {PK : PkiLib}
    {HL : HttpLib} {PD : PdpLib} {AL : AuditLib} {OL : OutboundLib} (venv : ValidationEnv)
    (config : ConnectorConfig) (require_env : bool) (client : HttpClient) (id : string)
    (env : Env) (request : Request) (w : World) :
  header_value_from_str id = None →
  let config' := {|
    cf_listen := cf_listen config; cf_server := cf_server config;
    cf_client_identity := cf_client_identity config; cf_defaults := cf_defaults config;
    cf_audit := cf_audit config; cf_limits := cf_limits config; cf_routes := cf_routes config;
    cf_server_identity := cf_server_identity config; cf_client_trust := cf_client_trust config;
    cf_upstream := cf_upstream config;
    cf_allow_non_loopback_client_listen := cf_allow_non_loopback_client_listen config;
    cf_allow_dns_san_identity := cf_allow_dns_san_identity config;
    cf_connector_id := Some id |} in
  validate_config venv config' Client require_env = validate_config venv config Client require_env ∧
  ∃ doc log, proxy_handler env (ProxyState_client config' client) request w = (w, Some (Refused doc, log)).
Proof.
  intros Hid config'. split; [done|].
  destruct (proxy_handler env (ProxyState_client config' client) request w) as [w' out] eqn:E.
  pose proof E as (r & Hrun & Hout)%proxy_handler_inv. simpl in Hrun.
  apply handle_client_inv in Hrun as [(p & -> & ->)|(p & Hg & _)].
  - destruct out as [[[resp|doc] log]|]; [done|by eauto|done].
  - exfalso. pose proof (cg_headers _ _ _ _ Hg) as Hh. unfold client_headers in Hh. simpl in Hh.
    apply bind_Ok_inv in Hh as (v & _ & Hh). unfold header_value in Hh. rewrite Hid in Hh. done.
Qed.

Lemma connector_id_unchecked_witness :
  ∃ doc log, @proxy_handler ref_percent ref_url ref_sha256 ref_pki Ref.ref_http ref_pdp ref_audit
    Proxy.Claims.wit_penv
    (ProxyState_client {|
      cf_listen := cf_listen Proxy.Claims.wit_client_config;
      cf_server := cf_server Proxy.Claims.wit_client_config;
      cf_client_identity := cf_client_identity Proxy.Claims.wit_client_config;
      cf_defaults := cf_defaults Proxy.Claims.wit_client_config;
      cf_audit := cf_audit Proxy.Claims.wit_client_config;
      cf_limits := cf_limits Proxy.Claims.wit_client_config;
      cf_routes := cf_routes Proxy.Claims.wit_client_config;
      cf_server_identity := None; cf_client_trust := None; cf_upstream := None;
      cf_allow_non_loopback_client_listen := false; cf_allow_dns_san_identity := false;
      cf_connector_id := Some newline |} (tt : @HttpClient ref_pki)) wit_in Proxy.Claims.wit_world
    = (Proxy.Claims.wit_world, Some (Refused doc, log)).
Proof.
  apply (@connector_id_unchecked ref_percent ref_url ref_sha256 ref_pki Ref.ref_http ref_pdp ref_audit
    Proxy.Claims.ref_outbound ConfigValidate.Claims.wit_env Proxy.Claims.wit_client_config false
    (tt : @HttpClient ref_pki) newline Proxy.Claims.wit_penv wit_in Proxy.Claims.wit_world).
  vm_compute. reflexivity.
Defined.
End Claims.
