(* ===== verification/Main.v ===== *)
(** * The program ([src/src/main.rs], [load] of [src/src/config.rs])

    The process from its arguments to its exit code: command dispatch, the
    [validate] command with its two output formats, the start-up of both modes, and
    the accept loop of the server as a transition system over its connection
    permits. What a command prints is a list of lines; the JSON printer, the file
    system and the environment are arguments. *)
From S2P Require Import Prelude RustStr BTree Errors External Reference Http Pdp Config SocketAddr.
From S2P Require Import Decode Document Routing RateLimit Identity Tls PolicyHash Purpose Redaction.
From S2P Require Import ConfigValidate Proxy Concurrent.
From Stdlib Require Import Ascii.

(** ** Command line *)
Inductive CliMode : Type := CliClient | CliServer.
Inductive ValidationOutputFormat : Type := FormatText | FormatJson.

Inductive Command : Type :=
| Validate (config : string) (require_env : bool) (mode : option CliMode)
    (format : ValidationOutputFormat)
| RunClient (config : string)
| RunServer (config : string).

Definition mode_from (m : CliMode) : Mode :=
  match m with CliClient => Client | CliServer => Server end.

Definition mode_debug (m : Mode) : string := match m with Client => "Client" | Server => "Server" end.

Definition TRUST_CONNECTOR_CONFIG_SCHEMA_VERSION : string := "registry.trust_connector.config.v1".

(** ** Reports *)
Record Diagnostic : Type := { dg_code : string; dg_severity : string; dg_message : string }.

Record EnvStatus : Type := { es_name : string; es_classification : string; es_status : string }.

Record Report : Type := {
  rp_schema_version : string;
  rp_product : string;
  rp_config_schema_version : string;
  rp_source_kind : string;
  rp_source_path : string;
  rp_status : string;
  rp_error_count : N;
  rp_warning_count : N;
  rp_diagnostics : list Diagnostic;
  rp_required_env : list EnvStatus;
  rp_generated_at : string;
  rp_internal_config_hash : option string;
}.

(** The platform's report vocabulary ([registry-config-report]) and the printer. *)
Class ReportLib := {
  status_error : string;
  status_warning : string;
  status_ok : string;
  classification_secret : string;
  env_status_present : string;
  env_status_missing : string;
  (** [serde_json::to_string_pretty]. *)
  json_render : Report → result string string;
}.

(** [tokio::sync::Semaphore::new] panics for more permits than [MAX_PERMITS]. *)
Class TokioLib := { MAX_PERMITS : N }.

Definition semaphore_new `{TokioLib} (permits : N) : option N :=
  if (permits <=? MAX_PERMITS)%N then Some permits else None.

(** What a command reads: files as text, whether a variable is set at all, the
    time stamp of the report, whether the listening address can be bound, and the
    environment of validation. *)
Record CliEnv : Type := {
  ce_read_to_string : string → result string string;
  ce_var_os : string → bool;
  ce_now_rfc3339 : string;
  (** [TcpListener::bind]. *)
  ce_bind : SocketAddr → result string unit;
  ce_validation : ValidationEnv;
}.

(** [clap]'s parser for [Args]: a command, or the status the process ends with at once
    (usage errors, help and version). *)
Class ClapLib := { args_parse : list string → result N Command }.

Section main.
Context {PL : PercentLib} {UL : UrlLib} {SL : Sha256Lib} {PK : PkiLib} {HL : HttpLib}
  {AL : AuditLib} {OL : OutboundLib} {RL : ReportLib} {YL : YamlLib} {TL : TokioLib}.
Context (env : CliEnv).

Definition load (path : string) : result ConnectorError LoadedConfig :=
  raw ← map_err Io (ce_read_to_string env path);
  config ← map_err Yaml (yaml_config raw);
  Ok {| ld_config := config; ld_path := path |}.

Definition detect_mode (loaded : LoadedConfig) : Mode :=
  let config := ld_config loaded in
  if is_some (cf_server_identity config) || is_some (cf_client_trust config)
     || is_some (cf_upstream config)
  then Server else Client.

Fixpoint join_lines (sep : string) (l : list string) : string :=
  match l with
  | [] => EmptyString
  | [x] => x
  | x :: l => x +:+ sep +:+ join_lines sep l
  end.

Definition validate_or_error (loaded : LoadedConfig) (mode : Mode) (require_env : bool)
    : result ConnectorError unit :=
  map_err (λ errors, InvalidConfig (ld_path loaded +:+ " config failed validation:" +:+ newline
      +:+ join_lines newline ((λ err, "- " +:+ err) <$> errors)))
    (validate_config (ce_validation env) (ld_config loaded) mode require_env).

Definition sha256_hash (bytes : string) : string := "sha256:" +:+ hex_bytes (sha256_digest bytes).

Definition insert_name (o : option string) (envs : gset string) : gset string :=
  match o with Some name => {[name]} ∪ envs | None => envs end.

(** [envs] is a [BTreeMap] whose values are all [Secret]. *)
Definition required_env_report (config : ConnectorConfig) : list EnvStatus :=
  let envs : gset string := ∅ in
  let envs := insert_name (au_hash_secret_env (cf_audit config)) envs in
  let envs := match cf_upstream config with
              | Some upstream => insert_name (up_default_auth_header_env upstream) envs
              | None => envs
              end in
  let envs := fold_left (λ envs route, insert_name (rt_upstream_auth_header_env route) envs)
    (cf_routes config) envs in
  (λ name, {| es_name := name; es_classification := classification_secret;
              es_status := if ce_var_os env name then env_status_present else env_status_missing |})
    <$> btree_iter envs.

Definition count_severity (severity : string) (diagnostics : list Diagnostic) : N :=
  N.of_nat (length (List.filter (λ d, String.eqb (dg_severity d) severity) diagnostics)).

Definition validation_report_json (config_path : string) (raw_config : option string)
    (config : option ConnectorConfig) (diagnostics : list Diagnostic) : Report :=
  let error_count := count_severity "error" diagnostics in
  let warning_count := count_severity "warning" diagnostics in
  {| rp_schema_version := "registry.config.diagnostic_report.v1";
     rp_product := "registry-trust-connector";
     rp_config_schema_version := TRUST_CONNECTOR_CONFIG_SCHEMA_VERSION;
     rp_source_kind := "local_file";
     rp_source_path := config_path;
     rp_status := if (0 <? error_count)%N then status_error
                  else if (0 <? warning_count)%N then status_warning else status_ok;
     rp_error_count := error_count;
     rp_warning_count := warning_count;
     rp_diagnostics := diagnostics;
     rp_required_env := match config with Some config => required_env_report config | None => [] end;
     rp_generated_at := ce_now_rfc3339 env;
     rp_internal_config_hash := sha256_hash <$> raw_config |}.

Definition json_pretty (value : Report) : result ConnectorError string :=
  map_err (λ err, InvalidConfig ("failed to render JSON report: " +:+ err)) (json_render value).

(** A command's lines of output and its result. *)
Definition Output : Type := list string * result ConnectorError unit.

Definition validation_diagnostics (config : ConnectorConfig) (mode : Mode) (require_env : bool)
    : list Diagnostic :=
  match validate_config (ce_validation env) config mode require_env with
  | Ok _ => [{| dg_code := "connector.config.valid"; dg_severity := "info";
                dg_message := "config valid for " +:+ mode_debug mode +:+ " mode" |}]
  | Err errors =>
      (λ error, {| dg_code := "connector.config.validation_error"; dg_severity := "error";
                   dg_message := error |}) <$> errors
  end.

Definition selected_mode (mode : option CliMode) (loaded : LoadedConfig) : Mode :=
  match mode with Some mode => mode_from mode | None => detect_mode loaded end.

Definition ok_value {E A} (r : result E A) : option A :=
  match r with Ok a => Some a | Err _ => None end.

Definition run_validate_json (config_path : string) (require_env : bool) (mode : option CliMode)
    : Output :=
  let raw_config := ok_value (ce_read_to_string env config_path) in
  match load config_path with
  | Err err =>
      let report := validation_report_json config_path raw_config None
        [{| dg_code := "connector.config.load_failed"; dg_severity := "error";
            dg_message := ConnectorError_display err |}] in
      match json_pretty report with
      | Ok text => ([text], Err err)
      | Err e => ([], Err e)
      end
  | Ok loaded =>
      let mode := selected_mode mode loaded in
      let diagnostics := validation_diagnostics (ld_config loaded) mode require_env in
      let report := validation_report_json config_path raw_config (Some (ld_config loaded)) diagnostics in
      let has_errors := (0 <? rp_error_count report)%N in
      match json_pretty report with
      | Err e => ([], Err e)
      | Ok text =>
          ([text],
           if has_errors
           then Err (InvalidConfig (ld_path loaded +:+ " config failed validation"))
           else Ok tt)
      end
  end.

Definition run_validate (config_path : string) (require_env : bool) (mode : option CliMode)
    (format : ValidationOutputFormat) : Output :=
  match format with
  | FormatText =>
      match load config_path with
      | Err e => ([], Err e)
      | Ok loaded =>
          let mode := selected_mode mode loaded in
          match validate_or_error loaded mode require_env with
          | Err e => ([], Err e)
          | Ok _ => (["registry-trust-connector config valid for " +:+ mode_debug mode +:+ " mode"], Ok tt)
          end
      end
  | FormatJson => run_validate_json config_path require_env mode
  end.

(** ** Start-up

    What the two long-running commands have set up when they start to listen. *)
Record Started : Type := {
  st_bind : SocketAddr;
  st_state : ProxyState;
  st_permits : option N;
}.

(** Start-up fails with an error or panics; both limits become semaphores. *)
Inductive StartFailure : Type := StartError (e : ConnectorError) | StartPanic.

Definition fails {A} (r : result ConnectorError A) : result StartFailure A := map_err StartError r.
Definition router_start (config : ConnectorConfig) : result StartFailure N :=
  ok_or StartPanic (semaphore_new (lm_max_concurrent_requests (cf_limits config))).

Definition run_client (loaded : LoadedConfig) : result StartFailure Started :=
  let config := ld_config loaded in
  identity ← fails (ok_or (InvalidConfig "client mode requires client_identity")
    (cf_client_identity config));
  server ← fails (ok_or (InvalidConfig "client mode requires server") (cf_server config));
  client ← fails (reqwest_mtls_client identity (sv_trust_bundle server) (upstream_timeout config));
  bind ← fails (as_tcp (cf_listen config));
  _ ← router_start config;
  _ ← fails (map_err Io (ce_bind env bind));
  Ok {| st_bind := bind; st_state := ProxyState_client config client; st_permits := None |}.

Definition run_server (loaded : LoadedConfig) : result StartFailure Started :=
  let config := ld_config loaded in
  bind ← fails (as_tcp (cf_listen config));
  tls_config ← fails (server_config config);
  state ← fails (ProxyState_server (ve_environ (ce_validation env)) config);
  _ ← router_start config;
  _ ← fails (map_err Io (ce_bind env bind));
  connection_permits ← ok_or StartPanic (semaphore_new (lm_max_concurrent_connections (cf_limits config)));
  Ok {| st_bind := bind; st_state := state; st_permits := Some connection_permits |}.

Inductive CommandResult : Type :=
| Finished (out : Output)
| Listening (warnings : list string) (started : Started)
| Failed (e : ConnectorError)
| Crashed.

Definition start (r : result StartFailure (list string * Started)) : CommandResult :=
  match r with
  | Ok (warnings, started) => Listening warnings started
  | Err (StartError e) => Failed e
  | Err StartPanic => Crashed
  end.

Definition run (command : Command) : CommandResult :=
  match command with
  | Validate config require_env mode format => Finished (run_validate config require_env mode format)
  | RunClient config => start (
      loaded ← fails (load config);
      _ ← fails (validate_or_error loaded Client false);
      let warnings := warn_certificate_expiry (ce_validation env) (ld_config loaded) Client in
      started ← run_client loaded;
      Ok (warnings, started))
  | RunServer config => start (
      loaded ← fails (load config);
      _ ← fails (validate_or_error loaded Server true);
      let warnings := warn_certificate_expiry (ce_validation env) (ld_config loaded) Server in
      started ← run_server loaded;
      Ok (warnings, started))
  end.

(** The exit code, and the error that is logged; a connector that listens has
    none yet. *)
Inductive ExitCode : Type := SUCCESS | FAILURE (logged : string) | PANIC | EXIT (status : N).

Definition exit_code (r : result ConnectorError unit) : ExitCode :=
  match r with Ok _ => SUCCESS | Err err => FAILURE (ConnectorError_display err) end.

Definition main (command : Command) : option ExitCode :=
  match run command with
  | Finished (_, r) => Some (exit_code r)
  | Failed err => Some (exit_code (Err err))
  | Listening _ _ => None
  | Crashed => Some PANIC
  end.

(** The process: the subscriber it installs and how it ends. *)
Definition process {CL : ClapLib} {EL : EnvFilterLib} (args : list string) : Subscriber * option ExitCode :=
  (init_tracing (ve_environ (ce_validation env)),
   match args_parse args with
   | Err status => Some (EXIT status)
   | Ok command => main command
   end).
End main.

(** ** The accept loop

    The loop is at one of three points; a connection task holds its permit until
    it ends, however it ends. *)
Module Accept.
Inductive Point : Type := Acquiring | Accepting | Sleeping.

Record State : Type := {
  available : nat;
  point : Point;
  tasks : list nat;
}.

Definition init (max : nat) : State := {| available := max; point := Acquiring; tasks := [] |}.

Inductive Label : Type :=
| Acquire
| AcceptOk (conn : nat)
| AcceptErr
| Wake
| TaskEnds (conn : nat).

Fixpoint remove_one (x : nat) (l : list nat) : list nat :=
  match l with
  | [] => []
  | y :: l => if decide (x = y) then l else y :: remove_one x l
  end.

(** One step of the loop, or the end of a task: the permit is taken before the
    connection is accepted, given back at once when accepting fails, and otherwise
    moved into the task. *)
Definition step (s : State) (l : Label) : option State :=
  match l, point s with
  | Acquire, Acquiring =>
      match available s with
      | O => None
      | S n => Some {| available := n; point := Accepting; tasks := tasks s |}
      end
  | AcceptOk conn, Accepting =>
      Some {| available := available s; point := Acquiring; tasks := conn :: tasks s |}
  | AcceptErr, Accepting =>
      Some {| available := S (available s); point := Sleeping; tasks := tasks s |}
  | Wake, Sleeping => Some {| available := available s; point := Acquiring; tasks := tasks s |}
  | TaskEnds conn, _ =>
      if bool_decide (conn ∈ tasks s)
      then Some {| available := S (available s); point := point s;
                   tasks := remove_one conn (tasks s) |}
      else None
  | _, _ => None
  end.

Inductive reachable (max : nat) : State → Prop :=
| reachable_init : reachable max (init max)
| reachable_step s l s' : reachable max s → step s l = Some s' → reachable max s'.

(** Permits the loop itself holds. *)
Definition held (p : Point) : nat := match p with Accepting => 1 | _ => 0 end.

Lemma remove_one_length x l : x ∈ l → length l = S (length (remove_one x l)).
Proof.
  induction l as [|y l IH]; [by intros ?%not_elem_of_nil|]. intros Hin. simpl.
  case_decide; [done|]. simpl. rewrite <- IH; [done|]. by apply elem_of_cons in Hin as [?|?].
Qed.

Lemma step_permits s l s' :
  step s l = Some s' →
  available s' + length (tasks s') + held (point s') = available s + length (tasks s) + held (point s).
Proof.
  unfold step. destruct l as [|conn| | |conn]; destruct (point s) eqn:Ep; try done.
  1: destruct (available s) eqn:Ea; [done|].
  all: try (intros [= <-]; simpl; rewrite ?Ep; simpl; lia).
  all: case_bool_decide as Hin; [|done]; intros [= <-]; simpl;
    pose proof (remove_one_length conn (tasks s) Hin); lia.
Qed.

Lemma reachable_permits max s :
  reachable max s → available s + length (tasks s) + held (point s) = max.
Proof. induction 1 as [|s l s' _ IH Hs]; [simpl; lia|]. by rewrite (step_permits _ _ _ Hs). Qed.
End Accept.

(** ** Reports count what validation found *)
Section report_lemmas.
Context {PL : PercentLib} {UL : UrlLib} {SL : Sha256Lib} {PK : PkiLib} {HL : HttpLib}
  {AL : AuditLib} {OL : OutboundLib} {RL : ReportLib} {YL : YamlLib} {TL : TokioLib}.
Context (env : CliEnv).

Lemma count_errors errors :
  count_severity "error" ((λ error, {| dg_code := "connector.config.validation_error";
      dg_severity := "error"; dg_message := error |}) <$> errors) = N.of_nat (length errors).
Proof.
  unfold count_severity. f_equal. induction errors as [|e errors IH]; [done|]. simpl. f_equal. exact IH.
Qed.

Lemma validate_config_Err_ne venv config mode require_env errors :
  validate_config venv config mode require_env = Err errors → errors ≠ [].
Proof. unfold validate_config. case_match eqn:E; [done|]. intros [= <-] Hnil. by rewrite Hnil in E. Qed.

Lemma diagnostics_count config mode require_env :
  (0 <? count_severity "error" (validation_diagnostics env config mode require_env))%N =
  negb (is_ok (validate_config (ce_validation env) config mode require_env)).
Proof.
  unfold validation_diagnostics.
  destruct (validate_config (ce_validation env) config mode require_env) as [u|errors] eqn:E; [done|].
  rewrite count_errors. apply validate_config_Err_ne in E. destruct errors; [done|]. simpl.
  apply N.ltb_lt. lia.
Qed.

(** ** The result of [validate] *)
Lemma exit_success r : Some (exit_code r) = Some SUCCESS ↔ r = Ok tt.
Proof. destruct r as [[]|e]; simpl; split; congruence. Qed.

Lemma load_Ok path loaded :
  load env path = Ok loaded ↔
  ∃ raw, ce_read_to_string env path = Ok raw ∧ yaml_config raw = Ok (ld_config loaded) ∧ ld_path loaded = path.
Proof.
  unfold load. destruct loaded as [config p]. simpl. split.
  - intros (raw & Hraw%map_err_Ok & (c & Hy%map_err_Ok & [= <- <-])%bind_Ok_inv)%bind_Ok_inv. eauto.
  - intros (raw & -> & Hy & ->). simpl. by rewrite Hy.
Qed.

Lemma run_validate_Ok path require_env mode format :
  (∀ report, is_ok (json_render report) = true) →
  snd (run_validate env path require_env mode format) = Ok tt ↔
  ∃ loaded, load env path = Ok loaded ∧
    validate_config (ce_validation env) (ld_config loaded) (selected_mode mode loaded) require_env = Ok tt.
Proof.
  intros Hr. unfold run_validate, run_validate_json, validate_or_error, json_pretty.
  destruct (load env path) as [loaded|err]; simpl.
  - destruct format; simpl.
    + destruct (validate_config _ _ _ _) as [[]|errs] eqn:E; simpl; split; try done.
      * eauto.
      * intros (l & [= <-] & Hv). congruence.
    + match goal with |- context [json_render ?r] => specialize (Hr r); destruct (json_render r); [|done] end.
      simpl. rewrite diagnostics_count.
      destruct (validate_config _ _ _ _) as [[]|errs] eqn:E; simpl; split; try done.
      * eauto.
      * intros (l & [= <-] & Hv). congruence.
  - destruct format; simpl; [|destruct (json_render _); simpl]; split; try done; by intros (l & ? & _).
Qed.

(** ** What start-up establishes *)
(** What is so when the server command reaches its start-up. *)
Definition server_checked (path : string) (config : ConnectorConfig) : Prop :=
  (∃ raw, ce_read_to_string env path = Ok raw ∧ yaml_config raw = Ok config) ∧
  validate_config (ce_validation env) config Server true = Ok tt.

Lemma run_server_cases path :
  match run env (RunServer path) with
  | Listening warnings started =>
      ∃ config, server_checked path config ∧
        ProxyState_server (ve_environ (ce_validation env)) config = Ok (st_state started) ∧
        warnings = warn_certificate_expiry (ce_validation env) config Server ∧
        st_permits started = Some (lm_max_concurrent_connections (cf_limits config)) ∧
        (lm_max_concurrent_connections (cf_limits config) ≤ MAX_PERMITS)%N ∧
        (lm_max_concurrent_requests (cf_limits config) ≤ MAX_PERMITS)%N
  | Crashed =>
      ∃ config, server_checked path config ∧
        ((MAX_PERMITS < lm_max_concurrent_connections (cf_limits config))%N ∨
         (MAX_PERMITS < lm_max_concurrent_requests (cf_limits config))%N)
  | Failed _ => True
  | Finished _ => False
  end.
Proof.
  unfold run. destruct (load env path) as [loaded|e] eqn:El; [|done]. cbn.
  destruct (validate_or_error env loaded Server true) as [[]|e] eqn:Ev; [|done]. cbn.
  assert (Hck : server_checked path (ld_config loaded)).
  { apply load_Ok in El as (raw & Hraw & Hy & _). apply map_err_Ok in Ev. split; eauto. }
  unfold run_server, router_start, semaphore_new.
  destruct (as_tcp _) as [bind|]; [|done]. cbn. destruct (server_config _) as [tls|]; [|done]. cbn.
  destruct (ProxyState_server _ _) as [state|] eqn:Est; [|done]. cbn.
  destruct (N.leb_spec (lm_max_concurrent_requests (cf_limits (ld_config loaded))) MAX_PERMITS); cbn; [|by eauto].
  destruct (ce_bind env bind) as [[]|]; [|done]. cbn.
  destruct (N.leb_spec (lm_max_concurrent_connections (cf_limits (ld_config loaded))) MAX_PERMITS); cbn; [|by eauto].
  exists (ld_config loaded). by split_and!.
Qed.

(** ** The variables of the report *)
Definition names_variable (config : ConnectorConfig) (name : string) : Prop :=
  au_hash_secret_env (cf_audit config) = Some name ∨
  (∃ up, cf_upstream config = Some up ∧ up_default_auth_header_env up = Some name) ∨
  ∃ r, r ∈ cf_routes config ∧ rt_upstream_auth_header_env r = Some name.

Lemma elem_of_insert_name o envs name : name ∈ insert_name o envs ↔ o = Some name ∨ name ∈ envs.
Proof. destruct o; simpl; set_solver. Qed.

Lemma elem_of_insert_routes routes envs name :
  name ∈ fold_left (λ envs route, insert_name (rt_upstream_auth_header_env route) envs) routes envs ↔
  (∃ r, r ∈ routes ∧ rt_upstream_auth_header_env r = Some name) ∨ name ∈ envs.
Proof.
  revert envs. induction routes as [|r routes IH]; intros envs; simpl; [set_solver|].
  rewrite IH, elem_of_insert_name. setoid_rewrite elem_of_cons. naive_solver.
Qed.

Lemma required_env_names config :
  NoDup (es_name <$> required_env_report env config) ∧
  ∀ name, name ∈ es_name <$> required_env_report env config ↔ names_variable config name.
Proof.
  unfold required_env_report. cbv zeta. rewrite <- list_fmap_compose. unfold compose. simpl.
  rewrite list_fmap_id. split; [apply sort_strings_NoDup|]. intros name. rewrite elem_of_btree_iter.
  rewrite elem_of_insert_routes. unfold names_variable.
  destruct (cf_upstream config) as [up|]; rewrite !elem_of_insert_name; set_solver.
Qed.
End report_lemmas.

(** ** Properties *)
Module Claims.
(** The accept loop keeps its connection limit and never leaks a permit: in
    every reachable state the free permits, the running connections and the permit
    the loop holds add up to the limit, so there are never more connections than
    allowed; and whenever there are fewer, the loop itself can take a step, however
    the earlier accepts, handshakes and connections ended. *)
Theorem accept_loop_limit (max : nat) (s : Accept.State) :
  Accept.reachable max s →
  Accept.available s + length (Accept.tasks s) + Accept.held (Accept.point s) = max ∧
  length (Accept.tasks s) ≤ max ∧
  (length (Accept.tasks s) < max →
     ∃ l s', (∀ conn, l ≠ Accept.TaskEnds conn) ∧ Accept.step s l = Some s').
Proof.
  intros Hr%Accept.reachable_permits. split; [done|]. split; [lia|]. intros Hlt.
  destruct (Accept.point s) eqn:Ep; simpl in Hr.
  - exists Accept.Acquire. unfold Accept.step. rewrite Ep. destruct (Accept.available s); [lia|]. by eexists.
  - exists Accept.AcceptErr. unfold Accept.step. rewrite Ep. by eexists.
  - exists Accept.Wake. unfold Accept.step. rewrite Ep. by eexists.
Qed.

(** Two connections fill a limit of two; one ends after a failed handshake. *)
Definition wit_accept : Accept.State :=
  {| Accept.available := 1; Accept.point := Accept.Acquiring; Accept.tasks := [8] |}.

Lemma accept_loop_limit_witness :
  Accept.available wit_accept + length (Accept.tasks wit_accept) + Accept.held (Accept.point wit_accept) = 2 ∧
  length (Accept.tasks wit_accept) ≤ 2 ∧
  (length (Accept.tasks wit_accept) < 2 →
     ∃ l s', (∀ conn, l ≠ Accept.TaskEnds conn) ∧ Accept.step wit_accept l = Some s').
Proof.
  apply (accept_loop_limit 2 wit_accept).
  eapply Accept.reachable_step with (l := Accept.TaskEnds 7);
    [|instantiate (1 := {| Accept.available := 0; Accept.point := Accept.Acquiring; Accept.tasks := [8; 7] |});
      reflexivity].
  eapply Accept.reachable_step with (l := Accept.AcceptOk 8);
    [|instantiate (1 := {| Accept.available := 0; Accept.point := Accept.Accepting; Accept.tasks := [7] |});
      reflexivity].
  eapply Accept.reachable_step with (l := Accept.Acquire);
    [|instantiate (1 := {| Accept.available := 1; Accept.point := Accept.Acquiring; Accept.tasks := [7] |});
      reflexivity].
  eapply Accept.reachable_step with (l := Accept.AcceptOk 7);
    [|instantiate (1 := {| Accept.available := 1; Accept.point := Accept.Accepting; Accept.tasks := [] |});
      reflexivity].
  eapply Accept.reachable_step with (l := Accept.Acquire); [apply Accept.reachable_init|reflexivity].
Defined.

(** C30: What the server command comes to.  When it listens, the file was read and
    decoded, the configuration passed every server check with the environment
    required, the state that serves requests was built from that configuration, and
    there is at least one permit for connections and one for requests.  It crashes only
    with a configuration that passed all checks and has a limit beyond what a
    semaphore can hold; every other outcome is an error. *)
Theorem server_starts_validated {PL : PercentLib} {UL : UrlLib} {SL : Sha256Lib} {PK : PkiLib}
    {HL : HttpLib} {AL : AuditLib} {OL : OutboundLib} {RL : ReportLib} {YL : YamlLib} {TL : TokioLib}
    (env : CliEnv) (path : string) :
  match run env (RunServer path) with
  | Listening warnings started =>
      ∃ config permits, server_checked env path config ∧
        ProxyState_server (ve_environ (ce_validation env)) config = Ok (st_state started) ∧
        ps_config (st_state started) = config ∧ ps_mode (st_state started) = Server ∧
        warnings = warn_certificate_expiry (ce_validation env) config Server ∧
        st_permits started = Some permits ∧ (0 < permits ≤ MAX_PERMITS)%N ∧
        (0 < lm_max_concurrent_requests (cf_limits config) ≤ MAX_PERMITS)%N
  | Crashed =>
      ∃ config, server_checked env path config ∧
        ((MAX_PERMITS < lm_max_concurrent_connections (cf_limits config))%N ∨
         (MAX_PERMITS < lm_max_concurrent_requests (cf_limits config))%N)
  | Failed _ => True
  | Finished _ => False
  end.
Proof.
  pose proof (run_server_cases env path) as H. destruct (run env (RunServer path)); try done.
  destruct H as (config & Hck & Hst & Hw & Hp & Hmax & Hmax'). exists config, (lm_max_concurrent_connections (cf_limits config)).
  pose proof (ProxyState_server_inv _ _ _ Hst) as (Hc & Hm & _).
  destruct Hck as [Hfile Hv]. pose proof Hv as [_ []]%validate_config_Ok. by split_and!.
Qed.

(** The two output formats of [validate] agree: when the report can be
    rendered, JSON output succeeds exactly when text output does, prints exactly one
    document, and that document counts no error exactly on success. *)
Theorem validate_formats_agree {PL : PercentLib} {UL : UrlLib} {SL : Sha256Lib} {PK : PkiLib}
    {HL : HttpLib} {AL : AuditLib} {RL : ReportLib} {YL : YamlLib} (env : CliEnv) (path : string)
    (require_env : bool) (mode : option CliMode) :
  (∀ report, is_ok (json_render report) = true) →
  let text := run_validate env path require_env mode FormatText in
  let json := run_validate env path require_env mode FormatJson in
  is_ok (snd json) = is_ok (snd text) ∧
  ∃ report line, fst json = [line] ∧ json_render report = Ok line ∧
    rp_error_count report = N.of_nat (length (List.filter
      (λ d, String.eqb (dg_severity d) "error") (rp_diagnostics report))) ∧
    (rp_error_count report = 0%N ↔ snd text = Ok tt).
Proof.
  intros Hr. unfold run_validate, run_validate_json.
  destruct (load env path) as [loaded|err] eqn:El; simpl.
  - set (m := selected_mode mode loaded).
    set (report := validation_report_json env path (ok_value (ce_read_to_string env path))
      (Some (ld_config loaded)) (validation_diagnostics env (ld_config loaded) m require_env)).
    specialize (Hr report). unfold json_pretty.
    destruct (json_render report) as [line|] eqn:Ej; [|done]. simpl.
    pose proof (diagnostics_count env (ld_config loaded) m require_env) as Hcount.
    change (count_severity "error" (validation_diagnostics env (ld_config loaded) m require_env))
      with (rp_error_count report) in Hcount.
    change (count_severity "error" _) with (rp_error_count report). rewrite Hcount.
    assert (Hzero : rp_error_count report = 0%N ↔
      is_ok (validate_config (ce_validation env) (ld_config loaded) m require_env) = true).
    { rewrite <- negb_false_iff, <- Hcount, N.ltb_ge. lia. }
    unfold validate_or_error.
    destruct (validate_config (ce_validation env) (ld_config loaded) m require_env) as [[]|errors]; simpl in *.
    + split; [done|]. exists report, line. split; [done|]. split; [done|]. split; [done|].
      split; [done|]. intros _. by apply Hzero.
    + split; [done|]. exists report, line. split; [done|]. split; [done|]. split; [done|].
      split; [|done]. intros H%Hzero. discriminate H.
  - set (report := validation_report_json _ _ _ _ _). specialize (Hr report). unfold json_pretty.
    destruct (json_render report) as [line|] eqn:Ej; [|done]. simpl. split; [done|].
    exists report, line. by split_and!.
Qed.

(** C18: [validate] exits successfully, in either format, exactly when the file can
    be read, its text is a configuration, and the configuration passes the checks of
    the chosen mode: the mode asked for, or else the server's when a section only a
    server has is present. *)
Theorem validate_exit_code {PL : PercentLib} {UL : UrlLib} {SL : Sha256Lib} {PK : PkiLib}
    {HL : HttpLib} {AL : AuditLib} {OL : OutboundLib} {RL : ReportLib} {YL : YamlLib} {TL : TokioLib} (env : CliEnv)
    (path : string) (require_env : bool) (mode : option CliMode) (format : ValidationOutputFormat) :
  (∀ report, is_ok (json_render report) = true) →
  main env (Validate path require_env mode format) = Some SUCCESS ↔
  ∃ raw config, ce_read_to_string env path = Ok raw ∧ yaml_config raw = Ok config ∧
    validate_config (ce_validation env) config
      (match mode with
       | Some m => mode_from m
       | None => if is_some (cf_server_identity config) || is_some (cf_client_trust config)
                    || is_some (cf_upstream config) then Server else Client
       end) require_env = Ok tt.
Proof.
  intros Hr. unfold main, run. rewrite (surjective_pairing (run_validate _ _ _ _ _)).
  rewrite exit_success, (run_validate_Ok env path require_env mode format Hr). split.
  - intros (loaded & Hl & Hv). apply load_Ok in Hl as (raw & Hraw & Hy & _). eauto.
  - intros (raw & config & Hraw & Hy & Hv). exists {| ld_config := config; ld_path := path |}.
    rewrite load_Ok. eauto.
Qed.

(** the report names exactly the variables the configuration refers to, each
    once: the audit secret, the upstream's credential and the routes' credentials;
    and when the configuration passes the server checks with the environment
    required, every one of them is reported as present. *)
Theorem required_env_complete {PL : PercentLib} {UL : UrlLib} {PK : PkiLib} {HL : HttpLib}
    {AL : AuditLib} {AS : AuditSpec} {RL : ReportLib} (env : CliEnv) (config : ConnectorConfig) :
  (∀ name, is_Some (ve_environ (ce_validation env) name) → ce_var_os env name = true) →
  validate_config (ce_validation env) config Server true = Ok tt →
  NoDup (es_name <$> required_env_report env config) ∧
  (∀ name, name ∈ es_name <$> required_env_report env config ↔ names_variable config name) ∧
  ∀ e, e ∈ required_env_report env config → es_status e = env_status_present.
Proof.
  intros Hos [[_ _ (up & Hup & _ & Henv)] _]%validate_config_Ok. destruct (Henv eq_refl) as [Haudit Hauth].
  pose proof (required_env_names env config) as [Hnd Hnames]. split_and!; [done|done|].
  intros e He. assert (Hn : names_variable config (es_name e)).
  { apply Hnames. by apply list_elem_of_fmap_2. }
  assert (Hset : is_Some (ve_environ (ce_validation env) (es_name e))).
  { destruct Hn as [Ha|Hn].
    - apply Haudit in Ha. destruct (hasher_from_env _ _) as [h|] eqn:E; [|done].
      by apply hasher_from_env_set in E.
    - destruct (Hauth (es_name e)) as (secret & -> & _); [|by eexists].
      destruct Hn as [(up' & Hup' & Hd)|Hn]; [|by right]. left. congruence. }
  apply list_elem_of_fmap in He as (name & -> & _). simpl in *. by rewrite Hos.
Qed.

(** A world in which the server command starts: every text but [broken] is read as
    the document of the configuration. *)
Definition ref_report : ReportLib := {|
  status_error := "error"; status_warning := "warning"; status_ok := "ok";
  classification_secret := "secret"; env_status_present := "present"; env_status_missing := "missing";
  json_render report := Ok (rp_status report) |}.
Definition wit_value : Value :=
  @doc_ConnectorConfig (ref_yaml (λ _, Err EmptyString)) (ref_nodes _) ref_url fst "127.0.0.1:9443"
    (ConfigValidate.Claims.wit_server_config 30).
Definition wit_yaml : YamlLib :=
  ref_yaml (λ text, if String.eqb text "broken" then Err "unexpected token" else Ok wit_value).
Definition wit_tokio : TokioLib := {| MAX_PERMITS := 2305843009213693951 |}.
Definition wit_cli : CliEnv := {|
  ce_read_to_string path := Ok path; ce_var_os _ := true; ce_now_rfc3339 := "1970-01-01T00:00:05Z";
  ce_bind _ := Ok tt;
  ce_validation := ConfigValidate.Claims.wit_env |}.

Lemma validate_formats_agree_witness :
  let text := @run_validate ref_percent ref_url ref_sha256 ref_pki Ref.ref_http ref_audit ref_report
    wit_yaml wit_cli "broken" true None FormatText in
  let json := @run_validate ref_percent ref_url ref_sha256 ref_pki Ref.ref_http ref_audit ref_report
    wit_yaml wit_cli "broken" true None FormatJson in
  is_ok (snd json) = is_ok (snd text) ∧
  ∃ report line, fst json = [line] ∧ @json_render ref_report report = Ok line ∧
    rp_error_count report = N.of_nat (length (List.filter
      (λ d, String.eqb (dg_severity d) "error") (rp_diagnostics report))) ∧
    (rp_error_count report = 0%N ↔ snd text = Ok tt).
Proof.
  apply (@validate_formats_agree ref_percent ref_url ref_sha256 ref_pki Ref.ref_http ref_audit ref_report wit_yaml).
  intros report. reflexivity.
Defined.

Lemma validate_exit_code_witness :
  @main ref_percent ref_url ref_sha256 ref_pki Ref.ref_http ref_audit Proxy.Claims.ref_outbound
    ref_report wit_yaml wit_tokio wit_cli (Validate "connector.yaml" true None FormatJson) = Some SUCCESS.
Proof.
  apply (@validate_exit_code ref_percent ref_url ref_sha256 ref_pki Ref.ref_http ref_audit
    Proxy.Claims.ref_outbound ref_report wit_yaml wit_tokio wit_cli "connector.yaml" true None FormatJson).
  - intros report. reflexivity.
  - exists "connector.yaml", (ConfigValidate.Claims.wit_server_config 30).
    split; [reflexivity|]. split; vm_compute; reflexivity.
Defined.

Lemma required_env_complete_witness :
  ∀ e, e ∈ @required_env_report ref_url ref_report wit_cli (ConfigValidate.Claims.wit_server_config 30) →
    es_status e = "present".
Proof.
  apply (@required_env_complete ref_percent ref_url ref_pki Ref.ref_http ref_audit ref_audit_spec ref_report
    wit_cli (ConfigValidate.Claims.wit_server_config 30)).
  - intros name _. reflexivity.
  - vm_compute. reflexivity.
Defined.
End Claims.
