(* ===== verification/System.v ===== *)
(** * The whole server ([src/src/main.rs], [run_server]; [src/src/proxy.rs], [router])

    The accept loop of [Main], the connection tasks of [Connection] and the router of
    [Concurrent] as one transition system.  The loop hands a connection its permit, the
    task performs the handshake, attaches the chain of the peer to every request it
    takes, and gives the permit back when it ends; the router runs the requests of all
    connections against the shared limiter and caches.  A caller may go away at any
    time.  An execution of the whole projects to executions of its parts, so what is
    proved of them holds of it; here the parts are tied together: limits, the rate,
    on whose behalf anything is sent, and that no state is stuck. *)
From S2P Require Import Prelude RustStr BTree Errors External Reference Http Pdp Config SocketAddr.
From S2P Require Import Decode Document Routing RateLimit Identity Tls PolicyHash Purpose Redaction.
From S2P Require Import ConfigValidate Proxy Connection Concurrent RouterRate Main.
From Stdlib Require Import Ascii.

Module Whole.
(** The connection task waits for the handshake, serves, or has ended. *)
Inductive Phase : Type := Handshaking | Serving | Ended.

Section whole.
Context {PL : PercentLib} {UL : UrlLib} {SL : Sha256Lib} {PK : PkiLib} {HL : HttpLib}
  {PD : PdpLib} {AL : AuditLib} {OL : OutboundLib}.

Record Conn : Type := {
  cn_phase : Phase;
  cn_protocol : Protocol;
  cn_chain : option PeerCertificateChain;
  cn_requests : list nat;
}.

Record Sys : Type := {
  wh_accept : Accept.State;
  wh_conns : gmap nat Conn;
  wh_router : Router.Sys;
}.

Definition init (max : nat) : Sys := {|
  wh_accept := Accept.init max; wh_conns := ∅;
  wh_router := Router.init RequestRateLimiter_default ∅ |}.

Inductive Label : Type :=
| Loop (l : Accept.Label)
| Open (conn : nat)
| Shake (conn : nat) (outcome : Handshake) (protocol : Protocol)
| Take (conn n : nat) (env : Env) (req : Incoming)
| Turn (n : nat)
| Gone (conn n : nat)
| Close (conn : nat).

(** What the loop does on its own. *)
Definition loop_label (l : Accept.Label) : bool :=
  match l with Accept.Acquire | Accept.AcceptErr | Accept.Wake => true | _ => false end.

Context (state : ProxyState).

Definition on_router (s : Sys) (l : Router.Label) (conns : gmap nat Conn) : option Sys :=
  (λ r, {| wh_accept := wh_accept s; wh_conns := conns; wh_router := r |})
    <$> Router.step state (wh_router s) l.

Definition on_accept (s : Sys) (l : Accept.Label) (conns : gmap nat Conn) : option Sys :=
  (λ a, {| wh_accept := a; wh_conns := conns; wh_router := wh_router s |})
    <$> Accept.step (wh_accept s) l.

(** The task ends and its permit is given back. *)
Definition end_task (s : Sys) (conn : nat) (c : Conn) : option Sys :=
  on_accept s (Accept.TaskEnds conn)
    (<[conn := {| cn_phase := Ended; cn_protocol := cn_protocol c; cn_chain := cn_chain c;
                  cn_requests := cn_requests c |}]> (wh_conns s)).

(** A further request fits on the connection: HTTP/1 without keep-alive carries one. *)
Definition may_take (c : Conn) : bool :=
  match cn_phase c, cn_protocol c with
  | Serving, Http1 => is_empty (cn_requests c)
  | Serving, Http2 => true
  | _, _ => false
  end.

(** The handler of an HTTP/1 request runs inside the connection task. *)
Definition may_close (s : Sys) (c : Conn) : bool :=
  match cn_phase c, cn_protocol c with
  | Serving, Http1 => forallb (λ n, negb (is_some (Router.sy_running (wh_router s) !! n))) (cn_requests c)
  | Serving, Http2 => true
  | _, _ => false
  end.

Definition step (s : Sys) (lbl : Label) : option Sys :=
  match lbl with
  | Loop l => if loop_label l then on_accept s l (wh_conns s) else None
  | Open conn =>
      if bool_decide (wh_conns s !! conn = None)
      then on_accept s (Accept.AcceptOk conn)
        (<[conn := {| cn_phase := Handshaking; cn_protocol := Http1; cn_chain := None;
                      cn_requests := [] |}]> (wh_conns s))
      else None
  | Shake conn outcome protocol =>
      c ← wh_conns s !! conn;
      match cn_phase c, outcome with
      | Handshaking, Established certs =>
          Some {| wh_accept := wh_accept s;
                  wh_conns := <[conn := {| cn_phase := Serving; cn_protocol := protocol;
                                           cn_chain := certs; cn_requests := [] |}]> (wh_conns s);
                  wh_router := wh_router s |}
      | Handshaking, _ => end_task s conn c
      | _, _ => None
      end
  | Take conn n env req =>
      c ← wh_conns s !! conn;
      if may_take c
      then on_router s (Router.Admit n (env, attach_chain (cn_chain c) req))
        (<[conn := {| cn_phase := cn_phase c; cn_protocol := cn_protocol c; cn_chain := cn_chain c;
                      cn_requests := n :: cn_requests c |}]> (wh_conns s))
      else None
  | Turn n => on_router s (Router.Advance n) (wh_conns s)
  | Gone conn n =>
      c ← wh_conns s !! conn;
      if bool_decide (n ∈ cn_requests c) then on_router s (Router.Drop n) (wh_conns s) else None
  | Close conn =>
      c ← wh_conns s !! conn;
      if may_close s c then end_task s conn c else None
  end.

Fixpoint steps (s : Sys) (schedule : list Label) : option Sys :=
  match schedule with
  | [] => Some s
  | lbl :: schedule => s ← step s lbl; steps s schedule
  end.

Lemma steps_app s sch1 sch2 : steps s (sch1 ++ sch2) = (s' ← steps s sch1; steps s' sch2).
Proof.
  revert s. induction sch1 as [|lbl sch1 IH]; intros s; simpl; [done|].
  destruct (step s lbl) as [s1|]; simpl; [apply IH|done].
Qed.

(** ** The parts of an execution

    What the router and the loop do in a step of the whole. *)
Definition router_part (s : Sys) (lbl : Label) : list Router.Label :=
  match lbl with
  | Take conn n env req =>
      match wh_conns s !! conn with
      | Some c => [Router.Admit n (env, attach_chain (cn_chain c) req)]
      | None => []
      end
  | Turn n => [Router.Advance n]
  | Gone _ n => [Router.Drop n]
  | _ => []
  end.

Lemma router_steps_app r sch1 sch2 :
  Router.steps state r (sch1 ++ sch2) = (r' ← Router.steps state r sch1; Router.steps state r' sch2).
Proof.
  revert r. induction sch1 as [|l sch1 IH]; intros r; simpl; [done|].
  destruct (Router.step state r l) as [r1|]; simpl; [apply IH|done].
Qed.

Lemma router_step1 r l r' : Router.step state r l = Some r' → Router.steps state r [l] = Some r'.
Proof. intros H. cbn [Router.steps]. by rewrite H. Qed.

Lemma on_router_Some s l conns s' :
  on_router s l conns = Some s' ↔
  ∃ r, Router.step state (wh_router s) l = Some r ∧
    s' = {| wh_accept := wh_accept s; wh_conns := conns; wh_router := r |}.
Proof. unfold on_router. rewrite fmap_Some. naive_solver. Qed.

Lemma on_accept_Some s l conns s' :
  on_accept s l conns = Some s' ↔
  ∃ a, Accept.step (wh_accept s) l = Some a ∧
    s' = {| wh_accept := a; wh_conns := conns; wh_router := wh_router s |}.
Proof. unfold on_accept. rewrite fmap_Some. naive_solver. Qed.

Lemma step_router s lbl s' :
  step s lbl = Some s' → Router.steps state (wh_router s) (router_part s lbl) = Some (wh_router s').
Proof.
  destruct lbl as [l|conn|conn o pr|conn n env req|n|conn n|conn]; cbn [step router_part].
  - destruct (loop_label l); [|done]. by intros (a & _ & ->)%on_accept_Some.
  - case_bool_decide; [|done]. by intros (a & _ & ->)%on_accept_Some.
  - intros (c & Hc & H)%bind_Some. unfold end_task in H.
    destruct (cn_phase c), o; try done; try (by apply on_accept_Some in H as (a & _ & ->)).
    by injection H as <-.
  - intros (c & Hc & H)%bind_Some. rewrite Hc. destruct (may_take c); [|done].
    apply on_router_Some in H as (r & Hr & ->). by apply router_step1.
  - intros (r & Hr & ->)%on_router_Some. by apply router_step1.
  - intros (c & Hc & H)%bind_Some. case_bool_decide; [|done].
    apply on_router_Some in H as (r & Hr & ->). by apply router_step1.
  - intros (c & Hc & H)%bind_Some. destruct (may_close s c); [|done].
    by apply on_accept_Some in H as (a & _ & ->).
Qed.

(** What the router does along a schedule of the whole. *)
Fixpoint router_schedule (s : Sys) (schedule : list Label) : list Router.Label :=
  match schedule with
  | [] => []
  | lbl :: schedule =>
      router_part s lbl ++ match step s lbl with Some s => router_schedule s schedule | None => [] end
  end.

Lemma steps_router s schedule s' :
  steps s schedule = Some s' →
  Router.steps state (wh_router s) (router_schedule s schedule) = Some (wh_router s').
Proof.
  revert s. induction schedule as [|lbl schedule IH]; intros s; cbn [steps router_schedule].
  { by intros [= <-]. }
  intros (s1 & H1 & H2)%bind_Some. rewrite H1, router_steps_app, (step_router _ _ _ H1). by apply IH.
Qed.

(** ** The invariant *)
Definition live (c : Conn) : bool := match cn_phase c with Ended => false | _ => true end.

Record owns (s : Sys) (conn n : nat) (c : Conn) : Prop := {
  ow_conn : wh_conns s !! conn = Some c;
  ow_request : n ∈ cn_requests c;
}.

Record winv (max : nat) (s : Sys) : Prop := {
  wi_permits : Accept.reachable max (wh_accept s);
  wi_tasks : ∀ conn, conn ∈ Accept.tasks (wh_accept s) ↔
    ∃ c, wh_conns s !! conn = Some c ∧ live c = true;
  wi_nodup : NoDup (Accept.tasks (wh_accept s));
  wi_router : ∃ sch, Router.steps state (Router.init RequestRateLimiter_default ∅) sch = Some (wh_router s);
  wi_owner : ∀ n job, Router.sy_jobs (wh_router s) !! n = Some job →
    ∃ conn c env req, owns s conn n c ∧ cn_phase c ≠ Handshaking ∧
      job = (env, attach_chain (cn_chain c) req);
  wi_known : ∀ conn n c, owns s conn n c → is_Some (Router.sy_jobs (wh_router s) !! n);
  wi_fresh : ∀ conn c, wh_conns s !! conn = Some c → cn_phase c = Handshaking → cn_requests c = [];
  wi_http1 : ∀ conn c, wh_conns s !! conn = Some c → cn_protocol c = Http1 → length (cn_requests c) ≤ 1;
  wi_inside : ∀ conn n c, owns s conn n c → cn_protocol c = Http1 →
    is_Some (Router.sy_running (wh_router s) !! n) → cn_phase c = Serving;
}.

Lemma winv_init max : winv max (init max).
Proof.
  split; simpl.
  - constructor.
  - intros conn. split; [by intros ?%not_elem_of_nil|]. intros (c & Hc & _). by rewrite lookup_empty in Hc.
  - constructor.
  - by exists [].
  - intros n job. by rewrite lookup_empty.
  - intros conn n c [Hc _]. simpl in Hc. by rewrite lookup_empty in Hc.
  - intros conn c. by rewrite lookup_empty.
  - intros conn c. by rewrite lookup_empty.
  - intros conn n c [Hc _]. simpl in Hc. by rewrite lookup_empty in Hc.
Qed.

(** *** Steps of the parts *)
Lemma loop_tasks a l a' : loop_label l = true → Accept.step a l = Some a' → Accept.tasks a' = Accept.tasks a.
Proof.
  unfold Accept.step. destruct l; try done; intros _; destruct (Accept.point a); try done;
    try (by intros [= <-]). destruct (Accept.available a); [done|]. by intros [= <-].
Qed.

Lemma remove_one_elem x y l : NoDup l → x ∈ Accept.remove_one y l ↔ x ∈ l ∧ x ≠ y.
Proof.
  induction l as [|z l IH]; intros Hnd; simpl; [set_solver|].
  apply list.NoDup_cons in Hnd as [Hni Hnd]. case_decide as Hd; [subst z; set_solver|].
  rewrite !elem_of_cons, IH by done. split; [|naive_solver]. intros [->|[? ?]]; auto.
Qed.

Lemma remove_one_NoDup y l : NoDup l → NoDup (Accept.remove_one y l).
Proof.
  induction l as [|z l IH]; intros Hnd; simpl; [done|].
  pose proof Hnd as Hnd'. apply list.NoDup_cons in Hnd' as [Hni Hnd']. case_decide; [done|].
  apply list.NoDup_cons. split; [|by apply IH]. rewrite remove_one_elem by done. naive_solver.
Qed.

Lemma ends_tasks a conn a' :
  Accept.step a (Accept.TaskEnds conn) = Some a' →
  conn ∈ Accept.tasks a ∧ Accept.tasks a' = Accept.remove_one conn (Accept.tasks a).
Proof.
  unfold Accept.step. destruct (Accept.point a); case_bool_decide; try done; by intros [= <-].
Qed.

Lemma opens_tasks a conn a' :
  Accept.step a (Accept.AcceptOk conn) = Some a' → Accept.tasks a' = conn :: Accept.tasks a.
Proof. unfold Accept.step. destruct (Accept.point a); try done. by intros [= <-]. Qed.

(** A request in flight takes a turn or is dropped: no new request, none revived. *)
Lemma router_keeps r l r' :
  match l with Router.Admit _ _ => False | _ => True end → Router.step state r l = Some r' →
  Router.sy_jobs r' = Router.sy_jobs r ∧
  ∀ n, is_Some (Router.sy_running r' !! n) → is_Some (Router.sy_running r !! n).
Proof.
  destruct l as [n job|n|n]; [done|intros _..]; simpl.
  - intros (t & Ht & H)%bind_Some. destruct (Router.tk_prog t) as [x|X op k].
    + injection H as <-. simpl. split; [done|]. intros m [v [_ Hv]%lookup_delete_Some]. by eexists.
    + destruct (exec_op _ _ _ _) as [[[x l] c] es]. injection H as <-. simpl. split; [done|].
      intros m. destruct (decide (m = n)) as [->|]; [by eexists|]. by rewrite lookup_insert_ne.
  - intros (t & Ht & [= <-])%bind_Some. simpl. split; [done|].
    intros m [v [_ Hv]%lookup_delete_Some]. by eexists.
Qed.

Lemma router_admits r n job r' :
  Router.step state r (Router.Admit n job) = Some r' →
  Router.sy_jobs r !! n = None ∧ Router.sy_jobs r' = <[n := job]> (Router.sy_jobs r) ∧
  ∀ m, m ≠ n → Router.sy_running r' !! m = Router.sy_running r !! m.
Proof.
  simpl. case_bool_decide as Hn; simpl; [|done]. destruct (_ <? _)%nat; [|done]. intros [= <-]. simpl.
  split_and!; [done..|]. intros m Hne. by rewrite lookup_insert_ne.
Qed.

(** *** The whole keeps the invariant *)
Lemma router_grows r0 sch r l r' :
  Router.steps state r0 sch = Some r → Router.step state r l = Some r' →
  ∃ sch', Router.steps state r0 sch' = Some r'.
Proof.
  intros Hs Hl. exists (sch ++ [l]). rewrite router_steps_app, Hs. simpl mbind. by apply router_step1.
Qed.

(** Only the accept loop moves. *)
Lemma winv_loop max s l s' :
  winv max s → loop_label l = true → on_accept s l (wh_conns s) = Some s' → winv max s'.
Proof.
  intros [Hp Ht Hnd Hr Ho Hk Hf H1 Hi] Hl (a & Ha & ->)%on_accept_Some.
  pose proof (loop_tasks _ _ _ Hl Ha) as Htk. split; simpl; rewrite ?Htk; try done.
  - by eapply Accept.reachable_step.
  - intros n job Hn. destruct (Ho n job Hn) as (conn & c & env & req & [? ?] & ?). eexists conn, c, env, req.
    by split; [split|].
  - intros conn n c [? ?]. by eapply Hk.
  - intros conn n c [? ?]. by eapply Hi.
Qed.

(** A request in flight moves, or its caller is gone. *)
Lemma winv_router max s l s' :
  winv max s → match l with Router.Admit _ _ => False | _ => True end →
  on_router s l (wh_conns s) = Some s' → winv max s'.
Proof.
  intros [Hp Ht Hnd [sch Hr] Ho Hk Hf H1 Hi] Hl (r & Hs & ->)%on_router_Some.
  pose proof (router_keeps _ _ _ Hl Hs) as [Hj Hrun]. split; simpl; rewrite ?Hj; try done.
  - by eapply router_grows.
  - intros n job Hn. destruct (Ho n job Hn) as (conn & c & env & req & [? ?] & ?). eexists conn, c, env, req.
    by split; [split|].
  - intros conn n c [? ?]. by eapply Hk.
  - intros conn n c [? ?] ? ?%Hrun. by eapply Hi.
Qed.

(** A connection keeps its requests and its chain, or had none yet, and its task list
    entry. *)
Lemma winv_conn max s conn c c' a :
  winv max s → wh_conns s !! conn = Some c → Accept.reachable max a → NoDup (Accept.tasks a) →
  (∀ x, x ∈ Accept.tasks a ↔ x ∈ Accept.tasks (wh_accept s) ∧ (x = conn → live c' = true)) →
  live c = true → cn_requests c' = cn_requests c → cn_phase c' ≠ Handshaking →
  (cn_requests c = [] ∨ cn_chain c' = cn_chain c ∧ cn_protocol c' = cn_protocol c) →
  (cn_protocol c' = Http1 → cn_phase c' = Serving ∨
     ∀ n, n ∈ cn_requests c → ¬ is_Some (Router.sy_running (wh_router s) !! n)) →
  winv max {| wh_accept := a; wh_conns := <[conn := c']> (wh_conns s); wh_router := wh_router s |}.
Proof.
  intros [Hp Ht Hnd Hr Ho Hk Hf H1 Hi] Hc Ha Hnda Htk Hlive Hreq Hph Hsame Hin.
  assert (Hold : ∀ x n cx, owns {| wh_accept := a; wh_conns := <[conn := c']> (wh_conns s);
      wh_router := wh_router s |} x n cx → x = conn ∧ cx = c' ∧ n ∈ cn_requests c ∨
      x ≠ conn ∧ owns s x n cx).
  { intros x n cx [Hx Hn]. simpl in Hx. destruct (decide (x = conn)) as [->|Hne].
    - rewrite lookup_insert_eq in Hx. injection Hx as <-. left. by rewrite <- Hreq.
    - rewrite lookup_insert_ne in Hx by done. by right. }
  split; simpl; try done.
  - intros x. rewrite Htk, Ht. destruct (decide (x = conn)) as [->|Hne].
    + rewrite lookup_insert_eq. naive_solver.
    + rewrite lookup_insert_ne by done. naive_solver.
  - intros n job Hn. destruct (Ho n job Hn) as (x & cx & env & req & [Hx Hxn] & Hxp & ->).
    destruct (decide (x = conn)) as [->|Hne].
    + assert (cx = c) as -> by congruence. exists conn, c', env, req.
      destruct Hsame as [Hnil|[Hch _]]; [rewrite Hnil in Hxn; by apply not_elem_of_nil in Hxn|].
      split_and!; [split; simpl; [by rewrite lookup_insert_eq|by rewrite Hreq]|done|by rewrite Hch].
    + exists x, cx, env, req. split_and!; [split; simpl; [by rewrite lookup_insert_ne|done]|done|done].
  - intros x n cx [(-> & -> & Hn)|[_ Hx]]%Hold; [|by eapply Hk].
    by apply (Hk conn n c).
  - intros x cx. destruct (decide (x = conn)) as [->|Hne]; [|rewrite lookup_insert_ne by done; apply Hf].
    rewrite lookup_insert_eq. by intros [= <-].
  - intros x cx. destruct (decide (x = conn)) as [->|Hne]; [|rewrite lookup_insert_ne by done; apply H1].
    rewrite lookup_insert_eq. intros [= <-] Hpr. rewrite Hreq.
    destruct Hsame as [->|[_ Hpc]]; [simpl; lia|]. apply (H1 conn c Hc). congruence.
  - intros x n cx [(-> & -> & Hn)|[_ Hx]]%Hold; [|by eapply Hi].
    intros Hpr Hrun. destruct (Hin Hpr) as [?|Hno]; [done|]. by destruct (Hno n Hn).
Qed.

Lemma winv_open max s conn s' : winv max s → step s (Open conn) = Some s' → winv max s'.
Proof.
  intros [Hp Ht Hnd Hr Ho Hk Hf H1 Hi]. cbn [step]. case_bool_decide as Hn; [|done].
  intros (a & Ha & ->)%on_accept_Some. pose proof (opens_tasks _ _ _ Ha) as Htk.
  assert (Hold : ∀ (x : nat) (c : Conn), wh_conns s !! x = Some c → x ≠ conn) by (intros; congruence).
  set (fresh := {| cn_phase := Handshaking; cn_protocol := Http1; cn_chain := None; cn_requests := [] |}).
  assert (Hown : ∀ (x n : nat) (c : Conn), owns {| wh_accept := a; wh_conns := <[conn := fresh]> (wh_conns s);
      wh_router := wh_router s |} x n c → owns s x n c).
  { intros x n c [Hx Hxn]. simpl in Hx. destruct (decide (x = conn)) as [->|Hne].
    - rewrite lookup_insert_eq in Hx. injection Hx as <-. by apply not_elem_of_nil in Hxn.
    - rewrite lookup_insert_ne in Hx by done. by split. }
  split; simpl; try done.
  - by eapply Accept.reachable_step.
  - intros x. rewrite Htk, elem_of_cons, Ht. destruct (decide (x = conn)) as [->|Hne].
    + rewrite lookup_insert_eq. split; [by eauto|by left].
    + rewrite lookup_insert_ne by done. naive_solver.
  - rewrite Htk. apply list.NoDup_cons. split; [|done]. rewrite Ht. intros (c & Hc & _). congruence.
  - intros n job Hj. destruct (Ho n job Hj) as (x & c & env & req & [Hx Hxn] & ?). exists x, c, env, req.
    split; [|done]. split; [|done]. simpl. rewrite lookup_insert_ne; [done|]. symmetry. by eapply Hold.
  - intros x n c ?%Hown. by eapply Hk.
  - intros x c. destruct (decide (x = conn)) as [->|Hne].
    + rewrite lookup_insert_eq. by intros [= <-].
    + rewrite lookup_insert_ne by done. apply Hf.
  - intros x c. destruct (decide (x = conn)) as [->|Hne].
    + rewrite lookup_insert_eq. intros [= <-] _. simpl. lia.
    + rewrite lookup_insert_ne by done. apply H1.
  - intros x n c ?%Hown. by eapply Hi.
Qed.

Lemma may_take_serving c :
  may_take c = true → cn_phase c = Serving ∧ (cn_protocol c = Http1 → cn_requests c = []).
Proof.
  unfold may_take. destruct (cn_phase c), (cn_protocol c); try done.
  intros H%is_empty_true. by split.
Qed.

Lemma winv_take max s conn n env req s' :
  winv max s → step s (Take conn n env req) = Some s' → winv max s'.
Proof.
  intros [Hp Ht Hnd [sch Hr] Ho Hk Hf H1 Hi] (c & Hc & H)%bind_Some.
  destruct (may_take c) eqn:Hm; [|done]. apply may_take_serving in Hm as [Hph Hone].
  apply on_router_Some in H as (r & Hs & ->). pose proof (router_admits _ _ _ _ Hs) as (Hfresh & Hj & Hrun).
  assert (Hnew : ∀ x m cx, owns s x m cx → m ≠ n).
  { intros x m cx Hx ->. destruct (Hk x n cx Hx). congruence. }
  set (c' := {| cn_phase := cn_phase c; cn_protocol := cn_protocol c; cn_chain := cn_chain c;
                cn_requests := n :: cn_requests c |}).
  assert (Hcase : ∀ x m cx, owns {| wh_accept := wh_accept s; wh_conns := <[conn := c']> (wh_conns s);
      wh_router := r |} x m cx → x = conn ∧ cx = c' ∧ (m = n ∨ owns s conn m c) ∨ x ≠ conn ∧ owns s x m cx).
  { intros x m cx [Hx Hxm]. simpl in Hx. destruct (decide (x = conn)) as [->|Hne].
    - rewrite lookup_insert_eq in Hx. injection Hx as <-. apply elem_of_cons in Hxm as [->|Hxm]; left; auto.
      split_and!; [done..|]. right. by split.
    - rewrite lookup_insert_ne in Hx by done. by right. }
  split; cbn [wh_accept wh_conns wh_router]; try done.
  - intros x. rewrite Ht. destruct (decide (x = conn)) as [->|Hne].
    + rewrite lookup_insert_eq. unfold live. split; intros _;
        [exists c'|exists c]; simpl; by rewrite Hph.
    + by rewrite lookup_insert_ne.
  - by eapply router_grows.
  - intros m job. rewrite Hj. destruct (decide (m = n)) as [->|Hne].
    + rewrite lookup_insert_eq. intros [= <-]. exists conn, c', env, req. split_and!; [|simpl; congruence|done].
      split; simpl; [by rewrite lookup_insert_eq|left].
    + rewrite lookup_insert_ne by done. intros Hjob.
      destruct (Ho m job Hjob) as (x & cx & env' & req' & [Hx Hxm] & Hxp & ->).
      destruct (decide (x = conn)) as [->|Hne'].
      * assert (cx = c) as -> by congruence. exists conn, c', env', req'. split_and!; [|done..].
        split; simpl; [by rewrite lookup_insert_eq|by right].
      * exists x, cx, env', req'. split_and!; [|done..]. split; simpl; [by rewrite lookup_insert_ne|done].
  - intros x m cx Hx. rewrite Hj. destruct (decide (m = n)) as [->|Hne]; [rewrite lookup_insert_eq; eauto|].
    rewrite lookup_insert_ne by done.
    apply Hcase in Hx as [(-> & -> & [?|Hx])|[_ Hx]]; [done|by eapply Hk..].
  - intros x cx. destruct (decide (x = conn)) as [->|Hne]; [|rewrite lookup_insert_ne by done; apply Hf].
    rewrite lookup_insert_eq. intros [= <-]. simpl. congruence.
  - intros x cx. destruct (decide (x = conn)) as [->|Hne]; [|rewrite lookup_insert_ne by done; apply H1].
    rewrite lookup_insert_eq. intros [= <-]. simpl. intros Hpr. rewrite (Hone Hpr). simpl. lia.
  - intros x m cx Hx Hpr. apply Hcase in Hx as [(-> & -> & _)|[_ Hx]]; [done|].
    rewrite (Hrun m (Hnew _ _ _ Hx)). by eapply Hi.
Qed.

(** A task whose requests are no longer in flight may end. *)
Lemma winv_end max s conn c s' :
  winv max s → wh_conns s !! conn = Some c → live c = true →
  (cn_protocol c = Http1 → ∀ n, n ∈ cn_requests c → ¬ is_Some (Router.sy_running (wh_router s) !! n)) →
  end_task s conn c = Some s' → winv max s'.
Proof.
  intros Hinv Hc Hl Hno (a & Ha & ->)%on_accept_Some. pose proof (ends_tasks _ _ _ Ha) as [_ Htk].
  eapply winv_conn; [done|done| | | |done|done|done|by right|by right; auto].
  - eapply Accept.reachable_step; [apply Hinv|done].
  - rewrite Htk. apply remove_one_NoDup, Hinv.
  - intros x. rewrite Htk, remove_one_elem by apply Hinv. simpl. naive_solver.
Qed.

Lemma winv_step max s lbl s' : winv max s → step s lbl = Some s' → winv max s'.
Proof.
  intros Hinv. destruct lbl as [l|conn|conn o pr|conn n env req|n|conn n|conn].
  - cbn [step]. destruct (loop_label l) eqn:Hl; [|done]. by apply winv_loop.
  - by apply winv_open.
  - cbn [step]. intros (c & Hc & H)%bind_Some. destruct (cn_phase c) eqn:Hph; try done.
    assert (Hl : live c = true) by (unfold live; by rewrite Hph).
    assert (Hreq : cn_requests c = []) by (by eapply wi_fresh).
    destruct o as [certs|err|].
    2,3: eapply winv_end; [done..| |done]; rewrite Hreq; intros _ n []%not_elem_of_nil.
    injection H as <-. eapply winv_conn; [done|done|apply Hinv|apply Hinv| |done|by rewrite Hreq|done|by left|by left].
    intros x. simpl. naive_solver.
  - by apply winv_take.
  - cbn [step]. by apply winv_router.
  - cbn [step]. intros (c & Hc & H)%bind_Some. case_bool_decide; [|done].
    by apply (winv_router max s (Router.Drop n)).
  - cbn [step]. intros (c & Hc & H)%bind_Some. destruct (may_close s c) eqn:Hm; [|done].
    unfold may_close in Hm. destruct (cn_phase c) eqn:Hph; try done.
    eapply winv_end; [done|done| | |done]; [unfold live; by rewrite Hph|].
    intros Hpr n Hn Hrun. rewrite Hpr in Hm. rewrite forallb_elem_of in Hm. specialize (Hm n Hn).
    destruct Hrun as [t Ht]. by rewrite Ht in Hm.
Qed.

Lemma winv_steps max s schedule s' : winv max s → steps s schedule = Some s' → winv max s'.
Proof.
  revert s. induction schedule as [|lbl schedule IH]; intros s Hinv; simpl; [by intros [= <-]|].
  intros (s1 & H1 & H2)%bind_Some. eapply IH; [|done]. by eapply winv_step.
Qed.

(** ** Limits *)
Lemma live_count max s :
  winv max s →
  size (filter (λ kc : nat * Conn, live kc.2 = true) (wh_conns s)) = length (Accept.tasks (wh_accept s)).
Proof.
  intros Hinv. rewrite <- size_dom, <- (size_list_to_set (C := gset nat)) by apply Hinv. f_equal.
  apply set_eq. intros conn. rewrite elem_of_dom, elem_of_list_to_set, (wi_tasks _ _ Hinv). split.
  - intros [c [Hc Hl]%map_lookup_filter_Some]. by exists c.
  - intros (c & Hc & Hl). exists c. by apply map_lookup_filter_Some.
Qed.

Lemma live_bound max s :
  winv max s → size (filter (λ kc : nat * Conn, live kc.2 = true) (wh_conns s)) ≤ max.
Proof.
  intros Hinv. rewrite (live_count max s Hinv).
  pose proof (Accept.reachable_permits _ _ (wi_permits _ _ Hinv)). lia.
Qed.

(** ** Draining

    A request in flight ends by its own turns. *)
Lemma finish_request_turns s n t :
  Router.sy_running (wh_router s) !! n = Some t →
  ∃ k s', steps s (replicate k (Turn n)) = Some s' ∧
    wh_accept s' = wh_accept s ∧ wh_conns s' = wh_conns s ∧
    Router.sy_running (wh_router s') = delete n (Router.sy_running (wh_router s)) ∧
    (∀ m, is_Some (Router.sy_done (wh_router s) !! m) ∨ m = n → is_Some (Router.sy_done (wh_router s') !! m)).
Proof.
  destruct t as [job p es]. revert s es. induction p as [r|X op k IH]; intros s es Hn.
  - exists 1. eexists. split.
    { cbn [replicate steps step]. unfold on_router. simpl. by rewrite Hn. }
    simpl. split_and!; [done..|]. intros m Hm. destruct (decide (m = n)) as [->|Hne].
    + rewrite lookup_insert_eq. eauto.
    + rewrite lookup_insert_ne by done. naive_solver.
  - destruct (exec_op job.1 op (Router.sy_limiter (wh_router s)) (Router.sy_caches (wh_router s)))
      as [[[x l] c] es'] eqn:E.
    set (s1 := {| wh_accept := wh_accept s; wh_conns := wh_conns s; wh_router :=
      {| Router.sy_limiter := l; Router.sy_caches := c; Router.sy_jobs := Router.sy_jobs (wh_router s);
         Router.sy_running := <[n := {| Router.tk_job := job; Router.tk_prog := k x;
           Router.tk_events := es ++ es' |}]> (Router.sy_running (wh_router s));
         Router.sy_done := Router.sy_done (wh_router s);
         Router.sy_dropped := Router.sy_dropped (wh_router s) |} |}).
    assert (Hs : step s (Turn n) = Some s1).
    { cbn [step]. unfold on_router. simpl. rewrite Hn. simpl. by rewrite E. }
    destruct (IH x s1 (es ++ es')) as (j & s' & Hst & Ha & Hc & Hr & Hd).
    { simpl. by rewrite lookup_insert_eq. }
    exists (S j), s'. split.
    { cbn [replicate steps]. by rewrite Hs. }
    split_and!; [done..| |done]. rewrite Hr. simpl. by rewrite delete_insert_eq.
Qed.

(** What happens without any caller: requests take their turns, handshakes time out,
    connections without request end. *)
Definition passive (lbl : Label) : bool :=
  match lbl with
  | Turn _ | Close _ | Shake _ HandshakeTimedOut _ => true
  | _ => false
  end.

Lemma finish_all s :
  ∃ sch s', forallb passive sch = true ∧ steps s sch = Some s' ∧ wh_accept s' = wh_accept s ∧
    wh_conns s' = wh_conns s ∧ Router.sy_running (wh_router s') = ∅ ∧
    ∀ m, is_Some (Router.sy_done (wh_router s) !! m) ∨ is_Some (Router.sy_running (wh_router s) !! m) →
      is_Some (Router.sy_done (wh_router s') !! m).
Proof.
  remember (size (Router.sy_running (wh_router s))) as k eqn:Hk. revert s Hk.
  induction k as [|k IH]; intros s Hk.
  - symmetry in Hk. apply map_size_empty_iff in Hk. exists [], s. split_and!; try done.
    rewrite Hk. intros m [?|[? Hm]]; [done|]. by rewrite lookup_empty in Hm.
  - destruct (map_choose (Router.sy_running (wh_router s))) as (n & t & Hn).
    { intros H. by rewrite H, map_size_empty in Hk. }
    destruct (finish_request_turns s n t Hn) as (j & s1 & H1 & Ha1 & Hc1 & Hr1 & Hd1).
    destruct (IH s1) as (sch & s2 & Hp & H2 & Ha2 & Hc2 & Hr2 & Hd2).
    { rewrite Hr1, map_size_delete, Hn, <- Hk. simpl. lia. }
    exists (replicate j (Turn n) ++ sch), s2. split_and!.
    + rewrite forallb_app, Hp, andb_true_r. clear. induction j; [done|]. simpl. exact IHj.
    + rewrite steps_app, H1. exact H2.
    + congruence.
    + congruence.
    + done.
    + intros m Hm. apply Hd2. destruct (decide (m = n)) as [->|Hne]; [left; apply Hd1; by right|].
      destruct Hm as [Hm|Hm]; [left; apply Hd1; by left|right]. by rewrite Hr1, lookup_delete_ne.
Qed.

Lemma task_can_end a conn : conn ∈ Accept.tasks a → is_Some (Accept.step a (Accept.TaskEnds conn)).
Proof. intros Hin. unfold Accept.step. destruct (Accept.point a); rewrite bool_decide_true by done; eauto. Qed.

Lemma close_one max s conn :
  winv max s → Router.sy_running (wh_router s) = ∅ → conn ∈ Accept.tasks (wh_accept s) →
  ∃ lbl s', passive lbl = true ∧ step s lbl = Some s' ∧ wh_router s' = wh_router s ∧
    Accept.tasks (wh_accept s') = Accept.remove_one conn (Accept.tasks (wh_accept s)).
Proof.
  intros Hinv Hr Hin. pose proof Hin as Hin'. apply (wi_tasks _ _ Hinv) in Hin' as (c & Hc & Hl).
  destruct (task_can_end _ _ Hin) as [a Ha]. pose proof (ends_tasks _ _ _ Ha) as [_ Htk].
  assert (He : ∃ s', end_task s conn c = Some s' ∧ wh_router s' = wh_router s ∧
    Accept.tasks (wh_accept s') = Accept.remove_one conn (Accept.tasks (wh_accept s))).
  { unfold end_task, on_accept. rewrite Ha. by eexists. }
  destruct He as (s' & He & ? & ?). destruct (cn_phase c) eqn:Hph.
  - exists (Shake conn HandshakeTimedOut Http1), s'. split_and!; [done| |done|done].
    cbn [step]. rewrite Hc. simpl. by rewrite Hph.
  - exists (Close conn), s'. split_and!; [done| |done|done]. cbn [step]. rewrite Hc. simpl.
    assert (Hm : may_close s c = true); [|by rewrite Hm]. unfold may_close. rewrite Hph.
    destruct (cn_protocol c); [|done]. apply forallb_elem_of. intros n _. by rewrite Hr, lookup_empty.
  - unfold live in Hl. by rewrite Hph in Hl.
Qed.

Lemma close_all max s :
  winv max s → Router.sy_running (wh_router s) = ∅ →
  ∃ sch s', forallb passive sch = true ∧ steps s sch = Some s' ∧ wh_router s' = wh_router s ∧
    Accept.tasks (wh_accept s') = [].
Proof.
  remember (length (Accept.tasks (wh_accept s))) as k eqn:Hk. revert s Hk.
  induction k as [|k IH]; intros s Hk Hinv Hr.
  - symmetry in Hk. apply nil_length_inv in Hk. by exists [], s.
  - destruct (Accept.tasks (wh_accept s)) as [|conn l] eqn:Et; [done|].
    assert (Hin : conn ∈ Accept.tasks (wh_accept s)) by (rewrite Et; left).
    destruct (close_one max s conn Hinv Hr Hin) as (lbl & s1 & Hp & H1 & Hr1 & Ht1).
    pose proof (Accept.remove_one_length _ _ Hin) as Hlen.
    destruct (IH s1) as (sch & s2 & Hps & H2 & Hr2 & Ht2).
    + rewrite Ht1. rewrite Et in Hlen at 1. lia.
    + by eapply winv_step.
    + by rewrite Hr1.
    + exists (lbl :: sch), s2. split_and!; [by simpl; rewrite Hp| |congruence|done].
      simpl. by rewrite H1.
Qed.

(** ** On whose behalf *)
Definition on_behalf (config : ConnectorConfig) (s : Sys) (n conn : nat) : Prop :=
  ∃ c env req identity m purpose, owns s conn n c ∧ cn_phase c ≠ Handshaking ∧
    Router.sy_jobs (wh_router s) !! n = Some (env, attach_chain (cn_chain c) req) ∧
    peer_proved config (en_now_verify env) (attach_chain (cn_chain c) req) identity ∧
    route_proved config (attach_chain (cn_chain c) req) identity m ∧
    purpose_authorized (en_now_age env) (rm_route m) (in_headers req) (cf_client_trust config) (pi_value identity) purpose.

Lemma sent_elem cl q es : Sent cl q ∈ es → Router.has_sent es = true.
Proof. intros Hin. apply existsb_elem_of. by exists (Sent cl q). Qed.

Lemma visible_on_behalf {HS : HttpSpec} {PDS : PdpSpec} environ config max s n es cl q :
  ProxyState_server environ config = Ok state → winv max s →
  Router.visible (wh_router s) n = Some es → Sent cl q ∈ es → ∃ conn, on_behalf config s n conn.
Proof.
  intros Hst Hinv Hv Hin. pose proof (ProxyState_server_inv _ _ _ Hst) as (_ & Hm & _).
  destruct (wi_router _ _ Hinv) as [sch Hs].
  assert (Hc0 : cache_inv ∅) by (intros loc m h; by rewrite lookup_empty).
  destruct (Router.inv_steps state _ _ _ [] [] _ _ (Router.inv_init _ _ _ Hc0) Hs) as (order & ts & Hri).
  destruct (Router.visible_sent state _ _ _ _ _ n es Hm Hri Hv (sent_elem _ _ _ Hin)) as (tr & Htr & Hpre).
  destruct (Router.inv_serve _ _ _ _ _ _ Hri) as (c1 & Hserve & _).
  destruct (Router.serve_transcript state _ _ _ _ _ _ _ _ Hserve Htr) as (job & l2 & c2 & Hjob & Heq).
  apply (Router.inv_jobs _ _ _ _ _ _ Hri) in Hjob.
  destruct (wi_owner _ _ Hinv n job Hjob) as (conn & c & env & req & Hown & Hph & ->). simpl in Heq.
  destruct (proxy_handler env state _ _) as [w' out] eqn:Ep. simpl in Heq.
  apply proxy_handler_inv in Ep as (r & Hrun & _). rewrite Hm in Hrun.
  apply handle_server_sends in Hrun as (new & He & Hcase). simpl in He.
  assert (Hq : Sent cl q ∈ new).
  { rewrite <- He. rewrite Heq in Hpre. destruct Hpre as [k Hk]. simpl in Hk. rewrite Hk. set_solver. }
  destruct Hcase as [[Hns _]|(logs & p & method & _ & Hg & _)]; [by apply Hns in Hq|].
  destruct (gates_proved _ _ _ _ _ _ _ _ Hst Hg) as (? & ? & ?).
  exists conn, c, env, req, (sp_identity p), (sp_match p), (sp_purpose p). by split_and!.
Qed.

(** How a request ended is what its handler does, from some state of the shared objects. *)
Lemma done_transcript max s n tr :
  winv max s → Router.sy_done (wh_router s) !! n = Some tr →
  ∃ job l c, Router.sy_jobs (wh_router s) !! n = Some job ∧
    let out := proxy_handler job.1 state job.2 {| w_limiter := l; w_caches := c; w_events := [] |} in
    tr = (w_events (fst out), snd out).
Proof.
  intros Hinv Hn. destruct (wi_router _ _ Hinv) as [sch Hs].
  assert (Hc0 : cache_inv ∅) by (intros loc m h; by rewrite lookup_empty).
  destruct (Router.inv_steps state _ _ _ [] [] _ _ (Router.inv_init _ _ _ Hc0) Hs) as (order & ts & Hri).
  destruct (Router.inv_serve _ _ _ _ _ _ Hri) as (c1 & Hserve & _).
  apply (Router.inv_done _ _ _ _ _ _ Hri) in Hn.
  destruct (Router.serve_transcript state _ _ _ _ _ _ _ _ Hserve Hn) as (job & l2 & c2 & Hjob & Heq).
  exists job, l2, c2. split; [|done]. by apply (Router.inv_jobs _ _ _ _ _ _ Hri).
Qed.

Lemma done_answered {SS : Sha256Spec} {AS : AuditSpec} venv require_env environ config max s n :
  validate_config venv config Server require_env = Ok tt → ProxyState_server environ config = Ok state →
  winv max s → is_Some (Router.sy_done (wh_router s) !! n) →
  ∃ job l c w' reply log, Router.sy_jobs (wh_router s) !! n = Some job ∧
    proxy_handler job.1 state job.2 {| w_limiter := l; w_caches := c; w_events := [] |}
      = (w', Some (reply, log)) ∧
    Router.sy_done (wh_router s) !! n = Some (w_events w', Some (reply, log)).
Proof.
  intros Hv Hst Hinv [tr Hn]. destruct (done_transcript _ _ _ _ Hinv Hn) as (job & l & c & Hj & ->).
  exists job, l, c. destruct (server_answers venv require_env environ config state job.1 job.2
    {| w_limiter := l; w_caches := c; w_events := [] |} Hv Hst) as [[reply log] Ho].
  destruct (proxy_handler _ _ _ _) as [w' o]. simpl in Ho, Hn. subst o. by exists w', reply, log.
Qed.
End whole.
End Whole.

(** ** Properties *)
Module Claims.
(** C13: From the file to the wire.  A server that listens was configured by its file
    and validated; and in every state it can reach, however connections are accepted,
    handshakes end, requests interleave and callers go away: there are at most
    [max_concurrent_connections] connection tasks and at most
    [max_concurrent_requests] requests in flight, an HTTP/1 connection has had at most
    one request, and a request still running on one has its connection; whatever was
    sent upstream was sent for a request of a connection whose handshake succeeded, and
    the certificates of that handshake prove an allowed identity, for which the route
    and the purpose are authorised.  However long the server has run, every request
    that sent anything has its one entry among the consultations of the limiter, and the
    sends of one identity for one route are at most twice the configured rate over every
    stretch of consultations whose clock readings lie in one minute, so over every
    minute when the mutex is taken in the order of the readings; requests in flight and
    abandoned ones are counted. *)
Theorem whole_server_safe {PL : PercentLib} {UL : UrlLib} {SL : Sha256Lib} {PK : PkiLib}
    {HL : HttpLib} {HS : HttpSpec} {PD : PdpLib} {PDS : PdpSpec} {AL : AuditLib} {OL : OutboundLib}
    {RL : ReportLib} {YL : YamlLib} {YS : YamlSpec} {TL : TokioLib} (env : CliEnv) (path : string)
    (warnings : list string) (started : Started) (permits : N) (schedule : list Whole.Label)
    (s : Whole.Sys) :
  let state := st_state started in
  let start := Whole.init (N.to_nat permits) in
  run env (RunServer path) = Listening warnings started → st_permits started = Some permits →
  Whole.steps state start schedule = Some s →
  ∃ raw config, ce_read_to_string env path = Ok raw ∧ yaml_config raw = Ok config ∧
    validate_config (ce_validation env) config Server true = Ok tt ∧
    let limits := cf_limits config in
    let rate := lm_max_requests_per_identity_per_minute limits in
    let router := Whole.wh_router s in
    let calls := consultations state (Whole.wh_router start) (Whole.router_schedule state start schedule) in
    (N.of_nat (size (filter (λ kc : nat * Whole.Conn, Whole.live kc.2 = true) (Whole.wh_conns s)))
       ≤ lm_max_concurrent_connections limits)%N ∧
    (N.of_nat (size (Router.sy_running router)) ≤ lm_max_concurrent_requests limits)%N ∧
    (∀ conn c, Whole.wh_conns s !! conn = Some c → Whole.cn_protocol c = Http1 →
       length (Whole.cn_requests c) ≤ 1 ∧
       ∀ n, n ∈ Whole.cn_requests c → is_Some (Router.sy_running router !! n) →
         Whole.cn_phase c = Whole.Serving) ∧
    (∀ n es cl q, Router.visible router n = Some es → Sent cl q ∈ es →
       ∃ conn, Whole.on_behalf config s n conn) ∧
    (0 < rate < 2 ^ 32)%N ∧
    NoDup calls.*1 ∧
    (∀ n es, Router.visible router n = Some es → Router.has_sent es = true →
       ∃ (job : Router.Job) identity route_id, Router.sy_jobs router !! n = Some job ∧
         caller state job = Some (identity, route_id) ∧
         (n, (en_instant job.1, identity, route_id)) ∈ calls) ∧
    (∀ before stretch later t0 identity route_id ids, calls = before ++ stretch ++ later →
       Forall (λ e : nat * Call, in_minute t0 e.2.1.1) stretch → NoDup ids →
       (∀ n, n ∈ ids → n ∈ stretch.*1 ∧ upstream_sent state router identity route_id n) →
       (N.of_nat (length ids) ≤ 2 * rate)%N) ∧
    (clock_ordered calls → ∀ t0 identity route_id ids, NoDup ids →
       (∀ n, n ∈ ids → upstream_sent state router identity route_id n ∧
          ∃ job : Router.Job, Router.sy_jobs router !! n = Some job ∧ in_minute t0 (en_instant job.1)) →
       (N.of_nat (length ids) ≤ 2 * rate)%N).
Proof.
  intros state start Hrun Hpm Hs. pose proof (run_server_cases env path) as H. rewrite Hrun in H.
  destruct H as (config & [(raw & Hraw & Hy) Hv] & Hst & _ & Hperm & _ & _).
  rewrite Hpm in Hperm. injection Hperm as ->.
  pose proof (Whole.winv_steps _ _ _ _ _ (Whole.winv_init _ _) Hs) as Hinv.
  pose proof (ProxyState_server_inv _ _ _ Hst) as (Hc & Hm & _). fold state in Hst, Hc, Hm.
  pose proof (Whole.steps_router _ _ _ _ Hs) as Hr. exists raw, config. split_and!; [done..|]. cbv zeta.
  pose proof Hv as [_ Hok]%validate_config_Ok.
  pose proof (lt_rate _ (cy_limits _ (yaml_config_typed raw config Hy))) as Hrate.
  pose proof (Router.in_flight_bound _ _ _ _ _ Hr) as Hfl. unfold Router.max_in_flight in Hfl. rewrite Hc in Hfl.
  pose proof (Whole.live_bound _ _ _ Hinv) as Hlb.
  assert (Hri : rinv state RequestRateLimiter_default (Whole.wh_router s) (consultations state
    (Whole.wh_router start) (Whole.router_schedule state start schedule)))
    by exact (rinv_steps state _ _ [] _ _ Hm (rinv_init state _ ∅) Hr).
  assert (Hlim : the_limit state = lm_max_requests_per_identity_per_minute (cf_limits config))
    by (unfold the_limit; by rewrite Hc).
  rewrite <- Hlim in *.
  split_and!; [lia|lia| | |by rewrite Hlim; destruct Hok|done|by destruct Hri| | |].
  - intros conn c Hcn Hpr. split; [by eapply Whole.wi_http1|]. intros n Hn.
    by apply (Whole.wi_inside _ _ _ Hinv conn n c).
  - intros n es cl q. by eapply Whole.visible_on_behalf.
  - intros n es. by apply sent_entry with (l0 := RequestRateLimiter_default).
  - intros before stretch later t0 identity route_id ids Heq Hmin Hnd Hids. rewrite Heq in Hri.
    by eapply stretch_bound; [apply rate_inv_default|..].
  - intros Ho t0 identity route_id ids Hnd Hids. by eapply minute_bound; [apply rate_inv_default|..].
Qed.

(** C22: No state of a started server is stuck.  From every state it can reach there is
    a continuation without any caller, in which requests in flight take their own turns
    (each wait ends with what its request's environment says, in time or by the
    timeout), pending handshakes time out and connections end, after which every request
    that was in flight has been answered, and the answer and the log line are those its
    handler gives; no connection is left, and every permit is free again but the one the
    accept loop may be holding for the next connection. *)
Theorem server_drains {PL : PercentLib} {UL : UrlLib} {SL : Sha256Lib} {SS : Sha256Spec} {PK : PkiLib}
    {HL : HttpLib} {PD : PdpLib} {AL : AuditLib} {AS : AuditSpec} {OL : OutboundLib}
    {RL : ReportLib} {YL : YamlLib} {TL : TokioLib} (env : CliEnv) (path : string)
    (warnings : list string) (started : Started) (permits : N) (schedule : list Whole.Label)
    (s : Whole.Sys) :
  let state := st_state started in
  run env (RunServer path) = Listening warnings started → st_permits started = Some permits →
  Whole.steps state (Whole.init (N.to_nat permits)) schedule = Some s →
  ∃ rest s', forallb Whole.passive rest = true ∧ Whole.steps state s rest = Some s' ∧
    (∀ n, is_Some (Router.sy_running (Whole.wh_router s) !! n) →
       ∃ job l c w' reply log, Router.sy_jobs (Whole.wh_router s') !! n = Some job ∧
         proxy_handler job.1 state job.2 {| w_limiter := l; w_caches := c; w_events := [] |}
           = (w', Some (reply, log)) ∧
         Router.sy_done (Whole.wh_router s') !! n = Some (w_events w', Some (reply, log))) ∧
    Router.sy_running (Whole.wh_router s') = ∅ ∧
    (∀ conn c, Whole.wh_conns s' !! conn = Some c → Whole.cn_phase c = Whole.Ended) ∧
    Accept.available (Whole.wh_accept s') + Accept.held (Accept.point (Whole.wh_accept s'))
      = N.to_nat permits.
Proof.
  intros state Hrun Hpm Hs. pose proof (run_server_cases env path) as H. rewrite Hrun in H.
  destruct H as (config & [_ Hv] & Hst & _).
  pose proof (Whole.winv_steps _ _ _ _ _ (Whole.winv_init _ _) Hs) as Hinv.
  destruct (Whole.finish_all state s) as (sch1 & s1 & Hp1 & H1 & _ & _ & Hr1 & Hd1).
  pose proof (Whole.winv_steps _ _ _ _ _ Hinv H1) as Hinv1.
  destruct (Whole.close_all state _ s1 Hinv1 Hr1) as (sch2 & s2 & Hp2 & H2 & Hr2 & Ht2).
  pose proof (Whole.winv_steps _ _ _ _ _ Hinv1 H2) as Hinv2.
  exists (sch1 ++ sch2), s2. split_and!.
  - by rewrite forallb_app, Hp1, Hp2.
  - by rewrite Whole.steps_app, H1.
  - intros n Hn. apply (Whole.done_answered state _ _ _ _ _ _ n Hv Hst Hinv2).
    rewrite Hr2. apply Hd1. by right.
  - by rewrite Hr2.
  - intros conn c Hc. destruct (Whole.cn_phase c) eqn:Hph; [..|done]; exfalso.
    all: assert (Hin : conn ∈ Accept.tasks (Whole.wh_accept s2))
      by (apply (Whole.wi_tasks _ _ _ Hinv2); exists c; unfold Whole.live; by rewrite Hph).
    all: rewrite Ht2 in Hin; by apply not_elem_of_nil in Hin.
  - pose proof (Accept.reachable_permits _ _ (Whole.wi_permits _ _ _ Hinv2)) as Hp. rewrite Ht2 in Hp.
    simpl in Hp. lia.
Qed.

(** Two connections, one with HTTP/1 and one request, one with HTTP/2 and two requests
    whose accesses interleave with it and of which one caller goes away; a third
    connection never finishes its handshake. *)
Definition wit_started : option (@Started ref_url ref_pki ref_audit) :=
  match @run ref_percent ref_url ref_sha256 ref_pki Ref.ref_http ref_audit Proxy.Claims.ref_outbound
          Main.Claims.ref_report Main.Claims.wit_yaml Main.Claims.wit_tokio Main.Claims.wit_cli
          (RunServer "connector.yaml") with
  | Listening _ started => Some started
  | _ => None
  end.
Definition wit_peer : Handshake := Established (Some ["leaf"; "ca"]).
Definition wit_take (conn n : nat) : @Whole.Label ref_url ref_pki Ref.ref_http :=
  Whole.Take conn n Proxy.Claims.wit_penv Connection.Claims.wit_incoming.
Definition wit_schedule : list (@Whole.Label ref_url ref_pki Ref.ref_http) :=
  [Whole.Loop Accept.Acquire; Whole.Open 7; Whole.Loop Accept.Acquire; Whole.Loop Accept.AcceptErr;
   Whole.Loop Accept.Wake; Whole.Loop Accept.Acquire; Whole.Open 8; Whole.Shake 8 wit_peer Http2;
   Whole.Shake 7 wit_peer Http1; wit_take 8 0; wit_take 7 1; wit_take 8 2;
   Whole.Turn 0; Whole.Turn 1; Whole.Turn 2; Whole.Turn 2; Whole.Turn 1; Whole.Turn 0;
   Whole.Turn 2; Whole.Turn 1; Whole.Turn 0; Whole.Turn 2; Whole.Turn 2; Whole.Turn 2; Whole.Gone 8 2;
   Whole.Turn 0; Whole.Turn 1; Whole.Turn 0; Whole.Turn 1; Whole.Turn 0; Whole.Turn 0; Whole.Turn 0;
   Whole.Close 8; Whole.Turn 1; Whole.Loop Accept.Acquire; Whole.Open 9].
Definition wit_whole (started : @Started ref_url ref_pki ref_audit) :=
  permits ← st_permits started;
  s ← @Whole.steps ref_percent ref_url ref_sha256 ref_pki Ref.ref_http ref_pdp ref_audit
    (st_state started) (Whole.init (N.to_nat permits)) wit_schedule;
  Some (permits, s).
Definition wit_key : string * string := ("spiffe://client.example/w", "relay").
Definition wit_calls (started : @Started ref_url ref_pki ref_audit) (permits : N) : list (nat * Call) :=
  let start := @Whole.init ref_url ref_pki Ref.ref_http (N.to_nat permits) in
  @consultations ref_percent ref_url ref_sha256 ref_pki Ref.ref_http ref_pdp ref_audit
    (st_state started) (Whole.wh_router start)
    (@Whole.router_schedule ref_percent ref_url ref_sha256 ref_pki Ref.ref_http ref_pdp ref_audit
      (st_state started) start wit_schedule).
Definition wit_check (started : @Started ref_url ref_pki ref_audit) (permits : N)
    (s : @Whole.Sys ref_url ref_pki Ref.ref_http) : bool :=
  let router := Whole.wh_router s in
  forallb (λ n, match Router.sy_jobs router !! n, Router.visible router n with
                | Some job, Some es =>
                    bool_decide (@caller ref_percent ref_url ref_sha256 ref_pki Ref.ref_http
                      ref_audit (st_state started) job = Some wit_key)
                    && Router.has_sent es
                | _, _ => false
                end) [0; 1; 2]
  && bool_decide (wit_calls started permits
       = (λ n, (n, (en_instant Proxy.Claims.wit_penv, fst wit_key, snd wit_key))) <$> [2; 1; 0]).

Lemma wit_whole_ok :
  (started ← wit_started; '(permits, s) ← wit_whole started; Some (wit_check started permits s)) = Some true.
Proof. vm_compute. reflexivity. Qed.

Lemma whole_server_safe_witness :
  ∃ raw config, ce_read_to_string Main.Claims.wit_cli "connector.yaml" = Ok raw ∧
    @yaml_config Main.Claims.wit_yaml Ref.ref_http ref_url raw = Ok config ∧
    (N.of_nat (length [0; 1; 2]) ≤ 2 * lm_max_requests_per_identity_per_minute (cf_limits config))%N.
Proof.
  pose proof wit_whole_ok as Hok. unfold wit_started in Hok.
  destruct (@run ref_percent ref_url ref_sha256 ref_pki Ref.ref_http ref_audit
    Proxy.Claims.ref_outbound Main.Claims.ref_report Main.Claims.wit_yaml Main.Claims.wit_tokio
    Main.Claims.wit_cli (RunServer "connector.yaml"))
    as [o|warnings started|e|] eqn:E; [discriminate Hok| |discriminate Hok|discriminate Hok].
  cbn [mbind option_bind] in Hok. unfold wit_whole in Hok.
  destruct (st_permits started) as [permits|] eqn:Ep; [|discriminate Hok]. cbn [mbind option_bind] in Hok.
  destruct (@Whole.steps ref_percent ref_url ref_sha256 ref_pki Ref.ref_http ref_pdp ref_audit
    (st_state started) (Whole.init (N.to_nat permits)) wit_schedule) as [s|] eqn:Es; [|discriminate Hok].
  injection Hok as [Hsent Hcalls%bool_decide_eq_true]%andb_true_iff.
  destruct (@whole_server_safe ref_percent ref_url ref_sha256 ref_pki Ref.ref_http Ref.ref_http_spec
    ref_pdp ref_pdp_spec ref_audit Proxy.Claims.ref_outbound Main.Claims.ref_report Main.Claims.wit_yaml
    (ref_yaml_spec _) Main.Claims.wit_tokio Main.Claims.wit_cli "connector.yaml" warnings started
    permits wit_schedule s E Ep Es) as (raw & config & Hraw & Hy & _ & _ & _ & _ & _ & _ & _ & _ & Hrate & _).
  exists raw, config. split; [exact Hraw|]. split; [exact Hy|].
  apply (Hrate [] (wit_calls started permits) [] 0%N (fst wit_key) (snd wit_key) [0; 1; 2]).
  - simpl app. by rewrite app_nil_r.
  - rewrite Hcalls. repeat constructor; apply N.le_0_l || reflexivity.
  - by apply (bool_decide_eq_true_1 (NoDup [0; 1; 2])).
  - intros n Hn. split.
    { rewrite Hcalls. clear - Hn. simpl. set_solver. }
    apply forallb_elem_of with (x := n) in Hsent; [|done].
    destruct (Router.sy_jobs (Whole.wh_router s) !! n) as [job|] eqn:Ej; [|discriminate Hsent].
    destruct (Router.visible (Whole.wh_router s) n) as [es|] eqn:Ev; [|discriminate Hsent].
    apply andb_true_iff in Hsent as [Hc%bool_decide_eq_true Hs]. exists job, es. by split_and!.
Defined.

(** The state after the first part of that schedule, with requests on their way. *)
Definition wit_half := take 20 wit_schedule.
Definition wit_half_run :=
  started ← wit_started; permits ← st_permits started;
  s ← @Whole.steps ref_percent ref_url ref_sha256 ref_pki Ref.ref_http ref_pdp ref_audit
    (st_state started) (Whole.init (N.to_nat permits)) wit_half;
  Some (size (Router.sy_running (Whole.wh_router s))).

Lemma wit_half_ok : wit_half_run = Some 3.
Proof. vm_compute. reflexivity. Qed.

Lemma server_drains_witness :
  ∃ started permits s rest s', wit_started = Some started ∧ st_permits started = Some permits ∧
    @Whole.steps ref_percent ref_url ref_sha256 ref_pki Ref.ref_http ref_pdp ref_audit
      (st_state started) (Whole.init (N.to_nat permits)) wit_half = Some s ∧
    size (Router.sy_running (Whole.wh_router s)) = 3 ∧
    @Whole.steps ref_percent ref_url ref_sha256 ref_pki Ref.ref_http ref_pdp ref_audit
      (st_state started) s rest = Some s' ∧
    Router.sy_running (Whole.wh_router s') = ∅ ∧
    ∀ n, is_Some (Router.sy_running (Whole.wh_router s) !! n) →
      ∃ es reply log, Router.sy_done (Whole.wh_router s') !! n = Some (es, Some (reply, log)).
Proof.
  pose proof wit_half_ok as Hok. unfold wit_half_run, wit_started in *.
  destruct (@run ref_percent ref_url ref_sha256 ref_pki Ref.ref_http ref_audit
    Proxy.Claims.ref_outbound Main.Claims.ref_report Main.Claims.wit_yaml Main.Claims.wit_tokio
    Main.Claims.wit_cli (RunServer "connector.yaml"))
    as [o|warnings started|e|] eqn:E; [discriminate Hok| |discriminate Hok|discriminate Hok].
  cbn [mbind option_bind] in Hok.
  destruct (st_permits started) as [permits|] eqn:Ep; [|discriminate Hok]. cbn [mbind option_bind] in Hok.
  destruct (@Whole.steps ref_percent ref_url ref_sha256 ref_pki Ref.ref_http ref_pdp ref_audit
    (st_state started) (Whole.init (N.to_nat permits)) wit_half) as [s|] eqn:Es; [|discriminate Hok].
  injection Hok as Hsize.
  destruct (@server_drains ref_percent ref_url ref_sha256 ref_sha256_spec ref_pki Ref.ref_http
    ref_pdp ref_audit ref_audit_spec Proxy.Claims.ref_outbound Main.Claims.ref_report
    Main.Claims.wit_yaml Main.Claims.wit_tokio Main.Claims.wit_cli "connector.yaml" warnings started
    permits wit_half s E Ep Es) as (rest & s' & _ & Hrest & Hans & Hnone & _).
  exists started, permits, s, rest, s'. split; [reflexivity|]. split; [exact Ep|].
  split; [exact Es|]. split; [exact Hsize|]. split; [exact Hrest|]. split; [exact Hnone|].
  intros n Hn. destruct (Hans n Hn) as (job & l & c & w' & reply & log & _ & _ & Hd).
  exists (w_events w'), reply, log. exact Hd.
Defined.
End Claims.
